(* ===== verification/_CoqProject ===== *)
-Q . S2P
Prelude.v
Words.v
Identifier.v
Text.v
Types.v
Serde.v
Workload.v
Graph.v
GraphFacts.v
Inventory.v
Discover.v
Occupancy.v
Endpoint.v
Protocol.v
ProtocolFacts.v
DeviceFilter.v
DeviceFilterFacts.v
Provider.v
ProviderFacts.v
Execution.v
Agent.v
Transport.v
Handshake.v
AgentScenario.v
Cgroup.v
LinuxProcess.v
Probe.v
Command.v
Journal.v
Cluster.v
Ledger.v
LeaseTree.v
Handlers.v
ClusterInv.v
Steps.v
Safety.v
Authority.v
Bindings.v
Leases.v
Replay.v
Select.v
SelectFacts.v
SearchFacts.v
Admit.v
AdmitFacts.v
Ceilings.v
Scheduler.v
Scenario.v
Workloads.v
World.v
WorldFacts.v
Sim.v
WorldScenario.v
ServiceState.v
Service.v
Routing.v
Absorb.v
Controller.v
Registration.v
Server.v
Links.v
Remote.v
AgentRole.v
ServiceSpec.v
ServiceRefines.v
Waiting.v
PumpFacts.v
ServiceSafety.v
RestartFacts.v
AdmissionFacts.v
HeldFacts.v
ServerFacts.v
BootFacts.v
Accept.v
AcceptFacts.v
ServiceScenario.v
ServerScenario.v
AcceptScenario.v
Cli.v
CliFacts.v
