(* ===== verification/Prelude.v ===== *)
(** * Verification of Archon

    Archon leases heterogeneous compute resources.  Its authority is the crate
    src/crates/kernel: a deterministic transition function
    [Cluster::apply : Command -> Result<Vec<Effect>, Error>] over one state
    value, plus the scheduling functions that compute what to ask of it.  The
    crate src/crates/node holds the controller that drives the kernel
    (service.rs) and the agents that enforce its decisions on machines;
    src/crates/control is the server around the controller with its journal,
    src/crates/cli the binary, src/crates/sim a simulator of kernel and
    providers.  This development models them and proves what makes them an
    authority: capacity is never promised twice, it is not given back before
    the enforcing agent has acknowledged, errors change nothing, the journal
    determines the state, the scheduler only proposes what the authority
    accepts, the controller sends agents only what the kernel's records
    justify, and an agent enforces exactly what the current controller asks.

    ** The parts of the program and how they interact

    Kernel.  The resource graph (graph.rs) holds nodes with capacities,
    containment and other edges, claim contracts (which provider enforces a
    dimension of a node) and the discovery writers that own facts.  Occupancy
    (occupancy.rs) is computed from the lease table.  A lease (cluster.rs)
    holds claims on nodes; child leases divide their parent's claims; a
    binding is the provider-side half of a root lease on one node and carries
    a fence.  Commands change leases, bindings, sessions, node states and the
    graph; they return effects (prepare, activate, release, fence) for the
    machine's agent, whose acknowledgements come back as commands.  A lease
    that ended still occupies its nodes while one of its bindings is open.
    Placement (select.rs) computes an allocation for a request; admission
    (admit.rs) picks the queued request to place; preemption (preempt.rs)
    proposes victims.  Their results enter through [ReserveLease] and
    [OpenLease] like any other command.

    Controller.  The node service (service.rs) owns the cluster, the queue of
    workloads (workload.rs), one worker queue per agent (dispatch.rs) and the
    recovery state of returning machines (recovery.rs).  It commits commands
    (each to the journal), routes the effects to agents, absorbs their
    answers, starts a member when all its bindings are acknowledged, holds
    releases until a running member is proved stopped, restarts failed
    workloads and keeps service groups at their cardinality.  Registration
    turns a machine description (discover.rs) into graph facts.

    Agent.  A request (protocol.rs, transport.rs) reaches the agent's handler
    (agent.rs), which checks the controller's generation, drives the provider
    endpoints (provider.rs over endpoint.rs) and runs members as processes or
    containers (runtime.rs, container.rs, executor.rs) under a compiled
    device filter (device_filter.rs), inside the lease's cgroup (cgroup.rs,
    linux_process.rs).  Links are encrypted: two processes that hold the same
    token agree on a session by a Noise handshake (transport.rs).

    Server and command line.  The control plane (server.rs) boots from a
    snapshot and the journal, registers the configured agent link, answers
    clients (api.rs), admits after every request, maintains the service and
    compacts; every commit goes through its durable sink.  Every connection,
    of a client or of an agent that dials in, has a thread; a driver thread
    and maintenance run beside them, and all share the plane behind one lock.
    The binary
    (cli/src/main.rs) starts a server or an agent, or turns arguments into one
    client request and prints the answer.

    Simulator.  A world (sim/src/world.rs) is a kernel, one endpoint per
    enforced node, and the effects under way between them, which may be
    dropped, repeated and delayed while agents and controller restart;
    measure.rs drives it through an admission workload.

    ** Files

    Shared: Prelude ([u64] operations, [result] and its loops, sorting, B-tree
    iteration, sums over maps, tactics), Words (machine words), Identifier
    (validated identifiers at the byte level), Text (trimming, splitting,
    number parsing, paths), Serde (hand-written serialization of identifiers and
    of maps with compound keys).

    Definitions of the kernel, with the names of the source: Types (ids.rs,
    types.rs, error.rs), Graph, Occupancy, Endpoint, Command, Cluster,
    Replay ([Cluster::replay] and [Cluster::digest]), Select, Admit, Scheduler
    (preempt.rs and the scheduling methods of lib.rs).

    Definitions of the agent: Workload (workload.rs and the descriptions of
    machines of discover.rs), Discover and Inventory (the rest of
    discover.rs), Protocol, Transport (the encrypted stream), Handshake (how
    two processes come to share one), DeviceFilter, Provider, Execution
    (runtime.rs, container.rs, executor.rs), Agent, Cgroup, LinuxProcess,
    Probe (what an agent reads of its host), AgentRole (the process that
    serves connections, one after the other).  System calls and the container
    engine are operations of the class [Host], whose groups [linux_host]
    implements over the file system of the class [Files]; the system calls of
    a launch are the class [ProcKernel], the Noise library is the classes
    [NoiseSession], [NoiseOps] and [NoiseHandshake], host readings are the
    record [Readings].

    Definitions of the controller: ServiceState (the state and the
    monad [SM]), Service (commits, queue, limits, snapshots), Routing, Absorb,
    Controller (entry points), Registration, Waiting (waiting with a
    deadline); Journal (log.rs, with the ownership of the file).  Server
    (server.rs, api.rs); Accept (the threads of server.rs); Links (the trait
    [AgentClient], registration over it, the agent link of a server, the
    serving loop of an agent, the worker threads of dispatch.rs); Remote (the
    client of an agent across a connection); Cli (main.rs, with the
    environment as the record [Surroundings]).

    Definitions of the simulator: World (world.rs), Sim (fixture.rs,
    measure.rs, main.rs).

    Kernel handlers run in the monad [M] of Cluster and controller operations
    in [SM]: state and error monads whose error case carries the state
    reached, so that a half-applied operation is representable.  Maps and
    sets of the source are stdpp's [gmap] and [gset], read in key order;
    [Vec]s are lists.  A worker thread is the list of jobs it has not
    answered, the inbox the list of answers not absorbed; answers may arrive
    in any order and with any content.  A thread of the server is the phase it
    is in, and an event of [server_step] moves one thread; the lock is a flag
    that threads test and set, and a section is the list of calls its thread
    has yet to make, one per event.  The two sides of a handshake are processes that
    write, read or end, over a queue of bytes in each direction.

    Specifications and proofs of the kernel:
    - GraphFacts: the containment forest and its preservation, ownership;
    - Ledger: the abstract authority, a transition system of three moves with
      exact sums and its capacity law;
    - LeaseTree, Handlers: the lease forest; symbolic execution of the monad;
    - ClusterInv, Steps, Safety: the invariant [cluster_inv]; every command is
      a sequence of elementary steps, each of which preserves it and is a
      sequence of ledger moves;
    - Authority, Bindings, Leases, Replay: commands and histories;
    - SelectFacts, SearchFacts, AdmitFacts, Ceilings, Scheduler: placement,
      queues, ceilings, preemption and their agreement with the authority; the
      class [Placement] is what the scheduler's lemmas assume of placement,
      and [select] is its instance.

    Of the agent: ProtocolFacts, DeviceFilterFacts, ProviderFacts, and the
    second halves of Agent, Cgroup, LinuxProcess, Transport, Handshake, Remote,
    AgentRole and Probe.

    Of the controller:
    - ServiceSpec: the abstract controller [step] over the service and what
      was posted and taken up ([Ghost]), with the guard and contents of every
      request ([send_ok]) and the evidence a recorded stop or acknowledgement
      needs, and composition lemmas (hint database [refine]);
    - ServiceRefines: every operation is a sequence of those steps;
    - ServiceSafety: runs of arbitrary operations and answers ([ctl_runs]);
    - PumpFacts, HeldFacts, AdmissionFacts, RestartFacts, Waiting: one
      behaviour each;
    - Journal: what survives crashes in the middle of an append, and that the
      file has one owner;
    - ServerFacts, BootFacts: requests and maintenance as runs of the
      controller, compiled submissions, boot after any crash;
    - AcceptFacts: the interleavings of the server's threads against the
      sequential execution [serial], and who is let in;
    - CliFacts: arguments and requests, tokens, the identity of an agent.

    Of the simulator: WorldFacts (the invariant of kernel, endpoints and
    effects under way; delivery), Sim (the scale measurement).

    Scenario, Workloads, AgentScenario, ServiceScenario, ServerScenario,
    AcceptScenario and WorldScenario are concrete runs on which every theorem with hypotheses is
    applied.

    ** What the theorems show

    - Authority: in every state reached by any sequence of commands, clock,
      agreement and epoch changes, the occupancy the source computes with
      wrapping sums is the exact sum of the outermost occupying claims and
      within capacity; children stay within their parents; an endpoint with
      an exclusive binding has no other open one; each command refines the
      ledger; a failing command leaves the state as it was.
    - Leases and bindings: exact conditions of reservation, what activation
      has checked, what terminating a lease does to its subtree; leases and
      bindings only move forward; a binding closes only by an acknowledgement
      of the machine's current session with the binding's own fence; its
      lease occupies until then; exclusive fences increase until they wrap.
    - Replay: the command log rebuilds the state.
    - Placement: an allocation meets every need, constraint and locality
      requirement on each of the three search paths, and reserving it
      succeeds; the backtracking search misses a placement of a machine only
      by running out of budget; admission is first fit over a sorted queue;
      backfill keeps the capacity a blocked head waits for; owners stay within
      ceilings while sums fit in [u64]; preemption plans are minimal and
      deliver.
    - Agent: a closed binding stays closed, an older controller changes
      nothing; where groups are in use a member's processes start only inside
      the group of its lease, with all limits written and the filter of its
      devices installed, and where they are not the agent claims no enforcement
      and refuses devices; a launch ends when signals do, reports exactly what
      its child met and waits for a failed child;
      the compiled filter admits exactly the granted device numbers
      and terminates, enumeration proves what recovery concludes from it.
    - Links: frames read back as written; when both sides hold the token, the
      handshake ends under every schedule and the link then carries any
      sequence of frames, in both directions, unchanged; a side without the
      token is never accepted; a call across the link to an agent answers and
      changes what the same call in process does.
    - Controller: every operation refines the abstract controller: requests
      go out under their guards and with the contents the records determine,
      and no stop or acknowledgement is recorded that no agent's answer proves;
      every run,
      whatever agents answer, keeps the kernel invariant, and its journal
      replays to its kernel state; routing terminates and drains the pending
      effects; a held release is sent when the stop is proved; admission
      neither loses nor duplicates requests; restarts are capped and spaced.
    - Journal and server: after any number of crashes the records read back
      are the ones completely written, in order; a boot recovers the state of
      the last durable boundary whatever was compacted; no sequence of client
      requests, registrations and maintenance overcommits; exactly
      the well-formed submissions are accepted, and ask placement for what the
      client wrote; the plane's lock lets in one thread at a time, so every
      interleaving of the server's threads is a sequential execution of their
      sections, and is given back or poisoned; a peer without the token
      changes nothing; a journal file has at most one writer.
    - Kernel and providers together: whatever is lost, repeated or delayed and
      whoever restarts, an endpoint enforces only a binding whose lease still
      occupies the node; controller crashes are invisible; delivery ends; the
      scale measurement ends and places every request exactly once.
    - Command line: every wire request can be written as arguments and is
      parsed back, with the workload's command untouched; the numbers of a
      request are the ones typed, or the program exits.
    - Where the code does less than it documents, the theorem states what it
      does: [replacement_cap_forgotten], [cpu_placement_never_pinned],
      [stop_after_failed_kill], [completed_overwritten], [ceiling_wraps],
      [exclusive_fence_wraps], [submit_reports_foreign_lease],
      [blank_token_file_opens], [ceiling_admission_loses_request],
      [reconnect_forgets_containers].

    ** Bounds and fuel

    Capacities and claim amounts are [u64]: histories are quantified over
    commands whose amounts fit ([op_u64], and [command_u64] of the commands a
    controller accepted), which the wire format guarantees.  Release builds do
    not check overflow, so an unchecked [+] wraps; the two places of the kernel
    where that changes a result are stated as theorems.  The parent walk, the
    descendant worklist and the lease walk take fuel (the number of parent
    links plus one, of nodes, of leases plus one); the theorems about them
    show that this fuel is enough whenever the forest invariant holds.  The
    evaluator of device filters takes ten steps per rule and five more, which
    is enough for every program the compiler emits ([device_filter_exact]).
    [pump] takes the total weight of the pending
    effects, where a reconciliation weighs one more than all its commands can
    emit; [pump_drains] proves it against the unbounded loop.  [read_loop] of
    the journal takes the length of the file plus one, word splitting the
    length of the text plus one.  [deliver_all] of the simulator takes fuel;
    [delivery_ends] shows that from every world some fuel is enough and more
    changes nothing.  [admit_queue] takes the queue's length plus one, which
    [admission_loop_ends] shows to be enough.  The retries of a launch after
    signals take fuel because nothing bounds them; [launch_truthful] shows that
    every launch whose system calls are interrupted finitely often ends.  The
    scale measurement takes fuel for its deliveries; [measure_sound] shows that
    some fuel is enough and more changes nothing.  The walk of [Inventory] up the
    host parents takes the number of host nodes plus two.  The search budget of
    placement is the source's own constant.  Loops with a deadline are given the
    list of what happens during each wait before it; the list may be of any
    length.  A run of a handshake is any schedule of its two sides.  Scores are [i64] sums of a few
    bounded terms per claim and preference and are modelled in [Z].

    ** Not modelled

    Derived serialization (parameters with their round trip as hypotheses where
    a theorem needs it); fsync, beyond what a crash may cut off; sockets and
    their timeouts ([set_stream_limits]), which appear as connections that end;
    the poisoning of locks other than the plane's; the raw calls under the interfaces [Host], [Files],
    [ProcKernel] and [Readings] ([open_fd], [bpf_syscall], the container engine;
    the prefix of container names, drawn from the clock, is a parameter); builds
    for other systems than Linux; formatting of errors and reports for people,
    wall-clock figures and log lines; the tests of the source. *)

From stdpp Require Export base gmap sets list strings pretty numbers sorting.

#[global] Open Scope N_scope.

(** ** Machine integers

    Rust's [u64] values are modelled by [N] together with the width written
    out in each operation: saturating operations clamp, unchecked [+] wraps
    (the release profile of the workspace does not enable overflow checks). *)

Abbreviation u64 := N (only parsing).

Definition u64_modulus : N := 2 ^ 64.
Definition u64_max : N := u64_modulus - 1.

Definition is_u64 (n : N) : bool := n <? u64_modulus.

Definition sat_add (a b : N) : N := N.min (a + b) u64_max.
Definition sat_sub (a b : N) : N := a - b.
Definition wrap_add (a b : N) : N := (a + b) mod u64_modulus.

Lemma wrap_add_exact a b : a + b < u64_modulus → wrap_add a b = a + b.
Proof. intros H. unfold wrap_add. by apply N.mod_small. Qed.

Lemma wrap_add_lt a b : wrap_add a b < u64_modulus.
Proof. unfold wrap_add. by apply N.mod_lt. Qed.

Lemma wrap_add_mod_l a b : wrap_add (a mod u64_modulus) b = (a + b) mod u64_modulus.
Proof. unfold wrap_add. by rewrite N.Div0.add_mod_idemp_l. Qed.

Lemma is_u64_spec n : is_u64 n = true ↔ n < u64_modulus.
Proof. unfold is_u64. apply N.ltb_lt. Qed.

(** ** Results: Rust's [Result<A, E>] *)

Inductive result (E A : Type) : Type :=
| Ok (a : A)
| Err (e : E).
Arguments Ok {E A} a.
Arguments Err {E A} e.

#[export] Instance result_eq_dec `{EqDecision E, EqDecision A} : EqDecision (result E A).
Proof. solve_decision. Defined.
#[export] Instance result_ret {E} : MRet (result E) := λ A a, Ok a.
#[export] Instance result_bind {E} : MBind (result E) :=
  λ A B f r, match r with Ok a => f a | Err e => Err e end.
#[export] Instance result_fmap {E} : FMap (result E) :=
  λ A B f r, match r with Ok a => Ok (f a) | Err e => Err e end.

Definition is_ok {E A} (r : result E A) : bool :=
  match r with Ok _ => true | Err _ => false end.

(** [Option::ok_or]. *)
Definition ok_or {E A} (o : option A) (e : E) : result E A :=
  match o with Some a => Ok a | None => Err e end.

(** A loop whose body may return early with an error, threading an
    accumulator: [for x in l { acc = f(acc, x)?; }]. *)
Fixpoint try_fold {E A B} (f : B → A → result E B) (acc : B) (l : list A) : result E B :=
  match l with
  | [] => Ok acc
  | x :: l => acc' ← f acc x; try_fold f acc' l
  end.

(** A loop whose body only checks: [for x in l { check(x)?; }]. *)
Fixpoint try_for {E A} (f : A → result E unit) (l : list A) : result E unit :=
  match l with
  | [] => Ok ()
  | x :: l => _ ← f x; try_for f l
  end.

(** [l.iter().map(f).collect::<Result<_, _>>()]. *)
Fixpoint try_map {E A B} (f : A → result E B) (l : list A) : result E (list B) :=
  match l with
  | [] => Ok []
  | x :: l => y ← f x; ys ← try_map f l; Ok (y :: ys)
  end.

Definition guard_err {E} (b : bool) (e : E) : result E unit :=
  if b then Ok () else Err e.

Lemma bind_Ok_inv {E A B} (f : A → result E B) (r : result E A) (b : B) :
  (r ≫= f) = Ok b → ∃ a, r = Ok a ∧ f a = Ok b.
Proof. destruct r; [eauto | discriminate]. Qed.

Section results.
Context {E A B : Type}.

Lemma guard_err_Ok (b : bool) (e : E) (u : unit) : guard_err b e = Ok u ↔ b = true.
Proof. destruct b, u; simpl; split; congruence. Qed.

Lemma ok_or_Ok (o : option A) (e : E) (a : A) : ok_or o e = Ok a ↔ o = Some a.
Proof. destruct o; simpl; split; congruence. Qed.

Lemma try_for_Ok (f : A → result E unit) l u :
  try_for f l = Ok u ↔ ∀ x, x ∈ l → f x = Ok ().
Proof.
  destruct u. induction l as [|x l IH]; simpl.
  { split; [intros _ x Hx; by apply elem_of_nil in Hx | done]. }
  destruct (f x) as [[]|e] eqn:Hf; simpl.
  - rewrite IH. split.
    + intros Hl y [->|Hy]%elem_of_cons; auto.
    + intros Hl y Hy. apply Hl. by right.
  - split; [done|]. intros Hl.
    pose proof (Hl x ltac:(by left)). congruence.
Qed.

Lemma try_map_Forall2 (f : A → result E B) l l' :
  try_map f l = Ok l' ↔ Forall2 (λ x y, f x = Ok y) l l'.
Proof.
  revert l'. induction l as [|x l IH]; intros l'; simpl.
  - split; [intros [= <-]; constructor | inversion 1; done].
  - split.
    + intros (y & Hy & (ys & Hys & [= <-])%bind_Ok_inv)%bind_Ok_inv.
      constructor; [done|]. by apply IH.
    + inversion 1 as [|? y ? ys Hy Hys]; subst.
      rewrite Hy. simpl. apply IH in Hys. by rewrite Hys.
Qed.

Lemma try_fold_snoc (f : B → A → result E B) l x acc :
  try_fold f acc (l ++ [x]) = acc ← try_fold f acc l; f acc x.
Proof.
  revert acc. induction l as [|y l IH]; intros acc; simpl.
  - by destruct (f acc x).
  - destruct (f acc y) as [acc'|]; [apply IH|done].
Qed.

Lemma try_fold_ind (P : B → Prop) (f : B → A → result E B) l acc acc' :
  P acc →
  (∀ b x b', x ∈ l → P b → f b x = Ok b' → P b') →
  try_fold f acc l = Ok acc' → P acc'.
Proof.
  revert acc. induction l as [|x l IH]; simpl; intros acc Hacc Hstep Hrun.
  - by simplify_eq.
  - apply bind_Ok_inv in Hrun as (b & Hb & Hrun).
    apply (IH b); [eapply Hstep; [by left|done..] | | done].
    intros b0 y b' Hy. apply Hstep. by right.
Qed.
End results.

(** ** Sorting

    [slice::sort_by] is a stable sort: equal elements keep their order.
    Insertion from the right has exactly that behaviour. *)

Section sort_by.
Context {A : Type} (leb : A → A → bool).

Fixpoint insert_by (x : A) (l : list A) : list A :=
  match l with
  | [] => [x]
  | y :: l' => if leb x y then x :: l else y :: insert_by x l'
  end.

Definition sort_by (l : list A) : list A := foldr insert_by [] l.

Lemma insert_by_perm x l : insert_by x l ≡ₚ x :: l.
Proof.
  induction l as [|y l IH]; simpl; [done|].
  destruct (leb x y); [done|]. rewrite IH. apply Permutation_swap.
Qed.

Lemma sort_by_perm l : sort_by l ≡ₚ l.
Proof.
  induction l as [|x l IH]; simpl; [done|]. by rewrite insert_by_perm, IH.
Qed.

Lemma elem_of_sort_by x l : x ∈ sort_by l ↔ x ∈ l.
Proof. by rewrite sort_by_perm. Qed.

Context (leb_total : ∀ x y, leb x y = true ∨ leb y x = true).
Context (leb_trans : ∀ x y z, leb x y = true → leb y z = true → leb x z = true).

Lemma insert_by_sorted x l :
  StronglySorted (λ a b, leb a b = true) l →
  StronglySorted (λ a b, leb a b = true) (insert_by x l).
Proof.
  induction 1 as [|y l Hl IH Hy]; simpl; [repeat constructor|].
  destruct (leb x y) eqn:Hxy.
  - constructor; [by constructor|]. constructor; [done|].
    eapply Forall_impl; [exact Hy|]. eauto.
  - constructor; [done|]. rewrite insert_by_perm. constructor; [|done].
    destruct (leb_total x y); congruence.
Qed.

Lemma sort_by_sorted l : StronglySorted (λ a b, leb a b = true) (sort_by l).
Proof. induction l; simpl; [constructor | by apply insert_by_sorted]. Qed.
End sort_by.

(** Two sorted permutations agree when the order is antisymmetric on them. *)
Lemma sorted_perm_unique {A} (leb : A → A → bool) (l l' : list A) :
  (∀ x y, x ∈ l → y ∈ l → leb x y = true → leb y x = true → x = y) →
  StronglySorted (λ a b, leb a b = true) l →
  StronglySorted (λ a b, leb a b = true) l' →
  l ≡ₚ l' → l = l'.
Proof.
  intros Hanti Hl. revert l'. induction Hl as [|x l Hl IH Hx]; intros l' Hl' Hperm.
  - by apply Permutation_nil in Hperm.
  - destruct Hl' as [|y l' Hl' Hy]; [by apply Permutation_sym, Permutation_nil_cons in Hperm|].
    assert (x = y) as <-.
    { assert (x ∈ y :: l') as [->|Hxl']%elem_of_cons by (rewrite <-Hperm; by left); [done|].
      assert (y ∈ x :: l) as [->|Hyl]%elem_of_cons by (rewrite Hperm; by left); [done|].
      rewrite Forall_forall in Hx, Hy.
      apply Hanti; [by left|by right|by apply Hx|by apply Hy]. }
    f_equal. apply IH; [|done|by apply Permutation_cons_inv in Hperm].
    intros a b Ha Hb. apply Hanti; by right.
Qed.

(** ** Ordered keys and B-tree iteration

    A [BTreeMap] is a [gmap]; its iteration order is the key order. *)

Class BOrd (K : Type) := {
  bleb : K → K → bool;
  bleb_total x y : bleb x y = true ∨ bleb y x = true;
  bleb_trans x y z : bleb x y = true → bleb y z = true → bleb x z = true;
  bleb_antisym x y : bleb x y = true → bleb y x = true → x = y;
}.

#[export] Program Instance BOrd_N : BOrd N := {| bleb := N.leb |}.
Next Obligation. intros x y. rewrite !N.leb_le. lia. Qed.
Next Obligation. intros x y z. rewrite !N.leb_le. lia. Qed.
Next Obligation. intros x y. rewrite !N.leb_le. lia. Qed.

#[export] Program Instance BOrd_nat : BOrd nat := {| bleb := Nat.leb |}.
Next Obligation. intros x y. rewrite !Nat.leb_le. lia. Qed.
Next Obligation. intros x y z. rewrite !Nat.leb_le. lia. Qed.
Next Obligation. intros x y. rewrite !Nat.leb_le. lia. Qed.

#[export] Program Instance BOrd_string : BOrd string := {| bleb := String.leb |}.
Next Obligation.
  intros x y. destruct (total String.le x y) as [H|H]; apply Is_true_true in H; auto.
Qed.
Next Obligation.
  intros x y z Hx Hy. apply Is_true_true. by trans y; apply Is_true_true.
Qed.
Next Obligation.
  intros x y Hx Hy. apply (anti_symm String.le); by apply Is_true_true.
Qed.

Section btree.
Context `{Countable K, !BOrd K} {V : Type}.
Implicit Types (m : gmap K V).

(** [map.iter()] *)
Definition bt_iter (m : gmap K V) : list (K * V) :=
  sort_by (λ p q, bleb p.1 q.1) (map_to_list m).
(** [map.keys()] and [map.values()] *)
Definition bt_keys (m : gmap K V) : list K := (bt_iter m).*1.
Definition bt_values (m : gmap K V) : list V := (bt_iter m).*2.

Lemma bt_iter_perm m : bt_iter m ≡ₚ map_to_list m.
Proof. apply sort_by_perm. Qed.

Lemma elem_of_bt_iter m k v : (k, v) ∈ bt_iter m ↔ m !! k = Some v.
Proof. unfold bt_iter. by rewrite elem_of_sort_by, elem_of_map_to_list. Qed.

Lemma elem_of_bt_values m v : v ∈ bt_values m ↔ ∃ k, m !! k = Some v.
Proof.
  unfold bt_values. rewrite list_elem_of_fmap. setoid_rewrite <-elem_of_bt_iter.
  split; [intros ([k v'] & -> & Hk); eauto | intros (k & Hk); by exists (k, v)].
Qed.

Lemma elem_of_bt_keys m k : k ∈ bt_keys m ↔ is_Some (m !! k).
Proof.
  unfold bt_keys. rewrite list_elem_of_fmap. split.
  - intros ([k' v] & -> & Hk). exists v. by apply elem_of_bt_iter.
  - intros [v Hv]. exists (k, v). by rewrite elem_of_bt_iter.
Qed.

Lemma bt_keys_NoDup m : NoDup (bt_keys m).
Proof. unfold bt_keys. rewrite bt_iter_perm. apply NoDup_fst_map_to_list. Qed.

Lemma bt_keys_sorted m : StronglySorted (λ a b, bleb a b = true) (bt_keys m).
Proof.
  unfold bt_keys.
  assert (StronglySorted (λ p q : K * V, bleb p.1 q.1 = true) (bt_iter m)) as Hs.
  { apply sort_by_sorted; intros; eauto using bleb_total, bleb_trans. }
  induction Hs as [|p l Hl IH Hp]; simpl; constructor; [done|].
  by apply Forall_fmap.
Qed.
End btree.

Lemma bt_iter_sorted `{Countable K, !BOrd K} {V} (m : gmap K V) :
  StronglySorted (λ p q : K * V, bleb p.1 q.1 = true) (bt_iter m).
Proof. apply sort_by_sorted; intros; eauto using bleb_total, bleb_trans. Qed.

Lemma bt_iter_fmap `{Countable K, !BOrd K} {V W} (f : V → W) (m : gmap K V) :
  bt_iter (f <$> m) = prod_map id f <$> bt_iter m.
Proof.
  apply (sorted_perm_unique (λ p q : K * W, bleb p.1 q.1)).
  - intros [k v] [k' v'] Hv%elem_of_bt_iter Hv'%elem_of_bt_iter Hle Hge. simpl in *.
    assert (k = k') as -> by (by apply bleb_antisym). congruence.
  - apply bt_iter_sorted.
  - pose proof (bt_iter_sorted m) as Hs. induction Hs as [|p l Hl IH Hp]; [constructor|].
    rewrite fmap_cons. constructor; [done|]. by apply Forall_fmap.
  - rewrite !bt_iter_perm. by rewrite map_to_list_fmap.
Qed.

Lemma bt_values_fmap `{Countable K, !BOrd K} {V W} (f : V → W) (m : gmap K V) :
  bt_values (f <$> m) = f <$> bt_values m.
Proof. unfold bt_values. rewrite bt_iter_fmap, <-!list_fmap_compose. done. Qed.

(** Iteration over a [BTreeSet]. *)
Definition bs_iter `{Countable K, !BOrd K} (s : gset K) : list K :=
  sort_by bleb (elements s).

Lemma elem_of_bs_iter `{Countable K, !BOrd K} (s : gset K) x : x ∈ bs_iter s ↔ x ∈ s.
Proof. unfold bs_iter. by rewrite elem_of_sort_by, elem_of_elements. Qed.

(** ** Boolean combinators on lists: [Iterator::any], [all], [find]. *)

Lemma existsb_elem {A} (f : A → bool) (l : list A) :
  existsb f l = true ↔ ∃ x, x ∈ l ∧ f x = true.
Proof. rewrite existsb_exists. by setoid_rewrite list_elem_of_In. Qed.

Lemma existsb_false {A} (f : A → bool) (l : list A) :
  existsb f l = false ↔ ∀ x, x ∈ l → f x = false.
Proof.
  rewrite <-not_true_iff_false, existsb_elem. split.
  - intros Hn x Hx. apply not_true_is_false. eauto.
  - intros Hall (x & Hx & Hf). by rewrite Hall in Hf.
Qed.

Lemma forallb_elem {A} (f : A → bool) (l : list A) :
  forallb f l = true ↔ ∀ x, x ∈ l → f x = true.
Proof. rewrite forallb_forall. by setoid_rewrite list_elem_of_In. Qed.

Lemma find_some_elem {A} (f : A → bool) (l : list A) x :
  List.find f l = Some x → x ∈ l ∧ f x = true.
Proof. rewrite list_elem_of_In. apply find_some. Qed.

Lemma find_none_elem {A} (f : A → bool) (l : list A) :
  List.find f l = None → ∀ x, x ∈ l → f x = false.
Proof. intros Hn x Hx%list_elem_of_In. by eapply find_none. Qed.

(** ** Sums over finite maps *)

Section sum_map.
Context `{Countable K} {V : Type}.
Implicit Types (m : gmap K V) (f g : K → V → N).

Definition sum_map f m : N := map_fold (λ k v acc, f k v + acc) 0 m.

Lemma sum_map_empty f : sum_map f ∅ = 0.
Proof. apply map_fold_empty. Qed.

Lemma sum_map_insert f m k v :
  m !! k = None → sum_map f (<[k:=v]> m) = f k v + sum_map f m.
Proof. intros Hk. apply (map_fold_insert_L (λ k v acc, f k v + acc)); [intros; lia|done]. Qed.

Lemma sum_map_delete f m k v :
  m !! k = Some v → sum_map f m = f k v + sum_map f (delete k m).
Proof. intros Hk. apply (map_fold_delete_L (λ k v acc, f k v + acc)); [intros; lia|done]. Qed.

Lemma sum_map_update f m k v v' :
  m !! k = Some v → sum_map f (<[k:=v']> m) + f k v = sum_map f m + f k v'.
Proof.
  intros Hk. rewrite <-insert_delete_eq, sum_map_insert by apply lookup_delete_eq.
  rewrite (sum_map_delete f m k v Hk). lia.
Qed.

Lemma sum_map_le f g m :
  (∀ k v, m !! k = Some v → f k v ≤ g k v) → sum_map f m ≤ sum_map g m.
Proof.
  induction m as [|k v m Hk IH] using map_ind; intros Hle.
  - by rewrite !sum_map_empty.
  - rewrite !sum_map_insert by done.
    assert (f k v ≤ g k v) by (apply Hle, lookup_insert_eq).
    assert (sum_map f m ≤ sum_map g m); [|lia].
    apply IH. intros k' v' Hk'. apply Hle. rewrite lookup_insert_ne; naive_solver.
Qed.

Lemma sum_map_ext f g m :
  (∀ k v, m !! k = Some v → f k v = g k v) → sum_map f m = sum_map g m.
Proof.
  intros Heq. apply N.le_antisymm; apply sum_map_le; intros k v Hk;
    by rewrite (Heq k v Hk).
Qed.

Lemma sum_map_add f g m :
  sum_map (λ k v, f k v + g k v) m = sum_map f m + sum_map g m.
Proof.
  induction m as [|k v m Hk IH] using map_ind.
  - by rewrite !sum_map_empty.
  - rewrite !sum_map_insert by done. lia.
Qed.

Lemma sum_map_zero f m :
  (∀ k v, m !! k = Some v → f k v = 0) → sum_map f m = 0.
Proof.
  intros Hz. assert (sum_map f m ≤ sum_map (λ _ _, 0) m) as Hle.
  { apply sum_map_le. intros k v Hk. by rewrite (Hz k v Hk). }
  assert (sum_map (λ _ _, 0) m = 0) as H0; [|lia].
  clear. induction m as [|k v m Hk IH] using map_ind; [apply sum_map_empty|].
  by rewrite sum_map_insert.
Qed.

Lemma sum_map_fmap {W} (f : K → W → N) (g : V → W) (m : gmap K V) :
  map_fold (λ k v acc, f k v + acc) 0 (g <$> m) = sum_map (λ k v, f k (g v)) m.
Proof. unfold sum_map. by rewrite map_fold_fmap. Qed.

Lemma sum_map_lookup_le f m k v : m !! k = Some v → f k v ≤ sum_map f m.
Proof. intros Hk. rewrite (sum_map_delete f m k v Hk). lia. Qed.
End sum_map.

(** ** Folding keyed updates over a B-tree map *)

Section keyed_fold.
Context `{Countable K, !BOrd K} {V W : Type}.

Lemma keyed_fold_lookup (step : gmap K W → K * V → gmap K W)
    (g : option W → V → option W) (l : list (K * V)) (m : gmap K W) k :
  (∀ m k a j, step m (k, a) !! j = if decide (k = j) then g (m !! k) a else m !! j) →
  NoDup l.*1 →
  foldl step m l !! k
  = match (list_to_map l : gmap K V) !! k with Some a => g (m !! k) a | None => m !! k end.
Proof.
  intros Hstep. revert m. induction l as [|[j a] l IH]; intros m Hnd; [done|].
  apply NoDup_cons in Hnd as [Hj Hnd]. cbn [foldl list_to_map foldr].
  rewrite IH by done. cbn [uncurry]. rewrite Hstep. destruct (decide (j = k)) as [->|Hne].
  - rewrite (not_elem_of_list_to_map_1 (M:=gmap K)) by done. by rewrite lookup_insert_eq.
  - by rewrite lookup_insert_ne.
Qed.

Lemma bt_iter_to_map (r : gmap K V) : list_to_map (bt_iter r) = r.
Proof.
  rewrite <-(list_to_map_to_list r) at 2. apply list_to_map_proper; [|apply bt_iter_perm].
  apply bt_keys_NoDup.
Qed.

Lemma bt_fold_lookup (step : gmap K W → K * V → gmap K W)
    (g : option W → V → option W) (r : gmap K V) (m : gmap K W) k :
  (∀ m k a j, step m (k, a) !! j = if decide (k = j) then g (m !! k) a else m !! j) →
  foldl step m (bt_iter r) !! k
  = match r !! k with Some a => g (m !! k) a | None => m !! k end.
Proof.
  intros Hstep. rewrite (keyed_fold_lookup step g) by (done || apply bt_keys_NoDup).
  by rewrite bt_iter_to_map.
Qed.
End keyed_fold.

(** ** Automation shared by the components *)

Create HintDb archon.
Create Rewrite HintDb quantity.

(** Split a chain of monadic binds that succeeded. *)
Ltac inv_bind H :=
  let x := fresh "v" in let Hx := fresh "Hv" in
  apply bind_Ok_inv in H as (x & Hx & H).

(** Case on every remaining [match] of the hypothesis that records a run. *)
Ltac split_run H :=
  repeat (match type of H with context [match ?x with _ => _ end] => destruct x eqn:? end;
          try discriminate H).
