(* ===== verification/Words.v ===== *)
(** Fixed-width integers in [Z]: the casts of the source written out.

    The crates around the kernel convert between widths ([as u32], [as i16],
    [to_le_bytes], ...).  A [uN] value is a [Z] in [0, 2^N), an [iN] value one
    in [-2^(N-1), 2^(N-1)); each cast is reduction into the target range.
    [bits] proves equalities of such words bit by bit. *)

From S2P Require Import Prelude.
From Stdlib Require Import ZArith Btauto.

Local Open Scope Z_scope.

(** ** Casts *)

Definition as_unsigned (w : Z) (z : Z) : Z := z mod 2 ^ w.
Definition as_signed (w : Z) (z : Z) : Z := (z + 2 ^ (w - 1)) mod 2 ^ w - 2 ^ (w - 1).

Definition as_u8 : Z → Z := as_unsigned 8.
Definition as_u16 : Z → Z := as_unsigned 16.
Definition as_u32 : Z → Z := as_unsigned 32.
Definition as_u64 : Z → Z := as_unsigned 64.
Definition as_i16 : Z → Z := as_signed 16.
Definition as_i32 : Z → Z := as_signed 32.

(** [!x] on a [uN]. *)
Definition not_word (w : Z) (z : Z) : Z := as_unsigned w (Z.lnot z).

Definition in_unsigned (w z : Z) : bool := (0 <=? z) && (z <? 2 ^ w).
Definition in_signed (w z : Z) : bool := (- 2 ^ (w - 1) <=? z) && (z <? 2 ^ (w - 1)).

Lemma in_unsigned_spec w z : in_unsigned w z = true ↔ 0 ≤ z < 2 ^ w.
Proof. unfold in_unsigned. rewrite andb_true_iff, Z.leb_le, Z.ltb_lt. done. Qed.

Lemma in_signed_spec w z : in_signed w z = true ↔ - 2 ^ (w - 1) ≤ z < 2 ^ (w - 1).
Proof. unfold in_signed. rewrite andb_true_iff, Z.leb_le, Z.ltb_lt. done. Qed.

Section casts.
Context (w : Z) (Hw : 0 < w).

Lemma pow2_split : 2 ^ w = 2 * 2 ^ (w - 1).
Proof. rewrite <-Z.pow_succ_r by lia. f_equal. lia. Qed.

Lemma pow2_pos : 0 < 2 ^ w.
Proof. apply Z.pow_pos_nonneg; lia. Qed.

Lemma pow2_half_pos : 0 < 2 ^ (w - 1).
Proof. apply Z.pow_pos_nonneg; lia. Qed.

Lemma as_unsigned_in z : 0 ≤ as_unsigned w z < 2 ^ w.
Proof. apply Z.mod_pos_bound, pow2_pos. Qed.

Lemma as_signed_in z : - 2 ^ (w - 1) ≤ as_signed w z < 2 ^ (w - 1).
Proof.
  unfold as_signed. pose proof (Z.mod_pos_bound (z + 2 ^ (w - 1)) (2 ^ w) pow2_pos).
  rewrite pow2_split in *. lia.
Qed.

Lemma as_unsigned_small z : 0 ≤ z < 2 ^ w → as_unsigned w z = z.
Proof. apply Z.mod_small. Qed.

Lemma as_signed_small z : - 2 ^ (w - 1) ≤ z < 2 ^ (w - 1) → as_signed w z = z.
Proof.
  intros H. unfold as_signed. rewrite Z.mod_small; [lia|]. rewrite pow2_split. lia.
Qed.

(** Casting to the signed type of the same width and back is the identity on
    words: no bit is lost. *)
Lemma as_unsigned_as_signed z : as_unsigned w (as_signed w z) = as_unsigned w z.
Proof.
  unfold as_unsigned, as_signed. pose proof pow2_pos.
  rewrite Zminus_mod, Z.mod_mod, <-Zminus_mod by lia. f_equal. lia.
Qed.

Lemma as_signed_as_unsigned z : as_signed w (as_unsigned w z) = as_signed w z.
Proof. unfold as_signed, as_unsigned. by rewrite Zplus_mod_idemp_l. Qed.
End casts.

(** ** Bitwise reasoning *)

Lemma testbit_as_unsigned w z i :
  0 ≤ w → 0 ≤ i → Z.testbit (as_unsigned w z) i = (i <? w) && Z.testbit z i.
Proof.
  intros Hw Hi. unfold as_unsigned. destruct (Z.ltb_spec i w).
  - by rewrite Z.mod_pow2_bits_low.
  - by rewrite Z.mod_pow2_bits_high by lia.
Qed.

Lemma testbit_small w z i : 0 ≤ z < 2 ^ w → 0 ≤ w → w ≤ i → Z.testbit z i = false.
Proof.
  intros Hz Hw Hi. rewrite <-(Z.mod_small z (2 ^ w)) by done.
  by apply Z.mod_pow2_bits_high.
Qed.

Lemma testbit_ones w i : 0 ≤ w → 0 ≤ i → Z.testbit (Z.ones w) i = (i <? w).
Proof.
  intros Hw Hi. destruct (Z.ltb_spec i w).
  - apply Z.ones_spec_low; lia.
  - apply Z.ones_spec_high; lia.
Qed.

Create Rewrite HintDb word_bits.
#[export] Hint Rewrite Z.land_spec Z.lor_spec Z.lxor_spec Z.ldiff_spec Z.shiftr_spec Z.shiftl_spec Z.lnot_spec
  testbit_as_unsigned testbit_ones Z.bits_0 using lia : word_bits.

(** Settle the bits whose index is out of range, and split on the comparisons
    of an index with a constant. *)
Ltac bits_split :=
  repeat match goal with
  | |- context [Z.testbit ?z ?i] => rewrite (Z.testbit_neg_r z i) by lia
  | |- context [Z.testbit (Z.ones ?w) ?i] => rewrite (testbit_ones w i) by lia
  | H : 0 ≤ ?z < 2 ^ ?w |- context [Z.testbit ?z ?i] =>
      rewrite (testbit_small w z i H) by lia
  | |- context [?a <? ?b] => destruct (Z.ltb_spec a b); try lia
  | |- context [Z.testbit ?z (?i - ?k)] =>
      lazymatch goal with
      | _ : i < k |- _ => fail
      | _ : k ≤ i |- _ => fail
      | _ => destruct (Z.lt_ge_cases i k)
      end
  end.

(** Prove an equality of words bit by bit. *)
Ltac bits :=
  apply Z.bits_inj'; intros ?i ?Hi;
  autorewrite with word_bits; bits_split;
  autorewrite with word_bits; bits_split; cbn [andb orb negb];
  rewrite ?orb_false_r, ?andb_true_r, ?andb_false_r, ?Z.add_simpl_r;
  try btauto; try (f_equal; lia).

Lemma land_ones_unsigned w z : 0 ≤ w → Z.land z (Z.ones w) = as_unsigned w z.
Proof. intros. unfold as_unsigned. by apply Z.land_ones. Qed.

(** ** Little- and big-endian bytes: [uN::to_le_bytes], [uN::from_le_bytes]

    A byte is a [Z] in [0, 256). *)

Fixpoint to_le_bytes (n : nat) (z : Z) : list Z :=
  match n with
  | O => []
  | S n => z mod 256 :: to_le_bytes n (z / 256)
  end.

Fixpoint from_le_bytes (bs : list Z) : Z :=
  match bs with
  | [] => 0
  | b :: bs => b + 256 * from_le_bytes bs
  end.

Definition to_be_bytes (n : nat) (z : Z) : list Z := reverse (to_le_bytes n z).
Definition from_be_bytes (bs : list Z) : Z := from_le_bytes (reverse bs).

Definition is_byte (b : Z) : Prop := 0 ≤ b < 256.

Lemma to_le_bytes_length n z : length (to_le_bytes n z) = n.
Proof. revert z. induction n; simpl; auto. Qed.

Lemma to_be_bytes_length n z : length (to_be_bytes n z) = n.
Proof. unfold to_be_bytes. by rewrite length_reverse, to_le_bytes_length. Qed.

Lemma to_le_bytes_byte n z : Forall is_byte (to_le_bytes n z).
Proof.
  revert z. induction n; simpl; constructor; [|done].
  apply Z.mod_pos_bound. lia.
Qed.

Lemma to_be_bytes_byte n z : Forall is_byte (to_be_bytes n z).
Proof. apply Forall_reverse, to_le_bytes_byte. Qed.

Lemma from_to_le_bytes n z : from_le_bytes (to_le_bytes n z) = z mod 256 ^ Z.of_nat n.
Proof.
  revert z. induction n as [|n IH]; intros z; [by rewrite Z.mod_1_r|].
  cbn [to_le_bytes from_le_bytes]. rewrite IH, Nat2Z.inj_succ, Z.pow_succ_r by lia.
  rewrite Z.rem_mul_r; [lia|lia|]. apply Z.pow_pos_nonneg; lia.
Qed.

Lemma from_to_be_bytes n z : from_be_bytes (to_be_bytes n z) = z mod 256 ^ Z.of_nat n.
Proof. unfold from_be_bytes, to_be_bytes. by rewrite reverse_involutive, from_to_le_bytes. Qed.

Lemma from_le_bytes_bound bs :
  Forall is_byte bs → 0 ≤ from_le_bytes bs < 256 ^ Z.of_nat (length bs).
Proof.
  induction 1 as [|b bs Hb _ IH]; [done|].
  cbn [from_le_bytes length]. rewrite Nat2Z.inj_succ, Z.pow_succ_r by lia.
  unfold is_byte in Hb. lia.
Qed.
