(* ===== verification/Identifier.v ===== *)
(** * Validated identifiers (crates/kernel/src/types.rs)

    [ResourceClass] and [CapacityDimension] are generated by the macro
    [validated_identifier!]: a fixed 63-byte array plus a length, compared
    byte-wise.  This file models that representation, its validation and its
    derived order, and proves that the textual view used by the rest of the
    development (plain strings ordered lexicographically) is faithful to it. *)

From S2P Require Import Prelude.

Definition MAX_IDENTIFIER_LEN : nat := 63.

Inductive IdentifierError :=
| IdEmpty
| IdTooLong
| IdInvalidCharacter (index : nat)
| IdInvalidBoundary.

(** [<$name> { bytes: [u8; 63], len: u8 }] *)
Record Identifier := mkIdentifier {
  ident_bytes : list Ascii.ascii;
  ident_len : nat;
}.

Definition byte_in (lo hi : N) (b : Ascii.ascii) : bool :=
  (lo <=? Ascii.N_of_ascii b) && (Ascii.N_of_ascii b <=? hi).

Definition is_ascii_lowercase (b : Ascii.ascii) : bool := byte_in 97 122 b.
Definition is_ascii_uppercase (b : Ascii.ascii) : bool := byte_in 65 90 b.
Definition is_ascii_digit (b : Ascii.ascii) : bool := byte_in 48 57 b.
Definition is_ascii_alphanumeric (b : Ascii.ascii) : bool :=
  is_ascii_lowercase b || is_ascii_uppercase b || is_ascii_digit b.

(** [byte.is_ascii_lowercase() || byte.is_ascii_digit() ||
    matches!(byte, b'-' | b'_' | b'.' | b'/')] *)
Definition identifier_byte (b : Ascii.ascii) : bool :=
  is_ascii_lowercase b || is_ascii_digit b ||
  bool_decide (Ascii.N_of_ascii b ∈ [45; 95; 46; 47]).

(** The index of the first byte outside the alphabet, if any. *)
Fixpoint first_invalid (index : nat) (bytes : list Ascii.ascii) : option nat :=
  match bytes with
  | [] => None
  | b :: bytes => if identifier_byte b then first_invalid (S index) bytes else Some index
  end.

Definition pad (bytes : list Ascii.ascii) : list Ascii.ascii :=
  bytes ++ replicate (MAX_IDENTIFIER_LEN - length bytes) Ascii.zero.

Definition validate_identifier (value : string)
    : result IdentifierError (list Ascii.ascii * nat) :=
  let bytes := String.list_ascii_of_string value in
  match bytes with
  | [] => Err IdEmpty
  | first :: _ =>
      if (MAX_IDENTIFIER_LEN <? length bytes)%nat then Err IdTooLong
      else if negb (is_ascii_alphanumeric first)
              || negb (is_ascii_alphanumeric (List.last bytes Ascii.zero))
      then Err IdInvalidBoundary
      else match first_invalid 0 bytes with
           | Some index => Err (IdInvalidCharacter index)
           | None => Ok (pad bytes, length bytes)
           end
  end.

(** [$name::new] *)
Definition identifier_new (value : string) : result IdentifierError Identifier :=
  '(bytes, len) ← validate_identifier value; Ok (mkIdentifier bytes len).

(** [$name::from_static]: the byte-copy loop of the constants. *)
Definition identifier_from_static (value : string) : Identifier :=
  let bytes := String.list_ascii_of_string value in
  mkIdentifier (pad bytes) (length bytes).

(** [$name::as_str] *)
Definition identifier_as_str (i : Identifier) : string :=
  String.string_of_list_ascii (take (ident_len i) (ident_bytes i)).

(** The derived [Ord]: the array lexicographically, then the length. *)
Fixpoint bytes_cmp (a b : list Ascii.ascii) : comparison :=
  match a, b with
  | [], [] => Eq
  | [], _ => Lt
  | _, [] => Gt
  | x :: a, y :: b =>
      match Ascii.compare x y with Eq => bytes_cmp a b | c => c end
  end.

Definition identifier_cmp (i j : Identifier) : comparison :=
  match bytes_cmp (ident_bytes i) (ident_bytes j) with
  | Eq => Nat.compare (ident_len i) (ident_len j)
  | c => c
  end.

(** ** The strings an identifier may hold *)

Definition valid_identifier (value : string) : bool :=
  let bytes := String.list_ascii_of_string value in
  match bytes with
  | [] => false
  | first :: _ =>
      (length bytes <=? MAX_IDENTIFIER_LEN)%nat
      && is_ascii_alphanumeric first
      && is_ascii_alphanumeric (List.last bytes Ascii.zero)
      && forallb identifier_byte bytes
  end.

Lemma first_invalid_None k bytes :
  first_invalid k bytes = None ↔ forallb identifier_byte bytes = true.
Proof.
  revert k. induction bytes as [|b bytes IH]; intros k; simpl; [done|].
  destruct (identifier_byte b); simpl; [apply IH | split; discriminate].
Qed.

Lemma validate_identifier_valid value :
  valid_identifier value = true →
  validate_identifier value
  = Ok (pad (String.list_ascii_of_string value),
        length (String.list_ascii_of_string value)).
Proof.
  unfold valid_identifier, validate_identifier.
  destruct (String.list_ascii_of_string value) as [|b bytes] eqn:Hs; [discriminate|].
  intros [[[Hlen Hfirst]%andb_prop Hlast]%andb_prop Hall]%andb_prop.
  apply Nat.leb_le in Hlen. rewrite (proj2 (Nat.ltb_ge _ _) Hlen), Hfirst, Hlast. cbn [negb orb].
  by rewrite (proj2 (first_invalid_None _ _) Hall).
Qed.

Lemma validate_identifier_invalid value :
  valid_identifier value = false → is_ok (validate_identifier value) = false.
Proof.
  unfold valid_identifier, validate_identifier.
  destruct (String.list_ascii_of_string value) as [|b bytes]; [done|].
  rewrite Nat.ltb_antisym. destruct (length (b :: bytes) <=? MAX_IDENTIFIER_LEN)%nat; [|done].
  destruct (is_ascii_alphanumeric b); [|done].
  destruct (is_ascii_alphanumeric _); [|done].
  cbn [negb orb andb]. intros Hall.
  destruct (first_invalid 0 (b :: bytes)) eqn:Hf; [done|].
  apply first_invalid_None in Hf. congruence.
Qed.

Lemma take_pad bytes : take (length bytes) (pad bytes) = bytes.
Proof. unfold pad. by rewrite take_app_length. Qed.

(** Identifiers round-trip: [new] accepts exactly the strings of at most
    63 bytes over [a-z0-9-_./] that start and end with a letter or digit, and
    the accepted identifier reads back, through [as_str], as the same text. *)
Theorem identifier_new_spec value :
  (∃ i, identifier_new value = Ok i ∧ identifier_as_str i = value)
    ↔ valid_identifier value = true.
Proof.
  unfold identifier_new. split.
  - intros (i & Hi & _). destruct (valid_identifier value) eqn:Hv; [done|].
    apply validate_identifier_invalid in Hv.
    by destruct (validate_identifier value).
  - intros Hv. rewrite (validate_identifier_valid _ Hv). eexists. split; [done|].
    unfold identifier_as_str. cbn [ident_bytes ident_len].
    by rewrite take_pad, String.string_of_list_ascii_of_string.
Qed.

(** ** The representation order is the string order *)

Definition nonzero (b : Ascii.ascii) : Prop := Ascii.N_of_ascii b ≠ 0.

Lemma identifier_byte_nonzero b : identifier_byte b = true → nonzero b.
Proof.
  intros Hb Hz. unfold identifier_byte, is_ascii_lowercase, is_ascii_digit, byte_in in Hb.
  rewrite Hz in Hb. by vm_compute in Hb.
Qed.

Lemma ascii_compare_refl a : Ascii.compare a a = Eq.
Proof. unfold Ascii.compare. apply N.compare_refl. Qed.

Lemma nonzero_cmp_zero b : nonzero b → Ascii.compare b Ascii.zero = Gt.
Proof.
  intros Hb. unfold Ascii.compare. change (Ascii.N_of_ascii Ascii.zero) with 0.
  apply N.compare_gt_iff. unfold nonzero in Hb. lia.
Qed.

Lemma zero_cmp_nonzero b : nonzero b → Ascii.compare Ascii.zero b = Lt.
Proof.
  intros Hb. unfold Ascii.compare. change (Ascii.N_of_ascii Ascii.zero) with 0.
  apply N.compare_lt_iff. unfold nonzero in Hb. lia.
Qed.

Lemma bytes_cmp_refl a : bytes_cmp a a = Eq.
Proof. induction a as [|x a IH]; simpl; [done|]. by rewrite ascii_compare_refl. Qed.

(** Padding with zero bytes up to a common width does not change the order
    of byte strings without zero bytes. *)
Lemma bytes_cmp_pad n a b :
  Forall nonzero a → Forall nonzero b → (length a ≤ n)%nat → (length b ≤ n)%nat →
  bytes_cmp (a ++ replicate (n - length a) Ascii.zero)
            (b ++ replicate (n - length b) Ascii.zero)
  = String.compare (String.string_of_list_ascii a) (String.string_of_list_ascii b).
Proof.
  intros Ha. revert n b. induction Ha as [|x a Hx Ha IH]; intros n b Hb Hla Hlb.
  - destruct Hb as [|y b Hy Hb]; simpl in *.
    + rewrite Nat.sub_0_r. apply bytes_cmp_refl.
    + destruct n as [|n]; [lia|]. simpl. by rewrite zero_cmp_nonzero.
  - destruct n as [|n]; [simpl in *; lia|].
    destruct Hb as [|y b Hy Hb]; simpl in *.
    + by rewrite nonzero_cmp_zero.
    + rewrite (IH n b Hb) by lia. done.
Qed.

Lemma valid_identifier_bytes value :
  valid_identifier value = true →
  Forall nonzero (String.list_ascii_of_string value)
  ∧ (length (String.list_ascii_of_string value) ≤ MAX_IDENTIFIER_LEN)%nat.
Proof.
  unfold valid_identifier.
  destruct (String.list_ascii_of_string value) as [|b bytes]; [discriminate|].
  intros [[[Hlen _]%andb_prop _]%andb_prop Hall]%andb_prop. split; [|by apply Nat.leb_le].
  apply Forall_forall. intros x Hx. apply identifier_byte_nonzero.
  by apply (proj1 (forallb_elem _ _) Hall).
Qed.

(** The textual view is faithful: comparing two identifiers the way the
    derived [Ord] does (63 bytes, then the length) is comparing their texts
    lexicographically, so equality, map keys and B-tree iteration orders of
    identifiers are those of the strings. *)
Theorem identifier_cmp_text a b :
  valid_identifier a = true → valid_identifier b = true →
  identifier_cmp (identifier_from_static a) (identifier_from_static b)
  = String.compare a b.
Proof.
  intros [Hna Hla]%valid_identifier_bytes [Hnb Hlb]%valid_identifier_bytes.
  unfold identifier_cmp, identifier_from_static, pad. cbn [ident_bytes ident_len].
  rewrite (bytes_cmp_pad _ _ _ Hna Hnb Hla Hlb), !String.string_of_list_ascii_of_string.
  destruct (String.compare a b) eqn:Hc; [|done..].
  apply String.compare_eq_iff in Hc as ->. apply Nat.compare_refl.
Qed.

Lemma identifier_cmp_text_witness :
  identifier_cmp (identifier_from_static "cpu") (identifier_from_static "cpu-core")
  = String.compare "cpu" "cpu-core".
Proof. apply identifier_cmp_text; reflexivity. Defined.

(** ** The identifiers the kernel names *)

Abbreviation ResourceClass := string (only parsing).
Abbreviation CapacityDimension := string (only parsing).

Module Class.
Definition Machine : ResourceClass := "machine".
Definition Rack : ResourceClass := "rack".
Definition PowerDomain : ResourceClass := "power-domain".
Definition Socket : ResourceClass := "socket".
Definition Numa : ResourceClass := "numa".
Definition Cpu : ResourceClass := "cpu".
Definition Memory : ResourceClass := "memory".
Definition PcieRoot : ResourceClass := "pcie-root".
Definition Gpu : ResourceClass := "gpu".
Definition Nic : ResourceClass := "nic".
Definition Nvme : ResourceClass := "nvme".
Definition Region : ResourceClass := "region".
Definition Datacenter : ResourceClass := "datacenter".
Definition DataObject : ResourceClass := "data-object".
End Class.

Module Dim.
Definition Count : CapacityDimension := "count".
Definition Bytes : CapacityDimension := "bytes".
End Dim.

(** [ResourceClass::default_dimension] *)
Definition default_dimension (c : ResourceClass) : option CapacityDimension :=
  if bool_decide (c ∈ [Class.Cpu; Class.Gpu; Class.Nic; Class.Nvme]) then Some Dim.Count
  else if bool_decide (c = Class.Memory) then Some Dim.Bytes
  else None.

(** The constants built by [from_static] skip validation; they would pass it. *)
Lemma constants_valid :
  Forall (λ s, identifier_new s = Ok (identifier_from_static s))
    [Class.Machine; Class.Rack; Class.PowerDomain; Class.Socket; Class.Numa; Class.Cpu;
     Class.Memory; Class.PcieRoot; Class.Gpu; Class.Nic; Class.Nvme; Class.Region;
     Class.Datacenter; Class.DataObject; Dim.Count; Dim.Bytes].
Proof. repeat constructor. Qed.
