(* ===== verification/Text.v ===== *)
(** Text as the crates around the kernel use it: [str::trim], [split],
    [split_once], decimal parsing and printing.

    A string is its UTF-8 bytes.  [trim] removes the code points with the
    Unicode property White_Space, recognised by their encodings. *)

From S2P Require Import Prelude Identifier.
From Stdlib Require Import Ascii.

Local Abbreviation code := Ascii.N_of_ascii (only parsing).

(** ** White space *)

(** One-, two- and three-byte encodings of white space. *)
Definition ws1 (a : N) : bool := (9 <=? a) && (a <=? 13) || (a =? 32).
Definition ws2 (a b : N) : bool := (a =? 0xC2) && ((b =? 0x85) || (b =? 0xA0)).
Definition ws3 (a b c : N) : bool :=
  (a =? 0xE1) && (b =? 0x9A) && (c =? 0x80)
  || (a =? 0xE2) && (b =? 0x80)
     && ((0x80 <=? c) && (c <=? 0x8A) || (c =? 0xA8) || (c =? 0xA9) || (c =? 0xAF))
  || (a =? 0xE2) && (b =? 0x81) && (c =? 0x9F)
  || (a =? 0xE3) && (b =? 0x80) && (c =? 0x80).

(** Remove one white-space character from the front; with [bwd], the bytes
    are those of a reversed string. *)
Definition strip_ws (bwd : bool) (s : string) : option string :=
  match s with
  | "" => None
  | String a s1 =>
      if ws1 (code a) then Some s1
      else match s1 with
      | "" => None
      | String b s2 =>
          if (if bwd then ws2 (code b) (code a) else ws2 (code a) (code b)) then Some s2
          else match s2 with
          | "" => None
          | String c s3 =>
              if (if bwd then ws3 (code c) (code b) (code a)
                  else ws3 (code a) (code b) (code c))
              then Some s3 else None
          end
      end
  end.

Fixpoint strip_all (bwd : bool) (fuel : nat) (s : string) : string :=
  match fuel with
  | O => s
  | S fuel => match strip_ws bwd s with Some s => strip_all bwd fuel s | None => s end
  end.

Definition trim_start (s : string) : string := strip_all false (String.length s) s.
Definition trim_end (s : string) : string :=
  String.rev (strip_all true (String.length s) (String.rev s)).
Definition trim (s : string) : string := trim_end (trim_start s).

(** [s.trim().is_empty()] *)
Definition blank (s : string) : bool := bool_decide (trim s = "").

Definition graphic (c : Ascii.ascii) : bool := (33 <=? code c) && (code c <=? 126).

Fixpoint all_chars (p : Ascii.ascii → bool) (s : string) : bool :=
  match s with "" => true | String c s => p c && all_chars p s end.

Lemma all_chars_app p s t : all_chars p (s +:+ t) = all_chars p s && all_chars p t.
Proof. induction s as [|c s IH]; simpl; [done|]. by rewrite IH, andb_assoc. Qed.

Lemma all_chars_impl (p q : Ascii.ascii → bool) s :
  (∀ c, p c = true → q c = true) → all_chars p s = true → all_chars q s = true.
Proof.
  intros Hpq. induction s as [|c s IH]; simpl; [done|].
  rewrite !andb_true_iff. intros [? ?]. auto.
Qed.

Lemma all_chars_rev_app p s t :
  all_chars p (String.rev_app s t) = all_chars p s && all_chars p t.
Proof.
  revert t. induction s as [|c s IH]; intros t; simpl; [done|]. rewrite IH. simpl.
  by destruct (p c), (all_chars p s), (all_chars p t).
Qed.

Lemma rev_app_app s t u : String.rev_app (String.rev_app s t) u = String.rev_app t (s +:+ u).
Proof. revert t. induction s as [|c s IH]; intros t; simpl; [done|]. by rewrite IH. Qed.

Lemma str_app_cons c s t : String c s +:+ t = String c (s +:+ t).
Proof. done. Qed.

Lemma str_app_nil s : s +:+ "" = s.
Proof. induction s as [|c s IH]; [done|]. by rewrite str_app_cons, IH. Qed.

Lemma str_app_assoc s t u : (s +:+ t) +:+ u = s +:+ (t +:+ u).
Proof. induction s as [|c s IH]; [done|]. by rewrite !str_app_cons, IH. Qed.

Lemma rev_involutive s : String.rev (String.rev s) = s.
Proof. unfold String.rev. rewrite rev_app_app. simpl. apply str_app_nil. Qed.

Lemma graphic_not_ws bwd s : all_chars graphic s = true → strip_ws bwd s = None.
Proof.
  assert (Hg : ∀ c, graphic c = true → (33 ≤ code c ≤ 126)%N).
  { intros c. unfold graphic. rewrite andb_true_iff, !N.leb_le. done. }
  assert (H1 : ∀ a, (33 ≤ a ≤ 126)%N → ws1 a = false).
  { intros a Ha. unfold ws1.
    destruct (N.leb_spec 9 a), (N.leb_spec a 13), (N.eqb_spec a 32); lia || done. }
  assert (H2 : ∀ a b, (33 ≤ a ≤ 126)%N → ws2 a b = false).
  { intros a b Ha. unfold ws2. by destruct (N.eqb_spec a 0xC2); [lia|]. }
  assert (H3 : ∀ a b c, (33 ≤ a ≤ 126)%N → ws3 a b c = false).
  { intros a b c Ha. unfold ws3.
    by destruct (N.eqb_spec a 0xE1), (N.eqb_spec a 0xE2), (N.eqb_spec a 0xE3); try lia. }
  destruct s as [|a [|b [|c s]]]; simpl; rewrite ?andb_true_iff;
    intuition idtac; rewrite H1, ?H2, ?H3 by auto; try destruct bwd; done.
Qed.

Lemma trim_graphic s : all_chars graphic s = true → trim s = s.
Proof.
  intros Hs.
  assert (∀ bwd n u, all_chars graphic u = true → strip_all bwd n u = u) as Hall.
  { intros bwd [|n] u Hu; simpl; [done|]. by rewrite graphic_not_ws. }
  unfold trim, trim_start, trim_end. rewrite (Hall false) by done.
  rewrite Hall by (unfold String.rev; by rewrite all_chars_rev_app, Hs).
  apply rev_involutive.
Qed.

(** ** Splitting *)

Definition push_front (c : Ascii.ascii) (parts : list string) : list string :=
  match parts with
  | [] => [String c ""]
  | p :: parts => String c p :: parts
  end.

(** [s.split(sep)]: at least one part. *)
Fixpoint split_on (sep : Ascii.ascii) (s : string) : list string :=
  match s with
  | "" => [""]
  | String c s => if Ascii.eqb c sep then "" :: split_on sep s else push_front c (split_on sep s)
  end.

(** [s.split_once(sep)] *)
Fixpoint split_once (sep : Ascii.ascii) (s : string) : option (string * string) :=
  match s with
  | "" => None
  | String c s =>
      if Ascii.eqb c sep then Some ("", s)
      else '(l, r) ← split_once sep s; Some (String c l, r)
  end.

Definition differs (sep c : Ascii.ascii) : bool := negb (Ascii.eqb c sep).

Lemma split_on_cons sep c s :
  split_on sep (String c s)
  = if Ascii.eqb c sep then "" :: split_on sep s else push_front c (split_on sep s).
Proof. done. Qed.

Lemma split_on_part sep p :
  all_chars (differs sep) p = true → split_on sep p = [p].
Proof.
  unfold differs. induction p as [|c p IH]; simpl; [done|].
  rewrite andb_true_iff, negb_true_iff. intros [-> Hp]. by rewrite IH.
Qed.

Lemma split_on_app sep p s :
  all_chars (differs sep) p = true →
  split_on sep (p +:+ String sep s) = p :: split_on sep s.
Proof.
  unfold differs. induction p as [|c p IH]; simpl.
  - by rewrite Ascii.eqb_refl.
  - rewrite andb_true_iff, negb_true_iff. intros [-> Hp]. by rewrite IH.
Qed.

Lemma split_once_app sep l r :
  all_chars (differs sep) l = true → split_once sep (l +:+ String sep r) = Some (l, r).
Proof.
  unfold differs. induction l as [|c l IH]; simpl.
  - by rewrite Ascii.eqb_refl.
  - rewrite andb_true_iff, negb_true_iff. intros [-> Hl]. by rewrite IH.
Qed.

Lemma split_once_none sep p :
  all_chars (differs sep) p = true → split_once sep p = None.
Proof.
  unfold differs. induction p as [|c p IH]; simpl; [done|].
  rewrite andb_true_iff, negb_true_iff. intros [-> Hp]. by rewrite IH.
Qed.

(** The split is at the first separator. *)
Lemma split_once_spec sep s :
  match split_once sep s with
  | Some (l, r) => s = l +:+ String sep r ∧ all_chars (differs sep) l = true
  | None => all_chars (differs sep) s = true
  end.
Proof.
  unfold differs. induction s as [|c s IH]; simpl; [done|].
  destruct (Ascii.eqb_spec c sep) as [->|Hne]; simpl; [done|].
  destruct (split_once sep s) as [[l r]|]; simpl; [|done]. destruct IH as [-> Hl].
  rewrite (proj2 (Ascii.eqb_neq _ _) Hne). by rewrite Hl.
Qed.

(** [PathBuf::join] with a relative path. *)
Definition join_path (dir name : string) : string :=
  match String.rev dir with
  | "" => name
  | String c _ => if Ascii.eqb c "/" then dir +:+ name else dir +:+ "/" +:+ name
  end.

(** [slice::join] *)
Fixpoint join (sep : string) (l : list string) : string :=
  match l with
  | [] => ""
  | [s] => s
  | s :: l => s +:+ sep +:+ join sep l
  end.

(** ** Decimal numbers: [str::parse] for an unsigned type, and [to_string] *)

Fixpoint parse_digits (acc : N) (s : string) : option N :=
  match s with
  | "" => Some acc
  | String c s =>
      if is_ascii_digit c then parse_digits (acc * 10 + (code c - 48)) s else None
  end.

Definition strip_plus (s : string) : string :=
  match s with
  | String c s' => if Ascii.eqb c "+" then s' else s
  | "" => ""
  end.

(** An optional [+], at least one digit, a value within the type.  The source
    stops at the first overflow; digits only increase the value, so testing
    the final one is the same. *)
Definition parse_uint (max : N) (s : string) : option N :=
  let s := strip_plus s in
  if bool_decide (s = "") then None
  else n ← parse_digits 0 s; if n <=? max then Some n else None.

Definition u32_max : N := 2 ^ 32 - 1.
Definition parse_u32 : string → option N := parse_uint u32_max.
Definition parse_u64 : string → option N := parse_uint u64_max.

Lemma pretty_char_digit r :
  r < 10 → is_ascii_digit (pretty_N_char r) = true ∧ code (pretty_N_char r) - 48 = r.
Proof.
  intros Hr. do 10 (destruct r as [|r] using N.peano_ind; [by vm_compute|clear IHr]). lia.
Qed.

Lemma parse_digits_pretty n s : parse_digits 0 (pretty_N_go n s) = parse_digits n s.
Proof.
  revert s. induction (N.lt_wf_0 n) as [n _ IH]. intros s.
  destruct (decide (n = 0)) as [->|Hn]; [done|].
  rewrite pretty_N_go_step by lia. rewrite IH by (apply N.div_lt; lia). simpl.
  destruct (pretty_char_digit (n mod 10)) as [Hd Hc]; [by apply N.mod_lt|].
  rewrite Hd, Hc. f_equal. pose proof (N.div_mod' n 10). lia.
Qed.

Lemma pretty_go_digits n s :
  all_chars is_ascii_digit (pretty_N_go n s) = all_chars is_ascii_digit s.
Proof.
  revert s. induction (N.lt_wf_0 n) as [n _ IH]. intros s.
  destruct (decide (n = 0)) as [->|Hn]; [done|].
  rewrite pretty_N_go_step by lia. rewrite IH by (apply N.div_lt; lia). simpl.
  destruct (pretty_char_digit (n mod 10)) as [-> _]; [by apply N.mod_lt|done].
Qed.

Lemma pretty_digits (n : N) : all_chars is_ascii_digit (pretty n) = true.
Proof.
  unfold pretty, pretty_N. destruct (decide _); [done|]. by rewrite pretty_go_digits.
Qed.

Lemma pretty_nonempty (n : N) : pretty n ≠ "".
Proof.
  unfold pretty, pretty_N. destruct (decide (n = 0)) as [|Hn]; [done|].
  intros He. pose proof (parse_digits_pretty n "") as Hp. rewrite He in Hp.
  simpl in Hp. congruence.
Qed.

Lemma digit_code c : is_ascii_digit c = true → 48 ≤ code c ≤ 57.
Proof. unfold is_ascii_digit, byte_in. rewrite andb_true_iff, !N.leb_le. done. Qed.

Lemma digit_graphic c : is_ascii_digit c = true → graphic c = true.
Proof.
  intros Hc%digit_code. unfold graphic. rewrite andb_true_iff, !N.leb_le. lia.
Qed.

Lemma digit_differs sep c :
  is_ascii_digit sep = false → is_ascii_digit c = true → differs sep c = true.
Proof.
  intros Hsep Hc. unfold differs. apply negb_true_iff, Ascii.eqb_neq. congruence.
Qed.

Lemma pretty_graphic (n : N) : all_chars graphic (pretty n) = true.
Proof. eapply all_chars_impl; [exact digit_graphic | apply pretty_digits]. Qed.

Lemma pretty_differs sep (n : N) :
  is_ascii_digit sep = false → all_chars (differs sep) (pretty n) = true.
Proof.
  intros Hsep. eapply all_chars_impl; [|apply pretty_digits].
  intros c. by apply digit_differs.
Qed.

(** Printing a number and parsing it back. *)
Lemma parse_uint_pretty max n : n ≤ max → parse_uint max (pretty n) = Some n.
Proof.
  intros Hn. unfold parse_uint.
  assert (strip_plus (pretty n) = pretty n) as ->.
  { pose proof (pretty_differs "+" n eq_refl) as Hd.
    destruct (pretty n) as [|c s]; [done|]. simpl in *.
    apply andb_true_iff in Hd as [Hd _]. unfold differs in Hd.
    apply negb_true_iff in Hd. by rewrite Hd. }
  rewrite bool_decide_eq_false_2 by apply pretty_nonempty.
  assert (parse_digits 0 (pretty n) = Some n) as ->.
  { unfold pretty, pretty_N. destruct (decide (n = 0)) as [->|]; [done|].
    by rewrite parse_digits_pretty. }
  simpl. apply N.leb_le in Hn. by rewrite Hn.
Qed.
