(* ===== verification/Types.v ===== *)
(** * Kernel data (crates/kernel/src/ids.rs, types.rs, error.rs)

    Identifiers, quantities, graph facts, requests, leases, bindings and the
    error type, with the quantity arithmetic of types.rs and its laws. *)

From S2P Require Import Prelude.
From S2P Require Import Identifier.

(** ** ids.rs *)

Abbreviation NodeId := N (only parsing).
Abbreviation LeaseId := N (only parsing).
Abbreviation BindingId := N (only parsing).
Abbreviation RequestId := N (only parsing).
Abbreviation OwnerId := N (only parsing).
Abbreviation ProviderId := N (only parsing).
Abbreviation FactWriterId := N (only parsing).

Definition ENFORCE : ProviderId := 1.

(** [impl Display for $name]: [NodeId(5)] and so on. *)
Definition show_id (name : string) (id : N) : string := name +:+ "(" +:+ pretty id +:+ ")".
Abbreviation show_node := (show_id "NodeId").
Abbreviation show_lease := (show_id "LeaseId").
Abbreviation show_binding := (show_id "BindingId").
Abbreviation show_provider := (show_id "ProviderId").
Abbreviation show_writer := (show_id "FactWriterId").

(** ** Node state, edges *)

Inductive NodeState :=
| NJoining | NSchedulable | NDraining | NUnavailable | NQuarantined | NRetired.

#[export] Instance NodeState_eq_dec : EqDecision NodeState.
Proof. solve_decision. Defined.

Definition is_schedulable (s : NodeState) : bool :=
  match s with NSchedulable => true | _ => false end.

Inductive EdgeKind := Contains | Connected | CachedOn.

#[export] Instance EdgeKind_eq_dec : EqDecision EdgeKind.
Proof. solve_decision. Defined.

Definition edge_kind_code (k : EdgeKind) : nat :=
  match k with Contains => 0 | Connected => 1 | CachedOn => 2 end%nat.
Definition edge_kind_of_code (n : nat) : EdgeKind :=
  match n with O => Contains | S O => Connected | _ => CachedOn end.

#[export] Instance EdgeKind_countable : Countable EdgeKind.
Proof. refine (inj_countable' edge_kind_code edge_kind_of_code _). by intros []. Defined.

(** [{:?}] of an [EdgeKind]. *)
Definition show_edge_kind (k : EdgeKind) : string :=
  match k with Contains => "Contains" | Connected => "Connected" | CachedOn => "CachedOn" end.

(** The identity of a stored edge: [FactEdge] / [EdgeFactKey]. *)
Abbreviation FactEdge := (NodeId * NodeId * EdgeKind)%type (only parsing).

Inductive TopologyRelation :=
| SameAncestor (class : ResourceClass)
| DifferentAncestor (class : ResourceClass)
| RContains
| RConnected
| RCachedOn.

#[export] Instance TopologyRelation_eq_dec : EqDecision TopologyRelation.
Proof. solve_decision. Defined.

(** ** Quantities *)

Abbreviation Quantity := (gmap string N) (only parsing).
Abbreviation Attrs := (gmap string string) (only parsing).

Definition qty (dimension : CapacityDimension) (amount : u64) : Quantity :=
  {[ dimension := amount ]}.

Definition quantity_get (quantity : Quantity) (dimension : CapacityDimension) : u64 :=
  default 0 (quantity !! dimension).

Definition quantity_le (left right : Quantity) : bool :=
  forallb (λ '(d, amount), amount <=? quantity_get right d) (bt_iter left).

Definition quantity_saturating_sub (left right : Quantity) : Quantity :=
  foldl (λ (out : Quantity) '(d, amount),
           let remain := sat_sub amount (quantity_get right d) in
           if 0 <? remain then <[d:=remain]> out else out)
        ∅ (bt_iter left).

Definition quantity_max (left right : Quantity) : Quantity :=
  foldl (λ (out : Quantity) '(d, amount), <[d:=N.max (quantity_get out d) amount]> out)
        left (bt_iter right).

(** The sum is an unchecked [+=] on [u64]: it wraps. *)
Definition quantity_add_assign (left right : Quantity) : Quantity :=
  foldl (λ (out : Quantity) '(d, amount), <[d:=wrap_add (quantity_get out d) amount]> out)
        left (bt_iter right).

(** ** Facts, requests, allocations *)

Record Node := mkNode {
  node_id : NodeId;
  node_kind : ResourceClass;
  node_attrs : Attrs;
  node_capacity : Quantity;
}.

Record Edge := mkEdge {
  edge_from : NodeId;
  edge_to : NodeId;
  edge_kind : EdgeKind;
  edge_attrs : Attrs;
}.

Record ProviderFactBatch := mkBatch {
  batch_writer : FactWriterId;
  batch_nodes : list Node;
  batch_edges : list Edge;
}.

Record FactWriterAssignment := mkAssignment {
  assign_writer : FactWriterId;
  assign_nodes : list NodeId;
  assign_edges : list FactEdge;
}.

Inductive RequestClass := Service | Batch.

Record Filter := mkFilter { filter_key : string; filter_value : string }.

Record Need := mkNeed {
  need_kind : ResourceClass;
  need_quantity : Quantity;
  need_filters : list Filter;
}.

Record TopologyConstraint := mkConstraint {
  tc_left : nat;
  tc_right : nat;
  tc_relation : TopologyRelation;
}.

Inductive Preference :=
| PrefPack
| PrefSpread
| PreferAttr (key value : string).

Record Request := mkRequest {
  req_id : RequestId;
  req_class : RequestClass;
  req_needs : list Need;
  req_topology : list TopologyConstraint;
  req_preferences : list Preference;
  req_data : list NodeId;
  req_lifetime : u64;
  req_priority : N;
  req_machine_local : bool;
}.

Record Queued := mkQueued {
  q_request : Request;
  q_owner : OwnerId;
  q_submitted_at : u64;
}.

Record Claim := mkClaim { claim_node : NodeId; claim_quantity : Quantity }.

#[export] Instance Claim_eq_dec : EqDecision Claim.
Proof. solve_decision. Defined.

Inductive PlacementReason :=
| MachineSelected (machine : NodeId)
| CandidateScore (node : NodeId) (score : Z) (data_local : list NodeId)
    (degraded_ancestor : option NodeId)
| TopologyReason (index : nat) (relation : TopologyRelation)
    (selected_left selected_right : list NodeId) (rejected : option (NodeId * NodeId)).

Record PlacementExplanation := mkExplanation {
  expl_summary : string;
  expl_reasons : list PlacementReason;
}.

Record Allocation := mkAllocation {
  alloc_claims : list Claim;
  alloc_graph_revision : u64;
  alloc_explanation : PlacementExplanation;
}.

(** ** Leases and bindings *)

Inductive LeaseState :=
| LReserved | LPreparing | LActive | LReleased | LExpired | LRevoked | LFailed | LCompleted.

#[export] Instance LeaseState_eq_dec : EqDecision LeaseState.
Proof. solve_decision. Defined.

Record Lease := mkLease {
  lease_id : LeaseId;
  lease_owner : OwnerId;
  lease_allocation : Allocation;
  lease_parent : option LeaseId;
  lease_expires_at : u64;
  lease_prepare_deadline : u64;
  lease_priority : N;
  lease_state : LeaseState;
  lease_exit_code : option Z;
}.

Definition lease_claims (l : Lease) : list Claim := alloc_claims (lease_allocation l).

Inductive BindingScope := Exclusive | IndependentShare.

#[export] Instance BindingScope_eq_dec : EqDecision BindingScope.
Proof. solve_decision. Defined.

Record ClaimBinding := mkClaimBinding { cb_provider : ProviderId; cb_scope : BindingScope }.

#[export] Instance ClaimBinding_eq_dec : EqDecision ClaimBinding.
Proof. solve_decision. Defined.

Record ClaimBindingUpdate := mkUpdate {
  upd_node : NodeId;
  upd_dimension : CapacityDimension;
  upd_binding : option ClaimBinding;
}.

Inductive BindingState := BPreparing | BActive | BReleased | BFenced | BFailed.

#[export] Instance BindingState_eq_dec : EqDecision BindingState.
Proof. solve_decision. Defined.

Definition is_closed (s : BindingState) : bool :=
  match s with BReleased | BFenced => true | _ => false end.

Record Binding := mkBinding {
  binding_id : BindingId;
  binding_lease : LeaseId;
  binding_node : NodeId;
  binding_provider : ProviderId;
  binding_scope : BindingScope;
  binding_fence : u64;
  binding_session : u64;
  binding_state : BindingState;
  binding_handle : option u64;
}.

(** ** error.rs *)

Inductive Error :=
| UnknownNode (node : NodeId)
| UnknownLease (lease : LeaseId)
| UnknownBinding (binding : BindingId)
| DuplicateLease (lease : LeaseId)
| DuplicateBinding (binding : BindingId)
| NotAgreed
| Quarantined (node : NodeId)
| StaleSession (expected got : u64)
| StaleEpoch (current got : u64)
| StaleGraphRevision (current got : u64)
| Overlap (node : NodeId)
| ChildEscapesParent (child parent : LeaseId)
| ParentNotActive (parent : LeaseId)
| LeaseStateError (lease : LeaseId) (state : LeaseState)
| BindingStateError (binding : BindingId) (state : BindingState)
| BindingsNotPrepared (lease : LeaseId)
| NoAgent (machine : NodeId)
| RenewNotLater
| ExpireNotDue
| PrepareDeadlinePassed (lease : LeaseId)
| LeaseExpired (lease : LeaseId)
| HasLiveDescendants (lease : LeaseId)
| FenceMismatch (binding : BindingId) (expected got : u64)
| InvalidTopology (reason : string)
| CapacityBelowOccupancy (node : NodeId)
| DuplicateClaim (node : NodeId)
| UnclaimableNode (node : NodeId)
| ChildBindingRefused (lease : LeaseId)
| UnquarantineBlocked (node : NodeId)
| ResourceBusy (node : NodeId)
| Refused (explanation : string)
| Invalid (reason : string).

#[export] Instance Error_eq_dec : EqDecision Error.
Proof. solve_decision. Defined.

(** [{:?}] of the state enums and of [BindingScope]. *)
Definition show_lease_state (s : LeaseState) : string :=
  match s with
  | LReserved => "Reserved" | LPreparing => "Preparing" | LActive => "Active"
  | LReleased => "Released" | LExpired => "Expired" | LRevoked => "Revoked"
  | LFailed => "Failed" | LCompleted => "Completed"
  end.

Definition show_binding_state (s : BindingState) : string :=
  match s with
  | BPreparing => "Preparing" | BActive => "Active" | BReleased => "Released"
  | BFenced => "Fenced" | BFailed => "Failed"
  end.

Definition show_scope (s : BindingScope) : string :=
  match s with Exclusive => "Exclusive" | IndependentShare => "IndependentShare" end.

(** [impl Display for Error] *)
Definition error_to_string (e : Error) : string :=
  match e with
  | UnknownNode id => "unknown node " +:+ show_node id
  | UnknownLease id => "unknown lease " +:+ show_lease id
  | UnknownBinding id => "unknown binding " +:+ show_binding id
  | DuplicateLease id => "duplicate lease " +:+ show_lease id
  | DuplicateBinding id => "duplicate binding " +:+ show_binding id
  | NotAgreed => "cluster has no agreement"
  | Quarantined id => "node " +:+ show_node id +:+ " is quarantined"
  | StaleSession expected got =>
      "stale session: expected " +:+ pretty expected +:+ ", got " +:+ pretty got
  | StaleEpoch current got =>
      "stale epoch: current " +:+ pretty current +:+ ", got " +:+ pretty got
  | StaleGraphRevision current got =>
      "stale graph revision: current " +:+ pretty current +:+ ", got " +:+ pretty got
  | Overlap node => "exclusive overlap on " +:+ show_node node
  | ChildEscapesParent child parent =>
      "child " +:+ show_lease child +:+ " escapes parent " +:+ show_lease parent
  | ParentNotActive parent => "parent " +:+ show_lease parent +:+ " is not active"
  | LeaseStateError lease state =>
      "lease " +:+ show_lease lease +:+ " in state " +:+ show_lease_state state
  | BindingStateError binding state =>
      "binding " +:+ show_binding binding +:+ " in state " +:+ show_binding_state state
  | BindingsNotPrepared lease =>
      "lease " +:+ show_lease lease +:+ " is missing prepared bindings"
  | NoAgent machine => "no agent session for " +:+ show_node machine
  | RenewNotLater => "renewal must extend expires_at"
  | ExpireNotDue => "lease has not reached expires_at"
  | PrepareDeadlinePassed lease =>
      "lease " +:+ show_lease lease +:+ " passed its prepare deadline"
  | LeaseExpired lease => "lease " +:+ show_lease lease +:+ " expired before activation"
  | HasLiveDescendants lease =>
      "lease " +:+ show_lease lease +:+ " still has live descendants"
  | FenceMismatch binding expected got =>
      "binding " +:+ show_binding binding +:+ " fence " +:+ pretty got
      +:+ " does not match " +:+ pretty expected
  | InvalidTopology reason => "invalid topology: " +:+ reason
  | CapacityBelowOccupancy node =>
      "node " +:+ show_node node +:+ " capacity would drop below occupied units"
  | DuplicateClaim node =>
      "allocation claims node " +:+ show_node node +:+ " more than once"
  | UnclaimableNode node => "node " +:+ show_node node +:+ " is not a claimable resource"
  | ChildBindingRefused lease =>
      "lease " +:+ show_lease lease +:+ " is a child; only root leases hold Bindings"
  | UnquarantineBlocked node =>
      "cannot unquarantine " +:+ show_node node +:+ " before fence ack"
  | ResourceBusy node => "resource " +:+ show_node node +:+ " still has live authority"
  | Refused explanation => "refused: " +:+ explanation
  | Invalid reason => "invalid command: " +:+ reason
  end.

(** ** Laws of quantities *)

Lemma quantity_get_lookup q d a : q !! d = Some a → quantity_get q d = a.
Proof. unfold quantity_get. by intros ->. Qed.

Lemma quantity_get_empty d : quantity_get ∅ d = 0.
Proof. unfold quantity_get. by rewrite lookup_empty. Qed.

Lemma quantity_get_qty d a d' : quantity_get (qty d a) d' = if decide (d = d') then a else 0.
Proof. unfold quantity_get, qty. rewrite lookup_singleton. by case_decide. Qed.

Lemma quantity_le_spec left right :
  quantity_le left right = true ↔ ∀ d, quantity_get left d ≤ quantity_get right d.
Proof.
  unfold quantity_le. rewrite forallb_elem. split.
  - intros Hall d. destruct (left !! d) as [a|] eqn:Hd.
    + apply elem_of_bt_iter in Hd as Hin. apply Hall in Hin. apply N.leb_le in Hin.
      by rewrite (quantity_get_lookup _ _ _ Hd).
    + unfold quantity_get at 1. rewrite Hd. simpl. lia.
  - intros Hle [d a] Hd%elem_of_bt_iter. apply N.leb_le.
    rewrite <-(quantity_get_lookup _ _ _ Hd). apply Hle.
Qed.

Lemma quantity_le_refl q : quantity_le q q = true.
Proof. apply quantity_le_spec. reflexivity. Qed.

(** The fold of [quantity_saturating_sub] visits each dimension once. *)
Lemma quantity_sub_fold right l (out : Quantity) d :
  NoDup l.*1 →
  foldl (λ (out : Quantity) '(d, amount),
           let remain := sat_sub amount (quantity_get right d) in
           if 0 <? remain then <[d:=remain]> out else out) out l !! d
  = match (list_to_map l : Quantity) !! d with
    | Some a => if 0 <? sat_sub a (quantity_get right d)
                then Some (sat_sub a (quantity_get right d)) else out !! d
    | None => out !! d
    end.
Proof.
  revert out. induction l as [|[j a] l IH]; intros out Hnd; [done|].
  apply NoDup_cons in Hnd as [Hj Hnd]. cbn [foldl list_to_map foldr].
  rewrite IH by done. cbn [uncurry]. cbv zeta. destruct (decide (j = d)) as [->|Hne].
  - rewrite (not_elem_of_list_to_map_1 (M:=gmap string)) by done.
    rewrite lookup_insert_eq. destruct (0 <? _); [by rewrite lookup_insert_eq|done].
  - rewrite lookup_insert_ne by done.
    destruct (0 <? sat_sub a _); [by rewrite lookup_insert_ne|done].
Qed.

Lemma quantity_get_sub left right d :
  quantity_get (quantity_saturating_sub left right) d
  = quantity_get left d - quantity_get right d.
Proof.
  unfold quantity_saturating_sub, quantity_get at 1.
  rewrite quantity_sub_fold by apply bt_keys_NoDup. rewrite bt_iter_to_map.
  destruct (left !! d) as [a|] eqn:Hd; [|unfold quantity_get; by rewrite Hd].
  rewrite (quantity_get_lookup _ _ _ Hd). unfold sat_sub. destruct (N.ltb_spec 0 (a - quantity_get right d)); simpl;
    [done|rewrite lookup_empty; simpl; lia].
Qed.

Lemma quantity_get_max left right d :
  quantity_get (quantity_max left right) d
  = N.max (quantity_get left d) (quantity_get right d).
Proof.
  unfold quantity_max, quantity_get at 1.
  rewrite (bt_fold_lookup _ (λ o a, Some (N.max (default 0 o) a))).
  - unfold quantity_get. destruct (right !! d); simpl; lia.
  - intros m k a j. rewrite lookup_insert. by case_decide.
Qed.

Lemma quantity_add_lookup left right d :
  quantity_add_assign left right !! d
  = match right !! d with
    | Some a => Some (wrap_add (quantity_get left d) a)
    | None => left !! d
    end.
Proof.
  unfold quantity_add_assign.
  rewrite (bt_fold_lookup _ (λ o a, Some (wrap_add (default 0 o) a))); [done|].
  intros m k a j. rewrite lookup_insert. by case_decide.
Qed.

(** Addition of quantities is addition modulo [2^64] in every dimension. *)
Lemma quantity_get_add_mod left right d :
  quantity_get (quantity_add_assign left right) d mod u64_modulus
  = (quantity_get left d + quantity_get right d) mod u64_modulus.
Proof.
  unfold quantity_get at 1. rewrite quantity_add_lookup.
  destruct (right !! d) as [a|] eqn:Hd; simpl.
  - rewrite (quantity_get_lookup _ _ _ Hd). unfold wrap_add. by rewrite N.Div0.mod_mod.
  - unfold quantity_get. by rewrite Hd, N.add_0_r.
Qed.

Definition quantity_u64 (q : Quantity) : bool := forallb (λ p, is_u64 p.2) (bt_iter q).

Lemma quantity_u64_get q : quantity_u64 q = true ↔ ∀ d, quantity_get q d < u64_modulus.
Proof.
  unfold quantity_u64. rewrite forallb_elem. split.
  - intros Hall d. unfold quantity_get. destruct (q !! d) as [a|] eqn:Hd; [|done].
    apply elem_of_bt_iter, Hall, is_u64_spec in Hd. done.
  - intros Hlt [d a] Hd%elem_of_bt_iter. apply is_u64_spec.
    rewrite <-(quantity_get_lookup _ _ _ Hd). apply Hlt.
Qed.

Lemma quantity_add_u64 left right :
  quantity_u64 left = true → quantity_u64 (quantity_add_assign left right) = true.
Proof.
  rewrite !quantity_u64_get. intros Hl d. unfold quantity_get. rewrite quantity_add_lookup.
  destruct (right !! d); [apply wrap_add_lt|apply Hl].
Qed.

#[export] Hint Rewrite quantity_get_sub quantity_get_max quantity_get_empty : quantity.
