(* ===== verification/Serde.v ===== *)
(** The hand-written serialization of the kernel's data: the identifiers and the
    placement explanation of types.rs, and the maps with compound keys of
    graph.rs and cluster.rs.

    [Value] is serde's data model as far as these use it; the derived
    serialization of keys, values and reasons is a parameter. *)

From S2P Require Import Prelude Identifier Types.

Inductive Value :=
| VStr (s : string)
| VNum (n : N)
| VSeq (l : list Value)
| VObj (fields : list (string * Value)).

(** ** Identifiers *)

(** [Display for IdentifierError] *)
Definition identifier_error_text (e : IdentifierError) : string :=
  match e with
  | IdEmpty => "identifier must not be empty"
  | IdTooLong => "identifier exceeds " +:+ pretty (N.of_nat MAX_IDENTIFIER_LEN) +:+ " bytes"
  | IdInvalidCharacter index => "identifier contains an invalid character at byte " +:+ pretty (N.of_nat index)
  | IdInvalidBoundary => "identifier must start and end with a letter or digit"
  end.

Definition identifier_serialize (i : Identifier) : Value := VStr (identifier_as_str i).

Definition identifier_deserialize (v : Value) : result string Identifier :=
  match v with
  | VStr value =>
      match identifier_new value with
      | Ok i => Ok i
      | Err e => Err (identifier_error_text e)
      end
  | _ => Err "invalid type: expected a string"
  end.

(** An identifier's text reads back as the identifier, and nothing that is not
    the text of an identifier is accepted. *)
Theorem identifier_serde_roundtrip value :
  (∃ i, identifier_deserialize (VStr value) = Ok i ∧ identifier_serialize i = VStr value)
  ↔ valid_identifier value = true.
Proof.
  rewrite <-identifier_new_spec. cbn. unfold identifier_serialize.
  split; intros (i & Hi & Hs); exists i; destruct (identifier_new value); simplify_eq; done.
Qed.

(** ** Maps with compound keys *)

Section pairs.
Context {K V : Type} `{Countable K, !BOrd K}.
Context (key_to : K → Value) (key_of : Value → result string K).
Context (value_to : V → Value) (value_of : Value → result string V).

(** A vector of pairs, in the map's order. *)
Definition pairs_serialize (m : gmap K V) : Value :=
  VSeq ((λ '(k, v), VSeq [key_to k; value_to v]) <$> bt_iter m).

Definition pair_deserialize (v : Value) : result string (K * V) :=
  match v with
  | VSeq [k; v] => k ← key_of k; v ← value_of v; Ok (k, v)
  | _ => Err "invalid type: expected a pair"
  end.

(** Collecting into a map: of two pairs with one key the later stays. *)
Definition pairs_deserialize (v : Value) : result string (gmap K V) :=
  match v with
  | VSeq l =>
      pairs ← try_map pair_deserialize l;
      Ok (foldl (λ m '(k, v), <[k := v]> m) ∅ pairs)
  | _ => Err "invalid type: expected a sequence"
  end.

Lemma collect_lookup (l : list (K * V)) (m : gmap K V) k :
  NoDup l.*1 →
  foldl (λ m '(k, v), <[k := v]> m) m l !! k
  = match (list_to_map l : gmap K V) !! k with Some v => Some v | None => m !! k end.
Proof.
  revert m. induction l as [|[k0 v0] l IH]; intros m Hnd.
  { cbn. by rewrite lookup_empty. }
  rewrite fmap_cons in Hnd. cbn [foldl list_to_map foldr fst] in *. apply NoDup_cons in Hnd as [Hk Hnd]. rewrite IH by done.
  destruct (decide (k = k0)) as [->|Hne].
  - rewrite (not_elem_of_list_to_map_1 (M := gmap K) l k0) by done.
    by rewrite !lookup_insert, !decide_True by done.
  - by rewrite !lookup_insert_ne by done.
Qed.

(** What was written reads back as the same map. *)
Theorem pairs_roundtrip m :
  (∀ k, key_of (key_to k) = Ok k) → (∀ v, value_of (value_to v) = Ok v) →
  pairs_deserialize (pairs_serialize m) = Ok m.
Proof.
  intros Hk Hv. unfold pairs_serialize, pairs_deserialize.
  assert (∀ l, try_map pair_deserialize ((λ '(k, v), VSeq [key_to k; value_to v]) <$> l) = Ok l) as Hmap.
  { intros l. induction l as [|[k v] l IH]; [done|]. cbn. rewrite Hk. cbn. rewrite Hv. cbn.
    change (list_fmap _ _ ?f l) with (f <$> l). by rewrite IH. }
  rewrite Hmap. cbn. f_equal. apply map_eq. intros k.
  assert (NoDup (bt_iter m).*1) as Hnd by apply bt_keys_NoDup.
  rewrite collect_lookup by done. rewrite (list_to_map_proper (M := gmap K) (bt_iter m) (map_to_list m)).
  - rewrite list_to_map_to_list. by destruct (m !! k).
  - done.
  - apply bt_iter_perm.
Qed.
End pairs.

(** *** The fence table of the cluster and the edge writers of the graph *)

(** The derived order of tuples and structs is lexicographic. *)
Definition lex_leb {A B} `{!BOrd A, !BOrd B} (x y : A * B) : bool :=
  bleb x.1 y.1 && (negb (bleb y.1 x.1) || bleb x.2 y.2).

#[local] Program Instance BOrd_lex {A B} `{!BOrd A, !BOrd B} : BOrd (A * B) := {| bleb := lex_leb |}.
Next Obligation.
  intros A B ?? [a b] [a' b']. unfold lex_leb. cbn.
  destruct (bleb a a') eqn:E1, (bleb a' a) eqn:E2; cbn; auto.
  - apply bleb_total.
  - destruct (bleb_total a a'); congruence.
Qed.
Next Obligation.
  intros A B ?? [a b] [a' b'] [a'' b'']. unfold lex_leb. cbn.
  rewrite !andb_true_iff, !orb_true_iff, !negb_true_iff. intros [H1 H2] [H3 H4].
  split; [by eapply bleb_trans|]. destruct (bleb a'' a) eqn:E; [right|by left].
  assert (bleb a' a = true) as Ha by (by eapply bleb_trans). assert (bleb a'' a' = true) as Ha' by (by eapply bleb_trans).
  destruct H2 as [?|H2]; [congruence|]. destruct H4 as [?|H4]; [congruence|]. by eapply bleb_trans.
Qed.
Next Obligation.
  intros A B ?? [a b] [a' b']. unfold lex_leb. cbn.
  rewrite !andb_true_iff, !orb_true_iff, !negb_true_iff. intros [H1 H2] [H3 H4].
  assert (a = a') as -> by (by apply bleb_antisym).
  destruct H2 as [?|H2]; [congruence|]. destruct H4 as [?|H4]; [congruence|]. f_equal. by apply bleb_antisym.
Qed.

#[local] Program Instance BOrd_EdgeKind : BOrd EdgeKind :=
  {| bleb k k' := Nat.leb (edge_kind_code k) (edge_kind_code k') |}.
Next Obligation. by intros [] []; cbn; auto. Qed.
Next Obligation. by intros [] [] []. Qed.
Next Obligation. by intros [] []. Qed.

Definition num_of (v : Value) : result string N :=
  match v with VNum n => Ok n | _ => Err "invalid type: expected a number" end.

(** [tuple_key_map]: the key is a pair of ids. *)
Definition fence_key_to (k : N * N) : Value := VSeq [VNum k.1; VNum k.2].
Definition fence_key_of (v : Value) : result string (N * N) :=
  match v with
  | VSeq [p; n] => p ← num_of p; n ← num_of n; Ok (p, n)
  | _ => Err "invalid type: expected a pair"
  end.
Definition tuple_key_map_serialize : gmap (N * N) N → Value := pairs_serialize fence_key_to VNum.
Definition tuple_key_map_deserialize : Value → result string (gmap (N * N) N) := pairs_deserialize fence_key_of num_of.

(** [edge_writer_map]: the key is the derived form of [EdgeFactKey]. *)
Definition edge_kind_text (k : EdgeKind) : string :=
  match k with Contains => "Contains" | Connected => "Connected" | CachedOn => "CachedOn" end.
Definition edge_kind_of (v : Value) : result string EdgeKind :=
  match v with
  | VStr s =>
      if bool_decide (s = "Contains") then Ok Contains
      else if bool_decide (s = "Connected") then Ok Connected
      else if bool_decide (s = "CachedOn") then Ok CachedOn
      else Err "unknown variant"
  | _ => Err "invalid type: expected a string"
  end.
Definition field (name : string) (fields : list (string * Value)) : option Value :=
  snd <$> List.find (λ '(n, _), bool_decide (n = name)) fields.
Definition edge_fact_to (e : FactEdge) : Value :=
  VObj [("from", VNum e.1.1); ("to", VNum e.1.2); ("kind", VStr (edge_kind_text e.2))].
Definition edge_fact_of (v : Value) : result string FactEdge :=
  match v with
  | VObj fields =>
      from ← num_of (default (VSeq []) (field "from" fields));
      to ← num_of (default (VSeq []) (field "to" fields));
      kind ← edge_kind_of (default (VSeq []) (field "kind" fields));
      Ok (from, to, kind)
  | _ => Err "invalid type: expected a struct"
  end.
Definition edge_writer_map_serialize : gmap FactEdge N → Value := pairs_serialize edge_fact_to VNum.
Definition edge_writer_map_deserialize : Value → result string (gmap FactEdge N) :=
  pairs_deserialize edge_fact_of num_of.

(** A snapshot's fences and writers read back unchanged. *)
Theorem compound_maps_roundtrip fences writers :
  tuple_key_map_deserialize (tuple_key_map_serialize fences) = Ok fences
  ∧ edge_writer_map_deserialize (edge_writer_map_serialize writers) = Ok writers.
Proof. split; apply pairs_roundtrip; try done; [by intros []|by intros [[??] []]]. Qed.

(** ** Placement explanations *)

Section explanation.
Context (reason_to : PlacementReason → Value) (reason_of : Value → result string PlacementReason).

Definition explanation_from (summary : string) : PlacementExplanation := mkExplanation summary [].

Definition explanation_serialize (e : PlacementExplanation) : Value :=
  VObj [("summary", VStr (expl_summary e)); ("reasons", VSeq (reason_to <$> expl_reasons e))].

(** A bare string is a summary of an older writer; reasons default to none. *)
Definition explanation_deserialize (v : Value) : result string PlacementExplanation :=
  match v with
  | VStr summary => Ok (explanation_from summary)
  | VObj fields =>
      match field "summary" fields with
      | Some (VStr summary) =>
          reasons ← match field "reasons" fields with
                    | None => Ok []
                    | Some (VSeq l) => try_map reason_of l
                    | Some _ => Err "data did not match any variant of untagged enum Representation"
                    end;
          Ok (mkExplanation summary reasons)
      | _ => Err "data did not match any variant of untagged enum Representation"
      end
  | _ => Err "data did not match any variant of untagged enum Representation"
  end.

Lemma explanation_roundtrip e :
  (∀ r, reason_of (reason_to r) = Ok r) → explanation_deserialize (explanation_serialize e) = Ok e.
Proof.
  intros Hr. destruct e as [summary reasons].
  assert (try_map reason_of (reason_to <$> reasons) = Ok reasons) as Hl.
  { induction reasons as [|r reasons IH]; [done|]. cbn. rewrite Hr. cbn.
    change (list_fmap _ _ ?f reasons) with (f <$> reasons). by rewrite IH. }
  unfold explanation_serialize, explanation_deserialize. cbn [expl_summary expl_reasons].
  change (field "summary" _) with (Some (VStr summary)).
  change (field "reasons" _) with (Some (VSeq (reason_to <$> reasons))). cbv beta iota. by rewrite Hl.
Qed.
End explanation.
