(* ===== verification/Workload.v ===== *)
(** Workload intent above the kernel: src/crates/node/src/workload.rs.

    What a submission runs and how many members a service group wants.  The
    kernel's [Request] is embedded; execution payload and restart policy stay
    outside of it.  The second half is the data of machine descriptions
    (discover.rs). *)

From S2P Require Import Prelude Identifier Types.

Record StorageMount := mkMount { host_path : string; mount_path : string }.

#[export] Instance StorageMount_eq_dec : EqDecision StorageMount.
Proof. solve_decision. Defined.

(** [u16] ports. *)
Record PortPublish := mkPort { container_port : N; host_port : option N }.

#[export] Instance PortPublish_eq_dec : EqDecision PortPublish.
Proof. solve_decision. Defined.

Record ExecutionSpec := mkExecution {
  ex_command : list string;
  ex_image : option string;
  ex_storage : list StorageMount;
  ex_ports : list PortPublish;
  ex_grace_secs : N;
}.

(** [ExecutionSpec::default] *)
Definition execution_default : ExecutionSpec := mkExecution [] None [] [] 0.

Definition has_program (e : ExecutionSpec) : bool :=
  negb (bool_decide (ex_command e = [])) || bool_decide (is_Some (ex_image e)).

Record WorkloadSpec := mkWorkload {
  w_resources : Request;
  w_execution : ExecutionSpec;
  w_keep_alive : bool;
}.

Definition resource_only (resources : Request) : WorkloadSpec :=
  mkWorkload resources execution_default false.

(** [usize] counts. *)
Inductive Cardinality :=
| Fixed (count : N)
| Elastic (min target max : N)
| PerMachine.

#[export] Instance Cardinality_eq_dec : EqDecision Cardinality.
Proof. solve_decision. Defined.

Definition desired_count (c : Cardinality) (machines : N) : N :=
  match c with
  | Fixed count => count
  | Elastic _ target _ => target
  | PerMachine => machines
  end.

Definition cardinality_validate (c : Cardinality) : result string unit :=
  match c with
  | Fixed 0 => Err "fixed cardinality must be positive"
  | Elastic min target max =>
      if (min =? 0) || (target <? min) || (max <? target)
      then Err "elastic cardinality needs 1 <= min <= target <= max"
      else Ok ()
  | _ => Ok ()
  end.

Record ServiceGroup := mkGroup {
  group_id : string;
  group_owner : OwnerId;
  group_cardinality : Cardinality;
  group_template : WorkloadSpec;
}.

Definition with_request_id (id : RequestId) (r : Request) : Request :=
  mkRequest id (req_class r) (req_needs r) (req_topology r) (req_preferences r)
    (req_data r) (req_lifetime r) (req_priority r) (req_machine_local r).

(** [ServiceGroup::member] *)
Definition group_member (g : ServiceGroup) (request_id : RequestId) : WorkloadSpec :=
  let t := group_template g in
  mkWorkload (with_request_id request_id (w_resources t)) (w_execution t) false.

(** A validated policy wants at least one member, within its bounds. *)
Lemma cardinality_validate_spec c :
  cardinality_validate c = Ok () ↔
  match c with
  | Fixed count => 1 ≤ count
  | Elastic min target max => 1 ≤ min ∧ min ≤ target ∧ target ≤ max
  | PerMachine => True
  end.
Proof.
  destruct c as [[|p]|min target max|]; simpl.
  - split; [done|lia].
  - split; [lia|done].
  - destruct (N.eqb_spec min 0), (N.ltb_spec target min), (N.ltb_spec max target); simpl;
      split; done || lia.
  - done.
Qed.

(** * Machine descriptions: the data of src/crates/node/src/discover.rs that
    agents report and the controller turns into graph facts. *)

Definition HOST_ID_ATTR : string := "archon.host-id".
Definition DEVICE_HOST_PARENT_ATTR : string := "archon.host-parent".
Definition HOST_FACT_WRITER : FactWriterId := 1.
Definition DEVICE_FACT_WRITER : FactWriterId := 2.

Record HostNodeSpec := mkHost {
  host_id : string;
  host_kind : ResourceClass;
  host_parent_id : option string;
  host_attrs : Attrs;
  host_capacity : Quantity;
}.

#[export] Instance HostNodeSpec_eq_dec : EqDecision HostNodeSpec.
Proof. solve_decision. Defined.

Record DeviceSpec := mkDevice {
  dev_kind : ResourceClass;
  dev_id : string;
  dev_path : string;
  dev_host_parent : option string;
  dev_access : list string;
  dev_attrs : Attrs;
}.

#[export] Instance DeviceSpec_eq_dec : EqDecision DeviceSpec.
Proof. solve_decision. Defined.

Record MachineDescription := mkMachine {
  md_instance_id : string;
  md_name : string;
  md_cpus : u64;
  md_memory_bytes : u64;
  md_host_nodes : list HostNodeSpec;
  md_devices : list DeviceSpec;
}.
