(* ===== verification/Graph.v ===== *)
(** * The resource graph (crates/kernel/src/graph.rs): definitions

    Revisioned node and edge facts, the containment hierarchy derived from
    them, claim contracts, discovery-writer provenance and observations.
    The mutators of the source either replace the whole value or return an
    error before assigning, so each is a function [Graph → result Error Graph]. *)

From S2P Require Import Prelude.
From S2P Require Import Identifier.
From S2P Require Import Types.

Record Graph := mkGraph {
  g_revision : u64;
  g_nodes : gmap N Node;
  g_edges : list Edge;
  g_parent : gmap N N;
  g_children : gmap N (list N);
  g_by_class : gmap string (list N);
  g_claim_bindings : gmap N (gmap string ClaimBinding);
  g_node_fact_writers : gmap N N;
  g_edge_fact_writers : gmap FactEdge N;
  g_observations : gmap N Attrs;
}.

(** [Graph::new] *)
Definition graph_new : Graph := mkGraph 0 ∅ [] ∅ ∅ ∅ ∅ ∅ ∅ ∅.

(** Field assignments. *)
Definition set_revision (r : u64) (g : Graph) : Graph :=
  mkGraph r (g_nodes g) (g_edges g) (g_parent g) (g_children g) (g_by_class g)
    (g_claim_bindings g) (g_node_fact_writers g) (g_edge_fact_writers g) (g_observations g).
Definition set_facts (nodes : gmap N Node) (edges : list Edge) (g : Graph) : Graph :=
  mkGraph (g_revision g) nodes edges (g_parent g) (g_children g) (g_by_class g)
    (g_claim_bindings g) (g_node_fact_writers g) (g_edge_fact_writers g) (g_observations g).
Definition set_index (parent : gmap N N) (children : gmap N (list N))
    (by_class : gmap string (list N)) (g : Graph) : Graph :=
  mkGraph (g_revision g) (g_nodes g) (g_edges g) parent children by_class
    (g_claim_bindings g) (g_node_fact_writers g) (g_edge_fact_writers g) (g_observations g).
Definition set_claim_bindings (cb : gmap N (gmap string ClaimBinding)) (g : Graph) : Graph :=
  mkGraph (g_revision g) (g_nodes g) (g_edges g) (g_parent g) (g_children g) (g_by_class g)
    cb (g_node_fact_writers g) (g_edge_fact_writers g) (g_observations g).
Definition set_fact_writers (nw : gmap N N) (ew : gmap FactEdge N) (g : Graph) : Graph :=
  mkGraph (g_revision g) (g_nodes g) (g_edges g) (g_parent g) (g_children g) (g_by_class g)
    (g_claim_bindings g) nw ew (g_observations g).
Definition set_observations (o : gmap N Attrs) (g : Graph) : Graph :=
  mkGraph (g_revision g) (g_nodes g) (g_edges g) (g_parent g) (g_children g) (g_by_class g)
    (g_claim_bindings g) (g_node_fact_writers g) (g_edge_fact_writers g) o.

(** ** Queries *)

Definition graph_node (g : Graph) (id : NodeId) : option Node := g_nodes g !! id.
Definition graph_nodes (g : Graph) : list Node := bt_values (g_nodes g).

(** [EdgeFactKey::from_edge] *)
Definition edge_key (e : Edge) : FactEdge := (edge_from e, edge_to e, edge_kind e).

(** [existing.from == edge.from && existing.to == edge.to && existing.kind == edge.kind] *)
Definition same_edge (e e' : Edge) : bool := bool_decide (edge_key e = edge_key e').

Definition has_fact_writers (g : Graph) : bool :=
  negb (bool_decide (g_node_fact_writers g = ∅))
  || negb (bool_decide (g_edge_fact_writers g = ∅)).

Definition node_fact_writer (g : Graph) (node : NodeId) : option FactWriterId :=
  g_node_fact_writers g !! node.
Definition edge_fact_writer (g : Graph) (edge : FactEdge) : option FactWriterId :=
  g_edge_fact_writers g !! edge.

Definition claim_binding (g : Graph) (node : NodeId) (dimension : CapacityDimension)
    : option ClaimBinding :=
  dimensions ← g_claim_bindings g !! node; dimensions !! dimension.

(** The loop of [claim_binding_for_quantity]: one contract for all positive
    dimensions. *)
Definition claim_binding_step (g : Graph) (node : NodeId)
    (selected : option ClaimBinding) (entry : CapacityDimension * u64)
    : result Error (option ClaimBinding) :=
  let '(dimension, amount) := entry in
  if amount =? 0 then Ok selected
  else
    binding ← ok_or (claim_binding g node dimension) (UnclaimableNode node);
    match selected with
    | Some existing =>
        if bool_decide (existing = binding) then Ok selected
        else Err (Refused ("claim on " +:+ show_node node
               +:+ " spans capacity dimensions with different provider bindings"))
    | None => Ok (Some binding)
    end.

Definition claim_binding_for_quantity (g : Graph) (node : NodeId) (quantity : Quantity)
    : result Error ClaimBinding :=
  match graph_node g node with
  | None => Err (UnknownNode node)
  | Some _ =>
      selected ← try_fold (claim_binding_step g node) None (bt_iter quantity);
      ok_or selected (UnclaimableNode node)
  end.

Definition observation (g : Graph) (id : NodeId) (key : string) : option string :=
  attrs ← g_observations g !! id; attrs !! key.

Definition nodes_of_class (g : Graph) (kind : ResourceClass) : list NodeId :=
  default [] (g_by_class g !! kind).
Definition graph_parent (g : Graph) (id : NodeId) : option NodeId := g_parent g !! id.
Definition graph_children (g : Graph) (id : NodeId) : list NodeId :=
  default [] (g_children g !! id).

(** The [while let Some(node) = current] walk.  [size parent + 1] steps are
    enough whenever the containment relation is acyclic. *)
Fixpoint parent_walk (parent : gmap N N) (fuel : nat) (current : option NodeId)
    : list NodeId :=
  match fuel, current with
  | S fuel, Some node => node :: parent_walk parent fuel (parent !! node)
  | _, _ => []
  end.

Definition ancestors (g : Graph) (id : NodeId) : list NodeId :=
  parent_walk (g_parent g) (S (size (g_parent g))) (graph_parent g id).

(** The explicit stack of [descendants]: the head of the list is the top. *)
Fixpoint descend (children : N → list N) (fuel : nat) (stack : list NodeId)
    : list NodeId :=
  match fuel, stack with
  | S fuel, node :: stack =>
      node :: descend children fuel (reverse (children node) ++ stack)
  | _, _ => []
  end.

Definition descendants (g : Graph) (id : NodeId) : list NodeId :=
  descend (graph_children g) (length (g_edges g)) (reverse (graph_children g id)).

Definition node_is_class (g : Graph) (kind : ResourceClass) (id : NodeId) : bool :=
  match graph_node g id with
  | Some node => bool_decide (node_kind node = kind)
  | None => false
  end.

Definition ancestor_of_class (g : Graph) (id : NodeId) (kind : ResourceClass)
    : option NodeId :=
  if node_is_class g kind id then Some id
  else List.find (node_is_class g kind) (ancestors g id).

Definition machine_of (g : Graph) (id : NodeId) : option NodeId :=
  ancestor_of_class g id Class.Machine.

Definition has_edge (g : Graph) (left right : NodeId) (kind : EdgeKind) : bool :=
  existsb (λ edge,
    bool_decide (edge_kind edge = kind)
    && ((edge_from edge =? left) && (edge_to edge =? right)
        || (edge_from edge =? right) && (edge_to edge =? left)))
    (g_edges g).

Definition caches (g : Graph) (id data : NodeId) : bool :=
  has_edge g data id CachedOn
  || existsb (λ ancestor, has_edge g data ancestor CachedOn) (ancestors g id).

Definition degraded (g : Graph) (node : NodeId) : bool :=
  bool_decide (observation g node "health" = Some "degraded").

Definition degraded_ancestor (g : Graph) (id : NodeId) : option NodeId :=
  if degraded g id then Some id else List.find (degraded g) (ancestors g id).

Definition same_ancestor (g : Graph) (left right : NodeId) (kind : ResourceClass) : bool :=
  match ancestor_of_class g left kind, ancestor_of_class g right kind with
  | Some a, Some b => a =? b
  | _, _ => false
  end.

Definition contains_related (g : Graph) (left right : NodeId) : bool :=
  bool_decide (left ∈ ancestors g right) || bool_decide (right ∈ ancestors g left).

Definition satisfies (g : Graph) (left right : NodeId) (relation : TopologyRelation) : bool :=
  match relation with
  | SameAncestor class => same_ancestor g left right class
  | DifferentAncestor class =>
      match ancestor_of_class g left class, ancestor_of_class g right class with
      | Some a, Some b => negb (a =? b)
      | _, _ => false
      end
  | RContains => contains_related g left right
  | RConnected => has_edge g left right Connected
  | RCachedOn => has_edge g left right CachedOn
  end.

Definition related (g : Graph) (left right : NodeId) (kind : EdgeKind) : bool :=
  match kind with
  | Contains => contains_related g left right
  | Connected => has_edge g left right Connected
  | CachedOn => has_edge g left right CachedOn
  end.

(** ** Derived indexes *)

Definition is_contains (e : Edge) : bool := bool_decide (edge_kind e = Contains).

Definition push_index `{Countable K} (m : gmap K (list N)) (k : K) (v : N) : gmap K (list N) :=
  <[k := default [] (m !! k) ++ [v]]> m.

Definition parent_of_edges (edges : list Edge) : gmap N N :=
  foldl (λ m e, if is_contains e then <[edge_to e := edge_from e]> m else m) ∅ edges.
Definition children_of_edges (edges : list Edge) : gmap N (list N) :=
  sort_by N.leb <$>
  foldl (λ m e, if is_contains e then push_index m (edge_from e) (edge_to e) else m) ∅ edges.
Definition class_index (nodes : gmap N Node) : gmap string (list N) :=
  sort_by N.leb <$>
  foldl (λ m node, push_index m (node_kind node) (node_id node)) ∅ (bt_values nodes).

(** [Graph::rebuild] *)
Definition rebuild (g : Graph) : Graph :=
  set_index (parent_of_edges (g_edges g)) (children_of_edges (g_edges g))
    (class_index (g_nodes g)) g.

(** ** Validation *)

Definition validate_update_keys (updates : list ClaimBindingUpdate) : result Error unit :=
  _ ← try_fold (λ (seen : gset (N * string)) update,
         let key := (upd_node update, upd_dimension update) in
         if decide (key ∈ seen)
         then Err (Refused ("duplicate claim-binding update for " +:+ show_node (upd_node update)
                            +:+ " dimension " +:+ upd_dimension update))
         else Ok ({[key]} ∪ seen)) ∅ updates;
  Ok ().

Definition validate_claim_bindings (nodes : gmap N Node)
    (bindings : gmap N (gmap string ClaimBinding)) : result Error unit :=
  try_for (λ '(id, dimensions),
    node ← ok_or (nodes !! id) (UnknownNode id);
    try_for (λ dimension,
      if quantity_get (node_capacity node) dimension =? 0
      then Err (Refused ("claim binding for " +:+ show_node id +:+ " dimension " +:+ dimension
                         +:+ " has no positive capacity"))
      else Ok ()) (bt_keys dimensions)) (bt_iter bindings).

(** First pass of [validate_contains]: one container per node, no self-loop. *)
Definition contains_parents (edges : list Edge) : result Error (gmap N N) :=
  try_fold (λ (parent : gmap N N) edge,
    if negb (is_contains edge) then Ok parent
    else if edge_from edge =? edge_to edge
    then Err (InvalidTopology ("node " +:+ show_node (edge_from edge) +:+ " contains itself"))
    else
      match parent !! edge_to edge with
      | Some previous =>
          if negb (previous =? edge_from edge)
          then Err (InvalidTopology ("node " +:+ show_node (edge_to edge)
                                     +:+ " has more than one container"))
          else Ok (<[edge_to edge := edge_from edge]> parent)
      | None => Ok (<[edge_to edge := edge_from edge]> parent)
      end) ∅ edges.

(** The visited-set walk from one start node: [true] when a node repeats. *)
Fixpoint walk_repeats (parent : gmap N N) (fuel : nat) (visited : gset N)
    (current : option NodeId) : bool :=
  match fuel, current with
  | S fuel, Some node =>
      if decide (node ∈ visited) then true
      else walk_repeats parent fuel ({[node]} ∪ visited) (parent !! node)
  | _, _ => false
  end.

Definition validate_contains (edges : list Edge) : result Error unit :=
  parent ← contains_parents edges;
  try_for (λ start,
    if walk_repeats parent (S (S (size parent))) ∅ (Some start)
    then Err (InvalidTopology ("Contains cycle through node " +:+ show_node start))
    else Ok ()) (bt_keys parent).

(** ** Updates *)

Definition stage_node (staged : gmap N Node) (node : Node) : result Error (gmap N Node) :=
  match node_attrs node !! "health" with
  | Some _ => Err (Refused ("resource fact " +:+ show_node (node_id node)
                            +:+ " uses reserved observation key health"))
  | None => Ok (<[node_id node := node]> staged)
  end.

Definition stage_edge (nodes : gmap N Node) (staged : list Edge) (edge : Edge)
    : result Error (list Edge) :=
  _ ← ok_or (nodes !! edge_from edge) (UnknownNode (edge_from edge));
  _ ← ok_or (nodes !! edge_to edge) (UnknownNode (edge_to edge));
  if negb (existsb (λ existing, same_edge existing edge) staged)
  then Ok (staged ++ [edge])
  else Ok (map (λ existing,
             if same_edge existing edge
             then mkEdge (edge_from existing) (edge_to existing) (edge_kind existing)
                         (edge_attrs edge)
             else existing) staged).

(** [Graph::apply_fact_values] *)
Definition apply_fact_values (g : Graph) (nodes : list Node) (edges : list Edge)
    : result Error Graph :=
  staged_nodes ← try_fold stage_node (g_nodes g) nodes;
  staged_edges ← try_fold (stage_edge staged_nodes) (g_edges g) edges;
  _ ← validate_contains staged_edges;
  _ ← validate_claim_bindings staged_nodes (g_claim_bindings g);
  Ok (rebuild (set_facts staged_nodes staged_edges g)).

(** [Graph::apply] *)
Definition graph_apply (g : Graph) (nodes : list Node) (edges : list Edge)
    : result Error Graph :=
  if (negb (bool_decide (length nodes = 0%nat)) || negb (bool_decide (length edges = 0%nat)))
     && has_fact_writers g
  then Err (Refused "legacy unowned Graph updates are disabled after explicit fact ownership is established")
  else
    g' ← apply_fact_values g nodes edges;
    Ok (set_revision (sat_add (g_revision g') 1) g').

(** [Graph::set_claim_binding] *)
Definition set_claim_binding (g : Graph) (update : ClaimBindingUpdate) : result Error Graph :=
  match graph_node g (upd_node update) with
  | None => Err (UnknownNode (upd_node update))
  | Some _ =>
      let node := upd_node update in
      let bindings := g_claim_bindings g in
      match upd_binding update with
      | Some binding =>
          Ok (set_claim_bindings
                (<[node := <[upd_dimension update := binding]> (default ∅ (bindings !! node))]>
                   bindings) g)
      | None =>
          match bindings !! node with
          | Some dimensions =>
              let dimensions := delete (upd_dimension update) dimensions in
              Ok (set_claim_bindings
                    (if bool_decide (dimensions = ∅) then delete node bindings
                     else <[node := dimensions]> bindings) g)
          | None => Ok g
          end
      end
  end.

Definition is_removal (u : ClaimBindingUpdate) : bool :=
  match upd_binding u with None => true | Some _ => false end.

(** [Graph::apply_resource_facts] *)
Definition graph_apply_resource_facts (g : Graph) (nodes : list Node) (edges : list Edge)
    (updates : list ClaimBindingUpdate) : result Error Graph :=
  _ ← validate_update_keys updates;
  let target_revision := sat_add (g_revision g) 1 in
  staged ← try_fold set_claim_binding g (List.filter is_removal updates);
  staged ← graph_apply staged nodes edges;
  staged ← try_fold set_claim_binding staged (List.filter (λ u, negb (is_removal u)) updates);
  _ ← validate_claim_bindings (g_nodes staged) (g_claim_bindings staged);
  Ok (set_revision target_revision staged).

(** One node of a provider batch: named once, and owned by its writer or new. *)
Definition check_batch_node (staged : Graph) (writer : FactWriterId)
    (seen_nodes : gset N) (node : Node) : result Error (gset N) :=
  let id := node_id node in
  if decide (id ∈ seen_nodes)
  then Err (Refused ("resource fact update names node " +:+ show_node id +:+ " more than once"))
  else
    match g_node_fact_writers staged !! id with
    | Some owner =>
        if negb (owner =? writer)
        then Err (Refused ("resource node " +:+ show_node id +:+ " belongs to fact writer "
               +:+ show_writer owner +:+ " and cannot be overwritten by " +:+ show_writer writer))
        else Ok ({[id]} ∪ seen_nodes)
    | None =>
        match g_nodes staged !! id with
        | Some _ => Err (Refused ("legacy resource node " +:+ show_node id
               +:+ " has no fact writer; adopt verified ownership before mutation"))
        | None => Ok ({[id]} ∪ seen_nodes)
        end
    end.

Definition show_edge (e : FactEdge) : string :=
  let '(from, to, kind) := e in
  show_node from +:+ " -> " +:+ show_node to +:+ " " +:+ show_edge_kind kind.

(** One edge of a provider batch, likewise. *)
Definition check_batch_edge (staged : Graph) (writer : FactWriterId)
    (seen_edges : gset FactEdge) (edge : Edge) : result Error (gset FactEdge) :=
  let key := edge_key edge in
  if decide (key ∈ seen_edges)
  then Err (Refused ("resource fact update names edge " +:+ show_edge key +:+ " more than once"))
  else
    match g_edge_fact_writers staged !! key with
    | Some owner =>
        if negb (owner =? writer)
        then Err (Refused ("resource edge " +:+ show_edge key +:+ " belongs to fact writer "
               +:+ show_writer owner +:+ " and cannot be overwritten by " +:+ show_writer writer))
        else Ok ({[key]} ∪ seen_edges)
    | None =>
        if existsb (λ existing, same_edge existing edge) (g_edges staged)
        then Err (Refused ("legacy resource edge " +:+ show_edge key
               +:+ " has no fact writer; adopt verified ownership before mutation"))
        else Ok ({[key]} ∪ seen_edges)
    end.

(** The body of the batch loop of [apply_provider_facts]. *)
Definition apply_batch (acc : Graph * gset N * gset FactEdge) (batch : ProviderFactBatch)
    : result Error (Graph * gset N * gset FactEdge) :=
  let '(staged, seen_nodes, seen_edges) := acc in
  let writer := batch_writer batch in
  seen_nodes ← try_fold (check_batch_node staged writer) seen_nodes (batch_nodes batch);
  seen_edges ← try_fold (check_batch_edge staged writer) seen_edges (batch_edges batch);
  staged ← apply_fact_values staged (batch_nodes batch) (batch_edges batch);
  let node_writers :=
    foldl (λ m id, <[id := writer]> m) (g_node_fact_writers staged)
      (node_id <$> batch_nodes batch) in
  let edge_writers :=
    foldl (λ m key, <[key := writer]> m) (g_edge_fact_writers staged)
      (edge_key <$> batch_edges batch) in
  Ok (set_fact_writers node_writers edge_writers staged, seen_nodes, seen_edges).

(** [Graph::apply_provider_facts] *)
Definition graph_apply_provider_facts (g : Graph) (batches : list ProviderFactBatch)
    (updates : list ClaimBindingUpdate) : result Error Graph :=
  _ ← validate_update_keys updates;
  let target_revision := sat_add (g_revision g) 1 in
  staged ← try_fold set_claim_binding g (List.filter is_removal updates);
  '(staged, _, _) ← try_fold apply_batch (staged, ∅, ∅) batches;
  staged ← try_fold set_claim_binding staged (List.filter (λ u, negb (is_removal u)) updates);
  _ ← validate_claim_bindings (g_nodes staged) (g_claim_bindings staged);
  Ok (set_revision target_revision staged).

(** Adoption of one node / one edge by a writer. *)
Definition adopt_node (g : Graph) (writer : FactWriterId)
    (acc : gmap N N * gset N) (node : NodeId) : result Error (gmap N N * gset N) :=
  let '(staged, seen) := acc in
  if decide (node ∈ seen)
  then Err (Refused ("fact writer adoption names node " +:+ show_node node +:+ " more than once"))
  else
    _ ← ok_or (g_nodes g !! node) (UnknownNode node);
    match staged !! node with
    | Some owner =>
        if negb (owner =? writer)
        then Err (Refused ("resource node " +:+ show_node node +:+ " already belongs to fact writer "
               +:+ show_writer owner +:+ "; cannot adopt " +:+ show_writer writer))
        else Ok (<[node := writer]> staged, {[node]} ∪ seen)
    | None => Ok (<[node := writer]> staged, {[node]} ∪ seen)
    end.

Definition adopt_edge (g : Graph) (writer : FactWriterId)
    (acc : gmap FactEdge N * gset FactEdge) (edge : FactEdge)
    : result Error (gmap FactEdge N * gset FactEdge) :=
  let '(staged, seen) := acc in
  if decide (edge ∈ seen)
  then Err (Refused ("fact writer adoption names edge " +:+ show_edge edge +:+ " more than once"))
  else if negb (existsb (λ existing, bool_decide (edge_key existing = edge)) (g_edges g))
  then Err (Refused ("cannot adopt missing resource edge " +:+ show_edge edge))
  else
    match staged !! edge with
    | Some owner =>
        if negb (owner =? writer)
        then Err (Refused ("resource edge " +:+ show_edge edge +:+ " already belongs to fact writer "
               +:+ show_writer owner +:+ "; cannot adopt " +:+ show_writer writer))
        else Ok (<[edge := writer]> staged, {[edge]} ∪ seen)
    | None => Ok (<[edge := writer]> staged, {[edge]} ∪ seen)
    end.

(** [Graph::adopt_fact_writers] *)
Definition graph_adopt_fact_writers (g : Graph) (assignments : list FactWriterAssignment)
    : result Error Graph :=
  '(nodes, edges) ← try_fold (λ acc assignment,
      let '(nodes, edges) := acc in
      nodes ← try_fold (adopt_node g (assign_writer assignment)) nodes (assign_nodes assignment);
      edges ← try_fold (adopt_edge g (assign_writer assignment)) edges (assign_edges assignment);
      Ok (nodes, edges))
    ((g_node_fact_writers g, ∅), (g_edge_fact_writers g, ∅)) assignments;
  Ok (set_fact_writers nodes.1 edges.1 g).

(** [Graph::set_observation]: [None] when the node is unknown. *)
Definition set_observation (g : Graph) (id : NodeId) (key value : string) : option Graph :=
  match g_nodes g !! id with
  | None => None
  | Some _ =>
      Some (set_observations
              (<[id := <[key := value]> (default ∅ (g_observations g !! id))]>
                 (g_observations g)) g)
  end.

(** [Graph::migrate_legacy_observations] *)
Definition strip_health (node : Node) : Node :=
  mkNode (node_id node) (node_kind node) (delete "health" (node_attrs node)) (node_capacity node).

Definition migrate_legacy_observations (g : Graph) : Graph :=
  let legacy :=
    omap (λ '(id, node), pair id <$> (node_attrs node !! "health")) (bt_iter (g_nodes g)) in
  let observations :=
    foldl (λ (m : gmap N Attrs) '(id, health),
             let attrs := default ∅ (m !! id) in
             <[id := match attrs !! "health" with
                     | Some _ => attrs
                     | None => <["health" := health]> attrs
                     end]> m) (g_observations g) legacy in
  set_observations observations (set_facts (strip_health <$> g_nodes g) (g_edges g) g).
