(* ===== verification/GraphFacts.v ===== *)
(** * The resource graph: structural theorems

    The containment forest: what [validate_contains] establishes, that the
    ancestor and descendant walks terminate within their fuel and compute
    the containment order, and the invariant every graph update preserves. *)

From S2P Require Import Prelude.
From S2P Require Import Identifier.
From S2P Require Import Types.
From S2P Require Import Graph.

(** ** Depth in a parent map *)

Inductive depth (p : gmap N N) : N → nat → Prop :=
| depth_root x : p !! x = None → depth p x 0
| depth_step x y d : p !! x = Some y → depth p y d → depth p x (S d).

#[export] Hint Constructors depth : archon.

Definition acyclic (p : gmap N N) : Prop := ∀ x, ∃ d, depth p x d.

Lemma depth_fun p x d d' : depth p x d → depth p x d' → d = d'.
Proof.
  intros Hd. revert d'. induction Hd as [x Hx|x y d Hx Hd IH]; intros d' Hd';
    inversion Hd' as [? Hx'|? y' d0 Hx' Hd0]; simplify_eq; [done|].
  f_equal. by apply IH.
Qed.

(** The strict ancestors of a node at depth [d]: [d] distinct keys below it. *)
Lemma depth_keys p x d :
  depth p x d → ∃ l, length l = d ∧ NoDup l
    ∧ ∀ y, y ∈ l → is_Some (p !! y) ∧ ∃ e, depth p y e ∧ (e ≤ d)%nat.
Proof.
  induction 1 as [x Hx|x y d Hx Hd (l & Hl & Hnd & Hin)].
  - exists []. split_and!; [done|constructor|]. intros y Hy. by apply elem_of_nil in Hy.
  - exists (x :: l). split_and!; [by simpl; f_equal| |].
    + constructor; [|done]. intros Hx'. destruct (Hin x Hx') as (_ & e & He & Hle).
      assert (e = S d) by (eapply depth_fun; [done|by econstructor]). lia.
    + intros z [->|Hz]%elem_of_cons.
      * split; [by rewrite Hx|]. exists (S d). split; [by econstructor|done].
      * destruct (Hin z Hz) as (? & e & He & Hle). split; [done|]. exists e. split; [done|lia].
Qed.

Lemma depth_le_size p x d : depth p x d → (d ≤ size p)%nat.
Proof.
  intros Hd. destruct (depth_keys _ _ _ Hd) as (l & Hl & Hnd & Hin).
  rewrite <-Hl, <-(size_list_to_set (C:=gset N) l) by done. rewrite <-(size_dom p).
  apply subseteq_size. intros y Hy%elem_of_list_to_set.
  apply elem_of_dom. by apply Hin.
Qed.

(** ** [ancestors] *)

Lemma parent_walk_enough p x d f f' :
  depth p x d → (d ≤ f)%nat → (d ≤ f')%nat →
  parent_walk p f (p !! x) = parent_walk p f' (p !! x).
Proof.
  intros Hd. revert f f'. induction Hd as [x Hx|x y d Hx Hd IH]; intros f f' Hf Hf'; rewrite Hx.
  - by destruct f, f'.
  - destruct f as [|f], f' as [|f']; [lia..|]. simpl. f_equal. apply IH; lia.
Qed.

(** The recursive equation of [ancestors] on a forest. *)
Lemma ancestors_eq g x :
  acyclic (g_parent g) →
  ancestors g x = match graph_parent g x with Some y => y :: ancestors g y | None => [] end.
Proof.
  intros Hac. unfold ancestors at 1, graph_parent.
  destruct (g_parent g !! x) as [y|] eqn:Hx; [|done]. simpl. f_equal.
  destruct (Hac y) as [d Hd]. pose proof (depth_le_size _ _ _ Hd).
  apply (parent_walk_enough _ _ d); [done|lia..].
Qed.

(** [depth] as an induction principle on the nodes of a forest. *)
Lemma forest_ind (p : gmap N N) (P : N → Prop) :
  acyclic p →
  (∀ x, p !! x = None → P x) →
  (∀ x y, p !! x = Some y → P y → P x) →
  ∀ x, P x.
Proof. intros Hac Hroot Hstep x. destruct (Hac x) as [d Hd]. induction Hd; eauto. Qed.

Lemma ancestors_trans g x y z :
  acyclic (g_parent g) → y ∈ ancestors g x → z ∈ ancestors g y → z ∈ ancestors g x.
Proof.
  intros Hac. revert x. refine (forest_ind (g_parent g) _ Hac _ _).
  - intros x Hx. rewrite ancestors_eq by done. unfold graph_parent. rewrite Hx.
    by intros ?%elem_of_nil.
  - intros x w Hx IH. rewrite (ancestors_eq g x) by done. unfold graph_parent. rewrite Hx.
    intros [->|Hy]%elem_of_cons Hz; right; [done|by apply IH].
Qed.

Lemma ancestors_depth g x y d :
  acyclic (g_parent g) → depth (g_parent g) x d → y ∈ ancestors g x →
  ∃ e, depth (g_parent g) y e ∧ (e < d)%nat.
Proof.
  intros Hac Hd. induction Hd as [x Hx|x w d Hx Hd IH].
  - rewrite ancestors_eq by done. unfold graph_parent. rewrite Hx. by intros ?%elem_of_nil.
  - rewrite ancestors_eq by done. unfold graph_parent. rewrite Hx.
    intros [->|Hy]%elem_of_cons; [eauto|].
    destruct (IH Hy) as (e & He & Hlt). eexists. split; [done|lia].
Qed.

Lemma ancestors_irrefl g x : acyclic (g_parent g) → x ∉ ancestors g x.
Proof.
  intros Hac Hx. destruct (Hac x) as [d Hd].
  destruct (ancestors_depth g x x d Hac Hd Hx) as (e & He & Hlt).
  assert (e = d) by (by eapply depth_fun). lia.
Qed.

(** ** What [validate_contains] establishes *)

Lemma contains_parents_fold edges (p0 p : gmap N N) :
  try_fold (λ (parent : gmap N N) edge,
    if negb (is_contains edge) then Ok parent
    else if edge_from edge =? edge_to edge
    then Err (InvalidTopology ("node " +:+ show_node (edge_from edge) +:+ " contains itself"))
    else
      match parent !! edge_to edge with
      | Some previous =>
          if negb (previous =? edge_from edge)
          then Err (InvalidTopology ("node " +:+ show_node (edge_to edge)
                                     +:+ " has more than one container"))
          else Ok (<[edge_to edge := edge_from edge]> parent)
      | None => Ok (<[edge_to edge := edge_from edge]> parent)
      end) p0 edges = Ok p →
  p = foldl (λ m e, if is_contains e then <[edge_to e := edge_from e]> m else m) p0 edges
  ∧ p0 ⊆ p
  ∧ ∀ e, e ∈ edges → is_contains e = true → p !! edge_to e = Some (edge_from e).
Proof.
  revert p0. induction edges as [|e edges IH]; intros p0 Hrun; simpl in *.
  - simplify_eq. split_and!; [done..|]. intros e He. by apply elem_of_nil in He.
  - apply bind_Ok_inv in Hrun as (p1 & Hp1 & Hrun).
    destruct (IH _ Hrun) as (Hp & Hsub & Hall). clear IH Hrun.
    destruct (is_contains e) eqn:Hc; simpl in Hp1; simplify_eq.
    2:{ split_and!; [done..|]. intros e' [->|He']%elem_of_cons Hc'; [congruence|auto]. }
    destruct (edge_from e =? edge_to e); [discriminate|].
    assert (p1 = <[edge_to e := edge_from e]> p0
            ∧ (p0 !! edge_to e = None ∨ p0 !! edge_to e = Some (edge_from e))) as [-> Hold].
    { destruct (p0 !! edge_to e) as [q|]; [|split; [congruence|by left]].
      destruct (q =? edge_from e) eqn:Hq; simpl in Hp1; [|discriminate].
      apply N.eqb_eq in Hq as ->. split; [congruence|by right]. }
    split_and!; [done| |].
    + etrans; [|exact Hsub]. destruct Hold as [Hn|Hs]; [by apply insert_subseteq|].
      by rewrite insert_id.
    + intros e' [->|He']%elem_of_cons Hc'; [|auto].
      eapply lookup_weaken; [apply lookup_insert_eq|done].
Qed.

Lemma walk_repeats_depth (p : gmap N N) fuel visited x :
  visited ⊆ dom p → (size p + 1 < fuel + size visited)%nat →
  walk_repeats p fuel visited (Some x) = false → ∃ d, depth p x d.
Proof.
  revert visited x. induction fuel as [|fuel IH]; intros visited x Hsub Hfuel Hrun.
  - apply subseteq_size in Hsub. rewrite size_dom in Hsub. lia.
  - simpl in Hrun. destruct (decide (x ∈ visited)) as [|Hx]; [discriminate|].
    destruct (p !! x) as [y|] eqn:Hy; [|eauto with archon].
    destruct (IH ({[x]} ∪ visited) y) as [d Hd]; [| |done|eauto with archon].
    + apply union_subseteq. split; [|done]. apply singleton_subseteq_l, elem_of_dom. eauto.
    + rewrite size_union by set_solver. rewrite size_singleton. lia.
Qed.

(** Completeness of the walk on a forest. *)
Lemma walk_repeats_acyclic (p : gmap N N) fuel visited x d :
  depth p x d → (∀ y e, y ∈ visited → depth p y e → (d < e)%nat) →
  walk_repeats p fuel visited (Some x) = false.
Proof.
  intros Hd. revert fuel visited.
  induction Hd as [x Hx|x y d Hx Hd IH]; intros [|fuel] visited Hv; simpl; try done;
    (destruct (decide (x ∈ visited)) as [Hin|_];
     [exfalso; eapply Nat.lt_irrefl, (Hv x _ Hin); eauto with archon|]); rewrite Hx.
  - by destruct fuel.
  - apply IH. intros z e [->%elem_of_singleton|Hz]%elem_of_union He.
    + assert (e = S d) by (eapply depth_fun; eauto with archon). lia.
    + specialize (Hv z e Hz He). lia.
Qed.

Lemma validate_contains_Ok edges :
  validate_contains edges = Ok () →
  acyclic (parent_of_edges edges)
  ∧ ∀ e, e ∈ edges → is_contains e = true →
      parent_of_edges edges !! edge_to e = Some (edge_from e).
Proof.
  unfold validate_contains. intros Hrun. inv_bind Hrun.
  apply contains_parents_fold in Hv as (-> & _ & Hall).
  fold (parent_of_edges edges) in *. split; [|done].
  rewrite try_for_Ok in Hrun. intros x.
  destruct (parent_of_edges edges !! x) as [y|] eqn:Hx; [|eauto with archon].
  specialize (Hrun x). rewrite elem_of_bt_keys in Hrun.
  specialize (Hrun ltac:(eauto)).
  destruct (walk_repeats _ _ ∅ (Some x)) eqn:Hw; [discriminate|].
  eapply walk_repeats_depth; [| |exact Hw]; [set_solver|].
  rewrite size_empty. lia.
Qed.

(** ** The well-formedness invariant *)

Record graph_wf (g : Graph) : Prop := {
  wf_keys : ∀ id n, g_nodes g !! id = Some n → node_id n = id;
  wf_ends : ∀ e, e ∈ g_edges g →
    is_Some (g_nodes g !! edge_from e) ∧ is_Some (g_nodes g !! edge_to e);
  wf_edges : NoDup (edge_key <$> g_edges g);
  wf_parent : g_parent g = parent_of_edges (g_edges g);
  wf_children : g_children g = children_of_edges (g_edges g);
  wf_class : g_by_class g = class_index (g_nodes g);
  wf_acyclic : acyclic (g_parent g);
  wf_forest : ∀ e, e ∈ g_edges g → is_contains e = true →
    g_parent g !! edge_to e = Some (edge_from e);
  wf_node_writers : dom (g_node_fact_writers g) ⊆ dom (g_nodes g);
  wf_edge_writers : ∀ k w, g_edge_fact_writers g !! k = Some w →
    k ∈ (edge_key <$> g_edges g);
}.

Definition claims_valid (g : Graph) : Prop :=
  validate_claim_bindings (g_nodes g) (g_claim_bindings g) = Ok ().

Lemma parent_of_edges_inv edges (p0 : gmap N N) x y :
  foldl (λ m e, if is_contains e then <[edge_to e := edge_from e]> m else m) p0 edges !! x = Some y →
  p0 !! x = Some y
  ∨ ∃ e, e ∈ edges ∧ is_contains e = true ∧ edge_to e = x ∧ edge_from e = y.
Proof.
  revert p0. induction edges as [|e edges IH]; intros p0 Hx; simpl in *; [by left|].
  apply IH in Hx as [Hx|(e' & He' & Hc & Ht & Hf)].
  - destruct (is_contains e) eqn:Hc; [|by left].
    rewrite lookup_insert in Hx. case_decide; simplify_eq; [right|by left].
    exists e. split_and!; [by left|done..].
  - right. exists e'. split_and!; [by right|done..].
Qed.

Lemma wf_parent_edge g x y :
  graph_wf g → g_parent g !! x = Some y →
  ∃ e, e ∈ g_edges g ∧ is_contains e = true ∧ edge_to e = x ∧ edge_from e = y.
Proof.
  intros Hwf. rewrite (wf_parent _ Hwf). unfold parent_of_edges.
  intros [Hx|He]%parent_of_edges_inv; [by rewrite lookup_empty in Hx|done].
Qed.

(** Every node on the path to the root is a node of the graph. *)
Lemma ancestors_nodes g x y :
  graph_wf g → y ∈ ancestors g x → is_Some (g_nodes g !! y).
Proof.
  intros Hwf. pose proof (wf_acyclic _ Hwf) as Hac. revert x.
  refine (forest_ind (g_parent g) _ Hac _ _).
  - intros x Hx. rewrite ancestors_eq by done. unfold graph_parent. rewrite Hx.
    by intros ?%elem_of_nil.
  - intros x w Hx IH. rewrite ancestors_eq by done. unfold graph_parent. rewrite Hx.
    intros [->|Hy]%elem_of_cons; [|auto].
    destruct (wf_parent_edge _ _ _ Hwf Hx) as (e & He & _ & _ & <-). by apply (wf_ends _ Hwf).
Qed.

(** ** The children index inverts the parent index *)

Lemma children_fold edges (m0 : gmap N (list N)) x y :
  y ∈ default [] (foldl (λ m e, if is_contains e
        then push_index m (edge_from e) (edge_to e) else m) m0 edges !! x)
  ↔ y ∈ default [] (m0 !! x)
    ∨ ∃ e, e ∈ edges ∧ is_contains e = true ∧ edge_to e = y ∧ edge_from e = x.
Proof.
  revert m0. induction edges as [|e edges IH]; intros m0; simpl.
  - split; [by left|intros [?|(e & He & _)]; [done|by apply elem_of_nil in He]].
  - rewrite IH. destruct (is_contains e) eqn:Hc.
    + unfold push_index. rewrite lookup_insert. case_decide as Hx; simpl.
      * subst x. rewrite elem_of_app, list_elem_of_singleton. split.
        -- intros [ [?| ->]|(e' & He' & ?)]; [by left|right; exists e; split_and!; [by left|done..]|].
           right. exists e'. split; [by right|done].
        -- intros [?|(e' & [->|He']%elem_of_cons & ? & <- & ?)]; [by left; left|by left; right|].
           right. eauto.
      * split; intros [?|(e' & He' & Hc' & Ht & Hf)]; try (by left); right; exists e'.
        -- split_and!; [by right|done..].
        -- apply elem_of_cons in He' as [->|He']; [congruence|done].
    + split; intros [?|(e' & He' & Hc' & Ht & Hf)]; try (by left); right; exists e'.
      * split_and!; [by right|done..].
      * apply elem_of_cons in He' as [->|He']; [congruence|done].
Qed.

Lemma graph_children_spec g x y :
  graph_wf g → y ∈ graph_children g x ↔ g_parent g !! y = Some x.
Proof.
  intros Hwf. unfold graph_children. rewrite (wf_children _ Hwf).
  unfold children_of_edges. rewrite lookup_fmap.
  assert (y ∈ default [] (sort_by N.leb <$> foldl (λ m e, if is_contains e
        then push_index m (edge_from e) (edge_to e) else m) ∅ (g_edges g) !! x)
    ↔ y ∈ default [] (foldl (λ m e, if is_contains e
        then push_index m (edge_from e) (edge_to e) else m) ∅ (g_edges g) !! x)) as ->.
  { destruct (_ !! x); simpl; [apply elem_of_sort_by|done]. }
  rewrite children_fold, lookup_empty. cbn [default from_option]. split.
  - intros [Hn|(e & He & Hc & <- & <-)]; [by apply elem_of_nil in Hn|].
    by apply (wf_forest _ Hwf).
  - intros Hy. right. by apply wf_parent_edge.
Qed.

Lemma children_fold_NoDup edges (m0 : gmap N (list N)) :
  NoDup (edge_key <$> edges) →
  (∀ x, NoDup (default [] (m0 !! x))) →
  (∀ x y, y ∈ default [] (m0 !! x) → (x, y, Contains) ∉ (edge_key <$> edges)) →
  ∀ x, NoDup (default [] (foldl (λ m e, if is_contains e
        then push_index m (edge_from e) (edge_to e) else m) m0 edges !! x)).
Proof.
  revert m0. induction edges as [|e edges IH]; intros m0 Hnd Hm0 Hdisj; [done|].
  rewrite fmap_cons in Hnd, Hdisj. apply NoDup_cons in Hnd as [He Hnd].
  assert (∀ x y, y ∈ default [] (m0 !! x) → (x, y, Contains) ∉ (edge_key <$> edges)) as Hd'.
  { intros x y Hy Hin. eapply Hdisj; [done|by right]. }
  cbn [foldl]. destruct (is_contains e) eqn:Hc; [|by apply IH].
  apply bool_decide_eq_true in Hc. unfold push_index.
  apply IH; [done| |]; intros x.
  - rewrite lookup_insert. case_decide; [|done]. subst x. simpl.
    apply NoDup_app. split_and!; [done| |apply NoDup_singleton].
    intros y Hy ->%list_elem_of_singleton. eapply Hdisj; [done|].
    apply elem_of_cons. left. unfold edge_key. by rewrite Hc.
  - intros y. rewrite lookup_insert. case_decide; [|by apply Hd']. subst x. simpl.
    intros [Hy| ->%list_elem_of_singleton]%elem_of_app; [by apply Hd'|].
    rewrite <-Hc. exact He.
Qed.

Lemma graph_children_NoDup g x : graph_wf g → NoDup (graph_children g x).
Proof.
  intros Hwf. unfold graph_children. rewrite (wf_children _ Hwf).
  unfold children_of_edges. rewrite lookup_fmap.
  pose proof (children_fold_NoDup (g_edges g) ∅ (wf_edges _ Hwf)) as Hnd.
  specialize (Hnd ltac:(intros; rewrite lookup_empty; constructor)).
  specialize (Hnd ltac:(intros ?? Hy; rewrite lookup_empty in Hy; by apply elem_of_nil in Hy) x).
  destruct (_ !! x); simpl in *; [by rewrite sort_by_perm|constructor].
Qed.

(** ** [descendants] *)

(** The state of the stack walk: [done] popped, [stack] waiting. *)
Record walk_inv (g : Graph) (root : N) (done stack : list N) : Prop := {
  wi_nodup : NoDup (done ++ stack);
  wi_key : ∀ y, y ∈ done ++ stack → ∃ q, g_parent g !! y = Some q ∧ (q = root ∨ q ∈ done);
  wi_anc : ∀ y, y ∈ done ++ stack → root ∈ ancestors g y;
  wi_closed : ∀ x y, x = root ∨ x ∈ done → g_parent g !! y = Some x → y ∈ done ++ stack;
}.

Lemma walk_inv_init g root : graph_wf g → walk_inv g root [] (reverse (graph_children g root)).
Proof.
  intros Hwf. split; simpl.
  - rewrite reverse_Permutation. by apply graph_children_NoDup.
  - intros y Hy. exists root. rewrite elem_of_reverse, graph_children_spec in Hy by done. auto.
  - intros y. rewrite elem_of_reverse, graph_children_spec by done. intros Hy.
    rewrite ancestors_eq by apply (wf_acyclic _ Hwf). unfold graph_parent. rewrite Hy. by left.
  - intros x y [->|Hn] Hy; [|by apply elem_of_nil in Hn].
    by rewrite elem_of_reverse, graph_children_spec.
Qed.

Lemma walk_inv_step g root out node stack :
  graph_wf g → walk_inv g root out (node :: stack) →
  walk_inv g root (out ++ [node]) (reverse (graph_children g node) ++ stack).
Proof.
  intros Hwf [Hnd Hkey Hanc Hcl]. pose proof (wf_acyclic _ Hwf) as Hac.
  assert (node ∈ out ++ node :: stack) as Hnode by (rewrite elem_of_app; right; by left).
  assert (∀ y, y ∈ out ++ node :: stack → g_parent g !! y ≠ Some node) as Hnew.
  { intros y Hy Hp. destruct (Hkey y Hy) as (q & Hq & Hor). simplify_eq.
    destruct Hor as [->|Hin].
    - by apply (ancestors_irrefl g root Hac), Hanc.
    - apply NoDup_app in Hnd as (_ & Hdisj & _). eapply Hdisj; [done|by left]. }
  assert (∀ y, y ∈ (out ++ [node]) ++ reverse (graph_children g node) ++ stack
             ↔ y ∈ out ++ node :: stack ∨ g_parent g !! y = Some node) as Helem.
  { intros y. rewrite !elem_of_app, elem_of_reverse, graph_children_spec,
      list_elem_of_singleton, elem_of_cons by done. tauto. }
  split.
  - assert ((out ++ [node]) ++ reverse (graph_children g node) ++ stack
            ≡ₚ (out ++ node :: stack) ++ graph_children g node) as ->.
    { rewrite reverse_Permutation. solve_Permutation. }
    apply NoDup_app. split_and!; [done| |by apply graph_children_NoDup].
    intros y Hy. rewrite graph_children_spec by done. by apply Hnew.
  - intros y [Hy|Hy]%Helem.
    + destruct (Hkey y Hy) as (q & Hq & Hor). exists q. split; [done|].
      destruct Hor as [->|Hin]; [by left|right; apply elem_of_app; by left].
    + exists node. split; [done|]. right. apply elem_of_app. right. by left.
  - intros y [Hy|Hy]%Helem; [by apply Hanc|].
    rewrite ancestors_eq by done. unfold graph_parent. rewrite Hy. right. by apply Hanc.
  - intros x y Hx Hy. apply Helem.
    destruct Hx as [->|[Hx| ->%list_elem_of_singleton]%elem_of_app]; eauto.
Qed.

Lemma walk_inv_bound g root out stack :
  walk_inv g root out stack → (length out + length stack ≤ size (g_parent g))%nat.
Proof.
  intros [Hnd Hkey _ _]. rewrite <-length_app.
  rewrite <-(size_list_to_set (C:=gset N) (out ++ stack)) by done. rewrite <-(size_dom (g_parent g)).
  apply subseteq_size. intros y Hy%elem_of_list_to_set.
  apply elem_of_dom. destruct (Hkey y Hy) as (q & Hq & _). eauto.
Qed.

Lemma descend_inv g root fuel out stack :
  graph_wf g → walk_inv g root out stack → (size (g_parent g) ≤ length out + fuel)%nat →
  walk_inv g root (out ++ descend (graph_children g) fuel stack) [].
Proof.
  intros Hwf. revert out stack. induction fuel as [|fuel IH]; intros out stack Hinv Hfuel.
  - pose proof (walk_inv_bound _ _ _ _ Hinv) as Hb.
    destruct stack; [|simpl in Hb; lia]. by rewrite app_nil_r.
  - destruct stack as [|node stack]; simpl; [by rewrite app_nil_r|].
    rewrite cons_middle, app_assoc. apply IH; [by apply walk_inv_step|].
    rewrite length_app. simpl. lia.
Qed.

Lemma parent_fold_size edges (m : gmap N N) :
  (size (foldl (λ m e, if is_contains e then <[edge_to e := edge_from e]> m else m) m edges)
   ≤ size m + length edges)%nat.
Proof.
  revert m. induction edges as [|e edges IH]; intros m; simpl; [lia|].
  etrans; [apply IH|]. destruct (is_contains e); [|lia].
  rewrite map_size_insert. destruct (m !! edge_to e); simpl; lia.
Qed.

(** The two hierarchy walks agree: on a well-formed graph [descendants]
    (an explicit stack over the children index) terminates and returns, without
    repetition, exactly the nodes whose [ancestors] walk meets [id]. *)
Theorem descendants_spec g id :
  graph_wf g →
  NoDup (descendants g id) ∧ ∀ x, x ∈ descendants g id ↔ id ∈ ancestors g x.
Proof.
  intros Hwf. pose proof (wf_acyclic _ Hwf) as Hac.
  assert (walk_inv g id (descendants g id) []) as [Hnd Hkey Hanc Hcl].
  { apply (descend_inv g id _ [] _ Hwf (walk_inv_init g id Hwf)).
    rewrite (wf_parent _ Hwf). pose proof (parent_fold_size (g_edges g) ∅) as Hsz.
    by rewrite map_size_empty in Hsz. }
  rewrite app_nil_r in *. split; [done|]. intros x. split; [apply Hanc|].
  revert x. refine (forest_ind (g_parent g) _ Hac _ _).
  - intros x Hx. rewrite ancestors_eq by done. unfold graph_parent. rewrite Hx.
    by intros ?%elem_of_nil.
  - intros x y Hx IH. rewrite (ancestors_eq g x) by done. unfold graph_parent. rewrite Hx.
    intros [->|Hy]%elem_of_cons; eauto.
Qed.

(** ** Updates preserve well-formedness *)

Lemma stage_nodes_spec nodes (m m' : gmap N Node) :
  try_fold stage_node m nodes = Ok m' →
  (∀ id n, m' !! id = Some n → m !! id = Some n ∨ (n ∈ nodes ∧ node_id n = id))
  ∧ dom m ⊆ dom m'
  ∧ (∀ id, id ∉ node_id <$> nodes → m' !! id = m !! id).
Proof.
  revert m. induction nodes as [|n nodes IH]; intros m Hrun; simpl in Hrun.
  - simplify_eq. split_and!; auto.
  - inv_bind Hrun. destruct (IH _ Hrun) as (Hin & Hdom & Hout). clear IH Hrun.
    unfold stage_node in Hv. destruct (node_attrs n !! "health"); simplify_eq.
    rewrite fmap_cons. split_and!.
    + intros id n' [Hn'|[Hn' Hid]]%Hin; [|right; split; [by right|done]].
      rewrite lookup_insert in Hn'. case_decide; simplify_eq; [right|by left].
      split; [by left|done].
    + etrans; [|exact Hdom]. rewrite dom_insert_L. set_solver.
    + intros id Hid. rewrite not_elem_of_cons in Hid. destruct Hid.
      by rewrite Hout, lookup_insert_ne by done.
Qed.

Lemma map_edge_keys (edge : Edge) l :
  edge_key <$> map (λ existing,
     if same_edge existing edge
     then mkEdge (edge_from existing) (edge_to existing) (edge_kind existing) (edge_attrs edge)
     else existing) l = edge_key <$> l.
Proof. induction l as [|e l IH]; simpl; [done|]. f_equal; [|done]. by destruct (same_edge _ _). Qed.

Lemma edge_ends_key (e e' : Edge) :
  edge_key e = edge_key e' → edge_from e = edge_from e' ∧ edge_to e = edge_to e'.
Proof. unfold edge_key. by intros [= -> -> _]. Qed.

Lemma stage_edges_spec (nodes : gmap N Node) edges l l' :
  try_fold (stage_edge nodes) l edges = Ok l' →
  NoDup (edge_key <$> l) →
  NoDup (edge_key <$> l')
  ∧ (∀ k, k ∈ (edge_key <$> l') ↔ k ∈ (edge_key <$> l) ∨ k ∈ (edge_key <$> edges))
  ∧ (∀ e, e ∈ edges → is_Some (nodes !! edge_from e) ∧ is_Some (nodes !! edge_to e)).
Proof.
  revert l. induction edges as [|e edges IH]; intros l Hrun Hnd; simpl in Hrun.
  - simplify_eq. split_and!; [done| |].
    + intros k. split; [by left|intros [?|?]; [done|by apply elem_of_nil in H]].
    + intros e He. by apply elem_of_nil in He.
  - apply bind_Ok_inv in Hrun as (l1 & Hl1 & Hrun). unfold stage_edge in Hl1.
    apply bind_Ok_inv in Hl1 as (nf & Hf%ok_or_Ok & Hl1).
    apply bind_Ok_inv in Hl1 as (nt & Ht%ok_or_Ok & Hl1).
    assert (NoDup (edge_key <$> l1) ∧
            ∀ k, k ∈ (edge_key <$> l1) ↔ k ∈ (edge_key <$> l) ∨ k = edge_key e) as [Hnd1 Hk1].
    { destruct (existsb (λ existing, same_edge existing e) l) eqn:Hex; simpl in Hl1; simplify_eq.
      - rewrite map_edge_keys. split; [done|]. intros k. split; [by left|].
        intros [?| ->]; [done|]. apply existsb_elem in Hex as (e' & He' & Hs).
        apply bool_decide_eq_true in Hs. rewrite <-Hs. by apply list_elem_of_fmap_2.
      - rewrite fmap_app. split.
        + apply NoDup_app. split_and!; [done| |apply NoDup_singleton].
          intros k (e' & -> & He')%list_elem_of_fmap Hk%list_elem_of_singleton.
          rewrite existsb_false in Hex. specialize (Hex e' He').
          apply bool_decide_eq_false in Hex. done.
        + intros k. rewrite elem_of_app. simpl. by rewrite list_elem_of_singleton. }
    destruct (IH _ Hrun Hnd1) as (Hnd' & Hk' & Hends). split_and!; [done| |].
    + intros k. rewrite Hk', Hk1, fmap_cons, elem_of_cons. tauto.
    + intros e' [->|He']%elem_of_cons; [split; eauto|auto].
Qed.

Definition same_meta (g g' : Graph) : Prop :=
  g_revision g' = g_revision g ∧ g_claim_bindings g' = g_claim_bindings g
  ∧ g_node_fact_writers g' = g_node_fact_writers g
  ∧ g_edge_fact_writers g' = g_edge_fact_writers g
  ∧ g_observations g' = g_observations g.

Lemma apply_fact_values_spec g nodes edges g' :
  graph_wf g → apply_fact_values g nodes edges = Ok g' →
  graph_wf g' ∧ claims_valid g' ∧ same_meta g g'
  ∧ (∀ id n, g_nodes g' !! id = Some n → g_nodes g !! id = Some n ∨ (n ∈ nodes ∧ node_id n = id))
  ∧ dom (g_nodes g) ⊆ dom (g_nodes g')
  ∧ (∀ id, id ∉ node_id <$> nodes → g_nodes g' !! id = g_nodes g !! id)
  ∧ (∀ n, n ∈ nodes → is_Some (g_nodes g' !! node_id n))
  ∧ (∀ k, k ∈ (edge_key <$> g_edges g')
        ↔ k ∈ (edge_key <$> g_edges g) ∨ k ∈ (edge_key <$> edges)).
Proof.
  intros Hwf Hrun. unfold apply_fact_values in Hrun.
  apply bind_Ok_inv in Hrun as (sn & Hsn & Hrun).
  apply bind_Ok_inv in Hrun as (se & Hse & Hrun).
  apply bind_Ok_inv in Hrun as ([] & Hvc & Hrun).
  apply bind_Ok_inv in Hrun as ([] & Hcb & Hrun). simplify_eq.
  destruct (stage_nodes_spec _ _ _ Hsn) as (Hin & Hdom & Hout).
  destruct (stage_edges_spec _ _ _ _ Hse (wf_edges _ Hwf)) as (Hnd & Hkeys & Hends).
  destruct (validate_contains_Ok _ Hvc) as [Hac Hforest].
  assert (∀ n, n ∈ nodes → is_Some (sn !! node_id n)) as Hstaged.
  { clear -Hsn. revert Hsn. generalize (g_nodes g) as m. induction nodes as [|n0 nodes IH];
      intros m Hsn n Hn; [by apply elem_of_nil in Hn|]. simpl in Hsn. inv_bind Hsn.
    apply elem_of_cons in Hn as [->|Hn]; [|by eapply IH].
    apply stage_nodes_spec in Hsn as (_ & Hd & _). apply elem_of_dom, Hd.
    unfold stage_node in Hv. destruct (node_attrs n0 !! "health"); simplify_eq.
    rewrite dom_insert_L. set_solver. }
  split_and!; simpl; try done.
  split; simpl; try done.
  - intros id n [Hn|[_ Hn]]%Hin; [by apply (wf_keys _ Hwf)|done].
  - intros e He. apply (list_elem_of_fmap_2 edge_key) in He. apply Hkeys in He as [He|He];
      apply list_elem_of_fmap in He as (e' & Hk & He'); apply edge_ends_key in Hk as [-> ->].
    + destruct (wf_ends _ Hwf e' He') as [Hf Ht].
      rewrite <-!elem_of_dom in *. split; by apply Hdom.
    + by apply Hends.
  - etrans; [apply (wf_node_writers _ Hwf)|done].
  - intros k w Hk. apply Hkeys. left. by apply (wf_edge_writers _ Hwf k w).
Qed.

(** Changes outside the facts keep the invariant. *)
Lemma wf_set_revision g r : graph_wf g → graph_wf (set_revision r g).
Proof. intros []; by split. Qed.
Lemma wf_set_claim_bindings g cb : graph_wf g → graph_wf (set_claim_bindings cb g).
Proof. intros []; by split. Qed.
Lemma wf_set_observations g o : graph_wf g → graph_wf (set_observations o g).
Proof. intros []; by split. Qed.

#[export] Hint Resolve wf_set_revision wf_set_claim_bindings wf_set_observations : archon.

Lemma set_claim_bindings_id g : set_claim_bindings (g_claim_bindings g) g = g.
Proof. by destruct g. Qed.

Lemma set_claim_binding_shape g u g' :
  set_claim_binding g u = Ok g' → ∃ cb, g' = set_claim_bindings cb g.
Proof.
  unfold set_claim_binding. destruct (graph_node g (upd_node u)); [|discriminate].
  destruct (upd_binding u); [intros [= <-]; eauto|].
  destruct (g_claim_bindings g !! upd_node u); intros [= <-]; [eauto|].
  exists (g_claim_bindings g). by rewrite set_claim_bindings_id.
Qed.

Lemma set_claim_binding_fold g us g' :
  try_fold set_claim_binding g us = Ok g' → ∃ cb, g' = set_claim_bindings cb g.
Proof.
  apply (try_fold_ind (λ b, ∃ cb, b = set_claim_bindings cb g));
    [exists (g_claim_bindings g); by rewrite set_claim_bindings_id|].
  intros b u b' _ [cb ->] Hu. apply set_claim_binding_shape in Hu as [cb' ->].
  by exists cb'.
Qed.

(** What every accepted fact update guarantees about the nodes it may touch. *)
Definition nodes_from (g g' : Graph) (nodes : list Node) : Prop :=
  (∀ id n, g_nodes g' !! id = Some n → g_nodes g !! id = Some n ∨ n ∈ nodes)
  ∧ dom (g_nodes g) ⊆ dom (g_nodes g').

Lemma graph_apply_spec g nodes edges g' :
  graph_wf g → graph_apply g nodes edges = Ok g' →
  graph_wf g' ∧ claims_valid g' ∧ nodes_from g g' nodes
  ∧ g_revision g' = sat_add (g_revision g) 1
  ∧ g_claim_bindings g' = g_claim_bindings g.
Proof.
  intros Hwf Hrun. unfold graph_apply in Hrun. destruct (_ && _); [discriminate|].
  apply bind_Ok_inv in Hrun as (g1 & Hg1 & Hrun). simplify_eq.
  destruct (apply_fact_values_spec _ _ _ _ Hwf Hg1)
    as (Hwf1 & Hcv & (Hr & Hcb & _) & Hin & Hdom & _).
  split_and!; simpl; auto with archon; [|by rewrite Hr].
  split; [|done]. intros id n [?|[? _]]%Hin; auto.
Qed.

Lemma graph_apply_resource_facts_spec g nodes edges updates g' :
  graph_wf g → graph_apply_resource_facts g nodes edges updates = Ok g' →
  graph_wf g' ∧ claims_valid g' ∧ nodes_from g g' nodes
  ∧ g_revision g' = sat_add (g_revision g) 1.
Proof.
  intros Hwf Hrun. unfold graph_apply_resource_facts in Hrun.
  apply bind_Ok_inv in Hrun as ([] & _ & Hrun).
  apply bind_Ok_inv in Hrun as (g1 & [cb1 ->]%set_claim_binding_fold & Hrun).
  apply bind_Ok_inv in Hrun as (g2 & Hg2 & Hrun).
  apply bind_Ok_inv in Hrun as (g3 & [cb3 ->]%set_claim_binding_fold & Hrun).
  apply bind_Ok_inv in Hrun as ([] & Hcv & Hrun). simplify_eq.
  apply graph_apply_spec in Hg2 as (Hwf2 & _ & Hn & Hr & _); [|auto with archon].
  split_and!; auto with archon.
Qed.

(** ** Provider facts: discovery ownership *)

Lemma check_batch_nodes_owned staged writer nodes (seen seen' : gset N) :
  try_fold (check_batch_node staged writer) seen nodes = Ok seen' →
  ∀ n, n ∈ nodes →
    g_node_fact_writers staged !! node_id n = Some writer
    ∨ (g_node_fact_writers staged !! node_id n = None ∧ g_nodes staged !! node_id n = None).
Proof.
  revert seen. induction nodes as [|n0 nodes IH]; intros seen Hrun n Hn;
    [by apply elem_of_nil in Hn|].
  simpl in Hrun. apply bind_Ok_inv in Hrun as (s1 & Hs1 & Hrun).
  apply elem_of_cons in Hn as [->|Hn]; [|by eapply IH].
  unfold check_batch_node in Hs1. destruct (decide _); [discriminate|].
  destruct (g_node_fact_writers staged !! node_id n0) as [o|].
  - destruct (o =? writer) eqn:Ho; [|discriminate]. apply N.eqb_eq in Ho as <-. by left.
  - destruct (g_nodes staged !! node_id n0); [discriminate|by right].
Qed.

Lemma writers_fold `{Countable K} (w : N) (ks : list K) (m : gmap K N) k :
  foldl (λ m key, <[key := w]> m) m ks !! k = if decide (k ∈ ks) then Some w else m !! k.
Proof.
  revert m. induction ks as [|k0 ks IH]; intros m; cbn [foldl].
  - rewrite decide_False; [done|apply not_elem_of_nil].
  - rewrite IH, lookup_insert. destruct (decide (k ∈ k0 :: ks)) as [Hin|Hin];
      rewrite elem_of_cons in Hin; repeat case_decide; naive_solver.
Qed.

(** The invariant of the batch loop, relative to the graph [g] it started from. *)
Record batch_inv (g : Graph) (batches : list ProviderFactBatch) (s : Graph) : Prop := {
  bi_wf : graph_wf s;
  bi_revision : g_revision s = g_revision g;
  bi_kept : ∀ id w, g_node_fact_writers g !! id = Some w → g_node_fact_writers s !! id = Some w;
  bi_new : ∀ id w, g_node_fact_writers s !! id = Some w →
    g_node_fact_writers g !! id = Some w ∨ g_nodes g !! id = None;
  bi_owned : ∀ id n, g_nodes g !! id = Some n →
    g_nodes s !! id = Some n
    ∨ ∃ b, b ∈ batches ∧ g_node_fact_writers g !! id = Some (batch_writer b)
           ∧ id ∈ node_id <$> batch_nodes b;
  bi_from : nodes_from g s (batches ≫= batch_nodes);
}.

Lemma apply_batch_inv g batches batch s sn se s' sn' se' :
  batch ∈ batches → batch_inv g batches s →
  apply_batch (s, sn, se) batch = Ok (s', sn', se') → batch_inv g batches s'.
Proof.
  intros Hb [Hwf Hrev Hkept Hnew Howned [Hfrom Hdom0]] Hrun. unfold apply_batch in Hrun.
  apply bind_Ok_inv in Hrun as (sn1 & Hsn & Hrun).
  apply bind_Ok_inv in Hrun as (se1 & Hse & Hrun).
  apply bind_Ok_inv in Hrun as (s1 & Hs1 & Hrun). simplify_eq.
  pose proof (check_batch_nodes_owned _ _ _ _ _ Hsn) as Hcheck.
  destruct (apply_fact_values_spec _ _ _ _ Hwf Hs1)
    as (Hwf1 & _ & (Hr & _ & Hnw & Hew & _) & Hin & Hdom & Hout & Hstaged & Hkeys).
  split; simpl.
  - destruct Hwf1. split; simpl; try done.
    + intros id Hid. apply elem_of_dom in Hid as [w Hw]. rewrite writers_fold in Hw.
      case_decide as Hids; [|apply wf_node_writers0, elem_of_dom; eauto].
      apply list_elem_of_fmap in Hids as (n & -> & Hn). apply elem_of_dom. by apply Hstaged.
    + intros k w Hw. rewrite writers_fold in Hw. case_decide as Hk; [|eauto].
      apply Hkeys. by right.
  - by rewrite Hr.
  - intros id w Hw. apply Hkept in Hw. rewrite writers_fold, Hnw.
    case_decide as Hids; [|done]. apply list_elem_of_fmap in Hids as (n & -> & Hn).
    destruct (Hcheck n Hn) as [?|[? _]]; congruence.
  - intros id w. rewrite writers_fold, Hnw. case_decide as Hids; [|apply Hnew].
    intros [= <-]. apply list_elem_of_fmap in Hids as (n & -> & Hn).
    destruct (Hcheck n Hn) as [Ho|[_ Hnone]]; [by apply Hnew|]. right.
    destruct (g_nodes g !! node_id n) eqn:Hg; [|done]. exfalso.
    assert (node_id n ∈ dom (g_nodes s)) as Hd by (apply Hdom0, elem_of_dom; eauto).
    apply elem_of_dom in Hd as [? Hd]. congruence.
  - intros id n Hn. destruct (Howned id n Hn) as [Hs|?]; [|by right].
    destruct (decide (id ∈ node_id <$> batch_nodes batch)) as [Hids|Hids];
      [|left; by rewrite Hout].
    right. exists batch. split_and!; [done| |done].
    apply list_elem_of_fmap in Hids as (n' & -> & Hn').
    destruct (Hcheck n' Hn') as [Ho|[_ ?]]; [|congruence].
    destruct (Hnew _ _ Ho); congruence.
  - split; [|by etrans]. intros id n [Hn|[Hn _]]%Hin; [by apply Hfrom|].
    right. apply list_elem_of_bind. eauto.
Qed.

Lemma graph_apply_provider_facts_inv g batches updates g' :
  graph_wf g → graph_apply_provider_facts g batches updates = Ok g' →
  claims_valid g' ∧ ∃ s cb, batch_inv (set_claim_bindings cb g) batches s
    ∧ ∃ cb', g' = set_revision (sat_add (g_revision g) 1) (set_claim_bindings cb' s).
Proof.
  intros Hwf Hrun. unfold graph_apply_provider_facts in Hrun.
  apply bind_Ok_inv in Hrun as ([] & _ & Hrun).
  apply bind_Ok_inv in Hrun as (g1 & [cb1 ->]%set_claim_binding_fold & Hrun).
  apply bind_Ok_inv in Hrun as ([[g2 sn] se] & Hg2 & Hrun).
  apply bind_Ok_inv in Hrun as (g3 & [cb3 ->]%set_claim_binding_fold & Hrun).
  apply bind_Ok_inv in Hrun as ([] & Hcv & Hrun). simplify_eq.
  split; [done|]. exists g2, cb1. split; [|eauto].
  apply (try_fold_ind (λ acc, batch_inv (set_claim_bindings cb1 g) batches acc.1.1)) in Hg2;
    simpl in *; [done| |].
  - split; simpl; auto with archon. split; auto.
  - intros [[b bn] be] batch [[b' bn'] be'] Hin Hb Hstep.
    by eapply apply_batch_inv.
Qed.

Lemma graph_apply_provider_facts_spec g batches updates g' :
  graph_wf g → graph_apply_provider_facts g batches updates = Ok g' →
  graph_wf g' ∧ claims_valid g' ∧ nodes_from g g' (batches ≫= batch_nodes)
  ∧ g_revision g' = sat_add (g_revision g) 1.
Proof.
  intros Hwf Hrun.
  destruct (graph_apply_provider_facts_inv _ _ _ _ Hwf Hrun) as (Hcv & s & cb & Hinv & cb' & ->).
  destruct Hinv. split_and!; auto with archon.
Qed.

(** Discovery ownership: an accepted provider update changes an existing
    node only through a batch of the writer that owns it (an unowned legacy
    node is never changed), and never transfers or drops recorded ownership. *)
Theorem provider_facts_respect_ownership g batches updates g' id n :
  graph_wf g → graph_apply_provider_facts g batches updates = Ok g' →
  g_nodes g !! id = Some n →
  (g_nodes g' !! id = Some n
   ∨ ∃ b, b ∈ batches ∧ node_fact_writer g id = Some (batch_writer b)
          ∧ id ∈ node_id <$> batch_nodes b)
  ∧ ∀ w, node_fact_writer g id = Some w → node_fact_writer g' id = Some w.
Proof.
  intros Hwf Hrun Hn.
  destruct (graph_apply_provider_facts_inv _ _ _ _ Hwf Hrun) as (_ & s & cb & Hinv & cb' & ->).
  destruct Hinv as [_ _ Hkept _ Howned _]. split; [by apply Howned|]. apply Hkept.
Qed.

(** ** Adoption of fact writers *)

Lemma graph_adopt_fact_writers_shape g assignments g' :
  graph_adopt_fact_writers g assignments = Ok g' →
  ∃ nw ew, g' = set_fact_writers nw ew g.
Proof.
  unfold graph_adopt_fact_writers. intros Hrun.
  apply bind_Ok_inv in Hrun as ([nodes edges] & _ & Hrun). simplify_eq. eauto.
Qed.

Lemma adopt_nodes_spec (g : Graph) (writer : N) (l : list N) (acc acc' : gmap N N * gset N) :
  try_fold (adopt_node g writer) acc l = Ok acc' →
  (∀ id w, acc.1 !! id = Some w → acc'.1 !! id = Some w)
  ∧ (∀ id w, acc'.1 !! id = Some w → acc.1 !! id = Some w ∨ is_Some (g_nodes g !! id)).
Proof.
  intros Hrun.
  apply (try_fold_ind (λ a, (∀ id w, acc.1 !! id = Some w → a.1 !! id = Some w)
    ∧ (∀ id w, a.1 !! id = Some w → acc.1 !! id = Some w ∨ is_Some (g_nodes g !! id))))
    in Hrun; [done|auto|].
  intros [m seen] x a' _ [Hk Hn] Hstep. unfold adopt_node in Hstep.
  destruct (decide (x ∈ seen)); [discriminate|].
  apply bind_Ok_inv in Hstep as (nd & Hnd%ok_or_Ok & Hstep).
  assert (a' = (<[x := writer]> m, {[x]} ∪ seen)
          ∧ ∀ w, m !! x = Some w → w = writer) as [-> Hsame].
  { destruct (m !! x) as [o|]; [|by simplify_eq].
    destruct (o =? writer) eqn:Ho; [|discriminate]. apply N.eqb_eq in Ho.
    simpl in Hstep. simplify_eq. split; [done|congruence]. }
  simpl in *. split; intros id w; rewrite lookup_insert; case_decide; subst; auto.
  intros Hw%Hk. f_equal. symmetry. by apply Hsame.
Qed.

Lemma adopt_edges_spec (g : Graph) (writer : N) (l : list FactEdge) (acc acc' : gmap FactEdge N * gset FactEdge) :
  try_fold (adopt_edge g writer) acc l = Ok acc' →
  (∀ k w, acc.1 !! k = Some w → acc'.1 !! k = Some w)
  ∧ (∀ k w, acc'.1 !! k = Some w → acc.1 !! k = Some w ∨ k ∈ (edge_key <$> g_edges g)).
Proof.
  intros Hrun.
  apply (try_fold_ind (λ a, (∀ k w, acc.1 !! k = Some w → a.1 !! k = Some w)
    ∧ (∀ k w, a.1 !! k = Some w → acc.1 !! k = Some w ∨ k ∈ (edge_key <$> g_edges g))))
    in Hrun; [done|auto|].
  intros [m seen] x a' _ [Hk Hn] Hstep. unfold adopt_edge in Hstep.
  destruct (decide (x ∈ seen)); [discriminate|].
  destruct (existsb _ _) eqn:Hex; simpl in Hstep; [|discriminate].
  apply existsb_elem in Hex as (e & He & Hke%bool_decide_eq_true).
  assert (a' = (<[x := writer]> m, {[x]} ∪ seen)
          ∧ ∀ w, m !! x = Some w → w = writer) as [-> Hsame].
  { destruct (m !! x) as [o|]; [|by simplify_eq].
    destruct (o =? writer) eqn:Ho; [|discriminate]. apply N.eqb_eq in Ho.
    simpl in Hstep. simplify_eq. split; [done|congruence]. }
  simpl in *. split; intros k w; rewrite lookup_insert; case_decide; subst; auto.
  - intros Hw%Hk. f_equal. symmetry. by apply Hsame.
  - intros _. right. by apply list_elem_of_fmap_2.
Qed.

Lemma graph_adopt_fact_writers_spec g assignments g' :
  graph_wf g → graph_adopt_fact_writers g assignments = Ok g' →
  graph_wf g'
  ∧ (∀ id w, node_fact_writer g id = Some w → node_fact_writer g' id = Some w)
  ∧ (∀ k w, edge_fact_writer g k = Some w → edge_fact_writer g' k = Some w).
Proof.
  intros Hwf Hrun. unfold graph_adopt_fact_writers in Hrun.
  apply bind_Ok_inv in Hrun as ([[nodes sn] [edges se]] & Hfold & Hrun). simplify_eq. simpl.
  apply (try_fold_ind (λ a,
    (∀ id w, g_node_fact_writers g !! id = Some w → a.1.1 !! id = Some w)
    ∧ (∀ id w, a.1.1 !! id = Some w → g_node_fact_writers g !! id = Some w
                                     ∨ is_Some (g_nodes g !! id))
    ∧ (∀ k w, g_edge_fact_writers g !! k = Some w → a.2.1 !! k = Some w)
    ∧ (∀ k w, a.2.1 !! k = Some w → g_edge_fact_writers g !! k = Some w
                                    ∨ k ∈ (edge_key <$> g_edges g)))) in Hfold.
  - simpl in Hfold. destruct Hfold as (Hn1 & Hn2 & He1 & He2). split_and!; [|done..].
    destruct Hwf. split; simpl; try done.
    + intros id Hid. apply elem_of_dom in Hid as [w [Hw|Hw]%Hn2]; [|by apply elem_of_dom].
      apply wf_node_writers0, elem_of_dom. eauto.
    + intros k w [Hw|Hw]%He2; eauto.
  - simpl. auto.
  - intros [a1 a2] asg [b1 b2] _ (H1 & H2 & H3 & H4) Hstep. simpl in Hstep.
    apply bind_Ok_inv in Hstep as (n1 & [Hna Hnb]%adopt_nodes_spec & Hstep).
    apply bind_Ok_inv in Hstep as (e1 & [Hea Heb]%adopt_edges_spec & Hstep). simplify_eq. simpl.
    split_and!; eauto.
    + intros id w [Hw|Hw]%Hnb; eauto.
    + intros k w [Hw|Hw]%Heb; eauto.
Qed.

(** ** The empty graph, observations, legacy migration *)

Lemma graph_new_wf : graph_wf graph_new.
Proof.
  split; try done; simpl.
  - intros e He. by apply elem_of_nil in He.
  - constructor.
  - intros x. exists 0%nat. constructor. apply lookup_empty.
  - intros e He. by apply elem_of_nil in He.
Qed.

Lemma set_observation_shape g id key value g' :
  set_observation g id key value = Some g' → ∃ o, g' = set_observations o g.
Proof. unfold set_observation. destruct (g_nodes g !! id); [intros [= <-]; eauto|done]. Qed.

#[export] Hint Resolve graph_new_wf : archon.

(** ** The class index *)

Lemma class_fold (ns : list Node) (m : gmap string (list N)) k id :
  id ∈ default [] (foldl (λ m node, push_index m (node_kind node) (node_id node)) m ns !! k)
  ↔ id ∈ default [] (m !! k) ∨ ∃ n, n ∈ ns ∧ node_kind n = k ∧ node_id n = id.
Proof.
  revert m. induction ns as [|n ns IH]; intros m; cbn [foldl].
  - split; [by left|]. intros [?|(n & Hn & _)]; [done|by apply elem_of_nil in Hn].
  - rewrite IH. unfold push_index. rewrite lookup_insert. setoid_rewrite elem_of_cons.
    case_decide; simpl; rewrite ?elem_of_app, ?list_elem_of_singleton; naive_solver.
Qed.

Lemma nodes_of_class_spec g k id :
  graph_wf g →
  id ∈ nodes_of_class g k ↔ ∃ n, g_nodes g !! id = Some n ∧ node_kind n = k.
Proof.
  intros Hwf. unfold nodes_of_class. rewrite (wf_class _ Hwf). unfold class_index.
  rewrite lookup_fmap.
  set (m := foldl _ ∅ (bt_values (g_nodes g))).
  assert (id ∈ default [] (sort_by N.leb <$> m !! k) ↔ id ∈ default [] (m !! k)) as ->.
  { destruct (m !! k); simpl; [by rewrite elem_of_sort_by|done]. }
  unfold m. rewrite class_fold, lookup_empty. setoid_rewrite elem_of_bt_values. split.
  - intros [Hn|(n & [j Hj] & Hk & <-)]; [by apply elem_of_nil in Hn|].
    rewrite (wf_keys _ Hwf _ _ Hj). eauto.
  - intros (n & Hn & Hk). right. exists n. split_and!; [eauto|done|].
    by apply (wf_keys _ Hwf).
Qed.

(** ** Migrating legacy health attributes *)

Lemma class_index_strip nodes : class_index (strip_health <$> nodes) = class_index nodes.
Proof.
  unfold class_index. f_equal. rewrite bt_values_fmap. generalize (∅ : gmap string (list N)).
  induction (bt_values nodes) as [|n l IH]; intros m; [done|]. rewrite fmap_cons. simpl. apply IH.
Qed.

Lemma try_for_ext {E A} (f g : A → result E unit) (l : list A) :
  (∀ x, x ∈ l → f x = g x) → try_for f l = try_for g l.
Proof.
  induction l as [|x l IH]; intros Heq; simpl; [done|]. rewrite (Heq x) by (by left).
  by rewrite IH by (intros; apply Heq; by right).
Qed.

Lemma migrate_wf g : graph_wf g → graph_wf (migrate_legacy_observations g).
Proof.
  intros [Hk He Hed Hp Hc Hcl Hac Hf Hnw Hew]. split; try done.
  - cbn. intros id n. rewrite lookup_fmap_Some. intros (n0 & <- & Hn). exact (Hk _ _ Hn).
  - cbn. intros e [H1 H2]%He. by rewrite !lookup_fmap, !fmap_is_Some.
  - cbn. by rewrite class_index_strip.
  - cbn. by rewrite dom_fmap_L.
Qed.

Lemma migrate_claims_valid g : claims_valid g → claims_valid (migrate_legacy_observations g).
Proof.
  unfold claims_valid, validate_claim_bindings. intros Hv. etrans; [|exact Hv].
  apply try_for_ext. intros [id dims] _. cbn [g_nodes migrate_legacy_observations set_observations set_facts].
  rewrite lookup_fmap. destruct (g_nodes g !! id); reflexivity.
Qed.

(** ** Claim contracts *)

Lemma claim_binding_fold g node l (sel : option ClaimBinding) r :
  try_fold (claim_binding_step g node) sel l = Ok r →
  (sel = None ∨ r = sel)
  ∧ (∀ d a, (d, a) ∈ l → a ≠ 0 → claim_binding g node d = r)
  ∧ (r = sel ∨ ∃ d a, (d, a) ∈ l ∧ a ≠ 0).
Proof.
  revert sel. induction l as [|[d a] l IH]; intros sel Hrun; simpl in Hrun.
  - simplify_eq. split_and!; [by right| |by left]. intros d a Hd. by apply elem_of_nil in Hd.
  - apply bind_Ok_inv in Hrun as (s1 & Hs1 & Hrun). destruct (IH _ Hrun) as (Hsel & Hall & Hex).
    unfold claim_binding_step in Hs1. destruct (N.eqb_spec a 0) as [->|Ha].
    { simplify_eq. split_and!; [done| |].
      - intros d' a' [[= -> ->]|Hin]%elem_of_cons Ha'; [done|eauto].
      - destruct Hex as [?|(d' & a' & ? & ?)]; [by left|]. right. exists d', a'. by split; [right|]. }
    apply bind_Ok_inv in Hs1 as (b & Hb%ok_or_Ok & Hs1).
    assert (s1 = Some b ∧ (sel = None ∨ sel = Some b)) as [-> Hor].
    { destruct sel as [b0|]; [|by simplify_eq; auto].
      case_bool_decide; simplify_eq. auto. }
    destruct Hsel as [|Hr]; [discriminate|]. subst r. split_and!.
    + destruct Hor as [->| ->]; auto.
    + intros d' a' [[= -> ->]|Hin]%elem_of_cons Ha'; [done|eauto].
    + right. exists d, a. by split; [left|].
Qed.

(** The contract of a claim: one provider binding covers every positive
    dimension, and there is at least one. *)
Lemma claim_binding_for_quantity_Ok g node q b :
  claim_binding_for_quantity g node q = Ok b →
  is_Some (g_nodes g !! node)
  ∧ (∀ d, 0 < quantity_get q d → claim_binding g node d = Some b)
  ∧ ∃ d, 0 < quantity_get q d.
Proof.
  unfold claim_binding_for_quantity, graph_node. destruct (g_nodes g !! node); [|discriminate].
  intros Hrun. apply bind_Ok_inv in Hrun as (r & Hr & ->%ok_or_Ok).
  destruct (claim_binding_fold _ _ _ _ _ Hr) as (_ & Hall & Hex). split_and!; [eauto| |].
  - intros d Hd. unfold quantity_get in Hd. destruct (q !! d) as [a|] eqn:Ha; [|simpl in Hd; lia].
    apply (Hall d a); [by apply elem_of_bt_iter|simpl in Hd; lia].
  - destruct Hex as [?|(d & a & Hin & Ha)]; [discriminate|]. exists d.
    apply elem_of_bt_iter in Hin. rewrite (quantity_get_lookup _ _ _ Hin). lia.
Qed.
