(* ===== verification/Inventory.v ===== *)
(** From a machine description to graph facts: the pure part of
    src/crates/node/src/discover.rs.

    Validation of an agent's inventory, the graph fragment built from it, its
    split into the batches of the two discovery writers, the claim contracts,
    and the check of a returning agent against the committed graph.  Error
    texts that quote identifiers are represented by their ingredients. *)

From S2P Require Import Prelude Identifier Text Types Workload Graph.

(** ** Validation *)

Inductive InventoryError :=
| HostIdEmpty
| HostReservedAttr (id : string)
| HostDuplicate (id : string)
| StructuralCapacity (id : string)
| CpuCapacity (id : string)
| MemoryDimension (id : string)
| MemoryOverflow
| HostClassInvalid (class : ResourceClass)
| HostUnknownParent (id parent : string)
| HostLeafParent (id parent : string)
| HostCycle (id : string)
| CpuCountMismatch (reported summary : u64)
| MemoryMismatch (reported : u64) (nodes : nat) (summary : u64)
| DeviceEmpty
| DeviceClassInvalid (class : ResourceClass)
| DeviceDuplicate (id : string)
| DeviceReservedAttr (id : string)
| DeviceUnknownParent (id parent : string)
| DeviceLeafParent (id parent : string).

#[export] Instance InventoryError_eq_dec : EqDecision InventoryError.
Proof. solve_decision. Defined.

Definition is_device_class (c : ResourceClass) : bool :=
  bool_decide (c ∈ [Class.Gpu; Class.Nic; Class.Nvme]).
Definition is_structural_class (c : ResourceClass) : bool :=
  bool_decide (c ∈ [Class.Socket; Class.Numa; Class.PcieRoot]).
Definition is_leaf_class (c : ResourceClass) : bool :=
  bool_decide (c ∈ [Class.Cpu; Class.Memory]).

Definition uses_reserved (attrs : Attrs) : bool :=
  bool_decide (is_Some (attrs !! HOST_ID_ATTR))
  || bool_decide (is_Some (attrs !! DEVICE_HOST_PARENT_ATTR)).

(** What the first loop accumulates. *)
Record HostSummary := mkSummary {
  hs_by_id : gmap string HostNodeSpec;
  hs_cpu_count : u64;
  hs_memory_total : u64;
  hs_memory_nodes : nat;
}.

Definition checked_add (a b : u64) : option u64 :=
  if a + b <? u64_modulus then Some (a + b) else None.

(** The [match spec.kind] of the first loop. *)
Definition validate_host_kind (st : HostSummary) (spec : HostNodeSpec) :
    result InventoryError HostSummary :=
  if is_structural_class (host_kind spec) then
    if bool_decide (host_capacity spec = ∅) then Ok st else Err (StructuralCapacity (host_id spec))
  else if bool_decide (host_kind spec = Class.Cpu) then
    if bool_decide (host_capacity spec = qty Dim.Count 1)
    then Ok (mkSummary (hs_by_id st) (hs_cpu_count st + 1) (hs_memory_total st) (hs_memory_nodes st))
    else Err (CpuCapacity (host_id spec))
  else if bool_decide (host_kind spec = Class.Memory) then
    if existsb (λ d, negb (bool_decide (d = Dim.Bytes))) (bt_keys (host_capacity spec))
    then Err (MemoryDimension (host_id spec))
    else
      total ← ok_or (checked_add (hs_memory_total st) (quantity_get (host_capacity spec) Dim.Bytes))
                MemoryOverflow;
      Ok (mkSummary (hs_by_id st) (hs_cpu_count st) total (S (hs_memory_nodes st)))
  else Err (HostClassInvalid (host_kind spec)).

Definition validate_host (st : HostSummary) (spec : HostNodeSpec) :
    result InventoryError HostSummary :=
  if blank (host_id spec) then Err HostIdEmpty
  else if uses_reserved (host_attrs spec) then Err (HostReservedAttr (host_id spec))
  else match hs_by_id st !! host_id spec with
  | Some _ => Err (HostDuplicate (host_id spec))
  | None =>
      validate_host_kind
        (mkSummary (<[host_id spec := spec]> (hs_by_id st)) (hs_cpu_count st)
           (hs_memory_total st) (hs_memory_nodes st)) spec
  end.

(** The walk up the parents of one host node; [true] when an id repeats. *)
Fixpoint host_walk_repeats (by_id : gmap string HostNodeSpec) (fuel : nat)
    (seen : gset string) (current : option string) : option string :=
  match fuel, current with
  | S fuel, Some id =>
      if decide (id ∈ seen) then Some id
      else host_walk_repeats by_id fuel ({[id]} ∪ seen) (by_id !! id ≫= host_parent_id)
  | _, _ => None
  end.

(** The body of the second loop. *)
Definition validate_host_parent (by_id : gmap string HostNodeSpec) (spec : HostNodeSpec) :
    result InventoryError unit :=
  _ ← match host_parent_id spec with
      | None => Ok ()
      | Some parent =>
          match by_id !! parent with
          | None => Err (HostUnknownParent (host_id spec) parent)
          | Some p =>
              if is_leaf_class (host_kind p) then Err (HostLeafParent (host_id spec) parent)
              else Ok ()
          end
      end;
  match host_walk_repeats by_id (S (S (size by_id))) ∅ (Some (host_id spec)) with
  | Some id => Err (HostCycle id)
  | None => Ok ()
  end.

(** The body of the device loop; the accumulator is [device_ids]. *)
Definition validate_device (by_id : gmap string HostNodeSpec) (seen : gset string) (d : DeviceSpec) :
    result InventoryError (gset string) :=
  if blank (dev_id d) || blank (dev_path d) then Err DeviceEmpty
  else if negb (is_device_class (dev_kind d)) then Err (DeviceClassInvalid (dev_kind d))
  else if decide (dev_id d ∈ seen) then Err (DeviceDuplicate (dev_id d))
  else if uses_reserved (dev_attrs d) then Err (DeviceReservedAttr (dev_id d))
  else
    _ ← match dev_host_parent d with
        | None => Ok ()
        | Some parent =>
            match by_id !! parent with
            | None => Err (DeviceUnknownParent (dev_id d) parent)
            | Some p =>
                if is_leaf_class (host_kind p) then Err (DeviceLeafParent (dev_id d) parent)
                else Ok ()
            end
        end;
    Ok ({[dev_id d]} ∪ seen).

Definition validate_machine_description (d : MachineDescription) : result InventoryError unit :=
  st ← try_fold validate_host (mkSummary ∅ 0 0 0) (md_host_nodes d);
  _ ← try_for (validate_host_parent (hs_by_id st)) (md_host_nodes d);
  _ ← (if bool_decide (md_host_nodes d = []) then Ok ()
       else if negb (hs_cpu_count st =? md_cpus d)
       then Err (CpuCountMismatch (hs_cpu_count st) (md_cpus d))
       else if (hs_memory_nodes st =? 0)%nat || negb (hs_memory_total st =? md_memory_bytes d)
       then Err (MemoryMismatch (hs_memory_total st) (hs_memory_nodes st) (md_memory_bytes d))
       else Ok ());
  _ ← try_fold (validate_device (hs_by_id st)) ∅ (md_devices d);
  Ok ().

(** ** The graph fragment *)

(** [IdGen::node]: identifiers follow [next]; the addition is unchecked. *)
Definition next_id (next : u64) : u64 := wrap_add next 1.

Definition contains_edge (from to : NodeId) : Edge := mkEdge from to Contains ∅.

Definition machine_node (d : MachineDescription) (id : NodeId) : Node :=
  mkNode id Class.Machine
    (<["agent_id" := md_instance_id d]> (<["name" := md_name d]> ∅)) ∅.

Record LocalMachine := mkLocal {
  lm_machine : NodeId;
  lm_cpus : list NodeId;
  lm_memory : list NodeId;
}.

(** [(0..n).map(|_| ids.node()).collect()] *)
Fixpoint gen_ids (n : nat) (next : u64) : list NodeId * u64 :=
  match n with
  | O => ([], next)
  | S n =>
      let id := next_id next in
      let '(ids, next) := gen_ids n id in (id :: ids, next)
  end.

(** The flat shape: exclusive CPUs and one memory node under the machine. *)
Definition flat_fragment (d : MachineDescription) (machine : NodeId) (next : u64) :
    u64 * list Node * list Edge * list NodeId * list NodeId :=
  let '(cpus, next) := gen_ids (N.to_nat (md_cpus d)) next in
  let memory := next_id next in
  (memory,
   mkNode memory Class.Memory ∅ (qty Dim.Bytes (md_memory_bytes d))
     :: ((λ cpu, mkNode cpu Class.Cpu ∅ (qty Dim.Count 1)) <$> cpus),
   contains_edge machine memory :: ((λ cpu, contains_edge machine cpu) <$> cpus),
   cpus, [memory]).

(** [specs.sort_by(|left, right| left.id.cmp(&right.id))] *)
Definition host_leb (a b : HostNodeSpec) : bool := bleb (host_id a) (host_id b).

(** One turn of the first normalized loop: fresh id, index entry, node. *)
Definition host_node_step (acc : u64 * gmap string NodeId * list Node) (spec : HostNodeSpec) :
    u64 * gmap string NodeId * list Node :=
  let '(next, host_ids, nodes) := acc in
  let id := next_id next in
  (id, <[host_id spec := id]> host_ids,
   nodes ++ [mkNode id (host_kind spec) (<[HOST_ID_ATTR := host_id spec]> (host_attrs spec))
               (host_capacity spec)]).

(** [host_ids[parent]], or the machine when there is no parent; [None] is the
    panic of a missing key. *)
Definition parent_node (host_ids : gmap string NodeId) (machine : NodeId) (parent : option string) :
    option NodeId :=
  match parent with None => Some machine | Some p => host_ids !! p end.

Definition host_edge (host_ids : gmap string NodeId) (machine : NodeId) (spec : HostNodeSpec) :
    option Edge :=
  child ← host_ids !! host_id spec;
  parent ← parent_node host_ids machine (host_parent_id spec);
  Some (contains_edge parent child).

Definition ids_of_class (host_ids : gmap string NodeId) (kind : ResourceClass)
    (specs : list HostNodeSpec) : option (list NodeId) :=
  mapM (λ spec, host_ids !! host_id spec)
    (List.filter (λ spec, bool_decide (host_kind spec = kind)) specs).

Section build.
(** [serde_json::to_string] of a list of paths. *)
Context (paths_to_json : list string → string).

Definition device_node_attrs (d : DeviceSpec) : Attrs :=
  let attrs := <["dev" := dev_path d]> (<["id" := dev_id d]> (dev_attrs d)) in
  let attrs := if bool_decide (dev_access d = []) then attrs
               else <["access" := paths_to_json (dev_access d)]> attrs in
  match dev_host_parent d with
  | Some parent => <[DEVICE_HOST_PARENT_ATTR := parent]> attrs
  | None => attrs
  end.

(** One turn of the device loop. *)
Definition device_step (host_ids : gmap string NodeId) (machine : NodeId)
    (acc : u64 * list Node * list Edge) (d : DeviceSpec) : option (u64 * list Node * list Edge) :=
  let '(next, nodes, edges) := acc in
  let id := next_id next in
  parent ← parent_node host_ids machine (dev_host_parent d);
  Some (id, nodes ++ [mkNode id (dev_kind d) (device_node_attrs d) (qty Dim.Count 1)],
        edges ++ [contains_edge parent id]).

(** A loop whose body may panic. *)
Fixpoint opt_fold {A B} (f : B → A → option B) (acc : B) (l : list A) : option B :=
  match l with
  | [] => Some acc
  | x :: l => acc ← f acc x; opt_fold f acc l
  end.

(** The normalized shape. *)
Definition host_fragment (d : MachineDescription) (machine : NodeId) (next : u64) :
    option (u64 * gmap string NodeId * list Node * list Edge * list NodeId * list NodeId) :=
  let specs := sort_by host_leb (md_host_nodes d) in
  let '(next, host_ids, nodes) := foldl host_node_step (next, ∅, []) specs in
  edges ← mapM (host_edge host_ids machine) specs;
  cpus ← ids_of_class host_ids Class.Cpu specs;
  memory ← ids_of_class host_ids Class.Memory specs;
  Some (next, host_ids, nodes, edges, cpus, memory).

(** [build_graph]; [None] is a panic on a missing host id. *)
Definition build_graph (d : MachineDescription) (first_id : u64) :
    option (LocalMachine * list Node * list Edge) :=
  let machine := next_id first_id in
  '(next, host_ids, nodes, edges, cpus, memory) ←
    (if bool_decide (md_host_nodes d = [])
     then let '(next, nodes, edges, cpus, memory) := flat_fragment d machine machine in
          Some (next, ∅, nodes, edges, cpus, memory)
     else host_fragment d machine machine);
  '(next, nodes, edges) ←
    opt_fold (device_step host_ids machine)
      (next, machine_node d machine :: nodes, edges) (md_devices d);
  Some (mkLocal machine cpus memory, nodes, edges).
End build.

(** ** Batches, contracts, assignments *)

Definition writer_of_node (node : Node) : FactWriterId :=
  if is_device_class (node_kind node) then DEVICE_FACT_WRITER else HOST_FACT_WRITER.

Definition writers_by_node (nodes : list Node) : gmap N N :=
  foldl (λ m node, <[node_id node := writer_of_node node]> m) ∅ nodes.

Definition batch_nonempty (b : ProviderFactBatch) : bool :=
  negb (bool_decide (length (batch_nodes b) = 0%nat))
  || negb (bool_decide (length (batch_edges b) = 0%nat)).

(** [provider_fact_batches] *)
Definition provider_fact_batches (nodes : list Node) (edges : list Edge) : list ProviderFactBatch :=
  let by_node := writers_by_node nodes in
  let node_is w node := bool_decide (by_node !! node_id node = Some w) in
  let edge_is_device edge :=
    bool_decide (default HOST_FACT_WRITER (by_node !! edge_to edge) = DEVICE_FACT_WRITER) in
  let host := mkBatch HOST_FACT_WRITER
    (List.filter (λ n, negb (node_is DEVICE_FACT_WRITER n)) nodes)
    (List.filter (λ e, negb (edge_is_device e)) edges) in
  let device := mkBatch DEVICE_FACT_WRITER
    (List.filter (node_is DEVICE_FACT_WRITER) nodes) (List.filter edge_is_device edges) in
  List.filter batch_nonempty [host; device].

Definition claim_dimension (kind : ResourceClass) : option (CapacityDimension * BindingScope) :=
  if bool_decide (kind = Class.Cpu) then Some (Dim.Count, Exclusive)
  else if bool_decide (kind = Class.Memory) then Some (Dim.Bytes, IndependentShare)
  else if is_device_class kind then Some (Dim.Count, Exclusive)
  else None.

Definition claim_binding_of (node : Node) : option ClaimBindingUpdate :=
  '(dimension, scope) ← claim_dimension (node_kind node);
  if 0 <? default 0 (node_capacity node !! dimension)
  then Some (mkUpdate (node_id node) dimension (Some (mkClaimBinding ENFORCE scope)))
  else None.

(** [claim_bindings] *)
Definition claim_bindings (nodes : list Node) : list ClaimBindingUpdate := omap claim_binding_of nodes.

Definition assignment_nonempty (a : FactWriterAssignment) : bool :=
  negb (bool_decide (length (assign_nodes a) = 0%nat))
  || negb (bool_decide (length (assign_edges a) = 0%nat)).

(** The writer expected for a committed node; [None] when it is skipped. *)
Definition expected_writer (g : Graph) (current_devices : gset string) (id : NodeId) :
    option FactWriterId :=
  node ← graph_node g id;
  if is_device_class (node_kind node) then
    match node_attrs node !! "id" with
    | Some stable => if decide (stable ∈ current_devices) then Some DEVICE_FACT_WRITER else None
    | None => None
    end
  else Some HOST_FACT_WRITER.

(** [current_fact_writer_assignments] *)
Definition current_fact_writer_assignments (g : Graph) (machine : NodeId) (devices : list DeviceSpec) :
    list FactWriterAssignment :=
  let current := list_to_set (dev_id <$> devices) in
  let ids := descendants g machine ++ [machine] in
  let included : gmap N N :=
    foldl (λ m id, match expected_writer g current id with
                   | Some w => <[id := w]> m | None => m end) ∅ ids in
  let nodes_of w := List.filter (λ id, bool_decide (expected_writer g current id = Some w)) ids in
  let edges_of w :=
    edge_key <$> List.filter (λ e, is_contains e && bool_decide (included !! edge_to e = Some w))
                   (g_edges g) in
  List.filter assignment_nonempty
    [ mkAssignment HOST_FACT_WRITER (nodes_of HOST_FACT_WRITER) (edges_of HOST_FACT_WRITER);
      mkAssignment DEVICE_FACT_WRITER (nodes_of DEVICE_FACT_WRITER) (edges_of DEVICE_FACT_WRITER) ].

(** ** Returning agents *)

Inductive HostMismatch :=
| OmittedTopology
| ChangedFlat
| NonHostParent (id : string)
| LostContainment (id : string)
| ChangedTopology.

Definition nodes_with_kind (g : Graph) (ids : list NodeId) (kind : ResourceClass) : list Node :=
  List.filter (λ node, bool_decide (node_kind node = kind)) (omap (graph_node g) ids).

Definition verify_flat (g : Graph) (ids : list NodeId) (d : MachineDescription) :
    result HostMismatch unit :=
  let cpus := nodes_with_kind g ids Class.Cpu in
  let changed :=
    negb (N.of_nat (length cpus) =? md_cpus d)
    || existsb (λ node, negb (bool_decide (node_capacity node = qty Dim.Count 1))) cpus
    || match nodes_with_kind g ids Class.Memory with
       | [memory] => negb (quantity_get (node_capacity memory) Dim.Bytes =? md_memory_bytes d)
       | _ => true
       end in
  if changed then Err ChangedFlat else Ok ().

(** The host spec a committed node stands for; [Ok None] skips the node. *)
Definition committed_spec (g : Graph) (machine id : NodeId) : result HostMismatch (option HostNodeSpec) :=
  match graph_node g id with
  | None => Ok None
  | Some node =>
      match node_attrs node !! HOST_ID_ATTR with
      | None => Ok None
      | Some hid =>
          parent ← match graph_parent g id with
                   | None => Err (LostContainment hid)
                   | Some p =>
                       if p =? machine then Ok None
                       else match graph_node g p ≫= (λ node, node_attrs node !! HOST_ID_ATTR) with
                            | Some ph => Ok (Some ph)
                            | None => Err (NonHostParent hid)
                            end
                   end;
          Ok (Some (mkHost hid (node_kind node) parent (delete HOST_ID_ATTR (node_attrs node))
                      (node_capacity node)))
      end
  end.

(** [verify_registered_host] *)
Definition verify_registered_host (g : Graph) (machine : NodeId) (d : MachineDescription) :
    result HostMismatch unit :=
  let ids := descendants g machine in
  let normalized := existsb (λ id,
    match graph_node g id with
    | Some node => bool_decide (is_Some (node_attrs node !! HOST_ID_ATTR))
    | None => false
    end) ids in
  if bool_decide (md_host_nodes d = []) then
    if normalized then Err OmittedTopology else verify_flat g ids d
  else
    actual ← try_map (committed_spec g machine) ids;
    let actual := sort_by host_leb (omap id actual) in
    let expected := sort_by host_leb (md_host_nodes d) in
    if bool_decide (actual = expected) then Ok () else Err ChangedTopology.

(** [host_parent_node] *)
Definition host_parent_node (g : Graph) (machine : NodeId) (host_parent : string) : option NodeId :=
  List.find (λ id,
    bool_decide ((graph_node g id ≫= (λ node, node_attrs node !! HOST_ID_ATTR)) = Some host_parent))
    (descendants g machine).
