(* ===== verification/Discover.v ===== *)
(** Discovery: the parsers of src/crates/node/src/discover.rs.

    Declared devices (ARCHON_DEVICES), the vendor's GPU query, sysfs CPU
    lists and the normalized host topology.  Files, environment and the
    vendor tool's output are arguments. *)

From S2P Require Import Prelude Identifier Text Types Workload Inventory.
From Stdlib Require Import Ascii.

(** ** Text helpers *)

(** [to_ascii_lowercase].  [to_lowercase] agrees with it on the comparison
    with the three ASCII keywords: no other character lowers to one of their
    letters alone. *)
Definition ascii_lower (c : Ascii.ascii) : Ascii.ascii :=
  if is_ascii_uppercase c then Ascii.ascii_of_N (Ascii.N_of_ascii c + 32) else c.
Fixpoint to_ascii_lowercase (s : string) : string :=
  match s with "" => "" | String c s => String (ascii_lower c) (to_ascii_lowercase s) end.

Definition newline : Ascii.ascii := Ascii.ascii_of_N 10.
Definition carriage_return : Ascii.ascii := Ascii.ascii_of_N 13.

Fixpoint strip_cr (s : string) : string :=
  match s with
  | "" => ""
  | String c "" => if Ascii.eqb c carriage_return then "" else s
  | String c s => String c (strip_cr s)
  end.

Fixpoint close_lines (parts : list string) : list string :=
  match parts with
  | [] => []
  | [last] => if bool_decide (last = "") then [] else [last]
  | part :: parts => strip_cr part :: close_lines parts
  end.

(** [str::lines] *)
Definition lines (s : string) : list string := close_lines (split_on newline s).

Fixpoint words_go (fuel : nat) (cur s : string) : list string :=
  let emit rest := if bool_decide (cur = "") then rest else String.rev cur :: rest in
  match fuel with
  | O => emit []
  | S fuel =>
      match strip_ws false s with
      | Some s => emit (words_go fuel "" s)
      | None =>
          match s with
          | "" => emit []
          | String c s => words_go fuel (String c cur) s
          end
      end
  end.

(** [str::split_whitespace] *)
Definition split_whitespace (s : string) : list string := words_go (S (String.length s)) "" s.

Fixpoint strip_prefix (prefix s : string) : option string :=
  match prefix, s with
  | "", _ => Some s
  | String a prefix, String b s => if Ascii.eqb a b then strip_prefix prefix s else None
  | String _ _, "" => None
  end.

(** ** CPU lists *)

Inductive CpuListError := InvalidRange (part : string) | InvertedRange (part : string).

(** [start..=end] *)
Definition range_incl (first last : N) : list N :=
  (λ k, first + N.of_nat k) <$> seq 0 (N.to_nat (last + 1 - first)).

Definition parse_cpu_part (cpus : list N) (part : string) : result CpuListError (list N) :=
  let '(first, last) := default (part, part) (split_once "-" part) in
  first ← ok_or (parse_u32 (trim first)) (InvalidRange part);
  last ← ok_or (parse_u32 (trim last)) (InvalidRange part);
  if last <? first then Err (InvertedRange part)
  else Ok (cpus ++ range_incl first last).

(** [parse_cpu_list] *)
Definition parse_cpu_list (text : string) : result CpuListError (list N) :=
  try_fold parse_cpu_part []
    (List.filter (λ part, negb (bool_decide (part = ""))) (split_on "," text)).

(** ** Declared devices *)

Inductive DeclaredError :=
| ExpectedIdPath (entry : string)
| ExpectedPath (entry : string)
| EmptyDeclaration (entry : string)
| UnknownKind (kind : string).

(** [kind=id:path] or [kind:path]. *)
Definition split_declaration (entry : string) : result DeclaredError (string * string * string) :=
  match split_once "=" entry with
  | Some (kind, rest) =>
      '(id, dev) ← ok_or (split_once ":" rest) (ExpectedIdPath entry);
      Ok (kind, id, dev)
  | None =>
      '(kind, dev) ← ok_or (split_once ":" entry) (ExpectedPath entry);
      Ok (kind, dev, dev)
  end.

Definition device_kind (kind : string) : option ResourceClass :=
  let k := to_ascii_lowercase (trim kind) in
  if bool_decide (k = "gpu") then Some Class.Gpu
  else if bool_decide (k = "nic") then Some Class.Nic
  else if bool_decide (k = "nvme") then Some Class.Nvme
  else None.

Definition entries (spec : string) : list string :=
  List.filter (λ entry, negb (blank entry)) (split_on "," spec).

Definition validate_declared (raw : string) : result DeclaredError unit :=
  let entry := trim raw in
  '(kind, id, dev) ← split_declaration entry;
  if blank id || blank dev then Err (EmptyDeclaration entry)
  else match device_kind kind with
       | Some _ => Ok ()
       | None => Err (UnknownKind (to_ascii_lowercase (trim kind)))
       end.

(** [validate_declared_devices] *)
Definition validate_declared_devices (spec : string) : result DeclaredError unit :=
  try_for validate_declared (entries spec).

Definition declared_device (entry : string) : option DeviceSpec :=
  match split_declaration entry with
  | Err _ => None
  | Ok (kind, id, dev) =>
      class ← device_kind kind;
      Some (mkDevice class (trim id) dev None [] ∅)
  end.

(** [declared_devices], on the value of the variable. *)
Definition declared_devices (spec : string) : list DeviceSpec := omap declared_device (entries spec).

(** ** The vendor's GPU query *)

Definition is_hexdigit (c : Ascii.ascii) : bool :=
  is_ascii_digit c || byte_in 97 102 c || byte_in 65 70 c.

Fixpoint drop_chars (n : nat) (s : string) : string :=
  match n, s with S n, String _ s => drop_chars n s | _, _ => s end.

Definition normalize_pci_bus_id (value : string) : string :=
  match split_once ":" value with
  | Some (domain, _) =>
      if (String.length domain =? 8)%nat && all_chars is_hexdigit domain
      then drop_chars 4 value else value
  | None => value
  end.

Section nvidia.
(** Which support paths exist, and the sysfs attributes of a bus id. *)
Context (path_exists : string → bool) (pci_attrs : string → Attrs).

Definition nvidia_access : list string :=
  List.filter path_exists
    ["/dev/nvidiactl"; "/dev/nvidia-uvm"; "/dev/nvidia-uvm-tools"; "/dev/nvidia-modeset"].

Definition nvidia_attrs (uuid model bus_id compute driver : string) (memory_mib : N) : Attrs :=
  let attrs := pci_attrs bus_id in
  let attrs := <["provider" := "nvidia"]> attrs in
  let attrs := <["vendor" := "nvidia"]> attrs in
  let attrs := <["model" := model]> attrs in
  let attrs := <["uuid" := uuid]> attrs in
  let attrs := <["pci_bus_id" := bus_id]> attrs in
  let attrs := <["memory_bytes" := pretty ((memory_mib * 1024 * 1024) mod u64_modulus)]> attrs in
  let attrs := <["compute_capability" := compute]> attrs in
  let attrs := if bool_decide (driver = "") then attrs else <["driver_version" := driver]> attrs in
  let attrs := <["whole_device" := "true"]> attrs in
  let attrs := <["enforcement" := "linux-cgroup-device,oci-device"]> attrs in
  <["cdi" := "nvidia.com/gpu=" +:+ uuid]> attrs.

(** One row of the query. *)
Definition nvidia_row (line : string) : option DeviceSpec :=
  match trim <$> split_on "," line with
  | [index; uuid; model; bus; memory; compute; driver] =>
      index ← parse_u32 index;
      let bus_id := normalize_pci_bus_id bus in
      memory_mib ← parse_u64 memory;
      if bool_decide (uuid = "") || bool_decide (model = "") || bool_decide (bus_id = "") then None
      else Some (mkDevice Class.Gpu uuid ("/dev/nvidia" +:+ pretty index) None nvidia_access
                   (nvidia_attrs uuid model bus_id compute driver memory_mib))
  | _ => None
  end.

Definition parse_nvidia_devices (output : string) : list DeviceSpec := omap nvidia_row (lines output).

Inductive NvidiaError :=
| NvidiaFailed (detail : string)
| NvidiaIncomplete (parsed rows : nat).

Definition nvidia_rows (output : string) : list string :=
  List.filter (λ line, negb (blank line)) (lines output).

(** [interpret_nvidia_query] *)
Definition interpret_nvidia_query (success : bool) (stdout stderr : string) :
    result NvidiaError (list DeviceSpec) :=
  if negb success
  then Err (NvidiaFailed (if blank stderr then trim stdout else trim stderr))
  else
    let rows := length (nvidia_rows stdout) in
    let devices := parse_nvidia_devices stdout in
    if negb (length devices =? rows)%nat then Err (NvidiaIncomplete (length devices) rows)
    else Ok devices.
End nvidia.

(** ** Host topology *)

Inductive TopologyError :=
| ReadFailed (path : string)
| BadCpuList (path : string) (e : CpuListError)
| NoCpus (path : string)
| NoNumaNodes
| ParseMemTotal (path : string)
| MemTotalOverflow (path : string).

Definition node_root : string := "/sys/devices/system/node/".

Section topology.
(** Directory entries of the node root, in the order read, and file contents. *)
Context (read_dir : option (list string)) (read_file : string → option string).

(** A NUMA node found: its host id, its CPUs, its sysfs number. *)
Definition numa_entry (acc : list (string * list N * string)) (name : string) :
    result TopologyError (list (string * list N * string)) :=
  match strip_prefix "node" name with
  | None => Ok acc
  | Some node =>
      match parse_u32 node with
      | None => Ok acc
      | Some _ =>
          let path := node_root +:+ name in
          let cpulist := path +:+ "/cpulist" in
          text ← ok_or (read_file cpulist) (ReadFailed cpulist);
          cpus ← match parse_cpu_list (trim text) with
                 | Ok cpus => Ok cpus
                 | Err e => Err (BadCpuList cpulist e)
                 end;
          if bool_decide (cpus = []) then Err (NoCpus path)
          else Ok (acc ++ [("numa/" +:+ node, cpus, node)])
      end
  end.

(** The number on the MemTotal line. *)
Definition mem_total_line (line : string) : option N :=
  match split_whitespace line with
  | label :: _ :: metric :: rest =>
      if bool_decide (label = "Node") && bool_decide (metric = "MemTotal:")
      then match rest with n :: _ => parse_u64 n | [] => None end
      else None
  | _ => None
  end.

Fixpoint find_map {A B} (f : A → option B) (l : list A) : option B :=
  match l with
  | [] => None
  | x :: l => match f x with Some y => Some y | None => find_map f l end
  end.

Definition numa_specs (acc : list HostNodeSpec) (entry : string * list N * string) :
    result TopologyError (list HostNodeSpec) :=
  let '(id, cpus, sysfs_node) := entry in
  let path := node_root +:+ "node" +:+ sysfs_node +:+ "/meminfo" in
  meminfo ← ok_or (read_file path) (ReadFailed path);
  kib ← ok_or (find_map mem_total_line (lines meminfo)) (ParseMemTotal path);
  let bytes := kib * 1024 in
  if negb (bytes <? u64_modulus) then Err (MemTotalOverflow path)
  else Ok (acc ++ mkHost id Class.Numa None ∅ ∅
             :: mkHost (id +:+ "/memory") Class.Memory (Some id) ∅ (qty Dim.Bytes bytes)
             :: ((λ cpu : N, mkHost (id +:+ "/cpu/" +:+ pretty cpu) Class.Cpu (Some id) ∅
                             (qty Dim.Count 1)) <$> cpus)).

(** [host_topology_fallible] *)
Definition host_topology_fallible : result TopologyError (list HostNodeSpec) :=
  names ← ok_or read_dir (ReadFailed node_root);
  numa_nodes ← try_fold numa_entry [] names;
  if bool_decide (length numa_nodes = 0%nat) then Err NoNumaNodes
  else
    try_fold numa_specs []
      (sort_by (λ a b, bleb a.1.1 b.1.1) numa_nodes).

(** [host_topology]: any failure falls back to the flat shape. *)
Definition host_topology : list HostNodeSpec :=
  match host_topology_fallible with Ok specs => specs | Err _ => [] end.
End topology.

(** [description_with_devices], on what the host reports for the flat shape. *)
Definition description_with_devices (name : string) (parallelism memory : u64)
    (host_nodes : list HostNodeSpec) (devices : list DeviceSpec) : MachineDescription :=
  let is_kind kind spec := bool_decide (host_kind spec = kind) in
  mkMachine "" name
    (if bool_decide (host_nodes = []) then parallelism
     else N.of_nat (length (List.filter (is_kind Class.Cpu) host_nodes)))
    (if bool_decide (host_nodes = []) then memory
     else foldl (λ total spec, wrap_add total (quantity_get (host_capacity spec) Dim.Bytes)) 0
            (List.filter (is_kind Class.Memory) host_nodes))
    host_nodes devices.
