(* ===== verification/Occupancy.v ===== *)
(** * Occupancy (crates/kernel/src/occupancy.rs)

    How much of every node's capacity the live leases hold.  The definitions
    follow the source (wrapping [u64] sums over B-tree maps); the theorems
    relate them to the mathematical sum of the claims of the root leases. *)

From S2P Require Import Prelude.
From S2P Require Import Identifier.
From S2P Require Import Types.
From S2P Require Import Graph.

Record Occupancy := mkOccupancy { occ_used : gmap N Quantity }.

(** [Occupancy::used_on] and [Occupancy::is_used] *)
Definition used_on (o : Occupancy) (node : NodeId) : Quantity := default ∅ (occ_used o !! node).
Definition is_used (o : Occupancy) (node : NodeId) : bool :=
  negb (bool_decide (used_on o node = ∅)).

(** [Occupancy::remaining] *)
Definition remaining (o : Occupancy) (g : Graph) (node : NodeId) : result Error Quantity :=
  nd ← ok_or (graph_node g node) (UnknownNode node);
  Ok (quantity_saturating_sub (node_capacity nd) (default ∅ (occ_used o !! node))).

(** [Occupancy::can_cover] *)
Definition can_cover (o : Occupancy) (g : Graph) (claim : Claim) : result Error bool :=
  r ← remaining o g (claim_node claim);
  Ok (quantity_le (claim_quantity claim) r).

(** [Occupancy::exceeds_capacity] *)
Fixpoint exceeds_capacity_in (g : Graph) (used : list (NodeId * Quantity))
    : result Error (option NodeId) :=
  match used with
  | [] => Ok None
  | (node, q) :: used =>
      nd ← ok_or (graph_node g node) (UnknownNode node);
      if negb (quantity_le q (node_capacity nd)) then Ok (Some node)
      else exceeds_capacity_in g used
  end.

Definition exceeds_capacity (o : Occupancy) (g : Graph) : result Error (option NodeId) :=
  exceeds_capacity_in g (bt_iter (occ_used o)).

Definition is_live_state (s : LeaseState) : bool :=
  match s with LReserved | LPreparing | LActive => true | _ => false end.

Definition lease_occupies (lease : Lease) (open_bindings : bool) : bool :=
  is_live_state (lease_state lease) || open_bindings.

Definition resolve_claim (g : Graph) (claim : Claim) : result Error Claim :=
  node ← ok_or (graph_node g (claim_node claim)) (UnknownNode (claim_node claim));
  let quantity :=
    if bool_decide (claim_quantity claim = ∅) then node_capacity node
    else claim_quantity claim in
  _ ← claim_binding_for_quantity g (claim_node claim) quantity;
  Ok (mkClaim (claim_node claim) quantity).

Definition covers (parent child : list Claim) : bool :=
  forallb (λ child_claim,
    existsb (λ parent_claim,
      (claim_node parent_claim =? claim_node child_claim)
      && quantity_le (claim_quantity child_claim) (claim_quantity parent_claim)) parent) child.

Definition claims_by_node (claims : list Claim) : gmap N Quantity :=
  foldl (λ (out : gmap N Quantity) claim,
           <[claim_node claim :=
               quantity_max (default ∅ (out !! claim_node claim)) (claim_quantity claim)]> out)
        ∅ claims.

(** [for (node, quantity) in claims_by_node(claims)
     { quantity_add_assign(used.entry(node).or_default(), &quantity) }] *)
Definition charge_claims (used : gmap N Quantity) (claims : list Claim) : gmap N Quantity :=
  foldl (λ (used : gmap N Quantity) '(node, quantity),
           <[node := quantity_add_assign (default ∅ (used !! node)) quantity]> used)
        used (bt_iter (claims_by_node claims)).

Definition occupancy_from_leases (leases : list Lease) (open_binding_leases : gset N)
    (except : gset N) : Occupancy :=
  let occupying :=
    List.filter (λ lease,
      negb (bool_decide (lease_id lease ∈ except))
      && lease_occupies lease (bool_decide (lease_id lease ∈ open_binding_leases))) leases in
  let roots : gset N :=
    list_to_set (lease_id <$>
      List.filter (λ lease,
        match lease_parent lease with
        | None => true
        | Some parent => forallb (λ other, negb (lease_id other =? parent)) occupying
        end) occupying) in
  mkOccupancy
    (foldl (λ used lease,
              if decide (lease_id lease ∈ roots) then charge_claims used (lease_claims lease)
              else used) ∅ occupying).

Definition subtree_used (leases : gmap N Lease) (open_binding_leases : gset N)
    (parent except : LeaseId) : Occupancy :=
  mkOccupancy
    (foldl (λ used lease,
              if (lease_id lease =? except)
                 || negb (bool_decide (lease_parent lease = Some parent)) then used
              else if negb (lease_occupies lease
                              (bool_decide (lease_id lease ∈ open_binding_leases))) then used
              else charge_claims used (lease_claims lease)) ∅ (bt_values leases)).

Definition claim_fits (capacity used claim : Quantity) : bool :=
  forallb (λ '(dimension, amount),
    amount <=? sat_sub (quantity_get capacity dimension) (quantity_get used dimension))
    (bt_iter claim).

(** ** Reading occupancy as numbers *)

(** What one lease claims of a node in a dimension. *)
Definition claims_amount (claims : list Claim) (n : NodeId) (d : CapacityDimension) : N :=
  quantity_get (default ∅ (claims_by_node claims !! n)) d.

Definition occ_amount (o : Occupancy) (n : NodeId) (d : CapacityDimension) : N :=
  quantity_get (used_on o n) d.

Definition node_cap (g : Graph) (n : NodeId) (d : CapacityDimension) : N :=
  match graph_node g n with Some nd => quantity_get (node_capacity nd) d | None => 0 end.

(** The claims of an owner map are per-node maxima. *)
Lemma claims_by_node_fold claims (m : gmap N Quantity) n d :
  quantity_get (default ∅ (foldl (λ (out : gmap N Quantity) claim,
     <[claim_node claim :=
         quantity_max (default ∅ (out !! claim_node claim)) (claim_quantity claim)]> out)
     m claims !! n)) d
  = N.max (quantity_get (default ∅ (m !! n)) d)
      (foldr (λ c acc, if claim_node c =? n then N.max (quantity_get (claim_quantity c) d) acc
                       else acc) 0 claims).
Proof.
  revert m. induction claims as [|c claims IH]; intros m; cbn [foldl foldr]; [lia|].
  rewrite IH, lookup_insert. destruct (N.eqb_spec (claim_node c) n) as [<-|Hne].
  - rewrite decide_True by done. simpl. rewrite quantity_get_max. lia.
  - by rewrite decide_False.
Qed.

Lemma claims_amount_max claims n d :
  claims_amount claims n d
  = foldr (λ c acc, if claim_node c =? n then N.max (quantity_get (claim_quantity c) d) acc
                    else acc) 0 claims.
Proof.
  unfold claims_amount, claims_by_node. rewrite claims_by_node_fold, lookup_empty. simpl.
  by rewrite quantity_get_empty, N.max_0_l.
Qed.

Lemma claims_amount_elem claims c d :
  c ∈ claims → quantity_get (claim_quantity c) d ≤ claims_amount claims (claim_node c) d.
Proof.
  rewrite claims_amount_max. induction claims as [|c' claims IH]; [by intros ?%elem_of_nil|].
  intros [->|Hc]%elem_of_cons; cbn [foldr].
  - rewrite N.eqb_refl. lia.
  - specialize (IH Hc). destruct (_ =? _); lia.
Qed.

Lemma claims_amount_le claims n d b :
  (∀ c, c ∈ claims → claim_node c = n → quantity_get (claim_quantity c) d ≤ b) →
  claims_amount claims n d ≤ b.
Proof.
  rewrite claims_amount_max. induction claims as [|c claims IH]; intros Hle; cbn [foldr]; [lia|].
  specialize (IH ltac:(intros; apply Hle; [by right|done])).
  destruct (N.eqb_spec (claim_node c) n); [|done].
  specialize (Hle c ltac:(by left) ltac:(done)). lia.
Qed.

(** ** [charge_claims] adds the amounts modulo [2^64] *)

Definition used_u64 (used : gmap N Quantity) : Prop :=
  ∀ n d, quantity_get (default ∅ (used !! n)) d < u64_modulus.

Lemma charge_lookup used claims n :
  charge_claims used claims !! n
  = match claims_by_node claims !! n with
    | Some q => Some (quantity_add_assign (default ∅ (used !! n)) q)
    | None => used !! n
    end.
Proof.
  unfold charge_claims.
  rewrite (bt_fold_lookup _ (λ o q, Some (quantity_add_assign (default ∅ o) q))); [done|].
  intros m k a j. rewrite lookup_insert. by case_decide.
Qed.

Lemma charge_amount_mod used claims n d :
  quantity_get (default ∅ (charge_claims used claims !! n)) d mod u64_modulus
  = (quantity_get (default ∅ (used !! n)) d + claims_amount claims n d) mod u64_modulus.
Proof.
  rewrite charge_lookup. unfold claims_amount.
  destruct (claims_by_node claims !! n) as [q|]; simpl.
  - apply quantity_get_add_mod.
  - by rewrite quantity_get_empty, N.add_0_r.
Qed.

Lemma charge_u64 used claims : used_u64 used → used_u64 (charge_claims used claims).
Proof.
  intros Hu n. rewrite charge_lookup. destruct (claims_by_node claims !! n); [|apply Hu].
  simpl. apply quantity_u64_get, quantity_add_u64, quantity_u64_get, Hu.
Qed.

(** Charging a selection of leases, in any iteration, sums their claims. *)
Definition sum_list (f : Lease → N) (ls : list Lease) : N := foldr (λ l acc, f l + acc) 0 ls.

Lemma charge_fold (sel : Lease → bool) ls (used : gmap N Quantity) n d :
  used_u64 used →
  used_u64 (foldl (λ used l, if sel l then charge_claims used (lease_claims l) else used) used ls)
  ∧ quantity_get (default ∅ (foldl (λ used l,
       if sel l then charge_claims used (lease_claims l) else used) used ls !! n)) d mod u64_modulus
    = (quantity_get (default ∅ (used !! n)) d
       + sum_list (λ l, if sel l then claims_amount (lease_claims l) n d else 0) ls)
      mod u64_modulus.
Proof.
  revert used. induction ls as [|l ls IH]; intros used Hu; cbn [foldl sum_list foldr].
  - split; [done|]. by rewrite N.add_0_r.
  - destruct (sel l).
    + destruct (IH _ (charge_u64 _ (lease_claims l) Hu)) as [Hu' ->]. split; [done|].
      rewrite N.Div0.add_mod, charge_amount_mod, <-N.Div0.add_mod.
      by rewrite N.add_assoc.
    + destruct (IH _ Hu) as [Hu' ->]. done.
Qed.

Lemma charge_fold_amount (sel : Lease → bool) ls n d :
  occ_amount (mkOccupancy (foldl (λ used l,
    if sel l then charge_claims used (lease_claims l) else used) ∅ ls)) n d
  = sum_list (λ l, if sel l then claims_amount (lease_claims l) n d else 0) ls mod u64_modulus.
Proof.
  assert (used_u64 ∅) as H0.
  { intros n' d'. rewrite lookup_empty. simpl. by rewrite quantity_get_empty. }
  destruct (charge_fold sel ls ∅ n d H0) as [Hu Hmod].
  unfold occ_amount, used_on. cbn [occ_used]. rewrite <-(N.mod_small _ _ (Hu n d)).
  rewrite Hmod, lookup_empty. cbn [default from_option].
  by rewrite quantity_get_empty, N.add_0_l.
Qed.

Lemma sum_list_values (f : Lease → N) (leases : gmap N Lease) :
  sum_list f (bt_values leases) = sum_map (λ _ l, f l) leases.
Proof.
  unfold sum_map. rewrite map_fold_foldr. unfold sum_list, bt_values.
  assert (∀ ps : list (N * Lease),
    foldr (λ l acc, f l + acc) 0 ps.*2 = foldr (λ p acc, f p.2 + acc) 0 ps) as ->.
  { induction ps as [|p ps IH]; [done|]. rewrite fmap_cons. cbn [foldr]. by rewrite IH. }
  assert (∀ (l l' : list (N * Lease)), l ≡ₚ l' →
    foldr (λ p acc, f p.2 + acc) 0 l = foldr (λ p acc, f p.2 + acc) 0 l') as Hperm.
  { induction 1; simpl; lia. }
  rewrite (Hperm _ _ (bt_iter_perm leases)). clear Hperm.
  induction (map_to_list leases) as [|[k l] ls IH]; simpl; [done|]. by rewrite IH.
Qed.

Lemma sum_list_filter (f : Lease → N) (sel : Lease → bool) ls :
  sum_list f (List.filter sel ls) = sum_list (λ l, if sel l then f l else 0) ls.
Proof. induction ls as [|l ls IH]; simpl; [done|]. destruct (sel l); simpl; lia. Qed.

Lemma sum_list_ext (f g : Lease → N) ls :
  (∀ l, l ∈ ls → f l = g l) → sum_list f ls = sum_list g ls.
Proof.
  induction ls as [|l ls IH]; intros Heq; simpl; [done|].
  rewrite IH by (intros; apply Heq; by right). by rewrite (Heq l ltac:(by left)).
Qed.

(** ** Occupancy over a lease table *)

Definition keyed (leases : gmap N Lease) : Prop :=
  ∀ k l, leases !! k = Some l → lease_id l = k.

Definition occupying_in (ob ex : gset N) (l : Lease) : bool :=
  negb (bool_decide (lease_id l ∈ ex))
  && lease_occupies l (bool_decide (lease_id l ∈ ob)).

(** A lease is charged when it occupies and its parent does not. *)
Definition charged_in (leases : gmap N Lease) (ob ex : gset N) (l : Lease) : bool :=
  occupying_in ob ex l
  && match lease_parent l with
     | None => true
     | Some p =>
         match leases !! p with
         | Some lp => negb (occupying_in ob ex lp)
         | None => true
         end
     end.

Definition charge_of (leases : gmap N Lease) (ob ex : gset N) (n : NodeId)
    (d : CapacityDimension) (l : Lease) : N :=
  if charged_in leases ob ex l then claims_amount (lease_claims l) n d else 0.

(** The mathematical occupancy: the sum of the charged claims. *)
Definition total_used (leases : gmap N Lease) (ob ex : gset N) (n : NodeId)
    (d : CapacityDimension) : N :=
  sum_map (λ _ l, charge_of leases ob ex n d l) leases.

Lemma root_test leases ob ex p :
  keyed leases →
  forallb (λ other, negb (lease_id other =? p))
    (List.filter (occupying_in ob ex) (bt_values leases))
  = match leases !! p with Some lp => negb (occupying_in ob ex lp) | None => true end.
Proof.
  intros Hk. apply eq_true_iff_eq. rewrite forallb_elem. split.
  - intros Hall. destruct (leases !! p) as [lp|] eqn:Hp; [|done].
    destruct (occupying_in ob ex lp) eqn:Ho; [|done].
    specialize (Hall lp). rewrite list_elem_of_In, filter_In, <-list_elem_of_In in Hall.
    specialize (Hall ltac:(split; [apply elem_of_bt_values; eauto|done])).
    by rewrite (Hk _ _ Hp), N.eqb_refl in Hall.
  - intros Hp o. rewrite list_elem_of_In, filter_In, <-list_elem_of_In.
    intros [[k Hko]%elem_of_bt_values Ho]. destruct (N.eqb_spec (lease_id o) p) as [<-|]; [|done].
    rewrite (Hk _ _ Hko) in Hp. rewrite Hko, Ho in Hp. done.
Qed.

Lemma occupancy_amount leases ob ex n d :
  keyed leases →
  occ_amount (occupancy_from_leases (bt_values leases) ob ex) n d
  = total_used leases ob ex n d mod u64_modulus.
Proof.
  intros Hk. unfold occupancy_from_leases. cbv zeta.
  change (λ lease, negb (bool_decide (lease_id lease ∈ ex))
            && lease_occupies lease (bool_decide (lease_id lease ∈ ob)))
    with (occupying_in ob ex).
  set (occ := List.filter (occupying_in ob ex) (bt_values leases)).
  set (roots := list_to_set _ : gset N).
  assert (∀ (ls : list Lease) used, foldl (λ used lease, if decide (lease_id lease ∈ roots)
       then charge_claims used (lease_claims lease) else used) used ls
     = foldl (λ used l, if bool_decide (lease_id l ∈ roots)
       then charge_claims used (lease_claims l) else used) used ls) as ->.
  { induction ls as [|l ls IH]; intros used; cbn [foldl]; [done|].
    rewrite IH. by destruct (decide _), (bool_decide_reflect (lease_id l ∈ roots)). }
  rewrite charge_fold_amount. f_equal. unfold occ. rewrite sum_list_filter.
  unfold total_used. rewrite <-sum_list_values. apply sum_list_ext.
  intros l [k Hl]%elem_of_bt_values. unfold charge_of, charged_in.
  destruct (occupying_in ob ex l) eqn:Ho; [|done]. simpl.
  match goal with |- (if ?b then _ else _) = (if ?c then _ else _) => replace b with c; [done|] end.
  symmetry. apply eq_true_iff_eq. rewrite bool_decide_eq_true. unfold roots.
  rewrite elem_of_list_to_set, list_elem_of_fmap. split.
  - intros (l' & Hid & Hin). rewrite list_elem_of_In, filter_In, <-list_elem_of_In in Hin.
    destruct Hin as [Hin Hroot]. unfold occ in Hin.
    rewrite list_elem_of_In, filter_In, <-list_elem_of_In in Hin.
    destruct Hin as [[k' Hl']%elem_of_bt_values _].
    rewrite (Hk _ _ Hl), (Hk _ _ Hl') in Hid. subst k'. simplify_eq.
    destruct (lease_parent l); [|done]. by rewrite <-(root_test leases ob ex _ Hk).
  - intros Hroot. exists l. split; [done|].
    rewrite list_elem_of_In, filter_In, <-list_elem_of_In. split.
    + unfold occ. rewrite list_elem_of_In, filter_In, <-list_elem_of_In.
      split; [apply elem_of_bt_values; eauto|done].
    + destruct (lease_parent l); [|done]. unfold occ. by rewrite root_test.
Qed.

(** The same for the children of one lease. *)
Definition child_charge (ob : gset N) (parent except : LeaseId) (n : NodeId)
    (d : CapacityDimension) (l : Lease) : N :=
  if negb (lease_id l =? except) && bool_decide (lease_parent l = Some parent)
     && lease_occupies l (bool_decide (lease_id l ∈ ob))
  then claims_amount (lease_claims l) n d else 0.

Definition children_used (leases : gmap N Lease) (ob : gset N) (parent except : LeaseId)
    (n : NodeId) (d : CapacityDimension) : N :=
  sum_map (λ _ l, child_charge ob parent except n d l) leases.

Lemma subtree_used_sum leases ob parent except n d :
  occ_amount (subtree_used leases ob parent except) n d
  = children_used leases ob parent except n d mod u64_modulus.
Proof.
  unfold subtree_used, children_used. rewrite <-sum_list_values.
  assert (∀ ls used, foldl (λ used lease,
              if (lease_id lease =? except)
                 || negb (bool_decide (lease_parent lease = Some parent)) then used
              else if negb (lease_occupies lease (bool_decide (lease_id lease ∈ ob))) then used
              else charge_claims used (lease_claims lease)) used ls
    = foldl (λ used l, if negb (lease_id l =? except)
         && bool_decide (lease_parent l = Some parent)
         && lease_occupies l (bool_decide (lease_id l ∈ ob))
       then charge_claims used (lease_claims l) else used) used ls) as ->.
  { induction ls as [|l ls IH]; intros used; simpl; [done|]. rewrite IH.
    destruct (lease_id l =? except), (bool_decide (lease_parent l = Some parent)),
      (lease_occupies l _); done. }
  rewrite charge_fold_amount. done.
Qed.

(** ** Fitting claims *)

Lemma can_cover_true o g c :
  can_cover o g c = Ok true →
  is_Some (g_nodes g !! claim_node c)
  ∧ ∀ d, quantity_get (claim_quantity c) d
         ≤ node_cap g (claim_node c) d - occ_amount o (claim_node c) d.
Proof.
  unfold can_cover, remaining. intros Hrun.
  apply bind_Ok_inv in Hrun as (r & Hr & Hle). injection Hle as Hle.
  apply bind_Ok_inv in Hr as (nd & Hnd%ok_or_Ok & Hr). injection Hr as <-.
  split; [unfold graph_node in Hnd; eauto|]. intros d. rewrite quantity_le_spec in Hle.
  specialize (Hle d). rewrite quantity_get_sub in Hle.
  unfold node_cap, occ_amount, used_on. by rewrite Hnd.
Qed.

Lemma exceeds_capacity_None o g :
  exceeds_capacity o g = Ok None → ∀ n d, occ_amount o n d ≤ node_cap g n d.
Proof.
  unfold exceeds_capacity. intros Hrun n d. unfold occ_amount, used_on.
  destruct (occ_used o !! n) as [q|] eqn:Hq; simpl; [|rewrite quantity_get_empty; lia].
  apply elem_of_bt_iter in Hq. revert Hrun Hq.
  induction (bt_iter (occ_used o)) as [|[n' q'] l IH]; intros Hrun Hin;
    [by apply elem_of_nil in Hin|].
  simpl in Hrun. apply bind_Ok_inv in Hrun as (nd & Hnd%ok_or_Ok & Hrun).
  destruct (quantity_le q' (node_capacity nd)) eqn:Hle; [|discriminate].
  apply elem_of_cons in Hin as [[= -> ->]|Hin]; [|by apply IH].
  unfold node_cap. rewrite Hnd. by apply quantity_le_spec.
Qed.

Lemma claim_fits_spec capacity used claim :
  claim_fits capacity used claim = true →
  ∀ d, quantity_get claim d ≤ quantity_get capacity d - quantity_get used d.
Proof.
  unfold claim_fits. rewrite forallb_elem. intros Hall d. unfold quantity_get at 1.
  destruct (claim !! d) as [a|] eqn:Ha; simpl; [|lia].
  apply elem_of_bt_iter, Hall, N.leb_le in Ha. done.
Qed.

Lemma covers_amount parent child n d :
  covers parent child = true → claims_amount child n d ≤ claims_amount parent n d.
Proof.
  unfold covers. rewrite forallb_elem. intros Hall. apply claims_amount_le.
  intros c Hc <-. specialize (Hall c Hc). apply existsb_elem in Hall as (p & Hp & Hle).
  apply andb_prop in Hle as [Hn%N.eqb_eq Hle]. rewrite quantity_le_spec in Hle.
  etrans; [apply Hle|]. rewrite <-Hn. by apply claims_amount_elem.
Qed.

Lemma resolve_claim_Ok g c c' :
  resolve_claim g c = Ok c' →
  claim_node c' = claim_node c ∧ claim_quantity c' ≠ ∅
  ∧ is_Some (g_nodes g !! claim_node c)
  ∧ (∃ b, claim_binding_for_quantity g (claim_node c) (claim_quantity c') = Ok b)
  ∧ (claim_quantity c ≠ ∅ → c' = c).
Proof.
  unfold resolve_claim. intros Hrun.
  apply bind_Ok_inv in Hrun as (nd & Hnd%ok_or_Ok & Hrun).
  apply bind_Ok_inv in Hrun as (b & Hb & Hrun). simplify_eq. cbn [claim_node claim_quantity].
  split_and!; eauto.
  - intros He. rewrite He in Hb. unfold claim_binding_for_quantity in Hb.
    rewrite Hnd in Hb. done.
  - intros Hne. rewrite bool_decide_false by done. by destruct c.
Qed.

(** The computed occupancy is the sum, modulo [2^64], of the claims of the
    occupying leases whose parent does not occupy: nested leases are charged
    once, through their outermost occupying ancestor, and excepted leases
    not at all. *)
Theorem occupancy_sums_roots leases ob ex n d :
  keyed leases →
  occ_amount (occupancy_from_leases (bt_values leases) ob ex) n d
  = total_used leases ob ex n d mod u64_modulus.
Proof. apply occupancy_amount. Qed.
