(* ===== verification/Endpoint.v ===== *)
(** * Enforcement endpoints (crates/kernel/src/endpoint.rs, types.rs)

    The provider-side state machine that accepts or rejects generations of a
    binding by fence and session. *)

From S2P Require Import Prelude.
From S2P Require Import Identifier.
From S2P Require Import Types.

Inductive EndpointPhase := Idle | Prepared | Active.

#[export] Instance EndpointPhase_eq_dec : EqDecision EndpointPhase.
Proof. solve_decision. Defined.

Record Endpoint := mkEndpoint {
  ep_provider : ProviderId;
  ep_node : NodeId;
  ep_accepted_fence : u64;
  ep_open : bool;
  ep_binding : option BindingId;
  ep_phase : EndpointPhase;
  ep_session : u64;
}.

Definition endpoint_new (provider : ProviderId) (node : NodeId) (session : u64) : Endpoint :=
  mkEndpoint provider node 0 false None Idle session.

Inductive EndpointOp := OpPrepare | OpActivate | OpRelease | OpFence.

Inductive EndpointError :=
| EpStaleSession (expected got : u64)
| EpStaleFence (accepted got : u64)
| EpConflict
| EpWrongPhase (phase : EndpointPhase).

(** [self.accepted_fence = ..; self.open = ..; self.binding = ..; self.phase = ..] *)
Definition ep_set (e : Endpoint) (fence : u64) (open : bool) (binding : option BindingId)
    (phase : EndpointPhase) : Endpoint :=
  mkEndpoint (ep_provider e) (ep_node e) fence open binding phase (ep_session e).

Definition ep_prepare (e : Endpoint) (binding : BindingId) (fence : u64)
    : result EndpointError Endpoint :=
  if fence <? ep_accepted_fence e then Err (EpStaleFence (ep_accepted_fence e) fence)
  else if fence =? ep_accepted_fence e then
    if ep_open e && bool_decide (ep_binding e = Some binding)
       && bool_decide (ep_phase e = Prepared)
    then Ok e else Err EpConflict
  else Ok (ep_set e fence true (Some binding) Prepared).

Definition ep_activate (e : Endpoint) (binding : BindingId) (fence : u64)
    : result EndpointError Endpoint :=
  if negb (ep_open e) || negb (bool_decide (ep_binding e = Some binding))
     || negb (fence =? ep_accepted_fence e)
  then Err EpConflict
  else
    match ep_phase e with
    | Prepared | Active =>
        Ok (ep_set e (ep_accepted_fence e) (ep_open e) (ep_binding e) Active)
    | Idle => Err (EpWrongPhase Idle)
    end.

Definition ep_close (e : Endpoint) (fence : u64) : result EndpointError Endpoint :=
  if fence <? ep_accepted_fence e then Ok e
  else Ok (ep_set e fence false None Idle).

(** [Endpoint::apply] *)
Definition endpoint_apply (e : Endpoint) (op : EndpointOp) (binding : BindingId)
    (fence session : u64) : result EndpointError Endpoint :=
  if negb (session =? ep_session e) then Err (EpStaleSession (ep_session e) session)
  else
    match op with
    | OpPrepare => ep_prepare e binding fence
    | OpActivate => ep_activate e binding fence
    | OpRelease | OpFence => ep_close e fence
    end.

(** [Endpoint::handshake] *)
Definition handshake (e : Endpoint) (session : u64) : Endpoint :=
  if ep_session e <? session
  then mkEndpoint (ep_provider e) (ep_node e) (ep_accepted_fence e) (ep_open e)
         (ep_binding e) (ep_phase e) session
  else e.

(** ** Runs of an endpoint *)

Inductive ep_event :=
| EvApply (op : EndpointOp) (binding : BindingId) (fence session : u64)
| EvHandshake (session : u64).

(** A rejected operation leaves the endpoint as it was. *)
Definition ep_step (e : Endpoint) (ev : ep_event) : Endpoint :=
  match ev with
  | EvApply op b f s =>
      match endpoint_apply e op b f s with Ok e' => e' | Err _ => e end
  | EvHandshake s => handshake e s
  end.

Definition ep_run (e : Endpoint) (evs : list ep_event) : Endpoint := foldl ep_step e evs.

(** ** Invariant and monotonicity *)

Definition endpoint_wf (e : Endpoint) : Prop :=
  match ep_phase e with
  | Idle => ep_open e = false ∧ ep_binding e = None
  | Prepared | Active => ep_open e = true ∧ is_Some (ep_binding e)
  end.

Lemma ep_step_wf e ev : endpoint_wf e → endpoint_wf (ep_step e ev).
Proof.
  intros Hwf. destruct ev as [op b f s|s]; simpl; [|by unfold handshake; destruct (_ <? _)].
  unfold endpoint_apply. destruct (negb _); [done|].
  destruct op; unfold ep_prepare, ep_activate, ep_close.
  - destruct (_ <? _); [done|]. destruct (_ =? _); [by destruct (_ && _)|]. by split; [|eexists].
  - destruct (negb _ || _ || _); [done|]. unfold endpoint_wf in *.
    destruct (ep_phase e) eqn:Hp; simpl; rewrite ?Hp; auto.
  - by destruct (_ <? _).
  - by destruct (_ <? _).
Qed.

Lemma ep_step_mono e ev :
  ep_accepted_fence e ≤ ep_accepted_fence (ep_step e ev) ∧ ep_session e ≤ ep_session (ep_step e ev).
Proof.
  destruct ev as [op b f s|s]; simpl.
  2:{ unfold handshake. destruct (N.ltb_spec (ep_session e) s); simpl; lia. }
  unfold endpoint_apply. destruct (negb _); [lia|].
  destruct op; unfold ep_prepare, ep_activate, ep_close.
  - destruct (N.ltb_spec f (ep_accepted_fence e)); [lia|].
    destruct (_ =? _); [destruct (_ && _); lia|]. simpl; lia.
  - destruct (negb _ || _ || _); [lia|]. destruct (ep_phase e); simpl; lia.
  - destruct (N.ltb_spec f (ep_accepted_fence e)); simpl; lia.
  - destruct (N.ltb_spec f (ep_accepted_fence e)); simpl; lia.
Qed.

(** The endpoint invariant: in every state reached from a fresh endpoint
    by any mix of operations and handshakes, "open", "a binding is held" and
    "phase is not Idle" agree, and the accepted fence and the session never
    move backwards along the run. *)
Theorem endpoint_run_invariant p n s evs evs' :
  let e := ep_run (endpoint_new p n s) evs in
  endpoint_wf e
  ∧ ep_accepted_fence e ≤ ep_accepted_fence (ep_run e evs')
  ∧ ep_session e ≤ ep_session (ep_run e evs').
Proof.
  cbv zeta. assert (endpoint_wf (endpoint_new p n s)) as H0 by done.
  generalize dependent (endpoint_new p n s). intros e He. split.
  - revert e He. induction evs as [|ev evs IH]; intros e He; [done|].
    simpl. apply IH. by apply ep_step_wf.
  - generalize (ep_run e evs). clear. induction evs' as [|ev evs' IH]; intros e; simpl; [lia|].
    pose proof (ep_step_mono e ev) as [? ?]. destruct (IH (ep_step e ev)) as [? ?].
    unfold ep_run in *. lia.
Qed.

(** An operation with a fence below the accepted one changes nothing. *)
Lemma stale_op_harmless e op b f s :
  f < ep_accepted_fence e → ep_step e (EvApply op b f s) = e.
Proof.
  intros Hf. simpl. unfold endpoint_apply. destruct (negb _); [done|].
  assert ((f <? ep_accepted_fence e) = true) as Hlt by by apply N.ltb_lt.
  destruct op; unfold ep_prepare, ep_activate, ep_close; rewrite ?Hlt; try done.
  assert ((f =? ep_accepted_fence e) = false) as -> by (apply N.eqb_neq; lia).
  by rewrite !orb_true_r.
Qed.

Definition event_fence_le (f : u64) (ev : ep_event) : Prop :=
  match ev with EvApply _ _ f' _ => f' ≤ f | EvHandshake _ => True end.

Lemma closed_step e f ev :
  ep_open e = false → f ≤ ep_accepted_fence e → event_fence_le f ev →
  ep_open (ep_step e ev) = false ∧ f ≤ ep_accepted_fence (ep_step e ev).
Proof.
  intros Hc Hf Hev. destruct ev as [op b f' s|s]; simpl in *;
    [|unfold handshake; by destruct (_ <? _)].
  unfold endpoint_apply. destruct (negb _); [done|].
  destruct op; unfold ep_prepare, ep_activate, ep_close; rewrite ?Hc; simpl; try done.
  - destruct (N.ltb_spec f' (ep_accepted_fence e)); [done|].
    destruct (N.eqb_spec f' (ep_accepted_fence e)); [done|lia].
  - destruct (N.ltb_spec f' (ep_accepted_fence e)); simpl; [done|]. split; [done|lia].
  - destruct (N.ltb_spec f' (ep_accepted_fence e)); simpl; [done|]. split; [done|lia].
Qed.

(** Fencing is final: once a release or fence of generation [f] has been
    accepted, no sequence of delayed, duplicated or reordered operations of
    generations up to [f] (nor any handshake) opens the endpoint again. *)
Theorem fenced_generation_never_returns e op b f s e' evs :
  op = OpRelease ∨ op = OpFence →
  endpoint_apply e op b f s = Ok e' → ep_accepted_fence e ≤ f →
  Forall (event_fence_le f) evs →
  ep_open (ep_run e' evs) = false.
Proof.
  intros Hop Happ Hf Hevs.
  assert (ep_open e' = false ∧ f ≤ ep_accepted_fence e') as [Hc Hf'].
  { unfold endpoint_apply in Happ. destruct (negb _); [discriminate|].
    assert (ep_close e f = Ok e') as Hcl by by destruct Hop as [->| ->].
    unfold ep_close in Hcl. destruct (N.ltb_spec f (ep_accepted_fence e)); [lia|].
    simplify_eq. simpl. split; [done|lia]. }
  clear Happ. revert e' Hc Hf'. induction Hevs as [|ev evs Hev Hevs IH]; intros e' Hc Hf'; [done|].
  simpl. destruct (closed_step e' f ev Hc Hf' Hev) as [Hc1 Hf1]. by apply IH.
Qed.

Lemma fenced_generation_never_returns_witness :
  ep_open (ep_run
    (ep_step (ep_step (endpoint_new 1 5 7) (EvApply OpPrepare 3 4 7)) (EvApply OpFence 3 4 7))
    [EvApply OpPrepare 3 4 7; EvApply OpActivate 3 4 7; EvHandshake 9;
     EvApply OpPrepare 2 1 9]) = false.
Proof.
  apply (fenced_generation_never_returns
    (ep_step (endpoint_new 1 5 7) (EvApply OpPrepare 3 4 7)) OpFence 3 4 7).
  - by right.
  - reflexivity.
  - by vm_compute.
  - repeat constructor; by vm_compute.
Defined.
