(* ===== verification/Protocol.v ===== *)
(** The agent protocol: src/crates/node/src/protocol.rs.

    Requests, responses and the data they carry; [CpuList::render]; the
    length-prefixed frames.  A stream is the list of bytes still to be read;
    serialization is a parameter ([serde_json] is a library of its own). *)

From S2P Require Import Prelude Words Identifier Text Types Workload Endpoint.

(** ** Devices, limits, capabilities *)

Record DeviceAccess := mkDeviceAccess {
  da_id : string;
  da_dev : string;
  da_paths : list string;
  da_cdi : option string;
}.

#[export] Instance DeviceAccess_eq_dec : EqDecision DeviceAccess.
Proof. solve_decision. Defined.

(** [DeviceAccess::from_attrs]; [paths_from_json] is the library's parser of
    a list of strings. *)
Definition from_attrs (paths_from_json : string → option (list string)) (attrs : Attrs) :
    option DeviceAccess :=
  dev ← attrs !! "dev";
  if bool_decide (dev = "") then None
  else
    let paths := default [] (attrs !! "access" ≫= paths_from_json) in
    Some (mkDeviceAccess (default dev (attrs !! "id")) dev paths (attrs !! "cdi")).

Record RuntimeCapabilities := mkRuntime {
  rc_available : bool;
  rc_cpu_limit : bool;
  rc_memory_limit : bool;
  rc_device_isolation : bool;
  rc_physical_cpu_placement : bool;
  rc_numa_memory_placement : bool;
}.

Record ExecutionCapabilities := mkCapabilities {
  ec_process : RuntimeCapabilities;
  ec_container : RuntimeCapabilities;
}.

(** [CpuList]: [u32] numbers. *)
Record CpuList := mkCpuList { numbers : list N }.

Definition cpu_list_is_empty (l : CpuList) : bool := bool_decide (numbers l = []).

(** The inner loop of [render]: extend the run while the next number follows.
    [end + 1] is an unchecked [u32] addition. *)
Fixpoint run_end (last : N) (rest : list N) : N * list N :=
  match rest with
  | n :: rest' =>
      if n =? (last + 1) mod 2 ^ 32 then run_end n rest' else (last, rest)
  | [] => (last, [])
  end.

Definition render_run (first last : N) : string :=
  if first =? last then pretty first else pretty first +:+ "-" +:+ pretty last.

(** The outer loop; each turn consumes at least one number. *)
Fixpoint render_loop (fuel : nat) (out : string) (nums : list N) : string :=
  match fuel, nums with
  | S fuel, start :: rest =>
      let '(last, rest) := run_end start rest in
      let out := if bool_decide (out = "") then out else out +:+ "," in
      render_loop fuel (out +:+ render_run start last) rest
  | _, _ => out
  end.

(** [CpuList::render] *)
Definition render (l : CpuList) : string :=
  render_loop (length (numbers l)) "" (numbers l).

Record CpuPlacement := mkPlacement { pl_cpus : CpuList; pl_mems : CpuList }.

Definition placement_is_empty (p : CpuPlacement) : bool :=
  cpu_list_is_empty (pl_cpus p) && cpu_list_is_empty (pl_mems p).

Record LeaseLimits := mkLimits {
  lim_cpu_count : u64;
  lim_memory_bytes : u64;
  lim_placement : CpuPlacement;
}.

Definition limits_is_empty (l : LeaseLimits) : bool :=
  (lim_cpu_count l =? 0) && (lim_memory_bytes l =? 0) && placement_is_empty (lim_placement l).

(** ** Messages *)

Inductive Greeting :=
| GreetAgent (instance_id name : string) (cpus memory_bytes : u64)
    (host_nodes : list HostNodeSpec) (devices : list DeviceSpec)
| GreetClient.

Inductive AgentRequest :=
| Hello
| Capabilities
| Register (instance_id name : string) (cpus memory_bytes : u64)
    (host_nodes : list HostNodeSpec) (devices : list DeviceSpec)
| Prepare (binding lease node provider : u64) (scope : BindingScope) (session fence epoch : u64)
| Activate (binding lease node provider : u64) (scope : BindingScope) (session fence epoch : u64)
| StartExecution (lease session epoch : u64) (command : list string) (limits : LeaseLimits)
    (image : string) (storage : list StorageMount) (ports : list PortPublish)
    (grace_secs : N) (devices : list DeviceAccess)
| StopExecution (lease session epoch : u64)
| Release (binding lease node provider : u64) (scope : BindingScope) (session fence epoch : u64)
| Fence (binding lease node provider : u64) (scope : BindingScope) (session fence epoch : u64)
| Status (lease : u64)
| Logs (lease : u64)
| EnumerateBindings.

Record EnumeratedEndpoint := mkEnumerated {
  en_node : u64;
  en_provider : u64;
  en_scope : BindingScope;
  en_binding : option u64;
  en_open : bool;
  en_accepted_fence : u64;
  en_phase : EndpointPhase;
}.

#[export] Instance EnumeratedEndpoint_eq_dec : EqDecision EnumeratedEndpoint.
Proof. solve_decision. Defined.

Inductive AgentResponse :=
| RCapabilities (capabilities : ExecutionCapabilities)
| Welcome (instance_id name : string) (cpus memory_bytes : u64)
    (host_nodes : list HostNodeSpec) (devices : list DeviceSpec)
| RPrepared (binding handle : u64)
| RActivated (binding : u64)
| ExecutionStarted (lease : u64)
| ExecutionFailed (lease : u64) (reason : string)
| ExecutionStopped (lease : u64)
| ExecutionStopFailed (lease : u64) (reason : string)
| RReleased (binding : u64)
| RFenced (binding : u64)
| RFailed (binding : u64) (reason : string)
| Running (lease : u64) (running : bool) (exit_code : option Z)
| RLogs (lease : u64) (output : string)
| BindingsEnumerated (endpoints : list EnumeratedEndpoint).

(** ** Streams and frames *)

Local Open Scope Z_scope.

Definition MAX_FRAME : Z := 16 * 1024 * 1024.

Inductive IoError :=
| InvalidData (what : string)
| UnexpectedEof
| IoOther (what : string).

#[export] Instance IoError_eq_dec : EqDecision IoError.
Proof. solve_decision. Defined.

(** [Read::read_exact] on what the peer has sent: the bytes and the rest. *)
Definition read_exact (n : nat) (stream : list Z) : result IoError (list Z * list Z) :=
  if (n <=? length stream)%nat then Ok (take n stream, drop n stream) else Err UnexpectedEof.

Definition read_payload (stream : list Z) : result IoError (list Z * list Z) :=
  '(len, stream) ← read_exact 4 stream;
  let length := from_le_bytes len in
  if MAX_FRAME <? length then Err (InvalidData "frame exceeds maximum size")
  else read_exact (Z.to_nat length) stream.

(** [write_frame] on the serialized message: the bytes sent. *)
Definition write_payload (payload : list Z) : result IoError (list Z) :=
  let len := Z.of_nat (length payload) in
  if MAX_FRAME <? len then Err (InvalidData "frame exceeds MAX_FRAME")
  else Ok (to_le_bytes 4 (as_u32 len) ++ payload).

Section frames.
(** The serializer of one message type. *)
Context {T : Type} (to_vec : T → list Z) (from_slice : list Z → option T).

Definition write_frame (message : T) : result IoError (list Z) :=
  write_payload (to_vec message).

(** [read_frame], [read_greeting] and [read_request] are this at their types. *)
Definition read_message (stream : list Z) : result IoError (T * list Z) :=
  '(payload, rest) ← read_payload stream;
  match from_slice payload with
  | Some message => Ok (message, rest)
  | None => Err (IoOther "invalid message")
  end.
End frames.
