(* ===== verification/ProtocolFacts.v ===== *)
(** Round trips of the agent protocol: frames, and CPU lists printed by
    [CpuList::render] and read back by [parse_cpu_list]. *)

From S2P Require Import Prelude Words Identifier Text Types Workload Endpoint Protocol Graph Inventory.
From S2P Require Import Discover.
From Stdlib Require Import Ascii.

(** ** Frames *)

Section frames.
Local Open Scope Z_scope.

Lemma read_exact_app n bytes rest :
  n = length bytes → read_exact n (bytes ++ rest) = Ok (bytes, rest).
Proof.
  intros ->. unfold read_exact. rewrite length_app.
  destruct (Nat.leb_spec (length bytes) (length bytes + length rest)); [|lia].
  by rewrite take_app_length, drop_app_length.
Qed.

Lemma read_write_payload payload bytes rest :
  write_payload payload = Ok bytes → read_payload (bytes ++ rest) = Ok (payload, rest).
Proof.
  unfold write_payload. destruct (Z.ltb_spec MAX_FRAME (Z.of_nat (length payload))) as [|Hle]; [done|].
  intros Hok. assert (bytes = to_le_bytes 4 (as_u32 (Z.of_nat (length payload))) ++ payload) as ->
    by congruence. unfold read_payload. rewrite <-app_assoc, read_exact_app by done. cbn [mbind result_bind].
  assert (as_u32 (Z.of_nat (length payload)) = Z.of_nat (length payload)) as ->.
  { apply as_unsigned_small. unfold MAX_FRAME in Hle. lia. }
  rewrite from_to_le_bytes, Z.mod_small by (unfold MAX_FRAME in Hle; change (256 ^ Z.of_nat 4) with 4294967296; lia).
  destruct (Z.ltb_spec MAX_FRAME (Z.of_nat (length payload))); [lia|].
  rewrite Nat2Z.id. by apply read_exact_app.
Qed.

(** What a read can return: the payload announced, never more than the limit,
    and the stream is the prefix, the payload and the rest. *)
Lemma read_payload_spec stream payload rest :
  Forall is_byte stream → read_payload stream = Ok (payload, rest) →
  ∃ prefix, length prefix = 4%nat ∧ stream = prefix ++ payload ++ rest
    ∧ from_le_bytes prefix = Z.of_nat (length payload)
    ∧ Z.of_nat (length payload) ≤ MAX_FRAME.
Proof.
  intros Hb. unfold read_payload, read_exact.
  destruct (Nat.leb_spec 4 (length stream)) as [H4|]; cbn [mbind result_bind]; [|done].
  assert (Forall is_byte (take 4 stream)) as Hpre by by apply Forall_take.
  pose proof (from_le_bytes_bound _ Hpre) as Hbound.
  destruct (Z.ltb_spec MAX_FRAME (from_le_bytes (take 4 stream))) as [|Hmax]; [done|].
  destruct (Nat.leb_spec (Z.to_nat (from_le_bytes (take 4 stream))) (length (drop 4 stream)))
    as [Hlen|]; [|done].
  intros [= <- <-]. exists (take 4 stream).
  rewrite length_take, Nat.min_l by done. rewrite length_take, Nat.min_l by done.
  rewrite take_drop, take_drop. split_and!; try done; lia.
Qed.

Context {T : Type} (to_vec : T → list Z) (from_slice : list Z → option T).

(** Frames round-trip: whatever [write_frame] sends for a message, a reader
    that finds it at the head of its stream reads that message and is left
    with the following bytes; messages are refused on the writing side
    exactly when they exceed the limit the reader enforces. *)
Theorem frame_roundtrip message rest :
  from_slice (to_vec message) = Some message →
  (Z.of_nat (length (to_vec message)) ≤ MAX_FRAME →
     ∃ bytes, write_frame to_vec message = Ok bytes
       ∧ read_message from_slice (bytes ++ rest) = Ok (message, rest))
  ∧ (MAX_FRAME < Z.of_nat (length (to_vec message)) →
     write_frame to_vec message = Err (InvalidData "frame exceeds MAX_FRAME")).
Proof.
  intros Hcodec. unfold write_frame. split.
  - intros Hle.
    assert (∃ bytes, write_payload (to_vec message) = Ok bytes) as [bytes Hb].
    { unfold write_payload. destruct (Z.ltb_spec MAX_FRAME (Z.of_nat (length (to_vec message)))); [lia|].
      eauto. }
    exists bytes. split; [done|]. unfold read_message.
    rewrite (read_write_payload _ _ rest Hb). simpl. by rewrite Hcodec.
  - intros Hlt. unfold write_payload.
    by destruct (Z.ltb_spec MAX_FRAME (Z.of_nat (length (to_vec message)))); [|lia].
Qed.
End frames.

(** ** CPU lists *)

Lemma range_incl_single n : range_incl n n = [n].
Proof.
  unfold range_incl. replace (n + 1 - n) with 1 by lia. simpl. by rewrite N.add_0_r.
Qed.

Lemma range_incl_snoc first last :
  first ≤ last → range_incl first (last + 1) = range_incl first last ++ [last + 1].
Proof.
  intros H. unfold range_incl.
  replace (N.to_nat (last + 1 + 1 - first)) with (S (N.to_nat (last + 1 - first))) by lia.
  rewrite seq_S, fmap_app. simpl. do 2 f_equal. lia.
Qed.

(** [run_end] consumes exactly the numbers of an ascending run. *)
Lemma run_end_spec start last rest :
  start ≤ last → Forall (λ n, n < u32_max) (last :: rest) →
  let '(last', rest') := run_end last rest in
  last ≤ last' ∧ last' < u32_max ∧ Forall (λ n, n < u32_max) rest'
  ∧ range_incl start last ++ rest = range_incl start last' ++ rest'
  ∧ (length rest' ≤ length rest)%nat.
Proof.
  intros Hle Hall. revert last Hle Hall.
  induction rest as [|n rest IH]; intros last Hle Hall; simpl.
  { inversion_clear Hall. split_and!; [lia|done|done|done|lia]. }
  inversion_clear Hall as [|? ? Hlast Hrest]. inversion_clear Hrest as [|? ? Hn Hrest'].
  assert ((last + 1) mod 2 ^ 32 = last + 1) as Hmod.
  { apply N.mod_small. unfold u32_max in Hlast. change (2 ^ 32) with 4294967296 in *. lia. }
  rewrite Hmod. destruct (N.eqb_spec n (last + 1)) as [->|Hne].
  - specialize (IH (last + 1) ltac:(lia) ltac:(by constructor)).
    destruct (run_end (last + 1) rest) as [last' rest'].
    destruct IH as (? & ? & ? & Heq & ?). split_and!; [lia|done|done| |lia].
    rewrite <-Heq, range_incl_snoc by done. by rewrite <-app_assoc.
  - split_and!; [lia|done|by constructor|done|simpl; lia].
Qed.

(** A printed run is one part without a comma, and parses to the run. *)
Lemma render_run_part first last :
  all_chars (differs ",") (render_run first last) = true ∧ render_run first last ≠ "".
Proof.
  unfold render_run. destruct (first =? last).
  - split; [by apply pretty_differs|apply pretty_nonempty].
  - rewrite !all_chars_app. rewrite !pretty_differs by done. split; [done|].
    pose proof (pretty_nonempty first). by destruct (pretty first).
Qed.

Lemma parse_u32_pretty n : n < u32_max → parse_u32 (trim (pretty n)) = Some n.
Proof.
  intros Hn. rewrite trim_graphic by apply pretty_graphic.
  apply parse_uint_pretty. lia.
Qed.

Lemma parse_render_run cpus first last :
  first ≤ last → last < u32_max →
  parse_cpu_part cpus (render_run first last) = Ok (cpus ++ range_incl first last).
Proof.
  intros Hle Hmax. unfold parse_cpu_part, render_run.
  destruct (N.eqb_spec first last) as [->|Hne].
  - rewrite split_once_none by by apply pretty_differs. cbn [from_option id].
    rewrite parse_u32_pretty by done. simpl. by rewrite N.ltb_irrefl.
  - change ("-" +:+ pretty last) with (String "-" (pretty last)).
    rewrite split_once_app by by apply pretty_differs. cbn [from_option id].
    rewrite !parse_u32_pretty by lia. simpl.
    destruct (N.ltb_spec last first); [lia|done].
Qed.

(** The parts of a rendered list, separated by commas. *)
Fixpoint runs (fuel : nat) (nums : list N) : list string :=
  match fuel, nums with
  | S fuel, start :: rest =>
      let '(last, rest) := run_end start rest in render_run start last :: runs fuel rest
  | _, _ => []
  end.

Fixpoint join (parts : list string) : string :=
  match parts with
  | [] => ""
  | [p] => p
  | p :: parts => p +:+ String "," (join parts)
  end.

Lemma runs_parts fuel nums :
  Forall (λ p, all_chars (differs ",") p = true ∧ p ≠ "") (runs fuel nums).
Proof.
  revert nums. induction fuel as [|fuel IH]; intros [|start rest]; simpl; try constructor.
  destruct (run_end start rest) as [last rest']. constructor; [apply render_run_part|apply IH].
Qed.

Lemma render_loop_join fuel out nums :
  render_loop fuel out nums
  = match runs fuel nums with
    | [] => out
    | parts => if bool_decide (out = "") then join parts else out +:+ String "," (join parts)
    end.
Proof.
  revert out nums. induction fuel as [|fuel IH]; intros out [|start rest]; simpl; try done.
  destruct (run_end start rest) as [last rest']. rewrite IH.
  destruct (render_run_part start last) as [_ Hne].
  set (r := render_run start last) in *.
  assert (bool_decide (r = "") = false) as Hb by by apply bool_decide_eq_false_2.
  destruct (bool_decide (out = "")) eqn:Ho.
  - apply bool_decide_eq_true in Ho as ->. change ("" +:+ r) with r. rewrite Hb.
    by destruct (runs fuel rest').
  - rewrite str_app_assoc. change ("," +:+ r) with (String "," r).
    destruct (runs fuel rest') as [|p parts]; [done|].
    assert (bool_decide (out +:+ String "," r = "") = false) as ->.
    { apply bool_decide_eq_false_2. apply bool_decide_eq_false in Ho. by destruct out. }
    rewrite str_app_assoc. by rewrite str_app_cons.
Qed.

Lemma split_join parts :
  Forall (λ p, all_chars (differs ",") p = true ∧ p ≠ "") parts →
  List.filter (λ part, negb (bool_decide (part = ""))) (split_on "," (join parts)) = parts.
Proof.
  intros Hall. induction Hall as [|p parts [Hp Hne] Hall IH]; [done|].
  assert (negb (bool_decide (p = "")) = true) as Hb.
  { apply negb_true_iff. by apply bool_decide_eq_false_2. }
  destruct parts as [|q parts].
  - change (join [p]) with p. rewrite split_on_part by done. simpl. by rewrite Hb.
  - change (join (p :: q :: parts)) with (p +:+ String "," (join (q :: parts))).
    rewrite split_on_app by done. cbn [List.filter]. by rewrite Hb, IH.
Qed.

Lemma parse_runs fuel nums cpus :
  (length nums ≤ fuel)%nat → Forall (λ n, n < u32_max) nums →
  try_fold parse_cpu_part cpus (runs fuel nums) = Ok (cpus ++ nums).
Proof.
  revert nums cpus. induction fuel as [|fuel IH]; intros [|start rest] cpus Hlen Hall;
    simpl in *; rewrite ?app_nil_r; try done; [lia|].
  pose proof (run_end_spec start start rest ltac:(lia) Hall) as Hrun.
  destruct (run_end start rest) as [last rest'].
  destruct Hrun as (Hle & Hmax & Hrest & Heq & Hshort).
  cbn [try_fold]. rewrite parse_render_run by done. simpl.
  rewrite IH by (done || lia). rewrite <-app_assoc, <-Heq, range_incl_single. done.
Qed.

(** CPU lists round-trip: the text a placement is written to the cgroup
    with reads back, through the sysfs parser, as the same numbers in the same
    order (for numbers below the largest [u32]). *)
Theorem cpu_list_roundtrip (l : CpuList) :
  Forall (λ n, n < u32_max) (numbers l) →
  parse_cpu_list (render l) = Ok (numbers l).
Proof.
  intros Hall. unfold parse_cpu_list, render. rewrite render_loop_join.
  destruct (runs (length (numbers l)) (numbers l)) as [|p parts] eqn:Hruns.
  - simpl. destruct (numbers l) as [|n ns]; [done|].
    simpl in Hruns. by destruct (run_end n ns).
  - rewrite bool_decide_eq_true_2 by done.
    rewrite split_join by (rewrite <-Hruns; apply runs_parts).
    rewrite <-Hruns. by apply parse_runs.
Qed.

Lemma cpu_list_roundtrip_witness :
  render (mkCpuList [0; 1; 2; 3; 8; 10; 11]) = "0-3,8,10-11"
  ∧ parse_cpu_list (render (mkCpuList [0; 1; 2; 3; 8; 10; 11])) = Ok [0; 1; 2; 3; 8; 10; 11].
Proof.
  split; [vm_compute; reflexivity|].
  apply (cpu_list_roundtrip (mkCpuList [0; 1; 2; 3; 8; 10; 11])).
  repeat constructor; by vm_compute.
Defined.
