(* ===== verification/DeviceFilter.v ===== *)
(** The cgroup-device filter of src/crates/node/src/device_filter.rs.

    [compile] assembles an eBPF program from device rules; [run] is the
    evaluator the source gives for the emitted instruction subset.
    [encode] packs an instruction into the 64-bit word the system call takes,
    [AttrBlock] is the argument block of that call, and [enforce_devices]
    computes the rules of a lease from its devices, loads the compiled program
    and attaches it.  File metadata, the [bpf] system call and opening the
    cgroup directory are parameters: they belong to the operating system. *)

From S2P Require Import Prelude Words Protocol.

Local Open Scope Z_scope.

(** ** Constants of linux/bpf.h *)

Definition BPF_LDX_MEM_W : Z := 0x61.
Definition BPF_ALU32_MOV_IMM : Z := 0xb4.
Definition BPF_ALU32_AND_IMM : Z := 0x54.
Definition BPF_ALU32_RSH_IMM : Z := 0x74.
Definition BPF_JMP32_JNE_IMM : Z := 0x56.
Definition BPF_JA : Z := 0x05.
Definition BPF_EXIT : Z := 0x95.

Definition BPF_PROG_LOAD : Z := 5.
Definition BPF_PROG_ATTACH : Z := 8.
Definition BPF_PROG_TYPE_CGROUP_DEVICE : Z := 15.
Definition BPF_CGROUP_DEVICE : Z := 6.

Definition DEVCG_ACC_MKNOD : Z := 1.
Definition DEVCG_ACC_READ : Z := 2.
Definition DEVCG_ACC_WRITE : Z := 4.
Definition DEVCG_DEV_BLOCK : Z := 1.
Definition DEVCG_DEV_CHAR : Z := 2.

(** ** Rules and instructions *)

(** All fields are [u32]. *)
Record DeviceRule := mkDeviceRule {
  dev_type : Z;
  major : Z;
  minor : Z;
  access : Z;
}.

(** [code], [dst_reg], [src_reg : u8]; [off : i16]; [imm : i32]. *)
Record Insn := mkInsn {
  code : Z;
  dst_reg : Z;
  src_reg : Z;
  off : Z;
  imm : Z;
}.

Definition mov_imm (dst i : Z) : Insn := mkInsn BPF_ALU32_MOV_IMM dst 0 0 i.
Definition mov_reg (dst src : Z) : Insn := mkInsn 0xbf dst src 0 0.
Definition and_imm (dst i : Z) : Insn := mkInsn BPF_ALU32_AND_IMM dst 0 0 (as_i32 i).
Definition rsh_imm (dst i : Z) : Insn := mkInsn BPF_ALU32_RSH_IMM dst 0 0 (as_i32 i).
Definition load_ctx_word (dst byte_off : Z) : Insn :=
  mkInsn BPF_LDX_MEM_W dst 1 (as_i16 byte_off) 0.
Definition exit_insn : Insn := mkInsn BPF_EXIT 0 0 0 0.
Definition jne_imm (dst o i : Z) : Insn := mkInsn BPF_JMP32_JNE_IMM dst 0 o i.

(** ** The compiler *)

(** [Vec::len] as a number. *)
Definition zlen {A} (l : list A) : Z := Z.of_nat (length l).

(** The closure [jump_to]: offsets count from the following instruction. *)
Definition jump_to (from target : Z) : Z := as_i16 (target - from - 1).

Definition granted (rule : DeviceRule) : Z :=
  Z.land (access rule) (Z.lor (Z.lor DEVCG_ACC_READ DEVCG_ACC_WRITE) DEVCG_ACC_MKNOD).

(** The ten instructions pushed for one rule, starting at index [s]. *)
Definition rule_block (rule : DeviceRule) (s next_rule allow : Z) : list Insn :=
  let disallowed := not_word 32 (granted rule) in
  [ mov_reg 6 2;
    rsh_imm 6 16;
    and_imm 6 disallowed;
    jne_imm 6 (jump_to (s + 3) next_rule) 0;
    mov_reg 6 2;
    and_imm 6 0xffff;
    jne_imm 6 (jump_to (s + 6) next_rule) (as_i32 (dev_type rule));
    jne_imm 3 (jump_to (s + 7) next_rule) (as_i32 (major rule));
    jne_imm 4 (jump_to (s + 8) next_rule) (as_i32 (minor rule));
    mkInsn BPF_JA 0 0 (jump_to (s + 9) allow) 0 ].

(** The loop over [rules.iter().enumerate()]; [n] is [rules.len()]. *)
Fixpoint compile_rules (n allow deny i : Z) (prog : list Insn) (rules : list DeviceRule) :
    list Insn :=
  match rules with
  | [] => prog
  | rule :: rules =>
      let s := zlen prog in
      let next_rule := if i + 1 <? n then s + 10 else deny in
      compile_rules n allow deny (i + 1) (prog ++ rule_block rule s next_rule allow) rules
  end.

Definition compile (rules : list DeviceRule) : list Insn :=
  match rules with
  | [] => [mov_imm 0 0; exit_insn]
  | _ =>
      let prog := [load_ctx_word 2 0; load_ctx_word 3 4; load_ctx_word 4 8] in
      let allow := zlen prog + zlen rules * 10 in
      let deny := allow + 2 in
      compile_rules (zlen rules) allow deny 0 prog rules
        ++ [mov_imm 0 1; exit_insn; mov_imm 0 0; exit_insn]
  end.

(** ** The evaluator of the emitted subset

    Registers and context words are [u32]; indexing out of range panics, and
    so does an instruction the evaluator does not know.  The loop has no
    bound in the source; here it takes fuel. *)

Inductive outcome :=
| Returned (v : Z)
| Panicked
| OutOfFuel.

#[export] Instance outcome_eq_dec : EqDecision outcome.
Proof. solve_decision. Defined.

(** [v[i as usize]]: a negative index becomes a huge one. *)
Definition fetch_index {A} (v : list A) (i : Z) : option A :=
  if i <? 0 then None else v !! Z.to_nat i.

(** [v[i as usize] = x] *)
Definition store_index (v : list Z) (i x : Z) : option (list Z) :=
  _ ← fetch_index v i; Some (<[Z.to_nat i := x]> v).

Inductive step_result :=
| Next (regs : list Z) (pc : Z)
| Return (v : Z)
| Panic.

Definition next_of (regs : option (list Z)) (pc : Z) : step_result :=
  match regs with Some regs => Next regs pc | None => Panic end.

(** One iteration of the loop of [run]. *)
Definition run_step (prog : list Insn) (ctx regs : list Z) (pc : Z) : step_result :=
  match fetch_index prog pc with
  | None => Panic
  | Some insn =>
      if code insn =? BPF_LDX_MEM_W then
        next_of (v ← fetch_index ctx (off insn ÷ 4); store_index regs (dst_reg insn) v) (pc + 1)
      else if code insn =? 0xbf then
        next_of (v ← fetch_index regs (src_reg insn); store_index regs (dst_reg insn) v) (pc + 1)
      else if code insn =? BPF_ALU32_MOV_IMM then
        next_of (store_index regs (dst_reg insn) (as_u32 (imm insn))) (pc + 1)
      else if code insn =? BPF_ALU32_AND_IMM then
        next_of (v ← fetch_index regs (dst_reg insn);
                 store_index regs (dst_reg insn) (Z.land v (as_u32 (imm insn)))) (pc + 1)
      else if code insn =? BPF_ALU32_RSH_IMM then
        next_of (v ← fetch_index regs (dst_reg insn);
                 if in_unsigned 5 (imm insn)
                 then store_index regs (dst_reg insn) (Z.shiftr v (imm insn))
                 else None) (pc + 1)
      else if code insn =? BPF_JMP32_JNE_IMM then
        match fetch_index regs (dst_reg insn) with
        | None => Panic
        | Some v =>
            if v =? as_u32 (imm insn) then Next regs (pc + 1)
            else Next regs (pc + (off insn + 1))
        end
      else if code insn =? BPF_JA then Next regs (pc + off insn + 1)
      else if code insn =? BPF_EXIT then
        match fetch_index regs 0 with Some v => Return v | None => Panic end
      else Panic
  end.

Fixpoint run_loop (fuel : nat) (prog : list Insn) (ctx regs : list Z) (pc : Z) : outcome :=
  match fuel with
  | O => OutOfFuel
  | S fuel =>
      match run_step prog ctx regs pc with
      | Next regs pc => run_loop fuel prog ctx regs pc
      | Return v => Returned v
      | Panic => Panicked
      end
  end.

Definition run (fuel : nat) (prog : list Insn) (access_type maj min : Z) : outcome :=
  run_loop fuel prog [access_type; maj; min] (replicate 11 0) 0.

(** The context word of a request: flags above, device type below. *)
Definition ctx_of (flags ty : Z) : Z := Z.lor (Z.shiftl flags 16) ty.

(** ** Encoding *)

Definition encode (insn : Insn) : Z :=
  Z.lor (Z.lor (Z.lor (Z.lor
    (code insn)
    (Z.shiftl (Z.land (dst_reg insn) 0xf) 8))
    (Z.shiftl (Z.land (src_reg insn) 0xf) 12))
    (Z.shiftl (as_u16 (off insn)) 16))
    (Z.shiftl (as_u32 (imm insn)) 32).

(** ** The argument block of the system call: sixteen 64-bit words *)

Definition AttrBlock : Type := list Z.

Definition attr_zeroed : AttrBlock := replicate 16 0.

(** An offset past the block panics in the source; the block is unchanged
    here, and every offset the source passes is a constant below 128. *)
Definition write_u32 (attr : AttrBlock) (offset : nat) (value : Z) : AttrBlock :=
  let shift := Z.of_nat (offset mod 8 * 8)%nat in
  alter (λ word,
    Z.lor (Z.land word (not_word 64 (as_u64 (Z.shiftl 0xffffffff shift))))
          (as_u64 (Z.shiftl value shift))) (offset / 8)%nat attr.

Definition write_u64 (attr : AttrBlock) (offset : nat) (value : Z) : AttrBlock :=
  alter (λ _, value) (offset / 8)%nat attr.

(** ** Device numbers *)

Definition S_IFMT : Z := 0xf000.
Definition S_IFCHR : Z := 0x2000.
Definition S_IFBLK : Z := 0x6000.

(** [fs::metadata]: the mode ([u32]) and device number ([u64]) of a path. *)
Record Metadata := mkMetadata { mode : Z; rdev : Z }.

Section system.
Context (metadata : string → option Metadata).

Definition device_numbers (path : string) : option (bool * Z * Z) :=
  meta ← metadata path;
  let is_char := Z.land (mode meta) S_IFMT =? S_IFCHR in
  let is_block := Z.land (mode meta) S_IFMT =? S_IFBLK in
  if negb is_char && negb is_block then None
  else
    let dev := rdev meta in
    let maj := Z.lor (Z.land (Z.shiftr dev 8) 0xfff)
                     (Z.land (Z.shiftr dev 32) (not_word 64 0xfff)) in
    let min := Z.lor (Z.land dev 0xff)
                     (Z.land (Z.shiftr dev 12) (not_word 64 0xff)) in
    Some (is_char, as_u32 maj, as_u32 min).

Definition device_key (numbers : bool * Z * Z) : Z * Z * Z :=
  let '(is_char, maj, min) := numbers in
  (if is_char then DEVCG_DEV_CHAR else DEVCG_DEV_BLOCK, maj, min).

Definition rule_of (key : Z * Z * Z) (acc : Z) : DeviceRule :=
  let '(ty, maj, min) := key in mkDeviceRule ty maj min acc.

(** The set [claimed] of keys seen and the rules pushed so far. *)
Definition RuleSet : Type := (gset (Z * Z * Z) * list DeviceRule)%type.

(** [if claimed.insert(key) { rules.push(...) }] *)
Definition push_rule (acc : Z) (st : RuleSet) (key : Z * Z * Z) : RuleSet :=
  let '(claimed, rules) := st in
  if decide (key ∈ claimed) then st
  else ({[key]} ∪ claimed, rules ++ [rule_of key acc]).

Definition pseudo_devices : list string :=
  ["/dev/null"; "/dev/zero"; "/dev/full"; "/dev/random"; "/dev/urandom"].

Definition push_pseudo (st : RuleSet) (path : string) : RuleSet :=
  match device_numbers path with
  | Some numbers => push_rule (Z.lor DEVCG_ACC_READ DEVCG_ACC_WRITE) st (device_key numbers)
  | None => st
  end.

Definition unreachable_device (device : DeviceAccess) (path : string) : string :=
  "device " +:+ da_id device +:+ " (" +:+ path +:+ ") is not reachable or not a device node".

Definition push_claimed (device : DeviceAccess) (st : RuleSet) (path : string) :
    result string RuleSet :=
  match device_numbers path with
  | None => Err (unreachable_device device path)
  | Some numbers =>
      Ok (push_rule (Z.lor (Z.lor DEVCG_ACC_READ DEVCG_ACC_WRITE) DEVCG_ACC_MKNOD)
            st (device_key numbers))
  end.

Definition push_device (st : RuleSet) (device : DeviceAccess) : result string RuleSet :=
  try_fold (push_claimed device) st (da_dev device :: da_paths device).

(** The rules [enforce_devices] compiles. *)
Definition device_rules (devices : list DeviceAccess) : result string (list DeviceRule) :=
  let st := foldl push_pseudo (∅, []) pseudo_devices in
  st ← try_fold push_device st devices;
  Ok st.2.

(** ** Loading and attaching

    The world the system calls act on is abstract.  [bpf] takes the command
    and the argument block; addresses are what the allocator returned. *)
Context {W : Type} (bpf : W → Z → AttrBlock → W * result string Z).
Context (open_dir : W → string → W * result string Z).
Context (insns_ptr license_ptr log_ptr : Z).
(** The verifier log in the buffer after a failed call, trimmed. *)
Context (log_text : W → string).

(** [load_program] panics ([unwrap_err]) when the retry succeeds. *)
Inductive load_result :=
| Loaded (fd : Z)
| LoadError (what : string)
| LoadPanic.

Definition load_attr (prog : list Insn) : AttrBlock :=
  let attr := attr_zeroed in
  let attr := write_u32 attr 0 (as_u32 BPF_PROG_TYPE_CGROUP_DEVICE) in
  let attr := write_u32 attr 4 (as_u32 (zlen prog)) in
  let attr := write_u64 attr 8 (as_u64 insns_ptr) in
  let attr := write_u64 attr 16 (as_u64 license_ptr) in
  write_u32 attr 68 (as_u32 BPF_CGROUP_DEVICE).

Definition log_attr (attr : AttrBlock) : AttrBlock :=
  let attr := write_u32 attr 24 1 in
  let attr := write_u32 attr 28 (as_u32 (64 * 1024)) in
  write_u64 attr 32 (as_u64 log_ptr).

Definition load_program (w : W) (prog : list Insn) : W * load_result :=
  let attr := load_attr prog in
  let '(w, r) := bpf w BPF_PROG_LOAD attr in
  match r with
  | Ok fd => (w, Loaded (as_i32 fd))
  | Err _ =>
      let '(w, r) := bpf w BPF_PROG_LOAD (log_attr attr) in
      match r with
      | Ok _ => (w, LoadPanic)
      | Err e => (w, LoadError ("bpf(BPF_PROG_LOAD, cgroup_device): " +:+ e +:+ ": "
                                +:+ log_text w))
      end
  end.

Definition attach_attr (target_fd prog_fd : Z) : AttrBlock :=
  let attr := attr_zeroed in
  let attr := write_u32 attr 0 (as_u32 target_fd) in
  let attr := write_u32 attr 4 (as_u32 prog_fd) in
  write_u32 attr 8 (as_u32 BPF_CGROUP_DEVICE).

Definition attach_to_cgroup (w : W) (prog_fd : Z) (cgroup_path : string) :
    W * result string unit :=
  let '(w, r) := open_dir w cgroup_path in
  match r with
  | Err e => (w, Err ("open " +:+ cgroup_path +:+ ": " +:+ e))
  | Ok target =>
      let '(w, r) := bpf w BPF_PROG_ATTACH (attach_attr target prog_fd) in
      (w, match r with Ok _ => Ok () | Err e => Err e end)
  end.

(** [None] is a panic. *)
Definition install (w : W) (cgroup_path : string) (prog : list Insn) :
    W * option (result string unit) :=
  let '(w, r) := load_program w prog in
  match r with
  | LoadPanic => (w, None)
  | LoadError e => (w, Some (Err e))
  | Loaded fd => let '(w, r) := attach_to_cgroup w fd cgroup_path in (w, Some r)
  end.

Definition enforce_devices (w : W) (cgroup_path : string) (devices : list DeviceAccess) :
    W * option (result string unit) :=
  match device_rules devices with
  | Err e => (w, Some (Err e))
  | Ok rules => install w cgroup_path (compile rules)
  end.

Definition probe (w : W) (cgroup_path : string) : W * option (result string unit) :=
  install w cgroup_path (compile []).
End system.
