(* ===== verification/DeviceFilterFacts.v ===== *)
(** What the device filter does: the compiled program terminates and decides
    exactly the rules it was compiled from; the rules of a lease are its
    devices and the pseudo-devices; encodings lose nothing. *)

From S2P Require Import Prelude Words Protocol DeviceFilter.

Local Open Scope Z_scope.

(** ** The reference: what a rule permits *)

(** Every requested flag is granted and is one of the three flags there are;
    type and numbers are the rule's. *)
Definition permits (rule : DeviceRule) (flags ty maj min : Z) : Prop :=
  (∀ b, 0 ≤ b → Z.testbit flags b = true → b < 3 ∧ Z.testbit (access rule) b = true)
  ∧ ty = dev_type rule ∧ maj = major rule ∧ min = minor rule.

(** The fields are [u32]. *)
Definition rule_u32 (rule : DeviceRule) : Prop :=
  0 ≤ dev_type rule < 2 ^ 32 ∧ 0 ≤ major rule < 2 ^ 32
  ∧ 0 ≤ minor rule < 2 ^ 32 ∧ 0 ≤ access rule < 2 ^ 32.

(** The test the ten instructions of a rule compute. *)
Definition matches (rule : DeviceRule) (acc maj min : Z) : bool :=
  (Z.land (Z.shiftr acc 16) (not_word 32 (granted rule)) =? 0)
  && (Z.land acc 0xffff =? dev_type rule) && (maj =? major rule) && (min =? minor rule).

Lemma granted_bits rule b :
  0 ≤ b → Z.testbit (granted rule) b = (b <? 3) && Z.testbit (access rule) b.
Proof.
  intros Hb. unfold granted. rewrite Z.land_spec, andb_comm. f_equal.
  change (Z.lor _ _) with (Z.ones 3). by apply testbit_ones.
Qed.

Lemma subset_granted rule flags :
  0 ≤ flags < 2 ^ 16 →
  Z.land flags (not_word 32 (granted rule)) = 0 ↔
  ∀ b, 0 ≤ b → Z.testbit flags b = true → b < 3 ∧ Z.testbit (access rule) b = true.
Proof.
  intros Hf. split.
  - intros H0 b Hb Hfb.
    assert (b < 16) by (destruct (Z.ltb_spec b 16); [done|];
      by rewrite (testbit_small 16) in Hfb by lia).
    apply (f_equal (λ z, Z.testbit z b)) in H0.
    unfold not_word in H0. rewrite Z.land_spec, Hfb, testbit_as_unsigned, Z.lnot_spec,
      granted_bits, Z.bits_0 in H0 by lia.
    destruct (Z.ltb_spec b 32); [|lia]. destruct (Z.ltb_spec b 3); [|done].
    by destruct (Z.testbit (access rule) b).
  - intros Hsub. apply Z.bits_inj'. intros b Hb.
    unfold not_word. rewrite Z.land_spec, testbit_as_unsigned, Z.lnot_spec, granted_bits,
      Z.bits_0 by lia.
    destruct (Z.testbit flags b) eqn:Hfb; [|done].
    destruct (Hsub b Hb Hfb) as [Hb3 ->]. apply Z.ltb_lt in Hb3. rewrite Hb3.
    by rewrite andb_false_r.
Qed.

Lemma ctx_of_flags flags ty : 0 ≤ ty < 2 ^ 16 → Z.shiftr (ctx_of flags ty) 16 = flags.
Proof. intros Hty. unfold ctx_of. bits. Qed.

Lemma ctx_of_type flags ty : 0 ≤ ty < 2 ^ 16 → Z.land (ctx_of flags ty) 0xffff = ty.
Proof. intros Hty. unfold ctx_of. change 0xffff with (Z.ones 16). bits. Qed.

Lemma matches_permits rule flags ty maj min :
  0 ≤ flags < 2 ^ 16 → 0 ≤ ty < 2 ^ 16 →
  matches rule (ctx_of flags ty) maj min = true ↔ permits rule flags ty maj min.
Proof.
  intros Hf Ht. unfold matches, permits.
  rewrite !andb_true_iff, !Z.eqb_eq, ctx_of_flags, ctx_of_type by done.
  rewrite subset_granted by done. tauto.
Qed.

(** ** One instruction at a time

    While the rule blocks run, only register 6 changes. *)

Definition frame (acc maj min r6 : Z) : list Z := [0; 0; acc; maj; min; 0; r6; 0; 0; 0; 0].

Section machine.
Context (prog : list Insn) (ctx : list Z) (acc maj min : Z).

Local Abbreviation at_pc pc insn := (fetch_index prog pc = Some insn) (only parsing).
Local Abbreviation step := (run_step prog ctx) (only parsing).
Local Abbreviation regs := (frame acc maj min) (only parsing).

Ltac exec H := unfold run_step; rewrite H; reflexivity.

Lemma step_mov r pc : at_pc pc (mov_reg 6 2) → step (regs r) pc = Next (regs acc) (pc + 1).
Proof. intros H. exec H. Qed.

Lemma step_rsh r pc : at_pc pc (rsh_imm 6 16) →
  step (regs r) pc = Next (regs (Z.shiftr r 16)) (pc + 1).
Proof. intros H. exec H. Qed.

Lemma step_and r i pc : 0 ≤ i < 2 ^ 32 → at_pc pc (and_imm 6 i) →
  step (regs r) pc = Next (regs (Z.land r i)) (pc + 1).
Proof.
  intros Hi H. unfold run_step. rewrite H. cbn -[as_i32 as_u32 Z.land].
  unfold as_i32, as_u32. by rewrite as_unsigned_as_signed, as_unsigned_small by lia.
Qed.

(** A conditional jump on register [d] holding [v]. *)
Lemma step_jne d v r o i pc :
  fetch_index (regs r) d = Some v → 0 ≤ i < 2 ^ 32 →
  at_pc pc (jne_imm d o (as_i32 i)) →
  step (regs r) pc = Next (regs r) (if v =? i then pc + 1 else pc + (o + 1)).
Proof.
  intros Hd Hi H. unfold run_step. rewrite H. cbn -[as_i32 as_u32 fetch_index frame].
  rewrite Hd. unfold as_i32, as_u32.
  rewrite as_unsigned_as_signed, as_unsigned_small by lia. by destruct (v =? i).
Qed.

Lemma step_ja r o pc : at_pc pc (mkInsn BPF_JA 0 0 o 0) →
  step (regs r) pc = Next (regs r) (pc + o + 1).
Proof. intros H. exec H. Qed.

(** [k] turns of the loop lead from one state to another, whatever follows. *)
Definition leads (k : nat) (r pc r' pc' : Z) : Prop :=
  ∀ fuel, run_loop (k + fuel) prog ctx (regs r) pc = run_loop fuel prog ctx (regs r') pc'.

Lemma leads_refl r pc : leads 0 r pc r pc.
Proof. done. Qed.

Lemma leads_step k r pc r1 pc1 r' pc' :
  step (regs r) pc = Next (regs r1) pc1 → leads k r1 pc1 r' pc' → leads (S k) r pc r' pc'.
Proof. intros Hs Hk fuel. cbn [Nat.add run_loop]. rewrite Hs. apply Hk. Qed.

Lemma leads_trans k1 k2 r pc r1 pc1 r' pc' :
  leads k1 r pc r1 pc1 → leads k2 r1 pc1 r' pc' → leads (k1 + k2) r pc r' pc'.
Proof. intros H1 H2 fuel. rewrite <-Nat.add_assoc, H1. apply H2. Qed.

(** ** One rule block *)

Definition code_at (s : Z) (blk : list Insn) : Prop :=
  ∀ k insn, blk !! k = Some insn → fetch_index prog (s + Z.of_nat k) = Some insn.

Lemma code_at_app s b1 b2 : code_at s (b1 ++ b2) → code_at s b1 ∧ code_at (s + zlen b1) b2.
Proof.
  intros H. split; intros k insn Hk.
  - apply H. by apply lookup_app_l_Some.
  - replace (s + zlen b1 + Z.of_nat k) with (s + Z.of_nat (length b1 + k))
      by (unfold zlen; lia).
    apply H. by rewrite lookup_app_r, Nat.add_sub' by lia.
Qed.

(** The jump distances a block uses fit in [i16]. *)
Definition reaches (s target : Z) : Prop := s + 10 ≤ target ≤ s + 10 + 32767.

Lemma jump_to_target s k target :
  0 ≤ k → k < 10 → reaches s target → target < s + k + 1 + 2 ^ 15 →
  jump_to (s + k) target = target - (s + k) - 1.
Proof.
  intros Hk Hk10 [? ?] Hlt. unfold jump_to, as_i16. apply as_signed_small; lia.
Qed.

(** Where the block of [rule] at [s] continues. *)
Definition block_target (rule : DeviceRule) (s next_rule allow : Z) : Z :=
  if matches rule acc maj min then s + 9 + jump_to (s + 9) allow + 1 else next_rule.

(** Follow [n] known steps. *)
Tactic Notation "walk" integer(n) :=
  eexists _, _; split; cycle 1;
    [ do n (eapply leads_step; [eassumption|]); apply leads_refl | lia ].

Lemma block_leads rule s next_rule allow r :
  rule_u32 rule →
  code_at s (rule_block rule s next_rule allow) →
  s + 10 ≤ next_rule ≤ s + 100 →
  ∃ k r', (k ≤ 10)%nat ∧ leads k r s r' (block_target rule s next_rule allow).
Proof.
  intros (Hty & Hmaj & Hmin & _) Hcode Hnext.
  assert (Hfetch : ∀ k insn, rule_block rule s next_rule allow !! k = Some insn →
    fetch_index prog (s + Z.of_nat k) = Some insn) by apply Hcode.
  assert (Hj : ∀ k, 0 ≤ k → k < 10 →
    s + k + (jump_to (s + k) next_rule + 1) = next_rule).
  { intros k ? ?. rewrite jump_to_target by (unfold reaches; lia). lia. }
  set (i0 := not_word 32 (granted rule)).
  assert (Hi0 : 0 ≤ i0 < 2 ^ 32) by (apply as_unsigned_in; lia).
  pose proof (step_mov r (s + 0) (Hfetch 0%nat _ eq_refl)) as S0.
  pose proof (step_rsh acc (s + 1) (Hfetch 1%nat _ eq_refl)) as S1.
  pose proof (step_and (Z.shiftr acc 16) i0 (s + 2) Hi0 (Hfetch 2%nat _ eq_refl)) as S2.
  pose proof (step_jne 6 _ (Z.land (Z.shiftr acc 16) i0) _ 0 (s + 3)
                eq_refl ltac:(lia) (Hfetch 3%nat _ eq_refl)) as S3.
  pose proof (step_mov (Z.land (Z.shiftr acc 16) i0) (s + 4) (Hfetch 4%nat _ eq_refl)) as S4.
  pose proof (step_and acc 0xffff (s + 5) ltac:(lia) (Hfetch 5%nat _ eq_refl)) as S5.
  pose proof (step_jne 6 _ (Z.land acc 0xffff) _ _ (s + 6) eq_refl Hty
                (Hfetch 6%nat _ eq_refl)) as S6.
  pose proof (step_jne 3 _ (Z.land acc 0xffff) _ _ (s + 7) eq_refl Hmaj
                (Hfetch 7%nat _ eq_refl)) as S7.
  pose proof (step_jne 4 _ (Z.land acc 0xffff) _ _ (s + 8) eq_refl Hmin
                (Hfetch 8%nat _ eq_refl)) as S8.
  pose proof (step_ja (Z.land acc 0xffff) _ (s + 9) (Hfetch 9%nat _ eq_refl)) as S9.
  rewrite Hj in S3, S6, S7, S8 by lia.
  replace (s + 0) with s in S0 by lia.
  rewrite <-!Z.add_assoc in S1, S2, S3, S4, S5, S6, S7, S8.
  cbn [Z.add Pos.add Pos.succ] in S1, S2, S3, S4, S5, S6, S7, S8.
  unfold block_target, matches. fold i0.
  destruct (Z.land (Z.shiftr acc 16) i0 =? 0); cbn [andb]; [|walk 4].
  destruct (Z.land acc 0xffff =? dev_type rule); cbn [andb]; [|walk 7].
  destruct (maj =? major rule); cbn [andb]; [|walk 8].
  destruct (min =? minor rule); [walk 10|walk 9].
Qed.

(** ** All rule blocks *)

(** What [compile_rules] appends, with the start of each block explicit. *)
Fixpoint blocks (n allow deny i s : Z) (rules : list DeviceRule) : list Insn :=
  match rules with
  | [] => []
  | rule :: rules =>
      rule_block rule s (if i + 1 <? n then s + 10 else deny) allow
        ++ blocks n allow deny (i + 1) (s + 10) rules
  end.

Lemma blocks_lead n allow deny i s rules r :
  rules ≠ [] → Forall rule_u32 rules →
  i + zlen rules = n → s = 3 + 10 * i → 0 ≤ i →
  allow = 3 + 10 * n → deny = allow + 2 → n ≤ 3277 →
  code_at s (blocks n allow deny i s rules) →
  ∃ k r', (k ≤ 10 * length rules)%nat
    ∧ leads k r s r' (if existsb (λ rule, matches rule acc maj min) rules then allow else deny).
Proof.
  intros Hne Hall. revert i s r Hne. induction Hall as [|rule rules Hrule Hall IH];
    intros i s r Hne Hn Hs Hi Ha Hd Hmax Hcode; [done|].
  unfold zlen in *. cbn [blocks length existsb] in *.
  apply code_at_app in Hcode as [Hblk Hrest].
  destruct (block_leads rule s _ allow r Hrule Hblk) as (k & r1 & Hk & Hlead).
  { destruct (Z.ltb_spec (i + 1) n); lia. }
  unfold block_target in Hlead. rewrite jump_to_target in Hlead by (unfold reaches; lia).
  replace (s + 9 + (allow - (s + 9) - 1) + 1) with allow in Hlead by lia. destruct (matches rule acc maj min); cbn [orb].
  { exists k, r1. split; [lia|done]. }
  destruct rules as [|rule' rules'].
  { exists k, r1. split; [lia|]. destruct (Z.ltb_spec (i + 1) n); [cbn [length] in Hn; lia|done]. }
  destruct (IH (i + 1) (s + 10) r1) as (k' & r2 & Hk' & Hlead'); try done; try lia.
  exists (k + k')%nat, r2. split; [lia|].
  destruct (Z.ltb_spec (i + 1) n); [|cbn [length] in Hn; lia]. by eapply leads_trans.
Qed.
End machine.

Lemma compile_rules_blocks n allow deny i prog rules :
  compile_rules n allow deny i prog rules = prog ++ blocks n allow deny i (zlen prog) rules.
Proof.
  revert i prog. induction rules as [|rule rules IH]; intros i prog; cbn [compile_rules blocks].
  - by rewrite app_nil_r.
  - rewrite IH, <-app_assoc. cbv zeta. do 3 f_equal. unfold zlen. rewrite length_app.
    cbn [rule_block length]. lia.
Qed.

Lemma blocks_length n allow deny i s rules :
  length (blocks n allow deny i s rules) = (10 * length rules)%nat.
Proof.
  revert i s. induction rules as [|rule rules IH]; intros i s; [done|].
  cbn [blocks length]. rewrite length_app, IH. simpl. lia.
Qed.

Lemma code_at_middle pre blk post : code_at (pre ++ blk ++ post) (zlen pre) blk.
Proof.
  intros k insn Hk. unfold fetch_index, zlen.
  destruct (Z.ltb_spec (Z.of_nat (length pre) + Z.of_nat k) 0); [lia|].
  replace (Z.to_nat _) with (length pre + k)%nat by lia.
  rewrite lookup_app_r, Nat.add_sub' by lia. by apply lookup_app_l_Some.
Qed.

(** Fuel beyond what a run needs changes nothing. *)
Lemma run_loop_more fuel extra prog ctx regs pc v :
  run_loop fuel prog ctx regs pc = Returned v →
  run_loop (fuel + extra) prog ctx regs pc = Returned v.
Proof.
  revert regs pc. induction fuel as [|fuel IH]; intros regs pc; simpl; [done|].
  destruct (run_step prog ctx regs pc); auto.
Qed.

Lemma run_more fuel extra prog acc maj min v :
  run fuel prog acc maj min = Returned v → run (fuel + extra) prog acc maj min = Returned v.
Proof. apply run_loop_more. Qed.

Lemma compile_nonempty rules :
  rules ≠ [] →
  compile rules =
    [load_ctx_word 2 0; load_ctx_word 3 4; load_ctx_word 4 8]
    ++ blocks (zlen rules) (3 + zlen rules * 10) (3 + zlen rules * 10 + 2) 0 3 rules
    ++ [mov_imm 0 1; exit_insn; mov_imm 0 0; exit_insn].
Proof.
  intros Hne. destruct rules as [|rule rules]; [done|].
  unfold compile. set (l := [_; _; _]). change (zlen l) with 3. cbv zeta.
  rewrite compile_rules_blocks. symmetry. apply app_assoc.
Qed.

(** The prologue loads the context into registers 2, 3 and 4. *)
Lemma run_prologue fuel rest acc maj min :
  let prog := [load_ctx_word 2 0; load_ctx_word 3 4; load_ctx_word 4 8] ++ rest in
  run (3 + fuel) prog acc maj min
  = run_loop fuel prog [acc; maj; min] (frame acc maj min 0) 3.
Proof. done. Qed.

(** The epilogue: allow at its first instruction, deny at its third. *)
Lemma run_epilogue fuel pre ctx acc maj min r (b : bool) :
  let prog := pre ++ [mov_imm 0 1; exit_insn; mov_imm 0 0; exit_insn] in
  run_loop (2 + fuel) prog ctx (frame acc maj min r) (zlen pre + (if b then 0 else 2))
  = Returned (if b then 1 else 0).
Proof.
  intros prog.
  assert (Hat : ∀ k insn, [mov_imm 0 1; exit_insn; mov_imm 0 0; exit_insn] !! k = Some insn →
    fetch_index prog (zlen pre + Z.of_nat k) = Some insn).
  { intros k insn Hk. pose proof (code_at_middle pre _ [] k insn Hk) as H.
    by rewrite app_nil_r in H. }
  set (v := if b then 1 else 0).
  assert (∃ pc, zlen pre + (if b then 0 else 2) = pc ∧ fetch_index prog pc = Some (mov_imm 0 v)
    ∧ fetch_index prog (pc + 1) = Some exit_insn) as (pc & -> & Hmov & Hexit).
  { eexists. split; [done|]. rewrite <-Z.add_assoc. destruct b.
    - split; [exact (Hat 0%nat _ eq_refl) | exact (Hat 1%nat _ eq_refl)].
    - split; [exact (Hat 2%nat _ eq_refl) | exact (Hat 3%nat _ eq_refl)]. }
  assert (run_step prog ctx (frame acc maj min r) pc = Next (v :: tail (frame acc maj min r)) (pc + 1))
    as Hs by (unfold run_step; rewrite Hmov; by destruct b).
  assert (run_step prog ctx (v :: tail (frame acc maj min r)) (pc + 1) = Return v)
    as Hr by (unfold run_step; rewrite Hexit; done).
  cbn [Nat.add run_loop]. by rewrite Hs, Hr.
Qed.

(** The compiled program computes [matches] on any context word. *)
Lemma run_compile rules acc maj min fuel :
  Forall rule_u32 rules → (length rules ≤ 3277)%nat →
  (10 * length rules + 5 ≤ fuel)%nat →
  run fuel (compile rules) acc maj min
  = Returned (if existsb (λ rule, matches rule acc maj min) rules then 1 else 0).
Proof.
  intros Hall Hlen Hfuel. destruct (decide (rules = [])) as [->|Hne].
  { do 2 (destruct fuel as [|fuel]; [simpl in *; lia|]). done. }
  set (n := zlen rules).
  set (blks := blocks n (3 + n * 10) (3 + n * 10 + 2) 0 3 rules).
  pose proof (compile_nonempty rules Hne) as Hprog. fold n blks in Hprog.
  set (prog := compile rules) in *.
  destruct (blocks_lead prog [acc; maj; min] acc maj min n (3 + n * 10) (3 + n * 10 + 2)
              0 3 rules 0) as (k & r & Hk & Hlead); try done; try (unfold n, zlen; lia).
  { rewrite Hprog. apply (code_at_middle [_; _; _] blks). }
  replace fuel with ((3 + (k + 2)) + (fuel - (3 + (k + 2))))%nat by lia.
  apply run_more. rewrite Hprog, run_prologue, <-Hprog, (Hlead 2%nat), Hprog, app_assoc.
  pose proof (run_epilogue 0 ([load_ctx_word 2 0; load_ctx_word 3 4; load_ctx_word 4 8] ++ blks)
    [acc; maj; min] acc maj min r (existsb (λ rule, matches rule acc maj min) rules)) as He.
  cbv zeta in He. rewrite <-He. f_equal.
  unfold zlen at 1. rewrite length_app. unfold blks. rewrite blocks_length. unfold n, zlen.
  destruct (existsb _ rules); simpl length; lia.
Qed.


Lemma filter_decides rules flags ty maj min fuel :
  Forall rule_u32 rules → (length rules ≤ 3277)%nat →
  0 ≤ flags < 2 ^ 16 → 0 ≤ ty < 2 ^ 16 →
  (10 * length rules + 5 ≤ fuel)%nat →
  (Exists (λ rule, permits rule flags ty maj min) rules
   ∧ run fuel (compile rules) (ctx_of flags ty) maj min = Returned 1)
  ∨ (¬ Exists (λ rule, permits rule flags ty maj min) rules
   ∧ run fuel (compile rules) (ctx_of flags ty) maj min = Returned 0).
Proof.
  intros Hall Hlen Hf Ht Hfuel. rewrite run_compile by done.
  assert (existsb (λ rule, matches rule (ctx_of flags ty) maj min) rules = true
    ↔ Exists (λ rule, permits rule flags ty maj min) rules) as Hiff.
  { rewrite existsb_exists, Exists_exists. setoid_rewrite matches_permits; [|done..].
    setoid_rewrite list_elem_of_In. done. }
  destruct (existsb _ rules); [left|right]; split; [by apply Hiff|done| |done].
  intros H%Hiff. done.
Qed.

(** *** Past the range of a jump *)

Lemma run_loop_negative fuel prog ctx regs pc :
  pc < 0 → run_loop (S fuel) prog ctx regs pc = Panicked.
Proof.
  intros Hpc. cbn [run_loop]. unfold run_step, fetch_index.
  by destruct (Z.ltb_spec pc 0); [|lia].
Qed.

(** The jump distance of the first block wraps to a negative one. *)
Lemma escaping_jump n : 3278 ≤ n ≤ 6553 → 12 + jump_to 12 (3 + n * 10) + 1 < 0.
Proof.
  intros Hn. unfold jump_to, as_i16, as_signed.
  replace (3 + n * 10 - 12 - 1 + 2 ^ (16 - 1)) with (10 * n - 32778 + 1 * 2 ^ 16) by lia.
  rewrite Z.mod_add, Z.mod_small by lia. lia.
Qed.

Lemma first_match_escapes rule rules acc maj min fuel :
  rule_u32 rule → matches rule acc maj min = true →
  3278 ≤ zlen (rule :: rules) ≤ 6553 → (14 ≤ fuel)%nat →
  run fuel (compile (rule :: rules)) acc maj min = Panicked.
Proof.
  intros Hrule Hm Hlen Hfuel.
  pose proof (compile_nonempty (rule :: rules) ltac:(done)) as Hprog.
  set (n := zlen (rule :: rules)) in *.
  assert (3278 ≤ n ≤ 6553) as Hn by done.
  set (prog := compile (rule :: rules)) in *.
  destruct (block_leads prog [acc; maj; min] acc maj min rule 3 13 (3 + n * 10) 0)
    as (k & r & Hk & Hlead); [done| |lia|].
  { cbn [blocks] in Hprog. change (3 + 10) with 13 in Hprog.
    destruct (Z.ltb_spec (0 + 1) n); [|lia].
    rewrite Hprog, <-(app_assoc (rule_block _ _ _ _)). apply (code_at_middle [_; _; _]). }
  unfold block_target in Hlead. rewrite Hm in Hlead.
  replace fuel with (3 + (k + S (fuel - (3 + (k + 1)))))%nat by lia.
  rewrite Hprog, run_prologue, <-Hprog, Hlead. by apply run_loop_negative, escaping_jump.
Qed.

(** ** Rules of a lease *)

Lemma mapM_option_app {A B} (f : A → option B) l k :
  mapM f (l ++ k) = l' ← mapM f l; k' ← mapM f k; Some (l' ++ k').
Proof.
  induction l as [|x l IH]; simpl; [by destruct (mapM f k)|].
  destruct (f x); simpl; [|done]. rewrite IH.
  destruct (mapM f l); simpl; [|done]. by destruct (mapM f k).
Qed.

Lemma omap_length_le {A B} (f : A → option B) l : (length (omap f l) ≤ length l)%nat.
Proof.
  induction l as [|x l IH]; [done|].
  change (omap f (x :: l)) with (match f x with Some y => y :: omap f l | None => omap f l end).
  destruct (f x); cbn [length]; lia.
Qed.

Section rules.
Context (metadata : string → option Metadata).

Definition path_key (path : string) : option (Z * Z * Z) :=
  device_key <$> device_numbers metadata path.

Definition key_of (rule : DeviceRule) : Z * Z * Z := (dev_type rule, major rule, minor rule).

(** Every path the lease's devices name. *)
Definition claimed_paths (devices : list DeviceAccess) : list string :=
  d ← devices; da_dev d :: da_paths d.

Definition push_all (acc : Z) : RuleSet → list (Z * Z * Z) → RuleSet := foldl (push_rule acc).

Lemma push_rule_claimed acc st key : (push_rule acc st key).1 = {[key]} ∪ st.1.
Proof. destruct st as [c l]. unfold push_rule. case_decide; simpl; set_solver. Qed.

Lemma push_rule_rules acc st key r :
  r ∈ (push_rule acc st key).2 ↔ r ∈ st.2 ∨ ((key ∉ st.1) ∧ r = rule_of key acc).
Proof.
  destruct st as [c l]. unfold push_rule. case_decide; simpl.
  - tauto.
  - rewrite elem_of_app, list_elem_of_singleton. tauto.
Qed.

Lemma push_all_claimed acc st keys : (push_all acc st keys).1 = list_to_set keys ∪ st.1.
Proof.
  revert st. induction keys as [|key keys IH]; intros st; simpl; [set_solver|].
  rewrite IH, push_rule_claimed. set_solver.
Qed.

Lemma push_all_rules acc st keys r :
  r ∈ (push_all acc st keys).2 ↔ r ∈ st.2 ∨ (∃ key, key ∈ keys ∧ (key ∉ st.1) ∧ r = rule_of key acc).
Proof.
  revert st. induction keys as [|key keys IH]; intros st; simpl.
  - split; [auto|]. intros [?|(? & []%elem_of_nil & _)]; done.
  - rewrite IH, push_rule_rules, push_rule_claimed. split.
    + intros [[?|[? ->]]|(k & Hk & Hnot & ->)]; [by left|right|right].
      * exists key. rewrite elem_of_cons. auto.
      * exists k. rewrite elem_of_cons. set_solver.
    + intros [?|(k & [->|Hk]%elem_of_cons & Hnot & ->)]; [by do 2 left|left; by right|].
      destruct (decide (k = key)) as [->|Hne]; [left; by right|].
      right. exists k. set_solver.
Qed.

Lemma push_all_length acc st keys :
  (length (push_all acc st keys).2 ≤ length st.2 + length keys)%nat.
Proof.
  revert st. induction keys as [|key keys IH]; intros st; simpl; [lia|].
  etrans; [apply IH|]. destruct st as [c l]. unfold push_rule. case_decide; simpl; [lia|].
  rewrite length_app. simpl. lia.
Qed.

Definition RW : Z := Z.lor DEVCG_ACC_READ DEVCG_ACC_WRITE.
Definition RWM : Z := Z.lor RW DEVCG_ACC_MKNOD.

Definition pseudo_keys : list (Z * Z * Z) := omap path_key pseudo_devices.

Lemma push_pseudo_all st paths :
  foldl (push_pseudo metadata) st paths = push_all RW st (omap path_key paths).
Proof.
  revert st. induction paths as [|p paths IH]; intros st; simpl; [done|].
  rewrite IH. unfold path_key, push_pseudo. by destruct (device_numbers metadata p).
Qed.

Lemma push_claimed_all device st paths :
  match mapM path_key paths with
  | Some keys => try_fold (push_claimed metadata device) st paths = Ok (push_all RWM st keys)
  | None => ∃ p, p ∈ paths ∧ path_key p = None
      ∧ try_fold (push_claimed metadata device) st paths = Err (unreachable_device device p)
  end.
Proof.
  revert st. induction paths as [|p paths IH]; intros st; simpl; [done|].
  destruct (device_numbers metadata p) as [numbers|] eqn:Hp.
  - assert (path_key p = Some (device_key numbers)) as -> by (unfold path_key; by rewrite Hp).
    assert (push_claimed metadata device st p = Ok (push_rule RWM st (device_key numbers)))
      as -> by (unfold push_claimed; by rewrite Hp).
    simpl. specialize (IH (push_rule RWM st (device_key numbers))).
    destruct (mapM path_key paths) as [keys|]; simpl; [done|].
    destruct IH as (q & Hq & Hn & Hr). exists q. split; [by right|]. done.
  - assert (path_key p = None) as Hk by (unfold path_key; by rewrite Hp).
    rewrite Hk. exists p. split; [by left|]. split; [done|].
    unfold push_claimed. by rewrite Hp.
Qed.

Lemma push_devices_all st devices :
  match mapM path_key (claimed_paths devices) with
  | Some keys => try_fold (push_device metadata) st devices = Ok (push_all RWM st keys)
  | None => ∃ d p, d ∈ devices ∧ p ∈ da_dev d :: da_paths d ∧ path_key p = None
      ∧ try_fold (push_device metadata) st devices = Err (unreachable_device d p)
  end.
Proof.
  revert st. induction devices as [|d devices IH]; intros st; [done|].
  change (claimed_paths (d :: devices))
    with ((da_dev d :: da_paths d) ++ claimed_paths devices).
  rewrite mapM_option_app. cbn [try_fold].
  change (push_device metadata st d)
    with (try_fold (push_claimed metadata d) st (da_dev d :: da_paths d)).
  pose proof (push_claimed_all d st (da_dev d :: da_paths d)) as Hd.
  destruct (mapM path_key (da_dev d :: da_paths d)) as [keys|].
  - rewrite Hd. cbn [mbind option_bind result_bind]. specialize (IH (push_all RWM st keys)).
    destruct (mapM path_key (claimed_paths devices)) as [keys'|]; simpl.
    + rewrite IH. unfold push_all. by rewrite foldl_app.
    + destruct IH as (d' & p & Hd' & Hp & Hn & Hr). exists d', p. split; [by right|]. done.
  - destruct Hd as (p & Hp & Hn & Hr). exists d, p. rewrite Hr. split; [by left|]. done.
Qed.

(** ** The policy of a lease *)

Definition flags_within (flags grant : Z) : Prop :=
  ∀ b, 0 ≤ b → Z.testbit flags b = true → Z.testbit grant b = true.

(** Reading and writing a pseudo-device; anything on a claimed device that is
    not one of them. *)
Definition allowed (devices : list DeviceAccess) (flags ty maj min : Z) : Prop :=
  ((ty, maj, min) ∈ pseudo_keys ∧ flags_within flags RW)
  ∨ (((ty, maj, min) ∉ pseudo_keys)
     ∧ (∃ p, p ∈ claimed_paths devices ∧ path_key p = Some (ty, maj, min))
     ∧ flags_within flags RWM).

Lemma path_key_u32 p ty maj min acc :
  path_key p = Some (ty, maj, min) → 0 ≤ acc < 2 ^ 32 →
  rule_u32 (rule_of (ty, maj, min) acc).
Proof.
  unfold path_key, device_numbers. intros (n & Hn & Heq)%fmap_Some Hacc.
  destruct (metadata p) as [m|]; simpl in Hn; [|done].
  destruct (negb _ && negb _); [done|]. injection Hn as <-.
  injection Heq as -> -> ->. unfold rule_u32, rule_of. simpl.
  repeat split; try (apply as_unsigned_in; lia); try lia; by destruct (_ =? _).
Qed.

Lemma permits_rule_of key acc flags ty maj min :
  Z.land acc 7 = acc →
  permits (rule_of key acc) flags ty maj min ↔ key = (ty, maj, min) ∧ flags_within flags acc.
Proof.
  intros Hacc. destruct key as [[kt kmaj] kmin]. unfold permits, flags_within. simpl.
  assert (∀ b, 0 ≤ b → Z.testbit acc b = true → b < 3) as H3.
  { intros b Hb. rewrite <-Hacc, Z.land_spec. change 7 with (Z.ones 3).
    rewrite testbit_ones by lia. destruct (Z.ltb_spec b 3); [done|]. by rewrite andb_false_r. }
  split.
  - intros (Hf & -> & -> & ->). split; [done|]. intros b Hb Hfb. by apply Hf.
  - intros ([= -> -> ->] & Hf). split; [|done]. intros b Hb Hfb. split; [|by apply Hf].
    apply H3; auto.
Qed.

(** The rules, as a set. *)
Lemma device_rules_elem devices rules r :
  device_rules metadata devices = Ok rules →
  r ∈ rules ↔
    (∃ key, key ∈ pseudo_keys ∧ r = rule_of key RW)
    ∨ (∃ key p, p ∈ claimed_paths devices ∧ path_key p = Some key
         ∧ (key ∉ pseudo_keys) ∧ r = rule_of key RWM).
Proof.
  unfold device_rules. rewrite push_pseudo_all. fold pseudo_keys.
  pose proof (push_devices_all (push_all RW (∅, []) pseudo_keys) devices) as Hp.
  destruct (mapM path_key (claimed_paths devices)) as [keys|] eqn:Hkeys.
  2:{ destruct Hp as (d & p & _ & _ & _ & Hp). rewrite Hp. done. }
  rewrite Hp. intros [= <-]. rewrite !push_all_rules, push_all_claimed. simpl.
  apply mapM_Some in Hkeys. split.
  - intros [[[]%elem_of_nil|(key & Hk & _ & ->)]|(key & Hk & Hn & ->)]; [left; eauto|right].
    apply list_elem_of_lookup in Hk as [i Hi].
    destruct (Forall2_lookup_r _ _ _ _ _ Hkeys Hi) as (p & Hip & Hpk).
    exists key, p. split; [by eapply list_elem_of_lookup_2|]. set_solver.
  - intros [(key & Hk & ->)|(key & p & Hin & Hpk & Hn & ->)]; [left; right|right].
    + exists key. set_solver.
    + apply list_elem_of_lookup in Hin as [i Hi].
      destruct (Forall2_lookup_l _ _ _ _ _ Hkeys Hi) as (key' & Hik & Hpk').
      assert (key' = key) as -> by congruence.
      exists key. split; [by eapply list_elem_of_lookup_2|]. set_solver.
Qed.

Lemma device_rules_length devices rules :
  device_rules metadata devices = Ok rules →
  (length rules ≤ 5 + length (claimed_paths devices))%nat.
Proof.
  unfold device_rules. rewrite push_pseudo_all. fold pseudo_keys.
  pose proof (push_devices_all (push_all RW (∅, []) pseudo_keys) devices) as Hp.
  destruct (mapM path_key (claimed_paths devices)) as [keys|] eqn:Hkeys.
  2:{ destruct Hp as (d & p & _ & _ & _ & Hp). rewrite Hp. done. }
  rewrite Hp. intros [= <-]. apply mapM_Some, Forall2_length in Hkeys.
  pose proof (push_all_length RWM (push_all RW (∅, []) pseudo_keys) keys).
  pose proof (push_all_length RW (∅, []) pseudo_keys).
  assert (length pseudo_keys ≤ 5)%nat.
  { unfold pseudo_keys. etrans; [apply omap_length_le|]. simpl. lia. }
  simpl in *. lia.
Qed.

Lemma device_rules_u32 devices rules :
  device_rules metadata devices = Ok rules → Forall rule_u32 rules.
Proof.
  intros Hr. apply Forall_forall. intros r.
  rewrite (device_rules_elem devices rules r Hr).
  intros [([[ty maj] min] & Hk & ->)|([[ty maj] min] & p & _ & Hp & _ & ->)].
  - unfold pseudo_keys in Hk. apply list_elem_of_omap in Hk as (p & _ & Hp).
    by eapply path_key_u32.
  - by eapply path_key_u32.
Qed.

Lemma device_rules_permit devices rules flags ty maj min :
  device_rules metadata devices = Ok rules →
  Exists (λ r, permits r flags ty maj min) rules ↔ allowed devices flags ty maj min.
Proof.
  intros Hr. rewrite Exists_exists. unfold allowed.
  setoid_rewrite (device_rules_elem devices rules _ Hr). split.
  - intros (r & [(key & Hk & ->)|(key & p & Hin & Hp & Hn & ->)] & Hperm);
      apply permits_rule_of in Hperm as [-> Hf]; [|done| |done]; [by left|]. right. eauto.
  - intros [[Hk Hf]|(Hn & (p & Hin & Hp) & Hf)].
    + eexists. split; [left; eauto|]. by apply permits_rule_of.
    + eexists. split; [right; eauto 6|]. by apply permits_rule_of.
Qed.
End rules.

(** ** Theorems *)

(** The compiled filter terminates and is exact: for up to 3,277 rules and
    any request (flags and type below 2^16), running the compiled program for
    ten instructions per rule plus five returns 1 when some rule permits the
    request (every requested flag granted, type and numbers equal) and 0
    otherwise. *)
Theorem device_filter_exact rules flags ty maj min fuel :
  Forall rule_u32 rules → (length rules ≤ 3277)%nat →
  0 ≤ flags < 2 ^ 16 → 0 ≤ ty < 2 ^ 16 →
  (10 * length rules + 5 ≤ fuel)%nat →
  (Exists (λ rule, permits rule flags ty maj min) rules
   ∧ run fuel (compile rules) (ctx_of flags ty) maj min = Returned 1)
  ∨ (¬ Exists (λ rule, permits rule flags ty maj min) rules
   ∧ run fuel (compile rules) (ctx_of flags ty) maj min = Returned 0).
Proof.
  apply filter_decides.
Qed.

(** C25. Device isolation of a lease: when the rules could be computed and the
    lease names at most 3,272 paths, the installed program allows a request
    exactly when it reads or writes a standard pseudo-device, or asks for
    any access to a device one of the lease's paths names (and which is not
    also a pseudo-device); every other request is denied. *)
Theorem device_isolation metadata devices rules flags ty maj min fuel :
  device_rules metadata devices = Ok rules →
  (length (claimed_paths devices) ≤ 3272)%nat →
  0 ≤ flags < 2 ^ 16 → 0 ≤ ty < 2 ^ 16 →
  (10 * length rules + 5 ≤ fuel)%nat →
  (allowed metadata devices flags ty maj min
   ∧ run fuel (compile rules) (ctx_of flags ty) maj min = Returned 1)
  ∨ (¬ allowed metadata devices flags ty maj min
   ∧ run fuel (compile rules) (ctx_of flags ty) maj min = Returned 0).
Proof.
  intros Hr Hpaths Hf Ht Hfuel.
  rewrite <-(device_rules_permit metadata devices rules) by done.
  apply filter_decides; try done; [by eapply device_rules_u32|].
  pose proof (device_rules_length metadata devices rules Hr). lia.
Qed.

(** *** Encodings *)

(** The fields of an encoded instruction. *)
Definition decode (w : Z) : Insn :=
  mkInsn (Z.land w 0xff) (Z.land (Z.shiftr w 8) 0xf) (Z.land (Z.shiftr w 12) 0xf)
    (as_i16 (Z.land (Z.shiftr w 16) 0xffff)) (as_i32 (Z.shiftr w 32)).

Definition insn_wf (i : Insn) : Prop :=
  0 ≤ code i < 2 ^ 8 ∧ 0 ≤ dst_reg i < 2 ^ 4 ∧ 0 ≤ src_reg i < 2 ^ 4
  ∧ - 2 ^ 15 ≤ off i < 2 ^ 15 ∧ - 2 ^ 31 ≤ imm i < 2 ^ 31.

Lemma decode_encode i : insn_wf i → decode (encode i) = i.
Proof.
  destruct i as [c d s o im]. unfold insn_wf, decode, encode. simpl.
  intros (Hc & Hd & Hs & Ho & Hi).
  set (o' := as_u16 o). set (i' := as_u32 im).
  assert (Ho' : 0 ≤ o' < 2 ^ 16) by (apply as_unsigned_in; lia).
  assert (Hi' : 0 ≤ i' < 2 ^ 32) by (apply as_unsigned_in; lia).
  change 0xff with (Z.ones 8). change 0xf with (Z.ones 4). change 0xffff with (Z.ones 16).
  set (w := Z.lor _ _).
  assert (Z.land w (Z.ones 8) = c) as -> by (unfold w; bits).
  assert (Z.land (Z.shiftr w 8) (Z.ones 4) = d) as -> by (unfold w; bits).
  assert (Z.land (Z.shiftr w 12) (Z.ones 4) = s) as -> by (unfold w; bits).
  assert (Z.land (Z.shiftr w 16) (Z.ones 16) = o') as -> by (unfold w; bits).
  assert (Z.shiftr w 32 = i') as -> by (unfold w; bits).
  unfold o', i', as_i16, as_i32, as_u16, as_u32.
  by rewrite !as_signed_as_unsigned, !as_signed_small by lia.
Qed.

(** Every instruction the compiler emits has its fields in range. *)
Lemma rule_block_wf rule s next_rule allow : Forall insn_wf (rule_block rule s next_rule allow).
Proof.
  assert (∀ z, - 2 ^ 15 ≤ as_i16 z < 2 ^ 15) as H16 by (intros; by apply (as_signed_in 16)).
  assert (∀ z, - 2 ^ 31 ≤ as_i32 z < 2 ^ 31) as H32 by (intros; by apply (as_signed_in 32)).
  unfold rule_block, jump_to, insn_wf. repeat constructor; simpl; try apply H16; try apply H32;
    vm_compute; congruence.
Qed.

Lemma blocks_wf n allow deny i s rules : Forall insn_wf (blocks n allow deny i s rules).
Proof.
  revert i s. induction rules as [|rule rules IH]; intros i s; [constructor|].
  cbn [blocks]. apply Forall_app. split; [apply rule_block_wf|apply IH].
Qed.

Lemma compile_wf rules : Forall insn_wf (compile rules).
Proof.
  destruct (decide (rules = [])) as [->|Hne]; [repeat constructor; vm_compute; congruence|].
  rewrite compile_nonempty by done. rewrite !Forall_app. split_and!.
  - repeat constructor; vm_compute; congruence.
  - apply blocks_wf.
  - repeat constructor; vm_compute; congruence.
Qed.

(** The words handed to the kernel are the program: decoding the 64-bit
    encodings of a compiled filter, field by field, gives the instructions
    back, for every list of rules. *)
Theorem loaded_words_decode rules :
  decode <$> (encode <$> compile rules) = compile rules.
Proof.
  pose proof (compile_wf rules) as Hwf.
  induction Hwf as [|i prog Hi _ IH]; [done|].
  rewrite !fmap_cons, decode_encode by done. by rewrite IH.
Qed.

(** *** Device numbers *)

(** The device number the C library builds for a major and a minor. *)
Definition makedev (maj min : Z) : Z :=
  Z.lor (Z.lor (Z.shiftl (Z.land maj 0xfff) 8) (Z.shiftl (Z.land maj (not_word 32 0xfff)) 32))
        (Z.lor (Z.land min 0xff) (Z.shiftl (Z.land min (not_word 32 0xff)) 12)).

Lemma makedev_major maj min :
  0 ≤ maj < 2 ^ 32 → 0 ≤ min < 2 ^ 32 → let dev := makedev maj min in
  as_u32 (Z.lor (Z.land (Z.shiftr dev 8) 0xfff) (Z.land (Z.shiftr dev 32) (not_word 64 0xfff)))
  = maj.
Proof.
  intros Hmaj Hmin. unfold makedev, not_word, as_u32.
  change 0xfff with (Z.ones 12). change 0xff with (Z.ones 8). bits.
Qed.

Lemma makedev_minor maj min :
  0 ≤ maj < 2 ^ 32 → 0 ≤ min < 2 ^ 32 → let dev := makedev maj min in
  as_u32 (Z.lor (Z.land dev 0xff) (Z.land (Z.shiftr dev 12) (not_word 64 0xff))) = min.
Proof.
  intros Hmaj Hmin. unfold makedev, not_word, as_u32.
  change 0xfff with (Z.ones 12). change 0xff with (Z.ones 8). bits.
Qed.

(** Device numbers survive the file system: for a character or block
    device whose [rdev] was made from a 32-bit major and minor,
    [device_numbers] returns that kind, major and minor. *)
Theorem device_numbers_makedev metadata path m maj min :
  metadata path = Some (mkMetadata m (makedev maj min)) →
  (Z.land m S_IFMT = S_IFCHR ∨ Z.land m S_IFMT = S_IFBLK) →
  0 ≤ maj < 2 ^ 32 → 0 ≤ min < 2 ^ 32 →
  device_numbers metadata path = Some (Z.land m S_IFMT =? S_IFCHR, maj, min).
Proof.
  intros Hm Hkind Hmaj Hmin. unfold device_numbers. rewrite Hm. cbn [mbind option_bind mode rdev].
  pose proof (makedev_major maj min Hmaj Hmin) as Hma.
  pose proof (makedev_minor maj min Hmaj Hmin) as Hmi. cbv zeta in *. rewrite Hma, Hmi.
  destruct Hkind as [->| ->]; done.
Qed.

(** The bound on rules is sharp: with 3,278 to 6,553 rules the 16-bit
    distance from the first block to the shared epilogue wraps, and a request
    the first rule permits leaves the program instead of being allowed. *)
Theorem device_filter_jump_range rule rules flags ty maj min fuel :
  rule_u32 rule → permits rule flags ty maj min →
  0 ≤ flags < 2 ^ 16 → 0 ≤ ty < 2 ^ 16 →
  3278 ≤ zlen (rule :: rules) ≤ 6553 → (14 ≤ fuel)%nat →
  run fuel (compile (rule :: rules)) (ctx_of flags ty) maj min = Panicked.
Proof.
  intros Hrule Hp Hf Ht Hlen Hfuel. apply first_match_escapes; try done.
  by apply matches_permits.
Qed.

(** *** Loading *)

(** Writing the upper half of a zeroed word whose lower half is set. *)
Lemma write_halves lo hi :
  0 ≤ lo < 2 ^ 32 → 0 ≤ hi < 2 ^ 32 →
  head (write_u32 (write_u32 attr_zeroed 0 lo) 4 hi) = Some (Z.lor lo (Z.shiftl hi 32)).
Proof.
  intros Hlo Hhi. unfold write_u32, attr_zeroed. simpl. f_equal.
  unfold not_word, as_u64. change 0xffffffff with (Z.ones 32).
  change (Z.of_nat (0 mod 8 * 8)) with 0. change (Z.of_nat (4 mod 8 * 8)) with 32. bits.
Qed.

(** [load_program] hands the kernel the filter's type and length, and panics
    exactly when the call fails once and then succeeds. *)
Lemma load_program_outcome {W} bpf ip lp gp log_text (w : W) prog :
  let first := bpf w BPF_PROG_LOAD (load_attr ip lp prog) in
  let second := bpf first.1 BPF_PROG_LOAD (log_attr gp (load_attr ip lp prog)) in
  (load_program bpf ip lp gp log_text w prog).2 = LoadPanic
  ↔ is_ok first.2 = false ∧ is_ok second.2 = true.
Proof.
  unfold load_program. destruct (bpf w BPF_PROG_LOAD (load_attr ip lp prog)) as [w1 [fd|e]];
    simpl; [by split; [|intros [? _]]|].
  destruct (bpf w1 BPF_PROG_LOAD _) as [w2 [fd|e']]; simpl; [done|].
  by split; [|intros [_ ?]].
Qed.
