(* ===== verification/Provider.v ===== *)
(** The agent's resource provider: src/crates/node/src/provider.rs, and the
    recovery evidence of src/crates/node/src/recovery.rs.

    A provider holds one endpoint per exclusive resource or per independent
    share, and accepts operations of the newest session and epoch it has
    seen.  A refused operation may still have moved the session, the epoch
    or created an endpoint, so operations return the state with the result. *)

From S2P Require Import Prelude Identifier Types Workload Endpoint Protocol.

(** ** State *)

Inductive EndpointKey :=
| KExclusive (provider node : u64)
| KShare (binding : u64).

#[export] Instance EndpointKey_eq_dec : EqDecision EndpointKey.
Proof. solve_decision. Defined.

Definition key_encode (k : EndpointKey) : (u64 * u64) + u64 :=
  match k with KExclusive p n => inl (p, n) | KShare b => inr b end.
Definition key_decode (s : (u64 * u64) + u64) : EndpointKey :=
  match s with inl (p, n) => KExclusive p n | inr b => KShare b end.

#[export] Instance EndpointKey_countable : Countable EndpointKey.
Proof. refine (inj_countable' key_encode key_decode _). by intros []. Defined.

(** The derived [Ord]: by constructor, then by fields. *)
Definition key_leb (a b : EndpointKey) : bool :=
  match a, b with
  | KExclusive p n, KExclusive p' n' => (p <? p') || ((p =? p') && (n <=? n'))
  | KExclusive _ _, KShare _ => true
  | KShare _, KExclusive _ _ => false
  | KShare b, KShare b' => b <=? b'
  end.

Ltac key_order :=
  repeat match goal with
  | |- ∀ _, _ => intros [? ?|?]
  end; simpl;
  rewrite ?orb_true_iff, ?andb_true_iff, ?N.ltb_lt, ?N.eqb_eq, ?N.leb_le;
  try done; try lia; auto.

#[export] Program Instance BOrd_EndpointKey : BOrd EndpointKey := {| bleb := key_leb |}.
Next Obligation. key_order. Qed.
Next Obligation. key_order. Qed.
Next Obligation. key_order; intros; f_equal; lia. Qed.

Record EndpointGeneration := mkGeneration {
  gen_binding : u64;
  gen_node : u64;
  gen_provider : u64;
  gen_scope : BindingScope;
  gen_session : u64;
  gen_fence : u64;
  gen_epoch : u64;
}.

Record ResourceProvider := mkProvider {
  rp_session : u64;
  rp_epoch : u64;
  rp_next_handle : u64;
  rp_endpoints : gmap EndpointKey Endpoint;
}.

(** [ResourceProvider::new] *)
Definition provider_new : ResourceProvider := mkProvider 0 0 1 ∅.

Definition set_endpoints (m : gmap EndpointKey Endpoint) (p : ResourceProvider) : ResourceProvider :=
  mkProvider (rp_session p) (rp_epoch p) (rp_next_handle p) m.

(** ** Operations *)

Definition endpoint_key (g : EndpointGeneration) : EndpointKey :=
  match gen_scope g with
  | Exclusive => KExclusive (gen_provider g) (gen_node g)
  | IndependentShare => KShare (gen_binding g)
  end.

(** [{:?}] of an [EndpointError]. *)
Definition show_phase (p : EndpointPhase) : string :=
  match p with Idle => "Idle" | Prepared => "Prepared" | Active => "Active" end.

Definition show_endpoint_error (e : EndpointError) : string :=
  match e with
  | EpStaleSession expected got =>
      "StaleSession { expected: " +:+ pretty expected +:+ ", got: " +:+ pretty got +:+ " }"
  | EpStaleFence accepted got =>
      "StaleFence { accepted: " +:+ pretty accepted +:+ ", got: " +:+ pretty got +:+ " }"
  | EpConflict => "Conflict"
  | EpWrongPhase phase => "WrongPhase { phase: " +:+ show_phase phase +:+ " }"
  end.

Definition check_control_generation (p : ResourceProvider) (session epoch : u64) :
    result string ResourceProvider :=
  if epoch <? rp_epoch p then
    Err ("stale cluster epoch " +:+ pretty epoch +:+ "; current " +:+ pretty (rp_epoch p))
  else if session <? rp_session p then
    Err ("stale agent session " +:+ pretty session +:+ "; current " +:+ pretty (rp_session p))
  else
    let epoch' := if rp_epoch p <? epoch then epoch else rp_epoch p in
    if rp_session p <? session then
      Ok (mkProvider session epoch' (rp_next_handle p)
            ((λ e, handshake e session) <$> rp_endpoints p))
    else Ok (mkProvider (rp_session p) epoch' (rp_next_handle p) (rp_endpoints p)).

Definition is_activate (op : EndpointOp) : bool :=
  match op with OpActivate => true | _ => false end.

(** The operations on the endpoint itself once it exists. *)
Definition endpoint_ops (adopt : bool) (op : EndpointOp) (g : EndpointGeneration)
    (endpoint : Endpoint) : Endpoint * result string unit :=
  let endpoint := handshake endpoint (gen_session g) in
  let adopted :=
    if adopt then
      match endpoint_apply endpoint OpPrepare (gen_binding g) (gen_fence g) (gen_session g) with
      | Ok endpoint => Ok endpoint
      | Err e => Err ("provider endpoint rejected adoption: " +:+ show_endpoint_error e)
      end
    else Ok endpoint in
  match adopted with
  | Err e => (endpoint, Err e)
  | Ok endpoint =>
      match endpoint_apply endpoint op (gen_binding g) (gen_fence g) (gen_session g) with
      | Ok endpoint => (endpoint, Ok ())
      | Err e => (endpoint, Err ("provider endpoint rejected generation: " +:+ show_endpoint_error e))
      end
  end.

(** [ResourceProvider::apply] *)
Definition provider_apply (p : ResourceProvider) (op : EndpointOp) (g : EndpointGeneration) :
    ResourceProvider * result string unit :=
  match check_control_generation p (gen_session g) (gen_epoch g) with
  | Err e => (p, Err e)
  | Ok p =>
      let key := endpoint_key g in
      let adopt := is_activate op && bool_decide (rp_endpoints p !! key = None) in
      let create := adopt || negb (is_activate op) in
      let fresh := endpoint_new (gen_provider g) (gen_node g) (gen_session g) in
      let p :=
        if create
        then set_endpoints (<[key := default fresh (rp_endpoints p !! key)]> (rp_endpoints p)) p
        else p in
      match rp_endpoints p !! key with
      | None => (p, Err "binding endpoint has not been prepared")
      | Some endpoint =>
          let '(endpoint, r) := endpoint_ops adopt op g endpoint in
          (set_endpoints (<[key := endpoint]> (rp_endpoints p)) p, r)
      end
  end.

(** The handle counter is an unchecked [+=]. *)
Definition provider_prepare (p : ResourceProvider) (g : EndpointGeneration) :
    ResourceProvider * result string u64 :=
  let '(p, r) := provider_apply p OpPrepare g in
  match r with
  | Err e => (p, Err e)
  | Ok _ =>
      let handle := rp_next_handle p in
      (mkProvider (rp_session p) (rp_epoch p) (wrap_add handle 1) (rp_endpoints p), Ok handle)
  end.

Definition provider_activate (p : ResourceProvider) (g : EndpointGeneration) :
    ResourceProvider * result string unit := provider_apply p OpActivate g.
Definition provider_release (p : ResourceProvider) (g : EndpointGeneration) :
    ResourceProvider * result string unit := provider_apply p OpRelease g.
Definition provider_fence (p : ResourceProvider) (g : EndpointGeneration) :
    ResourceProvider * result string unit := provider_apply p OpFence g.

Definition authorize_execution (p : ResourceProvider) (session epoch : u64) :
    ResourceProvider * result string unit :=
  match check_control_generation p session epoch with
  | Ok p => (p, Ok ())
  | Err e => (p, Err e)
  end.

Definition key_scope (k : EndpointKey) : BindingScope :=
  match k with KExclusive _ _ => Exclusive | KShare _ => IndependentShare end.

Definition enumerated (entry : EndpointKey * Endpoint) : EnumeratedEndpoint :=
  let '(key, e) := entry in
  mkEnumerated (ep_node e) (ep_provider e) (key_scope key) (ep_binding e) (ep_open e)
    (ep_accepted_fence e) (ep_phase e).

Definition enumerate (p : ResourceProvider) : list EnumeratedEndpoint :=
  enumerated <$> bt_iter (rp_endpoints p).

(** ** Recovery evidence (recovery.rs) *)

Definition same_generation (endpoint : EnumeratedEndpoint) (b : Binding) : bool :=
  bool_decide (en_binding endpoint = Some (binding_id b))
  && (en_node endpoint =? binding_node b)
  && (en_provider endpoint =? binding_provider b)
  && bool_decide (en_scope endpoint = binding_scope b)
  && (en_accepted_fence endpoint =? binding_fence b).

(** The closure that filters the candidates of a binding. *)
Definition candidate (b : Binding) (endpoint : EnumeratedEndpoint) : bool :=
  bool_decide (en_binding endpoint = Some (binding_id b))
  || (bool_decide (binding_scope b = Exclusive)
      && bool_decide (en_scope endpoint = Exclusive)
      && (en_node endpoint =? binding_node b)
      && (en_provider endpoint =? binding_provider b)).

(** [MachineRecovery::proves], on the enumeration a recovery has received. *)
Definition proves (endpoints : option (list EnumeratedEndpoint)) (b : Binding) : bool :=
  match endpoints with
  | None => false
  | Some endpoints =>
      match List.filter (candidate b) endpoints with
      | [endpoint] =>
          bool_decide (binding_state b = BActive)
          && same_generation endpoint b
          && en_open endpoint
          && bool_decide (en_phase endpoint = Active)
      | _ => false
      end
  end.
