(* ===== verification/ProviderFacts.v ===== *)
(** The agent's provider: its invariant, fencing across any later requests,
    and the exactness of recovery evidence. *)

From S2P Require Import Prelude Identifier Types Workload Endpoint Protocol Provider.

(** ** Invariant *)

(** Endpoints are well formed, follow the provider's session and sit under the
    key of the generations they accept. *)
Definition provider_inv (p : ResourceProvider) : Prop :=
  ∀ k e, rp_endpoints p !! k = Some e →
    endpoint_wf e ∧ ep_session e = rp_session p
    ∧ match k with
      | KExclusive provider node => ep_provider e = provider ∧ ep_node e = node
      | KShare binding => ∀ b, ep_binding e = Some b → b = binding
      end.

(** What reaches the provider: a binding operation, or the check that
    precedes an execution operation. *)
Inductive provider_event :=
| PvApply (op : EndpointOp) (g : EndpointGeneration)
| PvAuthorize (session epoch : u64).

Definition provider_step (p : ResourceProvider) (ev : provider_event) : ResourceProvider :=
  match ev with
  | PvApply OpPrepare g => (provider_prepare p g).1
  | PvApply op g => (provider_apply p op g).1
  | PvAuthorize s e => (authorize_execution p s e).1
  end.

Definition provider_run (p : ResourceProvider) (evs : list provider_event) : ResourceProvider :=
  foldl provider_step p evs.

(** ** How an event acts on the endpoints *)

(** Events an endpoint under [k] sees when the provider handles [ev]. *)
Definition event_session (ev : provider_event) : u64 :=
  match ev with PvApply _ g => gen_session g | PvAuthorize s _ => s end.

Definition seen_by (k : EndpointKey) (ev : provider_event) (e : ep_event) : Prop :=
  match e with
  | EvHandshake s => s = event_session ev
  | EvApply _ b f _ =>
      match ev with
      | PvApply _ g => endpoint_key g = k ∧ b = gen_binding g ∧ f = gen_fence g
      | PvAuthorize _ _ => False
      end
  end.

Lemma handshake_identity e s :
  ep_provider (handshake e s) = ep_provider e ∧ ep_node (handshake e s) = ep_node e
  ∧ ep_binding (handshake e s) = ep_binding e.
Proof. unfold handshake. by destruct (_ <? _). Qed.

Lemma ep_step_identity e ev :
  ep_provider (ep_step e ev) = ep_provider e ∧ ep_node (ep_step e ev) = ep_node e
  ∧ (ep_binding (ep_step e ev) = ep_binding e ∨ ep_binding (ep_step e ev) = None
     ∨ ∃ op b f s, ev = EvApply op b f s ∧ ep_binding (ep_step e ev) = Some b).
Proof.
  destruct ev as [op b f s|s]; simpl.
  2:{ destruct (handshake_identity e s) as (-> & -> & ->). auto. }
  unfold endpoint_apply. destruct (negb _); [auto|].
  destruct op; unfold ep_prepare, ep_activate, ep_close.
  - destruct (_ <? _); [auto|]. destruct (_ =? _); [destruct (_ && _); auto|]. simpl.
    split_and!; try done. right; right. by exists OpPrepare, b, f, s.
  - destruct (negb _ || _ || _); [auto|]. destruct (ep_phase e); simpl; auto.
  - destruct (_ <? _); simpl; auto.
  - destruct (_ <? _); simpl; auto.
Qed.

Lemma ep_run_identity e evs :
  ep_provider (ep_run e evs) = ep_provider e ∧ ep_node (ep_run e evs) = ep_node e.
Proof.
  revert e. induction evs as [|ev evs IH]; intros e; [done|]. simpl.
  destruct (IH (ep_step e ev)) as [-> ->].
  destruct (ep_step_identity e ev) as (-> & -> & _). done.
Qed.

Lemma ep_run_wf e evs : endpoint_wf e → endpoint_wf (ep_run e evs).
Proof.
  revert e. induction evs as [|ev evs IH]; intros e He; [done|]. simpl.
  apply IH. by apply ep_step_wf.
Qed.

Lemma ep_run_binding e evs k ev b :
  Forall (seen_by (KShare k) ev) evs →
  (∀ b, ep_binding e = Some b → b = k) → ep_binding (ep_run e evs) = Some b → b = k.
Proof.
  intros Hevs. revert e. induction Hevs as [|x evs Hx _ IH]; intros e He; [apply He|].
  simpl. apply IH. intros b' Hb'.
  destruct (ep_step_identity e x) as (_ & _ & [H|[H|(op & b0 & f & s & -> & H)]]).
  - rewrite H in Hb'. auto.
  - congruence.
  - simpl in Hx. destruct ev as [op' g|]; [|done].
    destruct Hx as (Hk & -> & ->). rewrite H in Hb'. simplify_eq.
    unfold endpoint_key in Hk. destruct (gen_scope g); congruence.
Qed.

Lemma ep_run_session e evs k ev :
  Forall (seen_by k ev) evs → ep_session e = event_session ev →
  ep_session (ep_run e evs) = event_session ev.
Proof.
  intros Hevs. revert e. induction Hevs as [|x evs Hx _ IH]; intros e He; [done|].
  simpl. apply IH. destruct x as [op b f s|s]; simpl in *.
  - unfold endpoint_apply. destruct (negb _); [done|].
    destruct op; unfold ep_prepare, ep_activate, ep_close.
    + destruct (_ <? _); [done|]. destruct (_ =? _); [by destruct (_ && _)|done].
    + destruct (negb _ || _ || _); [done|]. by destruct (ep_phase e).
    + by destruct (_ <? _).
    + by destruct (_ <? _).
  - subst s. unfold handshake. by destruct (_ <? _).
Qed.

Section operations.
Context (op : EndpointOp) (g : EndpointGeneration).

(** [endpoint_ops] is a run of the endpoint. *)
Lemma endpoint_ops_run adopt e :
  ∃ evs, (endpoint_ops adopt op g e).1 = ep_run e evs
    ∧ Forall (seen_by (endpoint_key g) (PvApply op g)) evs.
Proof.
  unfold endpoint_ops. set (h := EvHandshake (gen_session g)).
  set (e1 := handshake e (gen_session g)).
  set (pr := EvApply OpPrepare (gen_binding g) (gen_fence g) (gen_session g)).
  set (ap := EvApply op (gen_binding g) (gen_fence g) (gen_session g)).
  assert (∀ x o, endpoint_apply x o (gen_binding g) (gen_fence g) (gen_session g)
    = Ok (ep_step x (EvApply o (gen_binding g) (gen_fence g) (gen_session g)))
    ∨ (∃ er, endpoint_apply x o (gen_binding g) (gen_fence g) (gen_session g) = Err er
        ∧ ep_step x (EvApply o (gen_binding g) (gen_fence g) (gen_session g)) = x)) as Hstep.
  { intros x o. simpl. destruct (endpoint_apply _ _ _ _ _); eauto. }
  destruct adopt.
  - destruct (Hstep e1 OpPrepare) as [->|(er & -> & _)].
    + fold pr. destruct (Hstep (ep_step e1 pr) op) as [->|(er & -> & _)].
      * exists [h; pr; ap]. split; [done|]. repeat constructor.
      * exists [h; pr]. split; [done|]. repeat constructor.
    + exists [h]. split; [done|]. repeat constructor.
  - destruct (Hstep e1 op) as [->|(er & -> & _)].
    + exists [h; ap]. split; [done|]. repeat constructor.
    + exists [h]. split; [done|]. repeat constructor.
Qed.

(** After a generation check, endpoints have at most shaken hands. *)
Lemma check_endpoints p p' session epoch k :
  check_control_generation p session epoch = Ok p' →
  rp_endpoints p' !! k
    = (λ e, if rp_session p <? session then handshake e session else e) <$> rp_endpoints p !! k.
Proof.
  unfold check_control_generation. destruct (_ <? _); [done|].
  destruct (session <? rp_session p); [done|].
  destruct (rp_session p <? session); intros [= <-]; simpl.
  - by rewrite lookup_fmap.
  - by destruct (rp_endpoints p !! k).
Qed.

(** An accepted generation has the provider's session. *)
Lemma check_session p p' session epoch :
  check_control_generation p session epoch = Ok p' →
  rp_session p' = session ∧ rp_session p ≤ session ∧ rp_epoch p ≤ rp_epoch p'
  ∧ rp_epoch p' = epoch.
Proof.
  unfold check_control_generation. destruct (N.ltb_spec epoch (rp_epoch p)); [done|].
  destruct (N.ltb_spec session (rp_session p)); [done|].
  destruct (N.ltb_spec (rp_session p) session), (N.ltb_spec (rp_epoch p) epoch);
    intros [= <-]; simpl; lia.
Qed.

Lemma check_inv p p' session epoch :
  provider_inv p → check_control_generation p session epoch = Ok p' → provider_inv p'.
Proof.
  intros Hinv Hc k e'. destruct (check_session _ _ _ _ Hc) as (Hs & Hle & _).
  rewrite (check_endpoints p p' session epoch k Hc). intros (e & He & ->)%fmap_Some.
  destruct (Hinv k e He) as (Hwf & Hes & Hk).
  destruct (N.ltb_spec (rp_session p) session) as [Hlt|Hge].
  - destruct (handshake_identity e session) as (-> & -> & ->).
    split_and!; [exact (ep_step_wf e (EvHandshake session) Hwf)| |done].
    unfold handshake. destruct (N.ltb_spec (ep_session e) session); simpl; [done|lia].
  - split_and!; [done|lia|done].
Qed.

(** The endpoint an operation acts on: the existing one or a fresh one. *)
Definition target_endpoint (p : ResourceProvider) : Endpoint :=
  default (endpoint_new (gen_provider g) (gen_node g) (gen_session g))
    (rp_endpoints p !! endpoint_key g).

Lemma provider_apply_Ok_check p p1 :
  check_control_generation p (gen_session g) (gen_epoch g) = Ok p1 →
  let key := endpoint_key g in
  let adopt := is_activate op && bool_decide (rp_endpoints p1 !! key = None) in
  let '(e, r) := endpoint_ops adopt op g (target_endpoint p1) in
  ∃ m, rp_endpoints (provider_apply p op g).1 = <[key := e]> m
    ∧ (∀ k, k ≠ key → m !! k = rp_endpoints p1 !! k)
    ∧ rp_session (provider_apply p op g).1 = rp_session p1
    ∧ rp_epoch (provider_apply p op g).1 = rp_epoch p1
    ∧ (provider_apply p op g).2 = r.
Proof.
  intros Hc. unfold provider_apply, target_endpoint. rewrite Hc.
  destruct (rp_endpoints p1 !! endpoint_key g) as [e|] eqn:He; simpl.
  - rewrite andb_false_r. simpl. destruct (is_activate op); simpl.
    + rewrite He. destruct (endpoint_ops false op g e) as [e' r]. simpl.
      exists (rp_endpoints p1). done.
    + rewrite lookup_insert. simpl. rewrite decide_True by done.
      destruct (endpoint_ops false op g e) as [e' r]. simpl.
      exists (<[endpoint_key g := e]> (rp_endpoints p1)). split_and!; try done.
      intros k Hk. by rewrite lookup_insert_ne.
  - rewrite andb_true_r.
    assert (is_activate op || negb (is_activate op) = true) as -> by by destruct op.
    simpl. rewrite lookup_insert, decide_True by done.
    destruct (endpoint_ops (is_activate op) op g _) as [e' r]. simpl.
    eexists. split_and!; try done. intros k Hk. by rewrite lookup_insert_ne.
Qed.

Lemma provider_apply_inv p : provider_inv p → provider_inv (provider_apply p op g).1.
Proof.
  intros Hinv.
  destruct (check_control_generation p (gen_session g) (gen_epoch g)) as [p1|e] eqn:Hc.
  2:{ unfold provider_apply. by rewrite Hc. }
  pose proof (check_inv _ _ _ _ Hinv Hc) as Hinv1.
  destruct (check_session _ _ _ _ Hc) as (Hs & _).
  pose proof (provider_apply_Ok_check p p1 Hc) as H. cbv zeta in H.
  destruct (endpoint_ops_run (is_activate op && bool_decide (rp_endpoints p1 !! endpoint_key g = None))
    (target_endpoint p1)) as (evs & Hrun & Hevs).
  destruct (endpoint_ops _ op g _) as [e r]. simpl in Hrun.
  destruct H as (m & Hm & Hother & Hsess & _ & _). intros k x.
  rewrite Hm, Hsess. destruct (decide (k = endpoint_key g)) as [->|Hk].
  - rewrite lookup_insert, decide_True by done. intros [= <-]. subst e.
    assert (endpoint_wf (target_endpoint p1) ∧ ep_session (target_endpoint p1) = gen_session g
      ∧ match endpoint_key g with
        | KExclusive pr n => ep_provider (target_endpoint p1) = pr ∧ ep_node (target_endpoint p1) = n
        | KShare b => ∀ b', ep_binding (target_endpoint p1) = Some b' → b' = b
        end) as (Hwf & Hses & Hkey).
    { unfold target_endpoint.
      destruct (rp_endpoints p1 !! endpoint_key g) as [e0|] eqn:He0; simpl.
      - destruct (Hinv1 _ _ He0) as (? & ? & ?). split_and!; [done|congruence|done].
      - split_and!; try done. unfold endpoint_key. by destruct (gen_scope g). }
    split_and!; [by apply ep_run_wf| |].
    + rewrite Hs. exact (ep_run_session _ _ _ (PvApply op g) Hevs Hses).
    + destruct (endpoint_key g) as [pr n|b].
      * destruct (ep_run_identity (target_endpoint p1) evs) as [-> ->]. done.
      * intros b' Hb'. by eapply ep_run_binding.
  - rewrite lookup_insert_ne, Hother by done. intros Hx. by apply Hinv1.
Qed.
End operations.

Lemma provider_prepare_endpoints p g :
  rp_endpoints (provider_prepare p g).1 = rp_endpoints (provider_apply p OpPrepare g).1
  ∧ rp_session (provider_prepare p g).1 = rp_session (provider_apply p OpPrepare g).1
  ∧ rp_epoch (provider_prepare p g).1 = rp_epoch (provider_apply p OpPrepare g).1.
Proof. unfold provider_prepare. by destruct (provider_apply p OpPrepare g) as [p' [[]|e]]. Qed.

Lemma provider_step_inv p ev : provider_inv p → provider_inv (provider_step p ev).
Proof.
  intros Hinv. destruct ev as [op g|s e]; simpl.
  - pose proof (provider_apply_inv op g p Hinv) as H.
    destruct op; try exact H.
    destruct (provider_prepare_endpoints p g) as (He & Hs & _).
    intros k x. rewrite He, Hs. apply H.
  - unfold authorize_execution. destruct (check_control_generation p s e) as [p'|] eqn:Hc; simpl.
    + by eapply check_inv.
    + done.
Qed.

Lemma provider_step_mono p ev :
  rp_session p ≤ rp_session (provider_step p ev) ∧ rp_epoch p ≤ rp_epoch (provider_step p ev).
Proof.
  assert (∀ op g, rp_session p ≤ rp_session (provider_apply p op g).1
    ∧ rp_epoch p ≤ rp_epoch (provider_apply p op g).1) as Happ.
  { intros op g.
    destruct (check_control_generation p (gen_session g) (gen_epoch g)) as [p1|e] eqn:Hc.
    2:{ unfold provider_apply. rewrite Hc. simpl. lia. }
    destruct (check_session _ _ _ _ Hc) as (? & ? & ? & ?).
    pose proof (provider_apply_Ok_check op g p p1 Hc) as Happ. cbv zeta in Happ.
    destruct (endpoint_ops _ op g _) as [e r].
    destruct Happ as (m & _ & _ & -> & -> & _). lia. }
  destruct ev as [op g|s e]; simpl.
  - destruct op; try apply Happ. destruct (provider_prepare_endpoints p g) as (_ & -> & ->).
    apply Happ.
  - unfold authorize_execution. destruct (check_control_generation p s e) as [p'|] eqn:Hc; simpl.
    + destruct (check_session _ _ _ _ Hc) as (? & ? & ? & ?). lia.
    + lia.
Qed.

(** Handling an event runs each existing endpoint on what it sees of it. *)
Lemma check_runs p p' ev k e epoch :
  check_control_generation p (event_session ev) epoch = Ok p' →
  rp_endpoints p !! k = Some e →
  ∃ evs, rp_endpoints p' !! k = Some (ep_run e evs) ∧ Forall (seen_by k ev) evs.
Proof.
  intros Hc He. rewrite (check_endpoints p p' _ _ k Hc), He. simpl.
  destruct (_ <? _).
  - exists [EvHandshake (event_session ev)]. split; [done|]. by repeat constructor.
  - by exists [].
Qed.

Lemma provider_apply_runs op g p k e :
  rp_endpoints p !! k = Some e →
  ∃ evs, rp_endpoints (provider_apply p op g).1 !! k = Some (ep_run e evs)
    ∧ Forall (seen_by k (PvApply op g)) evs.
Proof.
  intros He.
  destruct (check_control_generation p (gen_session g) (gen_epoch g)) as [p1|er] eqn:Hc.
  2:{ unfold provider_apply. rewrite Hc. by exists []. }
  destruct (check_runs p p1 (PvApply op g) k e _ Hc He) as (evs1 & He1 & Hevs1).
  pose proof (provider_apply_Ok_check op g p p1 Hc) as Happ. cbv zeta in Happ.
  destruct (endpoint_ops_run op g
    (is_activate op && bool_decide (rp_endpoints p1 !! endpoint_key g = None))
    (target_endpoint g p1)) as (evs & Hrun & Hevs).
  destruct (endpoint_ops _ op g _) as [e' r]. simpl in Hrun.
  destruct Happ as (m & Hm & Hother & _ & _ & _). rewrite Hm.
  destruct (decide (k = endpoint_key g)) as [->|Hk].
  - rewrite lookup_insert, decide_True by done.
    exists (evs1 ++ evs). split; [|by apply Forall_app].
    subst e'. unfold target_endpoint. rewrite He1. simpl. unfold ep_run.
    by rewrite foldl_app.
  - rewrite lookup_insert_ne, Hother by done. eauto.
Qed.

Lemma provider_step_runs p ev k e :
  rp_endpoints p !! k = Some e →
  ∃ evs, rp_endpoints (provider_step p ev) !! k = Some (ep_run e evs)
    ∧ Forall (seen_by k ev) evs.
Proof.
  intros He. destruct ev as [op g|s ep]; simpl.
  - pose proof (provider_apply_runs op g p k e He) as H.
    destruct op; try exact H.
    destruct (provider_prepare_endpoints p g) as (-> & _). exact H.
  - unfold authorize_execution. destruct (check_control_generation p s ep) as [p'|] eqn:Hc; simpl.
    + exact (check_runs p p' (PvAuthorize s ep) k e ep Hc He).
    + by exists [].
Qed.

(** ** Theorems *)

Lemma provider_run_inv p evs : provider_inv p → provider_inv (provider_run p evs).
Proof.
  revert p. induction evs as [|ev evs IH]; intros p Hp; [done|].
  simpl. apply IH. by apply provider_step_inv.
Qed.

(** The provider's invariant: whatever requests an agent receives, every
    endpoint it holds is well formed (open, holding a binding and not idle
    are the same thing), follows the newest session the agent has accepted,
    and only ever holds generations of its own resource or share; the accepted
    session and epoch never decrease. *)
Theorem provider_run_invariant evs evs' :
  let p := provider_run provider_new evs in
  provider_inv p
  ∧ rp_session p ≤ rp_session (provider_run p evs')
  ∧ rp_epoch p ≤ rp_epoch (provider_run p evs').
Proof.
  assert (provider_inv provider_new) as H0 by (intros k e; simpl; rewrite lookup_empty; done).
  cbv zeta. generalize dependent provider_new. intros p Hp. split.
  - by apply provider_run_inv.
  - generalize (provider_run p evs). clear. induction evs' as [|ev evs' IH]; intros p.
    + simpl. lia.
    + simpl. destruct (provider_step_mono p ev), (IH (provider_step p ev)).
      unfold provider_run in *. lia.
Qed.

(** Generations up to [f] can no longer be prepared or activated: a newer one
    was accepted, or this one was closed. *)
Definition dead (f : u64) (e : Endpoint) : Prop :=
  f < ep_accepted_fence e ∨ (f ≤ ep_accepted_fence e ∧ ep_open e = false).

Lemma dead_step f e ev : dead f e → dead f (ep_step e ev).
Proof.
  intros Hd. destruct ev as [op b f' s|s]; simpl.
  2:{ unfold handshake. by destruct (_ <? _). }
  unfold endpoint_apply. destruct (negb _); [done|].
  destruct op; unfold ep_prepare, ep_activate, ep_close.
  - destruct (N.ltb_spec f' (ep_accepted_fence e)); [done|].
    destruct (N.eqb_spec f' (ep_accepted_fence e)); [by destruct (_ && _)|].
    left. simpl. unfold dead in Hd. lia.
  - destruct (ep_open e) eqn:Ho; simpl; [|done].
    destruct (_ || _); [done|]. destruct (ep_phase e); [done|..];
      unfold dead in *; simpl; rewrite Ho in *; destruct Hd as [?|[? ?]]; auto; congruence.
  - destruct (N.ltb_spec f' (ep_accepted_fence e)); [done|].
    unfold dead in *. right. simpl. split; [lia|done].
  - destruct (N.ltb_spec f' (ep_accepted_fence e)); [done|].
    unfold dead in *. right. simpl. split; [lia|done].
Qed.

Lemma dead_run f e evs : dead f e → dead f (ep_run e evs).
Proof.
  revert e. induction evs as [|ev evs IH]; intros e Hd; [done|]. simpl.
  apply IH. by apply dead_step.
Qed.

(** A dead generation is refused. *)
Lemma dead_refused f e op b s :
  dead f e → op = OpPrepare ∨ op = OpActivate → is_ok (endpoint_apply e op b f s) = false.
Proof.
  intros Hd [->| ->]; unfold endpoint_apply; (destruct (negb (s =? _)); [done|]).
  - unfold ep_prepare. destruct (N.ltb_spec f (ep_accepted_fence e)); [done|].
    destruct Hd as [?|[? Ho]]; [lia|].
    destruct (N.eqb_spec f (ep_accepted_fence e)); [|lia]. by rewrite Ho.
  - unfold ep_activate. destruct Hd as [?|[? Ho]]; [|by rewrite Ho].
    assert ((f =? ep_accepted_fence e) = false) as -> by (apply N.eqb_neq; lia).
    simpl. by rewrite orb_true_r.
Qed.

Lemma close_kills e op b f s e' :
  op = OpRelease ∨ op = OpFence → endpoint_apply e op b f s = Ok e' → dead f e'.
Proof.
  intros Hop. unfold endpoint_apply. destruct (negb _); [done|].
  assert (∀ r, ep_close e f = Ok r → dead f r) as Hcl.
  { intros r. unfold ep_close. destruct (N.ltb_spec f (ep_accepted_fence e)); intros [= <-].
    - by left.
    - right. simpl. split; [lia|done]. }
  destruct Hop as [->| ->]; apply Hcl.
Qed.

Lemma provider_run_dead p k e f evs :
  rp_endpoints p !! k = Some e → dead f e →
  ∃ e', rp_endpoints (provider_run p evs) !! k = Some e' ∧ dead f e'.
Proof.
  revert p e. induction evs as [|ev evs IH]; intros p e He Hd; [eauto|].
  simpl. destruct (provider_step_runs p ev k e He) as (xs & Hx & _).
  eapply IH; [exact Hx|]. by apply dead_run.
Qed.

(** A provider whose endpoint has buried [gen_fence g] refuses [g]. *)
Lemma provider_dead_refused p op g e :
  rp_endpoints p !! endpoint_key g = Some e → dead (gen_fence g) e →
  op = OpPrepare ∨ op = OpActivate → is_ok (provider_apply p op g).2 = false.
Proof.
  intros He Hd Hop.
  destruct (check_control_generation p (gen_session g) (gen_epoch g)) as [p1|er] eqn:Hc.
  2:{ unfold provider_apply. by rewrite Hc. }
  destruct (check_runs p p1 (PvApply op g) _ e _ Hc He) as (evs & He1 & _).
  pose proof (provider_apply_Ok_check op g p p1 Hc) as Happ. cbv zeta in Happ.
  unfold target_endpoint in Happ. rewrite He1 in Happ. simpl in Happ.
  rewrite andb_false_r in Happ. unfold endpoint_ops in Happ.
  set (e1 := handshake _ (gen_session g)) in Happ.
  assert (dead (gen_fence g) e1) as Hd1.
  { unfold e1. apply (dead_step _ _ (EvHandshake (gen_session g))). by apply dead_run. }
  pose proof (dead_refused _ e1 op (gen_binding g) (gen_session g) Hd1 Hop) as Hr.
  destruct (endpoint_apply e1 op _ _ _); [done|].
  destruct Happ as (m & _ & _ & _ & _ & ->). done.
Qed.

Lemma endpoint_key_dead_le g g' e :
  gen_fence g' ≤ gen_fence g → dead (gen_fence g) e → dead (gen_fence g') e.
Proof. unfold dead. intros ? [?|[? ?]]; [left; lia|]. right. split; [lia|done]. Qed.

Lemma provider_close_dead p op g :
  op = OpRelease ∨ op = OpFence → (provider_apply p op g).2 = Ok () →
  ∃ e, rp_endpoints (provider_apply p op g).1 !! endpoint_key g = Some e ∧ dead (gen_fence g) e.
Proof.
  intros Hop.
  destruct (check_control_generation p (gen_session g) (gen_epoch g)) as [p1|er] eqn:Hc.
  2:{ unfold provider_apply. by rewrite Hc. }
  pose proof (provider_apply_Ok_check op g p p1 Hc) as Happ. cbv zeta in Happ.
  assert (is_activate op = false) as Hact by by destruct Hop as [->| ->].
  rewrite Hact in Happ. simpl in Happ. unfold endpoint_ops in Happ.
  destruct (endpoint_apply _ op _ _ _) as [e|er] eqn:He;
    destruct Happ as (m & -> & _ & _ & _ & ->); [|done].
  intros _. exists e. rewrite lookup_insert, decide_True by done. split; [done|].
  by eapply close_kills.
Qed.

(** Closing is final at the provider: once the agent has acknowledged the
    release or fence of a generation, no request for that resource or share
    with the same or an older fence is ever accepted again, whatever requests
    come in between (newer generations, other resources, new sessions). *)
Lemma provider_close_final p op g evs g' :
  op = OpRelease ∨ op = OpFence →
  (provider_apply p op g).2 = Ok () →
  endpoint_key g' = endpoint_key g → gen_fence g' ≤ gen_fence g →
  let p' := provider_run (provider_apply p op g).1 evs in
  is_ok (provider_prepare p' g').2 = false ∧ is_ok (provider_activate p' g').2 = false.
Proof.
  intros Hop Hok Hkey Hf p'.
  destruct (provider_close_dead p op g Hop Hok) as (e & He & Hd).
  destruct (provider_run_dead _ _ _ _ evs He Hd) as (e' & He' & Hd').
  fold p' in He'. rewrite <-Hkey in He'.
  pose proof (endpoint_key_dead_le g g' e' Hf Hd') as Hdead.
  split.
  - pose proof (provider_dead_refused p' OpPrepare g' e' He' Hdead (or_introl eq_refl)) as Hr.
    unfold provider_prepare. by destruct (provider_apply p' OpPrepare g') as [q [[]|er]].
  - exact (provider_dead_refused p' OpActivate g' e' He' Hdead (or_intror eq_refl)).
Qed.

(** ** Recovery evidence *)

(** The key of a binding's endpoint. *)
Definition binding_key (b : Binding) : EndpointKey :=
  match binding_scope b with
  | Exclusive => KExclusive (binding_provider b) (binding_node b)
  | IndependentShare => KShare (binding_id b)
  end.

Lemma filter_single {A} (f : A → bool) (l : list A) x :
  List.filter f l = [x] → In x l ∧ f x = true.
Proof.
  intros H. apply filter_In. rewrite H. by left.
Qed.

Lemma filter_fmap_none {A B} (f : A → B) (P : B → bool) (l : list A) :
  (∀ x, x ∈ l → P (f x) = false) → List.filter P (f <$> l) = [].
Proof.
  intros Hl. induction l as [|x l IH]; [done|]. rewrite fmap_cons. cbn [List.filter].
  rewrite Hl by by left. apply IH. intros y ?. apply Hl. by right.
Qed.

(** One entry of an association list satisfies the predicate. *)
Lemma filter_fmap_unique {K V B} (f : K * V → B) (P : B → bool) (l : list (K * V)) k v :
  NoDup l.*1 → (k, v) ∈ l → P (f (k, v)) = true →
  (∀ k' v', (k', v') ∈ l → k' ≠ k → P (f (k', v')) = false) →
  List.filter P (f <$> l) = [f (k, v)].
Proof.
  intros Hnd Hin HP Hother. induction l as [|[k' x] l IH]; [by apply elem_of_nil in Hin|].
  apply NoDup_cons in Hnd as [Hnotin Hnd]. rewrite fmap_cons. cbn [List.filter].
  assert (∀ x, (k', x) ∈ l → False) as Hk'.
  { intros y Hy. apply Hnotin, list_elem_of_fmap. by exists (k', y). }
  apply elem_of_cons in Hin as [[= <- <-]|Hin].
  - rewrite HP. f_equal. apply filter_fmap_none. intros [k1 v1] Hl.
    apply Hother; [by right|]. intros ->. by eapply Hk'.
  - rewrite Hother; [|by left|intros ->; by eapply Hk'].
    apply IH; [done..|]. intros k1 v1 ?. apply Hother. by right.
Qed.

(** An entry of the enumeration is an endpoint of the provider. *)
Lemma enumerate_elem p en :
  In en (enumerate p) ↔ ∃ k e, rp_endpoints p !! k = Some e ∧ en = enumerated (k, e).
Proof.
  unfold enumerate. rewrite <-list_elem_of_In, list_elem_of_fmap. split.
  - intros ([k e] & -> & Hin). exists k, e. split; [|done]. by apply elem_of_bt_iter.
  - intros (k & e & He & ->). exists (k, e). split; [done|]. by apply elem_of_bt_iter.
Qed.

Lemma same_generation_spec en b :
  same_generation en b = true ↔
  en_binding en = Some (binding_id b) ∧ en_node en = binding_node b
  ∧ en_provider en = binding_provider b ∧ en_scope en = binding_scope b
  ∧ en_accepted_fence en = binding_fence b.
Proof.
  unfold same_generation. rewrite !andb_true_iff, !bool_decide_eq_true, !N.eqb_eq. tauto.
Qed.

(** The key of an endpoint that reports [b]'s generation. *)
Lemma reported_key p k e b :
  provider_inv p → rp_endpoints p !! k = Some e →
  same_generation (enumerated (k, e)) b = true → k = binding_key b.
Proof.
  intros Hinv He (Hb & Hn & Hp & Hs & _)%same_generation_spec. simpl in *.
  destruct (Hinv k e He) as (_ & _ & Hk). unfold binding_key.
  destruct k as [pr n|b']; simpl in Hs; rewrite <-Hs.
  - destruct Hk as [<- <-]. by rewrite Hp, Hn.
  - by rewrite (Hk _ Hb).
Qed.

(** Recovery evidence is sound: when the controller holds the enumeration
    of a provider and finds that it proves an active binding, the provider's
    endpoint of that binding really holds that binding, open and active, at
    exactly the binding's fence. *)
Theorem recovery_proof_sound p b :
  provider_inv p → proves (Some (enumerate p)) b = true →
  binding_state b = BActive
  ∧ ∃ e, rp_endpoints p !! binding_key b = Some e
      ∧ ep_binding e = Some (binding_id b) ∧ ep_accepted_fence e = binding_fence b
      ∧ ep_open e = true ∧ ep_phase e = Active
      ∧ ep_node e = binding_node b ∧ ep_provider e = binding_provider b.
Proof.
  intros Hinv. unfold proves.
  destruct (List.filter (candidate b) (enumerate p)) as [|en [|en' l]] eqn:Hf; try done.
  rewrite !andb_true_iff, !bool_decide_eq_true. intros [[[Hst Hsame] Hopen] Hph].
  apply filter_single in Hf as [Hin _].
  apply enumerate_elem in Hin as (k & e & He & ->).
  pose proof (reported_key p k e b Hinv He Hsame) as ->.
  apply same_generation_spec in Hsame as (? & ? & ? & ? & ?). simpl in *.
  split; [done|]. exists e. done.
Qed.

(** Recovery evidence is complete: an active binding whose endpoint holds
    exactly its generation is proved, provided no other endpoint of the agent
    claims the same binding id. *)
Theorem recovery_proof_complete p b e :
  provider_inv p → binding_state b = BActive →
  rp_endpoints p !! binding_key b = Some e →
  ep_binding e = Some (binding_id b) → ep_accepted_fence e = binding_fence b →
  ep_phase e = Active →
  (binding_scope b = IndependentShare → ep_node e = binding_node b ∧ ep_provider e = binding_provider b) →
  (∀ k e', rp_endpoints p !! k = Some e' → ep_binding e' = Some (binding_id b) → k = binding_key b) →
  proves (Some (enumerate p)) b = true.
Proof.
  intros Hinv Hst He Hb Hf Hph Hshare Huniq.
  destruct (Hinv _ _ He) as (Hwf & _ & Hk).
  assert (ep_open e = true) as Hopen by (unfold endpoint_wf in Hwf; rewrite Hph in Hwf; tauto).
  assert (same_generation (enumerated (binding_key b, e)) b = true) as Hsame.
  { apply same_generation_spec. simpl. unfold binding_key in *.
    destruct (binding_scope b); simpl; [destruct Hk|destruct Hshare]; auto. }
  assert (List.filter (candidate b) (enumerate p) = [enumerated (binding_key b, e)]) as Hfilter.
  { apply filter_fmap_unique; [apply (bt_keys_NoDup (rp_endpoints p))|by apply elem_of_bt_iter| |].
    - unfold candidate. apply orb_true_iff. left. by apply bool_decide_eq_true.
    - intros k e' Hke%elem_of_bt_iter Hne. apply not_true_iff_false. unfold candidate.
      rewrite orb_true_iff, !andb_true_iff, !bool_decide_eq_true, !N.eqb_eq. simpl.
      intros [Hb'|[[[Hs Hs'] Hn] Hp]]; [by apply Hne, (Huniq k e')|].
      apply Hne. destruct k as [pr n|]; [|done]. destruct (Hinv _ _ Hke) as (_ & _ & <- & <-).
      unfold binding_key. rewrite Hs. congruence. }
  unfold proves. rewrite Hfilter. rewrite !andb_true_iff, !bool_decide_eq_true. done.
Qed.
