(* ===== verification/Execution.v ===== *)
(** Workload execution on an agent: src/crates/node/src/runtime.rs (native
    processes, the Linux build), container.rs (containers) and executor.rs
    (the supervisor over both).

    What the operating system and the container engine do is the class
    [Host]: every system call and engine command of these files is one of its
    operations, acting on an abstract host state.  Tracking, ordering and
    error handling around those calls are the source's. *)

From S2P Require Import Prelude Words Identifier Text Types Workload Endpoint Protocol.
From Stdlib Require Import Ascii.

Inductive WorkStatus := Gone | WorkRunning | Exited (code : Z).

#[export] Instance WorkStatus_eq_dec : EqDecision WorkStatus.
Proof. solve_decision. Defined.

(** [ContainerConfig] / [ExecutionStart] *)
Record ExecutionStart := mkStart {
  st_command : list string;
  st_limits : LeaseLimits;
  st_image : string;
  st_storage : list StorageMount;
  st_ports : list PortPublish;
  st_grace_secs : N;
  st_devices : list DeviceAccess;
}.

(** The output of an engine command. *)
Record Output := mkOutput { out_success : bool; out_stdout : string; out_stderr : string }.

(** ** The host *)

Class Host (W : Type) := {
  child : Type;   (* a spawned process *)
  group : Type;   (* a cgroup created for a lease *)
  (* [try_wait]: [None] while running; an exit status may carry no code *)
  try_wait : W → child → W * result string (option (option Z));
  wait : W → child → W * result string unit;
  kill : W → child → W * result string unit;
  open_log : W → LeaseId → W * result string unit;
  clone_log : W → LeaseId → W * result string unit;
  create_group : W → string → LeaseId → LeaseLimits → W * result string group;
  group_kill : W → group → W * result string unit;
  group_destroy : W → group → W * result string unit;
  group_drain : W → group → N → W;  (* SIGTERM, then wait up to the grace *)
  filter_devices : W → group → list DeviceAccess → W * result string unit;
  spawn_in_group : W → group → list string → W * result string child;
  spawn : W → list string → W * result string child;
  engine : W → string → list string → W * result string Output;
  read_log : W → LeaseId → string;
  create_probe : W → string → LeaseLimits → W * result string group;
  probe_spawn : W → group → W * result string unit;
  probe_filter : W → group → W * result string unit;
  affinity : W → W * (CpuList * CpuList);
}.

Section execution.
Context {W : Type} `{!Host W}.

(** ** Native processes *)

Inductive TrackedChild := Standard (c : child) | CgroupChild (c : child).

Definition child_of (t : TrackedChild) : child :=
  match t with Standard c | CgroupChild c => c end.

Record ProcessRuntime := mkProcesses {
  pr_children : gmap LeaseId TrackedChild;
  pr_groups : gmap LeaseId group;
  pr_cgroup_root : option string;
}.

Definition processes_new (root : option string) : ProcessRuntime := mkProcesses ∅ ∅ root.

Definition set_children (m : gmap LeaseId TrackedChild) (r : ProcessRuntime) : ProcessRuntime :=
  mkProcesses m (pr_groups r) (pr_cgroup_root r).
Definition set_groups (m : gmap LeaseId group) (r : ProcessRuntime) : ProcessRuntime :=
  mkProcesses (pr_children r) m (pr_cgroup_root r).

(** Discard a group after a failed launch. *)
Definition discard_group (w : W) (g : group) : W :=
  let w := (group_kill w g).1 in (group_destroy w g).1.

(** The launch inside a fresh group. *)
Definition launch_in_group (w : W) (r : ProcessRuntime) (lease : LeaseId) (g : group)
    (program : string) (args : list string) (devices : list DeviceAccess) :
    W * ProcessRuntime * result string unit :=
  let '(w, filtered) :=
    match devices with [] => (w, Ok ()) | _ => filter_devices w g devices end in
  match filtered with
  | Err e => (discard_group w g, r,
      Err ("device enforcement for lease " +:+ show_lease lease +:+ ": " +:+ e))
  | Ok _ =>
      let '(w, spawned) := spawn_in_group w g (program :: args) in
      match spawned with
      | Ok c =>
          (w, mkProcesses (<[lease := CgroupChild c]> (pr_children r))
                (<[lease := g]> (pr_groups r)) (pr_cgroup_root r), Ok ())
      | Err e => (discard_group w g, r, Err ("spawn " +:+ program +:+ ": " +:+ e))
      end
  end.

(** [ProcessRuntime::activate] *)
Definition process_activate (w : W) (r : ProcessRuntime) (lease : LeaseId)
    (command : list string) (limits : LeaseLimits) (devices : list DeviceAccess) :
    W * ProcessRuntime * result string unit :=
  match pr_children r !! lease with
  | Some _ => (w, r, Ok ())
  | None =>
      match command with
      | [] => (w, r, Err ("lease " +:+ show_lease lease +:+ " has no command to execute"))
      | program :: args =>
          if negb (bool_decide (devices = [])) && bool_decide (pr_cgroup_root r = None) then
            (w, r, Err ("lease " +:+ show_lease lease +:+
               " has device claims but process device enforcement requires a cgroup v2 root"))
          else
            let '(w, logged) := open_log w lease in
            match logged with
            | Err e => (w, r, Err e)
            | Ok _ =>
                match pr_cgroup_root r, limits_is_empty limits && bool_decide (devices = []) with
                | Some root, false =>
                    let '(w, created) := create_group w root lease limits in
                    match created with
                    | Err e => (w, r, Err e)
                    | Ok g => launch_in_group w r lease g program args devices
                    end
                | _, _ =>
                    let '(w, cloned) := clone_log w lease in
                    match cloned with
                    | Err e => (w, r, Err e)
                    | Ok _ =>
                        let '(w, spawned) := spawn w (program :: args) in
                        match spawned with
                        | Err e => (w, r, Err ("spawn " +:+ program +:+ ": " +:+ e))
                        | Ok c =>
                            (w, set_children (<[lease := Standard c]> (pr_children r)) r, Ok ())
                        end
                    end
                end
            end
      end
  end.

(** [ProcessRuntime::reap] *)
Definition reap (w : W) (r : ProcessRuntime) (lease : LeaseId) :
    W * ProcessRuntime * result string bool :=
  match pr_children r !! lease with
  | None => (w, r, Ok false)
  | Some t =>
      let r := set_children (delete lease (pr_children r)) r in
      let '(w, polled) := try_wait w (child_of t) in
      let was_live := match polled with Ok None => true | _ => false end in
      let '(w, waited) := wait w (child_of t) in
      match waited with
      | Err e => (w, r, Err ("reap lease " +:+ show_lease lease +:+ ": " +:+ e))
      | Ok _ => (w, r, Ok was_live)
      end
  end.

(** The end of [terminate] for a child outside any group. *)
Definition terminate_child (w : W) (r : ProcessRuntime) (lease : LeaseId) :
    W * ProcessRuntime * result string bool :=
  match pr_children r !! lease with
  | None => (w, r, Ok false)
  | Some t =>
      let r := set_children (delete lease (pr_children r)) r in
      let '(w, polled) := try_wait w (child_of t) in
      match polled with
      | Ok (Some _) => (w, r, Ok false)
      | Ok None =>
          let '(w, killed) := kill w (child_of t) in
          match killed with
          | Err e => (w, r, Err ("kill lease " +:+ show_lease lease +:+ ": " +:+ e))
          | Ok _ =>
              let '(w, waited) := wait w (child_of t) in
              match waited with
              | Err e => (w, r, Err ("reap lease " +:+ show_lease lease +:+ ": " +:+ e))
              | Ok _ => (w, r, Ok true)
              end
          end
      | Err e => (w, r, Err ("poll lease " +:+ show_lease lease +:+ ": " +:+ e))
      end
  end.

(** [ProcessRuntime::terminate] *)
Definition process_terminate (w : W) (r : ProcessRuntime) (lease : LeaseId) :
    W * ProcessRuntime * result string bool :=
  match pr_groups r !! lease with
  | Some g =>
      let '(w, killed) := group_kill w g in
      match killed with
      | Err e => (w, r, Err e)
      | Ok _ =>
          let '(w, r, reaped) := reap w r lease in
          match reaped with
          | Err e => (w, r, Err e)
          | Ok live =>
              let r := set_groups (delete lease (pr_groups r)) r in
              ((group_destroy w g).1, r, Ok live)
          end
      end
  | None => terminate_child w r lease
  end.

(** [ProcessRuntime::terminate_with_grace] *)
Definition process_terminate_with_grace (w : W) (r : ProcessRuntime) (lease : LeaseId) (grace : N) :
    W * ProcessRuntime * result string bool :=
  if grace =? 0 then process_terminate w r lease
  else
    let w := match pr_groups r !! lease with
             | Some g => group_drain w g grace
             | None => w
             end in
    process_terminate w r lease.

(** [ProcessRuntime::status] *)
Definition process_status (w : W) (r : ProcessRuntime) (lease : LeaseId) :
    W * ProcessRuntime * WorkStatus :=
  match pr_children r !! lease with
  | None => (w, r, Gone)
  | Some t =>
      let '(w, polled) := try_wait w (child_of t) in
      match polled with
      | Ok (Some code) =>
          (w, set_children (delete lease (pr_children r)) r, Exited (default (-1)%Z code))
      | Ok None => (w, r, WorkRunning)
      | Err _ => (w, r, Gone)
      end
  end.

(** *** Capabilities: what a probe group of each kind proved *)

Definition no_placement : CpuPlacement := mkPlacement (mkCpuList []) (mkCpuList []).

Definition probe_process_limit (w : W) (root : string) (limits : LeaseLimits) : W * bool :=
  let '(w, created) := create_probe w root limits in
  match created with
  | Err _ => (w, false)
  | Ok g =>
      let '(w, proof) := probe_spawn w g in
      let '(w, cleanup) := group_destroy w g in
      (w, is_ok proof && is_ok cleanup)
  end.

Definition probe_device_isolation (w : W) (root : string) : W * bool :=
  let '(w, created) := create_probe w root (mkLimits 0 0 no_placement) in
  match created with
  | Err _ => (w, false)
  | Ok g =>
      let '(w, filter) := probe_filter w g in
      let '(w, process) := if is_ok filter then probe_spawn w g else (w, Ok ()) in
      let '(w, cleanup) := group_destroy w g in
      (w, is_ok filter && is_ok process && is_ok cleanup)
  end.

Definition probe_placement (w : W) (root : string) (cpus mems : CpuList) : W * bool :=
  if cpu_list_is_empty cpus || cpu_list_is_empty mems then (w, false)
  else
    let '(w, created) := create_probe w root (mkLimits 0 0 (mkPlacement cpus mems)) in
    match created with
    | Err _ => (w, false)
    | Ok g => let '(w, cleanup) := group_destroy w g in (w, is_ok cleanup)
    end.

(** [ProcessRuntime::capabilities] *)
Definition process_capabilities (w : W) (r : ProcessRuntime) : W * RuntimeCapabilities :=
  match pr_cgroup_root r with
  | None => (w, mkRuntime true false false false false false)
  | Some root =>
      let '(w, cpu_limit) := probe_process_limit w root (mkLimits 1 0 no_placement) in
      let '(w, memory_limit) := probe_process_limit w root (mkLimits 0 (2 ^ 20) no_placement) in
      let '(w, isolation) := probe_device_isolation w root in
      let '(w, (cpus, mems)) := affinity w in
      let '(w, placement) := probe_placement w root cpus mems in
      (w, mkRuntime true cpu_limit memory_limit isolation placement placement)
  end.

(** ** Containers *)

Record ContainerRuntime := mkContainers {
  cr_engine : string;
  cr_namespace : string;
  cr_available : bool;
  cr_containers : gmap LeaseId string;
  cr_relabels : bool;
  cr_use_cdi : bool;
  cr_cdi_spec_dir : option string;
}.

Definition set_containers (m : gmap LeaseId string) (r : ContainerRuntime) : ContainerRuntime :=
  mkContainers (cr_engine r) (cr_namespace r) (cr_available r) m (cr_relabels r)
    (cr_use_cdi r) (cr_cdi_spec_dir r).

Definition container_capabilities (r : ContainerRuntime) : RuntimeCapabilities :=
  let a := cr_available r in mkRuntime a a a a false false.

Definition container_name (r : ContainerRuntime) (lease : LeaseId) : string :=
  "archon-" +:+ cr_namespace r +:+ "-lease-" +:+ pretty lease.

Definition device_args (r : ContainerRuntime) (d : DeviceAccess) : list string :=
  match (if cr_use_cdi r then da_cdi d else None) with
  | Some cdi => ["--device=" +:+ cdi]
  | None => (λ path, "--device=" +:+ path +:+ ":" +:+ path) <$> (da_dev d :: da_paths d)
  end.

Definition mount_arg (r : ContainerRuntime) (m : StorageMount) : string :=
  "--volume=" +:+ host_path m +:+ ":" +:+ mount_path m +:+ (if cr_relabels r then ":Z" else "").

Definition port_arg (p : PortPublish) : string :=
  match host_port p with
  | Some host => "-p=" +:+ pretty host +:+ ":" +:+ pretty (container_port p)
  | None => "-p=" +:+ pretty (container_port p)
  end.

(** The arguments of the engine's run command. *)
Definition run_args (r : ContainerRuntime) (lease : LeaseId) (s : ExecutionStart) : list string :=
  match cr_cdi_spec_dir r with Some dir => ["--cdi-spec-dir"; dir] | None => [] end
  ++ ["run"; "-d"; "--name"; container_name r lease; "--pull"; "missing"]
  ++ (if 0 <? lim_cpu_count (st_limits s)
      then ["--cpus=" +:+ pretty (lim_cpu_count (st_limits s))] else [])
  ++ (if 0 <? lim_memory_bytes (st_limits s)
      then ["--memory=" +:+ pretty (lim_memory_bytes (st_limits s)) +:+ "b"] else [])
  ++ (st_devices s ≫= device_args r)
  ++ (mount_arg r <$> st_storage s)
  ++ (port_arg <$> st_ports s)
  ++ st_image s :: st_command s.

(** [ContainerRuntime::activate] *)
Definition container_activate (w : W) (r : ContainerRuntime) (lease : LeaseId) (s : ExecutionStart) :
    W * ContainerRuntime * result string unit :=
  match cr_containers r !! lease with
  | Some _ => (w, r, Ok ())
  | None =>
      let '(w, out) := engine w (cr_engine r) (run_args r lease s) in
      match out with
      | Err e => (w, r, Err ("run " +:+ cr_engine r +:+ ": " +:+ e))
      | Ok out =>
          if out_success out
          then (w, set_containers (<[lease := container_name r lease]> (cr_containers r)) r, Ok ())
          else (w, r, Err (cr_engine r +:+ " run failed: " +:+ trim (out_stderr out)))
      end
  end.

Definition is_tracked (r : ContainerRuntime) (lease : LeaseId) : bool :=
  bool_decide (is_Some (cr_containers r !! lease)).

(** One engine command on a container that must succeed. *)
Definition engine_step (w : W) (r : ContainerRuntime) (what name : string) (args : list string) :
    W * result string unit :=
  let '(w, out) := engine w (cr_engine r) args in
  (w, match out with
      | Err e => Err (cr_engine r +:+ " " +:+ what +:+ ": " +:+ e)
      | Ok out =>
          if out_success out then Ok ()
          else Err (cr_engine r +:+ " " +:+ what +:+ " " +:+ name +:+ ": " +:+ trim (out_stderr out))
      end).

(** [ContainerRuntime::terminate_with_grace] *)
Definition container_terminate_with_grace (w : W) (r : ContainerRuntime) (lease : LeaseId) (grace : N) :
    W * ContainerRuntime * result string bool :=
  match cr_containers r !! lease with
  | None => (w, r, Ok false)
  | Some name =>
      let '(w, stopped) := engine_step w r "stop" name ["stop"; "-t"; pretty grace; name] in
      match stopped with
      | Err e => (w, r, Err e)
      | Ok _ =>
          let '(w, removed) := engine_step w r "rm" name ["rm"; "-f"; name] in
          match removed with
          | Err e => (w, r, Err e)
          | Ok _ => (w, set_containers (delete lease (cr_containers r)) r, Ok true)
          end
      end
  end.

(** [str::parse::<i32>] of the engine's answer. *)
Definition parse_i32 (s : string) : option Z :=
  match s with
  | String c rest =>
      if Ascii.eqb c "-" then
        (if bool_decide (rest = "") then None
         else n ← parse_digits 0 rest; if n <=? 2 ^ 31 then Some (- Z.of_N n)%Z else None)
      else n ← parse_uint (2 ^ 31 - 1) s; Some (Z.of_N n)
  | "" => None
  end.

(** [ContainerRuntime::status] *)
Definition container_status (w : W) (r : ContainerRuntime) (lease : LeaseId) : W * WorkStatus :=
  match cr_containers r !! lease with
  | None => (w, Gone)
  | Some name =>
      let '(w, out) := engine w (cr_engine r) ["inspect"; "-f"; "{{.State.Running}}"; name] in
      match out with
      | Err _ => (w, Gone)
      | Ok out =>
          if out_success out && bool_decide (trim (out_stdout out) = "true") then (w, WorkRunning)
          else
            let '(w, out) := engine w (cr_engine r) ["inspect"; "-f"; "{{.State.ExitCode}}"; name] in
            let code :=
              match out with
              | Ok out => if out_success out then parse_i32 (trim (out_stdout out)) else None
              | Err _ => None
              end in
            (w, Exited (default (-1)%Z code))
      end
  end.

(** [ContainerRuntime::logs] *)
Definition container_logs (w : W) (r : ContainerRuntime) (lease : LeaseId) : W * string :=
  match cr_containers r !! lease with
  | None => (w, "")
  | Some name =>
      let '(w, out) := engine w (cr_engine r) ["logs"; name] in
      (w, match out with Ok out => out_stdout out +:+ out_stderr out | Err _ => "" end)
  end.

(** ** The supervisor *)

Record ExecutionSupervisor := mkSupervisor {
  sv_process : ProcessRuntime;
  sv_containers : ContainerRuntime;
  sv_grace : gmap LeaseId N;
}.

(** [ExecutionSupervisor::capabilities] *)
Definition execution_capabilities (w : W) (s : ExecutionSupervisor) : W * ExecutionCapabilities :=
  let '(w, p) := process_capabilities w (sv_process s) in
  (w, mkCapabilities p (container_capabilities (sv_containers s))).

(** [ExecutionSupervisor::start] *)
Definition execution_start (w : W) (s : ExecutionSupervisor) (lease : LeaseId) (start : ExecutionStart) :
    W * ExecutionSupervisor * result string unit :=
  if bool_decide (st_image start = "") then
    if negb (bool_decide (st_storage start = [])) || negb (bool_decide (st_ports start = []))
    then (w, s, Err "volumes and published ports need an OCI image")
    else
      let '(w, p, r) := process_activate w (sv_process s) lease (st_command start)
                          (st_limits start) (st_devices start) in
      let grace := if is_ok r then <[lease := st_grace_secs start]> (sv_grace s) else sv_grace s in
      (w, mkSupervisor p (sv_containers s) grace, r)
  else
    let '(w, c, r) := container_activate w (sv_containers s) lease start in
    let grace := if is_ok r then <[lease := st_grace_secs start]> (sv_grace s) else sv_grace s in
    (w, mkSupervisor (sv_process s) c grace, r).

(** [ExecutionSupervisor::status] *)
Definition execution_status (w : W) (s : ExecutionSupervisor) (lease : LeaseId) :
    W * ExecutionSupervisor * WorkStatus :=
  if is_tracked (sv_containers s) lease then
    let '(w, st) := container_status w (sv_containers s) lease in (w, s, st)
  else
    let '(w, p, st) := process_status w (sv_process s) lease in
    (w, mkSupervisor p (sv_containers s) (sv_grace s), st).

(** [ExecutionSupervisor::logs] *)
Definition execution_logs (w : W) (s : ExecutionSupervisor) (lease : LeaseId) : W * string :=
  if is_tracked (sv_containers s) lease then container_logs w (sv_containers s) lease
  else (w, read_log w lease).

(** [ExecutionSupervisor::stop] *)
Definition execution_stop (w : W) (s : ExecutionSupervisor) (lease : LeaseId) :
    W * ExecutionSupervisor * result string bool :=
  let grace := default 0 (sv_grace s !! lease) in
  let graces := delete lease (sv_grace s) in
  if is_tracked (sv_containers s) lease then
    let '(w, c, r) := container_terminate_with_grace w (sv_containers s) lease grace in
    (w, mkSupervisor (sv_process s) c graces, r)
  else
    let '(w, p, r) := process_terminate_with_grace w (sv_process s) lease grace in
    (w, mkSupervisor p (sv_containers s) graces, r).
End execution.
