(* ===== verification/Agent.v ===== *)
(** The agent: src/crates/node/src/agent.rs.

    [LeaseAgent::handle] composes the resource provider (Provider) and the
    execution supervisor (Execution).  Discovery of the local machine is a
    parameter: it reads the operating system.  The theorems about it follow. *)

From S2P Require Import Prelude Words Identifier Text Types Workload Endpoint Protocol Provider.
From S2P Require Import Execution.

Section agent.
Context {W : Type} `{!Host W}.
(** [discover::try_describe] on the current host. *)
Context (try_describe : W → result string MachineDescription).

Record LeaseAgent := mkAgent {
  ag_provider : ResourceProvider;
  ag_execution : ExecutionSupervisor;
  ag_instance_id : string;
  ag_name : option string;
}.

(** [LeaseAgent::new], with the container runtime found at start-up. *)
Definition agent_new (root : option string) (containers : ContainerRuntime) : LeaseAgent :=
  mkAgent provider_new (mkSupervisor (processes_new root) containers ∅) "" None.

Definition with_identity (a : LeaseAgent) (instance_id : string) (name : option string) : LeaseAgent :=
  mkAgent (ag_provider a) (ag_execution a) instance_id name.

Definition set_provider (a : LeaseAgent) (p : ResourceProvider) : LeaseAgent :=
  mkAgent p (ag_execution a) (ag_instance_id a) (ag_name a).
Definition set_execution (a : LeaseAgent) (s : ExecutionSupervisor) : LeaseAgent :=
  mkAgent (ag_provider a) s (ag_instance_id a) (ag_name a).

Definition hello (w : W) (a : LeaseAgent) : AgentResponse :=
  match try_describe w with
  | Err reason => RFailed 0 ("device discovery incomplete: " +:+ reason)
  | Ok d =>
      Welcome (ag_instance_id a) (default (md_name d) (ag_name a)) (md_cpus d) (md_memory_bytes d)
        (md_host_nodes d) (md_devices d)
  end.

(** A binding operation and its reply. *)
Definition binding_reply (a : LeaseAgent) (binding : u64)
    (out : ResourceProvider * result string unit) (done : AgentResponse) :
    LeaseAgent * AgentResponse :=
  let '(p, r) := out in
  (set_provider a p, match r with Ok _ => done | Err reason => RFailed binding reason end).

(** [LeaseAgent::handle] *)
Definition handle (w : W) (a : LeaseAgent) (request : AgentRequest) :
    W * LeaseAgent * AgentResponse :=
  match request with
  | Hello => (w, a, hello w a)
  | Capabilities =>
      let '(w, caps) := execution_capabilities w (ag_execution a) in (w, a, RCapabilities caps)
  | Register _ _ _ _ _ _ => (w, a, RFailed 0 "Register is not handled by an agent")
  | Status lease =>
      let '(w, s, status) := execution_status w (ag_execution a) lease in
      (w, set_execution a s,
       Running lease (bool_decide (status = WorkRunning))
         (match status with Exited code => Some code | _ => None end))
  | Logs lease =>
      let '(w, output) := execution_logs w (ag_execution a) lease in (w, a, RLogs lease output)
  | EnumerateBindings => (w, a, BindingsEnumerated (enumerate (ag_provider a)))
  | Prepare binding _ node provider scope session fence epoch =>
      let g := mkGeneration binding node provider scope session fence epoch in
      let '(p, r) := provider_prepare (ag_provider a) g in
      (w, set_provider a p,
       match r with Ok handle => RPrepared binding handle | Err reason => RFailed binding reason end)
  | Activate binding _ node provider scope session fence epoch =>
      let g := mkGeneration binding node provider scope session fence epoch in
      let '(a, reply) := binding_reply a binding (provider_activate (ag_provider a) g)
                           (RActivated binding) in (w, a, reply)
  | Release binding _ node provider scope session fence epoch =>
      let g := mkGeneration binding node provider scope session fence epoch in
      let '(a, reply) := binding_reply a binding (provider_release (ag_provider a) g)
                           (RReleased binding) in (w, a, reply)
  | Fence binding _ node provider scope session fence epoch =>
      let g := mkGeneration binding node provider scope session fence epoch in
      let '(a, reply) := binding_reply a binding (provider_fence (ag_provider a) g)
                           (RFenced binding) in (w, a, reply)
  | StartExecution lease session epoch command limits image storage ports grace devices =>
      let '(p, authorized) := authorize_execution (ag_provider a) session epoch in
      let a := set_provider a p in
      match authorized with
      | Err reason => (w, a, ExecutionFailed lease reason)
      | Ok _ =>
          let '(w, s, r) := execution_start w (ag_execution a) lease
            (mkStart command limits image storage ports grace devices) in
          (w, set_execution a s,
           match r with Ok _ => ExecutionStarted lease | Err reason => ExecutionFailed lease reason end)
      end
  | StopExecution lease session epoch =>
      let '(p, authorized) := authorize_execution (ag_provider a) session epoch in
      let a := set_provider a p in
      match authorized with
      | Err reason => (w, a, ExecutionStopFailed lease reason)
      | Ok _ =>
          let '(w, s, r) := execution_stop w (ag_execution a) lease in
          (w, set_execution a s,
           match r with
           | Ok _ => ExecutionStopped lease
           | Err reason => ExecutionStopFailed lease reason
           end)
      end
  end.

(** Serving a sequence of requests: the replies in order. *)
Fixpoint serve (w : W) (a : LeaseAgent) (requests : list AgentRequest) :
    W * LeaseAgent * list AgentResponse :=
  match requests with
  | [] => (w, a, [])
  | request :: requests =>
      let '(w, a, reply) := handle w a request in
      let '(w, a, replies) := serve w a requests in
      (w, a, reply :: replies)
  end.
End agent.

(** * The agent's theorems: closing is final, stale controllers have no power,
    devices are filtered before a workload starts, and what a stop proves. *)

From S2P Require Import ProviderFacts.

Section agent.
Context {W : Type} `{!Host W}.
Context (try_describe : W → result string MachineDescription).

Local Abbreviation handle := (handle try_describe) (only parsing).
Local Abbreviation serve := (serve try_describe) (only parsing).
Implicit Types (w : W) (a : LeaseAgent).

(** ** The provider's part of a request *)

Definition provider_events (request : AgentRequest) : list provider_event :=
  match request with
  | Prepare b _ n p sc s f e => [PvApply OpPrepare (mkGeneration b n p sc s f e)]
  | Activate b _ n p sc s f e => [PvApply OpActivate (mkGeneration b n p sc s f e)]
  | Release b _ n p sc s f e => [PvApply OpRelease (mkGeneration b n p sc s f e)]
  | Fence b _ n p sc s f e => [PvApply OpFence (mkGeneration b n p sc s f e)]
  | StartExecution _ s e _ _ _ _ _ _ _ | StopExecution _ s e => [PvAuthorize s e]
  | _ => []
  end.

(** Running executions, and the host they run on, are touched only by the
    execution requests. *)
Definition is_binding_request (request : AgentRequest) : bool :=
  match request with
  | Prepare _ _ _ _ _ _ _ _ | Activate _ _ _ _ _ _ _ _
  | Release _ _ _ _ _ _ _ _ | Fence _ _ _ _ _ _ _ _ => true
  | _ => false
  end.

Lemma handle_provider w a request :
  ag_provider (handle w a request).1.2 = provider_run (ag_provider a) (provider_events request).
Proof.
  destruct request; simpl; try done.
  - by destruct (execution_capabilities w (ag_execution a)).
  - by destruct (provider_prepare _ _).
  - unfold provider_activate. by destruct (provider_apply _ _ _).
  - destruct (authorize_execution _ _ _) as [p [[]|r]]; simpl; [|done].
    by destruct (execution_start w _ _ _) as [[? ?] ?].
  - destruct (authorize_execution _ _ _) as [p [[]|r]]; simpl; [|done].
    by destruct (execution_stop w _ _) as [[? ?] ?].
  - unfold provider_release. by destruct (provider_apply _ _ _).
  - unfold provider_fence. by destruct (provider_apply _ _ _).
  - by destruct (execution_status w _ _) as [[? ?] ?].
  - by destruct (execution_logs w _ _).
Qed.

Lemma serve_provider w a requests :
  ag_provider (serve w a requests).1.2
  = provider_run (ag_provider a) (requests ≫= provider_events).
Proof.
  revert w a. induction requests as [|request requests IH]; intros w a; [done|].
  simpl. pose proof (handle_provider w a request) as Hp.
  destruct (handle w a request) as [[w1 a1] reply]. simpl in Hp.
  specialize (IH w1 a1). destruct (serve w1 a1 requests) as [[w2 a2] replies]. simpl in *.
  rewrite IH, Hp. unfold provider_run. by rewrite foldl_app.
Qed.

(** A binding request leaves executions and the host alone. *)
Lemma binding_request_frame w a request :
  is_binding_request request = true →
  (handle w a request).1.1 = w ∧ ag_execution (handle w a request).1.2 = ag_execution a.
Proof.
  destruct request; simpl; try done; intros _.
  - by destruct (provider_prepare _ _).
  - by destruct (provider_activate _ _).
  - by destruct (provider_release _ _).
  - by destruct (provider_fence _ _).
Qed.

(** ** Closing is final *)

(** The generation of a closing request, and the reply that acknowledges it. *)
Definition closes (request : AgentRequest) (reply : AgentResponse) (g : EndpointGeneration) : Prop :=
  match request with
  | Release b _ n p sc s f e => g = mkGeneration b n p sc s f e ∧ reply = RReleased b
  | Fence b _ n p sc s f e => g = mkGeneration b n p sc s f e ∧ reply = RFenced b
  | _ => False
  end.

(** Preparing or activating one generation. *)
Definition opens (request : AgentRequest) (g : EndpointGeneration) : Prop :=
  match request with
  | Prepare b _ n p sc s f e | Activate b _ n p sc s f e => g = mkGeneration b n p sc s f e
  | _ => False
  end.

Lemma closes_provider w a request g :
  closes request (handle w a request).2 g →
  ∃ op, (op = OpRelease ∨ op = OpFence) ∧ (provider_apply (ag_provider a) op g).2 = Ok ()
    ∧ ag_provider (handle w a request).1.2 = (provider_apply (ag_provider a) op g).1.
Proof.
  destruct request; simpl; try done.
  - unfold provider_release. intros [-> Hr].
    set (g := mkGeneration _ _ _ _ _ _ _) in *. exists OpRelease. split; [by left|].
    destruct (provider_apply (ag_provider a) OpRelease g) as [p [[]|r]]; simpl in *; done.
  - unfold provider_fence. intros [-> Hr].
    set (g := mkGeneration _ _ _ _ _ _ _) in *. exists OpFence. split; [by right|].
    destruct (provider_apply (ag_provider a) OpFence g) as [p [[]|r]]; simpl in *; done.
Qed.

(** C22. Closing is final at the agent: after the agent has answered Released
    or Fenced for a generation, and after serving any further requests, every
    attempt to prepare or activate the same or an older generation of that
    resource (or share) is answered with a failure. *)
Theorem agent_close_final w a closing g requests opening g' :
  closes closing (handle w a closing).2 g →
  opens opening g' → endpoint_key g' = endpoint_key g → gen_fence g' ≤ gen_fence g →
  let '(w1, a1) := (handle w a closing).1 in
  let '(w2, a2) := (serve w1 a1 requests).1 in
  ∃ reason, (handle w2 a2 opening).2 = RFailed (gen_binding g') reason.
Proof.
  intros Hclose Hopen Hkey Hf.
  destruct (closes_provider w a closing g Hclose) as (op & Hop & Hok & Hprov).
  destruct (handle w a closing) as [[w1 a1] reply]. simpl in *.
  pose proof (serve_provider w1 a1 requests) as Hserve.
  destruct (serve w1 a1 requests) as [[w2 a2] replies]. simpl in *.
  destruct (provider_close_final (ag_provider a) op g (requests ≫= provider_events) g' Hop Hok Hkey Hf)
    as [Hprep Hact].
  rewrite <-Hprov, <-Hserve in Hprep, Hact.
  destruct opening; simpl in Hopen; try done; subst g'; simpl.
  - destruct (provider_prepare _ _) as [p [h|reason]]; [done|]. by exists reason.
  - destruct (provider_activate _ _) as [p [h|reason]]; [done|]. by exists reason.
Qed.

(** ** Stale controllers *)

(** The session and epoch a request carries, if it carries any. *)
Definition control_generation (request : AgentRequest) : option (u64 * u64) :=
  match request with
  | Prepare _ _ _ _ _ s _ e | Activate _ _ _ _ _ s _ e
  | Release _ _ _ _ _ s _ e | Fence _ _ _ _ _ s _ e => Some (s, e)
  | StartExecution _ s e _ _ _ _ _ _ _ | StopExecution _ s e => Some (s, e)
  | _ => None
  end.

Definition is_refusal (reply : AgentResponse) : bool :=
  match reply with
  | RFailed _ _ | ExecutionFailed _ _ | ExecutionStopFailed _ _ => true
  | _ => false
  end.

Lemma stale_check p s e :
  s < rp_session p ∨ e < rp_epoch p → ∃ r, check_control_generation p s e = Err r.
Proof.
  intros H. unfold check_control_generation.
  destruct (N.ltb_spec e (rp_epoch p)); [eauto|].
  destruct (N.ltb_spec s (rp_session p)); [eauto|lia].
Qed.

(** C23. A superseded controller has no power over an agent: once the agent has
    accepted a newer session or epoch, every binding or execution request
    with an older one is refused, and neither the provider, nor any
    execution, nor the host changes. *)
Theorem stale_controller_powerless w a request s e :
  control_generation request = Some (s, e) →
  s < rp_session (ag_provider a) ∨ e < rp_epoch (ag_provider a) →
  (handle w a request).1 = (w, a) ∧ is_refusal (handle w a request).2 = true.
Proof.
  intros Hgen [r Hr]%stale_check.
  assert (∀ op g, gen_session g = s → gen_epoch g = e →
    provider_apply (ag_provider a) op g = (ag_provider a, Err r)) as Happ.
  { intros op g <- <-. unfold provider_apply. by rewrite Hr. }
  assert (set_provider a (ag_provider a) = a) as Hset by by destruct a.
  destruct request; simpl in *; try done; simplify_eq;
    unfold provider_prepare, provider_activate, provider_release, provider_fence,
      authorize_execution;
    rewrite ?Happ by done; rewrite ?Hr; simpl; rewrite Hset; done.
Qed.

(** ** Executions *)

(** Devices are confined before the workload runs: when a process with
    device claims starts, it was spawned inside a group on which the device
    filter had already been installed for exactly those devices. *)
Theorem devices_filtered_before_start w r lease command limits devices w' r' :
  pr_children r !! lease = None → devices ≠ [] →
  process_activate w r lease command limits devices = (w', r', Ok ()) →
  ∃ w1 w2 g c, filter_devices w1 g devices = (w2, Ok ())
    ∧ spawn_in_group w2 g command = (w', Ok c)
    ∧ pr_children r' !! lease = Some (CgroupChild c) ∧ pr_groups r' !! lease = Some g.
Proof.
  intros Hnew Hdev. unfold process_activate. rewrite Hnew.
  destruct command as [|program args]; [done|].
  rewrite (bool_decide_eq_false_2 (devices = [])) by done. rewrite andb_false_r. simpl.
  destruct (pr_cgroup_root r) as [root|]; simpl; [|done].
  destruct (open_log w lease) as [w1 [[]|e]]; [|done].
  destruct (create_group w1 root lease limits) as [w2 [g|e]]; [|done].
  unfold launch_in_group. destruct devices as [|d ds]; [done|].
  destruct (filter_devices w2 g (d :: ds)) as [w3 [[]|e]] eqn:Hf; [|done].
  destruct (spawn_in_group w3 g (program :: args)) as [w4 [c|e]] eqn:Hs; [|done].
  intros [= <- <-]. exists w2, w3, g, c. simpl.
  rewrite !lookup_insert, !decide_True by done. done.
Qed.

(** Starting is idempotent by lease: a tracked lease is left alone. *)
Lemma activate_tracked w r lease command limits devices c :
  pr_children r !! lease = Some c →
  process_activate w r lease command limits devices = (w, r, Ok ()).
Proof. intros H. unfold process_activate. by rewrite H. Qed.

(** A failed start leaves nothing tracked. *)
Lemma activate_error_untracked w r lease command limits devices w' r' e :
  process_activate w r lease command limits devices = (w', r', Err e) → r' = r.
Proof.
  unfold process_activate. destruct (pr_children r !! lease); [done|].
  destruct command as [|program args]; [by intros [= _ <- _]|].
  destruct (_ && _); [by intros [= _ <- _]|].
  destruct (open_log w lease) as [w1 [[]|?]]; [|by intros [= _ <- _]].
  assert (∀ w, (let '(w, cloned) := clone_log w lease in
     match cloned with
     | Err e => (w, r, Err e)
     | Ok _ =>
         let '(w, spawned) := spawn w (program :: args) in
         match spawned with
         | Err e => (w, r, Err ("spawn " +:+ program +:+ ": " +:+ e))
         | Ok c => (w, set_children (<[lease := Standard c]> (pr_children r)) r, Ok ())
         end
     end) = (w', r', Err e) → r' = r) as Hplain.
  { intros w0. destruct (clone_log w0 lease) as [w2 [[]|?]]; [|by intros [= _ <- _]].
    destruct (spawn w2 _) as [w3 [c|?]]; [done|by intros [= _ <- _]]. }
  destruct (pr_cgroup_root r) as [root|]; [|apply Hplain].
  destruct (limits_is_empty limits && bool_decide (devices = [])); [apply Hplain|].
  destruct (create_group w1 root lease limits) as [w2 [g|?]]; [|by intros [= _ <- _]].
  unfold launch_in_group.
  destruct (match devices with [] => _ | _ => _ end) as [w3 [[]|?]]; [|by intros [= _ <- _]].
  destruct (spawn_in_group w3 g _) as [w4 [c|?]]; [done|by intros [= _ <- _]].
Qed.

(** What an acknowledged stop leaves behind: the lease is not tracked. *)
Lemma terminate_untracks w r lease w' r' b :
  process_terminate w r lease = (w', r', Ok b) →
  pr_children r' !! lease = None ∧ pr_groups r' !! lease = None.
Proof.
  unfold process_terminate, terminate_child, reap.
  destruct (pr_groups r !! lease) as [g|] eqn:Hg.
  - destruct (group_kill w g) as [w1 [[]|e]]; [|done].
    destruct (pr_children r !! lease) as [t|] eqn:Ht.
    + destruct (try_wait w1 _) as [w2 p]. destruct (wait w2 _) as [w3 [[]|e]]; [|done].
      intros [= _ <- _]. simpl. by rewrite !lookup_delete, !decide_True by done.
    + intros [= _ <- _]. simpl. by rewrite lookup_delete, decide_True by done.
  - destruct (pr_children r !! lease) as [t|] eqn:Ht; [|by intros [= _ <- _]].
    destruct (try_wait w _) as [w1 [[s|]|e]]; [|destruct (kill w1 _) as [w2 [[]|e]]; [|done];
      destruct (wait w2 _) as [w3 [[]|e]]; [|done]|done];
    intros [= _ <- _]; simpl; by rewrite lookup_delete, decide_True by done.
Qed.

(** A failed kill is not retried: a process outside any group is dropped
    from tracking before it is killed, so when the kill fails the stop is
    refused once, and the next stop is acknowledged without any system call,
    although the process was last seen running. *)
Theorem stop_after_failed_kill w r lease c w1 w2 e :
  pr_groups r !! lease = None → pr_children r !! lease = Some (Standard c) →
  try_wait w c = (w1, Ok None) → kill w1 c = (w2, Err e) →
  ∃ r' reason, process_terminate w r lease = (w2, r', Err reason)
    ∧ process_terminate w2 r' lease = (w2, r', Ok false).
Proof.
  intros Hg Hc Hw Hk. unfold process_terminate, terminate_child. rewrite Hg, Hc. simpl.
  rewrite Hw. simpl. rewrite Hk. eexists _, _. split; [done|].
  simpl. rewrite Hg. by rewrite lookup_delete, decide_True by done.
Qed.
End agent.
