(* ===== verification/Transport.v ===== *)
(** The encrypted link: src/crates/node/src/transport.rs.

    [SecureStream] carries bytes in Noise messages behind 16-bit length
    prefixes.  The Noise session is a library: [NoiseSession] states what the
    stream relies on, that the peer's session decrypts the messages in order
    and that a message is sixteen bytes longer than its plaintext. *)

From S2P Require Import Prelude Words Protocol.

Local Open Scope Z_scope.

Definition TAG_LEN : nat := 16.
Definition MAX_PLAINTEXT : nat := N.to_nat (65535 - 16).

(** ** Raw frames *)

Definition read_raw_frame (stream : list Z) : result IoError (list Z * list Z) :=
  '(len, stream) ← read_exact 2 stream;
  read_exact (Z.to_nat (from_be_bytes len)) stream.

Definition write_raw_frame (payload : list Z) : result IoError (list Z) :=
  if 65535 <? Z.of_nat (length payload)
  then Err (InvalidData "handshake message too large")
  else Ok (to_be_bytes 2 (as_u16 (Z.of_nat (length payload))) ++ payload).

(** ** The pre-shared key *)

Definition token_bytes (s : string) : list Z := (λ c, Z.of_N (Ascii.N_of_ascii c)) <$> String.list_ascii_of_string s.

(** SHA-256 is a library's. *)
Definition psk_for (sha256 : list Z → list Z) (token : option string) : list Z :=
  sha256 (token_bytes "archon-noise:" ++ token_bytes (default "" token)).

(** ** The session *)

(** The two directions of an established session: the sending half of one
    peer and the receiving half of the other. *)
Class NoiseSession (S R : Type) := {
  write_message : S → list Z → option (S * list Z);
  read_message : R → list Z → option (R * list Z);
  synced : S → R → Prop;
  write_message_ok s pt :
    (length pt ≤ MAX_PLAINTEXT)%nat → is_Some (write_message s pt);
  write_message_length s pt s' ct :
    write_message s pt = Some (s', ct) → length ct = (length pt + TAG_LEN)%nat;
  read_message_ok s r pt s' ct :
    synced s r → write_message s pt = Some (s', ct) →
    ∃ r', read_message r ct = Some (r', pt) ∧ synced s' r';
}.

Section stream.
Context {S R : Type} `{!NoiseSession S R}.

(** [data.chunks(MAX_PLAINTEXT)] *)
Fixpoint chunks (fuel : nat) (data : list Z) : list (list Z) :=
  match fuel, data with
  | Datatypes.S fuel, _ :: _ => take MAX_PLAINTEXT data :: chunks fuel (drop MAX_PLAINTEXT data)
  | _, _ => []
  end.

(** One message on the wire. *)
Definition send_chunk (acc : S * list Z) (chunk : list Z) : result IoError (S * list Z) :=
  let '(s, wire) := acc in
  '(s, ct) ← ok_or (write_message s chunk) (IoOther "noise");
  Ok (s, wire ++ to_be_bytes 2 (as_u16 (Z.of_nat (length ct))) ++ ct).

(** [SecureStream::write]: the bytes put on the wire. *)
Definition secure_write (s : S) (data : list Z) : result IoError (S * list Z) :=
  try_fold send_chunk (s, []) (chunks (length data) data).

(** The receiving half: session, decrypted bytes not yet read, wire. *)
Record Receiver := mkReceiver { rx_noise : R; rx_pending : list Z; rx_wire : list Z }.

(** The loop of [read]: decrypt until there is something to hand out.  Each
    turn consumes at least the two bytes of a prefix. *)
Fixpoint fill (fuel : nat) (rx : Receiver) : result IoError Receiver :=
  match rx_pending rx, fuel with
  | [], Datatypes.S fuel =>
      '(ct, wire) ← read_raw_frame (rx_wire rx);
      '(r, pt) ← ok_or (read_message (rx_noise rx) ct) (IoOther "noise");
      fill fuel (mkReceiver r pt wire)
  | _, _ => Ok rx
  end.

(** [SecureStream::read] into a buffer of [n] bytes. *)
Definition secure_read (rx : Receiver) (n : nat) : result IoError (list Z * Receiver) :=
  if (n =? 0)%nat then Ok ([], rx)
  else
    rx ← fill (Datatypes.S (length (rx_wire rx))) rx;
    Ok (take n (rx_pending rx), mkReceiver (rx_noise rx) (drop n (rx_pending rx)) (rx_wire rx)).

(** [Read::read_exact] over the stream: read until the buffer is full. *)
Fixpoint secure_read_exact (fuel : nat) (rx : Receiver) (n : nat) : result IoError (list Z * Receiver) :=
  match n, fuel with
  | O, _ => Ok ([], rx)
  | _, O => Err UnexpectedEof
  | _, Datatypes.S fuel =>
      '(out, rx) ← secure_read rx n;
      '(rest, rx) ← secure_read_exact fuel rx (n - length out);
      Ok (out ++ rest, rx)
  end.

(** Several writes, several exact reads. *)
Fixpoint secure_writes (s : S) (datas : list (list Z)) : result IoError (S * list Z) :=
  match datas with
  | [] => Ok (s, [])
  | data :: datas =>
      '(s, wire) ← secure_write s data;
      '(s, wire') ← secure_writes s datas;
      Ok (s, wire ++ wire')
  end.

Fixpoint secure_reads (rx : Receiver) (sizes : list nat) : result IoError (list (list Z) * Receiver) :=
  match sizes with
  | [] => Ok ([], rx)
  | n :: sizes =>
      '(out, rx) ← secure_read_exact n rx n;
      '(outs, rx) ← secure_reads rx sizes;
      Ok (out :: outs, rx)
  end.

(** ** What is on the wire *)

(** [wire] carries [cs], encrypted from session state [s] to [s']. *)
Inductive encoded : S → list (list Z) → S → list Z → Prop :=
| encoded_nil s : encoded s [] s []
| encoded_cons s c s1 ct cs s' wire :
    write_message s c = Some (s1, ct) → c ≠ [] → (length c ≤ MAX_PLAINTEXT)%nat →
    encoded s1 cs s' wire →
    encoded s (c :: cs) s' (to_be_bytes 2 (as_u16 (Z.of_nat (length ct))) ++ ct ++ wire).

Lemma encoded_app s cs s1 w1 cs' s2 w2 :
  encoded s cs s1 w1 → encoded s1 cs' s2 w2 → encoded s (cs ++ cs') s2 (w1 ++ w2).
Proof.
  induction 1 as [|s c s0 ct cs s1 wire Hw Hne Hlen _ IH]; intros H2; [done|].
  rewrite <-!app_assoc. cbn [app]. econstructor; eauto.
Qed.

Lemma max_plaintext_pos : (0 < MAX_PLAINTEXT)%nat.
Proof. unfold MAX_PLAINTEXT. lia. Qed.

Lemma max_message : Z.of_nat (MAX_PLAINTEXT + TAG_LEN) = 65535.
Proof. unfold MAX_PLAINTEXT, TAG_LEN. lia. Qed.

Local Opaque MAX_PLAINTEXT.

Lemma chunks_spec fuel data :
  (length data ≤ fuel)%nat →
  concat (chunks fuel data) = data
  ∧ Forall (λ c, c ≠ [] ∧ (length c ≤ MAX_PLAINTEXT)%nat) (chunks fuel data).
Proof.
  pose proof max_plaintext_pos as Hmax. revert data.
  induction fuel as [|fuel IH]; intros [|x data] Hlen; try done; [simpl in Hlen; lia|].
  cbn [chunks concat].
  destruct (IH (drop MAX_PLAINTEXT (x :: data))) as [Hc Hall].
  { rewrite length_drop. simpl in *. lia. }
  rewrite Hc, take_drop. split; [done|]. constructor; [|done]. split.
  - intros H%(f_equal length). rewrite length_take in H. simpl in H. lia.
  - rewrite length_take. lia.
Qed.

Lemma send_chunks s wire cs :
  Forall (λ c, c ≠ [] ∧ (length c ≤ MAX_PLAINTEXT)%nat) cs →
  ∃ s' w, try_fold send_chunk (s, wire) cs = Ok (s', wire ++ w) ∧ encoded s cs s' w.
Proof.
  intros Hall. revert s wire. induction Hall as [|c cs [Hne Hlen] _ IH]; intros s wire.
  { exists s, []. rewrite app_nil_r. split; [done|constructor]. }
  destruct (write_message_ok (R := R) s c Hlen) as [[s1 ct] Hw].
  cbn [try_fold send_chunk]. rewrite Hw. cbn [ok_or mbind result_bind].
  destruct (IH s1 (wire ++ to_be_bytes 2 (as_u16 (Z.of_nat (length ct))) ++ ct)) as (s' & w & Hf & He).
  exists s', (to_be_bytes 2 (as_u16 (Z.of_nat (length ct))) ++ ct ++ w).
  rewrite Hf, <-!app_assoc. split; [done|]. econstructor; eauto.
Qed.

(** Writing never fails, and puts the data on the wire. *)
Lemma secure_write_encoded s data :
  ∃ s' wire cs, secure_write s data = Ok (s', wire) ∧ encoded s cs s' wire ∧ concat cs = data.
Proof.
  destruct (chunks_spec (length data) data (le_n _)) as [Hc Hall].
  destruct (send_chunks s [] _ Hall) as (s' & w & Hf & He).
  exists s', w, (chunks (length data) data). done.
Qed.

Lemma secure_writes_encoded s datas :
  ∃ s' wire cs, secure_writes s datas = Ok (s', wire) ∧ encoded s cs s' wire
    ∧ concat cs = concat datas.
Proof.
  revert s. induction datas as [|data datas IH]; intros s.
  { exists s, [], []. split_and!; [done|constructor|done]. }
  destruct (secure_write_encoded s data) as (s1 & w1 & cs1 & Hw & He1 & Hc1).
  destruct (IH s1) as (s2 & w2 & cs2 & Hws & He2 & Hc2).
  exists s2, (w1 ++ w2), (cs1 ++ cs2). cbn [secure_writes]. rewrite Hw. cbn [mbind result_bind].
  rewrite Hws. split_and!; [done|by eapply encoded_app|]. by rewrite concat_app, Hc1, Hc2.
Qed.

(** The bytes a receiver still has to hand out. *)
Definition rx_holds (s' : S) (rx : Receiver) (data : list Z) : Prop :=
  ∃ s cs, synced s (rx_noise rx) ∧ encoded s cs s' (rx_wire rx)
    ∧ data = rx_pending rx ++ concat cs.

Lemma read_raw_frame_app ct wire :
  (length ct ≤ MAX_PLAINTEXT + TAG_LEN)%nat →
  read_raw_frame (to_be_bytes 2 (as_u16 (Z.of_nat (length ct))) ++ ct ++ wire) = Ok (ct, wire).
Proof.
  intros Hlen. pose proof max_message as Hmax. unfold read_raw_frame, read_exact.
  set (len := to_be_bytes 2 _).
  assert (length len = 2%nat) as Hl by apply to_be_bytes_length.
  rewrite length_app, Hl. destruct (Nat.leb_spec 2 (2 + length (ct ++ wire))); [|lia].
  cbn [mbind result_bind].
  rewrite take_app_length', drop_app_length' by done.
  assert (from_be_bytes len = Z.of_nat (length ct)) as ->.
  { unfold len. rewrite from_to_be_bytes. change (256 ^ Z.of_nat 2) with 65536.
    unfold as_u16. rewrite as_unsigned_small by (change (2 ^ 16) with 65536; lia).
    apply Z.mod_small. lia. }
  rewrite Nat2Z.id, length_app.
  destruct (Nat.leb_spec (length ct) (length ct + length wire)); [|lia].
  by rewrite take_app_length, drop_app_length.
Qed.

(** With bytes left, [fill] ends with something pending. *)
Lemma fill_holds fuel s' rx data :
  rx_holds s' rx data → data ≠ [] → (0 < fuel)%nat →
  ∃ rx', fill fuel rx = Ok rx' ∧ rx_holds s' rx' data ∧ rx_pending rx' ≠ [].
Proof.
  destruct rx as [r pending wire]. intros (s & cs & Hs & He & Hd) Hne Hfuel. simpl in *.
  destruct pending as [|x pending].
  2:{ exists (mkReceiver r (x :: pending) wire). destruct fuel; split_and!; try done; by exists s, cs. }
  destruct fuel as [|fuel]; [lia|].
  inversion He as [|? c s1 ct cs' ? w Hw Hc Hlen He']; subst; [done|].
  destruct (read_message_ok s r c s1 ct Hs Hw) as (r' & Hr & Hs').
  exists (mkReceiver r' c w). cbn [fill rx_pending rx_wire rx_noise].
  rewrite read_raw_frame_app by (rewrite (write_message_length s c s1 ct Hw); lia).
  cbn [mbind result_bind]. rewrite Hr. cbn [ok_or mbind result_bind].
  split_and!; [by destruct fuel, c| |done].
  exists s1, cs'. done.
Qed.

Lemma secure_read_holds s' rx data n :
  rx_holds s' rx data → data ≠ [] → (0 < n)%nat →
  ∃ out rx' rest, secure_read rx n = Ok (out, rx') ∧ data = out ++ rest
    ∧ (0 < length out ≤ n)%nat ∧ rx_holds s' rx' rest.
Proof.
  intros Hrx Hne Hn. unfold secure_read. destruct (Nat.eqb_spec n 0); [lia|].
  destruct (fill_holds (Datatypes.S (length (rx_wire rx))) s' rx data Hrx Hne) as (rx' & Hf & Hh & Hp);
    [lia|].
  rewrite Hf. cbn [mbind result_bind]. destruct rx' as [r pending wire].
  destruct Hh as (s & cs & Hs & He & Hd). simpl in *.
  exists (take n pending), (mkReceiver r (drop n pending) wire), (drop n pending ++ concat cs).
  split_and!; try done.
  - by rewrite app_assoc, take_drop.
  - rewrite length_take. destruct pending; [done|]. simpl. lia.
  - rewrite length_take. lia.
  - by exists s, cs.
Qed.

Lemma secure_read_exact_holds fuel s' rx a b :
  rx_holds s' rx (a ++ b) → (length a ≤ fuel)%nat →
  ∃ rx', secure_read_exact fuel rx (length a) = Ok (a, rx') ∧ rx_holds s' rx' b.
Proof.
  revert rx a. induction fuel as [|fuel IH]; intros rx a Hrx Hlen.
  { destruct a; [|simpl in Hlen; lia]. by exists rx. }
  destruct a as [|x a]; [by exists rx|].
  destruct (secure_read_holds s' rx ((x :: a) ++ b) (length (x :: a)) Hrx) as
    (out & rx1 & rest & Hr & Hd & Hout & Hh); [done|simpl; lia|].
  cbn [secure_read_exact length] in *. rewrite Hr. cbn [mbind result_bind].
  assert (∃ a', x :: a = out ++ a' ∧ rest = a' ++ b) as (a' & Ha & ->).
  { exists (drop (length out) (x :: a)). apply (f_equal (drop (length out))) in Hd as Hdr.
    apply (f_equal (take (length out))) in Hd as Htk.
    rewrite drop_app_length in Hdr. rewrite take_app_length in Htk.
    rewrite drop_app_le in Hdr by (simpl; lia). rewrite take_app_le in Htk by (simpl; lia).
    rewrite <-Htk at 1. by rewrite take_drop. }
  destruct (IH rx1 a' Hh) as (rx2 & Hr2 & Hh2).
  { apply (f_equal length) in Ha. rewrite length_app in Ha. simpl in Ha. lia. }
  replace (Datatypes.S (length a) - length out)%nat with (length a').
  2:{ apply (f_equal length) in Ha. rewrite length_app in Ha. simpl in Ha. lia. }
  rewrite Hr2. cbn [mbind result_bind]. exists rx2. by rewrite Ha.
Qed.

(** The encrypted link is transparent: whatever buffers one peer writes,
    the writes succeed, and the other peer, reading any sequence of sizes
    that the written bytes cover, gets exactly those bytes in order, however
    they were cut into Noise messages. *)
Lemma secure_stream_transparent s r datas sizes :
  synced s r → (sum_list sizes ≤ length (concat datas))%nat →
  ∃ s' wire outs rx rest,
    secure_writes s datas = Ok (s', wire)
    ∧ secure_reads (mkReceiver r [] wire) sizes = Ok (outs, rx)
    ∧ length <$> outs = sizes ∧ concat outs ++ rest = concat datas.
Proof.
  intros Hs Hsum. destruct (secure_writes_encoded s datas) as (s' & wire & cs & Hw & He & Hc).
  exists s', wire.
  assert (rx_holds s' (mkReceiver r [] wire) (concat datas)) as Hh
    by (exists s, cs; by rewrite Hc).
  clear He Hc. revert Hh Hsum. generalize (concat datas), (mkReceiver r [] wire). intros data rx.
  revert data rx. induction sizes as [|n sizes IH]; intros data rx Hh Hsum.
  { exists [], rx, data. done. }
  simpl in Hsum.
  destruct (secure_read_exact_holds n s' rx (take n data) (drop n data)) as (rx1 & Hr & Hh1).
  { by rewrite take_drop. }
  { rewrite length_take. lia. }
  rewrite length_take, Nat.min_l in Hr by lia.
  destruct (IH (drop n data) rx1 Hh1) as (outs & rx2 & rest & _ & Hrs & Hlens & Hcat).
  { rewrite length_drop. lia. }
  exists (take n data :: outs), rx2, rest. cbn [secure_reads]. rewrite Hr. cbn [mbind result_bind].
  rewrite Hrs. split_and!; try done.
  - rewrite fmap_cons, Hlens, length_take, Nat.min_l by lia. done.
  - cbn [concat]. by rewrite <-app_assoc, Hcat, take_drop.
Qed.
End stream.
