(* ===== verification/Handshake.v ===== *)
(** The handshake in front of every link: src/crates/node/src/transport.rs.

    The two sides run concurrently over one TCP connection.  Each is a
    process that writes bytes, reads an exact number of bytes or ends; the
    connection is a queue of bytes in each direction.  The Noise handshake is
    a library: [NoiseHandshake] states the pattern's message flow and that the
    third message proves the key. *)

From S2P Require Import Prelude Words Protocol Transport.

Local Open Scope Z_scope.

(** ** Processes on a connection *)

(** [Put] is [write_all], [Get] is [read_exact]; a failing read ends the
    process, as every [?] of the handshake does. *)
Inductive link (A : Type) :=
| Done (r : result IoError A)
| Put (bytes : list Z) (k : link A)
| Get (n : nat) (k : list Z → link A).
Arguments Done {A} _.
Arguments Put {A} _ _.
Arguments Get {A} _ _.

Fixpoint link_bind {A B} (f : A → link B) (p : link A) : link B :=
  match p with
  | Done (Ok a) => f a
  | Done (Err e) => Done (Err e)
  | Put bytes k => Put bytes (link_bind f k)
  | Get n k => Get n (λ out, link_bind f (k out))
  end.

#[export] Instance link_mret : MRet link := λ A a, Done (Ok a).
#[export] Instance link_mbind : MBind link := λ A B f p, link_bind f p.

(** A fallible call that touches no stream. *)
Definition lift_io {A} (r : result IoError A) : link A := Done r.

(** One step of a process with the bytes it has received; [closed] says that
    its peer has dropped the stream. *)
Definition advance {A} (closed : bool) (p : link A) (input : list Z) :
    option (link A * list Z * list Z) :=
  match p with
  | Done _ => None
  | Put bytes k => Some (k, input, bytes)
  | Get n k =>
      match read_exact n input with
      | Ok (out, input) => Some (k out, input, [])
      | Err e => if closed then Some (Done (Err e), input, []) else None
      end
  end.

(** A process that failed drops its stream. *)
Definition hung_up {A} (p : link A) : bool := match p with Done (Err _) => true | _ => false end.

Record Duplex (A B : Type) := mkDuplex {
  dx_left : link A;
  dx_to_right : list Z;
  dx_to_left : list Z;
  dx_right : link B;
}.
Arguments mkDuplex {A B} _ _ _ _.
Arguments dx_left {A B} _.
Arguments dx_to_right {A B} _.
Arguments dx_to_left {A B} _.
Arguments dx_right {A B} _.

Inductive dstep {A B} : Duplex A B → Duplex A B → Prop :=
| dstep_left p lr rl q p' rl' out :
    advance (hung_up q) p rl = Some (p', rl', out) →
    dstep (mkDuplex p lr rl q) (mkDuplex p' (lr ++ out) rl' q)
| dstep_right p lr rl q q' lr' out :
    advance (hung_up p) q lr = Some (q', lr', out) →
    dstep (mkDuplex p lr rl q) (mkDuplex p lr' (rl ++ out) q').

(** The schedule that favours the left side. *)
Fixpoint run_duplex {A B} (fuel : nat) (d : Duplex A B) : Duplex A B :=
  match fuel with
  | O => d
  | S fuel =>
      match advance (hung_up (dx_right d)) (dx_left d) (dx_to_left d) with
      | Some (p, rl, out) => run_duplex fuel (mkDuplex p (dx_to_right d ++ out) rl (dx_right d))
      | None =>
          match advance (hung_up (dx_left d)) (dx_right d) (dx_to_right d) with
          | Some (q, lr, out) => run_duplex fuel (mkDuplex (dx_left d) lr (dx_to_left d ++ out) q)
          | None => d
          end
      end
  end.

Lemma run_duplex_steps {A B} fuel (d : Duplex A B) : rtc dstep d (run_duplex fuel d).
Proof.
  revert d. induction fuel as [|fuel IH]; intros [p lr rl q]; [done|]. cbn.
  destruct (advance _ p rl) as [[[p' rl'] out]|] eqn:Hl.
  { eapply rtc_l; [by apply dstep_left|apply IH]. }
  destruct (advance _ q lr) as [[[q' lr'] out]|] eqn:Hr; [|done].
  eapply rtc_l; [by apply dstep_right|apply IH].
Qed.

(** *** Schedules do not matter *)

Lemma read_exact_more n input more out rest :
  read_exact n input = Ok (out, rest) → read_exact n (input ++ more) = Ok (out, rest ++ more).
Proof.
  unfold read_exact. destruct (Nat.leb_spec n (length input)); [|done]. intros [= <- <-].
  destruct (Nat.leb_spec n (length (input ++ more))) as [_|Hlt]; [|rewrite length_app in Hlt; lia].
  by rewrite take_app_le, drop_app_le.
Qed.

(** More bytes from a peer that still runs change nothing. *)
Lemma advance_app {A} closed (p : link A) input more p' input' out :
  advance false p input = Some (p', input', out) →
  advance closed p (input ++ more) = Some (p', input' ++ more, out).
Proof.
  destruct p as [r|bytes k|n k]; cbn; [done|by intros [= <- <- <-]|].
  destruct (read_exact n input) as [[o rest]|] eqn:Hr; [|done]. intros [= <- <- <-].
  by rewrite (read_exact_more _ _ more _ _ Hr).
Qed.

(** A process that moves had not failed. *)
Lemma advance_runs {A} closed (p : link A) input x : advance closed p input = Some x → hung_up p = false.
Proof. by destruct p as [[]| |]. Qed.

Lemma dstep_locally_confluent {A B} : locally_confluent (@dstep A B).
Proof.
  assert (∀ (p : link A) lr rl (q : link B) p' rl' out q' lr' out',
    advance (hung_up q) p rl = Some (p', rl', out) → advance (hung_up p) q lr = Some (q', lr', out') →
    ∃ d, dstep (mkDuplex p' (lr ++ out) rl' q) d ∧ dstep (mkDuplex p lr' (rl ++ out') q') d) as Hcross.
  { intros p lr rl q p' rl' out q' lr' out' Hp Hq.
    rewrite (advance_runs _ _ _ _ Hq) in Hp. rewrite (advance_runs _ _ _ _ Hp) in Hq.
    exists (mkDuplex p' (lr' ++ out) (rl' ++ out') q'). split.
    - apply dstep_right. by apply advance_app.
    - apply dstep_left. by apply advance_app. }
  intros x y1 y2 H1 H2. destruct H1 as [p lr rl q p' rl' out H1|p lr rl q q' lr' out H1];
    inversion H2 as [? ? ? ? ? ? ? H2' |? ? ? ? ? ? ? H2']; subst.
  - simplify_eq. by eexists.
  - destruct (Hcross _ _ _ _ _ _ _ _ _ _ H1 H2') as (d & ? & ?). exists d. split; by apply rtc_once.
  - destruct (Hcross _ _ _ _ _ _ _ _ _ _ H2' H1) as (d & ? & ?). exists d. split; by apply rtc_once.
  - simplify_eq. by eexists.
Qed.

(** Every step shortens one of the two processes. *)
Lemma sn_left_done {A B} r (q : link B) lr rl : sn dstep (mkDuplex (A := A) (Done r) lr rl q).
Proof.
  assert (∀ r' lr rl, sn dstep (mkDuplex (A := A) (B := B) (Done r) lr rl (Done r'))) as Hbase.
  { intros ???. constructor. intros d Hd. inversion Hd; subst; done. }
  revert lr rl. induction q as [r'|bytes k IH|n k IH]; intros lr rl; [apply Hbase|..];
    constructor; intros d Hd; inversion Hd as [|? ? ? ? ? ? ? Hq]; subst; [done|..|done|]; cbn in Hq.
  - simplify_eq. apply IH.
  - destruct (read_exact n lr) as [[o rest]|]; [simplify_eq; apply IH|].
    destruct r; simplify_eq. apply Hbase.
Qed.

Lemma dstep_sn {A B} (d : Duplex A B) : sn dstep d.
Proof.
  destruct d as [p lr rl q]. revert lr rl q.
  induction p as [r|bytes k IH|n k IH]; intros lr rl q; [apply sn_left_done|..];
    revert lr rl; induction q as [r'|bytes' k' IHq|n' k' IHq]; intros lr rl;
    constructor; intros d Hd; inversion Hd as [? ? ? ? ? ? ? Hp|? ? ? ? ? ? ? Hq]; subst;
    repeat (case_match || simplify_eq || cbn in *); auto using sn_left_done.
Qed.

(** Whatever the schedule, the two sides end in the same state. *)
Lemma dstep_confluent {A B} : confluent (@dstep A B).
Proof. apply locally_confluent_confluent; [apply dstep_sn|apply dstep_locally_confluent]. Qed.

Lemma duplex_outcome {A B} (d d' d'' : Duplex A B) :
  rtc dstep d d' → nf dstep d' → rtc dstep d d'' → rtc dstep d'' d'.
Proof.
  intros Hd' Hnf Hd''. destruct (dstep_confluent d d' d'' Hd' Hd'') as (z & H1 & H2).
  by apply rtc_nf in H1 as ->.
Qed.

(** *** What a process has heard *)

(** The process ends with [a] after reading exactly these bytes. *)
Fixpoint accepts {A} (p : link A) (heard : list Z) (a : A) : Prop :=
  match p with
  | Done (Ok a') => heard = [] ∧ a' = a
  | Done (Err _) => False
  | Put _ k => accepts k heard a
  | Get n k => ∃ out rest, heard = out ++ rest ∧ length out = n ∧ accepts (k out) rest a
  end.

Lemma accepts_bind {A B} (f : A → link B) p heard b :
  accepts (p ≫= f) heard b ↔ ∃ a h1 h2, heard = h1 ++ h2 ∧ accepts p h1 a ∧ accepts (f a) h2 b.
Proof.
  change (p ≫= f) with (link_bind f p).
  revert heard. induction p as [[a|e]|bytes k IH|n k IH]; intros heard; cbn.
  - split; [intros H; by exists a, [], heard|by intros (? & ? & ? & -> & [-> ->] & H)].
  - split; [done|by intros (? & ? & ? & _ & [] & _)].
  - apply IH.
  - split.
    + intros (out & rest & -> & Hn & (a & h1 & h2 & -> & Hp & Hf)%IH).
      exists a, (out ++ h1), h2. rewrite app_assoc. split_and!; [done| |done]. by exists out, h1.
    + intros (a & h1 & h2 & -> & (out & rest & -> & Hn & Hp) & Hf). exists out, (rest ++ h2).
      rewrite app_assoc. split_and!; [done..|]. apply IH. by exists a, rest, h2.
Qed.

(** The process [p0] has read [heard] and is now [p]. *)
Definition heard_so_far {A} (p0 : link A) (heard : list Z) (p : link A) : Prop :=
  ∀ rest a, accepts p rest a → accepts p0 (heard ++ rest) a.

Lemma heard_refl {A} (p : link A) : heard_so_far p [] p.
Proof. by intros rest a. Qed.

Lemma heard_advance {A} (p0 p p' : link A) heard input input' out :
  heard_so_far p0 heard p → advance false p input = Some (p', input', out) →
  ∃ read, input = read ++ input' ∧ heard_so_far p0 (heard ++ read) p'.
Proof.
  intros Hp Hadv. destruct p as [r|bytes k|n k]; cbn in Hadv; [done|..].
  - injection Hadv as <- <- _. exists []. split; [done|]. rewrite app_nil_r. exact Hp.
  - destruct (read_exact n input) as [[o rest]|] eqn:Hr; [|done]. injection Hadv as <- <- _.
    unfold read_exact in Hr. destruct (Nat.leb_spec n (length input)) as [Hn|]; [|done]. injection Hr as <- <-.
    exists (take n input). rewrite take_drop. split; [done|]. intros rest a Ha. rewrite <-app_assoc. apply Hp.
    exists (take n input), rest. split_and!; [done| |done]. by rewrite length_take, Nat.min_l.
Qed.

(** ** The Noise pattern *)

(** What the library provides: a key pair from the system's randomness, the
    handshake state of either role built with the pre-shared key at a
    position, its messages, and the session it turns into. *)
Class NoiseOps (Rng Key H S R : Type) := {
  generate_keypair : Rng → option Key;
  build : Key → N → list Z → bool → option H;
  hs_write : H → list Z → option (H * list Z);
  hs_read : H → list Z → option (H * list Z);
  into_transport_mode : H → option (S * R);
}.

(** States of a role after some messages, made with a key. *)
Inductive progress {Rng Key H S R : Type} `{!NoiseOps Rng Key H S R} (initiator : bool) (psk : list Z) :
    nat → H → Prop :=
| progress_build key h : build key 3 psk initiator = Some h → progress initiator psk 0 h
| progress_write n h payload h' m :
    progress initiator psk n h → hs_write h payload = Some (h', m) → progress initiator psk (Datatypes.S n) h'
| progress_read n h m h' payload :
    progress initiator psk n h → hs_read h m = Some (h', payload) → progress initiator psk (Datatypes.S n) h'.

(** The pattern [XXpsk3].  [handshaking n psk psk' i r] relates the
    initiator's and the responder's states after [n] messages of one
    conversation, made with those keys; only the third message depends on the
    key, and a responder accepts only one that a holder of its key wrote. *)
Class NoiseHandshake (Rng Key H S R : Type) `{!NoiseSession S R, !NoiseOps Rng Key H S R} := {
  handshaking : nat → list Z → list Z → H → H → Prop;
  build_ok key psk initiator : length psk = 32%nat → is_Some (build key 3 psk initiator);
  handshaking_start key key' psk psk' i r :
    build key 3 psk true = Some i → build key' 3 psk' false = Some r → handshaking 0 psk psk' i r;
  first_message psk psk' i r :
    handshaking 0 psk psk' i r →
    ∃ i' m r', hs_write i [] = Some (i', m) ∧ (length m ≤ MAX_PLAINTEXT + TAG_LEN)%nat
      ∧ hs_read r m = Some (r', []) ∧ handshaking 1 psk psk' i' r';
  second_message psk psk' i r :
    handshaking 1 psk psk' i r →
    ∃ r' m i', hs_write r [] = Some (r', m) ∧ (length m ≤ MAX_PLAINTEXT + TAG_LEN)%nat
      ∧ hs_read i m = Some (i', []) ∧ handshaking 2 psk psk' i' r';
  third_message psk psk' i r :
    handshaking 2 psk psk' i r →
    ∃ i' m, hs_write i [] = Some (i', m) ∧ (length m ≤ MAX_PLAINTEXT + TAG_LEN)%nat
      ∧ is_Some (into_transport_mode i')
      ∧ (psk = psk' → ∃ r', hs_read r m = Some (r', []) ∧ handshaking 3 psk psk' i' r')
      ∧ (psk ≠ psk' → hs_read r m = None);
  split_ok psk psk' i r :
    handshaking 3 psk psk' i r →
    ∃ tx rx tx' rx', into_transport_mode i = Some (tx, rx) ∧ into_transport_mode r = Some (tx', rx')
      ∧ synced tx rx' ∧ synced tx' rx;
  key_proven psk r m x :
    progress false psk 2 r → hs_read r m = Some x →
    ∃ i payload i', progress true psk 2 i ∧ hs_write i payload = Some (i', m);
}.

Section handshake.
Context {Rng Key H S R : Type} `{!NoiseSession S R} `{!NoiseOps Rng Key H S R} `{!NoiseHandshake Rng Key H S R}.
Context (sha256 : list Z → list Z) (sha256_length : ∀ bytes, length (sha256 bytes) = 32%nat).

(** [io::Error::other] on an error of the library. *)
Definition noise {X} (o : option X) : result IoError X := ok_or o (IoOther "noise").

Definition new_handshake (rng : Rng) (psk : list Z) (initiator : bool) : result IoError H :=
  keypair ← noise (generate_keypair rng);
  noise (build keypair 3 psk initiator).

(** [SecureStream]: the session's two halves and the bytes decrypted and not
    yet read; the connection is the duplex. *)
Record SecureStream := mkSecure { sec_tx : S; sec_rx : R; sec_pending : list Z }.

Definition get_raw_frame : link (list Z) :=
  Get 2 (λ len, Get (Z.to_nat (from_be_bytes len)) (λ payload, mret payload)).

Definition put_raw_frame (payload : list Z) : link () :=
  if 65535 <? Z.of_nat (length payload)
  then Done (Err (InvalidData "handshake message too large"))
  else Put (to_be_bytes 2 (as_u16 (Z.of_nat (length payload)))) (Put payload (mret ())).

Definition establish_initiator (rng : Rng) (token : option string) : link SecureStream :=
  hs ← lift_io (new_handshake rng (psk_for sha256 token) true);
  '(hs, msg1) ← lift_io (noise (hs_write hs []));
  _ ← put_raw_frame msg1;
  msg2 ← get_raw_frame;
  '(hs, _) ← lift_io (noise (hs_read hs msg2));
  '(hs, msg3) ← lift_io (noise (hs_write hs []));
  _ ← put_raw_frame msg3;
  '(tx, rx) ← lift_io (noise (into_transport_mode hs));
  mret (mkSecure tx rx []).

Definition establish_responder (rng : Rng) (token : option string) : link SecureStream :=
  hs ← lift_io (new_handshake rng (psk_for sha256 token) false);
  msg1 ← get_raw_frame;
  '(hs, _) ← lift_io (noise (hs_read hs msg1));
  '(hs, msg2) ← lift_io (noise (hs_write hs []));
  _ ← put_raw_frame msg2;
  msg3 ← get_raw_frame;
  '(hs, _) ← lift_io (noise (hs_read hs msg3));
  '(tx, rx) ← lift_io (noise (into_transport_mode hs));
  mret (mkSecure tx rx []).

(** *** Frames on the connection *)

Abbreviation frame m := (to_be_bytes 2 (as_u16 (Z.of_nat (length m))) ++ m).

Lemma put_left {A B} m (f : () → link A) lr rl (q : link B) :
  (length m ≤ MAX_PLAINTEXT + TAG_LEN)%nat →
  rtc dstep (mkDuplex (put_raw_frame m ≫= f) lr rl q) (mkDuplex (f ()) (lr ++ frame m) rl q).
Proof.
  intros Hm. pose proof max_message as Hmax. unfold put_raw_frame.
  destruct (Z.ltb_spec 65535 (Z.of_nat (length m))) as [|_]; [lia|].
  eapply rtc_l; [by apply dstep_left|]. eapply rtc_l; [by apply dstep_left|]. by rewrite <-app_assoc.
Qed.

Lemma put_right {A B} m (f : () → link B) lr rl (p : link A) :
  (length m ≤ MAX_PLAINTEXT + TAG_LEN)%nat →
  rtc dstep (mkDuplex p lr rl (put_raw_frame m ≫= f)) (mkDuplex p lr (rl ++ frame m) (f ())).
Proof.
  intros Hm. pose proof max_message as Hmax. unfold put_raw_frame.
  destruct (Z.ltb_spec 65535 (Z.of_nat (length m))) as [|_]; [lia|].
  eapply rtc_l; [by apply dstep_right|]. eapply rtc_l; [by apply dstep_right|]. by rewrite <-app_assoc.
Qed.

(** The two reads of a frame. *)
Lemma get_frame_advance {A} closed m (f : list Z → link A) :
  (length m ≤ MAX_PLAINTEXT + TAG_LEN)%nat →
  ∃ k, advance closed (get_raw_frame ≫= f) (frame m) = Some (k, m, [])
    ∧ advance closed k m = Some (f m, [], []).
Proof.
  intros Hm. pose proof (read_raw_frame_app m [] Hm) as Hf. rewrite app_nil_r in Hf.
  unfold read_raw_frame in Hf. destruct (read_exact 2 (frame m)) as [[len rest]|] eqn:Hlen; [|done].
  cbn [mbind result_bind] in Hf. exists (Get (Z.to_nat (from_be_bytes len)) (λ payload, f payload)).
  assert (rest = m) as ->.
  { unfold read_exact in Hlen. destruct (_ <=? _)%nat; [|done]. rewrite drop_app_length' in Hlen by (by rewrite to_be_bytes_length). by injection Hlen. }
  cbn [get_raw_frame mbind link_mbind link_bind advance]. by rewrite Hlen, Hf.
Qed.

Lemma get_left {A B} m (f : list Z → link A) lr (q : link B) :
  (length m ≤ MAX_PLAINTEXT + TAG_LEN)%nat →
  rtc dstep (mkDuplex (get_raw_frame ≫= f) lr (frame m) q) (mkDuplex (f m) lr [] q).
Proof.
  intros Hm. destruct (get_frame_advance (hung_up q) m f Hm) as (k & H1 & H2).
  eapply rtc_l; [by eapply dstep_left|]. rewrite app_nil_r. eapply rtc_l; [by eapply dstep_left|].
  by rewrite app_nil_r.
Qed.

Lemma get_right {A B} m (f : list Z → link B) rl (p : link A) :
  (length m ≤ MAX_PLAINTEXT + TAG_LEN)%nat →
  rtc dstep (mkDuplex p (frame m) rl (get_raw_frame ≫= f)) (mkDuplex p [] rl (f m)).
Proof.
  intros Hm. destruct (get_frame_advance (hung_up p) m f Hm) as (k & H1 & H2).
  eapply rtc_l; [by eapply dstep_right|]. rewrite app_nil_r. eapply rtc_l; [by eapply dstep_right|].
  by rewrite app_nil_r.
Qed.

(** *** The two sides together *)

Lemma psk_length token : length (psk_for sha256 token) = 32%nat.
Proof. apply sha256_length. Qed.

Lemma new_handshake_ok rng key token initiator :
  generate_keypair rng = Some key →
  ∃ h, new_handshake rng (psk_for sha256 token) initiator = Ok h
    ∧ build key 3 (psk_for sha256 token) initiator = Some h.
Proof.
  intros Hkey. destruct (build_ok key (psk_for sha256 token) initiator (psk_length token)) as [h Hh].
  exists h. unfold new_handshake. by rewrite Hkey; cbn; rewrite Hh.
Qed.

(** How two peers with these tokens end, on every schedule. *)
Definition ends_in {A B} (d d' : Duplex A B) : Prop :=
  rtc dstep d d' ∧ nf dstep d' ∧ ∀ d'', rtc dstep d d'' → rtc dstep d'' d'.

Lemma done_nf {A B} r r' lr rl : nf dstep (mkDuplex (A := A) (B := B) (Done r) lr rl (Done r')).
Proof. intros [d Hd]. by inversion Hd. Qed.

Lemma ends_in_intro {A B} (d : Duplex A B) r r' lr rl :
  rtc dstep d (mkDuplex (Done r) lr rl (Done r')) → ends_in d (mkDuplex (Done r) lr rl (Done r')).
Proof. intros Hd. split_and!; [done|apply done_nf|]. intros d''. by eapply duplex_outcome, done_nf. Qed.

(** Up to the third message, which waits on the connection. *)
Lemma two_messages rng rng' key key' token token' :
  generate_keypair rng = Some key → generate_keypair rng' = Some key' →
  ∃ i r m tx rx,
    rtc dstep (mkDuplex (establish_initiator rng token) [] [] (establish_responder rng' token'))
      (mkDuplex (mret (mkSecure tx rx [])) (frame m) []
         (msg3 ← get_raw_frame;
          '(hs, _) ← lift_io (noise (hs_read r msg3));
          '(tx, rx) ← lift_io (noise (into_transport_mode hs));
          mret (mkSecure tx rx [])))
    ∧ into_transport_mode i = Some (tx, rx)
    ∧ (length m ≤ MAX_PLAINTEXT + TAG_LEN)%nat
    ∧ (psk_for sha256 token = psk_for sha256 token' →
       ∃ r', hs_read r m = Some (r', []) ∧ handshaking 3 (psk_for sha256 token) (psk_for sha256 token') i r')
    ∧ (psk_for sha256 token ≠ psk_for sha256 token' → hs_read r m = None).
Proof.
  intros Hkey Hkey'. destruct (new_handshake_ok rng key token true Hkey) as (i0 & Hi0 & Hb).
  destruct (new_handshake_ok rng' key' token' false Hkey') as (r0 & Hr0 & Hb').
  pose proof (handshaking_start _ _ _ _ _ _ Hb Hb') as H0.
  destruct (first_message _ _ _ _ H0) as (i1 & m1 & r1 & Hw1 & Hl1 & Hrd1 & H1).
  destruct (second_message _ _ _ _ H1) as (r2 & m2 & i2 & Hw2 & Hl2 & Hrd2 & H2).
  destruct (third_message _ _ _ _ H2) as (i3 & m3 & Hw3 & Hl3 & [[tx rx] Ht] & Hsame & Hother).
  exists i3, r2, m3, tx, rx. split; [|done].
  unfold establish_initiator, establish_responder. rewrite Hi0, Hr0. cbn [lift_io mbind link_mbind link_bind].
  rewrite Hw1. cbn [noise ok_or]. etrans; [by apply put_left|]. etrans; [by apply get_right|]. cbn beta.
  rewrite Hrd1. cbn [noise ok_or]. cbn beta iota. rewrite Hw2. cbn [noise ok_or]. cbn beta iota.
  etrans; [by apply put_right|]. etrans; [by apply get_left|]. cbn beta.
  rewrite Hrd2. cbn [noise ok_or]. cbn beta iota. rewrite Hw3. cbn [noise ok_or]. cbn beta iota.
  etrans; [by apply put_left|]. cbn beta. rewrite Ht. done.
Qed.

(** With one key, both sides get a session. *)
Lemma same_key_sessions rng rng' key key' token token' :
  generate_keypair rng = Some key → generate_keypair rng' = Some key' →
  psk_for sha256 token = psk_for sha256 token' →
  ∃ tx rx tx' rx',
    ends_in (mkDuplex (establish_initiator rng token) [] [] (establish_responder rng' token'))
      (mkDuplex (Done (Ok (mkSecure tx rx []))) [] [] (Done (Ok (mkSecure tx' rx' []))))
    ∧ synced tx rx' ∧ synced tx' rx.
Proof.
  intros Hkey Hkey' Hpsk.
  destruct (two_messages rng rng' key key' token token' Hkey Hkey')
    as (i & r & m & tx & rx & Hrun & Ht & Hm & Hsame & _).
  destruct (Hsame Hpsk) as (r' & Hr & Hs).
  destruct (split_ok _ _ _ _ Hs) as (tx1 & rx1 & tx' & rx' & Ht1 & Ht' & Hs1 & Hs2).
  rewrite Ht in Ht1. simplify_eq. exists tx1, rx1, tx', rx'. split; [|done].
  apply ends_in_intro. etrans; [exact Hrun|]. etrans; [by apply get_right|]. cbn beta.
  rewrite Hr. cbn [lift_io mbind link_mbind link_bind noise ok_or]. by rewrite Ht'.
Qed.

(** What [a] writes, in any pieces, [b] reads back, in any pieces. *)
Definition delivers (a b : SecureStream) : Prop :=
  ∀ datas sizes, (sum_list sizes ≤ length (concat datas))%nat →
  ∃ s' wire outs rx rest,
    secure_writes (sec_tx a) datas = Ok (s', wire)
    ∧ secure_reads (mkReceiver (sec_rx b) (sec_pending b) wire) sizes = Ok (outs, rx)
    ∧ length <$> outs = sizes ∧ concat outs ++ rest = concat datas.

(** C37. A link between two peers, whatever the order in which their threads
    run: the handshake always ends.  With keys from the same token both sides
    have a session, nothing is left on the connection, and each side reads
    exactly the bytes the other writes, however writes and reads are cut.
    With keys that differ the listening side fails, and has no session. *)
Theorem secure_link rng rng' key key' token token' :
  generate_keypair rng = Some key → generate_keypair rng' = Some key' →
  let d := mkDuplex (establish_initiator rng token) [] [] (establish_responder rng' token') in
  (psk_for sha256 token = psk_for sha256 token' →
   ∃ a b, ends_in d (mkDuplex (Done (Ok a)) [] [] (Done (Ok b))) ∧ delivers a b ∧ delivers b a)
  ∧ (psk_for sha256 token ≠ psk_for sha256 token' →
     ∃ a, ends_in d (mkDuplex (Done (Ok a)) [] [] (Done (Err (IoOther "noise"))))).
Proof.
  intros Hkey Hkey' d. split; intros Hpsk.
  - destruct (same_key_sessions rng rng' key key' token token' Hkey Hkey' Hpsk) as (tx & rx & tx' & rx' & Hd & Hs & Hs').
    exists (mkSecure tx rx []), (mkSecure tx' rx' []). split; [exact Hd|].
    split; intros datas sizes; by apply secure_stream_transparent.
  - destruct (two_messages rng rng' key key' token token' Hkey Hkey')
      as (i & r & m & tx & rx & Hrun & _ & Hm & _ & Hother).
    exists (mkSecure tx rx []). apply ends_in_intro. etrans; [exact Hrun|].
    etrans; [by apply get_right|]. cbn beta. by rewrite (Hother Hpsk).
Qed.

(** A responder's session rests on a third message that a holder of its key
    wrote, and that it read. *)
Definition key_holder_heard (token : option string) (heard : list Z) : Prop :=
  ∃ i payload i' m before after,
    progress true (psk_for sha256 token) 2 i ∧ hs_write i payload = Some (i', m)
    ∧ heard = before ++ m ++ after.

Lemma accepts_lift {A} (r : result IoError A) heard a : accepts (lift_io r) heard a → heard = [] ∧ r = Ok a.
Proof. destruct r as [a'|]; [|done]. cbn. by intros [-> ->]. Qed.

Lemma accepts_noise {A} (o : option A) heard a : accepts (lift_io (noise o)) heard a → heard = [] ∧ o = Some a.
Proof. intros [-> Ho]%accepts_lift. split; [done|]. destruct o; [|done]. by injection Ho as ->. Qed.

Lemma accepts_frame heard m : accepts get_raw_frame heard m → ∃ len, heard = len ++ m.
Proof.
  intros (len & rest & -> & _ & (payload & rest' & -> & _ & [-> ->])). exists len. by rewrite app_nil_r.
Qed.

Lemma put_frame_silent m heard u : accepts (put_raw_frame m) heard u → heard = [].
Proof. unfold put_raw_frame. destruct (_ <? _); [done|]. by intros [-> _]. Qed.

Lemma responder_accepts rng token heard s :
  accepts (establish_responder rng token) heard s → key_holder_heard token heard.
Proof.
  unfold establish_responder. intros Hacc. apply accepts_bind in Hacc as (h0 & ? & ? & -> & H0 & Hacc).
  apply accepts_lift in H0 as [-> H0].
  assert (progress false (psk_for sha256 token) 0 h0) as P0.
  { unfold new_handshake in H0. destruct (generate_keypair rng) as [key|]; [|done]. cbn in H0.
    destruct (build key 3 _ false) as [h|] eqn:Hb; [|done]. injection H0 as ->. by eapply progress_build. }
  apply accepts_bind in Hacc as (m1 & ? & ? & -> & F1 & Hacc).
  apply accepts_bind in Hacc as ([h1 pl1] & ? & ? & -> & [-> Hr1]%accepts_noise & Hacc).
  apply accepts_bind in Hacc as ([h2 m2] & ? & ? & -> & [-> Hw2]%accepts_noise & Hacc).
  apply accepts_bind in Hacc as ([] & ? & ? & -> & ->%put_frame_silent & Hacc).
  apply accepts_bind in Hacc as (m3 & heard3 & ? & -> & F3 & Hacc).
  apply accepts_bind in Hacc as ([h3 pl3] & ? & rest & -> & [-> Hr3]%accepts_noise & Hacc).
  apply accepts_frame in F1 as [len1 ->]. apply accepts_frame in F3 as [len3 ->].
  pose proof (progress_read _ _ _ _ _ _ _ P0 Hr1) as P1. pose proof (progress_write _ _ _ _ _ _ _ P1 Hw2) as P2.
  destruct (key_proven _ _ _ _ P2 Hr3) as (i & payload & i' & Pi & Hwi).
  exists i, payload, i', m3, (len1 ++ m1 ++ len3), rest. split_and!; [done..|].
  by rewrite <-!app_assoc.
Qed.
End handshake.
