(* ===== verification/AgentScenario.v ===== *)
(** An agent in operation: a concrete host, device files, cipher and message
    format, on which the theorems about the agent are applied. *)

From S2P Require Import Prelude Words Identifier Text Types Workload Endpoint Protocol ProtocolFacts.
From S2P Require Import DeviceFilter DeviceFilterFacts Provider ProviderFacts Execution Agent.
From S2P Require Import Transport Handshake.

Local Open Scope Z_scope.

(** ** Frames: a message is its bytes *)

Lemma frame_roundtrip_witness :
  (∃ bytes, write_frame (T := list Z) id [1; 2; 3] = Ok bytes
     ∧ Protocol.read_message (T := list Z) Some (bytes ++ [9; 9]) = Ok ([1; 2; 3], [9; 9])).
Proof.
  apply (frame_roundtrip (T := list Z) id Some [1; 2; 3] [9; 9]); [reflexivity|by vm_compute].
Defined.

(** ** Device files *)

Definition dev_files (path : string) : option Metadata :=
  if bool_decide (path = "/dev/null") then Some (mkMetadata 0x21b6 (makedev 1 3))
  else if bool_decide (path = "/dev/nvidia0") then Some (mkMetadata 0x21b6 (makedev 195 0))
  else None.

Definition gpu_access : DeviceAccess := mkDeviceAccess "gpu0" "/dev/nvidia0" [] None.

Definition gpu_rules : list DeviceRule :=
  match device_rules dev_files [gpu_access] with Ok rules => rules | Err _ => [] end.

(** The claimed GPU is allowed, another device is not. *)
Definition gpu_verdict (minor : Z) : outcome :=
  run 25 (compile gpu_rules) (ctx_of DEVCG_ACC_READ DEVCG_DEV_CHAR) 195 minor.

Lemma device_isolation_witness :
  gpu_verdict 0 = Returned 1 ∧ gpu_verdict 1 = Returned 0
  ∧ ((allowed dev_files [gpu_access] DEVCG_ACC_READ DEVCG_DEV_CHAR 195 0
      ∧ gpu_verdict 0 = Returned 1)
     ∨ (¬ allowed dev_files [gpu_access] DEVCG_ACC_READ DEVCG_DEV_CHAR 195 0
      ∧ gpu_verdict 0 = Returned 0)).
Proof.
  split; [by vm_compute|]. split; [by vm_compute|].
  apply (device_isolation dev_files [gpu_access] gpu_rules);
    [by vm_compute|by vm_compute; lia|by vm_compute|by vm_compute|by vm_compute; lia].
Defined.

Lemma device_filter_exact_witness :
  let rules := [mkDeviceRule DEVCG_DEV_CHAR 1 3 DEVCG_ACC_READ] in
  (Exists (λ rule, permits rule DEVCG_ACC_READ DEVCG_DEV_CHAR 1 3) rules
   ∧ run 15 (compile rules) (ctx_of DEVCG_ACC_READ DEVCG_DEV_CHAR) 1 3 = Returned 1)
  ∨ (¬ Exists (λ rule, permits rule DEVCG_ACC_READ DEVCG_DEV_CHAR 1 3) rules
   ∧ run 15 (compile rules) (ctx_of DEVCG_ACC_READ DEVCG_DEV_CHAR) 1 3 = Returned 0).
Proof.
  apply device_filter_exact;
    [|cbn [length]; lia|unfold DEVCG_ACC_READ; lia|unfold DEVCG_DEV_CHAR; lia|cbn [length]; lia].
  constructor; [|constructor]. repeat split; by vm_compute.
Defined.

(** ** The provider *)

Local Open Scope N_scope.

Definition gen (fence : u64) : EndpointGeneration := mkGeneration 7 3 1 Exclusive 1 fence 1.

Definition held : ResourceProvider :=
  provider_run provider_new [PvApply OpPrepare (gen 1); PvApply OpActivate (gen 1)].

Definition held_binding : Binding := mkBinding 7 100 3 1 Exclusive 1 1 BActive (Some 1).

Lemma held_inv : provider_inv held.
Proof. apply (provider_run_inv provider_new). intros k e. simpl. by rewrite lookup_empty. Qed.

Lemma recovery_proof_sound_witness :
  binding_state held_binding = BActive
  ∧ ∃ e, rp_endpoints held !! binding_key held_binding = Some e
      ∧ ep_binding e = Some (binding_id held_binding)
      ∧ ep_accepted_fence e = binding_fence held_binding
      ∧ ep_open e = true ∧ ep_phase e = Active
      ∧ ep_node e = binding_node held_binding ∧ ep_provider e = binding_provider held_binding.
Proof. apply (recovery_proof_sound held held_binding); [apply held_inv|by vm_compute]. Defined.

(** ** A host whose every call succeeds, except that processes outside groups
    cannot be killed; its state counts the calls. *)

#[local] Instance counting_host : Host nat := {|
  child := unit; group := unit;
  try_wait w _ := (S w, Ok None);
  wait w _ := (S w, Ok ());
  kill w _ := (S w, Err "EPERM");
  open_log w _ := (S w, Ok ());
  clone_log w _ := (S w, Ok ());
  create_group w _ _ _ := (S w, Ok ());
  group_kill w _ := (S w, Ok ());
  group_destroy w _ := (S w, Ok ());
  group_drain w _ _ := S w;
  filter_devices w _ _ := (S w, Ok ());
  spawn_in_group w _ _ := (S w, Ok ());
  spawn w _ := (S w, Ok ());
  engine w _ _ := (S w, Ok (mkOutput true "" ""));
  read_log _ _ := "";
  create_probe w _ _ := (S w, Ok ());
  probe_spawn w _ := (S w, Ok ());
  probe_filter w _ := (S w, Ok ());
  affinity w := (S w, (mkCpuList [0], mkCpuList [0]));
|}.

Definition describe_box (_ : nat) : result string MachineDescription :=
  Ok (mkMachine "agent-1" "box" 1 4096 [] []).

Definition no_engine : ContainerRuntime := mkContainers "podman" "ns" false ∅ false false None.

Definition agent0 : LeaseAgent := agent_new (Some "/sys/fs/cgroup/archon") no_engine.

Definition opening (fence : u64) : AgentRequest := Prepare 7 100 3 1 Exclusive 1 fence 1.
Definition closing (fence : u64) : AgentRequest := Fence 7 100 3 1 Exclusive 1 fence 1.

Definition after_prepare : LeaseAgent := (handle describe_box 0%nat agent0 (opening 2)).1.2.

Lemma agent_close_final_witness :
  let '(w1, a1) := (handle describe_box 0%nat after_prepare (closing 2)).1 in
  let '(w2, a2) := (serve describe_box w1 a1 [opening 1; Status 100]).1 in
  ∃ reason, (handle describe_box w2 a2 (opening 2)).2 = RFailed 7 reason.
Proof.
  apply (agent_close_final describe_box 0%nat after_prepare (closing 2) (gen 2)
           [opening 1; Status 100] (opening 2) (gen 2)).
  - split; [reflexivity|by vm_compute].
  - reflexivity.
  - reflexivity.
  - by vm_compute.
Defined.

Lemma stale_controller_powerless_witness :
  (handle describe_box 5%nat after_prepare (StopExecution 100 0 1)).1 = (5%nat, after_prepare)
  ∧ is_refusal (handle describe_box 5%nat after_prepare (StopExecution 100 0 1)).2 = true.
Proof.
  apply (stale_controller_powerless describe_box 5%nat after_prepare (StopExecution 100 0 1) 0 1).
  - reflexivity.
  - left. by vm_compute.
Defined.

Definition no_limits : LeaseLimits := mkLimits 0 0 no_placement.

Definition launched : nat * ProcessRuntime * result string unit :=
  process_activate 0%nat (processes_new (Some "/sys/fs/cgroup/archon")) 100 ["train"] no_limits
    [gpu_access].

Lemma devices_filtered_before_start_witness :
  ∃ w1 w2 g c, filter_devices w1 g [gpu_access] = (w2, Ok ())
    ∧ spawn_in_group w2 g ["train"] = (launched.1.1, Ok c)
    ∧ pr_children launched.1.2 !! 100 = Some (CgroupChild c)
    ∧ pr_groups launched.1.2 !! 100 = Some g.
Proof.
  apply (devices_filtered_before_start 0%nat (processes_new (Some "/sys/fs/cgroup/archon")) 100
           ["train"] no_limits [gpu_access]); [by vm_compute|done|by vm_compute].
Defined.

Definition plain : ProcessRuntime :=
  (process_activate 0%nat (processes_new None) 100 ["train"] no_limits []).1.2.

Lemma stop_after_failed_kill_witness :
  ∃ r' reason, process_terminate 2%nat plain 100 = (4%nat, r', Err reason)
    ∧ process_terminate 4%nat r' 100 = (4%nat, r', Ok false).
Proof.
  apply (stop_after_failed_kill 2%nat plain 100 () 3%nat 4%nat "EPERM"); by vm_compute.
Defined.

(** ** A session whose messages are the plaintext and sixteen bytes of the
    message counter *)

Local Open Scope Z_scope.

Definition tag (n : Z) : list Z := replicate TAG_LEN n.

Definition open_message (n : Z) (ct : list Z) : option (Z * list Z) :=
  let k := (length ct - TAG_LEN)%nat in
  if bool_decide (drop k ct = tag n) then Some (n + 1, take k ct) else None.

#[local] Instance counter_session : NoiseSession Z Z.
Proof.
  refine {| write_message n pt := Some (n + 1, pt ++ tag n); read_message := open_message;
            synced := eq |}.
  - done.
  - intros s pt s' ct [= _ <-]. rewrite length_app. unfold tag. by rewrite length_replicate.
  - intros s r pt s' ct -> [= <- <-]. exists (r + 1). split; [|done]. unfold open_message.
    assert (length (tag r) = TAG_LEN) as Htag by apply length_replicate.
    rewrite length_app, Htag, Nat.add_sub, drop_app_length, take_app_length.
    by rewrite bool_decide_eq_true_2.
Defined.

(** ** A handshake whose third message carries the key *)

(** The role, the messages passed, the key. *)
Record ToyHandshake := mkToy { toy_initiator : bool; toy_messages : Z; toy_psk : list Z }.

Definition toy_write (h : ToyHandshake) (payload : list Z) : option (ToyHandshake * list Z) :=
  if Bool.eqb (toy_initiator h) (Z.even (toy_messages h)) && (length (toy_psk h) =? 32)%nat
  then Some (mkToy (toy_initiator h) (toy_messages h + 1) (toy_psk h),
             if toy_messages h =? 2 then toy_psk h else [toy_messages h])
  else None.

Definition toy_read (h : ToyHandshake) (m : list Z) : option (ToyHandshake * list Z) :=
  if negb (Bool.eqb (toy_initiator h) (Z.even (toy_messages h)))
     && bool_decide (m = if toy_messages h =? 2 then toy_psk h else [toy_messages h])
  then Some (mkToy (toy_initiator h) (toy_messages h + 1) (toy_psk h), []) else None.

Definition toy_transport (h : ToyHandshake) : option (Z * Z) :=
  if toy_messages h =? 3 then Some (0, 0) else None.

Definition toy_build (key : Z) (position : N) (psk : list Z) (initiator : bool) : option ToyHandshake :=
  if (position =? 3)%N && (length psk =? 32)%nat then Some (mkToy initiator 0 psk) else None.

Local Opaque MAX_PLAINTEXT.

#[local] Instance toy_ops : NoiseOps Z Z ToyHandshake Z Z :=
  {| generate_keypair := Some; build := toy_build; hs_write := toy_write; hs_read := toy_read;
     into_transport_mode := toy_transport |}.

Lemma toy_progress initiator psk n h :
  progress initiator psk n h → h = mkToy initiator (Z.of_nat n) psk ∧ length psk = 32%nat.
Proof.
  induction 1 as [key h Hb|n h payload h' m _ [-> Hl] Hw|n h m h' payload _ [-> Hl] Hr]; cbn in *.
  - unfold toy_build in Hb. destruct (Nat.eqb_spec (length psk) 32); [|done]. by injection Hb as <-.
  - unfold toy_write in Hw. destruct (_ && _); [|done]. injection Hw as <- <-. cbn. split; [f_equal; lia|done].
  - unfold toy_read in Hr. destruct (_ && _); [|done]. injection Hr as <- <-. cbn. split; [f_equal; lia|done].
Qed.

#[local] Instance toy_handshake : NoiseHandshake Z Z ToyHandshake Z Z.
Proof.
  assert (32 ≤ MAX_PLAINTEXT + TAG_LEN)%nat as Hmax.
  { pose proof max_message. lia. }
  refine {| handshaking n psk psk' i r :=
              i = mkToy true (Z.of_nat n) psk ∧ r = mkToy false (Z.of_nat n) psk'
              ∧ length psk = 32%nat ∧ length psk' = 32%nat |}.
  - intros key psk initiator H. cbn. unfold toy_build. rewrite H. by eexists.
  - intros key key' psk psk' i r. cbn. unfold toy_build.
    destruct (Nat.eqb_spec (length psk) 32), (Nat.eqb_spec (length psk') 32); try done. by intros [= <-] [= <-].
  - intros psk psk' i r (-> & -> & H & H'). cbn. unfold toy_write, toy_read. cbn. rewrite H.
    do 3 eexists. split_and!; [reflexivity|simpl; lia|reflexivity|done..].
  - intros psk psk' i r (-> & -> & H & H'). cbn. unfold toy_write, toy_read. cbn. rewrite H'.
    do 3 eexists. split_and!; [reflexivity|simpl; lia|reflexivity|done..].
  - intros psk psk' i r (-> & -> & H & H'). cbn. unfold toy_write, toy_read. cbn. rewrite H.
    do 2 eexists. split_and!; [reflexivity|simpl; lia|by eexists|intros ->|intros Hne].
    + exists (mkToy false 3 psk'). by rewrite bool_decide_eq_true_2.
    + by rewrite bool_decide_eq_false_2.
  - intros psk psk' i r (-> & -> & _ & _). by exists 0, 0, 0, 0.
  - intros psk r m x [-> Hl]%toy_progress. cbn. unfold toy_read. cbn.
    case_bool_decide as Hm; [subst m; intros _|done].
    exists (mkToy true 2 psk), [], (mkToy true 3 psk). split.
    + apply (progress_read _ _ 1 (mkToy true 1 psk) [1] _ []); [|done].
      apply (progress_write _ _ 0 (mkToy true 0 psk) [] _ [0]); [|cbn; unfold toy_write; cbn; by rewrite Hl].
      apply (progress_build _ _ 0). cbn. unfold toy_build. by rewrite Hl.
    + cbn. unfold toy_write. cbn. by rewrite Hl.
Defined.

(** Thirty-two bytes of a text, padded. *)
Definition toy_sha256 (bytes : list Z) : list Z := take 32 (bytes ++ replicate 32 0).

Lemma toy_sha256_length bytes : length (toy_sha256 bytes) = 32%nat.
Proof. unfold toy_sha256. rewrite length_take, length_app, length_replicate. lia. Qed.

Lemma secure_link_witness :
  let d token token' :=
    mkDuplex (establish_initiator (H := ToyHandshake) toy_sha256 1 token) [] []
      (establish_responder (H := ToyHandshake) toy_sha256 2 token') in
  (∃ a b, ends_in (d (Some "right") (Some "right")) (mkDuplex (Done (Ok a)) [] [] (Done (Ok b)))
     ∧ delivers a b ∧ delivers b a)
  ∧ ∃ a, ends_in (d (Some "wrong") (Some "right")) (mkDuplex (Done (Ok a)) [] [] (Done (Err (IoOther "noise")))).
Proof.
  split.
  - apply (secure_link toy_sha256 toy_sha256_length 1 2 1 2 (Some "right") (Some "right")); reflexivity.
  - apply (secure_link toy_sha256 toy_sha256_length 1 2 1 2 (Some "wrong") (Some "right"));
      [reflexivity..|]. by vm_compute.
Defined.
