(* ===== verification/Cgroup.v ===== *)
(** * Lease groups (crates/node/src/cgroup.rs)

    A lease's claims become limit files of a cgroup.  The cgroup file system
    is the class [Files]; [linux_host] plugs the groups into the [Host] the
    runtimes are written against. *)

From S2P Require Import Prelude Words Identifier Text Types Workload Protocol Discover Execution.
From Stdlib Require Import Ascii.

(** [std::fs] on the cgroup file system; an error is its text. *)
Inductive DirError := AlreadyExists | DirOther (err : string).

Class Files (W : Type) := {
  fs_create_dir_all : W → string → W * result string unit;
  fs_create_dir : W → string → W * result DirError unit;
  fs_remove_dir : W → string → W * result string unit;
  fs_read_to_string : W → string → result string string;
  fs_open_write : W → string → result string unit;
  fs_write_all : W → string → string → W * result string unit;
  (** the last text written to a file *)
  last_write : W → string → option string;
  write_all_ok w path text w' :
    fs_write_all w path text = (w', Ok ()) →
    last_write w' path = Some text ∧ ∀ other, other ≠ path → last_write w' other = last_write w other;
}.

(** Effects on the file system, with an error text. *)
Definition FM (W A : Type) : Type := W → W * result string A.
#[export] Instance FM_ret {W} : MRet (FM W) := λ A a w, (w, Ok a).
#[export] Instance FM_bind {W} : MBind (FM W) := λ A B f m w,
  match m w with
  | (w, Ok a) => f a w
  | (w, Err e) => (w, Err e)
  end.

(** [.map_err(|err| format!("what: {err}"))] *)
Definition context {A} (what : string) (r : result string A) : result string A :=
  match r with Ok a => Ok a | Err e => Err (what +:+ ": " +:+ e) end.
Definition lift {W A} (r : result string A) : FM W A := λ w, (w, r).
Definition calling {W A} (what : string) (m : FM W A) : FM W A := λ w,
  let '(w, r) := m w in (w, context what r).
(** [let _ = ..] *)
Definition ignoring {W A} (m : FM W A) : FM W unit := λ w, ((m w).1, Ok ()).

Section groups.
Context {W : Type} `{!Files W}.

(** A group is its path. *)
Definition group_write (group file content : string) : FM W unit :=
  let path := join_path group file in
  _ ← (λ w, (w, context ("open " +:+ path) (fs_open_write w path)));
  calling ("write " +:+ path) (λ w, fs_write_all w path content).

Definition PERIOD : N := 100000.

Definition cpu_quota (limits : LeaseLimits) : result string (option string) :=
  if 0 <? lim_cpu_count limits then
    let quota := lim_cpu_count limits * PERIOD in
    if u64_max <? quota then Err "cpu quota overflow" else Ok (Some (pretty quota +:+ " 100000"))
  else Ok None.

Definition write_opt (group file : string) (content : option string) : FM W unit :=
  match content with Some content => group_write group file content | None => mret () end.

Definition placement_text (l : CpuList) : option string := if cpu_list_is_empty l then None else Some (render l).

Definition configure_limits (group : string) (limits : LeaseLimits) : FM W unit :=
  quota ← lift (cpu_quota limits);
  _ ← write_opt group "cpu.max" quota;
  _ ← (if 0 <? lim_memory_bytes limits then
         _ ← group_write group "memory.max" (pretty (lim_memory_bytes limits));
         group_write group "memory.swap.max" "0"
       else mret ());
  _ ← write_opt group "cpuset.cpus" (placement_text (pl_cpus (lim_placement limits)));
  write_opt group "cpuset.mems" (placement_text (pl_mems (lim_placement limits))).

(** ** Controllers *)

Definition required_controllers (limits : LeaseLimits) : list string :=
  (if 0 <? lim_cpu_count limits then ["cpu"] else [])
  ++ (if 0 <? lim_memory_bytes limits then ["memory"] else [])
  ++ (if negb (placement_is_empty (lim_placement limits)) then ["cpuset"] else []).

Definition enable_controllers (root : string) (limits : LeaseLimits) : FM W unit :=
  match required_controllers limits with
  | [] => mret ()
  | required =>
      let control := join_path root "cgroup.subtree_control" in
      current ← (λ w, (w, context ("read " +:+ control) (fs_read_to_string w control)));
      match List.filter (λ token, negb (bool_decide (token ∈ split_whitespace current))) required with
      | [] => mret ()
      | missing =>
          _ ← (λ w, (w, context ("open " +:+ control) (fs_open_write w control)));
          calling ("write " +:+ control) (λ w, fs_write_all w control (join " " ((λ token, "+" +:+ token) <$> missing)))
      end
  end.

Definition prepare_root (root : string) (limits : LeaseLimits) : FM W unit :=
  _ ← calling ("create " +:+ root) (λ w, fs_create_dir_all w root);
  enable_controllers root limits.

(** ** Groups *)

Definition cgroup_kill (group : string) : FM W unit := group_write group "cgroup.kill" "1".

Definition cgroup_destroy (group : string) : FM W unit :=
  calling ("remove " +:+ group) (λ w, fs_remove_dir w group).

(** Configure, and clean up when that fails. *)
Definition configure_or (cleanup : FM W unit) (group : string) (limits : LeaseLimits) : FM W string := λ w,
  match configure_limits group limits w with
  | (w, Ok _) => (w, Ok group)
  | (w, Err e) => ((cleanup w).1, Err e)
  end.

Definition cgroup_create (root : string) (lease : LeaseId) (limits : LeaseLimits) : FM W string :=
  _ ← prepare_root root limits;
  let path := join_path root ("lease-" +:+ pretty lease) in
  _ ← (λ w, match fs_create_dir w path with
            | (w, Ok _) => (w, Ok ())
            | (w, Err AlreadyExists) => cgroup_kill path w
            | (w, Err (DirOther e)) => (w, Err ("create " +:+ path +:+ ": " +:+ e))
            end);
  configure_or (_ ← ignoring (cgroup_kill path); ignoring (λ w, fs_remove_dir w path)) path limits.

(** [pid] and [seq] make the name unique. *)
Definition cgroup_create_probe (root : string) (pid seq : N) (limits : LeaseLimits) : FM W string :=
  _ ← prepare_root root limits;
  let path := join_path root (".archon-probe-" +:+ pretty pid +:+ "-" +:+ pretty seq) in
  _ ← (λ w, match fs_create_dir w path with
            | (w, Ok _) => (w, Ok ())
            | (w, Err AlreadyExists) => (w, Err ("create " +:+ path +:+ ": File exists (os error 17)"))
            | (w, Err (DirOther e)) => (w, Err ("create " +:+ path +:+ ": " +:+ e))
            end);
  configure_or (ignoring (λ w, fs_remove_dir w path)) path limits.

(** [i32::from_str] *)
Definition parse_i32 (s : string) : option Z :=
  match s with
  | String c rest =>
      if Ascii.eqb c "-"
      then if bool_decide (rest = "") then None
           else n ← parse_digits 0 rest; if n <=? 2 ^ 31 then Some (- Z.of_N n)%Z else None
      else Z.of_N <$> parse_uint (2 ^ 31 - 1) s
  | "" => None
  end.

Definition cgroup_pids (w : W) (group : string) : list Z :=
  match fs_read_to_string w (join_path group "cgroup.procs") with
  | Ok text => omap (M := list) (λ line, parse_i32 (trim line)) (lines text)
  | Err _ => []
  end.
End groups.

(** ** As a host *)

(** The operations of a host that are not those of this file.  [PROBE_SEQ] is
    part of the state. *)
Record HostRest (W child : Type) := mkHostRest {
  hr_try_wait : W → child → W * result string (option (option Z));
  hr_wait : W → child → W * result string unit;
  hr_kill : W → child → W * result string unit;
  hr_open_log : W → LeaseId → W * result string unit;
  hr_clone_log : W → LeaseId → W * result string unit;
  hr_sigterm_and_wait : W → list Z → string → N → W;
  hr_filter_devices : W → string → list DeviceAccess → W * result string unit;
  hr_spawn_in_group : W → string → list string → W * result string child;
  hr_spawn : W → list string → W * result string child;
  hr_engine : W → string → list string → W * result string Execution.Output;
  hr_read_log : W → LeaseId → string;
  hr_probe_id : W → W * (N * N);
  hr_probe_spawn : W → string → W * result string unit;
  hr_probe_filter : W → string → W * result string unit;
  hr_affinity : W → W * (CpuList * CpuList);
}.
Arguments mkHostRest {W child}.

#[export] Instance linux_host {W child : Type} `{!Files W} (rest : HostRest W child) : Host W := {|
  Execution.child := child;
  Execution.group := string;
  try_wait := hr_try_wait _ _ rest;
  wait := hr_wait _ _ rest;
  kill := hr_kill _ _ rest;
  open_log := hr_open_log _ _ rest;
  clone_log := hr_clone_log _ _ rest;
  create_group w root lease limits := cgroup_create root lease limits w;
  group_kill w g := cgroup_kill g w;
  group_destroy w g := cgroup_destroy g w;
  group_drain w g grace := hr_sigterm_and_wait _ _ rest w (cgroup_pids w g) g grace;
  filter_devices := hr_filter_devices _ _ rest;
  spawn_in_group := hr_spawn_in_group _ _ rest;
  spawn := hr_spawn _ _ rest;
  engine := hr_engine _ _ rest;
  read_log := hr_read_log _ _ rest;
  create_probe w root limits :=
    let '(w, (pid, seq)) := hr_probe_id _ _ rest w in cgroup_create_probe root pid seq limits w;
  probe_spawn := hr_probe_spawn _ _ rest;
  probe_filter := hr_probe_filter _ _ rest;
  affinity := hr_affinity _ _ rest;
|}.

(** * Limits hold before a member starts

    A group that was created has every limit of its lease written, and the
    runtime starts the member only inside it. *)

(** ** Paths *)

Lemma str_app_inj s t u : s +:+ t = s +:+ u → t = u.
Proof. induction s as [|c s IH]; [done|]. rewrite !str_app_cons. intros [= H]. auto. Qed.

#[export] Instance join_path_inj dir : Inj (=) (=) (join_path dir).
Proof.
  intros a b. unfold join_path. destruct (String.rev dir) as [|c s]; [done|].
  destruct (Ascii.eqb c "/"); [apply str_app_inj|]. intros H%str_app_inj. by apply (str_app_inj "/").
Qed.

(** ** What a lease's limits are, file by file *)

Definition limit_files (limits : LeaseLimits) : list (string * string) :=
  (if 0 <? lim_cpu_count limits then [("cpu.max", pretty (lim_cpu_count limits * 100000) +:+ " 100000")] else [])
  ++ (if 0 <? lim_memory_bytes limits
      then [("memory.max", pretty (lim_memory_bytes limits)); ("memory.swap.max", "0")] else [])
  ++ (if cpu_list_is_empty (pl_cpus (lim_placement limits)) then []
      else [("cpuset.cpus", render (pl_cpus (lim_placement limits)))])
  ++ (if cpu_list_is_empty (pl_mems (lim_placement limits)) then []
      else [("cpuset.mems", render (pl_mems (lim_placement limits)))]).

Lemma limit_files_nodup limits : NoDup (limit_files limits).*1.
Proof.
  unfold limit_files. destruct (0 <? lim_cpu_count limits), (0 <? lim_memory_bytes limits),
    (cpu_list_is_empty (pl_cpus _)), (cpu_list_is_empty (pl_mems _)); cbn;
    by apply (bool_decide_unpack _).
Qed.

Section files.
Context {W : Type} `{!Files W}.

Fixpoint write_files (group : string) (files : list (string * string)) : FM W unit :=
  match files with
  | [] => mret ()
  | (file, text) :: files => _ ← group_write group file text; write_files group files
  end.

Lemma group_write_ok group file text w w' :
  group_write group file text w = (w', Ok ()) →
  last_write w' (join_path group file) = Some text
  ∧ ∀ other, other ≠ join_path group file → last_write w' other = last_write w other.
Proof.
  unfold group_write, mbind, FM_bind, calling, context. destruct (fs_open_write w _) as [[]|e]; [|done].
  destruct (fs_write_all w _ text) as [w1 [[]|e]] eqn:Hw; [|done]. intros [= <-]. by apply write_all_ok.
Qed.

Lemma write_files_ok group files w w' :
  NoDup files.*1 → write_files group files w = (w', Ok ()) →
  (∀ file text, (file, text) ∈ files → last_write w' (join_path group file) = Some text)
  ∧ ∀ path, (∀ file, file ∈ files.*1 → path ≠ join_path group file) → last_write w' path = last_write w path.
Proof.
  revert w. induction files as [|[file text] files IH]; intros w Hnd.
  { intros [= <-]. split; [|done]. by intros ? ? ?%elem_of_nil. }
  rewrite fmap_cons, NoDup_cons in Hnd. destruct Hnd as [Hni Hnd]. cbn [write_files]. unfold mbind, FM_bind.
  destruct (group_write group file text w) as [w1 [[]|e]] eqn:H1; [|done]. intros H2.
  destruct (group_write_ok _ _ _ _ _ H1) as [Hthis Hother]. destruct (IH w1 Hnd H2) as [Hin Hframe].
  split.
  - intros file' text' [[= -> ->]|Hin']%elem_of_cons; [|by apply Hin]. rewrite Hframe; [done|].
    intros other Ho ->%(inj (join_path group)). done.
  - intros path Hp. rewrite Hframe; [apply Hother, Hp; by left|]. intros other Ho. apply Hp. by right.
Qed.

Lemma write_files_app group files files' w :
  write_files group (files ++ files') w = (_ ← write_files group files; write_files group files') w.
Proof.
  revert w. induction files as [|[file text] files IH]; intros w; [done|].
  cbn [write_files app]. unfold mbind, FM_bind. destruct (group_write group file text w) as [w1 [[]|e]]; [|done].
  apply IH.
Qed.

(** Configuring is writing these files, unless the quota overflows. *)
Lemma configure_limits_files group limits w w' :
  configure_limits group limits w = (w', Ok ()) →
  lim_cpu_count limits * PERIOD ≤ u64_max ∧ write_files group (limit_files limits) w = (w', Ok ()).
Proof.
  unfold configure_limits, cpu_quota, lift, limit_files, placement_text, PERIOD. intros Hrun.
  assert (lim_cpu_count limits * 100000 ≤ u64_max) as Hq.
  { unfold mbind at 1, FM_bind at 1 in Hrun. destruct (N.ltb_spec 0 (lim_cpu_count limits)); [|lia].
    destruct (N.ltb_spec u64_max (lim_cpu_count limits * 100000)); [done|lia]. }
  split; [done|]. revert Hrun. rewrite (proj2 (N.ltb_ge _ _) Hq).
  destruct (0 <? lim_cpu_count limits), (0 <? lim_memory_bytes limits),
    (cpu_list_is_empty (pl_cpus _)), (cpu_list_is_empty (pl_mems _));
    cbn [write_files write_opt app]; unfold mbind, FM_bind, mret, FM_ret; cbn -[group_write];
    repeat (match goal with |- context [group_write ?g ?f ?t ?w] =>
              destruct (group_write g f t w) as [? [[]|?]] end; cbn -[group_write]; [|by intros [=]]); done.
Qed.

(** Every limit of the lease has been written to its file of the group. *)
Definition limits_written (w : W) (group : string) (limits : LeaseLimits) : Prop :=
  lim_cpu_count limits * PERIOD ≤ u64_max
  ∧ ∀ file text, (file, text) ∈ limit_files limits → last_write w (join_path group file) = Some text.

Lemma configure_limits_written group limits w w' :
  configure_limits group limits w = (w', Ok ()) → limits_written w' group limits.
Proof.
  intros [Hq Hw]%configure_limits_files. split; [done|].
  by apply (write_files_ok _ _ _ _ (limit_files_nodup limits) Hw).
Qed.

Lemma cgroup_create_written root lease limits w w' g :
  cgroup_create root lease limits w = (w', Ok g) →
  g = join_path root ("lease-" +:+ pretty lease) ∧ limits_written w' g limits.
Proof.
  unfold cgroup_create, mbind, FM_bind. destruct (prepare_root root limits w) as [w1 [[]|e]]; [|done].
  set (path := join_path root _). destruct (fs_create_dir w1 path) as [w2 created].
  assert (∀ w3 : W, configure_or (_ ← ignoring (cgroup_kill path); ignoring (λ w, fs_remove_dir w path)) path limits w3
    = (w', Ok g) → g = path ∧ limits_written w' g limits) as Hconf.
  { intros w3. unfold configure_or. destruct (configure_limits path limits w3) as [w4 [[]|e]] eqn:Hc; [|done].
    intros [= <- <-]. split; [done|]. by eapply configure_limits_written. }
  destruct created as [[]|[|e]]; [apply Hconf| |done].
  destruct (cgroup_kill path w2) as [w3 [[]|e]]; [apply Hconf|done].
Qed.

End files.

Section confined.
Context {W child : Type} `{!Files W} (rest : HostRest W child).
#[local] Existing Instance linux_host.

(** C26. What confines a member with limits or device claims when the Linux
    runtime starts it.  With a cgroup root: the lease's own group existed, every
    CPU quota, memory, swap and cpuset limit of the lease had been written to
    the group's files (the quota computed without overflow), the device filter
    was installed if devices were claimed, and the process was then spawned
    inside that group.  Without a root (lifecycle-only enforcement): device
    claims are refused, a member with only CPU or memory limits is started
    outside any group, and the runtime reports to the controller that it
    enforces no limit and no isolation. *)
Theorem started_confined (w : W) (r : ProcessRuntime (Host0 := linux_host rest)) lease command limits devices w' r' :
  pr_children r !! lease = None →
  limits_is_empty limits && bool_decide (devices = []) = false →
  process_activate (Host0 := linux_host rest) w r lease command limits devices = (w', r', Ok ()) →
  match pr_cgroup_root r with
  | Some root =>
      ∃ w1 w2 g c, g = join_path root ("lease-" +:+ pretty lease)
        ∧ limits_written w1 g limits
        ∧ (devices = [] ∧ w2 = w1 ∨ devices ≠ [] ∧ hr_filter_devices _ _ rest w1 g devices = (w2, Ok ()))
        ∧ hr_spawn_in_group _ _ rest w2 g command = (w', Ok c)
        ∧ pr_groups r' !! lease = Some g
  | None =>
      devices = []
      ∧ (∃ w1 c, hr_spawn _ _ rest w1 command = (w', Ok c)
           ∧ r' = set_children (Host0 := linux_host rest) (<[lease := Standard (Host0 := linux_host rest) c]> (pr_children r)) r)
      ∧ ∀ w0, (process_capabilities (Host0 := linux_host rest) w0 r).2 = mkRuntime true false false false false false
  end.
Proof.
  intros Hnew Hneed. unfold process_activate. rewrite Hnew, Hneed.
  destruct command as [|program args]; [done|]. destruct (pr_cgroup_root r) as [root|] eqn:Hroot.
  - rewrite andb_false_r. destruct (open_log w lease) as [w0 [[]|e]]; [|done].
    destruct (create_group w0 root lease limits) as [w1 [g|e]] eqn:Hc; [|done].
    apply cgroup_create_written in Hc as [Hg Hw]. unfold launch_in_group.
    set (filtered := match devices with [] => _ | _ => _ end). destruct filtered as [w2 [[]|e]] eqn:Hf; [|done].
    destruct (spawn_in_group w2 g (program :: args)) as [w3 [c|e]] eqn:Hs; [|done].
    intros [= <- <-]. exists w1, w2, g, c. split_and!; try done.
    + subst filtered. destruct devices; [left; by injection Hf|right; by split].
    + cbn. by rewrite lookup_insert, decide_True.
  - rewrite andb_true_r. destruct (bool_decide_reflect (devices = [])) as [Hd|]; [|done]. cbn [negb].
    destruct (open_log w lease) as [w0 [[]|e]]; [|done].
    destruct (clone_log w0 lease) as [w1 [[]|e]]; [|done].
    destruct (spawn w1 (program :: args)) as [w2 [c|e]] eqn:Hs; [|done]. intros [= <- <-].
    split_and!; [done|by exists w1, c|]. intros w3. unfold process_capabilities. by rewrite Hroot.
Qed.
End confined.

(** ** A file system in memory *)

(** What was written, newest first. *)
Abbreviation store := (list (string * string)).

Definition stored (w : store) (path : string) : option string :=
  snd <$> List.find (λ '(p, _), bool_decide (p = path)) w.

#[export, refine] Instance memory_files : Files store := {|
  fs_create_dir_all w _ := (w, Ok ());
  fs_create_dir w _ := (w, Ok ());
  fs_remove_dir w _ := (w, Ok ());
  fs_read_to_string w path := Ok (default "cpu io" (stored w path));
  fs_open_write w _ := Ok ();
  fs_write_all w path text := ((path, text) :: w, Ok ());
  last_write := stored;
|}.
Proof.
  intros w path text w' [= <-]. unfold stored. cbn. rewrite bool_decide_true by done. split; [done|].
  intros other Hne. by rewrite bool_decide_false.
Defined.

Definition quiet_host : HostRest store unit :=
  mkHostRest (λ w _, (w, Ok None)) (λ w _, (w, Ok ())) (λ w _, (w, Ok ())) (λ w _, (w, Ok ()))
    (λ w _, (w, Ok ())) (λ w _ _ _, w) (λ w _ _, (w, Ok ())) (λ w _ _, (w, Ok ())) (λ w _, (w, Ok ()))
    (λ w _ _, (w, Ok (Execution.mkOutput true "" ""))) (λ _ _, "") (λ w, (w, (7, 0))) (λ w _, (w, Ok ()))
    (λ w _, (w, Ok ())) (λ w, (w, (mkCpuList [0], mkCpuList [0]))).

(** Two CPUs and 64 MiB. *)
Definition small_limits : LeaseLimits := mkLimits 2 (2 ^ 26) (mkPlacement (mkCpuList []) (mkCpuList [])).

Definition fresh_runtime : ProcessRuntime (Host0 := linux_host quiet_host) :=
  mkProcesses (Host0 := linux_host quiet_host) ∅ ∅ (Some "/sys/fs/cgroup/archon").

Definition started : store * ProcessRuntime (Host0 := linux_host quiet_host) * result string unit :=
  process_activate (Host0 := linux_host quiet_host) [] fresh_runtime 3 ["sleep"; "9"] small_limits [].

Lemma started_confined_witness :
  ∃ w1 w2 g c, g = "/sys/fs/cgroup/archon/lease-3"
    ∧ limits_written w1 g small_limits
    ∧ (@nil DeviceAccess = [] ∧ w2 = w1 ∨ @nil DeviceAccess ≠ [] ∧ (w1, Ok ()) = (w2, Ok () : result string unit))
    ∧ (w2, Ok () : result string unit) = (started.1.1, Ok c)
    ∧ pr_groups started.1.2 !! 3 = Some g.
Proof.
  exact (started_confined quiet_host [] fresh_runtime 3 ["sleep"; "9"] small_limits [] started.1.1 started.1.2
           eq_refl eq_refl eq_refl).
Defined.

Example small_limits_files :
  started.1.1
  = [("/sys/fs/cgroup/archon/lease-3/memory.swap.max", "0");
     ("/sys/fs/cgroup/archon/lease-3/memory.max", "67108864");
     ("/sys/fs/cgroup/archon/lease-3/cpu.max", "200000 100000");
     ("/sys/fs/cgroup/archon/cgroup.subtree_control", "+memory")].
Proof. vm_compute. reflexivity. Qed.
