(* ===== verification/LinuxProcess.v ===== *)
(** * Processes inside a lease group (crates/node/src/linux_process.rs)

    One child per launch: [clone3] into the group, a report of what failed
    before [exec] through a pipe, and reaping.  System calls are the class
    [ProcKernel]; loops that retry after a signal take fuel, [None] is a child
    still being waited for. *)

From S2P Require Import Prelude Words Identifier Text Types.
From Stdlib Require Import Ascii.

Local Open Scope Z_scope.

Definition EINTR : Z := 4.
Definition ESRCH : Z := 3.

(** [io::Error]: of the operating system, or with a text. *)
Inductive ProcError := OsError (errno : Z) | OtherError (text : string).

(** ** The child *)

(** What the system answers to the child before [exec]: whether its parent is
    still the agent, [prctl], [dup2], [execvp] (which does not return when it
    succeeds); the descriptors it redirects. *)
Record ChildView := mkView {
  cv_same_parent : bool;
  cv_prctl : option Z;
  cv_dup2 : Z → Z → option Z;
  cv_exec : option Z;
  cv_stdin : Z; cv_stdout_log : Z; cv_stderr_log : Z;
}.

(** The error number that is reported, if any. *)
Definition redirect_fd_or_exit (v : ChildView) (source target : Z) : option Z :=
  if source =? target then None else cv_dup2 v source target.

Definition or_else (a b : option Z) : option Z := match a with Some e => Some e | None => b end.

Definition child_setup (v : ChildView) : option Z :=
  if negb (cv_same_parent v) then Some ESRCH
  else or_else (cv_prctl v)
    (or_else (redirect_fd_or_exit v (cv_stdin v) 0)
      (or_else (redirect_fd_or_exit v (cv_stdout_log v) 1)
        (or_else (redirect_fd_or_exit v (cv_stderr_log v) 2) (cv_exec v)))).

(** The bytes of the report that reach the pipe; [writes] are the results of
    the successive [write] calls, none or 0 ends the loop. *)
Fixpoint report_child_error (writes : list nat) (bytes : list Z) : list Z :=
  match bytes, writes with
  | _ :: _, S n :: writes => take (S n) bytes ++ report_child_error writes (drop (S n) bytes)
  | _, _ => []
  end.

(** [to_ne_bytes] on the supported machines. *)
Definition errno_bytes (errno : Z) : list Z := to_le_bytes 4 (as_u32 errno).
Definition errno_of (bytes : list Z) : Z := as_i32 (from_le_bytes bytes).

(** What the child leaves in the pipe. *)
Definition child_report (v : ChildView) (writes : list nat) : list Z :=
  match child_setup v with
  | None => []
  | Some errno => report_child_error writes (errno_bytes errno)
  end.

(** ** The system *)

Class ProcKernel (W : Type) := {
  (** a pid (0: none yet) with its status; [true]: do not block *)
  sys_waitpid : W → Z → bool → W * result Z (Z * Z);
  sys_kill : W → Z → W * result Z unit;
  sys_open_null : W → W * result Z unit;
  sys_clone_log : W → W * result Z unit;
  sys_open_group : W → string → W * result string unit;
  sys_pipe2 : W → W * result Z unit;
  sys_clone3 : W → W * result Z Z;
  (** [false]: the deadline has passed *)
  sys_poll : W → W * result Z bool;
  (** at most so many bytes; none at the end *)
  sys_read : W → nat → W * result Z (list Z);
  (** how [io::Error] and [ExitStatus] print *)
  os_text : Z → string;
  status_text : Z → string;
  (** what the child that [clone3] makes here will see, and its writes *)
  next_child : W → ChildView * list nat;
  (** what is left in the pipe *)
  pipe : W → list Z;
  (** the agent's children that it has not waited for *)
  children : W → gset Z;
  clone3_pipe w w' pid :
    sys_clone3 w = (w', Ok pid) → pipe w' = child_report (next_child w).1 (next_child w).2;
  poll_pipe w : pipe (sys_poll w).1 = pipe w;
  read_pipe w n w' bs :
    sys_read w n = (w', Ok bs) →
    pipe w = bs ++ pipe w' ∧ (length bs ≤ n)%nat ∧ (bs = [] → n = 0%nat ∨ pipe w = []);
  read_failed_pipe w n w' e : sys_read w n = (w', Err e) → pipe w' = pipe w;
  (** a child has a pid of its own, and is collected by waiting for it; a wait
      for a child fails only by a signal *)
  clone3_children w w' pid :
    sys_clone3 w = (w', Ok pid) → (pid ∉ children w) ∧ children w' = {[pid]} ∪ children w;
  waitpid_children w pid w' result status :
    sys_waitpid w pid false = (w', Ok (result, status)) → result = pid ∧ children w' = children w ∖ {[pid]};
  waitpid_failed_children w pid w' e :
    sys_waitpid w pid false = (w', Err e) → children w' = children w ∧ (e = EINTR ∨ pid ∉ children w);
  kill_children w pid : children (sys_kill w pid).1 = children w;
  poll_children w : children (sys_poll w).1 = children w;
  read_children w n : children (sys_read w n).1 = children w;
}.

Section processes.
Context {W : Type} `{!ProcKernel W}.

Definition show_error (e : ProcError) : string :=
  match e with OsError errno => os_text errno | OtherError text => text end.

(** ** Reaping *)

Record LinuxChild := mkLinuxChild { lc_pid : Z; lc_status : option Z }.

Fixpoint try_wait_loop (fuel : nat) (w : W) (pid : Z) : option (W * result ProcError (option Z)) :=
  match fuel with
  | O => None
  | S fuel =>
      match sys_waitpid w pid true with
      | (w, Ok (result, status)) =>
          Some (w, Ok (if result =? 0 then None else Some status))
      | (w, Err errno) =>
          if errno =? EINTR then try_wait_loop fuel w pid else Some (w, Err (OsError errno))
      end
  end.

Definition child_try_wait (fuel : nat) (w : W) (c : LinuxChild)
    : option (W * LinuxChild * result ProcError (option Z)) :=
  match lc_status c with
  | Some status => Some (w, c, Ok (Some status))
  | None =>
      '(w, r) ← try_wait_loop fuel w (lc_pid c);
      Some (w, match r with Ok (Some status) => mkLinuxChild (lc_pid c) (Some status) | _ => c end, r)
  end.

Fixpoint wait_loop (fuel : nat) (w : W) (pid : Z) : option (W * result ProcError Z) :=
  match fuel with
  | O => None
  | S fuel =>
      match sys_waitpid w pid false with
      | (w, Ok (result, status)) =>
          Some (w, if result =? pid then Ok status
                   else Err (OtherError ("waitpid returned unexpected pid " +:+ pretty result)))
      | (w, Err errno) =>
          if errno =? EINTR then wait_loop fuel w pid else Some (w, Err (OsError errno))
      end
  end.

Definition child_wait (fuel : nat) (w : W) (c : LinuxChild) : option (W * LinuxChild * result ProcError Z) :=
  match lc_status c with
  | Some status => Some (w, c, Ok status)
  | None =>
      '(w, r) ← wait_loop fuel w (lc_pid c);
      Some (w, match r with Ok status => mkLinuxChild (lc_pid c) (Some status) | Err _ => c end, r)
  end.

Definition child_kill (w : W) (c : LinuxChild) : W * result ProcError unit :=
  match lc_status c with
  | Some _ => (w, Ok ())
  | None =>
      match sys_kill w (lc_pid c) with
      | (w, Ok _) => (w, Ok ())
      | (w, Err errno) => (w, Err (OsError errno))
      end
  end.

(** ** The report *)

(** [let _ = child.kill(); let _ = child.wait(); return Err(error)] *)
Definition give_up_child {A} (fuel : nat) (w : W) (c : LinuxChild) (error : ProcError)
    : option (W * LinuxChild * result ProcError A) :=
  '(w, c, _) ← child_wait fuel (child_kill w c).1 c;
  Some (w, c, Err error).

(** The inner loop: read until the number is complete or the pipe ends. *)
Fixpoint read_report (fuel : nat) (w : W) (have : list Z) : option (W * result Z (list Z)) :=
  match fuel with
  | O => None
  | S fuel =>
      if (length have <? 4)%nat then
        match sys_read w (4 - length have) with
        | (w, Ok []) => Some (w, Ok have)
        | (w, Ok bs) => read_report fuel w (have ++ bs)
        | (w, Err errno) => if errno =? EINTR then read_report fuel w have else Some (w, Err errno)
        end
      else Some (w, Ok have)
  end.

Fixpoint read_child_error (fuel : nat) (w : W) (c : LinuxChild)
    : option (W * LinuxChild * result ProcError (option Z)) :=
  match fuel with
  | O => None
  | S fuel =>
      match sys_poll w with
      | (w, Ok false) => give_up_child fuel w c (OtherError "timed out waiting for clone3 child exec")
      | (w, Err errno) =>
          if errno =? EINTR then read_child_error fuel w c else give_up_child fuel w c (OsError errno)
      | (w, Ok true) =>
          '(w, report) ← read_report fuel w [];
          match report with
          | Err errno => give_up_child fuel w c (OsError errno)
          | Ok bytes =>
              match length bytes with
              | O => Some (w, c, Ok None)
              | 4%nat => Some (w, c, Ok (Some (errno_of bytes)))
              | _ => give_up_child fuel w c (OtherError "short clone3 exec-error report")
              end
          end
      end
  end.

(** ** Launching *)

(** From [clone3] on. *)
Definition launch (fuel : nat) (w : W) : option (W * result ProcError LinuxChild) :=
  match sys_clone3 w with
  | (w, Err errno) => Some (w, Err (OtherError ("clone3(CLONE_INTO_CGROUP): " +:+ os_text errno)))
  | (w, Ok pid) =>
      '(w, c, r) ← read_child_error fuel w (mkLinuxChild pid None);
      match r with
      | Err e => Some (w, Err e)
      | Ok None => Some (w, Ok c)
      | Ok (Some errno) => '(w, _, _) ← child_wait fuel w c; Some (w, Err (OsError errno))
      end
  end.

Fixpoint has_nul (s : string) : bool :=
  match s with
  | EmptyString => false
  | String c s => Ascii.eqb c Ascii.zero || has_nul s
  end.

(** The descriptors a launch needs. *)
Definition open_descriptors (w : W) (group : string) : W * result ProcError unit :=
  let os (r : W * result Z unit) := (r.1, match r.2 with Ok u => Ok u | Err e => Err (OsError e) end) in
  match os (sys_open_null w) with
  | (w, Err e) => (w, Err e)
  | (w, Ok _) =>
      match os (sys_clone_log w) with
      | (w, Err e) => (w, Err e)
      | (w, Ok _) =>
          match os (sys_clone_log w) with
          | (w, Err e) => (w, Err e)
          | (w, Ok _) =>
              match sys_open_group w group with
              | (w, Err e) => (w, Err (OtherError ("open cgroup: " +:+ e)))
              | (w, Ok _) => os (sys_pipe2 w)
              end
          end
      end
  end.

Definition linux_spawn (fuel : nat) (w : W) (group program : string) (args : list string)
    : option (W * result ProcError LinuxChild) :=
  if has_nul program then Some (w, Err (OtherError "program contains a NUL byte"))
  else if existsb has_nul args then Some (w, Err (OtherError "argument contains a NUL byte"))
  else
    match open_descriptors w group with
    | (w, Err e) => Some (w, Err e)
    | (w, Ok _) => launch fuel w
    end.

(** [ExitStatus::success]: exited with code 0. *)
Definition success (status : Z) : bool := status =? 0.

Definition linux_probe (fuel : nat) (w : W) (group : string) : option (W * result string unit) :=
  match sys_open_null w with
  | (w, Err errno) => Some (w, Err ("open /dev/null for process probe: " +:+ os_text errno))
  | (w, Ok _) =>
      '(w, spawned) ← linux_spawn fuel w group "/bin/true" [];
      match spawned with
      | Err e => Some (w, Err ("process cgroup probe: " +:+ show_error e))
      | Ok c =>
          '(w, _, waited) ← child_wait fuel w c;
          Some (w, match waited with
                   | Err e => Err ("wait for process cgroup probe: " +:+ show_error e)
                   | Ok status => if success status then Ok ()
                                else Err ("process cgroup probe exited with " +:+ status_text status)
                   end)
      end
  end.
End processes.

(** * What a launch reports

    However the report of a failed child is cut into writes and reads and
    interrupted by signals, the launch returns the child's own error, or a
    running child, and never leaves a failed one behind. *)

Local Open Scope Z_scope.

Lemma report_prefix writes bytes : ∃ rest, bytes = report_child_error writes bytes ++ rest.
Proof.
  revert bytes. induction writes as [|[|n] writes IH]; intros [|b bytes]; cbn [report_child_error]; eauto.
  destruct (IH (drop (S n) (b :: bytes))) as [rest Hrest]. exists rest.
  rewrite <-(assoc_L (++)), <-Hrest. by rewrite take_drop.
Qed.

Lemma errno_roundtrip e : in_signed 32 e = true → errno_of (errno_bytes e) = e.
Proof.
  rewrite in_signed_spec. intros He. unfold errno_of, errno_bytes. rewrite from_to_le_bytes.
  change (256 ^ Z.of_nat 4) with (2 ^ 32). unfold as_i32, as_u32.
  assert (as_unsigned 32 e mod 2 ^ 32 = as_unsigned 32 e) as ->.
  { apply Z.mod_small. by apply as_unsigned_in. }
  rewrite as_signed_as_unsigned by lia. by apply as_signed_small.
Qed.

Section processes.
Context {W : Type} `{!ProcKernel W}.

(** ** Reading the report *)

Lemma read_report_ok fuel w bs w' bytes :
  (length bs ≤ 4)%nat → read_report fuel w bs = Some (w', Ok bytes) →
  (length bytes ≤ 4)%nat ∧ bs ++ pipe w = bytes ++ pipe w' ∧ (length bytes = 4%nat ∨ bytes = bs ++ pipe w).
Proof.
  revert w bs. induction fuel as [|fuel IH]; intros w bs Hlen; [done|]. cbn [read_report].
  destruct (Nat.ltb_spec (length bs) 4) as [Hlt|Hge]; [|intros [= <- <-]; split_and!; [lia|done|left; lia]].
  destruct (sys_read w (4 - length bs)) as [w1 [[|b more]|e]] eqn:Hread.
  - apply read_pipe in Hread as (Hp & _ & Hend). intros [= <- <-]. rewrite Hp. split_and!; [lia|done|].
    right. destruct (Hend eq_refl) as [|He]; [lia|]. by rewrite <-Hp, He, app_nil_r.
  - apply read_pipe in Hread as (Hp & Hn & _). intros Hrun. apply IH in Hrun as (Hl & He & Hor).
    + rewrite Hp, (assoc_L (++)). split_and!; [done|done|]. by destruct Hor as [?| ->]; [left|right].
    + rewrite length_app. lia.
  - apply read_failed_pipe in Hread. destruct (e =? EINTR); [|done]. intros Hrun.
    apply IH in Hrun; [|done]. by rewrite Hread in Hrun.
Qed.

Lemma give_up_error {A} fuel w c e w' c' (r : result ProcError A) :
  give_up_child fuel w c e = Some (w', c', r) → r = Err e.
Proof. unfold give_up_child. destruct (child_wait _ _ _) as [[[? ?] ?]|]; [|done]. by intros [= _ _ <-]. Qed.

(** An answer is what the child wrote. *)
Lemma read_child_error_ok fuel w c w' c' r :
  read_child_error fuel w c = Some (w', c', Ok r) → (length (pipe w) ≤ 4)%nat →
  c' = c ∧ match r with
           | None => pipe w = []
           | Some errno => length (pipe w) = 4%nat ∧ errno = errno_of (pipe w)
           end.
Proof.
  revert w. induction fuel as [|fuel IH]; intros w Hrun Hlen; [done|]. cbn [read_child_error] in Hrun.
  pose proof (poll_pipe w) as Hpoll. destruct (sys_poll w) as [w1 [[]|e]]; cbn [fst] in Hpoll.
  - rewrite <-Hpoll in Hlen |- *. destruct (read_report fuel w1 []) as [[w2 [bytes|e]]|] eqn:Hread; [| |done].
    + apply read_report_ok in Hread as (Hl & Happ & Hor); [|cbn; lia]. cbn in Happ, Hor. cbn in Hrun.
      assert (bytes = pipe w1 ∨ length bytes ≠ 4%nat) as Hall.
      { destruct Hor as [H4| ->]; [|by left]. left. rewrite Happ in Hlen |- *. rewrite length_app in Hlen.
        destruct (pipe w2); [by rewrite app_nil_r|cbn in Hlen; lia]. }
      destruct bytes as [|b0 [|b1 [|b2 [|b3 [|]]]]]; cbn in Hrun, Hl; try (by apply give_up_error in Hrun); try lia.
      * injection Hrun as _ <- <-. split; [done|]. by destruct Hor.
      * injection Hrun as _ <- <-. split; [done|]. destruct Hall as [<-|]; done.
    + by apply give_up_error in Hrun.
  - by apply give_up_error in Hrun.
  - destruct (e =? EINTR); [|by apply give_up_error in Hrun]. rewrite <-Hpoll in Hlen |- *. by apply IH.
Qed.

(** ** No child is left behind *)

(** Waiting for a child ends with it collected, and no other. *)
Lemma wait_loop_children fuel w pid w' r :
  wait_loop fuel w pid = Some (w', r) → children w' = children w ∖ {[pid]}.
Proof.
  revert w. induction fuel as [|fuel IH]; intros w; [done|]. cbn [wait_loop].
  destruct (sys_waitpid w pid false) as [w1 [[result status]|e]] eqn:Hwait.
  - apply waitpid_children in Hwait as [_ Hc]. by intros [= <- _].
  - apply waitpid_failed_children in Hwait as [Hc Hwhy]. destruct (Z.eqb_spec e EINTR) as [_|Hne].
    + rewrite <-Hc. apply IH.
    + destruct Hwhy as [|Hno]; [done|]. intros [= <- _]. rewrite Hc. set_solver.
Qed.

Lemma child_wait_children fuel w pid w' c r :
  child_wait fuel w (mkLinuxChild pid None) = Some (w', c, r) → children w' = children w ∖ {[pid]}.
Proof.
  unfold child_wait. cbn. destruct (wait_loop fuel w pid) as [[w1 r1]|] eqn:Hw; [|done].
  apply wait_loop_children in Hw. by intros [= <- _ _].
Qed.

Lemma give_up_children {A} fuel w pid e w' c' (r : result ProcError A) :
  give_up_child fuel w (mkLinuxChild pid None) e = Some (w', c', r) →
  children w' = match r with Ok _ => children w | Err _ => children w ∖ {[pid]} end.
Proof.
  intros Hg. rewrite (give_up_error _ _ _ _ _ _ _ Hg). revert Hg.
  unfold give_up_child. destruct (child_wait _ _ _) as [[[w1 c1] r1]|] eqn:Hw; [|done]. intros [= <- _ _].
  apply child_wait_children in Hw. rewrite Hw. unfold child_kill. cbn.
  pose proof (kill_children w pid) as Hk. destruct (sys_kill w pid) as [w2 []]; cbn in *; by rewrite Hk.
Qed.

Lemma read_report_children fuel w have w' r :
  read_report fuel w have = Some (w', r) → children w' = children w.
Proof.
  revert w have. induction fuel as [|fuel IH]; intros w have; [done|]. cbn [read_report].
  destruct (Nat.ltb _ _); [|by intros [= <- _]]. pose proof (read_children w (4 - length have)) as Hc.
  destruct (sys_read w (4 - length have)) as [w1 [[|b more]|e]]; cbn [fst] in Hc; rewrite <-Hc.
  - by intros [= <- _].
  - apply IH.
  - destruct (e =? EINTR); [apply IH|by intros [= <- _]].
Qed.

Lemma read_child_error_children fuel w pid w' c' r :
  read_child_error fuel w (mkLinuxChild pid None) = Some (w', c', r) →
  children w' = match r with Ok _ => children w | Err _ => children w ∖ {[pid]} end.
Proof.
  revert w. induction fuel as [|fuel IH]; intros w; [done|]. cbn [read_child_error].
  pose proof (poll_children w) as Hp. destruct (sys_poll w) as [w1 [[]|errno]]; cbn [fst] in Hp; rewrite <-Hp.
  - destruct (read_report fuel w1 []) as [[w2 [bytes|errno]]|] eqn:Hread; [| |done];
      apply read_report_children in Hread; cbn [mbind option_bind]; rewrite <-Hread; [|apply give_up_children].
    destruct bytes as [|b0 [|b1 [|b2 [|b3 [|]]]]]; cbn [length]; try (by intros [= <- _ <-]); apply give_up_children.
  - apply give_up_children.
  - destruct (errno =? EINTR); [apply IH|apply give_up_children].
Qed.

(** ** A launch returns *)

(** [signals] bounds the signals that are still to interrupt a call. *)
Definition call_signals {A} (signals : W → nat) (w : W) (r : W * result Z A) : Prop :=
  (signals r.1 ≤ signals w)%nat ∧ (r.2 = Err EINTR → (signals r.1 < signals w)%nat).
Record signals_end (signals : W → nat) : Prop := {
  se_waitpid : ∀ w pid, call_signals signals w (sys_waitpid w pid false);
  se_kill : ∀ w pid, (signals (sys_kill w pid).1 ≤ signals w)%nat;
  se_poll : ∀ w, call_signals signals w (sys_poll w);
  se_read : ∀ w n, call_signals signals w (sys_read w n);
}.

Section returns.
Context (signals : W → nat) (Hend : signals_end signals).

Lemma wait_returns fuel w c : (signals w < fuel)%nat → is_Some (child_wait fuel w c).
Proof.
  intros Hfuel. unfold child_wait. destruct (lc_status c); [by eexists|].
  assert (is_Some (wait_loop fuel w (lc_pid c))) as [[w1 r] ->]; [|by eexists].
  revert w Hfuel. induction fuel as [|fuel IH]; intros w Hfuel; [lia|]. cbn [wait_loop].
  destruct (se_waitpid _ Hend w (lc_pid c)) as [Hle Hlt].
  destruct (sys_waitpid w (lc_pid c) false) as [w1 [[result status]|e]]; cbn [fst snd] in *; [by eexists|].
  destruct (Z.eqb_spec e EINTR) as [->|]; [|by eexists]. apply IH. specialize (Hlt eq_refl). lia.
Qed.

Lemma give_up_returns {A} fuel w c e : (signals w < fuel)%nat → is_Some (give_up_child (A := A) fuel w c e).
Proof.
  intros Hfuel. unfold give_up_child. destruct (wait_returns fuel (child_kill w c).1 c) as [[[w1 c1] r] ->]; [|by eexists].
  unfold child_kill. destruct (lc_status c); [done|]. pose proof (se_kill _ Hend w (lc_pid c)).
  destruct (sys_kill w (lc_pid c)) as [w1 []]; cbn in *; lia.
Qed.

Lemma read_report_returns fuel w have :
  (signals w + 5 ≤ fuel + length have)%nat → (length have ≤ 4)%nat →
  ∃ w' r, read_report fuel w have = Some (w', r) ∧ (signals w' ≤ signals w)%nat.
Proof.
  revert w have. induction fuel as [|fuel IH]; intros w have Hfuel Hlen; [lia|]. cbn [read_report].
  destruct (Nat.ltb_spec (length have) 4) as [Hlt|]; [|by eauto].
  destruct (se_read _ Hend w (4 - length have)) as [Hle Hsig]. pose proof (read_pipe w (4 - length have)) as Hr.
  destruct (sys_read w (4 - length have)) as [w1 [[|b more]|e]]; cbn [fst snd] in *; [by eauto|..].
  - destruct (Hr w1 (b :: more) eq_refl) as (_ & Hn & _).
    destruct (IH w1 (have ++ b :: more)) as (w' & r & Hrun & Hs); [rewrite length_app; cbn in *; lia..|].
    exists w', r. split; [done|lia].
  - destruct (Z.eqb_spec e EINTR) as [->|]; [|by eauto]. specialize (Hsig eq_refl).
    destruct (IH w1 have) as (w' & r & Hrun & Hs); [lia..|]. exists w', r. split; [done|lia].
Qed.

Lemma read_child_error_returns fuel w c :
  (signals w + 6 ≤ fuel)%nat →
  ∃ w' c' r, read_child_error fuel w c = Some (w', c', r) ∧ (is_ok r = true → signals w' ≤ signals w)%nat.
Proof.
  revert w. induction fuel as [|fuel IH]; intros w Hfuel; [lia|]. cbn [read_child_error].
  assert (∀ w1 e, (signals w1 ≤ signals w)%nat →
    ∃ w' c' r, give_up_child (A := option Z) fuel w1 c e = Some (w', c', r) ∧ (is_ok r = true → signals w' ≤ signals w)%nat)
    as Hgive.
  { intros w1 e Hle. destruct (give_up_returns (A := option Z) fuel w1 c e) as [[[w' c'] r] Hg]; [lia|].
    exists w', c', r. split; [done|]. by rewrite (give_up_error _ _ _ _ _ _ _ Hg). }
  destruct (se_poll _ Hend w) as [Hle Hsig]. destruct (sys_poll w) as [w1 [[]|e]]; cbn [fst snd] in *.
  - destruct (read_report_returns fuel w1 []) as (w2 & r & -> & Hs); [cbn; lia..|]. cbn.
    destruct r as [bytes|e]; [|apply Hgive; lia].
    destruct bytes as [|b0 [|b1 [|b2 [|b3 [|]]]]]; cbn; try (apply Hgive; lia);
      (eexists _, _, _; split; [done|lia]).
  - apply Hgive. lia.
  - destruct (Z.eqb_spec e EINTR) as [->|]; [|apply Hgive; lia]. specialize (Hsig eq_refl).
    destruct (IH w1) as (w' & c' & r & Hrun & Hs); [lia|]. exists w', c', r. split; [done|]. intros Hok.
    specialize (Hs Hok). lia.
Qed.

Lemma launch_returns fuel w w1 pid :
  sys_clone3 w = (w1, Ok pid) → (signals w1 + 6 ≤ fuel)%nat → is_Some (launch fuel w).
Proof.
  intros Hclone Hfuel. unfold launch. rewrite Hclone.
  destruct (read_child_error_returns fuel w1 (mkLinuxChild pid None)) as (w2 & c & r & -> & Hs); [lia|]. cbn.
  destruct r as [[errno|]|e]; [|by eexists..]. specialize (Hs eq_refl).
  destruct (wait_returns fuel w2 c) as [[[w3 c3] r3] ->]; [lia|by eexists].
Qed.
End returns.

(** ** A system that answers *)

(** Polls find the report, and only signals interrupt. *)
Record calm : Prop := {
  calm_poll : ∀ w, (sys_poll w).2 = Ok true ∨ (sys_poll w).2 = Err EINTR;
  calm_read : ∀ w n e, (sys_read w n).2 = Err e → e = EINTR;
}.

Lemma read_report_calm fuel w bs w' e : calm → read_report fuel w bs = Some (w', Err e) → False.
Proof.
  intros Hcalm. revert w bs. induction fuel as [|fuel IH]; intros w bs; [done|]. cbn [read_report].
  destruct (Nat.ltb _ _); [|done]. pose proof (calm_read Hcalm w (4 - length bs)) as Hr.
  destruct (sys_read w (4 - length bs)) as [w1 [[|b more]|errno]]; cbn [snd] in Hr; [done|apply IH|].
  rewrite (Hr errno eq_refl), Z.eqb_refl. apply IH.
Qed.

(** A complete report is read. *)
Lemma read_child_error_calm fuel w c w' c' r :
  calm → read_child_error fuel w c = Some (w', c', r) → length (pipe w) ∈ [0; 4]%nat →
  ∃ answer, r = Ok answer.
Proof.
  intros Hcalm. revert w. induction fuel as [|fuel IH]; intros w Hrun Hlen; [done|]. cbn [read_child_error] in Hrun.
  pose proof (poll_pipe w) as Hpoll. pose proof (calm_poll Hcalm w) as Hready.
  destruct (sys_poll w) as [w1 [[]|e]]; cbn [fst snd] in *; [|by destruct Hready|].
  - rewrite <-Hpoll in Hlen. destruct (read_report fuel w1 []) as [[w2 [bytes|e]]|] eqn:Hread; [| |done].
    + apply read_report_ok in Hread as (Hl & Happ & Hor); [|cbn; lia]. cbn in Happ, Hor, Hrun.
      assert (length bytes ∈ [0; 4]%nat) as Hb.
      { destruct Hor as [->| ->]; [set_solver|done]. }
      rewrite !elem_of_cons, elem_of_nil in Hb.
      destruct bytes as [|b0 [|b1 [|b2 [|b3 [|]]]]]; cbn in Hb, Hrun; try lia; injection Hrun as _ _ <-; eauto.
    + by apply read_report_calm in Hread.
  - destruct Hready as [|[= ->]]; [done|]. rewrite Z.eqb_refl in Hrun. rewrite <-Hpoll in Hlen. by eapply IH.
Qed.

(** C36. A launch returns, and tells the truth about its child.  It returns
    whenever the signals that interrupt it end.  A child that is returned has
    reported nothing: every step before [exec] and [exec] itself succeeded, or
    not one byte of its report could be written; it is the agent's only new
    child.  When the child failed and its report is complete, cut into whatever
    writes and reads and however often interrupted, the launch returns exactly
    the child's error number.  And when a launch fails after the process was
    created, it has been waited for: the agent's children are those it had
    before, no failed child stays behind and no other is collected. *)
Theorem launch_truthful fuel w w1 pid :
  let view := (next_child w).1 in
  let writes := (next_child w).2 in
  sys_clone3 w = (w1, Ok pid) →
  (∀ signals, signals_end signals → (signals w1 + 6 ≤ fuel)%nat → is_Some (launch fuel w))
  ∧ ∀ w' out, launch fuel w = Some (w', out) →
    (∀ c, out = Ok c → c = mkLinuxChild pid None ∧ child_report view writes = []
                       ∧ children w' = {[pid]} ∪ children w)
    ∧ (∀ errno, child_setup view = Some errno → in_signed 32 errno = true →
         child_report view writes = errno_bytes errno → calm → out = Err (OsError errno))
    ∧ (∀ e, out = Err e → children w' = children w).
Proof.
  intros view writes Hclone. split; [intros signals Hend; by eapply launch_returns|].
  intros w' out. unfold launch. rewrite Hclone. pose proof (clone3_pipe _ _ _ Hclone) as Hpipe.
  destruct (clone3_children _ _ _ Hclone) as [Hfresh Hkids].
  assert (({[pid]} ∪ children w) ∖ {[pid]} = children w) as Hback by set_solver.
  assert (length (pipe w1) ≤ 4)%nat as Hlen.
  { rewrite Hpipe. unfold child_report. destruct (child_setup _) as [errno|]; [|cbn; lia].
    destruct (report_prefix (next_child w).2 (errno_bytes errno)) as [rest Hr].
    pose proof (to_le_bytes_length 4 (as_u32 errno)) as Hl. fold (errno_bytes errno) in Hl.
    rewrite Hr, length_app in Hl. lia. }
  destruct (read_child_error fuel w1 (mkLinuxChild pid None)) as [[[w2 c2] r]|] eqn:Hread; [|done].
  cbn [mbind option_bind]. intros Hrun. pose proof (read_child_error_children _ _ _ _ _ _ Hread) as Hkids2.
  rewrite Hkids in Hkids2.
  assert (∀ errno, in_signed 32 errno = true → child_report view writes = errno_bytes errno → calm →
    r = Ok (Some errno)) as Hcomplete.
  { intros errno Hin Hrep Hcalm. fold view writes in Hpipe. rewrite Hrep in Hpipe.
    destruct (read_child_error_calm _ _ _ _ _ _ Hcalm Hread) as [answer ->].
    { rewrite Hpipe. unfold errno_bytes. rewrite to_le_bytes_length. set_solver. }
    apply read_child_error_ok in Hread as [_ Hans]; [|done]. rewrite Hpipe in Hans.
    destruct answer as [e|]; [|done]. destruct Hans as [_ ->]. by rewrite errno_roundtrip. }
  destruct r as [[errno|]|e].
  - apply read_child_error_ok in Hread as [-> _]; [|done].
    destruct (child_wait fuel w2 (mkLinuxChild pid None)) as [[[w3 c3] r3]|] eqn:Hw; [|done].
    injection Hrun as <- <-. apply child_wait_children in Hw. split_and!; [done| |].
    + intros errno' _ Hin Hrep Hcalm. by specialize (Hcomplete errno' Hin Hrep Hcalm) as [= ->].
    + intros _ _. by rewrite Hw, Hkids2.
  - injection Hrun as <- <-. apply read_child_error_ok in Hread as [-> Hp]; [|done]. split_and!; [|..|done].
    + intros c [= <-]. by rewrite Hpipe in Hp.
    + intros errno _ Hin Hrep Hcalm. by specialize (Hcomplete errno Hin Hrep Hcalm).
  - injection Hrun as <- <-. split_and!; [done| |by rewrite Hkids2].
    intros errno _ Hin Hrep Hcalm. by specialize (Hcomplete errno Hin Hrep Hcalm).
Qed.

(** A child whose status was collected is never waited for or signalled
    again, so a process that reuses its pid is left alone. *)
Theorem reaped_child_untouched fuel w c w' c' status :
  (∃ r, child_try_wait fuel w c = Some (w', c', r) ∧ r = Ok (Some status))
  ∨ child_wait fuel w c = Some (w', c', Ok status) →
  ∀ fuel2 w2, child_try_wait fuel2 w2 c' = Some (w2, c', Ok (Some status))
    ∧ child_wait fuel2 w2 c' = Some (w2, c', Ok status)
    ∧ child_kill w2 c' = (w2, Ok ()).
Proof.
  intros Hdone fuel2 w2. assert (lc_status c' = Some status) as Hs.
  { destruct Hdone as [(r & Hrun & ->)|Hrun].
    - unfold child_try_wait in Hrun. destruct (lc_status c) as [st|] eqn:Hst; [by injection Hrun as _ <- <-|].
      destruct (try_wait_loop _ _ _) as [[w1 [[st|]|e]]|]; try done. by injection Hrun as _ <- <-.
    - unfold child_wait in Hrun. destruct (lc_status c) as [st|] eqn:Hst; [by injection Hrun as _ <- <-|].
      destruct (wait_loop _ _ _) as [[w1 [st|e]]|]; try done. by injection Hrun as _ <- <-. }
  unfold child_try_wait, child_wait, child_kill. by rewrite Hs.
Qed.
End processes.

(** ** A system that interrupts every other call, so often *)

Record Slow := mkSlow {
  sl_view : ChildView; sl_writes : list nat; sl_pipe : list Z; sl_even : bool; sl_signals : nat; sl_children : gset Z;
}.

(** A signal, if it is due and there is one left. *)
Definition interrupted (w : Slow) : option Slow :=
  match sl_even w, sl_signals w with
  | true, S n => Some (mkSlow (sl_view w) (sl_writes w) (sl_pipe w) false n (sl_children w))
  | _, _ => None
  end.

Definition slow_poll (w : Slow) : Slow * result Z bool :=
  match interrupted w with Some w' => (w', Err EINTR) | None => (w, Ok true) end.

Definition slow_read (w : Slow) (n : nat) : Slow * result Z (list Z) :=
  match interrupted w with
  | Some w' => (w', Err EINTR)
  | None =>
      (mkSlow (sl_view w) (sl_writes w) (drop (Nat.min 1 n) (sl_pipe w)) true (sl_signals w) (sl_children w),
       Ok (take (Nat.min 1 n) (sl_pipe w)))
  end.

Definition slow_waitpid (w : Slow) (pid : Z) (nohang : bool) : Slow * result Z (Z * Z) :=
  if decide (pid ∈ sl_children w) then
    (mkSlow (sl_view w) (sl_writes w) (sl_pipe w) (sl_even w) (sl_signals w) (sl_children w ∖ {[pid]}),
     Ok (pid, 127 * 256))
  else (w, Err 10).

(** The next pid is above all others. *)
Definition fresh_pid (w : Slow) : Z := fold_right Z.max 41 (elements (sl_children w)) + 1.

Lemma fresh_pid_fresh w : fresh_pid w ∉ sl_children w.
Proof.
  unfold fresh_pid. rewrite <-elem_of_elements.
  assert (∀ l : list Z, ∀ p, p ∈ l → p ≤ fold_right Z.max 41 l) as Hmax.
  { induction l as [|x l IH]; intros p; [by intros ?%elem_of_nil|].
    intros [->|Hin]%elem_of_cons; cbn; [lia|]. specialize (IH p Hin). lia. }
  intros Hin%Hmax. lia.
Qed.

#[export, refine] Instance slow_kernel : ProcKernel Slow := {|
  sys_waitpid := slow_waitpid;
  sys_kill w _ := (w, Ok ());
  sys_open_null w := (w, Ok ());
  sys_clone_log w := (w, Ok ());
  sys_open_group w _ := (w, Ok ());
  sys_pipe2 w := (w, Ok ());
  sys_clone3 w :=
    (mkSlow (sl_view w) (sl_writes w) (child_report (sl_view w) (sl_writes w)) true (sl_signals w)
       ({[fresh_pid w]} ∪ sl_children w), Ok (fresh_pid w));
  sys_poll := slow_poll;
  sys_read := slow_read;
  os_text _ := "error"%string;
  status_text _ := "status"%string;
  next_child w := (sl_view w, sl_writes w);
  pipe := sl_pipe;
  children := sl_children;
|}.
Proof.
  - by intros w w' pid [= <- _].
  - intros w. unfold slow_poll, interrupted. by destruct (sl_even w), (sl_signals w).
  - intros w n w' bs. unfold slow_read. destruct (interrupted w); [done|]. intros [= <- <-]. cbn [sl_pipe].
    rewrite take_drop. split_and!; [done|destruct n; rewrite length_take; lia|].
    destruct n; [by left|]. right. by destruct (sl_pipe w).
  - intros w n w' e. unfold slow_read, interrupted. by destruct (sl_even w), (sl_signals w); intros [= <- _].
  - intros w w' pid [= <- <-]. split; [apply fresh_pid_fresh|done].
  - intros w pid w' result status. unfold slow_waitpid. destruct (decide _); [|done]. by intros [= <- <- _].
  - intros w pid w' e. unfold slow_waitpid. destruct (decide _); [done|]. intros [= <- _]. by split; [|right].
  - done.
  - intros w. unfold slow_poll, interrupted. by destruct (sl_even w), (sl_signals w).
  - intros w n. unfold slow_read, interrupted. by destruct (sl_even w), (sl_signals w).
Defined.

Lemma slow_calm : calm (W := Slow).
Proof.
  split.
  - intros w. cbn. unfold slow_poll. destruct (interrupted w); [by right|by left].
  - intros w n e. cbn. unfold slow_read. destruct (interrupted w); [|done]. by intros [= <-].
Qed.

Lemma slow_signals_end : signals_end sl_signals.
Proof.
  split.
  - intros w pid. cbn. unfold slow_waitpid. by destruct (decide _); split.
  - done.
  - intros w. unfold call_signals. cbn. unfold slow_poll, interrupted.
    destruct (sl_even w), (sl_signals w) eqn:Hs; cbn; split; try done; rewrite ?Hs; lia.
  - intros w n. unfold call_signals. cbn. unfold slow_read, interrupted.
    destruct (sl_even w), (sl_signals w) eqn:Hs; cbn; split; try done; rewrite ?Hs; lia.
Qed.

(** [exec] fails with ENOENT; the report is written in two pieces, three
    signals arrive, and the agent has another child. *)
Definition no_program : ChildView := mkView true None (λ _ _, None) (Some 2) 5 6 7.
Definition before : Slow := mkSlow no_program [3; 1]%nat [] false 3 {[7]}.

Lemma launch_truthful_witness :
  sys_clone3 before = (mkSlow no_program [3; 1]%nat [2; 0; 0; 0] true 3 {[42; 7]}, Ok 42)
  ∧ ∃ w', launch 9 before = Some (w', Err (OsError 2)) ∧ children w' = {[7]}.
Proof.
  assert (sys_clone3 before = (mkSlow no_program [3; 1]%nat [2; 0; 0; 0] true 3 {[42; 7]}, Ok 42)) as Hclone
    by (vm_compute; reflexivity).
  split; [exact Hclone|].
  destruct (launch_truthful 9 before _ 42 Hclone) as [Hret Htruth].
  destruct (Hret sl_signals slow_signals_end) as [[w' out] Hrun]; [vm_compute; lia|].
  destruct (Htruth w' out Hrun) as (_ & Herr & Hkids).
  assert (out = Err (OsError 2)) as ->.
  { apply Herr; [reflexivity|reflexivity|vm_compute; reflexivity|exact slow_calm]. }
  exists w'. split; [exact Hrun|]. exact (Hkids _ eq_refl).
Defined.
