(* ===== verification/Probe.v ===== *)
(** * What an agent reads of its host

    The readings behind a machine description (discover.rs), the CPU and NUMA
    lists of the running process and the captured output (runtime.rs), and the
    container engine found at start-up (container.rs).  The readings are the
    record [Readings]; text read from files and commands is taken as valid
    UTF-8. *)

From S2P Require Import Prelude Words Identifier Text Types Workload Protocol Inventory Discover.
From S2P Require Import Execution.
From Stdlib Require Import Ascii.

(** An attempt to run a command. *)
Inductive Ran :=
| RanOutput (success : bool) (stdout stderr : string)
| RanNotFound
| RanFailed (err : string).

Record Readings := mkReadings {
  (** the bytes of an environment variable, and whether bytes are UTF-8 *)
  rd_var_os : string → option string;
  rd_is_utf8 : string → bool;
  rd_file : string → option string;
  rd_bytes : string → option (list Byte.byte);
  rd_dir : option (list string);
  rd_exists : string → bool;
  rd_canonicalize : string → option string;
  rd_run : string → list string → Ran;
  rd_parallelism : option u64;
  rd_temp_dir : string;
  (** the affinity set, and the mask of allowed memory nodes *)
  rd_affinity : option (N → bool);
  rd_mems_allowed : option N;
}.

Section readings.
Context (rd : Readings).

(** [std::env::var(name).ok()] *)
Definition var (name : string) : option string :=
  value ← rd_var_os rd name; if rd_is_utf8 rd value then Some value else None.

(** ** Text *)

Fixpoint contains (needle s : string) : bool :=
  String.prefix needle s || match s with "" => false | String _ s => contains needle s end.

(** [s.trim_end_matches(suffix)] *)
Fixpoint strip_rev (fuel : nat) (suffix s : string) : string :=
  match fuel with
  | O => s
  | S fuel => match strip_prefix suffix s with Some s => strip_rev fuel suffix s | None => s end
  end.
Definition trim_end_matches (suffix s : string) : string :=
  String.rev (strip_rev (String.length s) (String.rev suffix) (String.rev s)).

(** The last but one component of an absolute path. *)
Definition parent_name (path : string) : option string :=
  match rev (List.filter (λ part, negb (bool_decide (part = ""))) (split_on "/" path)) with
  | _ :: parent :: _ => Some parent
  | _ => None
  end.

(** ** discover.rs *)

Definition pci_attrs (bus_id : string) : Attrs :=
  let path := join_path "/sys/bus/pci/devices" bus_id in
  let numa : Attrs :=
    match rd_file rd (join_path path "numa_node") with
    | Some text =>
        let numa := trim text in
        if negb (bool_decide (numa = "")) && negb (bool_decide (numa = "-1"))
        then {["numa_node" := numa]} else ∅
    | None => ∅
    end in
  match rd_canonicalize rd path ≫= parent_name with
  | Some parent =>
      if String.prefix "0000:" parent && contains "." parent then <["pci_root" := parent]> numa else numa
  | None => numa
  end.

Inductive DiscoveryError :=
| DevicesNotUtf8
| DeclaredInvalid (e : DeclaredError)
| NvidiaCannotRun (err : string)
| NvidiaInvalid (e : NvidiaError).

Definition nvidia_query : list string :=
  ["--query-gpu=index,uuid,name,pci.bus_id,memory.total,compute_cap,driver_version";
   "--format=csv,noheader,nounits"].

Definition nvidia_devices : result DiscoveryError (list DeviceSpec) :=
  match rd_run rd "nvidia-smi" nvidia_query with
  | RanNotFound => Ok []
  | RanFailed err => Err (NvidiaCannotRun err)
  | RanOutput success stdout stderr =>
      match interpret_nvidia_query (rd_exists rd) pci_attrs success stdout stderr with
      | Ok devices => Ok devices
      | Err e => Err (NvidiaInvalid e)
      end
  end.

Definition discovered_devices : result DiscoveryError (list DeviceSpec) :=
  match rd_var_os rd "ARCHON_DEVICES" with
  | Some spec =>
      if negb (rd_is_utf8 rd spec) then Err DevicesNotUtf8
      else match validate_declared_devices spec with
           | Ok _ => Ok (declared_devices spec)
           | Err e => Err (DeclaredInvalid e)
           end
  | None => nvidia_devices
  end.

(** The Linux reading; [None] is a panic. *)
Definition total_memory_bytes : option u64 :=
  content ← rd_file rd "/proc/meminfo";
  rest ← find_map (strip_prefix "MemTotal:") (lines content);
  kib ← parse_u64 (trim (trim_end_matches " kB" (trim rest)));
  Some ((kib * 1024) mod u64_modulus).

Definition hostname : string :=
  match var "HOSTNAME" with
  | Some name => name
  | None =>
      match rd_run rd "hostname" [] with
      | RanOutput _ stdout _ => trim stdout
      | _ => "localhost"
      end
  end.

(** The memory of the flat shape is read only where it is used. *)
Definition describe_devices (devices : list DeviceSpec) : option MachineDescription :=
  let host_nodes := host_topology (rd_dir rd) (rd_file rd) in
  memory ← (if bool_decide (host_nodes = []) then total_memory_bytes else Some 0);
  Some (description_with_devices hostname (default 1 (rd_parallelism rd)) memory host_nodes devices).

Definition try_describe : option (result DiscoveryError MachineDescription) :=
  match discovered_devices with
  | Err e => Some (Err e)
  | Ok devices => Ok <$> describe_devices devices
  end.

(** [describe]: incomplete discovery is a machine without devices. *)
Definition describe : option MachineDescription :=
  match discovered_devices with
  | Err _ => describe_devices []
  | Ok devices => describe_devices devices
  end.

(** [encode] is the JSON of a list of paths. *)
Definition discover (encode : list string → string) : option (LocalMachine * list Node * list Edge) :=
  d ← describe; build_graph encode d 0.

(** ** runtime.rs *)

Definition log_dir : string :=
  default (join_path (rd_temp_dir rd) "archon-logs") (rd_var_os rd "ARCHON_LOG_DIR").

Definition LOG_TAIL : nat := N.to_nat (64 * 1024).

(** The bytes shown of a lease's output. *)
Definition log_bytes (lease : LeaseId) : list Byte.byte :=
  match rd_bytes rd (join_path log_dir ("lease-" +:+ pretty lease +:+ ".log")) with
  | Some bytes => drop (length bytes - LOG_TAIL) bytes
  | None => []
  end.

Definition CPU_SETSIZE : N := 1024.

Definition sched_affinity_list : CpuList :=
  mkCpuList (match rd_affinity rd with
             | Some set => List.filter set (N.of_nat <$> seq 0 (N.to_nat CPU_SETSIZE))
             | None => []
             end).

Definition numa_mems_list : CpuList :=
  mkCpuList (match rd_mems_allowed rd with
             | Some mask => List.filter (N.testbit mask) (N.of_nat <$> seq 0 64)
             | None =>
                 match rd_file rd "/sys/devices/system/node/online" with
                 | Some text => match parse_cpu_list (trim text) with Ok numbers => numbers | Err _ => [] end
                 | None => []
                 end
             end).

Definition host_affinity : CpuList * CpuList := (sched_affinity_list, numa_mems_list).

(** ** container.rs *)

Definition truthy (value : string) : bool :=
  bool_decide (to_ascii_lowercase (trim value) ∈ ["1"; "true"; "yes"]).

(** [pid], [salt] and [seq] make container names unique. *)
Definition container_new (engine : string) (pid salt seq : N) : ContainerRuntime :=
  let version := rd_run rd engine ["--version"] in
  let text := match version with
              | RanOutput _ stdout stderr => to_ascii_lowercase (stdout +:+ stderr)
              | _ => ""
              end in
  let available := match version with RanOutput success _ _ => success | _ => false end
                   && (contains "docker" text || contains "podman" text) in
  let relabels := available && contains "podman" text in
  let use_cdi := from_option truthy false (var "ARCHON_CONTAINER_USE_CDI") in
  mkContainers engine (pretty pid +:+ "-" +:+ pretty salt +:+ "-" +:+ pretty seq) available ∅ relabels use_cdi
    (if use_cdi && relabels then var "ARCHON_CDI_SPEC_DIR" else None).
End readings.

(** ** The end of a runtime *)

Section drop.
Context {W : Type} `{!Host W}.

(** [Drop for ProcessRuntime]: every lease tracked, in order. *)
Definition process_drop (w : W) (r : ProcessRuntime) : W * ProcessRuntime :=
  foldl (λ '(w, r) lease, (process_terminate w r lease).1) (w, r)
    (bs_iter (dom (pr_children r) ∪ dom (pr_groups r) : gset N)).

(** Terminating a lease touches the records of no other. *)
Lemma terminate_other w r lease other :
  other ≠ lease →
  pr_children (process_terminate w r lease).1.2 !! other = pr_children r !! other
  ∧ pr_groups (process_terminate w r lease).1.2 !! other = pr_groups r !! other.
Proof.
  intros Hne. unfold process_terminate, terminate_child, reap.
  repeat (case_match; simplify_eq/=); rewrite ?lookup_delete, ?decide_False by done; done.
Qed.

(** A termination that succeeds leaves no record of the lease. *)
Lemma terminate_forgets w r lease killed :
  (process_terminate w r lease).2 = Ok killed →
  pr_children (process_terminate w r lease).1.2 !! lease = None
  ∧ pr_groups (process_terminate w r lease).1.2 !! lease = None.
Proof.
  unfold process_terminate, terminate_child, reap.
  repeat (case_match; simplify_eq/=); intros; simplify_eq/=;
    rewrite ?lookup_delete, ?decide_True by done; done.
Qed.

(** A dropped runtime leaks nothing it could stop: what it still tracks
    afterwards is a lease whose termination failed. *)
Theorem drop_leaks_only_failures w r lease :
  let r' := (process_drop w r).2 in
  pr_children r' !! lease ≠ None ∨ pr_groups r' !! lease ≠ None →
  ∃ w1 r1 e, (process_terminate w1 r1 lease).2 = Err e.
Proof.
  intros r'. subst r'. unfold process_drop.
  set (leases := bs_iter _). assert (lease ∉ leases → pr_children r !! lease = None ∧ pr_groups r !! lease = None) as Hout.
  { intros Hni. subst leases. rewrite elem_of_bs_iter, elem_of_union, !elem_of_dom in Hni.
    split; apply eq_None_not_Some; tauto. }
  clearbody leases. revert w r Hout.
  induction leases as [|l leases IH]; intros w r Hout Hleft.
  { destruct Hout as [H1 H2]; [by intros ?%elem_of_nil|]. cbn in Hleft. rewrite H1, H2 in Hleft. tauto. }
  cbn [foldl] in Hleft. destruct (process_terminate w r l) as [[w1 r1] out] eqn:Hrun. cbn [fst] in Hleft.
  destruct (decide (lease = l)) as [->|Hne].
  - destruct out as [killed|e]; [|by exists w, r, e; rewrite Hrun].
    eapply (IH w1 r1); [|exact Hleft]. intros _. pose proof (terminate_forgets w r l killed) as Hf.
    rewrite Hrun in Hf. by apply Hf.
  - eapply (IH w1 r1); [|exact Hleft]. intros Hni. pose proof (terminate_other w r l lease Hne) as [Hc Hg].
    rewrite Hrun in Hc, Hg. cbn in Hc, Hg. rewrite Hc, Hg. apply Hout. by rewrite not_elem_of_cons.
Qed.
End drop.
