(* ===== verification/Command.v ===== *)
(** * Commands and effects (crates/kernel/src/command.rs) *)

From S2P Require Import Prelude.
From S2P Require Import Identifier.
From S2P Require Import Types.

Inductive Command :=
| ApplyGraph (nodes : list Node) (edges : list Edge)
| ApplyResourceFacts (nodes : list Node) (edges : list Edge)
    (claim_bindings : list ClaimBindingUpdate)
| ApplyProviderFacts (batches : list ProviderFactBatch)
    (claim_bindings : list ClaimBindingUpdate)
| AdoptFactWriters (assignments : list FactWriterAssignment)
| ReserveLease (lease : LeaseId) (owner : OwnerId) (allocation : Allocation)
    (expires_at : u64) (priority : N)
| PromoteLease (lease : LeaseId) (prepare_deadline : u64)
| OpenLease (lease : LeaseId) (owner : OwnerId) (allocation : Allocation)
    (parent : option LeaseId) (expires_at prepare_deadline : u64) (priority : N)
| ActivateLease (lease : LeaseId)
| FailLease (lease : LeaseId) (reason : string)
| ReleaseLease (lease : LeaseId)
| CompleteLease (lease : LeaseId) (exit_code : Z)
| RevokeLease (lease : LeaseId)
| ExpireLease (lease : LeaseId)
| RenewLease (lease : LeaseId) (new_expires_at : u64)
| OpenBinding (binding : BindingId) (lease : LeaseId) (node : NodeId)
    (provider : ProviderId) (scope : BindingScope)
| ActivateBinding (binding : BindingId)
| FenceBinding (binding : BindingId)
| FailBinding (binding : BindingId) (reason : string)
| ReleaseBinding (binding : BindingId)
| RecordBindingPrepared (binding : BindingId) (session provider_handle fence : u64)
| RecordBindingActive (binding : BindingId) (session fence : u64)
| RecordBindingReleased (binding : BindingId) (session fence : u64)
| RecordBindingFenced (binding : BindingId) (session fence : u64)
| RecordBindingFailed (binding : BindingId) (session : u64) (reason : string) (fence : u64)
| SetAgentSession (machine : NodeId) (session : u64)
| SetNodeHealth (node : NodeId) (health : string)
| SetNodeState (node : NodeId) (state : NodeState)
| RebindSession (binding : BindingId) (session : u64)
| AdvanceEndpointFence (node : NodeId) (provider : ProviderId) (fence : u64)
| QuarantineNode (node : NodeId)
| UnquarantineNode (node : NodeId).

Inductive Effect :=
| EffPrepare (binding : BindingId) (node : NodeId) (provider : ProviderId)
    (fence session epoch : u64)
| EffActivate (binding : BindingId) (node : NodeId) (provider : ProviderId)
    (fence session epoch : u64)
| EffRelease (binding : BindingId) (node : NodeId) (provider : ProviderId)
    (fence session epoch : u64)
| EffFence (binding : BindingId) (node : NodeId) (provider : ProviderId)
    (fence session epoch : u64)
| EffReconcile (machine : NodeId) (session epoch : u64) (bindings : list BindingId).

(** ** The widths of a command's capacity and claim amounts

    The wire types are [u64]; a command value of the model stands for a
    command of the program when its amounts fit. *)

Definition node_u64 (n : Node) : bool := quantity_u64 (node_capacity n).
Definition claims_u64 (cs : list Claim) : bool :=
  forallb (λ c, quantity_u64 (claim_quantity c)) cs.

Definition command_u64 (cmd : Command) : bool :=
  match cmd with
  | ApplyGraph nodes _ | ApplyResourceFacts nodes _ _ => forallb node_u64 nodes
  | ApplyProviderFacts batches _ => forallb (λ b, forallb node_u64 (batch_nodes b)) batches
  | ReserveLease _ _ a _ _ | OpenLease _ _ a _ _ _ _ => claims_u64 (alloc_claims a)
  | _ => true
  end.
