(* ===== verification/Journal.v ===== *)
(** The controller's journal: src/crates/control/src/log.rs.

    One record per line, appended and synced.  A crash can cut the last
    append anywhere; reading drops what follows the last newline and
    truncates the file there.  The file is its bytes; the JSON codec of
    records and commands is a parameter.  Who may hold the file open for
    writing is modelled at the end. *)

From S2P Require Import Prelude Words Identifier Types Command Protocol.

Local Open Scope Z_scope.

Section journal.
(** [ServiceState], the desired state paired with each command. *)
Context {St : Type}.

Record JournalRecord := mkJournal {
  jr_sequence : u64;
  jr_command : option Command;
  jr_state : St;
}.

Inductive LogRecord :=
| Controller (record : JournalRecord)
| Legacy (command : Command).

(** [serde_json::to_vec] and [serde_json::from_slice] at the two types. *)
Context (record_to_vec : JournalRecord → list Z) (command_to_vec : Command → list Z).
Context (record_from_slice : list Z → option JournalRecord)
        (command_from_slice : list Z → option Command).

Definition newline_byte : Z := 10.

(** [u8::is_ascii_whitespace]: space, tab, line feed, form feed, return. *)
Definition is_ascii_whitespace (b : Z) : bool :=
  (b =? 32) || (b =? 9) || (b =? 10) || (b =? 12) || (b =? 13).

(** ** Writing *)

Definition line_of (payload : list Z) : list Z := payload ++ [newline_byte].

(** [append_value]: [written] is how far the write got when it failed. *)
Definition append_value (file payload : list Z) (written : option nat) :
    list Z * result IoError unit :=
  match written with
  | None => (file ++ line_of payload, Ok ())
  | Some n => (file ++ take n (line_of payload), Err (IoOther "write"))
  end.

Definition append (file : list Z) (command : Command) : option nat → list Z * result IoError unit :=
  append_value file (command_to_vec command).
Definition append_record (file : list Z) (record : JournalRecord) :
    option nat → list Z * result IoError unit :=
  append_value file (record_to_vec record).

(** [CommandLog::truncate], after a snapshot. *)
Definition truncate (_ : list Z) : list Z := [].

(** ** Reading *)

(** [bytes[line_start..].iter().position(|byte| *byte == b'\n')] *)
Fixpoint position (bytes : list Z) : option nat :=
  match bytes with
  | [] => None
  | b :: bytes => if b =? newline_byte then Some O else S <$> position bytes
  end.

(** One non-blank line: a controller record, or else a bare command. *)
Definition parse_line (line_no : nat) (line : list Z) : result IoError LogRecord :=
  match record_from_slice line with
  | Some record => Ok (Controller record)
  | None =>
      match command_from_slice line with
      | Some command => Ok (Legacy command)
      | None => Err (IoOther ("corrupt log entry " +:+ pretty (N.of_nat line_no)))
      end
  end.

(** The loop of [read_records]: the records, and the length the file is left
    with.  Every turn moves past a newline, so [length bytes + 1] turns are
    enough. *)
Fixpoint read_loop (fuel : nat) (bytes : list Z) (line_start line_no : nat)
    (commands : list LogRecord) : result IoError (list LogRecord * nat) :=
  match fuel with
  | O => Err (IoOther "fuel")
  | S fuel =>
      match position (drop line_start bytes) with
      | None => Ok (commands, if (line_start <? length bytes)%nat then line_start else length bytes)
      | Some index =>
          let line := take index (drop line_start bytes) in
          commands ←
            (if forallb is_ascii_whitespace line then Ok commands
             else record ← parse_line line_no line; Ok (commands ++ [record]));
          read_loop fuel bytes (line_start + index + 1) (S line_no) commands
      end
  end.

(** [CommandLog::read_records]: the records and the repaired file. *)
Definition read_records (file : list Z) : result IoError (list LogRecord * list Z) :=
  '(records, len) ← read_loop (S (length file)) file 0 1 [];
  Ok (records, take len file).

Definition record_command (r : LogRecord) : option Command :=
  match r with Controller record => jr_command record | Legacy command => Some command end.

(** [CommandLog::read] *)
Definition read (file : list Z) : result IoError (list Command * list Z) :=
  '(records, file) ← read_records file;
  Ok (omap (M := list) record_command records, file).

(** ** Journals across crashes *)

Definition payload_of (r : LogRecord) : list Z :=
  match r with Controller record => record_to_vec record | Legacy command => command_to_vec command end.

Definition bytes_of (records : list LogRecord) : list Z :=
  records ≫= (λ r, line_of (payload_of r)).

(** One life of the controller: it reads the journal, appends records, and may
    die in an append after [n] bytes of it reached the disk. *)
Record session := mkSession {
  sn_appended : list LogRecord;
  sn_torn : option (LogRecord * nat);
}.

Definition torn_bytes (s : session) : list Z :=
  match sn_torn s with
  | Some (r, n) => take n (line_of (payload_of r))
  | None => []
  end.

(** What a session leaves on disk; the appends are [append_value]s. *)
Definition run_session (file : list Z) (s : session) : result IoError (list Z) :=
  '(_, file) ← read_records file;
  let file := foldl (λ file r, (append_value file (payload_of r) None).1) file (sn_appended s) in
  Ok (match sn_torn s with
      | Some (r, n) => (append_value file (payload_of r) (Some n)).1
      | None => file
      end).

(** The records of a session that survive it: an append cut short survives
    exactly when its newline was written. *)
Definition survivors (s : session) : list LogRecord :=
  sn_appended s ++
  match sn_torn s with
  | Some (r, n) => if (length (payload_of r) <? n)%nat then [r] else []
  | None => []
  end.

Definition session_records (s : session) : list LogRecord :=
  sn_appended s ++ match sn_torn s with Some (r, _) => [r] | None => [] end.

(** What serde_json's compact output promises for a record: it decodes to the
    value (a command not being read as a record), and is one non-blank line. *)
Definition codec_ok (r : LogRecord) : Prop :=
  match r with
  | Controller record => record_from_slice (record_to_vec record) = Some record
  | Legacy command =>
      record_from_slice (command_to_vec command) = None
      ∧ command_from_slice (command_to_vec command) = Some command
  end
  ∧ (newline_byte ∉ payload_of r)
  ∧ forallb is_ascii_whitespace (payload_of r) = false.

Lemma parse_payload line_no r : codec_ok r → parse_line line_no (payload_of r) = Ok r.
Proof.
  unfold parse_line. intros [Hc _]. destruct r; simpl in *.
  - by rewrite Hc.
  - destruct Hc as [-> ->]. done.
Qed.

Lemma position_none bytes : newline_byte ∉ bytes → position bytes = None.
Proof.
  induction bytes as [|b bytes IH]; [done|]. rewrite not_elem_of_cons. intros [Hb Hn]. simpl.
  destruct (Z.eqb_spec b newline_byte); [congruence|]. by rewrite IH.
Qed.

Lemma position_line payload rest :
  newline_byte ∉ payload → position (line_of payload ++ rest) = Some (length payload).
Proof.
  induction payload as [|b payload IH]; [done|].
  rewrite not_elem_of_cons. intros [Hb Hn]. simpl.
  destruct (Z.eqb_spec b newline_byte); [congruence|]. unfold line_of in IH. by rewrite IH.
Qed.

(** One turn of the loop over a good record. *)
Lemma read_loop_step fuel done r records rest line_no commands :
  codec_ok r →
  read_loop (S fuel) (done ++ bytes_of (r :: records) ++ rest) (length done) line_no commands
  = read_loop fuel (done ++ line_of (payload_of r) ++ bytes_of records ++ rest)
      (length (done ++ line_of (payload_of r))) (S line_no) (commands ++ [r]).
Proof.
  intros Hcodec. pose proof Hcodec as (_ & Hline & Hblank).
  change (bytes_of (r :: records)) with (line_of (payload_of r) ++ bytes_of records).
  cbn [read_loop]. rewrite drop_app_length, <-!app_assoc, position_line by done.
  assert (take (length (payload_of r)) (line_of (payload_of r) ++ bytes_of records ++ rest)
          = payload_of r) as -> by (unfold line_of; by rewrite <-app_assoc, take_app_length).
  cbv zeta. rewrite Hblank, parse_payload by done. cbn [mbind result_bind].
  f_equal. unfold line_of. rewrite !length_app. simpl. lia.
Qed.

(** Reading from a record boundary. *)
Lemma read_loop_records records done tail fuel line_no commands :
  Forall codec_ok records → newline_byte ∉ tail → (length records < fuel)%nat →
  read_loop fuel (done ++ bytes_of records ++ tail) (length done) line_no commands
  = Ok (commands ++ records, length (done ++ bytes_of records)).
Proof.
  intros Hok Htail. revert done fuel line_no commands.
  induction Hok as [|r records Hcodec Hok IH]; intros done fuel line_no commands Hfuel;
    (destruct fuel as [|fuel]; [simpl in Hfuel; lia|]).
  - cbn [read_loop]. rewrite drop_app_length. cbn [bytes_of mbind list_bind app]. rewrite position_none by done.
    rewrite !app_nil_r. destruct (Nat.ltb_spec (length done) (length (done ++ tail))) as [|Hle]; [done|].
    rewrite length_app in *. assert (length tail = O) by lia. by rewrite Nat.add_comm, H.
  - rewrite read_loop_step by done.
    specialize (IH (done ++ line_of (payload_of r)) fuel (S line_no) (commands ++ [r])).
    rewrite <-!app_assoc in IH. cbn [app] in IH. rewrite IH by (cbn [length] in Hfuel; lia). done.
Qed.

(** A complete line that is neither a record nor a command stops the read. *)
Lemma read_loop_corrupt records done bad rest fuel line_no commands :
  Forall codec_ok records → newline_byte ∉ bad →
  forallb is_ascii_whitespace bad = false →
  record_from_slice bad = None → command_from_slice bad = None →
  (length records < fuel)%nat →
  read_loop fuel (done ++ bytes_of records ++ line_of bad ++ rest) (length done) line_no commands
  = Err (IoOther ("corrupt log entry " +:+ pretty (N.of_nat (line_no + length records)))).
Proof.
  intros Hok Hline Hblank Hr Hc. revert done fuel line_no commands.
  induction Hok as [|r records Hcodec Hok IH]; intros done fuel line_no commands Hfuel;
    (destruct fuel as [|fuel]; [simpl in Hfuel; lia|]).
  - cbn [read_loop]. rewrite drop_app_length. cbn [bytes_of mbind list_bind app].
    rewrite position_line by done.
    assert (take (length bad) (line_of bad ++ rest) = bad) as ->
      by (unfold line_of; by rewrite <-app_assoc, take_app_length).
    cbv zeta. rewrite Hblank. unfold parse_line. rewrite Hr, Hc. cbn [length].
    by rewrite Nat.add_0_r.
  - rewrite read_loop_step by done.
    specialize (IH (done ++ line_of (payload_of r)) fuel (S line_no) (commands ++ [r])).
    rewrite <-!app_assoc in IH. rewrite IH by (cbn [length] in Hfuel; lia).
    cbn [length]. by rewrite Nat.add_succ_comm.
Qed.

Lemma bytes_of_length records : (length records ≤ length (bytes_of records))%nat.
Proof.
  induction records as [|r records IH]; [done|].
  change (bytes_of (r :: records)) with (line_of (payload_of r) ++ bytes_of records).
  unfold line_of. rewrite !length_app. simpl. lia.
Qed.

(** Reading complete records followed by an unfinished line. *)
Lemma read_records_torn records tail :
  Forall codec_ok records → newline_byte ∉ tail →
  read_records (bytes_of records ++ tail) = Ok (records, bytes_of records).
Proof.
  intros Hok Htail. unfold read_records.
  pose proof (read_loop_records records [] tail (S (length (bytes_of records ++ tail))) 1 [] Hok Htail) as H.
  cbn [app] in H. change (length []) with O in H. rewrite H.
  - cbn [mbind result_bind]. by rewrite take_app_length.
  - rewrite length_app. pose proof (bytes_of_length records). lia.
Qed.

Lemma append_all file records :
  foldl (λ file r, (append_value file (payload_of r) None).1) file records = file ++ bytes_of records.
Proof.
  revert file. induction records as [|r records IH]; intros file; simpl; [by rewrite app_nil_r|].
  rewrite IH. unfold bytes_of. cbn [mbind list_bind]. by rewrite <-app_assoc.
Qed.

(** A torn append is a record or an unfinished line. *)
Lemma torn_split r n :
  newline_byte ∉ payload_of r →
  (length (payload_of r) < n)%nat ∧ take n (line_of (payload_of r)) = line_of (payload_of r)
  ∨ (n ≤ length (payload_of r))%nat ∧ newline_byte ∉ take n (line_of (payload_of r)).
Proof.
  intros Hline. destruct (decide (length (payload_of r) < n)%nat) as [Hlt|Hle].
  - left. split; [done|]. apply take_ge. unfold line_of. rewrite length_app. simpl. lia.
  - right. split; [lia|]. unfold line_of. rewrite take_app_le by lia.
    intros Hin. apply Hline. by eapply elem_of_take in Hin as (? & ?%list_elem_of_lookup_2 & _).
Qed.

(** One session on top of any history. *)
Lemma run_session_spec records tail s :
  Forall codec_ok records → Forall codec_ok (session_records s) → newline_byte ∉ tail →
  ∃ tail', (newline_byte ∉ tail')
    ∧ run_session (bytes_of records ++ tail) s = Ok (bytes_of (records ++ survivors s) ++ tail').
Proof.
  intros Hok [_ Htorn]%Forall_app Htail. unfold run_session. rewrite read_records_torn by done. cbn [mbind result_bind].
  rewrite append_all. unfold survivors, bytes_of. rewrite !bind_app. fold (bytes_of records).
  fold (bytes_of (sn_appended s)). destruct (sn_torn s) as [[r n]|].
  - cbn [append_value fst]. apply Forall_singleton in Htorn as (_ & Hline & _).
    destruct (torn_split r n Hline) as [[Hlt ->]|[Hle Hn]].
    + exists []. split; [by apply not_elem_of_nil|].
      destruct (Nat.ltb_spec (length (payload_of r)) n); [|lia].
      cbn [mbind list_bind]. by rewrite !app_nil_r, <-!app_assoc.
    + exists (take n (line_of (payload_of r))). split; [done|].
      destruct (Nat.ltb_spec (length (payload_of r)) n); [lia|].
      cbn [mbind list_bind]. by rewrite !app_nil_r, <-!app_assoc.
  - exists []. split; [by apply not_elem_of_nil|]. cbn [mbind list_bind]. by rewrite !app_nil_r.
Qed.

Lemma survivors_ok s : Forall codec_ok (session_records s) → Forall codec_ok (survivors s).
Proof.
  unfold session_records, survivors. intros [Happ Htorn]%Forall_app.
  apply Forall_app. split; [done|]. destruct (sn_torn s) as [[r n]|]; [|done].
  by destruct (_ <? _)%nat.
Qed.

(** C27. The journal survives crashes: over any number of controller lives, each
    reading the journal, appending records and possibly dying inside an
    append at any byte, every read succeeds and returns, in order, exactly
    the records whose appends completed, plus a torn one if and only if its
    newline reached the disk; and the file is left at a record boundary. *)
Theorem journal_crash_consistent sessions :
  Forall codec_ok (sessions ≫= session_records) →
  ∃ file, try_fold run_session [] sessions = Ok file
    ∧ read_records file = Ok (sessions ≫= survivors, bytes_of (sessions ≫= survivors)).
Proof.
  cut (∀ records tail, Forall codec_ok records → newline_byte ∉ tail →
    Forall codec_ok (sessions ≫= session_records) →
    ∃ file, try_fold run_session (bytes_of records ++ tail) sessions = Ok file
      ∧ read_records file = Ok (records ++ (sessions ≫= survivors),
                                bytes_of (records ++ (sessions ≫= survivors)))).
  { intros H. apply (H [] []); [constructor|by apply not_elem_of_nil]. }
  induction sessions as [|s sessions IH]; intros records tail Hok Htail Hall; cbn [try_fold].
  - eexists. split; [done|]. cbn [mbind list_bind]. rewrite app_nil_r. by apply read_records_torn.
  - cbn [mbind list_bind] in Hall. apply Forall_app in Hall as [Hs Hall].
    destruct (run_session_spec records tail s Hok Hs Htail) as (tail' & Htail' & ->).
    cbn [mbind result_bind].
    destruct (IH (records ++ survivors s) tail') as (file & Hf & Hr); [|done|done|].
    { apply Forall_app. split; [done|]. by apply survivors_ok. }
    exists file. split; [done|]. cbn [mbind list_bind]. by rewrite Hr, <-app_assoc.
Qed.
End journal.

Local Close Scope Z_scope.

(** * Ownership of the journal file: src/crates/control/src/log.rs.

    A [CommandLog] is a handle on an open file description; duplicates share
    the description, and the system keeps the advisory lock with the
    description until its last handle closes, also when a process dies.
    Reading and appending on the file's bytes is in Journal. *)

(** What the system keeps: files by path, open descriptions with their path,
    locks by path with the description that holds them, and live handles with
    their process and description. *)
Record FileTable := mkFileTable {
  fl_bytes : gmap string (list Z);
  fl_descriptions : gmap N string;
  fl_locks : gmap string N;
  fl_handles : gmap N (N * N);
}.

Definition files_new : FileTable := mkFileTable ∅ ∅ ∅ ∅.

(** [path.parent().filter(non-empty).unwrap_or(".")] *)
Definition parent_of (parent : string → option string) (path : string) : string :=
  match parent path with
  | Some p => if bool_decide (p = "") then "." else p
  | None => "."
  end.

Section log.
(** Whether the directory and the file could be synced, by path. *)
Context (parent : string → option string) (sync_all : string → result IoError unit).

Definition sync_parent (path : string) : result IoError unit := sync_all (parent_of parent path).

(** [OpenOptions::new().create(true).read(true).append(true).open] *)
Definition open_create (path : string) (f : FileTable) : FileTable :=
  mkFileTable (match fl_bytes f !! path with Some _ => fl_bytes f | None => <[path := []]> (fl_bytes f) end)
    (fl_descriptions f) (fl_locks f) (fl_handles f).

(** [CommandLog::open]: a description that is not locked, or whose file cannot
    be synced, is dropped at once, and its lock with it. *)
Definition log_open (process : N) (path : string) (f : FileTable) : FileTable * result IoError N :=
  let f := open_create path f in
  match fl_locks f !! path with
  | Some _ => (f, Err (IoOther ("cannot lock journal " +:+ path)))
  | None =>
      match (_ ← sync_all path; sync_parent path) with
      | Err e => (f, Err e)
      | Ok _ =>
          let d := fresh (dom (fl_descriptions f)) in
          let h := fresh (dom (fl_handles f)) in
          (mkFileTable (fl_bytes f) (<[d := path]> (fl_descriptions f)) (<[path := d]> (fl_locks f))
             (<[h := (process, d)]> (fl_handles f)), Ok h)
      end
  end.

(** [CommandLog::try_clone]: the duplicate shares the description. *)
Definition log_try_clone (h : N) (f : FileTable) : FileTable * result IoError N :=
  match fl_handles f !! h with
  | None => (f, Err (IoOther "bad handle"))
  | Some owner =>
      let h' := fresh (dom (fl_handles f)) in
      (mkFileTable (fl_bytes f) (fl_descriptions f) (fl_locks f) (<[h' := owner]> (fl_handles f)), Ok h')
  end.

(** The system on the last close of a description: its lock goes with it. *)
Definition sweep (f : FileTable) : FileTable :=
  let live (d : N) : bool := bool_decide (map_Exists (λ _ owner, owner.2 = d) (fl_handles f)) in
  mkFileTable (fl_bytes f) (filter (λ '(d, _), live d) (fl_descriptions f))
    (filter (λ '(_, d), live d) (fl_locks f)) (fl_handles f).

Definition log_drop (h : N) (f : FileTable) : FileTable :=
  sweep (mkFileTable (fl_bytes f) (fl_descriptions f) (fl_locks f) (delete h (fl_handles f))).

(** A process ends, by itself or not. *)
Definition process_exit (process : N) (f : FileTable) : FileTable :=
  sweep (mkFileTable (fl_bytes f) (fl_descriptions f) (fl_locks f)
           (filter (λ '(_, owner), owner.1 ≠ process) (fl_handles f))).

Definition log_path (h : N) (f : FileTable) : option string :=
  '(_, d) ← fl_handles f !! h; fl_descriptions f !! d.

(** Changing the file's bytes through a handle: appends land at the end of
    the file, whatever another handle did; [truncate] empties it. *)
Definition over_file (h : N) (g : list Z → list Z) (f : FileTable) : FileTable :=
  match log_path h f with
  | None => f
  | Some path =>
      mkFileTable (alter g path (fl_bytes f)) (fl_descriptions f) (fl_locks f) (fl_handles f)
  end.
Definition log_append (h : N) (payload : list Z) (written : option nat) : FileTable → FileTable :=
  over_file h (λ file, (append_value file payload written).1).
Definition log_truncate (h : N) : FileTable → FileTable := over_file h truncate.

(** ** One owner *)

Inductive LogOp :=
| LogOpen (process : N) (path : string)
| LogClone (h : N)
| LogDrop (h : N)
| LogExit (process : N)
| LogAppend (h : N) (payload : list Z) (written : option nat)
| LogTruncate (h : N).

Definition log_step (f : FileTable) (op : LogOp) : FileTable :=
  match op with
  | LogOpen process path => (log_open process path f).1
  | LogClone h => (log_try_clone h f).1
  | LogDrop h => log_drop h f
  | LogExit process => process_exit process f
  | LogAppend h payload written => log_append h payload written f
  | LogTruncate h => log_truncate h f
  end.

(** Every handle is on a description that holds its file's lock, and the
    handles of one description are of one process. *)
Record files_inv (f : FileTable) : Prop := {
  fi_open h p d : fl_handles f !! h = Some (p, d) → is_Some (fl_descriptions f !! d);
  fi_locked d path : fl_descriptions f !! d = Some path → fl_locks f !! path = Some d;
  fi_process h h' p p' d : fl_handles f !! h = Some (p, d) → fl_handles f !! h' = Some (p', d) → p = p';
  fi_lock path d : fl_locks f !! path = Some d → fl_descriptions f !! d = Some path;
  fi_live d path : fl_descriptions f !! d = Some path → ∃ h p, fl_handles f !! h = Some (p, d);
}.

Lemma open_create_inv path f : files_inv f → files_inv (open_create path f).
Proof. intros []. by constructor. Qed.

Lemma log_open_inv process path f : files_inv f → files_inv (log_open process path f).1.
Proof.
  intros Hf%(open_create_inv path). unfold log_open. set (f1 := open_create path f) in *.
  destruct (fl_locks f1 !! path) as [|] eqn:Hl; [done|]. destruct (mbind _ _); [|done]. cbn [fst].
  set (d := fresh (dom (fl_descriptions f1))). set (h := fresh (dom (fl_handles f1))).
  assert (fl_descriptions f1 !! d = None) as Hd by (apply not_elem_of_dom, is_fresh).
  destruct Hf as [Ho Hk Hp Hb Hv].
  assert (∀ h0 p0, fl_handles f1 !! h0 ≠ Some (p0, d)) as Hno.
  { intros h0 p0 H0. destruct (Ho _ _ _ H0) as [? ?]. congruence. }
  constructor; cbn.
  - intros h0 p0 d0 [[_ [= <- <-]]|[_ H0]]%lookup_insert_Some; [rewrite lookup_insert, decide_True by done; by eexists|].
    rewrite lookup_insert_ne by (intros <-; by eapply Hno). by eapply Ho.
  - intros d0 path0 [[<- <-]|[Hne H0]]%lookup_insert_Some; [by rewrite lookup_insert, decide_True by done|].
    pose proof (Hk _ _ H0) as Hk0. rewrite lookup_insert_ne; [done|]. intros <-. congruence.
  - intros h0 h1 p0 p1 d0 [[_ [= <- <-]]|[_ H0]]%lookup_insert_Some [[_ E1]|[_ H1]]%lookup_insert_Some.
    + by injection E1.
    + by destruct (Hno h1 p1).
    + injection E1 as <- <-. by destruct (Hno h0 p0).
    + by eapply Hp.
  - intros path0 d0 [[<- <-]|[Hne H0]]%lookup_insert_Some; [by rewrite lookup_insert, decide_True by done|].
    pose proof (Hb _ _ H0) as Hb0. rewrite lookup_insert_ne; [done|]. intros <-. congruence.
  - intros d0 path0 [[<- <-]|[Hne H0]]%lookup_insert_Some.
    + exists h, process. by rewrite lookup_insert, decide_True by done.
    + destruct (Hv _ _ H0) as (h0 & p0 & Hh0). exists h0, p0. rewrite lookup_insert_ne; [done|].
      intros <-. apply elem_of_dom_2 in Hh0. exact (is_fresh (dom (fl_handles f1)) Hh0).
Qed.

Lemma log_clone_inv h f : files_inv f → files_inv (log_try_clone h f).1.
Proof.
  intros Hf. unfold log_try_clone. destruct (fl_handles f !! h) as [[p d]|] eqn:Hh; [|done]. destruct Hf as [Ho Hk Hp Hb Hv].
  constructor; cbn; [|done| |done|].
  - intros h0 p0 d0 [[_ [= <- <-]]|[_ H0]]%lookup_insert_Some; by eapply Ho.
  - intros h0 h1 p0 p1 d0 [[_ [= <- <-]]|[_ H0]]%lookup_insert_Some [[_ E1]|[_ H1]]%lookup_insert_Some.
    + by injection E1.
    + by eapply Hp.
    + injection E1 as <- <-. by eapply Hp.
    + by eapply Hp.
  - intros d0 path0 H0. destruct (Hv _ _ H0) as (h0 & p0 & Hh0). exists h0, p0. rewrite lookup_insert_ne; [done|].
    intros <-. apply elem_of_dom_2 in Hh0. exact (is_fresh (dom (fl_handles f)) Hh0).
Qed.

(** Closing handles. *)
Lemma sweep_inv f handles :
  files_inv f → handles ⊆ fl_handles f →
  files_inv (sweep (mkFileTable (fl_bytes f) (fl_descriptions f) (fl_locks f) handles)).
Proof.
  intros [Ho Hk Hp Hb Hv] Hsub.
  assert (∀ h x, handles !! h = Some x → fl_handles f !! h = Some x) as Hin by (intros h x Hx; by eapply lookup_weaken).
  constructor; cbn.
  - intros h p d Hh. destruct (Ho _ _ _ (Hin _ _ Hh)) as [path Hd]. exists path. apply map_lookup_filter_Some.
    split; [done|]. apply bool_decide_spec. by exists h, (p, d).
  - intros d path [Hd Hlive]%map_lookup_filter_Some. apply map_lookup_filter_Some. split; [by apply Hk|done].
  - intros h h' p p' d Hh Hh'. eapply Hp; by apply Hin.
  - intros path d [Hd Hlive]%map_lookup_filter_Some. apply map_lookup_filter_Some. split; [by apply Hb|done].
  - intros d path [_ (h & [p d'] & Hh & [= ->])%bool_decide_spec]%map_lookup_filter_Some. by exists h, p.
Qed.

Lemma log_step_inv f op : files_inv f → files_inv (log_step f op).
Proof.
  intros Hf. destruct op; cbn [log_step].
  - by apply log_open_inv.
  - by apply log_clone_inv.
  - apply sweep_inv; [done|apply delete_subseteq].
  - apply sweep_inv; [done|apply map_filter_subseteq].
  - unfold log_append, over_file. destruct (log_path h f); [|done]. by destruct Hf.
  - unfold log_truncate, over_file. destruct (log_path h f); [|done]. by destruct Hf.
Qed.

(** One process owns a journal: after any opens, duplications, closes, crashes
    and writes of any processes, two live logs on the same path belong to the
    same process and share its lock; and a file that no live log holds can be
    opened by anyone whose syncs succeed. *)
Theorem journal_exclusive ops :
  let f := foldl log_step files_new ops in
  (∀ h h' p p' d d' path, fl_handles f !! h = Some (p, d) → fl_handles f !! h' = Some (p', d') →
     log_path h f = Some path → log_path h' f = Some path → p = p' ∧ d = d')
  ∧ ∀ process path, (∀ h, log_path h f ≠ Some path) →
      sync_all path = Ok () → sync_parent path = Ok () →
      ∃ h, (log_open process path f).2 = Ok h.
Proof.
  intros f. assert (files_inv f) as [Ho Hk Hp Hb Hv].
  { unfold f. assert (files_inv files_new) as H0 by (constructor; cbn; intros *; by rewrite lookup_empty).
    revert H0. generalize files_new. induction ops as [|op ops IH]; intros f0 Hf0; [done|]. cbn.
    by apply IH, log_step_inv. }
  split.
  - intros h h' p p' d d' path Hh Hh' Hpath Hpath'. unfold log_path in *. rewrite Hh in Hpath. rewrite Hh' in Hpath'.
    cbn in Hpath, Hpath'. apply Hk in Hpath. apply Hk in Hpath'. assert (d = d') as <- by congruence.
    split; [by eapply Hp|done].
  - intros process path Hfree Hs Hsp. unfold log_open. cbn [open_create fl_locks].
    destruct (fl_locks f !! path) as [d|] eqn:Hl.
    + apply Hb in Hl. destruct (Hv _ _ Hl) as (h & p & Hh). destruct (Hfree h). unfold log_path. by rewrite Hh.
    + rewrite Hs. cbn [mbind result_bind]. rewrite Hsp. cbn. by eexists.
Qed.
End log.
