(* ===== verification/Cluster.v ===== *)
(** * The cluster transition function (crates/kernel/src/cluster.rs): definitions

    [Cluster] is the authoritative state; [dispatch] is the transition
    function on commands.  A handler runs in a state-and-error monad whose
    error case carries the state reached so far, so that partial mutation
    before an error is representable (and can be proved absent). *)

From S2P Require Import Prelude.
From S2P Require Import Identifier.
From S2P Require Import Types.
From S2P Require Import Graph.
From S2P Require Import Occupancy.
From S2P Require Import Command.

Record Cluster := mkCluster {
  c_epoch : u64;
  c_now : u64;
  c_agreed : bool;
  c_replaying : bool;
  c_graph : Graph;
  c_log : list Command;
  c_leases : gmap N Lease;
  c_bindings : gmap N Binding;
  c_sessions : gmap N N;
  c_last_fence : gmap (N * N) N;
  c_node_states : gmap N NodeState;
}.

(** [Cluster::default] / [Cluster::new] *)
Definition cluster_new : Cluster :=
  mkCluster 1 0 true false graph_new [] ∅ ∅ ∅ ∅ ∅.

(** ** Field assignments *)

Definition set_epoch (v : u64) (c : Cluster) : Cluster :=
  mkCluster v (c_now c) (c_agreed c) (c_replaying c) (c_graph c) (c_log c) (c_leases c)
    (c_bindings c) (c_sessions c) (c_last_fence c) (c_node_states c).
Definition set_now (v : u64) (c : Cluster) : Cluster :=
  mkCluster (c_epoch c) v (c_agreed c) (c_replaying c) (c_graph c) (c_log c) (c_leases c)
    (c_bindings c) (c_sessions c) (c_last_fence c) (c_node_states c).
Definition set_agreement (v : bool) (c : Cluster) : Cluster :=
  mkCluster (c_epoch c) (c_now c) v (c_replaying c) (c_graph c) (c_log c) (c_leases c)
    (c_bindings c) (c_sessions c) (c_last_fence c) (c_node_states c).
Definition set_replaying (v : bool) (c : Cluster) : Cluster :=
  mkCluster (c_epoch c) (c_now c) (c_agreed c) v (c_graph c) (c_log c) (c_leases c)
    (c_bindings c) (c_sessions c) (c_last_fence c) (c_node_states c).
Definition set_graph (v : Graph) (c : Cluster) : Cluster :=
  mkCluster (c_epoch c) (c_now c) (c_agreed c) (c_replaying c) v (c_log c) (c_leases c)
    (c_bindings c) (c_sessions c) (c_last_fence c) (c_node_states c).
Definition set_log (v : list Command) (c : Cluster) : Cluster :=
  mkCluster (c_epoch c) (c_now c) (c_agreed c) (c_replaying c) (c_graph c) v (c_leases c)
    (c_bindings c) (c_sessions c) (c_last_fence c) (c_node_states c).
Definition set_leases (v : gmap N Lease) (c : Cluster) : Cluster :=
  mkCluster (c_epoch c) (c_now c) (c_agreed c) (c_replaying c) (c_graph c) (c_log c) v
    (c_bindings c) (c_sessions c) (c_last_fence c) (c_node_states c).
Definition set_bindings (v : gmap N Binding) (c : Cluster) : Cluster :=
  mkCluster (c_epoch c) (c_now c) (c_agreed c) (c_replaying c) (c_graph c) (c_log c) (c_leases c)
    v (c_sessions c) (c_last_fence c) (c_node_states c).
Definition set_sessions (v : gmap N N) (c : Cluster) : Cluster :=
  mkCluster (c_epoch c) (c_now c) (c_agreed c) (c_replaying c) (c_graph c) (c_log c) (c_leases c)
    (c_bindings c) v (c_last_fence c) (c_node_states c).
Definition set_last_fence (v : gmap (N * N) N) (c : Cluster) : Cluster :=
  mkCluster (c_epoch c) (c_now c) (c_agreed c) (c_replaying c) (c_graph c) (c_log c) (c_leases c)
    (c_bindings c) (c_sessions c) v (c_node_states c).
Definition set_node_states (v : gmap N NodeState) (c : Cluster) : Cluster :=
  mkCluster (c_epoch c) (c_now c) (c_agreed c) (c_replaying c) (c_graph c) (c_log c) (c_leases c)
    (c_bindings c) (c_sessions c) (c_last_fence c) v.

(** [lease.state = ..] and the other assignments through [get_mut]. *)
Definition lease_with_state (s : LeaseState) (l : Lease) : Lease :=
  mkLease (lease_id l) (lease_owner l) (lease_allocation l) (lease_parent l)
    (lease_expires_at l) (lease_prepare_deadline l) (lease_priority l) s (lease_exit_code l).
Definition lease_with_exit (code : Z) (l : Lease) : Lease :=
  mkLease (lease_id l) (lease_owner l) (lease_allocation l) (lease_parent l)
    (lease_expires_at l) (lease_prepare_deadline l) (lease_priority l) (lease_state l) (Some code).
Definition lease_with_expiry (e : u64) (l : Lease) : Lease :=
  mkLease (lease_id l) (lease_owner l) (lease_allocation l) (lease_parent l)
    e (lease_prepare_deadline l) (lease_priority l) (lease_state l) (lease_exit_code l).
Definition lease_with_promotion (claims : list Claim) (revision deadline : u64) (l : Lease) : Lease :=
  mkLease (lease_id l) (lease_owner l)
    (mkAllocation claims revision (alloc_explanation (lease_allocation l))) (lease_parent l)
    (lease_expires_at l) deadline (lease_priority l) LPreparing (lease_exit_code l).

Definition binding_with_state (s : BindingState) (b : Binding) : Binding :=
  mkBinding (binding_id b) (binding_lease b) (binding_node b) (binding_provider b)
    (binding_scope b) (binding_fence b) (binding_session b) s (binding_handle b).
Definition binding_with_session (s : u64) (b : Binding) : Binding :=
  mkBinding (binding_id b) (binding_lease b) (binding_node b) (binding_provider b)
    (binding_scope b) (binding_fence b) s (binding_state b) (binding_handle b).
Definition binding_with_handle (h : u64) (b : Binding) : Binding :=
  mkBinding (binding_id b) (binding_lease b) (binding_node b) (binding_provider b)
    (binding_scope b) (binding_fence b) (binding_session b) (binding_state b) (Some h).

(** ** Queries *)

Definition node_state (c : Cluster) (node : NodeId) : option NodeState :=
  match graph_node (c_graph c) node with
  | Some _ => Some (default NSchedulable (c_node_states c !! node))
  | None => None
  end.

Definition state_schedulable (o : option NodeState) : bool :=
  match o with Some s => is_schedulable s | None => false end.

Definition placement_blocked (c : Cluster) : gset N :=
  list_to_set (node_id <$>
    List.filter (λ node, negb (state_schedulable (node_state c (node_id node))))
      (graph_nodes (c_graph c))).

Definition advance_epoch (c : Cluster) : Cluster := set_epoch (sat_add (c_epoch c) 1) c.

Definition open_bindings (c : Cluster) (lease : LeaseId) : bool :=
  existsb (λ b, (binding_lease b =? lease) && negb (is_closed (binding_state b)))
    (bt_values (c_bindings c)).

Definition open_binding_leases (c : Cluster) : gset N :=
  list_to_set (binding_lease <$>
    List.filter (λ b, negb (is_closed (binding_state b))) (bt_values (c_bindings c))).

Definition occupancy_except (c : Cluster) (except : gset N) : Occupancy :=
  occupancy_from_leases (bt_values (c_leases c)) (open_binding_leases c) except.

(** [Cluster::occupancy] (lib.rs) *)
Definition occupancy (c : Cluster) : Occupancy := occupancy_except c ∅.

Definition occupies (c : Cluster) (lease : LeaseId) : bool :=
  match c_leases c !! lease with
  | Some l => lease_occupies l (open_bindings c (lease_id l))
  | None => false
  end.

Definition children_of (leases : gmap N Lease) (parent : LeaseId) : list LeaseId :=
  lease_id <$> List.filter (λ l, bool_decide (lease_parent l = Some parent)) (bt_values leases).

Definition children (c : Cluster) (parent : LeaseId) : list LeaseId :=
  children_of (c_leases c) parent.

(** The recursion of [walk_descendants]; its depth is bounded by the number of
    leases when the parent relation is acyclic. *)
Fixpoint walk_descendants (leases : gmap N Lease) (fuel : nat) (parent : LeaseId)
    : list LeaseId :=
  match fuel with
  | O => []
  | S fuel =>
      mjoin ((λ child, walk_descendants leases fuel child ++ [child])
               <$> sort_by N.leb (children_of leases parent))
  end.

Definition descendants_postorder (c : Cluster) (parent : LeaseId) : list LeaseId :=
  walk_descendants (c_leases c) (S (size (c_leases c))) parent.

Definition bindings_for (c : Cluster) (lease : LeaseId) : list BindingId :=
  binding_id <$> List.filter (λ b, binding_lease b =? lease) (bt_values (c_bindings c)).

Definition machine_bindings (c : Cluster) (machine : NodeId) : list BindingId :=
  binding_id <$> List.filter
    (λ b, bool_decide (machine_of (c_graph c) (binding_node b) = Some machine))
    (bt_values (c_bindings c)).

Definition live_machine_bindings (c : Cluster) (machine : NodeId) : list BindingId :=
  List.filter (λ id,
    match c_bindings c !! id with
    | Some b => match binding_state b with BPreparing | BActive => true | _ => false end
    | None => false
    end) (machine_bindings c machine).

Definition state_blocked (c : Cluster) (candidate : NodeId) : bool :=
  match c_node_states c !! candidate with
  | Some s => negb (is_schedulable s)
  | None => false
  end.

Definition node_quarantined (c : Cluster) (node : NodeId) : bool :=
  state_blocked c node || existsb (state_blocked c) (ancestors (c_graph c) node).

Definition require_session (c : Cluster) (node : NodeId) (session : u64)
    : result Error NodeId :=
  machine ← ok_or (machine_of (c_graph c) node) (UnknownNode node);
  expected ← ok_or (c_sessions c !! machine) (NoAgent machine);
  if negb (expected =? session) then Err (StaleSession expected session) else Ok machine.

Definition require_fence (binding : BindingId) (expected got : u64) : result Error unit :=
  if negb (expected =? got) then Err (FenceMismatch binding expected got) else Ok ().

Definition binding_effect (c : Cluster) (b : Binding)
    (kind : N → N → N → N → N → N → Effect) : Effect :=
  let session :=
    default (binding_session b)
      (machine ← machine_of (c_graph c) (binding_node b); c_sessions c !! machine) in
  kind (binding_id b) (binding_node b) (binding_provider b) (binding_fence b) session (c_epoch c).

Definition lease_open_bindings (c : Cluster) (lease : LeaseId) : list Binding :=
  List.filter (λ b, (binding_lease b =? lease) && negb (is_closed (binding_state b)))
    (bt_values (c_bindings c)).

Definition fence_effects (c : Cluster) (lease : LeaseId) : list Effect :=
  (λ b, binding_effect c b EffFence) <$> lease_open_bindings c lease.
Definition release_effects (c : Cluster) (lease : LeaseId) : list Effect :=
  (λ b, binding_effect c b EffRelease) <$> lease_open_bindings c lease.

Definition live_descendants (c : Cluster) (id : LeaseId) : list LeaseId :=
  List.filter (λ descendant,
    match c_leases c !! descendant with
    | Some l => occupies c (lease_id l)
    | None => false
    end) (descendants_postorder c id).

Definition in_scope (c : Cluster) (node candidate : NodeId) : bool :=
  (candidate =? node) || bool_decide (node ∈ ancestors (c_graph c) candidate).

Definition node_has_live_authority (c : Cluster) (node : NodeId) : bool :=
  existsb (λ l, occupies c (lease_id l)
                && existsb (λ claim, in_scope c node (claim_node claim)) (lease_claims l))
    (bt_values (c_leases c))
  || existsb (λ b, negb (is_closed (binding_state b)) && in_scope c node (binding_node b))
       (bt_values (c_bindings c)).

(** ** The handler monad *)

Definition M (A : Type) : Type := Cluster → Cluster * result Error A.

#[export] Instance M_ret : MRet M := λ A a c, (c, Ok a).
#[export] Instance M_bind : MBind M := λ A B f m c,
  match m c with
  | (c', Ok a) => f a c'
  | (c', Err e) => (c', Err e)
  end.

Definition get : M Cluster := λ c, (c, Ok c).
Definition put (c' : Cluster) : M unit := λ _, (c', Ok ()).
Definition lift {A} (r : result Error A) : M A := λ c, (c, r).
Definition fail {A} (e : Error) : M A := lift (Err e).
Definition guard (b : bool) (e : Error) : M unit := lift (guard_err b e).

(** [if let Some(x) = self.leases.get_mut(&id) { .. }] *)
Definition update_lease (id : LeaseId) (f : Lease → Lease) : M unit :=
  λ c, (set_leases (alter f id (c_leases c)) c, Ok ()).
Definition update_binding (id : BindingId) (f : Binding → Binding) : M unit :=
  λ c, (set_bindings (alter f id (c_bindings c)) c, Ok ()).

(** A loop that extends an effect list. *)
Fixpoint for_effects {A} (f : A → M (list Effect)) (l : list A) : M (list Effect) :=
  match l with
  | [] => mret []
  | x :: l => es ← f x; es' ← for_effects f l; mret (es ++ es')
  end.

Definition require_agreed : M unit := c ← get; guard (c_agreed c) NotAgreed.
Definition get_lease (id : LeaseId) : M Lease :=
  c ← get; lift (ok_or (c_leases c !! id) (UnknownLease id)).
Definition get_binding (id : BindingId) : M Binding :=
  c ← get; lift (ok_or (c_bindings c !! id) (UnknownBinding id)).

(** ** Graph commands *)

(** The claims whose machine ancestor would change. *)
Definition machine_moved (g staged : Graph) (lease : Lease) : option NodeId :=
  claim_node <$> List.find (λ claim,
    negb (bool_decide (machine_of g (claim_node claim) = machine_of staged (claim_node claim))))
    (lease_claims lease).

Definition install_resource_graph (staged : Graph) : M (list Effect) :=
  c ← get;
  let open_bindings := open_binding_leases c in
  let occ := occupancy_from_leases (bt_values (c_leases c)) open_bindings ∅ in
  exceeded ← lift (exceeds_capacity occ staged);
  match exceeded with
  | Some node => fail (CapacityBelowOccupancy node)
  | None =>
      _ ← lift (try_for (λ lease,
             match machine_moved (c_graph c) staged lease with
             | Some node => Err (ResourceBusy node)
             | None => Ok ()
             end)
           (List.filter (λ lease,
              lease_occupies lease (bool_decide (lease_id lease ∈ open_bindings)))
              (bt_values (c_leases c))));
      _ ← put (set_graph staged c);
      mret []
  end.

Definition apply_graph (nodes : list Node) (edges : list Edge) : M (list Effect) :=
  _ ← require_agreed;
  c ← get;
  staged ← lift (graph_apply (c_graph c) nodes edges);
  install_resource_graph staged.

Definition apply_resource_facts (nodes : list Node) (edges : list Edge)
    (claim_bindings : list ClaimBindingUpdate) : M (list Effect) :=
  _ ← require_agreed;
  c ← get;
  staged ← lift (graph_apply_resource_facts (c_graph c) nodes edges claim_bindings);
  install_resource_graph staged.

Definition apply_provider_facts (batches : list ProviderFactBatch)
    (claim_bindings : list ClaimBindingUpdate) : M (list Effect) :=
  _ ← require_agreed;
  c ← get;
  staged ← lift (graph_apply_provider_facts (c_graph c) batches claim_bindings);
  install_resource_graph staged.

Definition adopt_fact_writers (assignments : list FactWriterAssignment) : M (list Effect) :=
  _ ← require_agreed;
  c ← get;
  staged ← lift (graph_adopt_fact_writers (c_graph c) assignments);
  _ ← put (set_graph staged c);
  mret [].

(** ** Lease commands *)

(** Resolution of the claims of a new allocation, each node named once. *)
Definition resolve_new_claims (g : Graph) (claims : list Claim) : result Error (list Claim) :=
  '(resolved, _) ← try_fold (λ (acc : list Claim * gset N) claim,
      let '(resolved, seen) := acc in
      if decide (claim_node claim ∈ seen) then Err (DuplicateClaim (claim_node claim))
      else
        r ← resolve_claim g claim;
        Ok (resolved ++ [r], {[claim_node claim]} ∪ seen)) ([], ∅) claims;
  Ok resolved.

Definition check_not_quarantined (c : Cluster) (claims : list Claim) : result Error unit :=
  try_for (λ claim, if node_quarantined c (claim_node claim)
                    then Err (Quarantined (claim_node claim)) else Ok ()) claims.

Definition check_cover (c : Cluster) (id : LeaseId) (claims : list Claim) : result Error unit :=
  let occ := occupancy_from_leases (bt_values (c_leases c)) (open_binding_leases c) {[id]} in
  try_for (λ claim,
    ok ← can_cover occ (c_graph c) claim;
    if negb ok then Err (Overlap (claim_node claim)) else Ok ()) claims.

Definition reserve_lease (id : LeaseId) (owner : OwnerId) (allocation : Allocation)
    (expires_at : u64) (priority : N) : M (list Effect) :=
  _ ← require_agreed;
  c ← get;
  match c_leases c !! id with
  | Some existing =>
      if bool_decide (lease_state existing = LReserved)
         && (lease_owner existing =? owner)
         && bool_decide (lease_claims existing = alloc_claims allocation)
         && (lease_expires_at existing =? expires_at)
      then mret [] else fail (DuplicateLease id)
  | None =>
      _ ← guard (alloc_graph_revision allocation =? g_revision (c_graph c))
            (StaleGraphRevision (g_revision (c_graph c)) (alloc_graph_revision allocation));
      claims ← lift (resolve_new_claims (c_graph c) (alloc_claims allocation));
      _ ← lift (check_not_quarantined c claims);
      _ ← lift (check_cover c id claims);
      _ ← put (set_leases (<[id :=
            mkLease id owner
              (mkAllocation claims (alloc_graph_revision allocation) (alloc_explanation allocation))
              None expires_at 0 priority LReserved None]> (c_leases c)) c);
      mret []
  end.

Definition promote_lease (id : LeaseId) (prepare_deadline : u64) : M (list Effect) :=
  _ ← require_agreed;
  lease ← get_lease id;
  if bool_decide (lease_state lease = LPreparing) then mret []
  else if negb (bool_decide (lease_state lease = LReserved))
  then fail (LeaseStateError id (lease_state lease))
  else
    c ← get;
    claims ← lift (try_map (resolve_claim (c_graph c)) (lease_claims lease));
    _ ← lift (check_not_quarantined c claims);
    _ ← guard (negb (negb (c_replaying c) && (lease_expires_at lease <=? c_now c)))
          (LeaseExpired id);
    _ ← lift (check_cover c id claims);
    _ ← update_lease id
          (lease_with_promotion claims (g_revision (c_graph c)) prepare_deadline);
    mret [].

(** The checks of a child allocation against its parent. *)
Definition check_child (c : Cluster) (id parent_id : LeaseId) (claims : list Claim)
    : result Error unit :=
  parent_lease ← ok_or (c_leases c !! parent_id) (UnknownLease parent_id);
  _ ← guard_err (bool_decide (lease_state parent_lease = LActive)) (ParentNotActive parent_id);
  _ ← guard_err (covers (lease_claims parent_lease) claims) (ChildEscapesParent id parent_id);
  try_for (λ claim,
    parent_claim ← ok_or (List.find (λ pc, claim_node pc =? claim_node claim)
                            (lease_claims parent_lease)) (ChildEscapesParent id parent_id);
    let sibling_qty :=
      used_on (subtree_used (c_leases c) (open_binding_leases c) parent_id id)
        (claim_node claim) in
    if negb (claim_fits (claim_quantity parent_claim) sibling_qty (claim_quantity claim))
    then Err (Overlap (claim_node claim)) else Ok ()) claims.

Definition open_lease (id : LeaseId) (owner : OwnerId) (allocation : Allocation)
    (parent : option LeaseId) (expires_at prepare_deadline : u64) (priority : N)
    : M (list Effect) :=
  _ ← require_agreed;
  c ← get;
  match c_leases c !! id with
  | Some existing =>
      if (lease_owner existing =? owner)
         && bool_decide (lease_parent existing = parent)
         && bool_decide (lease_claims existing = alloc_claims allocation)
      then mret [] else fail (DuplicateLease id)
  | None =>
      _ ← guard (alloc_graph_revision allocation =? g_revision (c_graph c))
            (StaleGraphRevision (g_revision (c_graph c)) (alloc_graph_revision allocation));
      claims ← lift (resolve_new_claims (c_graph c) (alloc_claims allocation));
      _ ← lift (check_not_quarantined c claims);
      _ ← lift (match parent with
                | Some parent_id => check_child c id parent_id claims
                | None => check_cover c id claims
                end);
      _ ← put (set_leases (<[id :=
            mkLease id owner
              (mkAllocation claims (alloc_graph_revision allocation) (alloc_explanation allocation))
              parent expires_at prepare_deadline priority LPreparing None]> (c_leases c)) c);
      mret []
  end.

Definition binding_prepared (b : Binding) : bool :=
  bool_decide (binding_state b = BPreparing)
  && match binding_handle b with Some _ => true | None => false end.

Definition activate_lease (id : LeaseId) : M (list Effect) :=
  _ ← require_agreed;
  lease ← get_lease id;
  if bool_decide (lease_state lease = LActive) then mret []
  else if negb (bool_decide (lease_state lease = LPreparing))
  then fail (LeaseStateError id (lease_state lease))
  else
    c ← get;
    _ ← guard (alloc_graph_revision (lease_allocation lease) =? g_revision (c_graph c))
          (StaleGraphRevision (g_revision (c_graph c))
             (alloc_graph_revision (lease_allocation lease)));
    let claims := lease_claims lease in
    _ ← lift (check_not_quarantined c claims);
    _ ← guard (negb (negb (c_replaying c) && (lease_expires_at lease <=? c_now c)))
          (LeaseExpired id);
    _ ← guard (negb (negb (c_replaying c) && (lease_prepare_deadline lease <? c_now c)))
          (PrepareDeadlinePassed id);
    _ ← lift (match lease_parent lease with
              | Some parent_id =>
                  parent_lease ← ok_or (c_leases c !! parent_id) (UnknownLease parent_id);
                  guard_err (bool_decide (lease_state parent_lease = LActive))
                    (ParentNotActive parent_id)
              | None => check_cover c id claims
              end);
    _ ← guard (forallb (λ binding_id,
              match c_bindings c !! binding_id with
              | Some b => binding_prepared b
              | None => false
              end) (bindings_for c id)) (BindingsNotPrepared id);
    _ ← lift (match lease_parent lease with
              | Some _ => Ok ()
              | None =>
                  try_for (λ claim,
                    guard_err (existsb (λ b,
                      (binding_lease b =? id) && (binding_node b =? claim_node claim)
                      && binding_prepared b) (bt_values (c_bindings c)))
                      (BindingsNotPrepared id)) claims
              end);
    _ ← update_lease id (lease_with_state LActive);
    mret [].

(** The states [fail_lease], [revoke_lease], [expire_lease] and
    [record_failed] treat as already terminal. *)
Definition ended (s : LeaseState) : bool :=
  match s with LFailed | LReleased | LRevoked | LExpired => true | _ => false end.

Definition mark_unless (stop : LeaseState → bool) (s : LeaseState) (l : Lease) : Lease :=
  if stop (lease_state l) then l else lease_with_state s l.

(** The descendant loop shared by the terminating commands. *)
Definition end_descendants (stop : LeaseState → bool) (s : LeaseState) (ids : list LeaseId)
    : M (list Effect) :=
  for_effects (λ descendant,
    _ ← update_lease descendant (mark_unless stop s);
    c ← get;
    mret (fence_effects c descendant)) ids.

Definition fail_lease (id : LeaseId) (reason : string) : M (list Effect) :=
  c ← get;
  effects ← end_descendants ended LFailed (descendants_postorder c id);
  lease ← get_lease id;
  if ended (lease_state lease) then mret effects
  else
    _ ← update_lease id (lease_with_state LFailed);
    c ← get;
    mret (effects ++ fence_effects c id).

Definition release_lease (id : LeaseId) : M (list Effect) :=
  c ← get;
  if negb (bool_decide (live_descendants c id = [])) then fail (HasLiveDescendants id)
  else
    lease ← get_lease id;
    if bool_decide (lease_state lease = LReleased) then mret (release_effects c id)
    else if negb (bool_decide (lease_state lease ∈ [LActive; LReserved]))
    then fail (LeaseStateError id (lease_state lease))
    else
      _ ← update_lease id (lease_with_state LReleased);
      c ← get;
      mret (release_effects c id).

(** In [revoke_lease] the fence effects of a descendant are inside the
    [if let Some]. *)
Definition revoke_lease (id : LeaseId) : M (list Effect) :=
  c ← get;
  effects ← for_effects (λ child,
    c ← get;
    match c_leases c !! child with
    | Some _ =>
        _ ← update_lease child (mark_unless ended LRevoked);
        c ← get;
        mret (fence_effects c child)
    | None => mret []
    end) (descendants_postorder c id);
  _ ← get_lease id;
  _ ← update_lease id (mark_unless ended LRevoked);
  c ← get;
  mret (effects ++ fence_effects c id).

Definition expire_lease (id : LeaseId) : M (list Effect) :=
  c ← get;
  lease ← get_lease id;
  if bool_decide (lease_state lease = LExpired) then mret (fence_effects c id)
  else if negb (is_live_state (lease_state lease))
  then fail (LeaseStateError id (lease_state lease))
  else if negb (c_replaying c) && (c_now c <? lease_expires_at lease) then fail ExpireNotDue
  else
    effects ← end_descendants ended LExpired (descendants_postorder c id);
    _ ← get_lease id;
    _ ← update_lease id (lease_with_state LExpired);
    c ← get;
    mret (effects ++ fence_effects c id).

Definition ended_or_completed (s : LeaseState) : bool :=
  ended s || bool_decide (s = LCompleted).

Definition complete_lease (id : LeaseId) (exit_code : Z) : M (list Effect) :=
  let final_state := if (exit_code =? 0)%Z then LCompleted else LFailed in
  c ← get;
  lease ← get_lease id;
  if bool_decide (lease_state lease ∈ [LCompleted; LFailed]) then mret (fence_effects c id)
  else if negb (is_live_state (lease_state lease))
  then fail (LeaseStateError id (lease_state lease))
  else
    effects ← end_descendants ended_or_completed final_state (descendants_postorder c id);
    _ ← get_lease id;
    _ ← update_lease id (λ l, lease_with_exit exit_code (lease_with_state final_state l));
    c ← get;
    mret (effects ++ fence_effects c id).

Definition renew_lease (id : LeaseId) (new_expires_at : u64) : M (list Effect) :=
  _ ← require_agreed;
  c ← get;
  lease ← get_lease id;
  if negb (bool_decide (lease_state lease ∈ [LActive; LReserved]))
  then fail (LeaseStateError id (lease_state lease))
  else if new_expires_at =? lease_expires_at lease then mret []
  else if (new_expires_at <=? lease_expires_at lease)
          || (negb (c_replaying c) && (new_expires_at <=? c_now c))
  then fail RenewNotLater
  else
    _ ← update_lease id (lease_with_expiry new_expires_at);
    mret [].

(** ** Binding commands *)

Definition conflicting_endpoint (c : Cluster) (node : NodeId) (provider : ProviderId)
    (scope : BindingScope) : bool :=
  existsb (λ existing,
    (binding_provider existing =? provider) && (binding_node existing =? node)
    && negb (is_closed (binding_state existing))
    && (bool_decide (scope = Exclusive) || bool_decide (binding_scope existing = Exclusive)))
    (bt_values (c_bindings c)).

(** The fence of a new binding and the watermark map after taking it. *)
Definition next_fence (c : Cluster) (id : BindingId) (node : NodeId) (provider : ProviderId)
    (scope : BindingScope) : u64 * gmap (N * N) N :=
  match scope with
  | Exclusive =>
      let fence := wrap_add (default 0 (c_last_fence c !! (provider, node))) 1 in
      (fence, <[(provider, node) := fence]> (c_last_fence c))
  | IndependentShare => (N.max id 1, c_last_fence c)
  end.

Definition open_binding (id : BindingId) (lease_id : LeaseId) (node : NodeId)
    (provider : ProviderId) (scope : BindingScope) : M (list Effect) :=
  c ← get;
  match c_bindings c !! id with
  | Some existing =>
      if (binding_lease existing =? lease_id) && (binding_node existing =? node)
         && (binding_provider existing =? provider)
         && bool_decide (binding_scope existing = scope)
      then
        if bool_decide (binding_state existing = BPreparing)
        then mret [binding_effect c existing EffPrepare] else mret []
      else fail (DuplicateBinding id)
  | None =>
      lease ← get_lease lease_id;
      _ ← guard (bool_decide (lease_state lease = LPreparing))
            (LeaseStateError lease_id (lease_state lease));
      _ ← guard (bool_decide (lease_parent lease = None)) (ChildBindingRefused lease_id);
      claim ← lift (ok_or (List.find (λ claim, claim_node claim =? node) (lease_claims lease))
                      (Invalid "binding node is not in lease claims"));
      required ← lift (claim_binding_for_quantity (c_graph c) node (claim_quantity claim));
      _ ← guard ((cb_provider required =? provider) && bool_decide (cb_scope required = scope))
            (Refused ("binding for " +:+ show_node node +:+ " must use provider "
                      +:+ show_provider (cb_provider required) +:+ " with "
                      +:+ show_scope (cb_scope required) +:+ " scope"));
      _ ← guard (negb (node_quarantined c node)) (Quarantined node);
      machine ← lift (ok_or (machine_of (c_graph c) node) (UnknownNode node));
      session ← lift (ok_or (c_sessions c !! machine) (NoAgent machine));
      _ ← guard (negb (conflicting_endpoint c node provider scope)) (ResourceBusy node);
      let '(fence, watermarks) := next_fence c id node provider scope in
      let b := mkBinding id lease_id node provider scope fence session BPreparing None in
      let c' := set_last_fence watermarks c in
      let effect := binding_effect c' b EffPrepare in
      _ ← put (set_bindings (<[id := b]> (c_bindings c')) c');
      mret [effect]
  end.

Definition activate_binding (id : BindingId) : M (list Effect) :=
  c ← get;
  b ← get_binding id;
  lease ← get_lease (binding_lease b);
  if negb (bool_decide (lease_state lease = LActive))
  then fail (LeaseStateError (lease_id lease) (lease_state lease))
  else if bool_decide (binding_state b = BActive) then mret [binding_effect c b EffActivate]
  else if negb (bool_decide (binding_state b = BPreparing))
  then fail (BindingStateError id (binding_state b))
  else
    let effect := binding_effect c b EffActivate in
    _ ← update_binding id (binding_with_state BActive);
    mret [effect].

Definition fence_binding (id : BindingId) : M (list Effect) :=
  c ← get;
  b ← get_binding id;
  if bool_decide (binding_state b = BFenced) then mret [binding_effect c b EffFence]
  else if bool_decide (binding_state b = BReleased) then mret []
  else mret [binding_effect c b EffFence].

Definition fail_binding (id : BindingId) (reason : string) : M (list Effect) :=
  b ← get_binding id;
  if is_closed (binding_state b) then mret []
  else
    _ ← update_binding id (binding_with_state BFailed);
    c ← get;
    b ← get_binding id;
    mret [binding_effect c b EffFence].

Definition release_binding (id : BindingId) : M (list Effect) :=
  c ← get;
  b ← get_binding id;
  if bool_decide (binding_state b = BReleased) then mret [binding_effect c b EffRelease]
  else if is_closed (binding_state b) then mret []
  else mret [binding_effect c b EffRelease].

(** The common prefix of the acknowledgements: the binding, the current
    session of its machine, its fence. *)
Definition acknowledged (id : BindingId) (session fence : u64) : M Binding :=
  b ← get_binding id;
  c ← get;
  _ ← lift (require_session c (binding_node b) session);
  _ ← lift (require_fence id (binding_fence b) fence);
  mret b.

Definition record_prepared (id : BindingId) (session handle fence : u64) : M (list Effect) :=
  b ← acknowledged id session fence;
  if bool_decide (binding_state b ∈ [BPreparing; BActive]) then
    _ ← update_binding id (λ b, binding_with_session session (binding_with_handle handle b));
    mret []
  else fail (BindingStateError id (binding_state b)).

Definition record_active (id : BindingId) (session fence : u64) : M (list Effect) :=
  b ← acknowledged id session fence;
  if bool_decide (binding_state b = BActive) then
    _ ← update_binding id (binding_with_session session);
    mret []
  else fail (BindingStateError id (binding_state b)).

Definition record_released (id : BindingId) (session fence : u64) : M (list Effect) :=
  _ ← acknowledged id session fence;
  _ ← update_binding id (λ b, binding_with_state BReleased (binding_with_session session b));
  mret [].

Definition record_fenced (id : BindingId) (session fence : u64) : M (list Effect) :=
  _ ← acknowledged id session fence;
  _ ← update_binding id (λ b, binding_with_state BFenced (binding_with_session session b));
  mret [].

Definition record_failed (id : BindingId) (session : u64) (reason : string) (fence : u64)
    : M (list Effect) :=
  b ← acknowledged id session fence;
  let lease := binding_lease b in
  _ ← update_binding id (λ b,
        let b := binding_with_session session b in
        if is_closed (binding_state b) then b else binding_with_state BFailed b);
  _ ← get_lease lease;
  _ ← update_lease lease (mark_unless ended LFailed);
  c ← get;
  mret (fence_effects c lease).

(** ** Node and session commands *)

Definition set_node_state (node : NodeId) (state : NodeState) : M (list Effect) :=
  c ← get;
  match node_state c node with
  | None => fail (UnknownNode node)
  | Some current =>
      if bool_decide (current = NRetired) && negb (bool_decide (state = NRetired))
      then fail (Invalid "retired resources require a new identity")
      else if bool_decide (state = NSchedulable)
           && negb (bool_decide (current = NSchedulable))
           && negb (bool_decide (current = NDraining))
           && existsb (λ b, negb (is_closed (binding_state b)) && in_scope c node (binding_node b))
                (bt_values (c_bindings c))
      then fail (UnquarantineBlocked node)
      else if bool_decide (state = NRetired) && node_has_live_authority c node
      then fail (ResourceBusy node)
      else
        _ ← put (set_node_states
                   (if bool_decide (state = NSchedulable) then delete node (c_node_states c)
                    else <[node := state]> (c_node_states c)) c);
        mret []
  end.

Definition set_node_health (node : NodeId) (health : string) : M (list Effect) :=
  c ← get;
  match set_observation (c_graph c) node "health" health with
  | Some g => _ ← put (set_graph g c); mret []
  | None => fail (UnknownNode node)
  end.

Definition set_agent_session (machine : NodeId) (session : u64) : M (list Effect) :=
  c ← get;
  node ← lift (ok_or (graph_node (c_graph c) machine) (UnknownNode machine));
  _ ← guard (bool_decide (node_kind node = Class.Machine))
        (Invalid "agent session requires a machine node");
  _ ← lift (match c_sessions c !! machine with
            | Some current => guard_err (current <=? session) (StaleSession current session)
            | None => Ok ()
            end);
  let c' := set_sessions (<[machine := session]> (c_sessions c)) c in
  _ ← put c';
  mret [EffReconcile machine session (c_epoch c') (live_machine_bindings c' machine)].

Definition rebind_session (id : BindingId) (session : u64) : M (list Effect) :=
  b ← get_binding id;
  c ← get;
  _ ← lift (require_session c (binding_node b) session);
  _ ← update_binding id (binding_with_session session);
  mret [].

Definition advance_endpoint_fence (node : NodeId) (provider : ProviderId) (fence : u64)
    : M (list Effect) :=
  c ← get;
  _ ← lift (ok_or (graph_node (c_graph c) node) (UnknownNode node));
  _ ← guard (negb (fence =? 0)) (Invalid "endpoint fence watermark must be positive");
  let watermark := default 0 (c_last_fence c !! (provider, node)) in
  _ ← put (set_last_fence
             (<[(provider, node) := if watermark <? fence then fence else watermark]>
                (c_last_fence c)) c);
  mret [].

Definition quarantine_node (node : NodeId) : M (list Effect) := set_node_state node NQuarantined.

Definition unquarantine_node (node : NodeId) : M (list Effect) :=
  c ← get;
  match node_state c node with
  | None => fail (UnknownNode node)
  | Some state =>
      if negb (bool_decide (state = NQuarantined)) then mret []
      else set_node_state node NSchedulable
  end.

(** ** Dispatch, apply, replay *)

Definition dispatch (command : Command) : M (list Effect) :=
  match command with
  | ApplyGraph nodes edges => apply_graph nodes edges
  | ApplyResourceFacts nodes edges claim_bindings =>
      apply_resource_facts nodes edges claim_bindings
  | ApplyProviderFacts batches claim_bindings => apply_provider_facts batches claim_bindings
  | AdoptFactWriters assignments => adopt_fact_writers assignments
  | ReserveLease id owner allocation expires_at priority =>
      reserve_lease id owner allocation expires_at priority
  | PromoteLease id prepare_deadline => promote_lease id prepare_deadline
  | OpenLease id owner allocation parent expires_at prepare_deadline priority =>
      open_lease id owner allocation parent expires_at prepare_deadline priority
  | ActivateLease id => activate_lease id
  | FailLease id reason => fail_lease id reason
  | ReleaseLease id => release_lease id
  | RevokeLease id => revoke_lease id
  | ExpireLease id => expire_lease id
  | CompleteLease id exit_code => complete_lease id exit_code
  | RenewLease id new_expires_at => renew_lease id new_expires_at
  | OpenBinding id lease node provider scope => open_binding id lease node provider scope
  | ActivateBinding id => activate_binding id
  | FenceBinding id => fence_binding id
  | FailBinding id reason => fail_binding id reason
  | ReleaseBinding id => release_binding id
  | RecordBindingPrepared id session handle fence => record_prepared id session handle fence
  | RecordBindingActive id session fence => record_active id session fence
  | RecordBindingReleased id session fence => record_released id session fence
  | RecordBindingFenced id session fence => record_fenced id session fence
  | RecordBindingFailed id session reason fence => record_failed id session reason fence
  | SetAgentSession machine session => set_agent_session machine session
  | SetNodeHealth node health => set_node_health node health
  | SetNodeState node state => set_node_state node state
  | RebindSession id session => rebind_session id session
  | AdvanceEndpointFence node provider fence => advance_endpoint_fence node provider fence
  | QuarantineNode node => quarantine_node node
  | UnquarantineNode node => unquarantine_node node
  end.

(** [Cluster::apply] *)
Definition cluster_apply (command : Command) : M (list Effect) :=
  effects ← dispatch command;
  c ← get;
  _ ← put (set_log (c_log c ++ [command]) c);
  mret effects.

(** [Cluster::replay] *)
Definition replay (commands : list Command) : result Error Cluster :=
  c ← try_fold (λ c command,
        match cluster_apply command c with
        | (c', Ok _) => Ok c'
        | (_, Err e) => Err e
        end) (set_replaying true cluster_new) commands;
  Ok (set_replaying false c).

(** [Cluster::migrate_legacy_observations] *)
Definition cluster_migrate_legacy_observations (c : Cluster) : Cluster :=
  set_graph (migrate_legacy_observations (c_graph c)) c.
