(* ===== verification/Ledger.v ===== *)
(** * The authority ledger: abstract specification of exclusive leasing

    What the lease table of the cluster promises, without states, bindings,
    clocks or sessions: a forest of claims and the set of leases that still
    occupy capacity.  Leases are admitted at the root (against the free
    capacity of the nodes) or under an occupying parent (against what its
    siblings left of the parent's claims), and stop occupying one at a time.
    The capacity law below is an invariant of these three moves; cluster.rs
    is shown to refine them in ClusterInv.v. *)

From S2P Require Import Prelude.
From S2P Require Import Identifier.
From S2P Require Import Types.
From S2P Require Import Occupancy.

Record Core := mkCore { core_parent : option N; core_claims : list Claim }.

Record Ledger := mkLedger { lg_core : gmap N Core; lg_occ : gset N }.

Definition core_amount (x : Core) (n : NodeId) (d : CapacityDimension) : N :=
  claims_amount (core_claims x) n d.

(** A lease is charged to the nodes when it occupies and its parent does not. *)
Definition lg_charged (L : Ledger) (k : N) (x : Core) : bool :=
  bool_decide (k ∈ lg_occ L)
  && match core_parent x with
     | None => true
     | Some p => negb (bool_decide (p ∈ lg_occ L))
     end.

Definition lg_total (L : Ledger) (n : NodeId) (d : CapacityDimension) : N :=
  sum_map (λ k x, if lg_charged L k x then core_amount x n d else 0) (lg_core L).

(** What the occupying children of [p] hold of its claims. *)
Definition lg_kid (L : Ledger) (p k : N) (x : Core) : bool :=
  bool_decide (core_parent x = Some p) && bool_decide (k ∈ lg_occ L).

Definition lg_kids (L : Ledger) (p : N) (n : NodeId) (d : CapacityDimension) : N :=
  sum_map (λ k x, if lg_kid L p k x then core_amount x n d else 0) (lg_core L).

Inductive lstep (cap : N → string → N) : Ledger → Ledger → Prop :=
| lstep_root L id claims :
    lg_core L !! id = None →
    (∀ n d, lg_total L n d + claims_amount claims n d ≤ cap n d) →
    lstep cap L (mkLedger (<[id := mkCore None claims]> (lg_core L)) ({[id]} ∪ lg_occ L))
| lstep_child L id p y claims :
    lg_core L !! id = None →
    lg_core L !! p = Some y → p ∈ lg_occ L →
    (∀ n d, lg_kids L p n d + claims_amount claims n d ≤ core_amount y n d) →
    lstep cap L (mkLedger (<[id := mkCore (Some p) claims]> (lg_core L)) ({[id]} ∪ lg_occ L))
| lstep_drop L id x :
    lg_core L !! id = Some x → id ∈ lg_occ L →
    (core_parent x = None
     ∨ ∀ k y, lg_core L !! k = Some y → core_parent y = Some id → k ∉ lg_occ L) →
    lstep cap L (mkLedger (lg_core L) (lg_occ L ∖ {[id]})).

(** ** The invariant *)

Record ledger_inv (cap : N → string → N) (L : Ledger) : Prop := {
  li_occ : lg_occ L ⊆ dom (lg_core L);
  li_parent : ∀ k x p, lg_core L !! k = Some x → core_parent x = Some p →
    is_Some (lg_core L !! p) ∧ p ≠ k;
  li_tree : ∀ k x p y, lg_core L !! k = Some x → k ∈ lg_occ L → core_parent x = Some p →
    lg_core L !! p = Some y → p ∈ lg_occ L ∨ core_parent y = None;
  li_kids : ∀ p y n d, lg_core L !! p = Some y → lg_kids L p n d ≤ core_amount y n d;
  li_cap : ∀ n d, lg_total L n d ≤ cap n d;
}.

Lemma fresh_not_parent cap L id k x :
  ledger_inv cap L → lg_core L !! id = None → lg_core L !! k = Some x →
  core_parent x ≠ Some id.
Proof.
  intros Hinv Hid Hk Hp. destruct (li_parent _ _ Hinv _ _ _ Hk Hp) as [[? ?] _]. congruence.
Qed.

Lemma fresh_not_occ cap L id : ledger_inv cap L → lg_core L !! id = None → id ∉ lg_occ L.
Proof. intros Hinv Hid Hin%(li_occ _ _ Hinv). by apply not_elem_of_dom in Hid. Qed.

(** Admitting a fresh lease does not change how the others are charged. *)
Lemma insert_charged cap L id x0 :
  ledger_inv cap L → lg_core L !! id = None →
  let L' := mkLedger (<[id := x0]> (lg_core L)) ({[id]} ∪ lg_occ L) in
  (∀ k x, lg_core L !! k = Some x → lg_charged L' k x = lg_charged L k x)
  ∧ (∀ p k x, lg_core L !! k = Some x → lg_kid L' p k x = lg_kid L p k x).
Proof.
  intros Hinv Hid. cbv zeta.
  assert (∀ k, k ≠ id → (k ∈ {[id]} ∪ lg_occ L) ↔ k ∈ lg_occ L) as Hocc by set_solver.
  split; intros; unfold lg_charged, lg_kid; simpl.
  - assert (k ≠ id) as Hne by congruence.
    rewrite (bool_decide_ext _ _ (Hocc k Hne)). f_equal.
    destruct (core_parent x) as [p|] eqn:Hp; [|done].
    assert (p ≠ id) as Hpne.
    { intros ->. by eapply (fresh_not_parent cap L id k x). }
    by rewrite (bool_decide_ext _ _ (Hocc p Hpne)).
  - assert (k ≠ id) as Hne by congruence. by rewrite (bool_decide_ext _ _ (Hocc k Hne)).
Qed.

Lemma insert_sums cap L id x0 n d :
  ledger_inv cap L → lg_core L !! id = None →
  let L' := mkLedger (<[id := x0]> (lg_core L)) ({[id]} ∪ lg_occ L) in
  lg_total L' n d
    = (if lg_charged L' id x0 then core_amount x0 n d else 0) + lg_total L n d
  ∧ ∀ p, lg_kids L' p n d
    = (if lg_kid L' p id x0 then core_amount x0 n d else 0) + lg_kids L p n d.
Proof.
  intros Hinv Hid. destruct (insert_charged cap L id x0 Hinv Hid) as [Hc Hk]. cbv zeta in *.
  split; intros; unfold lg_total, lg_kids; cbn [lg_core];
    rewrite sum_map_insert by done; f_equal; apply sum_map_ext; intros k x Hx;
    by rewrite ?(Hc k x Hx), ?(Hk _ k x Hx).
Qed.

Lemma no_kids_of_fresh cap L id n d :
  ledger_inv cap L → lg_core L !! id = None → lg_kids L id n d = 0.
Proof.
  intros Hinv Hid. apply sum_map_zero. intros k x Hx. unfold lg_kid.
  rewrite bool_decide_false; [done|]. by eapply fresh_not_parent.
Qed.

Lemma lstep_insert_inv cap L id x0 :
  ledger_inv cap L → lg_core L !! id = None →
  (∀ n d, (match core_parent x0 with None => core_amount x0 n d | Some _ => 0 end)
          + lg_total L n d ≤ cap n d) →
  (∀ p, core_parent x0 = Some p → p ∈ lg_occ L ∧ ∃ y, lg_core L !! p = Some y
     ∧ ∀ n d, lg_kids L p n d + core_amount x0 n d ≤ core_amount y n d) →
  ledger_inv cap (mkLedger (<[id := x0]> (lg_core L)) ({[id]} ∪ lg_occ L)).
Proof.
  intros Hinv Hid Hroot Hpar.
  assert (∀ p, core_parent x0 = Some p → p ≠ id) as Hpne.
  { intros p Hp ->. destruct (Hpar _ Hp) as (_ & y & Hy & _). congruence. }
  split; cbn [lg_core lg_occ].
  - rewrite dom_insert_L. pose proof (li_occ _ _ Hinv). set_solver.
  - intros k x p Hk Hp. rewrite lookup_insert in Hk. case_decide; simplify_eq.
    + destruct (Hpar p Hp) as (_ & y & Hy & _). split; [|by apply Hpne].
      rewrite lookup_insert_ne; [eauto|]. intros ->. by apply (Hpne p).
    + destruct (li_parent _ _ Hinv _ _ _ Hk Hp) as [[y Hy] Hne]. split; [|done].
      rewrite lookup_insert. case_decide; eauto.
  - intros k x p y Hk Hocc Hp Hy. rewrite lookup_insert in Hk. case_decide; simplify_eq.
    + left. destruct (Hpar p Hp) as (Hin & _). set_solver.
    + rewrite lookup_insert in Hy. case_decide; simplify_eq.
      { exfalso. by eapply (fresh_not_parent cap L). }
      destruct (li_tree _ _ Hinv k x p y); [done|set_solver|done|done|left; set_solver|by right].
  - intros p y n d Hy.
    destruct (insert_sums cap L id x0 n d Hinv Hid) as [_ ->].
    rewrite lookup_insert in Hy. unfold lg_kid at 1. case_decide; simplify_eq.
    + rewrite (no_kids_of_fresh cap) by done. rewrite bool_decide_false; [simpl; lia|].
      intros Hp. by apply (Hpne p).
    + case_bool_decide as Hp; simpl.
      * destruct (Hpar p Hp) as (_ & y' & Hy' & Hle). specialize (Hle n d). simplify_eq.
        destruct (bool_decide _); lia.
      * by apply (li_kids _ _ Hinv).
  - intros n d. destruct (insert_sums cap L id x0 n d Hinv Hid) as [-> _].
    specialize (Hroot n d). unfold lg_charged. cbn [lg_occ].
    destruct (core_parent x0) as [p|] eqn:Hp.
    + destruct (Hpar p eq_refl) as (Hin & _). rewrite (bool_decide_true (p ∈ _)) by set_solver.
      rewrite andb_false_r. lia.
    + destruct (_ && _); lia.
Qed.

(** The charge of each lease after [id] stops occupying. *)
Lemma drop_charged L id k x :
  let L' := mkLedger (lg_core L) (lg_occ L ∖ {[id]}) in
  k ≠ id →
  lg_charged L' k x = true → lg_charged L k x = true ∨ lg_kid L id k x = true.
Proof.
  cbv zeta. intros Hne. unfold lg_charged, lg_kid. simpl.
  rewrite !andb_true_iff, !bool_decide_eq_true. intros [Hk Hp].
  assert (k ∈ lg_occ L) as Hko by set_solver.
  destruct (core_parent x) as [p|]; [|by left].
  destruct (decide (p = id)) as [->|Hpne]; [by right|]. left. split; [done|].
  rewrite negb_true_iff, bool_decide_eq_false in *. set_solver.
Qed.

Lemma drop_self_not_charged L id x :
  lg_charged (mkLedger (lg_core L) (lg_occ L ∖ {[id]})) id x = false.
Proof. unfold lg_charged. simpl. rewrite bool_decide_false; [done|set_solver]. Qed.

(** Dropping a lease never increases the occupied total: its charge is
    replaced at most by its children's, which fit in it. *)
Lemma drop_total cap L id x n d :
  ledger_inv cap L → lg_core L !! id = Some x → id ∈ lg_occ L →
  (core_parent x = None
   ∨ ∀ k y, lg_core L !! k = Some y → core_parent y = Some id → k ∉ lg_occ L) →
  lg_total (mkLedger (lg_core L) (lg_occ L ∖ {[id]})) n d ≤ lg_total L n d.
Proof.
  intros Hinv Hid Hocc Hdrop. unfold lg_total. cbn [lg_core].
  rewrite !(sum_map_delete _ (lg_core L) id x Hid), drop_self_not_charged.
  set (L' := mkLedger _ _).
  assert (sum_map (λ k x, if lg_charged L' k x then core_amount x n d else 0)
            (delete id (lg_core L))
          ≤ sum_map (λ k x, if lg_charged L k x then core_amount x n d else 0)
              (delete id (lg_core L))
            + sum_map (λ k x, if lg_kid L id k x then core_amount x n d else 0)
              (delete id (lg_core L))) as Hle.
  { rewrite <-sum_map_add. apply sum_map_le. intros k y [Hne Hy]%lookup_delete_Some.
    destruct (lg_charged L' k y) eqn:Hc;
      [|destruct (lg_charged L k y), (lg_kid L id k y); lia].
    apply drop_charged in Hc as [->| ->]; [destruct (lg_kid L id k y); lia|
      destruct (lg_charged L k y); lia|done]. }
  assert (sum_map (λ k x, if lg_kid L id k x then core_amount x n d else 0)
            (delete id (lg_core L)) ≤ (if lg_charged L id x then core_amount x n d else 0))
    as Hkids; [|lia].
  destruct Hdrop as [Hroot|Hnone].
  - assert (lg_charged L id x = true) as ->.
    { unfold lg_charged. by rewrite Hroot, bool_decide_true. }
    pose proof (li_kids _ _ Hinv id x n d Hid) as Hk. unfold lg_kids in Hk.
    rewrite (sum_map_delete _ (lg_core L) id x Hid) in Hk. lia.
  - rewrite sum_map_zero; [lia|]. intros k y [Hne Hy]%lookup_delete_Some.
    unfold lg_kid. case_bool_decide as Hp; [|done].
    rewrite bool_decide_false; [done|]. by eapply Hnone.
Qed.

Lemma drop_kids L id p n d :
  lg_kids (mkLedger (lg_core L) (lg_occ L ∖ {[id]})) p n d ≤ lg_kids L p n d.
Proof.
  apply sum_map_le. intros k x Hx. unfold lg_kid. simpl.
  destruct (bool_decide (core_parent x = Some p)); simpl; [|lia].
  destruct (bool_decide_reflect (k ∈ lg_occ L ∖ {[id]})); [|destruct (bool_decide _); lia].
  rewrite bool_decide_true; [lia|set_solver].
Qed.

Lemma lstep_inv cap L L' : ledger_inv cap L → lstep cap L L' → ledger_inv cap L'.
Proof.
  intros Hinv Hstep. destruct Hstep as [L id claims Hid Hfit|L id p y claims Hid Hp Hocc Hfit|
                                        L id x Hid Hocc Hdrop].
  - apply lstep_insert_inv; [done|done| |discriminate].
    intros n d. specialize (Hfit n d). unfold core_amount. simpl. lia.
  - apply lstep_insert_inv; [done|done| |].
    + intros n d. simpl. by apply (li_cap _ _ Hinv).
    + intros ? [= <-]. split; [done|]. exists y. split; [done|]. done.
  - pose proof (drop_total cap L id x) as Htot. split; cbn [lg_core lg_occ].
    + pose proof (li_occ _ _ Hinv). set_solver.
    + apply (li_parent _ _ Hinv).
    + intros k z p y Hk Hko Hpar Hy.
      destruct (decide (p = id)) as [->|Hne].
      * simplify_eq. destruct Hdrop as [Hroot|Hnone]; [by right|].
        exfalso. eapply Hnone; [exact Hk|exact Hpar|set_solver].
      * destruct (li_tree _ _ Hinv k z p y); [done|set_solver|done|done|left; set_solver|by right].
    + intros p y n d Hy. etrans; [apply drop_kids|]. by apply (li_kids _ _ Hinv).
    + intros n d. etrans; [by apply Htot|]. apply (li_cap _ _ Hinv).
Qed.

Lemma lsteps_inv cap L L' : ledger_inv cap L → rtc (lstep cap) L L' → ledger_inv cap L'.
Proof. intros Hinv Hsteps. induction Hsteps; eauto using lstep_inv. Qed.

Lemma ledger_inv_cap cap cap' L :
  ledger_inv cap L → (∀ n d, lg_total L n d ≤ cap' n d) → ledger_inv cap' L.
Proof. intros [] Hcap. by split. Qed.

Lemma ledger_empty_inv cap : ledger_inv cap (mkLedger ∅ ∅).
Proof.
  split; cbn [lg_core lg_occ]; [set_solver| | | |]; intros; simplify_map_eq.
  unfold lg_total. cbn [lg_core]. rewrite sum_map_empty. lia.
Qed.

(** ** The authority: a ledger and the capacities it is held against *)

Record Authority := mkAuthority { au_cap : N → string → N; au_ledger : Ledger }.

(** Capacities may change, but never below what is occupied. *)
Inductive astep : Authority → Authority → Prop :=
| a_ledger cap L L' : lstep cap L L' → astep (mkAuthority cap L) (mkAuthority cap L')
| a_capacity cap cap' L :
    (∀ n d, lg_total L n d ≤ cap' n d) → astep (mkAuthority cap L) (mkAuthority cap' L).

Definition authority_inv (a : Authority) : Prop := ledger_inv (au_cap a) (au_ledger a).

Lemma astep_inv a a' : authority_inv a → astep a a' → authority_inv a'.
Proof.
  intros Hinv Hstep. destruct Hstep as [cap L L' Hstep|cap cap' L Hcap].
  - exact (lstep_inv cap L L' Hinv Hstep).
  - exact (ledger_inv_cap cap cap' L Hinv Hcap).
Qed.

Lemma asteps_inv a a' : authority_inv a → rtc astep a a' → authority_inv a'.
Proof. intros Hinv Hsteps. induction Hsteps; eauto using astep_inv. Qed.

Lemma lsteps_asteps cap L L' :
  rtc (lstep cap) L L' → rtc astep (mkAuthority cap L) (mkAuthority cap L').
Proof. induction 1; [reflexivity|]. eapply rtc_l; [by constructor|done]. Qed.
