(* ===== verification/LeaseTree.v ===== *)
(** * The lease forest

    Child leases name their parent.  [walk_descendants] enumerates what lies
    under a lease, children before parents; the terminating commands rely on
    that order.  Here: the walk is complete within its fuel, visits every
    descendant once, and never visits a parent before one of its children. *)

From S2P Require Import Prelude.
From S2P Require Import Identifier.
From S2P Require Import Types.
From S2P Require Import GraphFacts.
From S2P Require Import Occupancy.
From S2P Require Import Cluster.

Definition lease_parents (leases : gmap N Lease) : gmap N N := omap lease_parent leases.

Lemma lease_parents_lookup leases k :
  lease_parents leases !! k = l ← leases !! k; lease_parent l.
Proof. apply lookup_omap. Qed.

Lemma lease_parents_empty k : lease_parents ∅ !! k = None.
Proof. by rewrite lease_parents_lookup, lookup_empty. Qed.

Lemma lease_parents_Some leases k p :
  lease_parents leases !! k = Some p ↔ ∃ l, leases !! k = Some l ∧ lease_parent l = Some p.
Proof. rewrite lease_parents_lookup. apply bind_Some. Qed.

Section forest.
Context (leases : gmap N Lease).
Context (Hkeyed : keyed leases) (Hacyclic : acyclic (lease_parents leases)).

Local Abbreviation par := (lease_parents leases).

Lemma elem_of_children_of p x : x ∈ children_of leases p ↔ par !! x = Some p.
Proof.
  unfold children_of. rewrite list_elem_of_fmap, lease_parents_Some. split.
  - intros (l & -> & Hl). rewrite list_elem_of_In, filter_In, <-list_elem_of_In in Hl.
    destruct Hl as [[k Hk]%elem_of_bt_values Hp%bool_decide_eq_true].
    exists l. by rewrite (Hkeyed _ _ Hk).
  - intros (l & Hl & Hp). exists l. split; [by rewrite (Hkeyed _ _ Hl)|].
    rewrite list_elem_of_In, filter_In, <-list_elem_of_In. split.
    + apply elem_of_bt_values. eauto.
    + by apply bool_decide_eq_true.
Qed.

Lemma children_of_NoDup p : NoDup (children_of leases p).
Proof.
  unfold children_of, bt_values. apply (NoDup_fmap_2_strong _).
  - intros a b Ha Hb Heq.
    rewrite list_elem_of_In, filter_In, <-list_elem_of_In in Ha, Hb.
    destruct Ha as [[ka Ha]%elem_of_bt_values _], Hb as [[kb Hb]%elem_of_bt_values _].
    rewrite (Hkeyed _ _ Ha), (Hkeyed _ _ Hb) in Heq. subst. congruence.
  - assert (∀ (f : Lease → bool) (l : list Lease), NoDup l → NoDup (List.filter f l)) as Hf.
    { intros f l Hl. rewrite NoDup_ListNoDup in *. by apply List.NoDup_filter. }
    apply Hf, (NoDup_fmap_1 lease_id). rewrite <-list_fmap_compose.
    assert (((lease_id ∘ snd) <$> bt_iter leases) = (bt_iter leases).*1) as ->;
      [|apply bt_keys_NoDup].
    apply list_fmap_ext. intros i [k l] Hi. simpl. apply Hkeyed.
    apply elem_of_bt_iter. by eapply list_elem_of_lookup_2.
Qed.

(** The sorted children visited at each level. *)
Definition sorted_children (p : LeaseId) : list LeaseId := sort_by N.leb (children_of leases p).

Lemma elem_of_sorted_children p x : x ∈ sorted_children p ↔ par !! x = Some p.
Proof. unfold sorted_children. by rewrite elem_of_sort_by, elem_of_children_of. Qed.

(** Enough fuel: what is left covers the levels that may still follow. *)
Lemma walk_enough f f' x d :
  depth par x d → (S (size par) ≤ f + d)%nat → (S (size par) ≤ f' + d)%nat →
  walk_descendants leases f x = walk_descendants leases f' x.
Proof.
  revert f' x d. induction f as [|f IH]; intros f' x d Hd Hf Hf'.
  { pose proof (depth_le_size _ _ _ Hd). lia. }
  destruct f' as [|f']; [pose proof (depth_le_size _ _ _ Hd); lia|].
  simpl. f_equal. apply list_fmap_ext. intros i y Hy%list_elem_of_lookup_2. f_equal.
  rewrite elem_of_sort_by, elem_of_children_of in Hy.
  apply (IH f' y (S d)); [by econstructor|lia..].
Qed.

Lemma lease_parents_size : (size par ≤ size leases)%nat.
Proof.
  rewrite <-(size_dom par), <-(size_dom leases). apply subseteq_size.
  intros k Hk%elem_of_dom. apply elem_of_dom. destruct Hk as [p Hp].
  apply lease_parents_Some in Hp as (l & Hl & _). eauto.
Qed.

Definition below (x : LeaseId) : list LeaseId :=
  walk_descendants leases (S (size leases)) x.

(** The recursive equation of the walk. *)
Lemma below_eq x :
  below x = mjoin ((λ child, below child ++ [child]) <$> sorted_children x).
Proof.
  unfold below at 1. cbn [walk_descendants]. f_equal. fold (sorted_children x).
  apply list_fmap_ext. intros i y Hy%list_elem_of_lookup_2. f_equal.
  apply elem_of_sorted_children in Hy. destruct (Hacyclic y) as [d Hd].
  pose proof lease_parents_size. destruct d as [|d].
  { inversion Hd. congruence. }
  apply (walk_enough _ _ y (S d)); [done|lia..].
Qed.

(** Induction from the leaves: a claim on every child gives the claim. *)
Lemma leaves_ind (P : LeaseId → Prop) :
  (∀ x, (∀ y, par !! y = Some x → P y) → P x) → ∀ x, P x.
Proof.
  intros Hstep.
  assert (∀ m x d, depth par x d → (S (size par) ≤ m + d)%nat → P x) as Hall.
  { induction m as [|m IH]; intros x d Hd Hm.
    - pose proof (depth_le_size _ _ _ Hd). lia.
    - apply Hstep. intros y Hy. apply (IH y (S d)); [by econstructor|lia]. }
  intros x. destruct (Hacyclic x) as [d Hd]. apply (Hall (S (size par)) x d); [done|lia].
Qed.

(** Proper descendants: the parent chain of [y] reaches [x]. *)
Definition under (x y : LeaseId) : Prop := tc (λ a b, par !! a = Some b) y x.

Lemma under_last x y : under x y → ∃ c, (y = c ∨ under c y) ∧ par !! c = Some x.
Proof.
  unfold under. revert x. refine (tc_ind_r _ y _ _); [eauto|].
  intros z x Hyz Hzx _. eauto.
Qed.

Lemma elem_of_below x y : y ∈ below x ↔ under x y.
Proof.
  revert x y. refine (leaves_ind _ _). intros x IH y.
  rewrite below_eq, list_elem_of_join. setoid_rewrite list_elem_of_fmap. split.
  - intros (l & Hy & c & -> & Hc%elem_of_sorted_children).
    rewrite elem_of_app, list_elem_of_singleton, (IH c Hc) in Hy.
    destruct Hy as [Hy| ->]; [|by apply tc_once].
    eapply tc_r; [exact Hy|done].
  - intros Hy. apply under_last in Hy as (c & Hyc & Hc).
    exists (below c ++ [c]). split; [|eexists; split; [done|by apply elem_of_sorted_children]].
    rewrite elem_of_app, list_elem_of_singleton, (IH c Hc).
    destruct Hyc as [->|Hyc]; [by right|by left].
Qed.

Lemma under_depth x y d : depth par x d → under x y → ∃ e, depth par y e ∧ (d < e)%nat.
Proof.
  intros Hd Hu. unfold under in Hu. induction Hu as [a b Hab|a b z Hab Hbz IH].
  - exists (S d). split; [by econstructor|lia].
  - destruct (IH Hd) as (e & He & Hlt). exists (S e). split; [by econstructor|lia].
Qed.

(** Parent chains are linear. *)
Lemma chain_linear y a b :
  rtc (λ a b, par !! a = Some b) y a → rtc (λ a b, par !! a = Some b) y b →
  rtc (λ a b, par !! a = Some b) a b ∨ rtc (λ a b, par !! a = Some b) b a.
Proof.
  intros Ha. revert b. induction Ha as [y|y w a Hyw Hwa IH]; intros b Hb; [by left|].
  inversion Hb as [|? w' ? Hyw' Hwb]; subst; [right; by eapply rtc_l|].
  assert (w = w') as <- by congruence. by apply IH.
Qed.

Lemma siblings_disjoint x a b y :
  par !! a = Some x → par !! b = Some x →
  y ∈ below a ++ [a] → y ∈ below b ++ [b] → a = b.
Proof.
  intros Ha Hb. rewrite !elem_of_app, !list_elem_of_singleton, !elem_of_below.
  intros Hya Hyb.
  assert (∀ c, under c y ∨ y = c → rtc (λ a b, par !! a = Some b) y c) as Hr.
  { intros c [Hc| ->]; [by apply tc_rtc|reflexivity]. }
  assert (∀ a b, par !! a = Some x → par !! b = Some x →
    rtc (λ a b, par !! a = Some b) a b → a = b) as Hone.
  { clear -Hacyclic. intros a b Ha Hb [->|Hab]%rtc_tc; [done|].
    destruct (Hacyclic x) as [d Hd].
    destruct (under_depth b a (S d)) as (e & He & Hlt); [by econstructor|done|].
    assert (e = S d) by (eapply depth_fun; [done|by econstructor]). lia. }
  destruct (chain_linear y a b (Hr a Hya) (Hr b Hyb)); [by apply Hone|symmetry; by apply Hone].
Qed.

Lemma join_NoDup (f : LeaseId → list LeaseId) cs :
  NoDup cs → (∀ c, c ∈ cs → NoDup (f c)) →
  (∀ a b y, a ∈ cs → b ∈ cs → y ∈ f a → y ∈ f b → a = b) →
  NoDup (mjoin (f <$> cs)).
Proof.
  induction cs as [|c cs IH]; intros Hnd Hf Hdis; [constructor|].
  apply NoDup_cons in Hnd as [Hc Hnd]. rewrite fmap_cons. cbn [mjoin list_join].
  apply NoDup_app. split_and!.
  - apply Hf. by left.
  - intros y Hy (l & Hyl & Hl)%list_elem_of_join.
    apply list_elem_of_fmap in Hl as (c' & -> & Hc').
    assert (c = c') as <- by (eapply Hdis; [by left|by right|done|done]). done.
  - apply IH; [done|intros; apply Hf; by right|].
    intros a b y Ha Hb. apply Hdis; by right.
Qed.

Lemma below_irrefl x : x ∉ below x.
Proof.
  rewrite elem_of_below. intros Hu. destruct (Hacyclic x) as [d Hd].
  destruct (under_depth x x d Hd Hu) as (e & He & Hlt).
  assert (e = d) by (by eapply depth_fun). lia.
Qed.

Lemma below_NoDup x : NoDup (below x).
Proof.
  revert x. refine (leaves_ind _ _). intros x IH. rewrite below_eq. apply join_NoDup.
  - unfold sorted_children. rewrite sort_by_perm. apply children_of_NoDup.
  - intros c Hc%elem_of_sorted_children. apply NoDup_app. split_and!; [by apply IH| |].
    + intros y Hy ->%list_elem_of_singleton. by apply below_irrefl in Hy.
    + apply NoDup_singleton.
  - intros a b y Ha%elem_of_sorted_children Hb%elem_of_sorted_children.
    by apply (siblings_disjoint x).
Qed.

(** Postorder: every child of a visited lease has been visited before it. *)
Fixpoint children_first (seen l : list LeaseId) : Prop :=
  match l with
  | [] => True
  | x :: l => (∀ y, par !! y = Some x → y ∈ seen) ∧ children_first (x :: seen) l
  end.

Lemma children_first_app seen l l' :
  children_first seen (l ++ l') ↔ children_first seen l ∧ children_first (reverse l ++ seen) l'.
Proof.
  revert seen. induction l as [|x l IH]; intros seen;
    cbn [app children_first].
  - rewrite reverse_nil. simpl. tauto.
  - rewrite IH, reverse_cons, <-app_assoc. simpl. tauto.
Qed.

Lemma below_children_first seen x : children_first seen (below x).
Proof.
  revert x seen. refine (leaves_ind _ _). intros x IH seen. rewrite below_eq.
  assert (∀ c, c ∈ sorted_children x → par !! c = Some x) as Hcs.
  { intros c. apply elem_of_sorted_children. }
  revert seen Hcs. induction (sorted_children x) as [|c cs IHc]; intros seen Hcs; [done|].
  rewrite fmap_cons. cbn [mjoin list_join]. rewrite !children_first_app. split_and!.
  - apply IH, Hcs. by left.
  - split; [|done]. intros y Hy. rewrite elem_of_app, elem_of_reverse. left.
    rewrite elem_of_below. by apply tc_once.
  - apply IHc. intros c' Hc'. apply Hcs. by right.
Qed.

End forest.
