(* ===== verification/Handlers.v ===== *)
(** * Running handlers

    Equations that execute the handler monad one statement at a time, the
    notions of a read-only, a total and an atomic handler, and the closed form
    of the descendant loop shared by the terminating lease commands. *)

From S2P Require Import Prelude.
From S2P Require Import Identifier.
From S2P Require Import Types.
From S2P Require Import Graph.
From S2P Require Import Occupancy.
From S2P Require Import Command.
From S2P Require Import Cluster.

Section equations.
Context {A B : Type}.
Implicit Types (f : A → M B) (c : Cluster).

Lemma bind_ret (a : A) f c : ((mret a : M A) ≫= f) c = f a c.
Proof. done. Qed.
Lemma bind_lift (r : result Error A) f c :
  (lift r ≫= f) c = match r with Ok a => f a c | Err e => (c, Err e) end.
Proof. by destruct r. Qed.
Lemma bind_bind {D} (m : M D) (g : D → M A) f c :
  ((m ≫= g) ≫= f) c = (m ≫= λ d, g d ≫= f) c.
Proof. unfold mbind, M_bind. by destruct (m c) as [c' []]. Qed.
Lemma bind_run (m : M A) f c :
  (m ≫= f) c = match m c with (c', Ok a) => f a c' | (c', Err e) => (c', Err e) end.
Proof. done. Qed.
End equations.

Section state.
Context {B : Type}.
Implicit Types (c : Cluster).

Lemma bind_get (f : Cluster → M B) c : (get ≫= f) c = f c c.
Proof. done. Qed.
Lemma bind_put c0 (f : () → M B) c : (put c0 ≫= f) c = f () c0.
Proof. done. Qed.
Lemma bind_guard (b : bool) e (f : () → M B) c :
  (guard b e ≫= f) c = if b then f () c else (c, Err e).
Proof. by destruct b. Qed.
Lemma bind_agreed (f : () → M B) c :
  (require_agreed ≫= f) c = if c_agreed c then f () c else (c, Err NotAgreed).
Proof. unfold require_agreed. by rewrite bind_bind, bind_get, bind_guard. Qed.
Lemma bind_get_lease id (f : Lease → M B) c :
  (get_lease id ≫= f) c
  = match c_leases c !! id with Some l => f l c | None => (c, Err (UnknownLease id)) end.
Proof.
  unfold get_lease. rewrite bind_bind, bind_get, bind_lift. by destruct (c_leases c !! id).
Qed.
Lemma bind_get_binding id (f : Binding → M B) c :
  (get_binding id ≫= f) c
  = match c_bindings c !! id with Some b => f b c | None => (c, Err (UnknownBinding id)) end.
Proof.
  unfold get_binding. rewrite bind_bind, bind_get, bind_lift. by destruct (c_bindings c !! id).
Qed.
Lemma bind_update_lease id g (f : () → M B) c :
  (update_lease id g ≫= f) c = f () (set_leases (alter g id (c_leases c)) c).
Proof. done. Qed.
Lemma bind_update_binding id g (f : () → M B) c :
  (update_binding id g ≫= f) c = f () (set_bindings (alter g id (c_bindings c)) c).
Proof. done. Qed.
Lemma run_ret (b : B) c : (mret b : M B) c = (c, Ok b).
Proof. done. Qed.
Lemma run_fail e c : (fail e : M B) c = (c, Err e).
Proof. done. Qed.
Lemma run_lift (r : result Error B) c : lift r c = (c, r).
Proof. done. Qed.
End state.

(** Execute a run recorded in [H], splitting on every test; the error
    branches of a run that succeeded (and conversely) are discarded. *)
Ltac run_step H :=
  first
    [ rewrite bind_agreed in H | rewrite bind_get in H | rewrite bind_put in H
    | rewrite bind_guard in H | rewrite bind_get_lease in H | rewrite bind_get_binding in H
    | rewrite bind_update_lease in H | rewrite bind_update_binding in H
    | rewrite bind_lift in H | rewrite bind_ret in H | rewrite bind_bind in H
    | rewrite run_ret in H | rewrite run_fail in H | rewrite run_lift in H
    | match type of H with
      | (if ?b then _ else _) = _ => destruct b eqn:?
      | (if ?b then _ else _) _ = _ => destruct b eqn:?
      | match ?x with _ => _ end = _ => destruct x eqn:?
      | (match ?x with _ => _ end) _ = _ => destruct x eqn:?
      end ].
Ltac run H :=
  repeat (run_step H; try discriminate H); simplify_eq;
  repeat match goal with u : () |- _ => destruct u end.

(** ** Read-only, total and atomic handlers *)

Definition reads {A} (m : M A) : Prop := ∀ c, (m c).1 = c.
Definition total {A} (m : M A) : Prop := ∀ c, is_ok (m c).2 = true.
(** An error leaves the state as it was. *)
Definition atomic {A} (m : M A) : Prop := ∀ c c' e, m c = (c', Err e) → c' = c.

Section atomicity.
Context {A B : Type}.

Lemma reads_bind (m : M A) (f : A → M B) :
  reads m → (∀ a, reads (f a)) → reads (m ≫= f).
Proof.
  intros Hm Hf c. rewrite bind_run. specialize (Hm c). destruct (m c) as [c' []]; [|done].
  simpl in Hm. subst. apply Hf.
Qed.
Lemma reads_lift (r : result Error A) : reads (lift r).
Proof. done. Qed.
Lemma reads_ret (a : A) : reads (mret a : M A).
Proof. done. Qed.
Lemma reads_get : reads get.
Proof. done. Qed.

Lemma total_bind (m : M A) (f : A → M B) :
  total m → (∀ a, total (f a)) → total (m ≫= f).
Proof.
  intros Hm Hf c. rewrite bind_run. specialize (Hm c). destruct (m c) as [c' []]; [|done].
  apply Hf.
Qed.
Lemma total_ret (a : A) : total (mret a : M A).
Proof. done. Qed.
Lemma total_get : total get.
Proof. done. Qed.
Lemma total_put c : total (put c).
Proof. done. Qed.
Lemma total_update_lease id g : total (update_lease id g).
Proof. done. Qed.
Lemma total_update_binding id g : total (update_binding id g).
Proof. done. Qed.

Lemma atomic_reads (m : M A) : reads m → atomic m.
Proof. intros Hm c c' e Hrun. specialize (Hm c). by rewrite Hrun in Hm. Qed.
Lemma atomic_total (m : M A) : total m → atomic m.
Proof. intros Hm c c' e Hrun. specialize (Hm c). by rewrite Hrun in Hm. Qed.
(** A read-only prefix, then an atomic rest. *)
Lemma atomic_bind (m : M A) (f : A → M B) :
  reads m → (∀ a, atomic (f a)) → atomic (m ≫= f).
Proof.
  intros Hm Hf c c' e. rewrite bind_run. specialize (Hm c).
  destruct (m c) as [c1 [a|e1]]; simpl in Hm; subst; [apply Hf|congruence].
Qed.
End atomicity.

Lemma reads_agreed : reads require_agreed.
Proof. done. Qed.
Lemma reads_guard b e : reads (guard b e).
Proof. done. Qed.
Lemma reads_get_lease id : reads (get_lease id).
Proof. done. Qed.
Lemma reads_get_binding id : reads (get_binding id).
Proof. done. Qed.
Lemma reads_acknowledged id session fence : reads (acknowledged id session fence).
Proof.
  unfold acknowledged. apply reads_bind; [apply reads_get_binding|intros b].
  apply reads_bind; [apply reads_get|intros c].
  repeat (apply reads_bind; [apply reads_lift|intros ?]). apply reads_ret.
Qed.

Create HintDb atomic.
#[export] Hint Resolve reads_lift reads_ret reads_get reads_agreed reads_guard reads_get_lease
  reads_get_binding reads_acknowledged reads_bind total_bind total_ret total_get total_put
  total_update_lease total_update_binding atomic_bind : atomic.

(** The prefix of every handler only reads; after the first write nothing fails. *)
Ltac solve_atomic :=
  repeat first
    [ by apply atomic_reads; auto with atomic
    | apply atomic_bind; [by auto with atomic|intros ?]
    | apply atomic_total; by repeat (apply total_bind; [by auto with atomic|intros ?]); auto with atomic
    | match goal with
      | |- atomic (if ?b then _ else _) => destruct b
      | |- atomic (match ?x with _ => _ end) => destruct x
      end ].

(** ** Effects depend on bindings, sessions, the graph and the epoch only *)

Definition same_but_leases (c c' : Cluster) : Prop :=
  ∃ ls, c' = set_leases ls c.

Lemma fence_effects_set_leases ls c id : fence_effects (set_leases ls c) id = fence_effects c id.
Proof. done. Qed.
Lemma release_effects_set_leases ls c id :
  release_effects (set_leases ls c) id = release_effects c id.
Proof. done. Qed.

(** ** The descendant loop in closed form *)

Definition mark_all (stop : LeaseState → bool) (s : LeaseState) (ids : list LeaseId)
    (leases : gmap N Lease) : gmap N Lease :=
  foldl (λ ls d, alter (mark_unless stop s) d ls) leases ids.

Lemma set_leases_id c : set_leases (c_leases c) c = c.
Proof. by destruct c. Qed.
Lemma set_leases_twice l l' c : set_leases l (set_leases l' c) = set_leases l c.
Proof. done. Qed.

Lemma end_descendants_run stop s ids c :
  end_descendants stop s ids c
  = (set_leases (mark_all stop s ids (c_leases c)) c, Ok (ids ≫= fence_effects c)).
Proof.
  unfold end_descendants. revert c. induction ids as [|d ids IH]; intros c.
  - simpl. unfold mark_all. simpl. by rewrite set_leases_id.
  - cbn [for_effects]. rewrite bind_bind, bind_update_lease, bind_bind, bind_get, bind_ret.
    rewrite bind_run, IH. done.
Qed.

(** The loop of [revoke_lease] skips leases that do not exist; on a list of
    existing leases it is the same loop. *)
Lemma revoke_loop_run ids c :
  (∀ d, d ∈ ids → is_Some (c_leases c !! d)) →
  for_effects (λ child,
    c ← get;
    match c_leases c !! child with
    | Some _ =>
        _ ← update_lease child (mark_unless ended LRevoked);
        c ← get;
        mret (fence_effects c child)
    | None => mret []
    end) ids c
  = (set_leases (mark_all ended LRevoked ids (c_leases c)) c, Ok (ids ≫= fence_effects c)).
Proof.
  revert c. induction ids as [|d ids IH]; intros c Hids.
  - simpl. unfold mark_all. simpl. by rewrite set_leases_id.
  - cbn [for_effects]. rewrite bind_bind, bind_get.
    destruct (Hids d ltac:(by left)) as [l Hl]. rewrite Hl.
    rewrite bind_bind, bind_update_lease, bind_bind, bind_get, bind_ret.
    rewrite bind_run, IH; [done|]. simpl. intros d' Hd'.
    rewrite lookup_alter. case_decide; [subst; by rewrite Hl|].
    apply Hids. by right.
Qed.

Lemma mark_unless_idem stop s l :
  stop s = true → mark_unless stop s (mark_unless stop s l) = mark_unless stop s l.
Proof.
  intros Hs. unfold mark_unless at 1. destruct (stop (lease_state (mark_unless stop s l))) eqn:E;
    [done|]. unfold mark_unless in *. destruct (stop (lease_state l)) eqn:E'; [congruence|].
  simpl in E. congruence.
Qed.

Lemma mark_all_lookup stop s ids leases k :
  stop s = true →
  mark_all stop s ids leases !! k
  = if decide (k ∈ ids) then mark_unless stop s <$> leases !! k else leases !! k.
Proof.
  intros Hs. unfold mark_all. revert leases.
  induction ids as [|d ids IH]; intros leases; cbn [foldl].
  - rewrite decide_False; [done|apply not_elem_of_nil].
  - rewrite IH, lookup_alter. destruct (decide (d = k)) as [->|Hne].
    + rewrite (decide_True (P := k ∈ k :: ids)) by (by left).
      destruct (leases !! k) as [l|]; [|by case_decide]. simpl.
      case_decide; [|done]. f_equal. by apply mark_unless_idem.
    + rewrite (decide_ext (k ∈ d :: ids) (k ∈ ids)); [done|]. rewrite elem_of_cons. naive_solver.
Qed.
