(* ===== verification/ClusterInv.v ===== *)
(** * The cluster invariant and the ledger behind a cluster state

    [ledger_of] forgets everything of a cluster but the claims forest and the
    set of occupying leases; [cluster_inv] is the invariant of the
    authoritative state.  The bridge lemmas relate the occupancy computed by
    the source (wrapping sums over B-tree maps) to the ledger's exact sums. *)

From S2P Require Import Prelude.
From S2P Require Import Identifier.
From S2P Require Import Types.
From S2P Require Import Graph.
From S2P Require Import GraphFacts.
From S2P Require Import Occupancy.
From S2P Require Import Command.
From S2P Require Import Cluster.
From S2P Require Import Ledger.
From S2P Require Import LeaseTree.

Definition lease_core (l : Lease) : Core := mkCore (lease_parent l) (lease_claims l).

Definition occ_set (c : Cluster) : gset N :=
  dom (filter (λ kl, occupies c kl.1 = true) (c_leases c)).

Definition ledger_of (c : Cluster) : Ledger :=
  mkLedger (lease_core <$> c_leases c) (occ_set c).

Definition caps_u64 (g : Graph) : Prop :=
  ∀ id n, g_nodes g !! id = Some n → node_u64 n = true.

(** Bindings belong to existing root leases and name a claimed node. *)
Definition binds_on_roots (c : Cluster) : Prop :=
  ∀ k b, c_bindings c !! k = Some b →
    binding_id b = k
    ∧ ∃ l, c_leases c !! binding_lease b = Some l ∧ lease_parent l = None
        ∧ ∃ cl, cl ∈ lease_claims l ∧ claim_node cl = binding_node b.

(** The claims of a stored lease: resolved, on distinct existing nodes. *)
Record claims_ok (g : Graph) (claims : list Claim) : Prop := {
  co_nodup : NoDup (claim_node <$> claims);
  co_claim : ∀ cl, cl ∈ claims →
    claim_quantity cl ≠ ∅ ∧ quantity_u64 (claim_quantity cl) = true
    ∧ is_Some (g_nodes g !! claim_node cl);
}.

(** Two open bindings of one endpoint are both shares. *)
Definition exclusive_ok (c : Cluster) : Prop :=
  ∀ k1 k2 b1 b2, c_bindings c !! k1 = Some b1 → c_bindings c !! k2 = Some b2 → k1 ≠ k2 →
    is_closed (binding_state b1) = false → is_closed (binding_state b2) = false →
    binding_provider b1 = binding_provider b2 → binding_node b1 = binding_node b2 →
    binding_scope b1 = IndependentShare ∧ binding_scope b2 = IndependentShare.

Record cluster_inv (c : Cluster) : Prop := {
  ci_graph : graph_wf (c_graph c);
  ci_contracts : claims_valid (c_graph c);
  ci_caps : caps_u64 (c_graph c);
  ci_revision : g_revision (c_graph c) ≤ u64_max;
  ci_keyed : keyed (c_leases c);
  ci_claims : ∀ k l, c_leases c !! k = Some l → claims_ok (c_graph c) (lease_claims l);
  ci_acyclic : acyclic (lease_parents (c_leases c));
  ci_binds : binds_on_roots c;
  ci_exclusive : exclusive_ok c;
  ci_ledger : ledger_inv (node_cap (c_graph c)) (ledger_of c);
}.

(** ** Occupying leases *)

Lemma elem_of_open_leases c k :
  k ∈ open_binding_leases c ↔
  ∃ j b, c_bindings c !! j = Some b ∧ binding_lease b = k ∧ is_closed (binding_state b) = false.
Proof.
  unfold open_binding_leases. rewrite elem_of_list_to_set, list_elem_of_fmap. split.
  - intros (b & -> & Hb). rewrite list_elem_of_In, filter_In, <-list_elem_of_In in Hb.
    destruct Hb as [[j Hj]%elem_of_bt_values Ho%negb_true_iff]. eauto.
  - intros (j & b & Hb & <- & Ho). exists b. split; [done|].
    rewrite list_elem_of_In, filter_In, <-list_elem_of_In, Ho. split; [|done].
    apply elem_of_bt_values. eauto.
Qed.

Lemma open_bindings_true c k :
  open_bindings c k = true ↔
  ∃ j b, c_bindings c !! j = Some b ∧ binding_lease b = k ∧ is_closed (binding_state b) = false.
Proof.
  unfold open_bindings. rewrite existsb_elem. split.
  - intros (b & [j Hj]%elem_of_bt_values & [Hl%N.eqb_eq Ho%negb_true_iff]%andb_prop). eauto.
  - intros (j & b & Hb & <- & Ho). exists b. rewrite N.eqb_refl, Ho.
    split; [|done]. apply elem_of_bt_values. eauto.
Qed.

Lemma open_bindings_decide c k :
  bool_decide (k ∈ open_binding_leases c) = open_bindings c k.
Proof.
  apply eq_true_iff_eq. by rewrite bool_decide_eq_true, elem_of_open_leases, open_bindings_true.
Qed.

Lemma occupies_lookup c k l :
  keyed (c_leases c) → c_leases c !! k = Some l →
  occupies c k = is_live_state (lease_state l) || open_bindings c k.
Proof. intros Hk Hl. unfold occupies. by rewrite Hl, (Hk _ _ Hl). Qed.

Lemma occupies_false c k :
  occupies c k = false ↔
  c_leases c !! k = None ∨ ∃ l, c_leases c !! k = Some l
    ∧ is_live_state (lease_state l) = false ∧ open_bindings c (lease_id l) = false.
Proof.
  unfold occupies, lease_occupies. destruct (c_leases c !! k) as [l|].
  - rewrite orb_false_iff. naive_solver.
  - naive_solver.
Qed.

Lemma occupies_Some c k : occupies c k = true → is_Some (c_leases c !! k).
Proof. unfold occupies. by destruct (c_leases c !! k). Qed.

Lemma elem_of_occ_set c k : k ∈ occ_set c ↔ occupies c k = true.
Proof.
  unfold occ_set. rewrite elem_of_dom. split.
  - intros [l [_ Hl]%map_lookup_filter_Some]. done.
  - intros Hk. destruct (occupies_Some c k Hk) as [l Hl]. exists l.
    by rewrite map_lookup_filter_Some.
Qed.

Lemma ledger_lookup c k x :
  lg_core (ledger_of c) !! k = Some x ↔ ∃ l, c_leases c !! k = Some l ∧ x = lease_core l.
Proof. simpl. rewrite lookup_fmap_Some. naive_solver. Qed.

Lemma occupying_in_spec c ex k l :
  keyed (c_leases c) → c_leases c !! k = Some l → k ∉ ex →
  occupying_in (open_binding_leases c) ex l = occupies c k.
Proof.
  intros Hk Hl Hex. unfold occupying_in, occupies.
  rewrite Hl, (Hk _ _ Hl), (bool_decide_false (k ∈ ex)) by done. simpl.
  by rewrite open_bindings_decide.
Qed.

Lemma charged_in_spec c ex k l :
  keyed (c_leases c) → c_leases c !! k = Some l →
  (∀ j, j ∈ ex → c_leases c !! j = None) →
  charged_in (c_leases c) (open_binding_leases c) ex l
  = lg_charged (ledger_of c) k (lease_core l).
Proof.
  intros Hk Hl Hex. unfold charged_in, lg_charged. cbn [ledger_of lg_occ lease_core core_parent].
  assert (∀ j lj, c_leases c !! j = Some lj →
    occupying_in (open_binding_leases c) ex lj = bool_decide (j ∈ occ_set c)) as Hocc.
  { intros j lj Hj. rewrite (occupying_in_spec c ex j lj) by
      (done || intros ?%Hex; congruence).
    apply eq_true_iff_eq. by rewrite bool_decide_eq_true, elem_of_occ_set. }
  rewrite (Hocc _ _ Hl). f_equal. destruct (lease_parent l) as [p|]; [|done].
  destruct (c_leases c !! p) as [lp|] eqn:Hp; [by rewrite (Hocc _ _ Hp)|].
  rewrite bool_decide_false; [done|]. rewrite elem_of_occ_set. intros [? ?]%occupies_Some.
  congruence.
Qed.

Lemma total_used_ledger c ex n d :
  keyed (c_leases c) → (∀ j, j ∈ ex → c_leases c !! j = None) →
  total_used (c_leases c) (open_binding_leases c) ex n d = lg_total (ledger_of c) n d.
Proof.
  intros Hk Hex. unfold lg_total. cbn [ledger_of lg_core].
  unfold sum_map at 1. rewrite sum_map_fmap. apply sum_map_ext. intros k l Hl.
  unfold charge_of. by rewrite (charged_in_spec c ex k l).
Qed.

Lemma children_used_ledger c p id n d :
  keyed (c_leases c) → c_leases c !! id = None →
  children_used (c_leases c) (open_binding_leases c) p id n d = lg_kids (ledger_of c) p n d.
Proof.
  intros Hk Hid. unfold lg_kids. cbn [ledger_of lg_core].
  unfold sum_map at 1. rewrite sum_map_fmap. apply sum_map_ext. intros k l Hl.
  unfold child_charge, lg_kid. cbn [ledger_of lg_occ lease_core core_parent].
  assert ((lease_id l =? id) = false) as ->.
  { apply N.eqb_neq. rewrite (Hk _ _ Hl). congruence. }
  assert (lease_occupies l (bool_decide (lease_id l ∈ open_binding_leases c))
          = bool_decide (k ∈ occ_set c)) as ->; [|done].
  rewrite open_bindings_decide. apply eq_true_iff_eq.
  rewrite bool_decide_eq_true, elem_of_occ_set. unfold occupies. by rewrite Hl.
Qed.

(** ** Exactness of the computed occupancy *)

Lemma node_cap_u64 g n d : caps_u64 g → node_cap g n d < u64_modulus.
Proof.
  intros Hcap. unfold node_cap, graph_node. destruct (g_nodes g !! n) as [nd|] eqn:Hn; [|done].
  apply Hcap in Hn. unfold node_u64 in Hn. by apply quantity_u64_get.
Qed.

Lemma occupancy_exact c ex n d :
  cluster_inv c → (∀ j, j ∈ ex → c_leases c !! j = None) →
  occ_amount (occupancy_from_leases (bt_values (c_leases c)) (open_binding_leases c) ex) n d
  = lg_total (ledger_of c) n d.
Proof.
  intros Hinv Hex. rewrite occupancy_amount by apply (ci_keyed _ Hinv).
  rewrite total_used_ledger by (done || apply (ci_keyed _ Hinv)). apply N.mod_small.
  eapply N.le_lt_trans; [apply (li_cap _ _ (ci_ledger _ Hinv))|].
  apply node_cap_u64, (ci_caps _ Hinv).
Qed.

Lemma claims_amount_u64 claims n d :
  (∀ cl, cl ∈ claims → quantity_u64 (claim_quantity cl) = true) →
  claims_amount claims n d < u64_modulus.
Proof.
  intros Hu. apply (N.le_lt_trans _ u64_max); [|unfold u64_max, u64_modulus; lia].
  apply claims_amount_le. intros cl Hcl _. pose proof (Hu cl Hcl) as Hq.
  rewrite quantity_u64_get in Hq. specialize (Hq d). unfold u64_max. lia.
Qed.

Lemma subtree_exact c p l id n d :
  cluster_inv c → c_leases c !! p = Some l → c_leases c !! id = None →
  occ_amount (subtree_used (c_leases c) (open_binding_leases c) p id) n d
  = lg_kids (ledger_of c) p n d.
Proof.
  intros Hinv Hp Hid. rewrite subtree_used_sum.
  rewrite children_used_ledger by (done || apply (ci_keyed _ Hinv)). apply N.mod_small.
  eapply N.le_lt_trans; [apply (li_kids _ _ (ci_ledger _ Hinv) p (lease_core l))|].
  - simpl. by rewrite lookup_fmap, Hp.
  - apply claims_amount_u64. intros cl Hcl.
    by destruct (co_claim _ _ (ci_claims _ Hinv _ _ Hp) cl Hcl) as (_ & ? & _).
Qed.

(** ** The initial state *)

Lemma cluster_new_inv : cluster_inv cluster_new.
Proof.
  split; try (repeat intro; cbn in *; simplify_map_eq; fail).
  - apply graph_new_wf.
  - done.
  - intros x. exists 0%nat. constructor. by apply lease_parents_empty.
  - assert (ledger_of cluster_new = mkLedger ∅ ∅) as ->; [|apply ledger_empty_inv].
    unfold ledger_of, occ_set. simpl. by rewrite fmap_empty, map_filter_empty, dom_empty_L.
Qed.
