(* ===== verification/Steps.v ===== *)
(** * Elementary steps of the cluster state machine

    Every command of cluster.rs is a sequence of the steps below.  Safety
    properties are proved once per elementary step (Safety.v) and hold of
    every command by the simulation [dispatch_ksteps]. *)

From S2P Require Import Prelude.
From S2P Require Import Identifier.
From S2P Require Import Types.
From S2P Require Import Graph.
From S2P Require Import GraphFacts.
From S2P Require Import Occupancy.
From S2P Require Import Command.
From S2P Require Import Cluster.
From S2P Require Import Ledger.
From S2P Require Import LeaseTree.
From S2P Require Import Handlers.
From S2P Require Import ClusterInv.

(** The state machine of one lease.  [Completed] is the only terminal state
    that a later command may overwrite (with another terminal state). *)
Inductive lease_move : LeaseState → LeaseState → Prop :=
| lm_same s : lease_move s s
| lm_promote : lease_move LReserved LPreparing
| lm_activate : lease_move LPreparing LActive
| lm_end s s' : is_live_state s = true → is_live_state s' = false → lease_move s s'
| lm_overwrite s' : is_live_state s' = false → lease_move LCompleted s'.

(** What no command changes of a lease once it is stored. *)
Definition same_lease (l l' : Lease) : Prop :=
  lease_id l' = lease_id l ∧ lease_owner l' = lease_owner l ∧ lease_parent l' = lease_parent l
  ∧ lease_claims l' = lease_claims l ∧ lease_priority l' = lease_priority l.

Definition same_binding (b b' : Binding) : Prop :=
  binding_id b' = binding_id b ∧ binding_lease b' = binding_lease b
  ∧ binding_node b' = binding_node b ∧ binding_provider b' = binding_provider b
  ∧ binding_scope b' = binding_scope b ∧ binding_fence b' = binding_fence b.

(** The state machine of one binding; closing takes the acknowledgement of
    the current session of the machine that holds it. *)
Inductive binding_move (c : Cluster) (b b' : Binding) : Prop :=
| bm_same : binding_state b' = binding_state b → binding_move c b b'
| bm_activate l :
    binding_state b = BPreparing → binding_state b' = BActive →
    c_leases c !! binding_lease b = Some l → lease_state l = LActive → binding_move c b b'
| bm_fail : is_closed (binding_state b) = false → binding_state b' = BFailed → binding_move c b b'
| bm_close m :
    is_closed (binding_state b') = true →
    machine_of (c_graph c) (binding_node b) = Some m →
    c_sessions c !! m = Some (binding_session b') → binding_move c b b'.

(** Graph changes that leave resources, topology and contracts alone. *)
Definition same_resources (g g' : Graph) : Prop :=
  g_nodes g' = g_nodes g ∧ g_edges g' = g_edges g ∧ g_parent g' = g_parent g
  ∧ g_claim_bindings g' = g_claim_bindings g ∧ g_revision g' = g_revision g.

Definition childless (c : Cluster) (id : LeaseId) : Prop :=
  ∀ k l, c_leases c !! k = Some l → lease_parent l = Some id → occupies c k = false.

(** The claims of a new lease were resolved against the current graph. *)
Definition resolved_claims (g : Graph) (claims : list Claim) : Prop :=
  NoDup (claim_node <$> claims)
  ∧ ∀ cl, cl ∈ claims → quantity_u64 (claim_quantity cl) = true
      ∧ ∃ cl0, resolve_claim g cl0 = Ok cl.

Inductive kstep (c : Cluster) : Cluster → Prop :=
| k_graph g :
    graph_wf g → claims_valid g → caps_u64 g →
    dom (g_nodes (c_graph c)) ⊆ dom (g_nodes g) →
    g_revision g = sat_add (g_revision (c_graph c)) 1 →
    exceeds_capacity (occupancy c) g = Ok None →
    (∀ k l cl, c_leases c !! k = Some l → occupies c k = true → cl ∈ lease_claims l →
       machine_of g (claim_node cl) = machine_of (c_graph c) (claim_node cl)) →
    kstep c (set_graph g c)
| k_facts g :
    graph_wf g → same_resources (c_graph c) g → kstep c (set_graph g c)
| k_admit id l :
    c_leases c !! id = None → lease_id l = id →
    lease_state l = LReserved ∨ lease_state l = LPreparing →
    resolved_claims (c_graph c) (lease_claims l) →
    check_not_quarantined c (lease_claims l) = Ok () →
    match lease_parent l with
    | Some p => check_child c id p (lease_claims l) = Ok ()
    | None => check_cover c id (lease_claims l) = Ok ()
    end →
    kstep c (set_leases (<[id := l]> (c_leases c)) c)
| k_lease id l l' :
    c_leases c !! id = Some l → same_lease l l' →
    lease_move (lease_state l) (lease_state l') →
    (is_live_state (lease_state l') = true ∨ lease_parent l = None ∨ childless c id) →
    kstep c (set_leases (<[id := l']> (c_leases c)) c)
| k_open id b l fences :
    c_bindings c !! id = None → binding_id b = id → binding_state b = BPreparing →
    c_leases c !! binding_lease b = Some l → lease_state l = LPreparing →
    lease_parent l = None →
    (∃ cl, cl ∈ lease_claims l ∧ claim_node cl = binding_node b) →
    conflicting_endpoint c (binding_node b) (binding_provider b) (binding_scope b) = false →
    next_fence c id (binding_node b) (binding_provider b) (binding_scope b)
    = (binding_fence b, fences) →
    kstep c (set_bindings (<[id := b]> (c_bindings c)) (set_last_fence fences c))
| k_binding id b b' :
    c_bindings c !! id = Some b → same_binding b b' → binding_move c b b' →
    kstep c (set_bindings (<[id := b']> (c_bindings c)) c)
| k_session m s :
    (∀ s0, c_sessions c !! m = Some s0 → s0 ≤ s) →
    kstep c (set_sessions (<[m := s]> (c_sessions c)) c)
| k_watermark endpoint f :
    default 0 (c_last_fence c !! endpoint) ≤ f →
    kstep c (set_last_fence (<[endpoint := f]> (c_last_fence c)) c)
| k_nodes ns :
    (∀ n, is_Some (g_nodes (c_graph c) !! n) → c_node_states c !! n = Some NRetired →
       ns !! n = Some NRetired) →
    kstep c (set_node_states ns c).

#[export] Hint Constructors lease_move : archon.

(** A handler of which every success is a sequence of elementary steps. *)
Definition simulated {A} (c : Cluster) (m : M A) : Prop :=
  ∀ c' a, m c = (c', Ok a) → rtc kstep c c'.

(** ** Graph commands *)

Lemma machine_moved_None g staged l :
  machine_moved g staged l = None →
  ∀ cl, cl ∈ lease_claims l → machine_of staged (claim_node cl) = machine_of g (claim_node cl).
Proof.
  unfold machine_moved. destruct (List.find _ _) eqn:Hf; [done|]. intros _ cl Hcl.
  apply find_none_elem with (x := cl) in Hf; [|done].
  by apply negb_false_iff, bool_decide_eq_true in Hf.
Qed.

Lemma nodes_from_caps g g' nodes :
  caps_u64 g → nodes_from g g' nodes → forallb node_u64 nodes = true → caps_u64 g'.
Proof.
  intros Hcap [Hfrom _] Hu id n [Hn|Hn]%Hfrom; [by eapply Hcap|].
  rewrite forallb_elem in Hu. by apply Hu.
Qed.

(** What an accepted update of the resource graph has checked. *)
Lemma install_result g c c' es :
  install_resource_graph g c = (c', Ok es) →
  c' = set_graph g c ∧ es = [] ∧ exceeds_capacity (occupancy c) g = Ok None
  ∧ ∀ k l cl, c_leases c !! k = Some l → occupies c k = true → cl ∈ lease_claims l →
      machine_of g (claim_node cl) = machine_of (c_graph c) (claim_node cl).
Proof.
  intros Hrun. unfold install_resource_graph in Hrun. run Hrun. split_and!; [done..|].
  intros k l cl Hl Ho Hcl. rename select (try_for _ _ = _) into Hfor.
  rewrite try_for_Ok in Hfor. specialize (Hfor l).
  rewrite list_elem_of_In, filter_In, <-list_elem_of_In in Hfor.
  destruct (machine_moved (c_graph c) g l) as [n|] eqn:Hm; [|by eapply machine_moved_None].
  unfold occupies in Ho. rewrite Hl in Ho. rewrite open_bindings_decide in Hfor.
  specialize (Hfor ltac:(split; [apply elem_of_bt_values; eauto|done])). done.
Qed.

Lemma install_simulated c g nodes :
  cluster_inv c → graph_wf g → claims_valid g → nodes_from (c_graph c) g nodes →
  forallb node_u64 nodes = true →
  g_revision g = sat_add (g_revision (c_graph c)) 1 →
  simulated c (install_resource_graph g).
Proof.
  intros Hinv Hwf Hcv Hfrom Hu Hrev c' a (-> & _ & Hocc & Hm)%install_result.
  apply rtc_once, k_graph; [done|done| |apply Hfrom|done|done|done].
  eapply nodes_from_caps; [apply (ci_caps _ Hinv)|done..].
Qed.

Lemma forallb_batches batches :
  forallb (λ b, forallb node_u64 (batch_nodes b)) batches
  = forallb node_u64 (batches ≫= batch_nodes).
Proof.
  induction batches as [|b bs IH]; [done|]. simpl. rewrite IH. by rewrite forallb_app.
Qed.

Lemma adopt_same_resources g assignments g' :
  graph_adopt_fact_writers g assignments = Ok g' → same_resources g g'.
Proof. intros (nw & ew & ->)%graph_adopt_fact_writers_shape. done. Qed.

Lemma observation_same_resources g id key value g' :
  set_observation g id key value = Some g' → same_resources g g'.
Proof. intros [o ->]%set_observation_shape. done. Qed.

Section graph_commands.
Context (c : Cluster) (Hinv : cluster_inv c).

Lemma staged_simulated (r : result Error Graph) nodes :
  (∀ g, r = Ok g → graph_wf g ∧ claims_valid g ∧ nodes_from (c_graph c) g nodes
     ∧ g_revision g = sat_add (g_revision (c_graph c)) 1) →
  forallb node_u64 nodes = true →
  simulated c (staged ← lift r; install_resource_graph staged).
Proof.
  intros Hr Hu c' a Hrun. rewrite bind_lift in Hrun. destruct r as [g|]; [|done].
  destruct (Hr g eq_refl) as (Hwf & Hcv & Hfrom & Hrev). revert c' a Hrun.
  by apply (install_simulated c g nodes).
Qed.

Lemma agreed_simulated {A} (m : M A) : simulated c m → simulated c (_ ← require_agreed; m).
Proof. intros Hm c' a. rewrite bind_agreed. destruct (c_agreed c); [apply Hm|done]. Qed.

Lemma apply_graph_simulated nodes edges :
  forallb node_u64 nodes = true → simulated c (apply_graph nodes edges).
Proof.
  intros Hu. apply agreed_simulated, (staged_simulated _ nodes); [|done]. intros g Hg.
  by destruct (graph_apply_spec _ _ _ _ (ci_graph _ Hinv) Hg) as (? & ? & ? & ? & _).
Qed.

Lemma apply_resource_facts_simulated nodes edges updates :
  forallb node_u64 nodes = true → simulated c (apply_resource_facts nodes edges updates).
Proof.
  intros Hu. apply agreed_simulated, (staged_simulated _ nodes); [|done].
  intros g. apply graph_apply_resource_facts_spec, (ci_graph _ Hinv).
Qed.

Lemma apply_provider_facts_simulated batches updates :
  forallb (λ b, forallb node_u64 (batch_nodes b)) batches = true →
  simulated c (apply_provider_facts batches updates).
Proof.
  rewrite forallb_batches. intros Hu.
  apply agreed_simulated, (staged_simulated _ (batches ≫= batch_nodes)); [|done].
  intros g. apply graph_apply_provider_facts_spec, (ci_graph _ Hinv).
Qed.

Lemma adopt_fact_writers_simulated assignments : simulated c (adopt_fact_writers assignments).
Proof.
  intros c' a Hrun. unfold adopt_fact_writers in Hrun. run Hrun.
  apply rtc_once, k_facts; [|by eapply adopt_same_resources].
  eapply graph_adopt_fact_writers_spec; [apply (ci_graph _ Hinv)|done].
Qed.

Lemma set_node_health_simulated node health : simulated c (set_node_health node health).
Proof.
  intros c' a Hrun. unfold set_node_health in Hrun. run Hrun.
  apply rtc_once, k_facts; [|by eapply observation_same_resources].
  rename select (set_observation _ _ _ _ = _) into Ho.
  apply set_observation_shape in Ho as [o ->]. apply wf_set_observations, (ci_graph _ Hinv).
Qed.
End graph_commands.

(** ** Admission *)

Lemma resolve_claim_u64 g cl cl' :
  caps_u64 g → quantity_u64 (claim_quantity cl) = true → resolve_claim g cl = Ok cl' →
  quantity_u64 (claim_quantity cl') = true.
Proof.
  intros Hcap Hu Hrun. unfold resolve_claim, graph_node in Hrun.
  apply bind_Ok_inv in Hrun as (nd & Hnd%ok_or_Ok & Hrun).
  apply bind_Ok_inv in Hrun as (b & _ & Hrun). simplify_eq. simpl.
  case_bool_decide; [|done]. by apply (Hcap _ _ Hnd).
Qed.

Lemma resolve_new_claims_Ok g claims rs :
  caps_u64 g → claims_u64 claims = true → resolve_new_claims g claims = Ok rs →
  resolved_claims g rs.
Proof.
  intros Hcap Hu Hrun. unfold claims_u64 in Hu. rewrite forallb_elem in Hu.
  unfold resolve_new_claims in Hrun. apply bind_Ok_inv in Hrun as ([rs' seen] & Hfold & Hrun).
  simplify_eq. set (step := λ _, _) in Hfold.
  apply (try_fold_ind (λ acc : list Claim * gset N,
    resolved_claims g acc.1 ∧ ∀ n, n ∈ claim_node <$> acc.1 → n ∈ acc.2) step claims) in Hfold.
  - apply Hfold.
  - split; [split; [constructor|]|]; intros x Hx; by apply elem_of_nil in Hx.
  - intros [rs0 seen0] cl [rs1 seen1] Hcl [[Hnd Hres] Hseen] Hstep. unfold step in Hstep.
    destruct (decide (claim_node cl ∈ seen0)) as [|Hnew]; [done|].
    apply bind_Ok_inv in Hstep as (r & Hr & Hstep). simplify_eq. cbn [fst snd] in *.
    pose proof (resolve_claim_Ok _ _ _ Hr) as (Hnode & _).
    split; [split|].
    + rewrite fmap_app. apply NoDup_app. split_and!; [done| |apply NoDup_singleton].
      intros n Hn ->%list_elem_of_singleton. apply Hnew. rewrite <-Hnode. by apply Hseen.
    + intros x [Hx| ->%list_elem_of_singleton]%elem_of_app; [by apply Hres|].
      split; [|eauto]. eapply resolve_claim_u64; [done|by apply Hu|done].
    + intros n. rewrite fmap_app, elem_of_app. intros [Hn%Hseen| ->%list_elem_of_singleton];
        [set_solver|]. rewrite Hnode. set_solver.
Qed.

Section admission.
Context (c : Cluster) (Hinv : cluster_inv c).

Lemma reserve_lease_simulated id owner allocation expires_at priority :
  claims_u64 (alloc_claims allocation) = true →
  simulated c (reserve_lease id owner allocation expires_at priority).
Proof.
  intros Hu c' a Hrun. unfold reserve_lease in Hrun. run Hrun; [reflexivity|].
  apply rtc_once, k_admit; simpl; auto.
  eapply resolve_new_claims_Ok; [apply (ci_caps _ Hinv)|done..].
Qed.

Lemma open_lease_simulated id owner allocation parent expires_at deadline priority :
  claims_u64 (alloc_claims allocation) = true →
  simulated c (open_lease id owner allocation parent expires_at deadline priority).
Proof.
  intros Hu c' a Hrun. unfold open_lease in Hrun.
  rewrite bind_agreed in Hrun. destruct (c_agreed c); [|done]. rewrite bind_get in Hrun.
  destruct (c_leases c !! id) eqn:Hid; [run Hrun; reflexivity|].
  rewrite bind_guard in Hrun. destruct (_ =? _); [|done].
  rewrite bind_lift in Hrun. destruct (resolve_new_claims _ _) as [rs|] eqn:Hrs; [|done].
  rewrite bind_lift in Hrun. destruct (check_not_quarantined _ _) as [[]|] eqn:Hq; [|done].
  rewrite bind_lift in Hrun.
  assert (∃ u, match parent with
               | Some p => check_child c id p rs | None => check_cover c id rs end = Ok u)
    as [[] Hfit].
  { destruct parent; [destruct (check_child _ _ _ _); [eauto|done]|].
    destruct (check_cover _ _ _); [eauto|done]. }
  rewrite Hfit in Hrun. run Hrun. apply rtc_once, k_admit; simpl; auto.
  - eapply resolve_new_claims_Ok; [apply (ci_caps _ Hinv)|done..].
  - by destruct parent.
Qed.

(** Re-resolving the claims of a stored lease does not change them. *)
Lemma reresolve_stored id l claims :
  c_leases c !! id = Some l →
  try_map (resolve_claim (c_graph c)) (lease_claims l) = Ok claims → claims = lease_claims l.
Proof.
  intros Hl Hmap%try_map_Forall2.
  pose proof (co_claim _ _ (ci_claims _ Hinv _ _ Hl)) as Hok.
  induction Hmap as [|x y xs ys Hx Hxs IH]; [done|].
  f_equal; [|apply IH; intros; apply Hok; by right].
  destruct (Hok x ltac:(by left)) as (Hne & _).
  apply resolve_claim_Ok in Hx as (_ & _ & _ & _ & Heq). by apply Heq.
Qed.

Lemma alter_lookup_insert {A} (f : A → A) (m : gmap N A) k x :
  m !! k = Some x → alter f k m = <[k := f x]> m.
Proof. intros Hk. apply map_eq. intros j. by rewrite lookup_alter, lookup_insert, Hk. Qed.

Lemma promote_lease_simulated id deadline : simulated c (promote_lease id deadline).
Proof.
  intros c' a Hrun. unfold promote_lease in Hrun. run Hrun; [reflexivity|].
  rename select (c_leases c !! id = Some _) into Hl.
  rename select (try_map _ _ = _) into Hmap. apply (reresolve_stored _ _ _ Hl) in Hmap as ->.
  rename select (negb _ = false) into Hs. apply negb_false_iff, bool_decide_eq_true in Hs.
  rewrite (alter_lookup_insert _ _ _ _ Hl). eapply rtc_once, k_lease; [done|done| |by left].
  rewrite Hs. constructor.
Qed.

Lemma activate_lease_simulated id : simulated c (activate_lease id).
Proof.
  intros c' a Hrun. unfold activate_lease in Hrun.
  rewrite bind_agreed in Hrun. destruct (c_agreed c); [|done].
  rewrite bind_get_lease in Hrun. destruct (c_leases c !! id) as [l|] eqn:Hl; [|done].
  destruct (bool_decide (lease_state l = LActive)); [run Hrun; reflexivity|].
  destruct (negb _) eqn:Hs; [done|]. apply negb_false_iff, bool_decide_eq_true in Hs.
  rewrite bind_get in Hrun. do 5 (rewrite ?bind_guard, ?bind_lift in Hrun;
    match type of Hrun with (match ?x with _ => _ end) = _ => destruct x; [|done] end).
  do 2 (rewrite ?bind_guard, ?bind_lift in Hrun;
    match type of Hrun with (match ?x with _ => _ end) = _ => destruct x; [|done] end).
  rewrite bind_update_lease, run_ret in Hrun. simplify_eq.
  rewrite (alter_lookup_insert _ _ _ _ Hl). eapply rtc_once, k_lease; [done|done| |by left].
  rewrite Hs. constructor.
Qed.

Lemma renew_lease_simulated id new_expires_at : simulated c (renew_lease id new_expires_at).
Proof.
  intros c' a Hrun. unfold renew_lease in Hrun. run Hrun; [reflexivity|].
  rename select (c_leases c !! id = Some _) into Hl.
  rewrite (alter_lookup_insert _ _ _ _ Hl). eapply rtc_once, k_lease; [done|done|constructor|].
  left. rename select (negb _ = false) into Hs.
  apply negb_false_iff, bool_decide_eq_true in Hs. simpl.
  by repeat (apply elem_of_cons in Hs as [->|Hs]; [done|]); apply elem_of_nil in Hs.
Qed.
End admission.

(** ** Ending leases *)

(** The marks used by the terminating commands. *)
Record stops (stop : LeaseState → bool) (s : LeaseState) : Prop := {
  stops_self : stop s = true;
  stops_dead : ∀ x, stop x = true → is_live_state x = false;
  stops_move : ∀ x, stop x = false → lease_move x s;
}.

Lemma stops_ended s : ended s = true → stops ended s.
Proof.
  intros Hs. assert (is_live_state s = false) by (by destruct s). split; [done| |].
  - by intros [].
  - intros []; simpl; try done; intros _; auto with archon.
Qed.

Lemma stops_completed s : ended_or_completed s = true → stops ended_or_completed s.
Proof.
  intros Hs. assert (is_live_state s = false) by (by destruct s). split; [done| |].
  - by intros [].
  - intros []; try done; intros _; auto with archon.
Qed.

Lemma mark_same stop s l : same_lease l (mark_unless stop s l).
Proof. unfold mark_unless. by destruct (stop _). Qed.

Lemma mark_dead stop s l : stops stop s → is_live_state (lease_state (mark_unless stop s l)) = false.
Proof.
  intros Hst. unfold mark_unless. destruct (stop (lease_state l)) eqn:E.
  - by apply (stops_dead _ _ Hst).
  - simpl. apply (stops_dead _ _ Hst), (stops_self _ _ Hst).
Qed.

Lemma mark_move stop s l : stops stop s → lease_move (lease_state l) (lease_state (mark_unless stop s l)).
Proof.
  intros Hst. unfold mark_unless. destruct (stop (lease_state l)) eqn:E; [constructor|].
  by apply (stops_move _ _ Hst).
Qed.

(** Updates that keep the identity of a lease. *)
Section update.
Context (c : Cluster) (id : LeaseId) (l l' : Lease).
Context (Hl : c_leases c !! id = Some l) (Hsame : same_lease l l').
Local Abbreviation c' := (set_leases (<[id := l']> (c_leases c)) c).

Lemma update_keyed : keyed (c_leases c) → keyed (c_leases c').
Proof.
  intros Hk k x. simpl. rewrite lookup_insert. case_decide; [|apply Hk].
  intros [= <-]. destruct Hsame as [-> _]. subst. by apply Hk.
Qed.

Lemma update_parents : lease_parents (c_leases c') = lease_parents (c_leases c).
Proof.
  apply map_eq. intros k. rewrite !lease_parents_lookup. simpl. rewrite lookup_insert.
  case_decide; [|done]. subst. rewrite Hl. simpl. by destruct Hsame as (_ & _ & -> & _).
Qed.

Lemma update_binds : binds_on_roots c → binds_on_roots c'.
Proof.
  intros Hb k b Hk. destruct (Hb k b Hk) as (Hid & x & Hx & Hpar & Hcl). split; [done|].
  simpl. rewrite lookup_insert. case_decide; [|eauto]. subst. exists l'.
  assert (x = l) as -> by congruence. destruct Hsame as (_ & _ & -> & -> & _). eauto.
Qed.
End update.

Lemma children_first_ext leases leases' seen l :
  lease_parents leases' = lease_parents leases →
  children_first leases seen l → children_first leases' seen l.
Proof.
  intros Heq. revert seen. induction l as [|x l IH]; intros seen; cbn [children_first]; [done|].
  rewrite Heq. intros [Hx Hl]. split; [done|by apply IH].
Qed.

(** A child lease holds no binding: it occupies only while live. *)
Lemma child_occupies c k l p :
  keyed (c_leases c) → binds_on_roots c → c_leases c !! k = Some l → lease_parent l = Some p →
  occupies c k = is_live_state (lease_state l).
Proof.
  intros Hk Hb Hl Hp. rewrite (occupies_lookup c k l) by done.
  destruct (open_bindings c k) eqn:Ho; [|by rewrite orb_false_r].
  apply open_bindings_true in Ho as (j & b & Hj & <- & _).
  destruct (Hb _ _ Hj) as (_ & x & Hx & Hroot & _). congruence.
Qed.

(** The descendant loop is a sequence of steps: by the time a lease is ended
    none of its children occupies. *)
Lemma mark_steps stop s ids seen c :
  stops stop s → keyed (c_leases c) → binds_on_roots c →
  children_first (c_leases c) seen ids →
  (∀ y l, y ∈ seen → c_leases c !! y = Some l → is_live_state (lease_state l) = false) →
  rtc kstep c (set_leases (mark_all stop s ids (c_leases c)) c).
Proof.
  intros Hst. revert seen c. induction ids as [|d ids IH]; intros seen c Hk Hb Hord Hseen.
  { unfold mark_all. simpl. rewrite set_leases_id. reflexivity. }
  destruct Hord as [Hd Hord]. unfold mark_all. cbn [foldl].
  destruct (c_leases c !! d) as [l|] eqn:Hl.
  - rewrite (alter_lookup_insert _ _ _ _ Hl). set (l' := mark_unless stop s l).
    pose proof (mark_same stop s l) as Hsame.
    eapply rtc_l.
    + apply (k_lease c d l l'); [done|done|by apply mark_move|]. right. right.
      intros k x Hx Hp. rewrite (child_occupies c k x d) by done.
      apply (Hseen k x); [|done]. apply Hd, lease_parents_Some. eauto.
    + set (c1 := set_leases _ c).
      apply (IH (d :: seen) c1).
      * by apply (update_keyed c d l l').
      * by apply (update_binds c d l l').
      * eapply children_first_ext; [|exact Hord]. by apply (update_parents c d l l').
      * intros y x. simpl. rewrite lookup_insert, elem_of_cons. case_decide.
        -- intros _ [= <-]. by apply mark_dead.
        -- intros [->|Hy]; [done|by apply Hseen].
  - assert (alter (mark_unless stop s) d (c_leases c) = c_leases c) as ->.
    { apply map_eq. intros j. rewrite lookup_alter. case_decide; [|done]. subst. by rewrite Hl. }
    apply (IH (d :: seen) c); [done..|]. intros y x [->|Hy]%elem_of_cons; [congruence|by apply Hseen].
Qed.

(** A lease and everything below it, children first. *)
Definition lease_tree (c : Cluster) (id : LeaseId) : list LeaseId :=
  descendants_postorder c id ++ [id].

Definition end_tree (stop : LeaseState → bool) (s : LeaseState) (id : LeaseId) (c : Cluster)
    : Cluster :=
  set_leases (mark_all stop s (lease_tree c id) (c_leases c)) c.

Section ending.
Context (c : Cluster) (Hinv : cluster_inv c).

Lemma dead_parent_impossible id k l :
  c_leases c !! id = None → c_leases c !! k = Some l → lease_parent l ≠ Some id.
Proof.
  intros Hid Hk Hp.
  destruct (li_parent _ _ (ci_ledger _ Hinv) k (lease_core l) id) as [[x Hx] _]; [|done|].
  - apply ledger_lookup. eauto.
  - apply ledger_lookup in Hx as (lx & Hlx & _). congruence.
Qed.

Lemma elem_of_descendants id k :
  k ∈ descendants_postorder c id ↔ under (c_leases c) id k.
Proof. apply elem_of_below; apply Hinv. Qed.

Lemma under_Some id k : under (c_leases c) id k → is_Some (c_leases c !! k).
Proof.
  unfold under. intros Hu. inversion Hu as [? ? Hp|? ? ? Hp _]; subst;
    apply lease_parents_Some in Hp as (l & Hl & _); eauto.
Qed.

Lemma descendants_Some id k : k ∈ descendants_postorder c id → is_Some (c_leases c !! k).
Proof. rewrite elem_of_descendants. apply under_Some. Qed.

Lemma descendants_irrefl id : id ∉ descendants_postorder c id.
Proof. apply below_irrefl; apply Hinv. Qed.

(** Nothing lies below a lease that does not exist. *)
Lemma descendants_unknown id : c_leases c !! id = None → descendants_postorder c id = [].
Proof.
  intros Hid. apply elem_of_nil_inv. intros k [j [_ Hj]]%elem_of_descendants%under_last.
  apply lease_parents_Some in Hj as (l & Hl & Hp). by eapply dead_parent_impossible.
Qed.

Lemma lease_tree_children_first id : children_first (c_leases c) [] (lease_tree c id).
Proof.
  unfold lease_tree. rewrite children_first_app. split; [apply below_children_first; apply Hinv|].
  split; [|done]. intros y Hy. rewrite app_nil_r, elem_of_reverse.
  apply elem_of_descendants. by apply tc_once.
Qed.

Lemma end_tree_steps stop s id : stops stop s → rtc kstep c (end_tree stop s id c).
Proof.
  intros Hst. apply (mark_steps stop s _ []); [done|apply Hinv|apply Hinv|
    apply lease_tree_children_first|]. by intros y l ?%elem_of_nil.
Qed.

Lemma mark_all_snoc stop s ids id leases :
  alter (mark_unless stop s) id (mark_all stop s ids leases) = mark_all stop s (ids ++ [id]) leases.
Proof. unfold mark_all. by rewrite foldl_app. Qed.

Lemma mark_all_own stop s id :
  stop s = true →
  mark_all stop s (descendants_postorder c id) (c_leases c) !! id = c_leases c !! id.
Proof.
  intros Hs. rewrite mark_all_lookup by done. rewrite decide_False; [done|].
  apply descendants_irrefl.
Qed.

Lemma alter_id_lookup (f : Lease → Lease) (g : Lease → Lease) (m : gmap N Lease) id l :
  m !! id = Some l → f l = g l → alter f id m = alter g id m.
Proof.
  intros Hl Heq. apply map_eq. intros k. rewrite !lookup_alter.
  case_decide; [|done]. subst. rewrite Hl. simpl. by rewrite Heq.
Qed.

Lemma alter_alter (f g : Lease → Lease) (m : gmap N Lease) id :
  alter f id (alter g id m) = alter (λ l, f (g l)) id m.
Proof.
  apply map_eq. intros k. rewrite !lookup_alter.
  destruct (decide (id = k)) as [->|]; [|done]. rewrite decide_True by done.
  by destruct (m !! k).
Qed.

Lemma alter_skip (f : Lease → Lease) (m : gmap N Lease) id l :
  m !! id = Some l → f l = l → alter f id m = m.
Proof.
  intros Hl Heq. apply map_eq. intros k. rewrite lookup_alter.
  case_decide; [|done]. subst. rewrite Hl. simpl. by rewrite Heq.
Qed.

(** Closed forms of the terminating commands on a consistent state. *)
Lemma fail_lease_run id reason :
  fail_lease id reason c
  = match c_leases c !! id with
    | None => (c, Err (UnknownLease id))
    | Some l =>
        (end_tree ended LFailed id c,
         Ok ((descendants_postorder c id ≫= fence_effects c)
             ++ if ended (lease_state l) then [] else fence_effects c id))
    end.
Proof.
  unfold fail_lease. rewrite bind_get, bind_run, end_descendants_run, bind_get_lease.
  cbn [c_leases set_leases]. rewrite mark_all_own by done.
  destruct (c_leases c !! id) as [l|] eqn:Hl.
  - pose proof (mark_all_own ended LFailed id eq_refl) as Hown. rewrite Hl in Hown.
    unfold end_tree, lease_tree. rewrite <-mark_all_snoc.
    destruct (ended (lease_state l)) eqn:He.
    + rewrite (alter_skip _ _ _ _ Hown) by (unfold mark_unless; by rewrite He).
      by rewrite app_nil_r.
    + rewrite bind_update_lease, bind_get. cbn [c_leases set_leases].
      rewrite (alter_id_lookup (mark_unless ended LFailed) (lease_with_state LFailed) _ _ _ Hown)
        by (unfold mark_unless; by rewrite He). done.
  - rewrite (descendants_unknown id Hl). unfold mark_all. simpl. by rewrite set_leases_id.
Qed.

Lemma revoke_lease_run id :
  revoke_lease id c
  = match c_leases c !! id with
    | None => (c, Err (UnknownLease id))
    | Some l => (end_tree ended LRevoked id c, Ok (lease_tree c id ≫= fence_effects c))
    end.
Proof.
  unfold revoke_lease. rewrite bind_get, bind_run, revoke_loop_run, bind_get_lease
    by apply descendants_Some.
  cbn [c_leases set_leases]. rewrite mark_all_own by done.
  destruct (c_leases c !! id) as [l|] eqn:Hl.
  - rewrite bind_update_lease, bind_get. unfold end_tree, lease_tree.
    rewrite <-mark_all_snoc, bind_app. cbn [mbind list_bind]. by rewrite app_nil_r.
  - rewrite (descendants_unknown id Hl). unfold mark_all. simpl. by rewrite set_leases_id.
Qed.

Lemma expire_lease_run id :
  expire_lease id c
  = match c_leases c !! id with
    | None => (c, Err (UnknownLease id))
    | Some l =>
        if bool_decide (lease_state l = LExpired) then (c, Ok (fence_effects c id))
        else if negb (is_live_state (lease_state l))
        then (c, Err (LeaseStateError id (lease_state l)))
        else if negb (c_replaying c) && (c_now c <? lease_expires_at l)
        then (c, Err ExpireNotDue)
        else (end_tree ended LExpired id c, Ok (lease_tree c id ≫= fence_effects c))
    end.
Proof.
  unfold expire_lease. rewrite bind_get, bind_get_lease.
  destruct (c_leases c !! id) as [l|] eqn:Hl; [|done].
  destruct (bool_decide _); [done|]. destruct (negb _) eqn:Hlive; [done|].
  destruct (negb _ && _); [done|].
  rewrite bind_run, end_descendants_run, bind_get_lease. cbn [c_leases set_leases].
  pose proof (mark_all_own ended LExpired id eq_refl) as Hown. rewrite Hl in Hown.
  rewrite Hown, bind_update_lease, bind_get. cbn [c_leases set_leases].
  unfold end_tree, lease_tree. rewrite bind_app. cbn [mbind list_bind].
  rewrite app_nil_r, <-mark_all_snoc.
  rewrite (alter_id_lookup (mark_unless ended LExpired) (lease_with_state LExpired) _ _ _ Hown);
    [done|]. unfold mark_unless. by destruct (lease_state l).
Qed.

Lemma complete_lease_run id code :
  complete_lease id code c
  = match c_leases c !! id with
    | None => (c, Err (UnknownLease id))
    | Some l =>
        if bool_decide (lease_state l ∈ [LCompleted; LFailed])
        then (c, Ok (fence_effects c id))
        else if negb (is_live_state (lease_state l))
        then (c, Err (LeaseStateError id (lease_state l)))
        else
          let s := if (code =? 0)%Z then LCompleted else LFailed in
          let ended := end_tree ended_or_completed s id c in
          (set_leases (alter (lease_with_exit code) id (c_leases ended)) ended,
           Ok (lease_tree c id ≫= fence_effects c))
    end.
Proof.
  unfold complete_lease. rewrite bind_get, bind_get_lease.
  destruct (c_leases c !! id) as [l|] eqn:Hl; [|done].
  destruct (bool_decide _); [done|]. destruct (negb _) eqn:Hlive; [done|].
  set (s := if (code =? 0)%Z then LCompleted else LFailed).
  assert (ended_or_completed s = true) as Hs by (unfold s; by destruct (code =? 0)%Z).
  rewrite bind_run, end_descendants_run, bind_get_lease. cbn [c_leases set_leases].
  pose proof (mark_all_own ended_or_completed s id Hs) as Hown. rewrite Hl in Hown.
  rewrite Hown, bind_update_lease, bind_get. cbn [c_leases set_leases].
  unfold end_tree, lease_tree. cbn zeta. rewrite bind_app. cbn [mbind list_bind c_leases set_leases].
  rewrite app_nil_r, <-mark_all_snoc.
  rewrite (alter_id_lookup (mark_unless ended_or_completed s) (lease_with_state s) _ _ _ Hown)
    by (unfold mark_unless; by destruct (lease_state l)).
  by rewrite alter_alter.
Qed.
End ending.

(** ** The remaining lease commands *)

Section ending_steps.
Context (c : Cluster) (Hinv : cluster_inv c).

Lemma fail_lease_simulated id reason : simulated c (fail_lease id reason).
Proof.
  intros c' a. rewrite fail_lease_run by done. destruct (c_leases c !! id); [|done].
  intros [= <- _]. by apply end_tree_steps, stops_ended.
Qed.

Lemma revoke_lease_simulated id : simulated c (revoke_lease id).
Proof.
  intros c' a. rewrite revoke_lease_run by done. destruct (c_leases c !! id); [|done].
  intros [= <- _]. by apply end_tree_steps, stops_ended.
Qed.

Lemma expire_lease_simulated id : simulated c (expire_lease id).
Proof.
  intros c' a. rewrite expire_lease_run by done. intros Hrun. run Hrun; [reflexivity|].
  by apply end_tree_steps, stops_ended.
Qed.

(** After the whole tree is ended, no child of its root occupies. *)
Lemma end_tree_childless stop s id : stops stop s → childless (end_tree stop s id c) id.
Proof.
  intros Hst k l Hl Hp. unfold occupies, lease_occupies. rewrite Hl.
  cbn [end_tree c_leases set_leases] in Hl.
  rewrite mark_all_lookup in Hl by apply (stops_self _ _ Hst).
  assert (∃ l0, c_leases c !! k = Some l0 ∧ lease_parent l0 = Some id
    ∧ lease_id l = lease_id l0) as (l0 & Hl0 & Hp0 & Hid).
  { case_decide; [|eauto]. apply fmap_Some in Hl as (l0 & Hl0 & ->). exists l0.
    unfold mark_unless in *. by destruct (stop _). }
  rewrite decide_True in Hl.
  - rewrite Hl0 in Hl. injection Hl as <-. rewrite mark_dead by done. simpl. rewrite Hid.
    rewrite (ci_keyed _ Hinv _ _ Hl0). unfold end_tree, open_bindings. simpl.
    fold (open_bindings c k). pose proof (child_occupies c k l0 id) as Hocc.
    rewrite (occupies_lookup c k l0) in Hocc by (done || apply Hinv).
    destruct (open_bindings c k) eqn:Ho; [|done].
    apply open_bindings_true in Ho as (j & b & Hj & <- & _).
    destruct (ci_binds _ Hinv _ _ Hj) as (_ & x & Hx & Hroot & _). congruence.
  - unfold lease_tree. rewrite elem_of_app. left. apply elem_of_descendants; [done|].
    apply tc_once, lease_parents_Some. eauto.
Qed.

Lemma complete_lease_simulated id code : simulated c (complete_lease id code).
Proof.
  intros c' a. rewrite complete_lease_run by done. intros Hrun. run Hrun; [reflexivity|].
  set (s := if (code =? 0)%Z then LCompleted else LFailed).
  assert (stops ended_or_completed s) as Hst.
  { apply stops_completed. unfold s. by destruct (code =? 0)%Z. }
  eapply rtc_r; [by apply (end_tree_steps c Hinv ended_or_completed s id)|].
  set (c1 := end_tree _ _ _ _).
  assert (∃ l1, c_leases c1 !! id = Some l1) as [l1 Hl1].
  { unfold c1, end_tree. simpl. rewrite mark_all_lookup by apply (stops_self _ _ Hst).
    rename select (c_leases c !! id = Some _) into Hl. rewrite Hl.
    destruct (decide _); simpl; eauto. }
  cbv zeta in Hrun. fold s c1 in Hrun. injection Hrun as <- _.
  rewrite (alter_lookup_insert _ _ _ _ Hl1).
  apply (k_lease c1 id l1); [done|done|constructor|]. right. right. by apply end_tree_childless.
Qed.

Lemma live_descendants_nil id :
  live_descendants c id = [] → childless c id.
Proof.
  intros Hnil k l Hl Hp. destruct (occupies c k) eqn:Ho; [|done]. exfalso.
  assert (k ∈ live_descendants c id) as Hin; [|rewrite Hnil in Hin; by apply elem_of_nil in Hin].
  unfold live_descendants. rewrite list_elem_of_In, filter_In, <-list_elem_of_In, Hl. split.
  - apply elem_of_descendants; [done|]. apply tc_once, lease_parents_Some. eauto.
  - by rewrite (ci_keyed _ Hinv _ _ Hl).
Qed.

Lemma release_lease_simulated id : simulated c (release_lease id).
Proof.
  intros c' a Hrun. unfold release_lease in Hrun. run Hrun; [reflexivity|].
  rename select (c_leases c !! id = Some _) into Hl.
  rewrite (alter_lookup_insert _ _ _ _ Hl). eapply rtc_once, k_lease; [done|done| |].
  - rename select (negb (bool_decide (_ ∈ _)) = false) into Hs.
    apply negb_false_iff, bool_decide_eq_true in Hs. apply lm_end; [|done].
    by repeat (apply elem_of_cons in Hs as [->|Hs]; [done|]); apply elem_of_nil in Hs.
  - right. right. apply live_descendants_nil.
    rename select (negb (bool_decide (_ = [])) = false) into Hd.
    by apply negb_false_iff, bool_decide_eq_true in Hd.
Qed.
End ending_steps.

(** ** Bindings *)

(** What an acknowledgement establishes. *)
Lemma acknowledged_Ok id session fence c c' b :
  acknowledged id session fence c = (c', Ok b) →
  c' = c ∧ c_bindings c !! id = Some b ∧ binding_fence b = fence
  ∧ ∃ m, machine_of (c_graph c) (binding_node b) = Some m ∧ c_sessions c !! m = Some session.
Proof.
  intros Hrun. unfold acknowledged in Hrun. run Hrun.
  rename select (require_session _ _ _ = _) into Hs.
  rename select (require_fence _ _ _ = _) into Hf.
  unfold require_fence in Hf. destruct (N.eqb_spec (binding_fence b) fence); [|done].
  unfold require_session in Hs. apply bind_Ok_inv in Hs as (m & Hm%ok_or_Ok & Hs).
  apply bind_Ok_inv in Hs as (cur & Hcur%ok_or_Ok & Hs).
  destruct (N.eqb_spec cur session); [|done]. subst. split_and!; eauto.
Qed.

Lemma conflict_find claims node cl :
  List.find (λ claim, claim_node claim =? node) claims = Some cl →
  cl ∈ claims ∧ claim_node cl = node.
Proof. intros [Hin Hn%N.eqb_eq]%find_some_elem. done. Qed.

Section bindings.
Context (c : Cluster).

Lemma open_binding_simulated id lease node provider scope :
  simulated c (open_binding id lease node provider scope).
Proof.
  intros c' a Hrun. unfold open_binding in Hrun. rewrite bind_get in Hrun.
  destruct (c_bindings c !! id) as [b|] eqn:Hb; [run Hrun; reflexivity|].
  rewrite bind_get_lease in Hrun. destruct (c_leases c !! lease) as [l|] eqn:Hl; [|done].
  rewrite bind_guard in Hrun. destruct (bool_decide (lease_state l = _)) eqn:Hs; [|done].
  rewrite bind_guard in Hrun. destruct (bool_decide (lease_parent l = _)) eqn:Hp; [|done].
  rewrite bind_lift in Hrun. destruct (List.find _ _) as [cl|] eqn:Hcl; [|done].
  simpl in Hrun. rewrite bind_lift in Hrun.
  destruct (claim_binding_for_quantity _ _ _) as [req|]; [|done].
  do 2 (rewrite bind_guard in Hrun; match type of Hrun with (if ?b then _ else _) = _ =>
    destruct b; [|done] end).
  rewrite bind_lift in Hrun. destruct (machine_of _ _) as [m|] eqn:Hm; [|done]. simpl in Hrun.
  rewrite bind_lift in Hrun. destruct (c_sessions c !! m) as [s|] eqn:Hsess; [|done].
  simpl in Hrun. rewrite bind_guard in Hrun. destruct (negb _) eqn:Hconf; [|done].
  apply negb_true_iff in Hconf. apply bool_decide_eq_true in Hs, Hp.
  destruct (next_fence c id node provider scope) as [f fences] eqn:Hf.
  rewrite bind_put, run_ret in Hrun. simplify_eq.
  apply rtc_once. by eapply (k_open c id (mkBinding id lease node provider scope f s BPreparing None)
    l fences); simpl; eauto using conflict_find.
Qed.

(** One binding rewritten in place. *)
Lemma binding_step id b (f : Binding → Binding) :
  c_bindings c !! id = Some b → same_binding b (f b) → binding_move c b (f b) →
  rtc kstep c (set_bindings (alter f id (c_bindings c)) c).
Proof.
  intros Hb Hsame Hmove. rewrite (alter_lookup_insert _ _ _ _ Hb).
  by apply rtc_once, (k_binding c id b).
Qed.

Lemma activate_binding_simulated id : simulated c (activate_binding id).
Proof.
  intros c' a Hrun. unfold activate_binding in Hrun. run Hrun; [reflexivity|].
  repeat match goal with H : negb _ = false |- _ =>
    apply negb_false_iff, bool_decide_eq_true in H end.
  eapply binding_step; [done|done|]. by eapply bm_activate.
Qed.

Lemma fence_binding_simulated id : simulated c (fence_binding id).
Proof. intros c' a Hrun. unfold fence_binding in Hrun. run Hrun; reflexivity. Qed.

Lemma release_binding_simulated id : simulated c (release_binding id).
Proof. intros c' a Hrun. unfold release_binding in Hrun. run Hrun; reflexivity. Qed.

Lemma fail_binding_simulated id reason : simulated c (fail_binding id reason).
Proof.
  intros c' a Hrun. unfold fail_binding in Hrun. run Hrun; [reflexivity|].
  eapply binding_step; [done|done|]. by apply bm_fail.
Qed.

(** An acknowledged update of the binding. *)
Lemma acknowledged_simulated {A} id session fence (k : Binding → M A) :
  (∀ b m, c_bindings c !! id = Some b →
     machine_of (c_graph c) (binding_node b) = Some m → c_sessions c !! m = Some session →
     simulated c (k b)) →
  simulated c (b ← acknowledged id session fence; k b).
Proof.
  intros Hk c' a. rewrite bind_run.
  destruct (acknowledged id session fence c) as [c1 [b|e]] eqn:Hack; [|done].
  apply acknowledged_Ok in Hack as (-> & Hb & _ & m & Hm & Hs). by eapply Hk.
Qed.

Lemma record_prepared_simulated id session handle fence :
  simulated c (record_prepared id session handle fence).
Proof.
  apply acknowledged_simulated. intros b m Hb Hm Hs c' a Hrun. run Hrun.
  eapply binding_step; [done|done|]. by apply bm_same.
Qed.

Lemma record_active_simulated id session fence : simulated c (record_active id session fence).
Proof.
  apply acknowledged_simulated. intros b m Hb Hm Hs c' a Hrun. run Hrun.
  eapply binding_step; [done|done|]. by apply bm_same.
Qed.

Lemma record_released_simulated id session fence :
  simulated c (record_released id session fence).
Proof.
  apply acknowledged_simulated. intros b m Hb Hm Hs c' a Hrun. run Hrun.
  eapply binding_step; [done|done|]. by apply (bm_close _ _ _ m).
Qed.

Lemma record_fenced_simulated id session fence : simulated c (record_fenced id session fence).
Proof.
  apply acknowledged_simulated. intros b m Hb Hm Hs c' a Hrun. run Hrun.
  eapply binding_step; [done|done|]. by apply (bm_close _ _ _ m).
Qed.

Lemma rebind_session_simulated id session : simulated c (rebind_session id session).
Proof.
  intros c' a Hrun. unfold rebind_session in Hrun. run Hrun.
  eapply binding_step; [done|done|]. by apply bm_same.
Qed.

Lemma record_failed_simulated id session reason fence :
  cluster_inv c → simulated c (record_failed id session reason fence).
Proof.
  intros Hinv. apply acknowledged_simulated. intros b m Hb Hm Hs c' a Hrun. run Hrun.
  set (f := λ b : Binding, _). simpl in *. set (c1 := set_bindings _ c).
  assert (rtc kstep c c1) as Hc1.
  { eapply binding_step; [done|unfold f; simpl; by destruct (is_closed _)|].
    unfold f. simpl. destruct (is_closed (binding_state b)) eqn:Hcl;
      [by apply bm_same|by apply bm_fail]. }
  rename select (c_leases c !! _ = Some _) into Hl.
  etrans; [exact Hc1|]. rewrite (alter_lookup_insert _ _ _ _ Hl).
  eapply rtc_once, (k_lease c1 (binding_lease b)); [done|apply mark_same| |].
  - by apply mark_move, stops_ended.
  - right. left. destruct (ci_binds _ Hinv _ _ Hb) as (_ & x & Hx & Hroot & _). congruence.
Qed.
End bindings.

(** ** Nodes and sessions *)

Section nodes.
Context (c : Cluster).

Lemma set_node_state_simulated node state : simulated c (set_node_state node state).
Proof.
  intros c' a Hrun. unfold set_node_state in Hrun. run Hrun. apply rtc_once, k_nodes.
  intros j Hj Hret. rename select (node_state c node = Some _) into Hcur.
  unfold node_state in Hcur. destruct (graph_node _ _); [|done]. injection Hcur as <-.
  destruct (decide (node = j)) as [->|Hne].
  - rewrite Hret in *. simpl in *. rename select (negb _ = false) into Hst.
    apply negb_false_iff, bool_decide_eq_true in Hst. subst. simpl. apply lookup_insert_eq.
  - destruct (bool_decide (state = NSchedulable));
      [by rewrite lookup_delete_ne|by rewrite lookup_insert_ne].
Qed.

Lemma unquarantine_node_simulated node : simulated c (unquarantine_node node).
Proof.
  intros c' a Hrun. unfold unquarantine_node in Hrun. rewrite bind_get in Hrun.
  destruct (node_state c node); [|done]. destruct (negb _); [run Hrun; reflexivity|].
  by eapply set_node_state_simulated.
Qed.

Lemma set_agent_session_simulated machine session :
  simulated c (set_agent_session machine session).
Proof.
  intros c' a Hrun. unfold set_agent_session in Hrun. run Hrun. apply rtc_once, k_session.
  intros s0 Hs0.
  match goal with H : match c_sessions _ !! _ with _ => _ end = _ |- _ => rename H into Hg end.
  rewrite Hs0 in Hg.
  destruct (N.leb_spec s0 session); [done|discriminate Hg].
Qed.

Lemma advance_endpoint_fence_simulated node provider fence :
  simulated c (advance_endpoint_fence node provider fence).
Proof.
  intros c' a Hrun. unfold advance_endpoint_fence in Hrun. run Hrun.
  apply rtc_once, k_watermark. case_match eqn:E; [|done]. apply N.ltb_lt in E. lia.
Qed.
End nodes.

(** ** Every command *)

Lemma dispatch_ksteps c cmd :
  cluster_inv c → command_u64 cmd = true → simulated c (dispatch cmd).
Proof.
  intros Hinv Hu.
  destruct cmd; simpl in Hu |- *; eauto using apply_graph_simulated,
    apply_resource_facts_simulated, apply_provider_facts_simulated, adopt_fact_writers_simulated,
    reserve_lease_simulated, promote_lease_simulated, open_lease_simulated,
    activate_lease_simulated, fail_lease_simulated, release_lease_simulated,
    complete_lease_simulated, revoke_lease_simulated, expire_lease_simulated,
    renew_lease_simulated, open_binding_simulated, activate_binding_simulated,
    fence_binding_simulated, fail_binding_simulated, release_binding_simulated,
    record_prepared_simulated, record_active_simulated, record_released_simulated,
    record_fenced_simulated, record_failed_simulated, set_agent_session_simulated,
    set_node_health_simulated, set_node_state_simulated, rebind_session_simulated,
    advance_endpoint_fence_simulated, unquarantine_node_simulated.
Qed.
