(* ===== verification/Safety.v ===== *)
(** * Safety of the cluster state machine

    Every elementary step preserves [cluster_inv] and is a run of the
    authority ledger; hence so is every command, and so does every reachable
    state.  *)

From S2P Require Import Prelude.
From S2P Require Import Identifier.
From S2P Require Import Types.
From S2P Require Import Graph.
From S2P Require Import GraphFacts.
From S2P Require Import Occupancy.
From S2P Require Import Command.
From S2P Require Import Cluster.
From S2P Require Import Ledger.
From S2P Require Import LeaseTree.
From S2P Require Import Handlers.
From S2P Require Import ClusterInv.
From S2P Require Import Steps.

(** ** Ledger steps *)

Lemma ledger_eq c c' :
  lease_core <$> c_leases c' = lease_core <$> c_leases c →
  (∀ k, occupies c' k = occupies c k) → ledger_of c' = ledger_of c.
Proof.
  intros Hcore Hocc. unfold ledger_of. rewrite Hcore. f_equal.
  apply set_eq. intros k. by rewrite !elem_of_occ_set, Hocc.
Qed.

Lemma drop_or_same cap c c' id l :
  lease_core <$> c_leases c' = lease_core <$> c_leases c →
  (∀ k, k ≠ id → occupies c' k = occupies c k) →
  (occupies c' id = true → occupies c id = true) →
  c_leases c !! id = Some l → lease_parent l = None ∨ childless c id →
  rtc (lstep cap) (ledger_of c) (ledger_of c') .
Proof.
  intros Hcore Hne Hid Hl Hor. destruct (decide (occupies c' id = occupies c id)) as [Heq|Hdiff].
  - rewrite (ledger_eq c c'); [reflexivity|done|]. intros k.
    destruct (decide (k = id)) as [->|]; [done|by apply Hne].
  - assert (occupies c id = true ∧ occupies c' id = false) as [Ho Ho'].
    { destruct (occupies c id), (occupies c' id); naive_solver. }
    assert (ledger_of c' = mkLedger (lg_core (ledger_of c)) (lg_occ (ledger_of c) ∖ {[id]})) as ->.
    { unfold ledger_of. rewrite Hcore. cbn [lg_core lg_occ]. f_equal. apply set_eq. intros k.
      rewrite elem_of_difference, elem_of_singleton, !elem_of_occ_set.
      destruct (decide (k = id)) as [->|Hk]; [rewrite Ho'; naive_solver|].
      rewrite (Hne _ Hk). naive_solver. }
    apply rtc_once, (lstep_drop _ _ id (lease_core l)).
    + apply ledger_lookup. eauto.
    + by apply elem_of_occ_set.
    + destruct Hor as [Hroot|Hch]; [by left|right].
      intros k y (ly & Hly & ->)%ledger_lookup Hp. cbn [lg_occ ledger_of].
      rewrite elem_of_occ_set. rewrite (Hch k ly Hly Hp). done.
Qed.

Lemma move_live s s' : lease_move s s' → is_live_state s' = true → is_live_state s = true.
Proof. by intros [] ?; try congruence. Qed.

Lemma update_core c id l l' :
  c_leases c !! id = Some l → same_lease l l' →
  lease_core <$> <[id := l']> (c_leases c) = lease_core <$> c_leases c.
Proof.
  intros Hl (_ & _ & Hp & Hcl & _). rewrite fmap_insert. apply insert_id.
  rewrite lookup_fmap, Hl. simpl. unfold lease_core. by rewrite Hp, Hcl.
Qed.

Lemma lease_step_ledger cap c id l l' :
  keyed (c_leases c) → c_leases c !! id = Some l → same_lease l l' →
  lease_move (lease_state l) (lease_state l') →
  (is_live_state (lease_state l') = true ∨ lease_parent l = None ∨ childless c id) →
  rtc (lstep cap) (ledger_of c) (ledger_of (set_leases (<[id := l']> (c_leases c)) c)).
Proof.
  intros Hk Hl Hsame Hmove Hor. set (c' := set_leases _ c).
  pose proof (update_keyed c id l l' Hl Hsame Hk) as Hk'. fold c' in Hk'.
  assert (∀ k, k ≠ id → occupies c' k = occupies c k) as Hne.
  { intros k Hki. unfold occupies, c'. simpl. by rewrite lookup_insert_ne. }
  assert (occupies c' id = is_live_state (lease_state l') || open_bindings c id) as Hid.
  { rewrite (occupies_lookup c' id l'); [done|done|]. apply lookup_insert_eq. }
  assert (occupies c id = is_live_state (lease_state l) || open_bindings c id) as Hid0.
  { by apply occupies_lookup. }
  destruct (is_live_state (lease_state l')) eqn:Hlive.
  - rewrite (ledger_eq c c'); [reflexivity|by apply (update_core c id l)|].
    intros k. destruct (decide (k = id)) as [->|]; [|by apply Hne].
    by rewrite Hid, Hid0, (move_live _ _ Hmove Hlive).
  - eapply (drop_or_same cap c c' id l); [by apply (update_core c id l)|done| |done|].
    + rewrite Hid, Hid0. simpl. intros ->. by rewrite orb_true_r.
    + by destruct Hor.
Qed.

(** ** Admission against the ledger *)

Lemma check_cover_fits c id claims :
  cluster_inv c → c_leases c !! id = None → check_cover c id claims = Ok () →
  ∀ n d, lg_total (ledger_of c) n d + claims_amount claims n d ≤ node_cap (c_graph c) n d.
Proof.
  intros Hinv Hid Hchk n d. unfold check_cover in Hchk. cbv zeta in Hchk.
  set (occ := occupancy_from_leases _ _ _) in Hchk.
  assert (occ_amount occ n d = lg_total (ledger_of c) n d) as Hocc.
  { apply occupancy_exact; [done|]. by intros j ->%elem_of_singleton. }
  pose proof (li_cap _ _ (ci_ledger _ Hinv) n d) as Hcap.
  assert (claims_amount claims n d ≤ node_cap (c_graph c) n d - lg_total (ledger_of c) n d);
    [|lia].
  apply claims_amount_le. intros cl Hcl <-. rewrite try_for_Ok in Hchk.
  specialize (Hchk cl Hcl). apply bind_Ok_inv in Hchk as ([] & Hcov & Hchk); [|done].
  apply can_cover_true in Hcov as [_ Hcov]. rewrite <-Hocc. apply Hcov.
Qed.

Lemma check_child_fits c id p claims :
  cluster_inv c → c_leases c !! id = None → check_child c id p claims = Ok () →
  ∃ lp, c_leases c !! p = Some lp ∧ occupies c p = true
    ∧ ∀ n d, lg_kids (ledger_of c) p n d + claims_amount claims n d
             ≤ core_amount (lease_core lp) n d.
Proof.
  intros Hinv Hid Hchk. unfold check_child in Hchk.
  apply bind_Ok_inv in Hchk as (lp & Hlp%ok_or_Ok & Hchk).
  apply bind_Ok_inv in Hchk as ([] & Hact & Hchk). rewrite guard_err_Ok, bool_decide_eq_true in Hact.
  apply bind_Ok_inv in Hchk as ([] & _ & Hchk). rewrite try_for_Ok in Hchk.
  exists lp. split_and!; [done| |].
  - rewrite (occupies_lookup c p lp), Hact; [done|apply (ci_keyed _ Hinv)|done].
  - intros n d.
    pose proof (li_kids _ _ (ci_ledger _ Hinv) p (lease_core lp) n d) as Hkids.
    specialize (Hkids ltac:(apply ledger_lookup; eauto)).
    assert (claims_amount claims n d
            ≤ core_amount (lease_core lp) n d - lg_kids (ledger_of c) p n d); [|lia].
    apply claims_amount_le. intros cl Hcl <-. specialize (Hchk cl Hcl).
    apply bind_Ok_inv in Hchk as (pc & Hpc%ok_or_Ok & Hchk).
    apply find_some_elem in Hpc as [Hpc Hn%N.eqb_eq]. cbv zeta in Hchk.
    destruct (claim_fits _ _ _) eqn:Hfit; [|done]. pose proof (claim_fits_spec _ _ _ Hfit d) as Hle.
    pose proof (subtree_exact c p lp id (claim_node cl) d Hinv Hlp Hid) as Hsub.
    unfold occ_amount in Hsub. rewrite Hsub in Hle.
    pose proof (claims_amount_elem (lease_claims lp) pc d Hpc) as Hpa. rewrite Hn in Hpa.
    unfold core_amount, lease_core. cbn [core_claims]. lia.
Qed.

Lemma admit_ledger c id l :
  cluster_inv c → c_leases c !! id = None → lease_id l = id →
  lease_state l = LReserved ∨ lease_state l = LPreparing →
  ledger_of (set_leases (<[id := l]> (c_leases c)) c)
  = mkLedger (<[id := lease_core l]> (lg_core (ledger_of c))) ({[id]} ∪ lg_occ (ledger_of c)).
Proof.
  intros Hinv Hid Hlid Hst. unfold ledger_of at 1. simpl. rewrite fmap_insert. f_equal.
  apply set_eq. intros k.
  rewrite elem_of_union, elem_of_singleton, !elem_of_occ_set. unfold occupies. simpl.
  destruct (decide (k = id)) as [->|Hne].
  - rewrite lookup_insert_eq. unfold lease_occupies. destruct Hst as [-> | ->]; naive_solver.
  - rewrite lookup_insert_ne by done. naive_solver.
Qed.

(** ** Bindings and the ledger *)

Lemma open_bindings_insert c id b k :
  (∀ b0, c_bindings c !! id = Some b0 →
     binding_lease b0 = binding_lease b ∧
     (is_closed (binding_state b) = false → is_closed (binding_state b0) = false)) →
  k ≠ binding_lease b →
  open_bindings (set_bindings (<[id := b]> (c_bindings c)) c) k = open_bindings c k.
Proof.
  intros Hb0 Hk. apply eq_true_iff_eq. rewrite !open_bindings_true. simpl. split.
  - intros (j & x & Hx & Hlease & Hopen). rewrite lookup_insert in Hx.
    case_decide; simplify_eq. eauto.
  - intros (j & x & Hx & Hlease & Hopen). exists j, x. rewrite lookup_insert.
    case_decide; [|eauto]. subst. destruct (Hb0 _ Hx). congruence.
Qed.

Lemma binding_move_open c b b' :
  binding_move c b b' → is_closed (binding_state b') = false → is_closed (binding_state b) = false.
Proof. intros []; destruct (binding_state b), (binding_state b'); simpl in *; congruence. Qed.

Lemma binding_step_ledger cap c id b b' :
  cluster_inv c → c_bindings c !! id = Some b → same_binding b b' → binding_move c b b' →
  rtc (lstep cap) (ledger_of c) (ledger_of (set_bindings (<[id := b']> (c_bindings c)) c)).
Proof.
  intros Hinv Hb Hsame Hmove. set (c' := set_bindings _ c).
  destruct (ci_binds _ Hinv _ _ Hb) as (_ & l & Hl & Hroot & _).
  pose proof (ci_keyed _ Hinv) as Hk.
  eapply (drop_or_same cap c c' (binding_lease b) l); [done| | |done|by left].
  - intros k Hne. unfold occupies. cbn [c_leases set_bindings c'].
    destruct (c_leases c !! k) as [x|] eqn:Hx; [|done]. f_equal. rewrite (Hk _ _ Hx).
    destruct Hsame as (_ & Hlease & _).
    apply open_bindings_insert; [|congruence]. intros b0 Hb0. simplify_eq.
    split; [done|]. by eapply binding_move_open.
  - rewrite (occupies_lookup c' _ l), (occupies_lookup c _ l) by done.
    rewrite !orb_true_iff, !open_bindings_true. intros [?|(j & x & Hx & Hlease & Hopen)]; [by left|].
    right. cbn [c_bindings set_bindings c'] in Hx. rewrite lookup_insert in Hx.
    case_decide; simplify_eq; [|eauto]. exists j, b. split_and!; [done|done|].
    by eapply binding_move_open.
Qed.

Lemma open_step_ledger c id b l fences :
  cluster_inv c → c_bindings c !! id = None → c_leases c !! binding_lease b = Some l →
  lease_state l = LPreparing →
  ledger_of (set_bindings (<[id := b]> (c_bindings c)) (set_last_fence fences c)) = ledger_of c.
Proof.
  intros Hinv Hid Hl Hst. pose proof (ci_keyed _ Hinv) as Hk. apply ledger_eq; [done|]. intros k.
  unfold occupies. cbn [c_leases set_bindings set_last_fence].
  destruct (c_leases c !! k) as [x|] eqn:Hx; [|done]. rewrite (Hk _ _ Hx).
  destruct (decide (k = binding_lease b)) as [->|Hne].
  - simplify_eq. unfold lease_occupies. by rewrite Hst.
  - f_equal. apply (open_bindings_insert (set_last_fence fences c) id b k); [|done].
    simpl. intros b0 Hb0. congruence.
Qed.

(** Each elementary step is a run of the ledger. *)
Lemma kstep_ledger c c' :
  cluster_inv c → kstep c c' →
  rtc (lstep (node_cap (c_graph c))) (ledger_of c) (ledger_of c').
Proof.
  intros Hinv [g|g|id l Hid Hlid Hst Hres Hq Hfit|id l l' Hl Hsame Hmove Hor|
    id b l fences Hid Hbid Hbs Hl Hst|id b b' Hb Hsame Hmove|m s|e f|ns]; try reflexivity.
  - rewrite admit_ledger by done. apply rtc_once. unfold lease_core.
    destruct (lease_parent l) as [p|] eqn:Hp.
    + destruct (check_child_fits c id p _ Hinv Hid Hfit) as (lp & Hlp & Ho & Hle).
      apply (lstep_child _ (ledger_of c) id p (lease_core lp)); [|apply ledger_lookup; eauto| |done].
      * simpl. by rewrite lookup_fmap, Hid.
      * by apply elem_of_occ_set.
    + apply lstep_root.
      * simpl. by rewrite lookup_fmap, Hid.
      * by apply (check_cover_fits c id).
  - apply (lease_step_ledger _ c id l l'); try done. apply (ci_keyed _ Hinv).
  - rewrite (open_step_ledger c id b l) by done. reflexivity.
  - by apply (binding_step_ledger _ c id b b').
Qed.

(** ** The invariant *)

Lemma acyclic_insert (p : gmap N N) x q :
  acyclic p → p !! x = None → (∀ y, p !! y ≠ Some x) → q ≠ x → acyclic (<[x := q]> p).
Proof.
  intros Hac Hx Hfresh Hq.
  assert (∀ y d, depth p y d → y ≠ x → depth (<[x := q]> p) y d) as Hkeep.
  { induction 1 as [y Hy|y z d Hy Hd IH]; intros Hne.
    - apply depth_root. by rewrite lookup_insert_ne.
    - eapply depth_step; [by rewrite lookup_insert_ne|]. apply IH. intros ->. by eapply Hfresh. }
  intros y. destruct (decide (y = x)) as [->|Hne].
  - destruct (Hac q) as [d Hd]. exists (S d). eapply depth_step; [apply lookup_insert_eq|eauto].
  - destruct (Hac y) as [d Hd]. eauto.
Qed.

Lemma lease_parents_insert leases id l :
  leases !! id = None →
  lease_parents (<[id := l]> leases)
  = match lease_parent l with Some p => <[id := p]> (lease_parents leases)
    | None => lease_parents leases end.
Proof.
  intros Hid. apply map_eq. intros k. rewrite lease_parents_lookup.
  destruct (decide (k = id)) as [->|Hne].
  - rewrite lookup_insert_eq. simpl. destruct (lease_parent l); [by rewrite lookup_insert_eq|].
    by rewrite lease_parents_lookup, Hid.
  - rewrite lookup_insert_ne by done. destruct (lease_parent l);
      rewrite ?lookup_insert_ne, lease_parents_lookup by done; done.
Qed.

Lemma admit_acyclic c id l :
  cluster_inv c → c_leases c !! id = None → (∀ p, lease_parent l = Some p → is_Some (c_leases c !! p)) →
  acyclic (lease_parents (<[id := l]> (c_leases c))).
Proof.
  intros Hinv Hid Hpar. rewrite lease_parents_insert by done.
  destruct (lease_parent l) as [p|] eqn:Hp; [|apply (ci_acyclic _ Hinv)].
  apply acyclic_insert; [apply (ci_acyclic _ Hinv)| | |].
  - by rewrite lease_parents_lookup, Hid.
  - intros y (x & Hx & Hxp)%lease_parents_Some. by eapply dead_parent_impossible.
  - intros ->. destruct (Hpar id eq_refl). congruence.
Qed.

Lemma resolved_claims_ok g claims : resolved_claims g claims → claims_ok g claims.
Proof.
  intros [Hnd Hres]. split; [done|]. intros cl Hcl. destruct (Hres cl Hcl) as (Hu & cl0 & Hr).
  apply resolve_claim_Ok in Hr as (Hn & Hne & Hex & _). rewrite Hn. done.
Qed.

Lemma claims_ok_grow g g' claims :
  dom (g_nodes g) ⊆ dom (g_nodes g') → claims_ok g claims → claims_ok g' claims.
Proof.
  intros Hdom [Hnd Hcl]. split; [done|]. intros cl Hin.
  destruct (Hcl cl Hin) as (? & ? & Hex). split_and!; [done..|].
  apply elem_of_dom, Hdom. by apply elem_of_dom.
Qed.

(** Steps that leave leases, bindings and the graph alone. *)
Lemma inv_same c c' :
  c_graph c' = c_graph c → c_leases c' = c_leases c → c_bindings c' = c_bindings c →
  cluster_inv c → cluster_inv c'.
Proof.
  intros Hg Hl Hb [].
  assert (ledger_of c' = ledger_of c) as Hled.
  { apply ledger_eq; [by rewrite Hl|]. intros k. unfold occupies, open_bindings. by rewrite Hl, Hb. }
  split; unfold binds_on_roots, exclusive_ok; rewrite ?Hled, ?Hg, ?Hl, ?Hb; done.
Qed.

Lemma graph_step_inv c g :
  cluster_inv c → graph_wf g → claims_valid g → caps_u64 g →
  dom (g_nodes (c_graph c)) ⊆ dom (g_nodes g) → g_revision g ≤ u64_max →
  (∀ n d, lg_total (ledger_of c) n d ≤ node_cap g n d) →
  cluster_inv (set_graph g c).
Proof.
  intros [] Hwf Hcv Hcap Hdom Hrev Htot. split; try done.
  - intros k l Hl. eapply claims_ok_grow; [done|by eauto].
  - by apply (ledger_inv_cap (node_cap (c_graph c))).
Qed.

Lemma admit_inv c id l :
  cluster_inv c → c_leases c !! id = None → lease_id l = id →
  resolved_claims (c_graph c) (lease_claims l) →
  (∀ p, lease_parent l = Some p → is_Some (c_leases c !! p)) →
  ledger_inv (node_cap (c_graph c)) (ledger_of (set_leases (<[id := l]> (c_leases c)) c)) →
  cluster_inv (set_leases (<[id := l]> (c_leases c)) c).
Proof.
  intros Hinv Hid Hlid Hres Hpar Hled. split; try apply Hinv; [| | | |done].
  - intros k x. simpl. rewrite lookup_insert. case_decide; [intros [= <-]; congruence|].
    apply (ci_keyed _ Hinv).
  - intros k x. simpl. rewrite lookup_insert. case_decide;
      [intros [= <-]; by apply resolved_claims_ok|apply (ci_claims _ Hinv)].
  - by apply admit_acyclic.
  - intros k b Hb. destruct (ci_binds _ Hinv _ _ Hb) as (Hbid & x & Hx & Hrest).
    split; [done|]. exists x. split; [|done]. simpl. rewrite lookup_insert_ne; [done|congruence].
Qed.

Lemma lease_step_inv c id l l' :
  cluster_inv c → c_leases c !! id = Some l → same_lease l l' →
  ledger_inv (node_cap (c_graph c)) (ledger_of (set_leases (<[id := l']> (c_leases c)) c)) →
  cluster_inv (set_leases (<[id := l']> (c_leases c)) c).
Proof.
  intros Hinv Hl Hsame Hled. split; try apply Hinv; [| | | |done].
  - apply (update_keyed c id l); [done|done|apply Hinv].
  - intros k x. simpl. rewrite lookup_insert. case_decide; [|apply (ci_claims _ Hinv)].
    intros [= <-]. destruct Hsame as (_ & _ & _ & -> & _). by apply (ci_claims _ Hinv id).
  - rewrite (update_parents c id l l') by done. apply Hinv.
  - apply (update_binds c id l); [done|done|apply Hinv].
Qed.

Lemma conflicting_endpoint_false c node provider scope k b :
  conflicting_endpoint c node provider scope = false → c_bindings c !! k = Some b →
  is_closed (binding_state b) = false → binding_provider b = provider → binding_node b = node →
  scope = IndependentShare ∧ binding_scope b = IndependentShare.
Proof.
  unfold conflicting_endpoint. rewrite existsb_false. intros Hall Hb Ho Hp Hn.
  specialize (Hall b ltac:(apply elem_of_bt_values; eauto)).
  rewrite Hp, Hn, !N.eqb_refl, Ho in Hall. simpl in Hall.
  apply orb_false_iff in Hall as [Hs Hs']. apply bool_decide_eq_false in Hs, Hs'.
  destruct scope, (binding_scope b); done.
Qed.

Lemma open_exclusive c id b fences :
  exclusive_ok c → c_bindings c !! id = None →
  conflicting_endpoint c (binding_node b) (binding_provider b) (binding_scope b) = false →
  exclusive_ok (set_bindings (<[id := b]> (c_bindings c)) (set_last_fence fences c)).
Proof.
  intros Hex Hid Hconf k1 k2 b1 b2. simpl. rewrite !lookup_insert.
  repeat case_decide; intros H1 H2 Hne Ho1 Ho2 Hp Hn; simplify_eq.
  - eapply (conflicting_endpoint_false c); eauto.
  - apply and_comm. eapply (conflicting_endpoint_false c); eauto.
  - by eapply (Hex k1 k2).
Qed.

Lemma binding_exclusive c id b b' :
  exclusive_ok c → c_bindings c !! id = Some b → same_binding b b' → binding_move c b b' →
  exclusive_ok (set_bindings (<[id := b']> (c_bindings c)) c).
Proof.
  intros Hex Hb (_ & _ & Hn & Hp & Hs & _) Hmove k1 k2 b1 b2. simpl. rewrite !lookup_insert.
  pose proof (binding_move_open _ _ _ Hmove) as Hopen.
  repeat case_decide; intros H1 H2 Hne Ho1 Ho2 Hp' Hn'; simplify_eq; rewrite ?Hs;
    eapply (Hex k1 k2); eauto; congruence.
Qed.

Lemma binds_insert c id b :
  binds_on_roots c → binding_id b = id →
  (∃ l, c_leases c !! binding_lease b = Some l ∧ lease_parent l = None
        ∧ ∃ cl, cl ∈ lease_claims l ∧ claim_node cl = binding_node b) →
  binds_on_roots (set_bindings (<[id := b]> (c_bindings c)) c).
Proof.
  intros Hb Hid Hl k x. simpl. rewrite lookup_insert. case_decide; [|apply Hb].
  intros [= <-]. subst. done.
Qed.

Lemma kstep_inv c c' : cluster_inv c → kstep c c' → cluster_inv c'.
Proof.
  intros Hinv Hstep. pose proof (kstep_ledger c c' Hinv Hstep) as Hled.
  apply (lsteps_inv _ _ _ (ci_ledger _ Hinv)) in Hled.
  destruct Hstep as [g Hwf Hcv Hcap Hdom Hrev Hocc|g Hwf (Hn & _ & _ & Hcb & Hrev)|
    id l Hid Hlid Hst Hres Hq Hfit|id l l' Hl Hsame Hmove Hor|
    id b l fences Hid Hbid Hbs Hl Hst Hroot Hcl Hconf|id b b' Hb Hsame Hmove|m s|e f|ns];
    try (by apply (inv_same c)).
  - apply graph_step_inv; try done; [rewrite Hrev; unfold sat_add; lia|]. intros n d.
    rewrite <-(occupancy_exact c ∅ n d Hinv) by (intros j ?; set_solver).
    by apply exceeds_capacity_None.
  - apply graph_step_inv; try done.
    + unfold claims_valid. rewrite Hn, Hcb. apply Hinv.
    + unfold caps_u64. rewrite Hn. apply Hinv.
    + by rewrite Hn.
    + rewrite Hrev. apply Hinv.
    + intros n d. unfold node_cap, graph_node. rewrite Hn. apply (ci_ledger _ Hinv).
  - apply admit_inv; try done. intros p Hp. rewrite Hp in Hfit.
    destruct (check_child_fits c id p _ Hinv Hid Hfit) as (lp & Hlp & _). eauto.
  - by apply (lease_step_inv c id l).
  - split; try apply Hinv; [|by apply open_exclusive; [apply Hinv|..]|done].
    apply (binds_insert (set_last_fence fences c)); [apply Hinv|done|eauto].
  - split; try apply Hinv; [|by eapply binding_exclusive; [apply Hinv|..]|done].
    destruct (ci_binds _ Hinv _ _ Hb) as (Hbid & Hx). destruct Hsame as (Hi & Hl & Hn & _).
    apply binds_insert; [apply Hinv|congruence|]. by rewrite Hl, Hn.
Qed.

Lemma ksteps_inv c c' : cluster_inv c → rtc kstep c c' → cluster_inv c'.
Proof. intros Hinv Hsteps. induction Hsteps; eauto using kstep_inv. Qed.

(** ** Refinement of the abstract authority *)

Definition authority_of (c : Cluster) : Authority :=
  mkAuthority (node_cap (c_graph c)) (ledger_of c).

Lemma kstep_asteps c c' :
  cluster_inv c → kstep c c' → rtc astep (authority_of c) (authority_of c').
Proof.
  intros Hinv Hstep. pose proof (kstep_inv c c' Hinv Hstep) as Hinv'.
  etrans; [apply lsteps_asteps, kstep_ledger; [exact Hinv|exact Hstep]|].
  apply rtc_once, a_capacity. apply (ci_ledger _ Hinv').
Qed.

Lemma ksteps_asteps c c' :
  cluster_inv c → rtc kstep c c' → rtc astep (authority_of c) (authority_of c').
Proof.
  intros Hinv Hsteps. induction Hsteps as [|c c1 c' Hstep Hsteps IH]; [reflexivity|].
  etrans; [by apply kstep_asteps|]. apply IH. by eapply kstep_inv.
Qed.
