(* ===== verification/Authority.v ===== *)
(** * Authority: what holds of every command and every reachable state

    Errors are atomic; every command refines the authority ledger; in every
    reachable state no node is overcommitted, children stay within their
    parents and exclusive endpoints have one open binding; history only
    moves forward. *)

From S2P Require Import Prelude.
From S2P Require Import Identifier.
From S2P Require Import Types.
From S2P Require Import Graph.
From S2P Require Import GraphFacts.
From S2P Require Import Occupancy.
From S2P Require Import Command.
From S2P Require Import Cluster.
From S2P Require Import Ledger.
From S2P Require Import LeaseTree.
From S2P Require Import Handlers.
From S2P Require Import ClusterInv.
From S2P Require Import Steps.
From S2P Require Import Safety.

(** ** Errors leave the state alone *)

Lemma install_atomic g : atomic (install_resource_graph g).
Proof. unfold install_resource_graph. solve_atomic. Qed.

Lemma set_node_state_atomic node state : atomic (set_node_state node state).
Proof. unfold set_node_state. solve_atomic. Qed.

Lemma fail_binding_atomic id reason : atomic (fail_binding id reason).
Proof.
  intros c c' e Hrun. unfold fail_binding in Hrun. rewrite bind_get_binding in Hrun.
  destruct (c_bindings c !! id) as [b|] eqn:Hb; [|run Hrun; done].
  destruct (is_closed _); [done|].
  rewrite bind_update_binding, bind_get, bind_get_binding in Hrun.
  cbn [c_bindings set_bindings] in Hrun. rewrite lookup_alter_eq, Hb in Hrun. done.
Qed.

Lemma record_failed_atomic c id session reason fence c' e :
  cluster_inv c → record_failed id session reason fence c = (c', Err e) → c' = c.
Proof.
  intros Hinv. unfold record_failed. rewrite bind_run.
  destruct (acknowledged id session fence c) as [c1 [b|e1]] eqn:Hack.
  - apply acknowledged_Ok in Hack as (-> & Hb & _). rewrite bind_update_binding, bind_get_lease.
    cbn [c_leases set_bindings]. destruct (ci_binds _ Hinv _ _ Hb) as (_ & l & Hl & _).
    rewrite Hl. rewrite bind_update_lease, bind_get. done.
  - intros [= <- <-]. pose proof (reads_acknowledged id session fence c) as Hr. by rewrite Hack in Hr.
Qed.

Lemma dispatch_error_unchanged c cmd c' e :
  cluster_inv c → dispatch cmd c = (c', Err e) → c' = c.
Proof.
  intros Hinv. destruct cmd; cbn [dispatch].
  9: { rewrite fail_lease_run by done. by destruct (c_leases c !! lease) as [l|]; intros [= <-]. }
  10: { rewrite complete_lease_run by done. intros Hrun. by run Hrun. }
  10: { rewrite revoke_lease_run by done. by destruct (c_leases c !! lease) as [l|]; intros [= <-]. }
  10: { rewrite expire_lease_run by done. intros Hrun. by run Hrun. }
  14: apply fail_binding_atomic.
  19: by apply record_failed_atomic.
  all: revert c c' e Hinv; assert (∀ m : M (list Effect), atomic m →
    ∀ c c' e, cluster_inv c → m c = (c', Err e) → c' = c) as Hm by eauto; apply Hm; clear Hm.
  all: unfold apply_graph, apply_resource_facts, apply_provider_facts, adopt_fact_writers,
    reserve_lease, promote_lease, open_lease, activate_lease, release_lease, renew_lease,
    open_binding, activate_binding, fence_binding, release_binding, record_prepared,
    record_active, record_released, record_fenced, set_agent_session, set_node_health,
    rebind_session, advance_endpoint_fence, quarantine_node, unquarantine_node.
  all: solve_atomic; eauto using install_atomic, set_node_state_atomic.
Qed.

(** ** Operations on a cluster and reachable states *)

Inductive Op :=
| OpApply (cmd : Command)
| OpNow (now : u64)
| OpAgreement (agreed : bool)
| OpReplaying (replaying : bool)
| OpEpoch
| OpMigrate.

(** A rejected command leaves whatever state its handler reached. *)
Definition run_op (c : Cluster) (op : Op) : Cluster :=
  match op with
  | OpApply cmd => (cluster_apply cmd c).1
  | OpNow now => set_now now c
  | OpAgreement agreed => set_agreement agreed c
  | OpReplaying replaying => set_replaying replaying c
  | OpEpoch => advance_epoch c
  | OpMigrate => cluster_migrate_legacy_observations c
  end.

Definition op_u64 (op : Op) : bool :=
  match op with OpApply cmd => command_u64 cmd | _ => true end.

Definition run_ops (ops : list Op) : Cluster := foldl run_op cluster_new ops.

Lemma apply_run c cmd :
  cluster_apply cmd c
  = match dispatch cmd c with
    | (c', Ok es) => (set_log (c_log c' ++ [cmd]) c', Ok es)
    | (c', Err e) => (c', Err e)
    end.
Proof. unfold cluster_apply. rewrite bind_run. by destruct (dispatch cmd c) as [c' []]. Qed.

Lemma dispatch_inv c cmd c' es :
  cluster_inv c → command_u64 cmd = true → dispatch cmd c = (c', Ok es) → cluster_inv c'.
Proof. intros Hinv Hu Hrun. eapply ksteps_inv; [done|]. by eapply dispatch_ksteps. Qed.

Lemma migrate_node_cap g n d :
  node_cap (migrate_legacy_observations g) n d = node_cap g n d.
Proof. unfold node_cap, graph_node. cbn. rewrite lookup_fmap. by destruct (g_nodes g !! n). Qed.

Lemma migrate_inv c : cluster_inv c → cluster_inv (cluster_migrate_legacy_observations c).
Proof.
  intros Hinv. apply graph_step_inv; [done|apply migrate_wf, Hinv|apply migrate_claims_valid, Hinv| | | |].
  - intros id n. cbn. rewrite lookup_fmap_Some. intros (n0 & <- & Hn).
    by apply (ci_caps _ Hinv _ _ Hn).
  - cbn. by rewrite dom_fmap_L.
  - cbn. apply Hinv.
  - intros n d. rewrite migrate_node_cap. apply (ci_ledger _ Hinv).
Qed.

Lemma run_op_inv c op : cluster_inv c → op_u64 op = true → cluster_inv (run_op c op).
Proof.
  intros Hinv Hu. destruct op as [cmd|now|b|b| |]; cbn [run_op];
    try (by apply (inv_same c)); [|by apply migrate_inv].
  rewrite apply_run. destruct (dispatch cmd c) as [c' [es|e]] eqn:Hrun; cbn [fst].
  - apply (inv_same c'); [done..|]. by eapply dispatch_inv.
  - by rewrite (dispatch_error_unchanged c cmd c' e).
Qed.

Lemma run_ops_inv ops : forallb op_u64 ops = true → cluster_inv (run_ops ops).
Proof.
  unfold run_ops. generalize cluster_new_inv. generalize cluster_new.
  induction ops as [|op ops IH]; intros c Hinv Hu; [done|].
  cbn [forallb] in Hu. apply andb_prop in Hu as [Hop Hu]. apply IH; [|done]. by apply run_op_inv.
Qed.

(** ** No overcommitment *)

(** C1. In every state reachable by commands, clock, agreement, epoch and
    migration operations, the occupancy computed with wrapping [u64] sums is
    the exact sum of the claims of the outermost occupying leases, and it is
    within the capacity of every node in every dimension. *)
Theorem reachable_no_overcommit ops n d :
  forallb op_u64 ops = true →
  occ_amount (occupancy (run_ops ops)) n d
    = total_used (c_leases (run_ops ops)) (open_binding_leases (run_ops ops)) ∅ n d
  ∧ occ_amount (occupancy (run_ops ops)) n d ≤ node_cap (c_graph (run_ops ops)) n d.
Proof.
  intros Hu. pose proof (run_ops_inv ops Hu) as Hinv.
  assert (∀ j, j ∈ (∅ : gset N) → c_leases (run_ops ops) !! j = None) as Hex
    by (intros j ?%elem_of_empty; done).
  unfold occupancy, occupancy_except. rewrite occupancy_exact by done.
  rewrite total_used_ledger by (done || apply Hinv). split; [done|].
  apply (ci_ledger _ Hinv).
Qed.

(** C2. Every successful command refines the abstract authority: it is a run
    of its moves (admit a root within free capacity, admit a child within
    its occupying parent, stop occupying a root or a childless lease, change
    capacities above what is occupied), and it preserves the invariant. *)
Theorem dispatch_refines_authority c cmd c' es :
  cluster_inv c → command_u64 cmd = true → dispatch cmd c = (c', Ok es) →
  rtc astep (authority_of c) (authority_of c') ∧ cluster_inv c'.
Proof.
  intros Hinv Hu Hrun. split; [|by eapply dispatch_inv].
  apply ksteps_asteps; [done|]. by eapply dispatch_ksteps.
Qed.

(** C3. A rejected command is atomic: the state after an error is the state
    before it, also for the handlers that write before their last check. *)
Theorem dispatch_error_atomic c cmd c' e :
  cluster_inv c → dispatch cmd c = (c', Err e) → c' = c.
Proof. apply dispatch_error_unchanged. Qed.

(** C5. The occupying children of a lease together claim, on every node and
    dimension, at most what the lease itself claims; and a lease whose
    parent stopped occupying hangs under a root. *)
Theorem reachable_children_contained ops p lp n d :
  forallb op_u64 ops = true → c_leases (run_ops ops) !! p = Some lp →
  lg_kids (ledger_of (run_ops ops)) p n d ≤ claims_amount (lease_claims lp) n d
  ∧ (∀ k l, c_leases (run_ops ops) !! k = Some l → lease_parent l = Some p →
       occupies (run_ops ops) k = true →
       occupies (run_ops ops) p = true ∨ lease_parent lp = None).
Proof.
  intros Hu Hp. pose proof (run_ops_inv ops Hu) as Hinv. set (c := run_ops ops) in *.
  assert (lg_core (ledger_of c) !! p = Some (lease_core lp)) as Hcp by (apply ledger_lookup; eauto).
  split; [by apply (li_kids _ _ (ci_ledger _ Hinv) p (lease_core lp))|].
  intros k l Hl Hpar Ho. rewrite <-!elem_of_occ_set in *.
  apply (li_tree _ _ (ci_ledger _ Hinv) k (lease_core l) p (lease_core lp)); try done.
  apply ledger_lookup. eauto.
Qed.

(** C6. Exclusivity: two different open bindings of the same endpoint
    (provider and node) are both independent shares. *)
Theorem reachable_exclusive_endpoint ops k1 k2 b1 b2 :
  forallb op_u64 ops = true →
  c_bindings (run_ops ops) !! k1 = Some b1 → c_bindings (run_ops ops) !! k2 = Some b2 → k1 ≠ k2 →
  is_closed (binding_state b1) = false → is_closed (binding_state b2) = false →
  binding_provider b1 = binding_provider b2 → binding_node b1 = binding_node b2 →
  binding_scope b1 = IndependentShare ∧ binding_scope b2 = IndependentShare.
Proof. intros Hu. apply (ci_exclusive _ (run_ops_inv ops Hu)). Qed.

(** ** History moves forward *)

Record forward (c c' : Cluster) : Prop := {
  fw_leases : ∀ k l, c_leases c !! k = Some l →
    ∃ l', c_leases c' !! k = Some l' ∧ same_lease l l'
          ∧ rtc lease_move (lease_state l) (lease_state l');
  fw_bindings : ∀ k b, c_bindings c !! k = Some b →
    ∃ b', c_bindings c' !! k = Some b' ∧ same_binding b b'
          ∧ (is_closed (binding_state b) = true → is_closed (binding_state b') = true);
  fw_sessions : ∀ m s, c_sessions c !! m = Some s → ∃ s', c_sessions c' !! m = Some s' ∧ s ≤ s';
  fw_nodes : dom (g_nodes (c_graph c)) ⊆ dom (g_nodes (c_graph c'));
  fw_revision : g_revision (c_graph c) ≤ g_revision (c_graph c');
  fw_retired : ∀ n, is_Some (g_nodes (c_graph c) !! n) → c_node_states c !! n = Some NRetired →
    c_node_states c' !! n = Some NRetired;
}.

Lemma same_lease_refl l : same_lease l l.
Proof. done. Qed.
Lemma same_lease_trans l l' l'' : same_lease l l' → same_lease l' l'' → same_lease l l''.
Proof. unfold same_lease. intuition congruence. Qed.
Lemma same_binding_refl b : same_binding b b.
Proof. done. Qed.
Lemma same_binding_trans b b' b'' : same_binding b b' → same_binding b' b'' → same_binding b b''.
Proof. unfold same_binding. intuition congruence. Qed.

#[export] Hint Resolve same_lease_refl same_binding_refl : archon.

#[export] Instance forward_refl : Reflexive forward.
Proof.
  intros c. split; [| | |done|reflexivity|done].
  - intros k l Hl. exists l. split_and!; [done|done|reflexivity].
  - intros k b Hb. by exists b.
  - intros m s Hs. exists s. split; [done|reflexivity].
Qed.

#[export] Instance forward_trans : Transitive forward.
Proof.
  intros c1 c2 c3 [L1 B1 S1 N1 R1 T1] [L2 B2 S2 N2 R2 T2]. split.
  - intros k l (l1 & H1 & Hs1 & Hm1)%L1. destruct (L2 _ _ H1) as (l2 & H2 & Hs2 & Hm2).
    exists l2. split_and!; [done|by eapply same_lease_trans|by etrans].
  - intros k b (b1 & H1 & Hs1 & Hc1)%B1. destruct (B2 _ _ H1) as (b2 & H2 & Hs2 & Hc2).
    exists b2. split_and!; [done|by eapply same_binding_trans|auto].
  - intros m s (s1 & H1 & Hs1)%S1. destruct (S2 _ _ H1) as (s2 & H2 & Hs2).
    exists s2. split; [done|lia].
  - by etrans.
  - by etrans.
  - intros n Hn Ht. apply T2; [|by apply T1]. apply elem_of_dom, N1. by apply elem_of_dom.
Qed.

(** The components a step leaves alone move forward trivially. *)
Lemma forward_leases_same c c' :
  c_leases c' = c_leases c → ∀ k l, c_leases c !! k = Some l →
    ∃ l', c_leases c' !! k = Some l' ∧ same_lease l l' ∧ rtc lease_move (lease_state l) (lease_state l').
Proof. intros -> k l Hl. exists l. split_and!; [done|done|reflexivity]. Qed.

Lemma forward_bindings_same c c' :
  c_bindings c' = c_bindings c → ∀ k b, c_bindings c !! k = Some b →
    ∃ b', c_bindings c' !! k = Some b' ∧ same_binding b b'
      ∧ (is_closed (binding_state b) = true → is_closed (binding_state b') = true).
Proof. intros -> k b Hb. by exists b. Qed.

Lemma forward_sessions_same c c' :
  c_sessions c' = c_sessions c → ∀ m s, c_sessions c !! m = Some s →
    ∃ s', c_sessions c' !! m = Some s' ∧ s ≤ s'.
Proof. intros -> m s Hs. exists s. split; [done|reflexivity]. Qed.

Lemma binding_move_closed c b b' :
  binding_move c b b' → is_closed (binding_state b) = true → is_closed (binding_state b') = true.
Proof. intros []; destruct (binding_state b), (binding_state b'); simpl in *; congruence. Qed.

Lemma kstep_forward c c' : cluster_inv c → kstep c c' → forward c c'.
Proof.
  intros Hinv [g _ _ _ Hdom Hrev|g _ (Hn & _ & _ & _ & Hrev)|id l Hid|id l l' Hl Hsame Hmove _|
    id b l fences Hid|id b b' Hb Hsame Hmove|m s Hs|e f|ns Hns]; split;
    try (by apply forward_leases_same); try (by apply forward_bindings_same);
    try (by apply forward_sessions_same); try done; try (cbn; reflexivity).
  - cbn. rewrite Hrev. unfold sat_add. pose proof (ci_revision _ Hinv). lia.
  - cbn. by rewrite Hn.
  - cbn. by rewrite Hrev.
  - intros k x Hx. exists x. cbn. rewrite lookup_insert_ne by congruence.
    split_and!; [done|done|reflexivity].
  - intros k x Hx. cbn. rewrite lookup_insert. case_decide.
    + subst. simplify_eq. exists l'. split_and!; [done|done|by apply rtc_once].
    + exists x. split_and!; [done|done|reflexivity].
  - intros k x Hx. exists x. cbn. by rewrite lookup_insert_ne by congruence.
  - intros k x Hx. cbn. rewrite lookup_insert. case_decide; [|by exists x].
    subst. simplify_eq. exists b'. split_and!; [done|done|by eapply binding_move_closed].
  - intros m0 s0 Hs0. cbn. rewrite lookup_insert. case_decide; [subst; eauto|].
    exists s0. split; [done|reflexivity].
Qed.

Lemma ksteps_forward c c' : cluster_inv c → rtc kstep c c' → forward c c'.
Proof.
  intros Hinv Hsteps. induction Hsteps as [|c c1 c' Hstep Hsteps IH]; [reflexivity|].
  etrans; [by apply kstep_forward|]. apply IH. by eapply kstep_inv.
Qed.

Lemma run_op_forward c op : cluster_inv c → op_u64 op = true → forward c (run_op c op).
Proof.
  intros Hinv Hu. assert (∀ c1 c2, c_leases c2 = c_leases c1 → c_bindings c2 = c_bindings c1 →
    c_sessions c2 = c_sessions c1 → dom (g_nodes (c_graph c2)) = dom (g_nodes (c_graph c1)) →
    g_revision (c_graph c2) = g_revision (c_graph c1) → c_node_states c2 = c_node_states c1 →
    forward c1 c2) as Hsame.
  { intros c1 c2 ? ? ? Hd Hr Hs. split; [by apply forward_leases_same|by apply forward_bindings_same|
      by apply forward_sessions_same|by rewrite Hd|by rewrite Hr|by rewrite Hs]. }
  destruct op as [cmd|now|b|b| |]; cbn [run_op]; try (by apply Hsame).
  - rewrite apply_run. destruct (dispatch cmd c) as [c' [es|e]] eqn:Hrun; cbn [fst].
    + etrans; [apply ksteps_forward; [done|by eapply dispatch_ksteps]|]. by apply Hsame.
    + by rewrite (dispatch_error_unchanged c cmd c' e).
  - apply Hsame; try done. cbn. by rewrite dom_fmap_L.
Qed.

Lemma run_ops_snoc ops op : run_ops (ops ++ [op]) = run_op (run_ops ops) op.
Proof. unfold run_ops. by rewrite foldl_app. Qed.

Lemma run_ops_forward ops more :
  forallb op_u64 (ops ++ more) = true → forward (run_ops ops) (run_ops (ops ++ more)).
Proof.
  induction more as [|op more IH] using rev_ind; [rewrite app_nil_r; reflexivity|].
  rewrite app_assoc, forallb_app. intros [Hu Hop]%andb_prop.
  etrans; [by apply IH|]. rewrite run_ops_snoc. apply run_op_forward; [by apply run_ops_inv|].
  by apply andb_prop in Hop as [Hop _].
Qed.

(** The lease state machine: dead leases stay dead. *)
Lemma lease_moves_dead s s' :
  rtc lease_move s s' → is_live_state s = false → is_live_state s' = false.
Proof.
  induction 1 as [|s s1 s' Hmove Hmoves IH]; [done|]. intros Hs. apply IH.
  destruct (is_live_state s1) eqn:E; [|done]. by rewrite (move_live _ _ Hmove E) in Hs.
Qed.

Lemma lease_moves_ended s s' : rtc lease_move s s' → ended s = true → s' = s.
Proof.
  induction 1 as [|s s1 s' Hmove Hmoves IH]; [done|]. intros Hs.
  assert (s1 = s) as -> by (destruct Hmove as [| | |s s0 Hl| ]; try done; by destruct s).
  by apply IH.
Qed.

(** Leases along any continuation of a history: a stored lease is never
    removed, its identity, owner, parent, claims and priority never change, a
    lease that ended never lives again, and Failed, Released, Revoked and
    Expired are final. *)
Theorem lease_history ops more k l :
  forallb op_u64 (ops ++ more) = true → c_leases (run_ops ops) !! k = Some l →
  ∃ l', c_leases (run_ops (ops ++ more)) !! k = Some l' ∧ same_lease l l'
    ∧ (is_live_state (lease_state l) = false → is_live_state (lease_state l') = false)
    ∧ (ended (lease_state l) = true → lease_state l' = lease_state l).
Proof.
  intros Hu Hl.
  destruct (fw_leases _ _ (run_ops_forward ops more Hu) k l Hl) as (l' & Hl' & Hsame & Hmoves).
  exists l'. split_and!; eauto using lease_moves_dead, lease_moves_ended.
Qed.

(** Bindings along any continuation of a history: a binding is never
    removed, its lease, node, provider, scope and fence never change, and a
    closed binding never reopens. *)
Theorem binding_history ops more k b :
  forallb op_u64 (ops ++ more) = true → c_bindings (run_ops ops) !! k = Some b →
  ∃ b', c_bindings (run_ops (ops ++ more)) !! k = Some b' ∧ same_binding b b'
    ∧ (is_closed (binding_state b) = true → is_closed (binding_state b') = true).
Proof. intros Hu. apply (fw_bindings _ _ (run_ops_forward ops more Hu)). Qed.

(** Agent sessions, graph revisions and retirement only move forward:
    the session of a machine never decreases, nodes are never forgotten, the
    revision never decreases, and a retired resource stays retired. *)
Theorem control_history ops more :
  forallb op_u64 (ops ++ more) = true →
  let c := run_ops ops in let c' := run_ops (ops ++ more) in
  (∀ m s, c_sessions c !! m = Some s → ∃ s', c_sessions c' !! m = Some s' ∧ s ≤ s')
  ∧ g_revision (c_graph c) ≤ g_revision (c_graph c')
  ∧ (∀ n, node_state c n = Some NRetired → node_state c' n = Some NRetired).
Proof.
  intros Hu. cbv zeta. pose proof (run_ops_forward ops more Hu) as [_ _ Hs Hn Hr Ht].
  split_and!; [done|done|]. intros n. unfold node_state, graph_node.
  destruct (g_nodes (c_graph (run_ops ops)) !! n) as [nd|] eqn:Hnd; [|done].
  assert (is_Some (g_nodes (c_graph (run_ops (ops ++ more))) !! n)) as [nd' ->].
  { apply elem_of_dom, Hn, elem_of_dom. eauto. }
  specialize (Ht n ltac:(by rewrite Hnd)).
  destruct (c_node_states (run_ops ops) !! n) as [s|]; simpl; intros [= ->].
  by rewrite Ht.
Qed.
