(* ===== verification/Bindings.v ===== *)
(** * Bindings: acknowledgements, fences and sessions

    A binding is the provider-side half of a lease.  Capacity stays occupied
    until the machine's current agent acknowledges release or fencing with
    the binding's own fence; exclusive endpoints get strictly increasing
    fences. *)

From S2P Require Import Prelude.
From S2P Require Import Identifier.
From S2P Require Import Types.
From S2P Require Import Graph.
From S2P Require Import GraphFacts.
From S2P Require Import Occupancy.
From S2P Require Import Command.
From S2P Require Import Cluster.
From S2P Require Import Ledger.
From S2P Require Import LeaseTree.
From S2P Require Import Handlers.
From S2P Require Import ClusterInv.
From S2P Require Import Steps.
From S2P Require Import Safety.
From S2P Require Import Authority.

(** ** What each command does to the binding table *)

Definition acked (c : Cluster) (id : BindingId) (session fence : u64) : Prop :=
  ∃ b m, c_bindings c !! id = Some b ∧ binding_fence b = fence
    ∧ machine_of (c_graph c) (binding_node b) = Some m ∧ c_sessions c !! m = Some session.

Definition bindings_after (c : Cluster) (cmd : Command) (bs : gmap N Binding) : Prop :=
  match cmd with
  | OpenBinding id lease node provider scope =>
      bs = c_bindings c
      ∨ c_bindings c !! id = None
        ∧ ∃ session, bs = <[id := mkBinding id lease node provider scope
               (next_fence c id node provider scope).1 session BPreparing None]> (c_bindings c)
  | ActivateBinding id =>
      bs = c_bindings c
      ∨ bs = alter (binding_with_state BActive) id (c_bindings c)
        ∧ ∃ b, c_bindings c !! id = Some b ∧ binding_state b = BPreparing
  | FailBinding id _ =>
      bs = c_bindings c
      ∨ bs = alter (binding_with_state BFailed) id (c_bindings c)
        ∧ ∃ b, c_bindings c !! id = Some b ∧ is_closed (binding_state b) = false
  | RecordBindingPrepared id session handle fence =>
      acked c id session fence
      ∧ bs = alter (λ b, binding_with_session session (binding_with_handle handle b)) id
               (c_bindings c)
  | RecordBindingActive id session fence =>
      acked c id session fence ∧ bs = alter (binding_with_session session) id (c_bindings c)
  | RecordBindingReleased id session fence =>
      acked c id session fence
      ∧ bs = alter (λ b, binding_with_state BReleased (binding_with_session session b)) id
               (c_bindings c)
  | RecordBindingFenced id session fence =>
      acked c id session fence
      ∧ bs = alter (λ b, binding_with_state BFenced (binding_with_session session b)) id
               (c_bindings c)
  | RecordBindingFailed id session _ fence =>
      acked c id session fence
      ∧ bs = alter (λ b,
               let b := binding_with_session session b in
               if is_closed (binding_state b) then b else binding_with_state BFailed b) id
               (c_bindings c)
  | RebindSession id session =>
      bs = alter (binding_with_session session) id (c_bindings c)
  | _ => bs = c_bindings c
  end.

Lemma acknowledged_bind {A} id session fence (k : Binding → M A) c c' a :
  (b ← acknowledged id session fence; k b) c = (c', Ok a) →
  ∃ b, c_bindings c !! id = Some b ∧ acked c id session fence ∧ k b c = (c', Ok a).
Proof.
  rewrite bind_run. destruct (acknowledged _ _ _ c) as [c1 [b|e]] eqn:Hack; [|done].
  apply acknowledged_Ok in Hack as (-> & Hb & Hf & m & Hm & Hs). intros Hrun.
  exists b. split_and!; [done| |done]. exists b, m. done.
Qed.

Lemma open_binding_table id lease node provider scope c c' es :
  open_binding id lease node provider scope c = (c', Ok es) →
  bindings_after c (OpenBinding id lease node provider scope) (c_bindings c').
Proof.
  intros Hrun. unfold open_binding in Hrun. run Hrun; [by left..|].
  rename select (next_fence _ _ _ _ _ = _) into Hf.
  right. split; [done|]. cbn. rewrite Hf. eauto.
Qed.

Lemma fail_binding_table id reason c c' es :
  fail_binding id reason c = (c', Ok es) →
  bindings_after c (FailBinding id reason) (c_bindings c').
Proof. intros Hrun. unfold fail_binding in Hrun. run Hrun; [by left|right; eauto]. Qed.

Lemma dispatch_bindings c cmd c' es :
  cluster_inv c → dispatch cmd c = (c', Ok es) → bindings_after c cmd (c_bindings c').
Proof.
  intros Hinv. destruct cmd; cbn [dispatch bindings_after].
  9: rewrite fail_lease_run by done; intros Hrun; by run Hrun.
  10: rewrite complete_lease_run by done; intros Hrun; cbv zeta in Hrun; by run Hrun.
  10: rewrite revoke_lease_run by done; intros Hrun; by run Hrun.
  10: rewrite expire_lease_run by done; intros Hrun; by run Hrun.
  11: apply open_binding_table.
  13: by apply (fail_binding_table binding reason).
  14, 15, 16, 17: intros (b & Hb & Hack & Hrun)%acknowledged_bind; run Hrun; done.
  14: intros (b & Hb & Hack & Hrun)%acknowledged_bind; run Hrun; done.
  all: intros Hrun; unfold apply_graph, apply_resource_facts, apply_provider_facts,
    install_resource_graph, adopt_fact_writers,
    reserve_lease, promote_lease, open_lease, activate_lease, release_lease, renew_lease,
    activate_binding, fence_binding, release_binding, set_agent_session, set_node_health,
    rebind_session, advance_endpoint_fence, quarantine_node, unquarantine_node, set_node_state
    in Hrun; run Hrun; try done; try (by left).
  right. split; [done|]. eexists. split; [done|].
  repeat match goal with H : negb (bool_decide _) = false |- _ =>
    apply negb_false_iff, bool_decide_eq_true in H end. done.
Qed.

(** ** Closing *)

(** An in-place update that does not close keeps open bindings open. *)
Lemma alter_keeps_open (f : Binding → Binding) (id : N) (bs : gmap N Binding) (k : N) b b' :
  (∀ x, is_closed (binding_state x) = false → is_closed (binding_state (f x)) = false) →
  bs !! k = Some b → is_closed (binding_state b) = false →
  alter f id bs !! k = Some b' → is_closed (binding_state b') = false.
Proof.
  intros Hf Hb Ho. rewrite lookup_alter.
  case_decide; subst; rewrite Hb; intros [= <-]; auto.
Qed.

Lemma closes_by_ack c cmd bs k b b' :
  bindings_after c cmd bs → c_bindings c !! k = Some b → is_closed (binding_state b) = false →
  bs !! k = Some b' → is_closed (binding_state b') = true →
  ∃ session, acked c k session (binding_fence b)
    ∧ (cmd = RecordBindingReleased k session (binding_fence b)
       ∨ cmd = RecordBindingFenced k session (binding_fence b)).
Proof.
  intros Hafter Hb Ho Hb' Hcl.
  assert (∀ f id, bs = alter f id (c_bindings c) → ∃ x, c_bindings c !! k = Some x
    ∧ (id ≠ k ∧ b' = x ∨ id = k ∧ b' = f x)) as Hshape.
  { intros f id ->. rewrite lookup_alter in Hb'. exists b. split; [done|].
    case_decide; subst; rewrite Hb in Hb'; simpl in Hb'; naive_solver. }
  assert (∀ f id, (∀ x, is_closed (binding_state x) = false →
      is_closed (binding_state (f x)) = false) → bs ≠ alter f id (c_bindings c)) as Hno.
  { intros f id Hf ->. by rewrite (alter_keeps_open f id (c_bindings c) k b b') in Hcl. }
  assert (bs ≠ c_bindings c) as Hsame by (intros ->; congruence).
  destruct cmd; cbn in Hafter; try done.
  - destruct Hafter as [?|(Hnone & s & ->)]; [done|]. exfalso.
    rewrite lookup_insert_ne in Hb' by congruence. congruence.
  - destruct Hafter as [?|[Heq _]]; [done|]. by apply Hno in Heq.
  - destruct Hafter as [?|[Heq _]]; [done|]. by apply Hno in Heq.
  - destruct Hafter as [_ Heq]. by apply Hno in Heq.
  - destruct Hafter as [_ Heq]. by apply Hno in Heq.
  - destruct Hafter as [Hack Heq]. destruct (Hshape _ _ Heq) as (x & Hx & [[_ ->]|[-> ->]]);
      [congruence|]. pose proof Hack as (y & m & Hy & Hf & _). simplify_eq. eauto.
  - destruct Hafter as [Hack Heq]. destruct (Hshape _ _ Heq) as (x & Hx & [[_ ->]|[-> ->]]);
      [congruence|]. pose proof Hack as (y & m & Hy & Hf & _). simplify_eq. eauto.
  - destruct Hafter as [_ Heq]. apply Hno in Heq; [done|]. intros x Hx. simpl. by rewrite Hx.
  - by apply Hno in Hafter.
Qed.

(** C7. A binding closes only on a RecordBindingReleased or
    RecordBindingFenced that carries the binding's own fence and the current
    session of the machine holding its node: no lease command, timeout or
    stale agent closes it. *)
Theorem binding_closes_only_by_ack c cmd c' es k b b' :
  cluster_inv c → dispatch cmd c = (c', Ok es) →
  c_bindings c !! k = Some b → is_closed (binding_state b) = false →
  c_bindings c' !! k = Some b' → is_closed (binding_state b') = true →
  ∃ session m,
    machine_of (c_graph c) (binding_node b) = Some m ∧ c_sessions c !! m = Some session
    ∧ (cmd = RecordBindingReleased k session (binding_fence b)
       ∨ cmd = RecordBindingFenced k session (binding_fence b)).
Proof.
  intros Hinv Hrun Hb Ho Hb' Hcl. pose proof (dispatch_bindings c cmd c' es Hinv Hrun) as Hafter.
  destruct (closes_by_ack c cmd _ k b b' Hafter Hb Ho Hb' Hcl)
    as (s & (y & m & Hy & _ & Hm & Hs) & Hor). simplify_eq. eauto.
Qed.

(** C8. Capacity is not freed early: while a binding of a lease is open, no
    command but the acknowledgement of that binding makes the lease stop
    occupying; releasing, revoking, expiring, failing or completing the
    lease leaves its capacity occupied. *)
Theorem open_binding_occupies c cmd c' es k b :
  cluster_inv c → command_u64 cmd = true → dispatch cmd c = (c', Ok es) →
  c_bindings c !! k = Some b → is_closed (binding_state b) = false →
  (∀ session fence, cmd ≠ RecordBindingReleased k session fence
                    ∧ cmd ≠ RecordBindingFenced k session fence) →
  occupies c' (binding_lease b) = true.
Proof.
  intros Hinv Hu Hrun Hb Ho Hno.
  pose proof (dispatch_inv c cmd c' es Hinv Hu Hrun) as Hinv'.
  destruct (fw_bindings c c' ltac:(apply ksteps_forward; [done|by eapply dispatch_ksteps]) k b Hb)
    as (b' & Hb' & Hsame & _).
  assert (is_closed (binding_state b') = false) as Ho'.
  { destruct (is_closed (binding_state b')) eqn:Hcl; [|done]. exfalso.
    destruct (closes_by_ack c cmd _ k b b' (dispatch_bindings c cmd c' es Hinv Hrun) Hb Ho Hb' Hcl)
      as (s & _ & Hor). destruct (Hno s (binding_fence b)). naive_solver. }
  destruct (ci_binds _ Hinv' _ _ Hb') as (_ & l & Hl & _).
  destruct Hsame as (_ & Hlease & _). rewrite <-Hlease.
  rewrite (occupies_lookup c' _ l) by (done || apply (ci_keyed _ Hinv')).
  assert (open_bindings c' (binding_lease b') = true) as ->; [|by rewrite orb_true_r].
  apply open_bindings_true. eauto.
Qed.

(** ** Fences *)

Definition watermark (c : Cluster) (provider : ProviderId) (node : NodeId) : u64 :=
  default 0 (c_last_fence c !! (provider, node)).

Record fence_inv (c : Cluster) : Prop := {
  fi_below : ∀ k b, c_bindings c !! k = Some b → binding_scope b = Exclusive →
    binding_fence b ≤ watermark c (binding_provider b) (binding_node b);
  fi_unique : ∀ k1 k2 b1 b2, c_bindings c !! k1 = Some b1 → c_bindings c !! k2 = Some b2 →
    k1 ≠ k2 → binding_scope b1 = Exclusive → binding_scope b2 = Exclusive →
    binding_provider b1 = binding_provider b2 → binding_node b1 = binding_node b2 →
    binding_fence b1 ≠ binding_fence b2;
}.

(** Fences and watermarks of two states, when the table has the same keys. *)
Definition fences_kept (c c' : Cluster) : Prop :=
  (∀ k b', c_bindings c' !! k = Some b' → ∃ b, c_bindings c !! k = Some b ∧ same_binding b b')
  ∧ ∀ p n, watermark c p n ≤ watermark c' p n.

Lemma fence_inv_kept c c' : fences_kept c c' → fence_inv c → fence_inv c'.
Proof.
  intros [Hback Hwm] [Hb Hu]. split.
  - intros k b' (b & Hk & _ & _ & Hn & Hp & Hs & Hf)%Hback Hex. rewrite Hf, Hp, Hn.
    etrans; [apply (Hb k b Hk); congruence|apply Hwm].
  - intros k1 k2 b1 b2 (x1 & H1 & _ & _ & Hn1 & Hp1 & Hs1 & Hf1)%Hback
      (x2 & H2 & _ & _ & Hn2 & Hp2 & Hs2 & Hf2)%Hback Hne He1 He2 Hp Hn.
    rewrite Hf1, Hf2. apply (Hu k1 k2); congruence.
Qed.

Lemma kstep_fences c c' :
  kstep c c' → dom (c_bindings c') = dom (c_bindings c) → fences_kept c c'.
Proof.
  intros Hstep Hdom. assert (∀ k b, c_bindings c !! k = Some b →
    ∃ b0, c_bindings c !! k = Some b0 ∧ same_binding b0 b) as Hrefl by eauto with archon.
  destruct Hstep as [g|g|id l Hid|id l l' Hl Hsame Hmove _|
    id b l fences Hid|id b b' Hb Hsame Hmove|m s Hs|[p n] f Hf|ns Hns];
    try (split; [done|intros; reflexivity]).
  - exfalso. cbn in Hdom. apply not_elem_of_dom in Hid. rewrite <-Hdom in Hid.
    apply Hid, elem_of_dom. rewrite lookup_insert_eq. eauto.
  - split; [|intros; reflexivity]. intros k x. cbn. rewrite lookup_insert.
    case_decide; [|by apply Hrefl]. intros [= <-]. subst. eauto.
  - split; [done|]. intros p' n'. unfold watermark. cbn. rewrite lookup_insert.
    case_decide; simplify_eq; [done|reflexivity].
Qed.

Lemma kstep_dom c c' : kstep c c' → dom (c_bindings c) ⊆ dom (c_bindings c').
Proof. intros []; cbn; rewrite ?dom_insert_L; set_solver. Qed.

Lemma ksteps_dom c c' : rtc kstep c c' → dom (c_bindings c) ⊆ dom (c_bindings c').
Proof. induction 1; [done|]. etrans; [by apply kstep_dom|done]. Qed.

Lemma ksteps_fences c c' :
  rtc kstep c c' → dom (c_bindings c') = dom (c_bindings c) → fence_inv c → fence_inv c'.
Proof.
  induction 1 as [|c c1 c' Hstep Hsteps IH]; [done|]. intros Hdom Hinv.
  pose proof (kstep_dom _ _ Hstep). pose proof (ksteps_dom _ _ Hsteps).
  apply IH; [set_solver|]. eapply fence_inv_kept; [|done]. apply kstep_fences; [done|set_solver].
Qed.

Lemma bindings_after_dom c cmd bs :
  bindings_after c cmd bs →
  dom bs = dom (c_bindings c)
  ∨ ∃ id lease node provider scope, cmd = OpenBinding id lease node provider scope.
Proof.
  destruct cmd; cbn; intros Hafter; try (right; by eauto 6); left;
    intuition subst; by rewrite ?dom_alter_L.
Qed.

Lemma open_binding_result id lease node provider scope c c' es :
  open_binding id lease node provider scope c = (c', Ok es) →
  c' = c
  ∨ c_bindings c !! id = None ∧ ∃ session,
      let b := mkBinding id lease node provider scope (next_fence c id node provider scope).1
                 session BPreparing None in
      c' = set_bindings (<[id := b]> (c_bindings c))
             (set_last_fence (next_fence c id node provider scope).2 c).
Proof.
  intros Hrun. unfold open_binding in Hrun. run Hrun; [by left..|].
  right. split; [done|]. eexists. cbv zeta. reflexivity.
Qed.

(** The fence of a new exclusive binding, below the end of [u64]. *)
Lemma next_fence_exclusive c id node provider :
  watermark c provider node < u64_max →
  next_fence c id node provider Exclusive
  = (watermark c provider node + 1,
     <[(provider, node) := watermark c provider node + 1]> (c_last_fence c)).
Proof.
  intros Hw. unfold next_fence. fold (watermark c provider node).
  rewrite wrap_add_exact; [done|]. unfold u64_max in Hw. lia.
Qed.

Lemma fence_inv_exclusive c id b :
  fence_inv c → c_bindings c !! id = None →
  binding_fence b = watermark c (binding_provider b) (binding_node b) + 1 →
  fence_inv (set_bindings (<[id := b]> (c_bindings c))
    (set_last_fence (<[(binding_provider b, binding_node b) := binding_fence b]>
                       (c_last_fence c)) c)).
Proof.
  intros [Hb Hu] Hid Hf. split.
  - intros k x. cbn. unfold watermark. cbn. rewrite !lookup_insert. case_decide.
    + intros [= <-] _. rewrite decide_True by done. simpl. reflexivity.
    + intros Hx Hex. specialize (Hb k x Hx Hex). unfold watermark in *.
      case_decide as Heq; [|done]. injection Heq as Hp Hn. simpl.
      rewrite <-Hp, <-Hn in Hb. rewrite Hf. lia.
  - intros k1 k2 b1 b2. cbn. rewrite !lookup_insert. intros H1 H2 Hne He1 He2 Hp Hn.
    destruct (decide (id = k1)), (decide (id = k2)); [congruence| | |].
    + injection H1 as <-. specialize (Hb k2 b2 H2 He2). rewrite <-Hp, <-Hn in Hb. lia.
    + injection H2 as <-. specialize (Hb k1 b1 H1 He1). rewrite Hp, Hn in Hb. lia.
    + by apply (Hu k1 k2).
Qed.

Lemma fence_inv_share c id b :
  fence_inv c → binding_scope b = IndependentShare →
  fence_inv (set_bindings (<[id := b]> (c_bindings c)) (set_last_fence (c_last_fence c) c)).
Proof.
  intros [Hb Hu] Hs. split.
  - intros k x. cbn. rewrite lookup_insert. case_decide; [intros [= <-]; congruence|apply Hb].
  - intros k1 k2 b1 b2. cbn. rewrite !lookup_insert. intros H1 H2 Hne He1 He2.
    repeat case_decide; simplify_eq; try congruence. by apply (Hu k1 k2).
Qed.

Definition fence_room (c : Cluster) (cmd : Command) : Prop :=
  ∀ id lease node provider, cmd = OpenBinding id lease node provider Exclusive →
    watermark c provider node < u64_max.

Lemma dispatch_fence_inv c cmd c' es :
  cluster_inv c → command_u64 cmd = true → fence_inv c → fence_room c cmd →
  dispatch cmd c = (c', Ok es) → fence_inv c'.
Proof.
  intros Hinv Hu Hf Hroom Hrun.
  destruct (bindings_after_dom c cmd _ (dispatch_bindings c cmd c' es Hinv Hrun))
    as [Hdom|(id & lease & node & provider & scope & ->)].
  - eapply ksteps_fences; [by eapply dispatch_ksteps|done|done].
  - apply open_binding_result in Hrun as [->|(Hid & session & ->)]; [done|]. destruct scope.
    + rewrite next_fence_exclusive by (by eapply Hroom).
      by apply (fence_inv_exclusive c id (mkBinding id lease node provider Exclusive _ _ _ _)).
    + by apply (fence_inv_share c id (mkBinding id lease node provider IndependentShare _ _ _ _)).
Qed.

(** C9. Fencing: while the watermark of the endpoint has not reached the last
    [u64] value, opening an exclusive binding gives it a fence above every
    exclusive fence ever issued for that endpoint, so fences identify
    generations; every command preserves that. *)
Theorem exclusive_fences_increase c cmd c' es :
  cluster_inv c → command_u64 cmd = true → fence_inv c → fence_room c cmd →
  dispatch cmd c = (c', Ok es) →
  fence_inv c'
  ∧ ∀ k b, c_bindings c' !! k = Some b → c_bindings c !! k = None → binding_scope b = Exclusive →
      binding_fence b = watermark c (binding_provider b) (binding_node b) + 1
      ∧ ∀ j b0, c_bindings c !! j = Some b0 → binding_scope b0 = Exclusive →
          binding_provider b0 = binding_provider b → binding_node b0 = binding_node b →
          binding_fence b0 < binding_fence b.
Proof.
  intros Hinv Hu Hf Hroom Hrun. split; [by eapply dispatch_fence_inv|].
  intros k b Hb Hnone Hex.
  destruct (bindings_after_dom c cmd _ (dispatch_bindings c cmd c' es Hinv Hrun))
    as [Hdom|(id & lease & node & provider & scope & ->)].
  { apply not_elem_of_dom in Hnone. rewrite <-Hdom in Hnone. apply not_elem_of_dom in Hnone. congruence. }
  apply open_binding_result in Hrun as [->|(Hid & session & ->)]; [congruence|].
  cbn in Hb. rewrite lookup_insert in Hb. case_decide; [|congruence]. injection Hb as <-.
  cbn in Hex. subst scope. rewrite next_fence_exclusive by (by eapply Hroom).
  split; [done|]. intros j b0 Hj He0 Hp Hn. cbn in *.
  pose proof (fi_below _ Hf j b0 Hj He0) as Hle. rewrite Hp, Hn in Hle. lia.
Qed.

(** At the end of the range the guarantee is lost: the next fence is
    computed with an unchecked addition, so after the watermark was advanced
    to [u64::MAX] a new exclusive binding gets fence 0, below every fence
    issued before. *)
Theorem exclusive_fence_wraps c id node provider :
  watermark c provider node = u64_max →
  (next_fence c id node provider Exclusive).1 = 0.
Proof.
  intros Hw. unfold next_fence. fold (watermark c provider node). by rewrite Hw.
Qed.
