(* ===== verification/Leases.v ===== *)
(** * Lease commands: functional specifications

    When a reservation is accepted, what activation has checked, what the
    terminating commands do to the lease tree and which fences they send,
    and that graph updates do not move the machines under occupied claims. *)

From S2P Require Import Prelude.
From S2P Require Import Identifier.
From S2P Require Import Types.
From S2P Require Import Graph.
From S2P Require Import GraphFacts.
From S2P Require Import Occupancy.
From S2P Require Import Command.
From S2P Require Import Cluster.
From S2P Require Import Ledger.
From S2P Require Import LeaseTree.
From S2P Require Import Handlers.
From S2P Require Import ClusterInv.
From S2P Require Import Steps.
From S2P Require Import Safety.
From S2P Require Import Authority.

(** ** Reservation *)

(** The capacity check, read as arithmetic on exact sums. *)
Lemma can_cover_iff o g c :
  can_cover o g c = Ok true ↔
  is_Some (g_nodes g !! claim_node c)
  ∧ ∀ d, quantity_get (claim_quantity c) d
         ≤ node_cap g (claim_node c) d - occ_amount o (claim_node c) d.
Proof.
  split; [apply can_cover_true|]. intros [[nd Hnd] Hle].
  unfold can_cover, remaining, graph_node. rewrite Hnd. cbn [ok_or mbind result_bind]. f_equal.
  apply quantity_le_spec. intros d. rewrite quantity_get_sub. specialize (Hle d).
  unfold node_cap, graph_node in Hle. by rewrite Hnd in Hle.
Qed.

Lemma check_cover_iff c id claims :
  cluster_inv c → c_leases c !! id = None → resolved_claims (c_graph c) claims →
  check_cover c id claims = Ok () ↔
  ∀ n d, lg_total (ledger_of c) n d + claims_amount claims n d ≤ node_cap (c_graph c) n d.
Proof.
  intros Hinv Hid Hres. split; [by apply check_cover_fits|]. intros Hfit.
  unfold check_cover. cbv zeta. apply try_for_Ok. intros cl Hcl.
  assert (can_cover (occupancy_from_leases (bt_values (c_leases c)) (open_binding_leases c) {[id]})
    (c_graph c) cl = Ok true) as ->; [|done].
  apply can_cover_iff. split.
  - by destruct (co_claim _ _ (resolved_claims_ok _ _ Hres) cl Hcl) as (_ & _ & ?).
  - intros d. rewrite occupancy_exact by (done || by intros j ->%elem_of_singleton).
    specialize (Hfit (claim_node cl) d). pose proof (claims_amount_elem claims cl d Hcl). lia.
Qed.

Lemma check_not_quarantined_iff c claims :
  check_not_quarantined c claims = Ok () ↔
  ∀ cl, cl ∈ claims → node_quarantined c (claim_node cl) = false.
Proof.
  unfold check_not_quarantined. rewrite try_for_Ok. split; intros Hall cl Hcl; specialize (Hall cl Hcl).
  - by destruct (node_quarantined _ _).
  - by rewrite Hall.
Qed.

Lemma reserve_lease_iff c id owner allocation expires_at priority c' es :
  cluster_inv c → claims_u64 (alloc_claims allocation) = true → c_leases c !! id = None →
  reserve_lease id owner allocation expires_at priority c = (c', Ok es) ↔
  c_agreed c = true ∧ alloc_graph_revision allocation = g_revision (c_graph c) ∧ es = []
  ∧ ∃ claims, resolve_new_claims (c_graph c) (alloc_claims allocation) = Ok claims
      ∧ (∀ cl, cl ∈ claims → node_quarantined c (claim_node cl) = false)
      ∧ (∀ n d, lg_total (ledger_of c) n d + claims_amount claims n d ≤ node_cap (c_graph c) n d)
      ∧ c' = set_leases (<[id := mkLease id owner
               (mkAllocation claims (alloc_graph_revision allocation) (alloc_explanation allocation))
               None expires_at 0 priority LReserved None]> (c_leases c)) c.
Proof.
  intros Hinv Hu Hid. unfold reserve_lease. rewrite bind_agreed, bind_get, Hid, bind_guard.
  destruct (c_agreed c); [|naive_solver].
  destruct (N.eqb_spec (alloc_graph_revision allocation) (g_revision (c_graph c)))
    as [Hrev|Hrev]; [|naive_solver].
  rewrite bind_lift. destruct (resolve_new_claims _ _) as [claims|e] eqn:Hrs; [|naive_solver].
  pose proof (resolve_new_claims_Ok _ _ _ (ci_caps _ Hinv) Hu Hrs) as Hres.
  pose proof (check_not_quarantined_iff c claims) as Hq.
  pose proof (check_cover_iff c id claims Hinv Hid Hres) as Hcov.
  rewrite bind_lift. destruct (check_not_quarantined _ _) as [[]|e];
    [|split; [done|naive_solver]].
  rewrite bind_lift. destruct (check_cover _ _ _) as [[]|e]; [|split; [done|naive_solver]].
  rewrite bind_put, run_ret. split.
  - intros [= <- <-]. split_and!; [done..|]. exists claims. naive_solver.
  - intros (_ & _ & -> & rs & [= <-] & _ & _ & ->). done.
Qed.

(** Reservation is sound and complete: with a fresh id, [ReserveLease] is
    accepted exactly when the cluster is agreed, the allocation was made at
    the current graph revision, its claims resolve (each node once), no
    claimed node or ancestor is blocked, and the exact occupied total plus the
    claims is within capacity everywhere; it then stores one Reserved root
    lease holding the resolved claims and changes nothing else. *)
Theorem reserve_lease_exact c id owner allocation expires_at priority c' es :
  cluster_inv c → claims_u64 (alloc_claims allocation) = true → c_leases c !! id = None →
  reserve_lease id owner allocation expires_at priority c = (c', Ok es) ↔
  c_agreed c = true ∧ alloc_graph_revision allocation = g_revision (c_graph c) ∧ es = []
  ∧ ∃ claims, resolve_new_claims (c_graph c) (alloc_claims allocation) = Ok claims
      ∧ (∀ cl, cl ∈ claims → node_quarantined c (claim_node cl) = false)
      ∧ (∀ n d, lg_total (ledger_of c) n d + claims_amount claims n d ≤ node_cap (c_graph c) n d)
      ∧ c' = set_leases (<[id := mkLease id owner
               (mkAllocation claims (alloc_graph_revision allocation) (alloc_explanation allocation))
               None expires_at 0 priority LReserved None]> (c_leases c)) c.
Proof. apply reserve_lease_iff. Qed.

(** ** Activation *)

Lemma forallb_prepared c id :
  (∀ k b, c_bindings c !! k = Some b → binding_id b = k) →
  forallb (λ binding_id, match c_bindings c !! binding_id with
                         | Some b => binding_prepared b | None => false end)
    (bindings_for c id) = true →
  ∀ k b, c_bindings c !! k = Some b → binding_lease b = id → binding_prepared b = true.
Proof.
  intros Hkey. rewrite forallb_elem. intros Hall k b Hb Hl.
  specialize (Hall k). rewrite Hb in Hall. apply Hall. unfold bindings_for.
  apply list_elem_of_fmap. exists b. split; [by rewrite (Hkey _ _ Hb)|].
  rewrite list_elem_of_In, filter_In, <-list_elem_of_In. split; [apply elem_of_bt_values; eauto|].
  by apply N.eqb_eq.
Qed.

Lemma activation_time c l :
  negb (negb (c_replaying c) && (lease_expires_at l <=? c_now c)) = true →
  negb (negb (c_replaying c) && (lease_prepare_deadline l <? c_now c)) = true →
  c_replaying c = false → c_now c < lease_expires_at l ∧ c_now c ≤ lease_prepare_deadline l.
Proof.
  intros Hexp Hdl Hrep. rewrite Hrep in *. simpl in *.
  rewrite negb_true_iff, N.leb_gt in Hexp. rewrite negb_true_iff, N.ltb_ge in Hdl. done.
Qed.

(** Activation: a Preparing lease becomes Active only at the graph
    revision it was promoted at, with no claimed node blocked, before expiry
    and within its prepare deadline (outside replay), with every one of its
    bindings prepared and holding a provider handle, under an Active parent,
    and for a root lease with a prepared binding on every claimed node. *)
Theorem activate_lease_checked c id l c' es :
  cluster_inv c → c_leases c !! id = Some l → lease_state l = LPreparing →
  activate_lease id c = (c', Ok es) →
  c' = set_leases (<[id := lease_with_state LActive l]> (c_leases c)) c ∧ es = []
  ∧ alloc_graph_revision (lease_allocation l) = g_revision (c_graph c)
  ∧ (∀ cl, cl ∈ lease_claims l → node_quarantined c (claim_node cl) = false)
  ∧ (c_replaying c = false → c_now c < lease_expires_at l ∧ c_now c ≤ lease_prepare_deadline l)
  ∧ (∀ k b, c_bindings c !! k = Some b → binding_lease b = id → binding_prepared b = true)
  ∧ match lease_parent l with
    | Some p => ∃ lp, c_leases c !! p = Some lp ∧ lease_state lp = LActive
    | None => ∀ cl, cl ∈ lease_claims l → ∃ k b, c_bindings c !! k = Some b
                ∧ binding_lease b = id ∧ binding_node b = claim_node cl
                ∧ binding_prepared b = true
    end.
Proof.
  intros Hinv Hl Hst Hrun. unfold activate_lease in Hrun.
  rewrite bind_agreed in Hrun. destruct (c_agreed c); [|done].
  rewrite bind_get_lease, Hl, Hst in Hrun. simpl in Hrun. run Hrun.
  rename select ((_ =? _) = true) into Hrev. apply N.eqb_eq in Hrev.
  rename select (check_not_quarantined _ _ = _) into Hq.
  rewrite (alter_lookup_insert _ _ _ _ Hl).
  split_and!; [done|done|done|by apply check_not_quarantined_iff| | |].
  - by apply (activation_time c l).
  - apply forallb_prepared; [apply Hinv|done].
  - destruct (lease_parent l) as [p|].
    + rename select ((ok_or _ _ ≫= _) = Ok _) into Hpar.
      apply bind_Ok_inv in Hpar as (lp & Hlp%ok_or_Ok & Hact).
      rewrite guard_err_Ok, bool_decide_eq_true in Hact. eauto.
    + rename select (try_for _ (lease_claims l) = _) into Hfor. rewrite try_for_Ok in Hfor.
      intros cl Hcl. specialize (Hfor cl Hcl). rewrite guard_err_Ok, existsb_elem in Hfor.
      destruct Hfor as (b & [k Hk]%elem_of_bt_values & Hb).
      rewrite !andb_true_iff, !N.eqb_eq in Hb. destruct Hb as [[? ?] ?]. eauto 6.
Qed.

(** ** Ending a lease ends its tree *)

Lemma elem_of_lease_tree c id k :
  cluster_inv c → k ∈ lease_tree c id ↔ k = id ∨ under (c_leases c) id k.
Proof.
  intros Hinv. unfold lease_tree. rewrite elem_of_app, list_elem_of_singleton, elem_of_descendants;
    [tauto|done].
Qed.

Lemma end_tree_lookup stop s c id k :
  stops stop s → cluster_inv c →
  (k = id ∨ under (c_leases c) id k → is_Some (c_leases c !! k) →
     ∃ l l', c_leases c !! k = Some l ∧ c_leases (end_tree stop s id c) !! k = Some l'
       ∧ same_lease l l' ∧ is_live_state (lease_state l') = false)
  ∧ (k ≠ id → ¬ under (c_leases c) id k → c_leases (end_tree stop s id c) !! k = c_leases c !! k).
Proof.
  intros Hst Hinv. cbn [end_tree c_leases set_leases].
  rewrite mark_all_lookup by apply (stops_self _ _ Hst). split.
  - intros Hin [l Hl]. rewrite decide_True by (by apply elem_of_lease_tree).
    rewrite Hl. exists l, (mark_unless stop s l).
    split_and!; [done|done|apply mark_same|by apply mark_dead].
  - intros Hne Hnu. rewrite decide_False; [done|]. rewrite elem_of_lease_tree by done. tauto.
Qed.

Lemma elem_of_fence_effects c k e :
  e ∈ fence_effects c k ↔
  ∃ j b, c_bindings c !! j = Some b ∧ binding_lease b = k
    ∧ is_closed (binding_state b) = false ∧ e = binding_effect c b EffFence.
Proof.
  unfold fence_effects, lease_open_bindings. rewrite list_elem_of_fmap. split.
  - intros (b & -> & Hb). rewrite list_elem_of_In, filter_In, <-list_elem_of_In in Hb.
    destruct Hb as [[j Hj]%elem_of_bt_values [Hl%N.eqb_eq Ho%negb_true_iff]%andb_prop]. eauto 6.
  - intros (j & b & Hj & <- & Ho & ->). exists b. split; [done|].
    rewrite list_elem_of_In, filter_In, <-list_elem_of_In, N.eqb_refl, Ho.
    split; [apply elem_of_bt_values; eauto|done].
Qed.

Lemma end_tree_alter stop s id c :
  end_tree stop s id c
  = set_leases (alter (λ l, l) id (c_leases (end_tree stop s id c))) c.
Proof. rewrite alter_id; done. Qed.

(** The commands that end a lease and everything below it. *)
Definition terminates (cmd : Command) (id : LeaseId) : bool :=
  match cmd with
  | FailLease k _ | RevokeLease k | ExpireLease k | CompleteLease k _ => k =? id
  | _ => false
  end.

Lemma terminated_run c cmd id l c' es :
  cluster_inv c → terminates cmd id = true → c_leases c !! id = Some l →
  is_live_state (lease_state l) = true → dispatch cmd c = (c', Ok es) →
  es = lease_tree c id ≫= fence_effects c
  ∧ ∃ stop s f, stops stop s ∧ (∀ l, same_lease l (f l) ∧ lease_state (f l) = lease_state l)
      ∧ c' = set_leases (alter f id (c_leases (end_tree stop s id c))) c.
Proof.
  intros Hinv Ht Hl Hlive Hrun. destruct cmd; try discriminate Ht; apply N.eqb_eq in Ht; subst;
    cbn [dispatch] in Hrun.
  - rewrite fail_lease_run, Hl in Hrun by done. injection Hrun as <- <-. split.
    + unfold lease_tree. rewrite bind_app. cbn [mbind list_bind]. rewrite app_nil_r.
      by destruct (lease_state l).
    + exists ended, LFailed, (λ l, l). split_and!; [by apply stops_ended|done|by apply end_tree_alter].
  - rewrite complete_lease_run, Hl in Hrun by done.
    rewrite bool_decide_false in Hrun by (destruct (lease_state l); set_solver).
    rewrite Hlive in Hrun. cbv zeta in Hrun. cbn [negb] in Hrun. injection Hrun as <- <-.
    split; [done|]. eexists ended_or_completed, _, (lease_with_exit exit_code).
    split_and!; [|done|done]. apply stops_completed. by destruct (exit_code =? 0)%Z.
  - rewrite revoke_lease_run, Hl in Hrun by done. injection Hrun as <- <-. split; [done|].
    exists ended, LRevoked, (λ l, l). split_and!; [by apply stops_ended|done|by apply end_tree_alter].
  - rewrite expire_lease_run, Hl in Hrun by done.
    rewrite bool_decide_false in Hrun by (by destruct (lease_state l)).
    rewrite Hlive in Hrun. cbn [negb] in Hrun. destruct (negb _ && _); [done|].
    injection Hrun as <- <-. split; [done|].
    exists ended, LExpired, (λ l, l). split_and!; [by apply stops_ended|done|by apply end_tree_alter].
Qed.

(** Failing, revoking, expiring or completing a live lease ends the lease
    and every descendant, leaves all other leases and all bindings alone,
    and emits exactly one kind of effect: a fence, with current session and
    epoch, for every open binding held in the tree. *)
Theorem terminated_tree c cmd id l c' es :
  cluster_inv c → terminates cmd id = true → c_leases c !! id = Some l →
  is_live_state (lease_state l) = true → dispatch cmd c = (c', Ok es) →
  (∀ k, k = id ∨ under (c_leases c) id k → ∃ l l', c_leases c !! k = Some l
     ∧ c_leases c' !! k = Some l' ∧ same_lease l l' ∧ is_live_state (lease_state l') = false)
  ∧ (∀ k, k ≠ id → ¬ under (c_leases c) id k → c_leases c' !! k = c_leases c !! k)
  ∧ c_bindings c' = c_bindings c
  ∧ (∀ e, e ∈ es ↔ ∃ j b, c_bindings c !! j = Some b
       ∧ (binding_lease b = id ∨ under (c_leases c) id (binding_lease b))
       ∧ is_closed (binding_state b) = false ∧ e = binding_effect c b EffFence).
Proof.
  intros Hinv Ht Hl Hlive Hrun.
  destruct (terminated_run c cmd id l c' es Hinv Ht Hl Hlive Hrun)
    as (-> & stop & s & f & Hst & Hf & ->). cbn [c_leases c_bindings set_leases]. split_and!.
  - intros k Hk. assert (is_Some (c_leases c !! k)) as Hsome.
    { destruct Hk as [->|Hk]; [eauto|by eapply under_Some]. }
    destruct (end_tree_lookup stop s c id k Hst Hinv) as [Hin _].
    destruct (Hin Hk Hsome) as (x & x' & Hx & Hx' & Hsame & Hdead).
    exists x. rewrite lookup_alter. case_decide; [|eauto]. subst. rewrite Hx'.
    exists (f x'). destruct (Hf x') as [Hfs ->]. split_and!; eauto using same_lease_trans.
  - intros k Hne Hnu. rewrite lookup_alter_ne by done.
    destruct (end_tree_lookup stop s c id k Hst Hinv) as [_ Hout]. by apply Hout.
  - done.
  - intros e. rewrite list_elem_of_bind. setoid_rewrite elem_of_fence_effects.
    setoid_rewrite elem_of_lease_tree; [|done]. naive_solver.
Qed.

Lemma end_tree_completed s c id k l :
  cluster_inv c → ended s = true → k = id ∨ under (c_leases c) id k →
  c_leases c !! k = Some l → lease_state l = LCompleted →
  c_leases (end_tree ended s id c) !! k = Some (lease_with_state s l).
Proof.
  intros Hinv Hs Hk Hl Hst. cbn [end_tree c_leases set_leases]. rewrite mark_all_lookup by done.
  rewrite decide_True by (by apply elem_of_lease_tree). rewrite Hl. cbn. unfold mark_unless.
  by rewrite Hst.
Qed.

(** A completed lease is not final: failing or revoking it, or a lease it
    descends from, is accepted and overwrites its Completed state (the exit
    code stays), while Released, Revoked, Expired and Failed are kept. *)
Theorem completed_overwritten c id k l reason :
  cluster_inv c → is_Some (c_leases c !! id) → k = id ∨ under (c_leases c) id k →
  c_leases c !! k = Some l → lease_state l = LCompleted →
  (∃ c' es, dispatch (RevokeLease id) c = (c', Ok es)
     ∧ c_leases c' !! k = Some (lease_with_state LRevoked l))
  ∧ (∃ c' es, dispatch (FailLease id reason) c = (c', Ok es)
     ∧ c_leases c' !! k = Some (lease_with_state LFailed l)).
Proof.
  intros Hinv [l0 Hl0] Hk Hl Hst. cbn [dispatch].
  rewrite revoke_lease_run, fail_lease_run, Hl0 by done.
  split; eexists _, _; (split; [reflexivity|]); by apply end_tree_completed.
Qed.

(** The descendant walk lists exactly the leases whose parent chain
    reaches the given lease, each once and children before parents. *)
Theorem descendants_postorder_exact c id :
  cluster_inv c →
  NoDup (descendants_postorder c id)
  ∧ (∀ k, k ∈ descendants_postorder c id ↔ under (c_leases c) id k)
  ∧ children_first (c_leases c) [] (descendants_postorder c id).
Proof.
  intros Hinv. split_and!.
  - apply below_NoDup; apply Hinv.
  - intros k. by apply elem_of_descendants.
  - apply below_children_first; apply Hinv.
Qed.

(** ** Graph updates and machines *)

Lemma machine_of_same g g' n :
  g_nodes g' = g_nodes g → g_parent g' = g_parent g → machine_of g' n = machine_of g n.
Proof.
  intros Hn Hp. unfold machine_of, ancestor_of_class, node_is_class, ancestors, graph_parent,
    graph_node. by rewrite Hn, Hp.
Qed.

Definition graph_command (cmd : Command) : bool :=
  match cmd with
  | ApplyGraph _ _ | ApplyResourceFacts _ _ _ | ApplyProviderFacts _ _ => true
  | _ => false
  end.

Lemma graph_command_install c cmd c' es :
  graph_command cmd = true → dispatch cmd c = (c', Ok es) →
  ∃ g, install_resource_graph g c = (c', Ok es).
Proof.
  destruct cmd; try done; intros _; cbn [dispatch];
    unfold apply_graph, apply_resource_facts, apply_provider_facts;
    rewrite bind_agreed, bind_get, bind_lift; destruct (c_agreed c); try done;
    match goal with |- context [match ?r with Ok _ => _ | Err _ => _ end] => destruct r as [g|] end;
    try done; eauto.
Qed.

(** The other commands leave nodes and containment alone. *)
Lemma other_command_graph c cmd c' es :
  cluster_inv c → graph_command cmd = false → dispatch cmd c = (c', Ok es) →
  same_resources (c_graph c) (c_graph c').
Proof.
  intros Hinv Hg. destruct cmd; cbn [dispatch]; try discriminate Hg.
  6: rewrite fail_lease_run by done; intros Hrun; by run Hrun.
  7: rewrite complete_lease_run by done; intros Hrun; cbv zeta in Hrun; by run Hrun.
  7: rewrite revoke_lease_run by done; intros Hrun; by run Hrun.
  7: rewrite expire_lease_run by done; intros Hrun; by run Hrun.
  all: intros Hrun; unfold adopt_fact_writers,
    reserve_lease, promote_lease, open_lease, activate_lease, release_lease, renew_lease,
    open_binding, fail_binding, record_prepared, record_active, record_released, record_fenced,
    record_failed, activate_binding, fence_binding, release_binding, set_agent_session,
    set_node_health, rebind_session, advance_endpoint_fence, quarantine_node, unquarantine_node,
    set_node_state, acknowledged
    in Hrun; run Hrun; try done; eauto using adopt_same_resources, observation_same_resources.
Qed.

(** Placement is pinned: no accepted command, and in particular no graph
    update, changes the machine ancestor of a node claimed by a lease that
    occupies capacity (a reservation, a lease in preparation, or a terminal
    lease with unclosed bindings). *)
Theorem occupied_machine_pinned c cmd c' es k l cl :
  cluster_inv c → dispatch cmd c = (c', Ok es) →
  c_leases c !! k = Some l → occupies c k = true → cl ∈ lease_claims l →
  machine_of (c_graph c') (claim_node cl) = machine_of (c_graph c) (claim_node cl).
Proof.
  intros Hinv Hrun Hl Ho Hcl. destruct (graph_command cmd) eqn:Hg.
  - destruct (graph_command_install c cmd c' es Hg Hrun) as [g Hi].
    apply install_result in Hi as (-> & _ & _ & Hm). by eapply Hm.
  - destruct (other_command_graph c cmd c' es Hinv Hg Hrun) as (Hn & _ & Hp & _).
    by apply machine_of_same.
Qed.
