(* ===== verification/Replay.v ===== *)
(** * Replay and digests (Cluster::replay, Cluster::digest)

    The command log is enough to rebuild the authoritative state: clock,
    agreement and epoch are not in it, and replay does not consult them. *)

From S2P Require Import Prelude.
From S2P Require Import Identifier.
From S2P Require Import Types.
From S2P Require Import Graph.
From S2P Require Import GraphFacts.
From S2P Require Import Occupancy.
From S2P Require Import Command.
From S2P Require Import Cluster.
From S2P Require Import LeaseTree.
From S2P Require Import Handlers.
From S2P Require Import ClusterInv.
From S2P Require Import Steps.
From S2P Require Import Safety.
From S2P Require Import Authority.
From S2P Require Import Bindings.

(** ** Digests *)

Record LeaseDigest := mkLeaseDigest {
  ld_state : LeaseState;
  ld_exit_code : option Z;
  ld_owner : OwnerId;
  ld_parent : option LeaseId;
  ld_priority : N;
  ld_expires_at : u64;
  ld_prepare_deadline : u64;
  ld_graph_revision : u64;
  ld_claims : list (NodeId * Quantity);
}.

Record BindingDigest := mkBindingDigest {
  bd_state : BindingState;
  bd_lease : LeaseId;
  bd_node : NodeId;
  bd_provider : ProviderId;
  bd_scope : BindingScope;
  bd_fence : u64;
  bd_session : u64;
}.

Record Digest := mkDigest {
  dg_epoch : u64;
  dg_now : u64;
  dg_agreed : bool;
  dg_graph_revision : u64;
  dg_graph_nodes : gmap N (ResourceClass * Quantity * Attrs);
  dg_graph_edges : list FactEdge;
  dg_graph_claim_bindings : gmap N (gmap string ClaimBinding);
  dg_graph_observations : gmap N Attrs;
  dg_graph_node_fact_writers : gmap N N;
  dg_graph_edge_fact_writers : gmap FactEdge N;
  dg_leases : gmap N LeaseDigest;
  dg_bindings : gmap N BindingDigest;
  dg_sessions : gmap N N;
  dg_last_fence : gmap (N * N) N;
  dg_node_states : gmap N NodeState;
}.

Definition lease_digest (l : Lease) : LeaseDigest :=
  mkLeaseDigest (lease_state l) (lease_exit_code l) (lease_owner l) (lease_parent l)
    (lease_priority l) (lease_expires_at l) (lease_prepare_deadline l)
    (alloc_graph_revision (lease_allocation l))
    ((λ cl, (claim_node cl, claim_quantity cl)) <$> lease_claims l).

Definition binding_digest (b : Binding) : BindingDigest :=
  mkBindingDigest (binding_state b) (binding_lease b) (binding_node b) (binding_provider b)
    (binding_scope b) (binding_fence b) (binding_session b).

Definition digest (c : Cluster) : Digest :=
  mkDigest (c_epoch c) (c_now c) (c_agreed c) (g_revision (c_graph c))
    (list_to_map ((λ n, (node_id n, (node_kind n, node_capacity n, node_attrs n)))
                    <$> graph_nodes (c_graph c)))
    (edge_key <$> g_edges (c_graph c))
    (g_claim_bindings (c_graph c)) (g_observations (c_graph c))
    (g_node_fact_writers (c_graph c)) (g_edge_fact_writers (c_graph c))
    (lease_digest <$> c_leases c) (binding_digest <$> c_bindings c)
    (c_sessions c) (c_last_fence c) (c_node_states c).

(** A digest with the fields that are not in the command log fixed. *)
Definition logged_digest (d : Digest) : Digest :=
  mkDigest 1 0 true (dg_graph_revision d) (dg_graph_nodes d) (dg_graph_edges d)
    (dg_graph_claim_bindings d) (dg_graph_observations d) (dg_graph_node_fact_writers d)
    (dg_graph_edge_fact_writers d) (dg_leases d) (dg_bindings d) (dg_sessions d)
    (dg_last_fence d) (dg_node_states d).

(** ** A state under another control *)

(** What the command log does not determine: epoch, clock, agreement, the
    replaying flag, and the log itself. *)
Record Control := mkControl {
  k_epoch : u64; k_now : u64; k_agreed : bool; k_replaying : bool; k_log : list Command;
}.

Definition with_control (k : Control) (c : Cluster) : Cluster :=
  set_log (k_log k) (set_replaying (k_replaying k) (set_agreement (k_agreed k)
    (set_now (k_now k) (set_epoch (k_epoch k) c)))).

(** The replaying image of a state. *)
Definition recover (c : Cluster) : Cluster := with_control (mkControl 1 0 true true (c_log c)) c.

(** A control under which whatever [c] accepts is accepted. *)
Definition lenient (k : Control) (c : Cluster) : Prop :=
  k_agreed k = true ∧ (k_replaying k = true ∨ k_replaying k = c_replaying c ∧ k_now k = c_now c).

Definition effect_at (epoch : u64) (e : Effect) : Effect :=
  match e with
  | EffPrepare b n p f s _ => EffPrepare b n p f s epoch
  | EffActivate b n p f s _ => EffActivate b n p f s epoch
  | EffRelease b n p f s _ => EffRelease b n p f s epoch
  | EffFence b n p f s _ => EffFence b n p f s epoch
  | EffReconcile m s _ bs => EffReconcile m s epoch bs
  end.

(** The state functions a handler consults do not see the control. *)
Section control.
Context (k : Control) (c : Cluster).

Lemma control_agreed : c_agreed (with_control k c) = k_agreed k.
Proof. done. Qed.
Lemma control_replaying : c_replaying (with_control k c) = k_replaying k.
Proof. done. Qed.
Lemma control_now : c_now (with_control k c) = k_now k.
Proof. done. Qed.
Lemma control_graph : c_graph (with_control k c) = c_graph c.
Proof. done. Qed.
Lemma control_leases : c_leases (with_control k c) = c_leases c.
Proof. done. Qed.
Lemma control_bindings : c_bindings (with_control k c) = c_bindings c.
Proof. done. Qed.
Lemma control_sessions : c_sessions (with_control k c) = c_sessions c.
Proof. done. Qed.
Lemma control_last_fence : c_last_fence (with_control k c) = c_last_fence c.
Proof. done. Qed.
Lemma control_node_states : c_node_states (with_control k c) = c_node_states c.
Proof. done. Qed.
Lemma control_node_state n : node_state (with_control k c) n = node_state c n.
Proof. done. Qed.
Lemma control_open_leases : open_binding_leases (with_control k c) = open_binding_leases c.
Proof. done. Qed.
Lemma control_quarantined n : node_quarantined (with_control k c) n = node_quarantined c n.
Proof. done. Qed.
Lemma control_check_quarantined cs :
  check_not_quarantined (with_control k c) cs = check_not_quarantined c cs.
Proof. done. Qed.
Lemma control_check_cover id cs : check_cover (with_control k c) id cs = check_cover c id cs.
Proof. done. Qed.
Lemma control_check_child id p cs : check_child (with_control k c) id p cs = check_child c id p cs.
Proof. done. Qed.
Lemma control_bindings_for id : bindings_for (with_control k c) id = bindings_for c id.
Proof. done. Qed.
Lemma control_conflict n p s :
  conflicting_endpoint (with_control k c) n p s = conflicting_endpoint c n p s.
Proof. done. Qed.
Lemma control_next_fence id n p s : next_fence (with_control k c) id n p s = next_fence c id n p s.
Proof. done. Qed.
Lemma control_session n s : require_session (with_control k c) n s = require_session c n s.
Proof. done. Qed.
Lemma control_in_scope n m : in_scope (with_control k c) n m = in_scope c n m.
Proof. done. Qed.
Lemma control_live_authority n :
  node_has_live_authority (with_control k c) n = node_has_live_authority c n.
Proof. done. Qed.
Lemma control_live_descendants id : live_descendants (with_control k c) id = live_descendants c id.
Proof. done. Qed.
Lemma control_machine_bindings m :
  live_machine_bindings (with_control k c) m = live_machine_bindings c m.
Proof. done. Qed.
Lemma control_fence_effects id :
  fence_effects (with_control k c) id = effect_at (k_epoch k) <$> fence_effects c id.
Proof. unfold fence_effects. rewrite <-list_fmap_compose. done. Qed.
Lemma control_release_effects id :
  release_effects (with_control k c) id = effect_at (k_epoch k) <$> release_effects c id.
Proof. unfold release_effects. rewrite <-list_fmap_compose. done. Qed.
Lemma control_fence_tree ids :
  ids ≫= fence_effects (with_control k c) = effect_at (k_epoch k) <$> (ids ≫= fence_effects c).
Proof.
  induction ids as [|i ids IH]; [done|]. cbn [mbind list_bind].
  rewrite fmap_app, control_fence_effects. by rewrite IH.
Qed.
Lemma control_set_leases v : set_leases v (with_control k c) = with_control k (set_leases v c).
Proof. done. Qed.
Lemma control_set_bindings v : set_bindings v (with_control k c) = with_control k (set_bindings v c).
Proof. done. Qed.
Lemma control_set_sessions v : set_sessions v (with_control k c) = with_control k (set_sessions v c).
Proof. done. Qed.
Lemma control_inv : cluster_inv c → cluster_inv (with_control k c).
Proof. by apply inv_same. Qed.
End control.

Create Rewrite HintDb control.
#[export] Hint Rewrite control_agreed control_replaying control_now control_graph control_leases
  control_bindings control_sessions control_last_fence control_node_states control_node_state
  control_open_leases control_quarantined control_check_quarantined control_check_cover
  control_check_child control_bindings_for control_conflict control_next_fence control_session
  control_live_authority control_live_descendants control_machine_bindings
  control_fence_effects control_release_effects control_fence_tree control_set_leases
  control_set_bindings control_set_sessions : control.

(** Re-run the goal's handler along the branch recorded in the context. *)
Ltac rerun :=
  repeat (rewrite ?bind_agreed, ?bind_get, ?bind_put, ?bind_guard, ?bind_get_lease,
            ?bind_get_binding, ?bind_update_lease, ?bind_update_binding, ?bind_lift, ?bind_ret,
            ?bind_bind, ?run_ret, ?run_lift;
          autorewrite with control;
          repeat match goal with
          | H : ?x = true |- context [?x] => rewrite H
          | H : ?x = false |- context [?x] => rewrite H
          | H : ?x = Some _ |- context [?x] => rewrite H
          | H : ?x = None |- context [?x] => rewrite H
          | H : ?x = Ok _ |- context [?x] => rewrite H
          | H : next_fence _ _ _ _ _ = _ |- _ => rewrite H
          end;
          cbn [negb andb orb k_agreed k_replaying k_now k_epoch]).

Lemma dispatch_control k c cmd c' es :
  lenient k c → cluster_inv c → dispatch cmd c = (c', Ok es) →
  dispatch cmd (with_control k c) = (with_control k c', Ok (effect_at (k_epoch k) <$> es)).
Proof.
  intros [Hka Hkr] Hinv. pose proof (control_inv k c Hinv) as Hinv'. destruct k as [ep nw ag rp lg].
  cbn [k_agreed k_replaying k_now] in *. subst ag.
  destruct cmd; cbn [dispatch].
  9: { rewrite !fail_lease_run, control_leases by done. intros Hrun. run Hrun.
       rewrite fmap_app. destruct (ended _); rerun; done. }
  10: { rewrite !complete_lease_run, control_leases by done. intros Hrun. cbv zeta in Hrun. run Hrun; rerun; done. }
  10: { rewrite !revoke_lease_run, control_leases by done. intros Hrun. run Hrun; rerun; done. }
  10: { rewrite !expire_lease_run, control_leases by done. intros Hrun.
        destruct Hkr as [->|[-> ->]]; run Hrun; rerun; done. }
  all: intros Hrun; unfold apply_graph, apply_resource_facts, apply_provider_facts,
    install_resource_graph, adopt_fact_writers,
    reserve_lease, promote_lease, open_lease, activate_lease, release_lease, renew_lease,
    open_binding, fail_binding, record_prepared, record_active, record_released, record_fenced,
    record_failed, activate_binding, fence_binding, release_binding, set_agent_session,
    set_node_health, rebind_session, advance_endpoint_fence, quarantine_node, unquarantine_node,
    set_node_state, acknowledged
    in *; destruct Hkr as [->|[-> ->]]; run Hrun.
  all: rerun; try done.
  all: try (destruct parent; rerun; done).
  all: try (match goal with H : _ || _ = false |- _ => apply orb_false_iff in H as [-> _] end; done).
  all: repeat match goal with |- context [in_scope (with_control ?k ?c)] =>
         change (in_scope (with_control k c)) with (in_scope c) end; rerun; done.
Qed.

(** ** Replay reproduces the state *)

Lemma dispatch_log c cmd c' es :
  cluster_inv c → command_u64 cmd = true → dispatch cmd c = (c', Ok es) → c_log c' = c_log c.
Proof.
  intros Hinv Hu Hrun. pose proof (dispatch_ksteps c cmd Hinv Hu c' es Hrun) as Hsteps.
  clear -Hsteps. induction Hsteps as [|c c1 c' Hstep _ IH]; [done|]. rewrite IH. by destruct Hstep.
Qed.

Lemma dispatch_recover c cmd c' es :
  cluster_inv c → command_u64 cmd = true → dispatch cmd c = (c', Ok es) →
  dispatch cmd (recover c) = (recover c', Ok (effect_at 1 <$> es)).
Proof.
  intros Hinv Hu Hrun. unfold recover at 2. rewrite (dispatch_log c cmd c' es) by done.
  apply (dispatch_control (mkControl 1 0 true true (c_log c)) c cmd c' es); [|done..].
  split; [done|by left].
Qed.

Lemma replay_step c cmd c' es :
  cluster_inv c → command_u64 cmd = true → dispatch cmd c = (c', Ok es) →
  (cluster_apply cmd (recover c)).1 = recover (set_log (c_log c' ++ [cmd]) c')
  ∧ is_ok (cluster_apply cmd (recover c)).2 = true.
Proof.
  intros Hinv Hu Hrun. rewrite apply_run, (dispatch_recover c cmd c' es) by done. done.
Qed.

(** Operations recorded by the command log or outside the replayed state. *)
Definition op_logged (op : Op) : bool := match op with OpMigrate => false | _ => true end.

Definition replay_from (c : Cluster) (commands : list Command) : result Error Cluster :=
  try_fold (λ c command,
    match cluster_apply command c with
    | (c', Ok _) => Ok c'
    | (_, Err e) => Err e
    end) c commands.

Lemma replay_from_app c l l' :
  replay_from c (l ++ l') = c' ← replay_from c l; replay_from c' l'.
Proof.
  unfold replay_from. revert c. induction l as [|cmd l IH]; intros c; [done|]. cbn [app try_fold].
  destruct (cluster_apply cmd c) as [c1 [es|e]]; simpl; [apply IH|done].
Qed.

Lemma replay_run ops :
  forallb op_u64 ops = true → forallb op_logged ops = true →
  replay_from (set_replaying true cluster_new) (c_log (run_ops ops)) = Ok (recover (run_ops ops)).
Proof.
  induction ops as [|op ops IH] using rev_ind; [done|].
  rewrite !forallb_app. intros [Hu Hop]%andb_prop [Hlg Hlop]%andb_prop.
  apply andb_prop in Hop as [Hop _], Hlop as [Hlop _].
  pose proof (run_ops_inv ops Hu) as Hinv. specialize (IH Hu Hlg).
  rewrite run_ops_snoc. set (c := run_ops ops) in *.
  destruct op as [cmd|now|b|b| |]; cbn [run_op]; try exact IH; [|discriminate].
  rewrite apply_run. destruct (dispatch cmd c) as [c' [es|e]] eqn:Hrun; cbn [fst].
  - cbn [c_log set_log]. rewrite (dispatch_log c cmd c' es Hinv Hop Hrun).
    rewrite replay_from_app, IH. cbn [mbind result_bind]. unfold replay_from. cbn [try_fold].
    destruct (replay_step c cmd c' es Hinv Hop Hrun) as [Hst Hok].
    destruct (cluster_apply cmd (recover c)) as [c1 [a|e]]; [|done]. simpl in Hst. subst c1.
    by rewrite (dispatch_log c cmd c' es Hinv Hop Hrun).
  - by rewrite (dispatch_error_unchanged c cmd c' e).
Qed.

(** C4. Replaying the command log of any history (of accepted and rejected
    commands, interleaved with clock, agreement and epoch changes) into a
    fresh cluster succeeds and rebuilds the same graph, leases, bindings,
    sessions, fence watermarks and node states: the digests agree in every
    field the log determines. *)
Theorem replay_reproduces ops :
  forallb op_u64 ops = true → forallb op_logged ops = true →
  ∃ c, replay (c_log (run_ops ops)) = Ok c
    ∧ digest c = logged_digest (digest (run_ops ops)) ∧ c_log c = c_log (run_ops ops).
Proof.
  intros Hu Hl. exists (set_replaying false (recover (run_ops ops))). split_and!; [|done|done].
  unfold replay. fold (replay_from (set_replaying true cluster_new) (c_log (run_ops ops))).
  by rewrite replay_run.
Qed.
