(* ===== verification/Select.v ===== *)
(** * Placement (crates/kernel/src/select.rs): definitions

    Choosing nodes for the needs of a request: candidate filtering, scoring,
    the greedy selector, whole-machine placement and its bounded backtracking
    search.  The topology trace the source threads as [&mut] is an explicit
    state: a function that mutates it returns the new trace also when it
    fails.  Scores are [i64] sums of a few bounded terms per claim, modelled
    as [Z]; [usize] positions are [nat], the search budget is [N]. *)

From S2P Require Import Prelude.
From S2P Require Import Identifier.
From S2P Require Import Text.
From S2P Require Import Types.
From S2P Require Import Graph.
From S2P Require Import Occupancy.

Inductive PackMode := Pack | Spread.

#[export] Instance PackMode_eq_dec : EqDecision PackMode.
Proof. solve_decision. Defined.

Record ScoreCtx := mkScoreCtx {
  sc_graph : Graph;
  sc_occupancy : Occupancy;
  sc_request : Request;
  sc_already : list (list Claim);
  sc_mode : PackMode;
  sc_memory_want : u64;
}.

Record TopologyFailure := mkFailure {
  tf_constraint : nat;
  tf_left : NodeId;
  tf_right : NodeId;
}.

Abbreviation TopologyTrace := (gmap nat TopologyFailure) (only parsing).

(** [TopologyTrace::record]: the first failure of a constraint is kept. *)
Definition trace_record (trace : TopologyTrace) (failure : TopologyFailure) : TopologyTrace :=
  match trace !! tf_constraint failure with
  | Some _ => trace
  | None => <[tf_constraint failure := failure]> trace
  end.

(** ** Formatting *)

Definition show_class (c : ResourceClass) : string := c.
(** [{:?}] of a [ResourceClass]: [debug_tuple]. *)
Definition debug_class (c : ResourceClass) : string :=
  let quote := String (Ascii.ascii_of_N 34) EmptyString in
  "ResourceClass(" +:+ quote +:+ c +:+ quote +:+ ")".
Definition show_request_class (c : RequestClass) : string :=
  match c with Service => "Service" | Batch => "Batch" end.
Definition show_mode (m : PackMode) : string :=
  match m with Pack => "Pack" | Spread => "Spread" end.

(** ** Needs *)

Definition pack_mode (request : Request) : PackMode :=
  foldl (λ mode preference,
    match preference with
    | PrefPack => Pack
    | PrefSpread => Spread
    | PreferAttr _ _ => mode
    end) Pack (req_preferences request).

Definition is_consumable_need (need : Need) : bool :=
  bool_decide (need_kind need = Class.Memory)
  || existsb (λ dimension, negb (bool_decide (dimension = Dim.Count)))
       (bt_keys (need_quantity need)).

Definition consumable_quantity (need : Need) : Quantity :=
  if bool_decide (need_kind need = Class.Memory)
  then qty Dim.Bytes (quantity_get (need_quantity need) Dim.Bytes)
  else need_quantity need.

Definition need_unit (need : Need) : Quantity :=
  if is_consumable_need need then consumable_quantity need else qty Dim.Count 1.

(** [quantity_get(&need.quantity, Count).max(1)] *)
Definition need_count (need : Need) : u64 := N.max (quantity_get (need_quantity need) Dim.Count) 1.

Definition in_quarantine (graph : Graph) (quarantine : gset N) (id : NodeId) : bool :=
  bool_decide (id ∈ quarantine)
  || existsb (λ ancestor, bool_decide (ancestor ∈ quarantine)) (ancestors graph id).

Definition filters_reject (need : Need) (node : Node) : bool :=
  existsb (λ filter,
    negb (bool_decide (node_attrs node !! filter_key filter = Some (filter_value filter))))
    (need_filters need).

Definition candidates (graph : Graph) (occ : Occupancy) (need : Need) (quarantine : gset N)
    : result Error (list NodeId) :=
  if bool_decide (need_kind need = Class.DataObject)
  then Err (Refused "data objects are locality hints, not claimable resources")
  else
    let required := need_unit need in
    try_fold (λ out id,
      node ← ok_or (graph_node graph id) (UnknownNode id);
      if negb (is_ok (claim_binding_for_quantity graph id required)) then Ok out
      else if in_quarantine graph quarantine (node_id node) then Ok out
      else if filters_reject need node then Ok out
      else
        covered ← can_cover occ graph (mkClaim id required);
        Ok (if covered : bool then out ++ [id] else out))
      [] (nodes_of_class graph (need_kind need)).

(** ** Scoring *)

Definition extras (already : list (list Claim)) (chosen : list Claim) : list Claim :=
  mjoin already ++ chosen.

Definition count_if {A} (f : A → bool) (l : list A) : nat := length (List.filter f l).

Definition machine_load (graph : Graph) (occ : Occupancy) (machine : NodeId)
    (extra : list Claim) : nat :=
  count_if (λ id, is_used occ id || existsb (λ claim, claim_node claim =? id) extra)
    (descendants graph machine).

Definition machine_score (ctx : ScoreCtx) (extra : list Claim) (node machine : NodeId) : Z :=
  let same_request :=
    Z.of_nat (count_if (λ claim,
      bool_decide (machine_of (sc_graph ctx) (claim_node claim) = Some machine)) extra) in
  let load := Z.of_nat (machine_load (sc_graph ctx) (sc_occupancy ctx) machine extra) in
  let base :=
    match sc_mode ctx with
    | Pack => (100 * same_request + 10 * load)%Z
    | Spread => (- (100 * same_request) - 10 * load)%Z
    end in
  if existsb (λ claim,
       satisfies (sc_graph ctx) node (claim_node claim) (SameAncestor Class.Numa)) extra
     && bool_decide (sc_mode ctx = Pack)
  then (base + 50)%Z else base.

Definition attr_score (ctx : ScoreCtx) (node : NodeId) : Z :=
  foldl (λ score preference,
    match preference with
    | PreferAttr key value =>
        match graph_node (sc_graph ctx) node with
        | Some item =>
            if bool_decide (node_attrs item !! key = Some value)
            then (score + 1000000)%Z else score
        | None => score
        end
    | _ => score
    end) 0%Z (req_preferences (sc_request ctx)).

(** Duplicate data ids count once. *)
Definition data_ids (request : Request) : list NodeId :=
  bs_iter (list_to_set (req_data request) : gset N).

Definition data_score (ctx : ScoreCtx) (node : NodeId) : Z :=
  foldl (λ score data,
    if caches (sc_graph ctx) node data then (score + 10000)%Z else score)
    0%Z (data_ids (sc_request ctx)).

Definition health_score (ctx : ScoreCtx) (node : NodeId) : Z :=
  match degraded_ancestor (sc_graph ctx) node with Some _ => (-20000)%Z | None => 0%Z end.

Definition memory_score (ctx : ScoreCtx) (node : NodeId) : result Error Z :=
  if 0 <? sc_memory_want ctx then
    free ← remaining (sc_occupancy ctx) (sc_graph ctx) node;
    let leftover :=
      Z.of_N (N.min (sat_sub (quantity_get free Dim.Bytes) (sc_memory_want ctx) / 2 ^ 20) 4000) in
    Ok (match sc_mode ctx with Pack => (- leftover)%Z | Spread => leftover end)
  else Ok 0%Z.

Definition score_node (ctx : ScoreCtx) (chosen : list Claim) (node : NodeId) : result Error Z :=
  let extra := extras (sc_already ctx) chosen in
  let placed :=
    match machine_of (sc_graph ctx) node with
    | Some machine => machine_score ctx extra node machine
    | None => 0%Z
    end in
  memory ← memory_score ctx node;
  Ok (placed + attr_score ctx node + data_score ctx node + health_score ctx node + memory)%Z.

(** Highest score first, then lowest id. *)
Definition rank_leb (left right : Z * NodeId) : bool :=
  (right.1 <? left.1)%Z || ((right.1 =? left.1)%Z && (left.2 <=? right.2)).

Definition rank (ctx : ScoreCtx) (chosen : list Claim) (cands : list NodeId)
    : result Error (list NodeId) :=
  scored ← try_map (λ node, s ← score_node ctx chosen node; Ok (s, node)) cands;
  Ok (sort_by rank_leb scored).*2.

(** ** Topology *)

Definition claims_are_unique (picked : list (list Claim)) : bool :=
  bool_decide (NoDup (claim_node <$> mjoin picked)).

(** The first pair of claims that violates a constraint. *)
Definition pair_failure (graph : Graph) (index : nat) (relation : TopologyRelation)
    (lefts rights : list Claim) : option TopologyFailure :=
  head (omap (λ '(lc, rc),
    if satisfies graph (claim_node lc) (claim_node rc) relation then None
    else Some (mkFailure index (claim_node lc) (claim_node rc)))
    (lc ← lefts; rc ← rights; [(lc, rc)])).

Definition constraint_failure (graph : Graph) (picked : list (list Claim)) (index : nat)
    (c : TopologyConstraint) : option TopologyFailure :=
  match picked !! tc_left c, picked !! tc_right c with
  | Some lefts, Some rights => pair_failure graph index (tc_relation c) lefts rights
  | _, _ => None
  end.

Definition topology_failure (graph : Graph) (picked : list (list Claim)) (request : Request)
    : option TopologyFailure :=
  head (omap (λ '(index, c), constraint_failure graph picked index c)
    (imap (λ index c, (index, c)) (req_topology request))).

Definition topology_holds (graph : Graph) (picked : list (list Claim)) (request : Request)
    : bool :=
  claims_are_unique picked
  && match topology_failure graph picked request with Some _ => false | None => true end.

Definition topology_holds_traced (graph : Graph) (picked : list (list Claim))
    (request : Request) (trace : TopologyTrace) : TopologyTrace * bool :=
  if negb (claims_are_unique picked) then (trace, false)
  else
    match topology_failure graph picked request with
    | Some failure => (trace_record trace failure, false)
    | None => (trace, true)
    end.

(** ** Notes *)

Definition score_note (graph : Graph) (request : Request) (node : NodeId) (score : Z) : string :=
  show_node node +:+ " score=" +:+ pretty score
  +:+ (if existsb (λ data, caches graph node data) (req_data request) then " data-local" else "")
  +:+ (match degraded_ancestor graph node with Some _ => " health-degraded" | None => "" end).

Definition claim_nodes (claims : list Claim) : string :=
  join "," ((λ claim, show_node (claim_node claim)) <$> claims).

Definition ancestor_nodes (graph : Graph) (claims : list Claim) (class : ResourceClass) : string :=
  join "," (show_node <$>
    bs_iter (list_to_set
      (omap (λ claim, ancestor_of_class graph (claim_node claim) class) claims) : gset N)).

Definition need_ref (index : nat) (claims : list Claim) : string :=
  "need[" +:+ pretty index +:+ "]=" +:+ claim_nodes claims.

Definition selected_note (graph : Graph) (c : TopologyConstraint) (left right : list Claim)
    : string :=
  let l := need_ref (tc_left c) left in
  let r := need_ref (tc_right c) right in
  match tc_relation c with
  | SameAncestor class =>
      "selected " +:+ l +:+ " and " +:+ r +:+ " under " +:+ show_class class +:+ " "
      +:+ ancestor_nodes graph left class
  | DifferentAncestor class =>
      "selected " +:+ l +:+ " under " +:+ show_class class +:+ " "
      +:+ ancestor_nodes graph left class +:+ " and " +:+ r +:+ " under " +:+ show_class class
      +:+ " " +:+ ancestor_nodes graph right class
  | RContains => "selected containment-related " +:+ l +:+ " and " +:+ r
  | RConnected => "selected connected " +:+ l +:+ " and " +:+ r
  | RCachedOn => "selected cache-related " +:+ l +:+ " and " +:+ r
  end.

Definition show_relation (relation : TopologyRelation) : string :=
  match relation with
  | SameAncestor class => "same-ancestor(" +:+ show_class class +:+ ")"
  | DifferentAncestor class => "different-ancestor(" +:+ show_class class +:+ ")"
  | RContains => "contains"
  | RConnected => "connected"
  | RCachedOn => "cached-on"
  end.

(** The constraints of the trace that still name selected needs. *)
Definition traced_constraints (picked : list (list Claim)) (request : Request)
    (trace : TopologyTrace)
    : list (nat * TopologyFailure * TopologyConstraint * list Claim * list Claim) :=
  omap (λ '(index, failure),
    c ← req_topology request !! index;
    lgroup ← picked !! tc_left c;
    rgroup ← picked !! tc_right c;
    Some (index, failure, c, lgroup, rgroup)) (bt_iter trace).

Definition topology_notes (graph : Graph) (picked : list (list Claim)) (request : Request)
    (trace : TopologyTrace) : list string :=
  (λ '(index, failure, c, lgroup, rgroup),
     "topology[" +:+ pretty (index : nat) +:+ "] " +:+ show_relation (tc_relation c)
     +:+ " constrained placement (rejected " +:+ show_node (tf_left failure) +:+ " vs "
     +:+ show_node (tf_right failure) +:+ "); " +:+ selected_note graph c lgroup rgroup)
  <$> traced_constraints picked request trace.

Definition need_ctx (graph : Graph) (occ : Occupancy) (request : Request) (mode : PackMode)
    (already : list (list Claim)) (need : Need) : ScoreCtx :=
  mkScoreCtx graph occ request already mode
    (quantity_get (consumable_quantity need) Dim.Bytes).

(** Per claim of a group: something computed from the claims before it. *)
Fixpoint walk_group {A} (f : list Claim → Claim → result Error A) (chosen group : list Claim)
    : result Error (list A) :=
  match group with
  | [] => Ok []
  | claim :: group =>
      a ← f chosen claim;
      rest ← walk_group f (chosen ++ [claim]) group;
      Ok (a :: rest)
  end.

(** Per group: [request.needs[index]] panics when there are more groups than
    needs; the callers pass one group per need. *)
Definition walk_picked {A} (f : ScoreCtx → list Claim → Claim → result Error A)
    (graph : Graph) (occ : Occupancy) (request : Request) (mode : PackMode)
    (picked : list (list Claim)) : result Error (list A) :=
  groups ← try_map (λ '((index, group) : nat * list Claim),
    match req_needs request !! index with
    | Some need =>
        walk_group (f (need_ctx graph occ request mode (take index picked) need)) [] group
    | None => Err (Invalid "index out of bounds")
    end) (imap (λ index group, (index, group)) picked);
  Ok (mjoin (groups : list (list A))).

Definition selection_notes (graph : Graph) (occ : Occupancy) (request : Request)
    (mode : PackMode) (picked : list (list Claim)) : result Error (list string) :=
  walk_picked (λ ctx chosen claim,
    score ← score_node ctx chosen (claim_node claim);
    Ok (score_note graph request (claim_node claim) score)) graph occ request mode picked.

Definition placement_reasons (graph : Graph) (occ : Occupancy) (request : Request)
    (mode : PackMode) (picked : list (list Claim)) (trace : TopologyTrace)
    : result Error (list PlacementReason) :=
  scores ← walk_picked (λ ctx chosen claim,
    let data_local :=
      bs_iter (list_to_set
        (List.filter (λ data, caches graph (claim_node claim) data) (req_data request)) : gset N) in
    score ← score_node ctx chosen (claim_node claim);
    Ok (CandidateScore (claim_node claim) score data_local
          (degraded_ancestor graph (claim_node claim)))) graph occ request mode picked;
  Ok (scores ++
      ((λ '(index, failure, c, lgroup, rgroup),
          TopologyReason index (tc_relation c) (claim_node <$> lgroup) (claim_node <$> rgroup)
            (Some (tf_left failure, tf_right failure)))
       <$> traced_constraints picked request trace)).

(** ** The greedy selector *)

Record SelectCtx := mkSelectCtx {
  cx_graph : Graph;
  cx_occupancy : Occupancy;
  cx_request : Request;
  cx_mode : PackMode;
  cx_quarantine : gset N;
}.

(** Results together with the trace reached, also on errors. *)
Definition traced (A : Type) : Type := TopologyTrace * result Error A.

(** A consumable need takes the first ranked node that covers it. *)
Fixpoint take_first (ctx : ScoreCtx) (wanted : Quantity) (ranked : list NodeId)
    (trace : TopologyTrace) : traced (option (list Claim * list string)) :=
  match ranked with
  | [] => (trace, Ok None)
  | node :: ranked =>
      let claim := mkClaim node wanted in
      match can_cover (sc_occupancy ctx) (sc_graph ctx) claim with
      | Err e => (trace, Err e)
      | Ok false => take_first ctx wanted ranked trace
      | Ok true =>
          let '(trace, holds) :=
            topology_holds_traced (sc_graph ctx) (sc_already ctx ++ [[claim]])
              (sc_request ctx) trace in
          if holds then
            match score_node ctx [] node with
            | Err e => (trace, Err e)
            | Ok score =>
                (trace, Ok (Some ([claim], [score_note (sc_graph ctx) (sc_request ctx) node score])))
            end
          else take_first ctx wanted ranked trace
      end
  end.

(** Unit claims on the given nodes, in order, until [count] are placed. *)
Fixpoint place_units (ctx : ScoreCtx) (count : u64) (nodes : list NodeId)
    (chosen : list Claim) (notes : list string) (trace : TopologyTrace)
    : traced (list Claim * list string) :=
  match nodes with
  | [] => (trace, Ok (chosen, notes))
  | node :: nodes =>
      if count <=? N.of_nat (length chosen) then (trace, Ok (chosen, notes))
      else
        let claim := mkClaim node (qty Dim.Count 1) in
        let '(trace, holds) :=
          topology_holds_traced (sc_graph ctx) (sc_already ctx ++ [chosen ++ [claim]])
            (sc_request ctx) trace in
        if holds then
          match score_node ctx chosen node with
          | Err e => (trace, Err e)
          | Ok score =>
              place_units ctx count nodes (chosen ++ [claim])
                (notes ++ [score_note (sc_graph ctx) (sc_request ctx) node score]) trace
          end
        else place_units ctx count nodes chosen notes trace
  end.

Definition select_spread (already : list (list Claim)) (need : Need) (ctx : ScoreCtx)
    (cands : list NodeId) (count : u64) (trace : TopologyTrace)
    : traced (list Claim * list string) :=
  match rank ctx [] cands with
  | Err e => (trace, Err e)
  | Ok ranked =>
      let '(trace, r) := place_units ctx count ranked [] [] trace in
      (trace,
       '(chosen, notes) ← r;
       if negb (N.of_nat (length chosen) =? count)
       then Err (Refused ("need " +:+ debug_class (need_kind need) +:+ " x" +:+ pretty count
                          +:+ " found only " +:+ pretty (length chosen)))
       else Ok (chosen, notes))
  end.

(** Ranked nodes grouped by machine, machines in order of first appearance. *)
Definition group_machines (graph : Graph) (ranked : list NodeId)
    : list NodeId * gmap N (list NodeId) :=
  foldl (λ (acc : list NodeId * gmap N (list NodeId)) node,
    let '(machines, by_machine) := acc in
    match machine_of graph node with
    | None => acc
    | Some machine =>
        ((if decide (is_Some (by_machine !! machine)) then machines else machines ++ [machine]),
         push_index by_machine machine node)
    end) ([], ∅) ranked.

(** The first machine that takes all the units. *)
Fixpoint first_machine (ctx : ScoreCtx) (count : u64) (by_machine : gmap N (list NodeId))
    (machines : list NodeId) (trace : TopologyTrace)
    : traced (option (list Claim * list string)) :=
  match machines with
  | [] => (trace, Ok None)
  | machine :: machines =>
      let '(trace, r) := place_units ctx count (default [] (by_machine !! machine)) [] [] trace in
      match r with
      | Err e => (trace, Err e)
      | Ok (chosen, notes) =>
          if N.of_nat (length chosen) =? count then (trace, Ok (Some (chosen, notes)))
          else first_machine ctx count by_machine machines trace
      end
  end.

Definition select_need_in (ctx : SelectCtx) (need : Need) (already : list (list Claim))
    (allowed : option (gset N)) (trace : TopologyTrace) : traced (list Claim * list string) :=
  let graph := cx_graph ctx in
  match candidates graph (cx_occupancy ctx) need (cx_quarantine ctx) with
  | Err e => (trace, Err e)
  | Ok all =>
      let cands :=
        List.filter (λ node,
          match allowed with None => true | Some set => bool_decide (node ∈ set) end) all in
      if bool_decide (cands = [])
      then (trace, Err (Refused ("no " +:+ debug_class (need_kind need)
                                 +:+ " node within the allowed set")))
      else if is_consumable_need need then
        let wanted := consumable_quantity need in
        if bool_decide (wanted = ∅) || forallb (λ amount, amount =? 0) (bt_values wanted)
        then (trace, Err (Refused (if bool_decide (need_kind need = Class.Memory)
                                   then "memory need has zero bytes"
                                   else "need " +:+ debug_class (need_kind need)
                                        +:+ " has no positive capacity")))
        else
          let memory_want := quantity_get wanted Dim.Bytes in
          let sctx := mkScoreCtx graph (cx_occupancy ctx) (cx_request ctx) already (cx_mode ctx)
                        memory_want in
          match rank sctx [] cands with
          | Err e => (trace, Err e)
          | Ok ranked =>
              let '(trace, r) := take_first sctx wanted ranked trace in
              (trace,
               o ← r;
               ok_or o (Refused (if bool_decide (need_kind need = Class.Memory)
                                 then "no memory node has " +:+ pretty memory_want +:+ " free bytes"
                                 else "no " +:+ debug_class (need_kind need)
                                      +:+ " node has the requested capacity")))
          end
      else
        let count := need_count need in
        let sctx := mkScoreCtx graph (cx_occupancy ctx) (cx_request ctx) already (cx_mode ctx) 0 in
        if negb (req_machine_local (cx_request ctx))
        then select_spread already need sctx cands count trace
        else
          match rank sctx [] cands with
          | Err e => (trace, Err e)
          | Ok ranked =>
              let '(machines, by_machine) := group_machines graph ranked in
              let '(trace, r) := first_machine sctx count by_machine machines trace in
              (trace,
               o ← r;
               ok_or o (Refused ("need " +:+ debug_class (need_kind need) +:+ " x" +:+ pretty count
                                 +:+ " does not fit on any single machine")))
          end
  end.

Definition select_need (ctx : SelectCtx) (need : Need) (already : list (list Claim))
    (trace : TopologyTrace) : traced (list Claim * list string) :=
  select_need_in ctx need already None trace.

(** [for need in &request.needs]: one group of claims per need. *)
Fixpoint select_needs (ctx : SelectCtx) (allowed : option (gset N)) (needs : list Need)
    (picked : list (list Claim)) (notes : list string) (trace : TopologyTrace)
    : traced (list (list Claim) * list string) :=
  match needs with
  | [] => (trace, Ok (picked, notes))
  | need :: needs =>
      let '(trace, r) := select_need_in ctx need picked allowed trace in
      match r with
      | Err e => (trace, Err e)
      | Ok (claims, need_notes) =>
          select_needs ctx allowed needs (picked ++ [claims]) (notes ++ need_notes) trace
      end
  end.

Definition join_notes (notes : list string) : string :=
  if bool_decide (notes = []) then "" else "; " +:+ join "; " notes.

Definition machine_allocation (graph : Graph) (request : Request) (mode : PackMode)
    (machine : NodeId) (claims : list Claim) (notes : list string)
    (reasons : list PlacementReason) : Allocation :=
  mkAllocation claims (g_revision graph)
    (mkExplanation
       (show_request_class (req_class request) +:+ " " +:+ show_mode mode +:+ " selected "
        +:+ pretty (length claims) +:+ " claims on " +:+ show_node machine +:+ join_notes notes)
       (MachineSelected machine :: reasons)).

(** ** The bounded search of one machine *)

Definition FALLBACK_SEARCH_BUDGET : N := 4096.

(** [SearchBudget::consume] *)
Definition consume (budget : N) : option N := if budget =? 0 then None else Some (budget - 1).

(** The mutable state of [MachineSearch] and the [picked] vector. *)
Record Search := mkSearch {
  se_trace : TopologyTrace;
  se_budget : N;
  se_picked : list (list Claim);
}.

Definition with_picked (index : nat) (group : list Claim) (s : Search) : Search :=
  mkSearch (se_trace s) (se_budget s) (<[index := group]> (se_picked s)).
Definition with_budget (budget : N) (s : Search) : Search :=
  mkSearch (se_trace s) budget (se_picked s).

Definition check_topology (graph : Graph) (request : Request) (s : Search) : Search * bool :=
  let '(trace, holds) := topology_holds_traced graph (se_picked s) request (se_trace s) in
  (mkSearch trace (se_budget s) (se_picked s), holds).

Section search.
Context (graph : Graph) (occ : Occupancy) (request : Request) (quarantine allowed : gset N).

(** [MachineSearch::group]; the loop over [ranked.skip(start)] and the
    recursion with [position + 1] both continue with the nodes after this
    one, and [next] is [needs(index + 1)]. *)
Fixpoint search_group (index : nat) (count : u64) (next : Search → Search * result Error bool)
    (ranked : list NodeId) (chosen : list Claim) (s : Search) : Search * result Error bool :=
  if N.of_nat (length chosen) =? count then next s
  else
    match ranked with
    | [] => (s, Ok false)
    | node :: ranked =>
        match consume (se_budget s) with
        | None => (s, Ok false)
        | Some budget =>
            let s := with_budget budget s in
            let claim := mkClaim node (qty Dim.Count 1) in
            match can_cover occ graph claim with
            | Err e => (s, Err e)
            | Ok false => search_group index count next ranked chosen s
            | Ok true =>
                let group := chosen ++ [claim] in
                let '(s, valid) := check_topology graph request (with_picked index group s) in
                let '(s, r) :=
                  if valid then search_group index count next ranked group s
                  else (s, Ok false) in
                match r with
                | Ok false =>
                    search_group index count next ranked chosen (with_picked index chosen s)
                | _ => (s, r)
                end
            end
        end
    end.

(** The loop of [MachineSearch::needs] over the nodes of a consumable need. *)
Fixpoint search_consumable (index : nat) (wanted : Quantity)
    (next : Search → Search * result Error bool) (ranked : list NodeId) (s : Search)
    : Search * result Error bool :=
  match ranked with
  | [] => (s, Ok false)
  | node :: ranked =>
      match consume (se_budget s) with
      | None => (s, Ok false)
      | Some budget =>
          let s := with_budget budget s in
          let claim := mkClaim node wanted in
          match can_cover occ graph claim with
          | Err e => (s, Err e)
          | Ok false => search_consumable index wanted next ranked s
          | Ok true =>
              let '(s, valid) := check_topology graph request (with_picked index [claim] s) in
              let '(s, r) := if valid then next s else (s, Ok false) in
              match r with
              | Ok false => search_consumable index wanted next ranked (with_picked index [] s)
              | _ => (s, r)
              end
          end
      end
  end.

(** [MachineSearch::needs] on the needs from [index] on. *)
Fixpoint search_needs (index : nat) (needs : list Need) (s : Search)
    : Search * result Error bool :=
  match needs with
  | [] => let '(s, holds) := check_topology graph request s in (s, Ok holds)
  | need :: needs =>
      match candidates graph occ need quarantine with
      | Err e => (s, Err e)
      | Ok all =>
          let cands := List.filter (λ node, bool_decide (node ∈ allowed)) all in
          if bool_decide (cands = []) then (s, Ok false)
          else
            match rank (need_ctx graph occ request (pack_mode request) (se_picked s) need) []
                    cands with
            | Err e => (s, Err e)
            | Ok ranked =>
                let next := search_needs (S index) needs in
                if is_consumable_need need
                then search_consumable index (consumable_quantity need) next ranked s
                else search_group index (need_count need) next ranked [] s
            end
      end
  end.
End search.

(** ** Whole-machine placement *)

(** What one machine yields: an allocation, or the trace to go on with. *)
Definition try_machine (graph : Graph) (occ : Occupancy) (request : Request) (mode : PackMode)
    (quarantine : gset N) (machine : NodeId) (trace : TopologyTrace)
    : traced (option Allocation) :=
  if in_quarantine graph quarantine machine then (trace, Ok None)
  else
    let allowed : gset N := {[machine]} ∪ list_to_set (descendants graph machine) in
    let ctx := mkSelectCtx graph occ request mode quarantine in
    let '(trace, r) := select_needs ctx (Some allowed) (req_needs request) [] [] trace in
    let greedy :=
      match r with
      | Ok (picked, notes) =>
          if topology_holds graph picked request then Some (picked, notes) else None
      | Err _ => None
      end in
    match greedy with
    | Some (picked, notes) =>
        (trace,
         reasons ← placement_reasons graph occ request mode picked trace;
         Ok (Some (machine_allocation graph request mode machine (mjoin picked)
                     (notes ++ topology_notes graph picked request trace) reasons)))
    | None =>
        if bool_decide (req_topology request = []) then (trace, Ok None)
        else
          let '(s, r) :=
            search_needs graph occ request quarantine allowed 0 (req_needs request)
              (mkSearch trace FALLBACK_SEARCH_BUDGET (replicate (length (req_needs request)) [])) in
          (se_trace s,
           found ← r;
           if found : bool then
             notes ← selection_notes graph occ request mode (se_picked s);
             reasons ← placement_reasons graph occ request mode (se_picked s) (se_trace s);
             Ok (Some (machine_allocation graph request mode machine (mjoin (se_picked s))
                         (notes ++ topology_notes graph (se_picked s) request (se_trace s)) reasons))
           else Ok None)
    end.

Fixpoint try_machines (graph : Graph) (occ : Occupancy) (request : Request) (mode : PackMode)
    (quarantine : gset N) (machines : list NodeId) (trace : TopologyTrace)
    : result Error Allocation :=
  match machines with
  | [] =>
      Err (Refused (if bool_decide (req_topology request = [])
                    then "no single machine hosts every need of this workload"
                    else "no single machine satisfies every need and topology constraint of this workload"))
  | machine :: machines =>
      let '(trace, r) := try_machine graph occ request mode quarantine machine trace in
      o ← r;
      match o with
      | Some allocation => Ok allocation
      | None => try_machines graph occ request mode quarantine machines trace
      end
  end.

Definition select_one_machine (graph : Graph) (occ : Occupancy) (request : Request)
    (mode : PackMode) (quarantine : gset N) : result Error Allocation :=
  try_machines graph occ request mode quarantine (nodes_of_class graph Class.Machine) ∅.

(** ** [select] *)

Definition malformed (request : Request) : bool :=
  existsb (λ c, Nat.leb (length (req_needs request)) (tc_left c)
                || Nat.leb (length (req_needs request)) (tc_right c)) (req_topology request).

Definition select (graph : Graph) (occ : Occupancy) (request : Request) (quarantine : gset N)
    : result Error Allocation :=
  if malformed request then Err (Refused "topology constraint names a nonexistent need")
  else
    let mode := pack_mode request in
    if req_machine_local request && Nat.ltb 1 (length (req_needs request))
    then select_one_machine graph occ request mode quarantine
    else
      let ctx := mkSelectCtx graph occ request mode quarantine in
      let '(trace, r) := select_needs ctx None (req_needs request) [] [] ∅ in
      '(picked, notes) ← r;
      if negb (topology_holds graph picked request)
      then Err (Refused "topology constraints were not satisfied")
      else
        reasons ← placement_reasons graph occ request mode picked trace;
        let notes := notes ++ topology_notes graph picked request trace in
        Ok (mkAllocation (mjoin picked) (g_revision graph)
              (mkExplanation
                 (show_request_class (req_class request) +:+ " " +:+ show_mode mode
                  +:+ " selected " +:+ pretty (length (mjoin picked)) +:+ " claims"
                  +:+ join_notes notes)
                 reasons)).
