(* ===== verification/SelectFacts.v ===== *)
(** * Placement: soundness

    Whatever path [select] takes (greedy, whole-machine greedy, bounded
    search), an allocation it returns meets the request: one group of claims
    per need, on claimable, unblocked, matching nodes with free capacity,
    each node once, all topology constraints satisfied. *)

From S2P Require Import Prelude.
From S2P Require Import Identifier.
From S2P Require Import Types.
From S2P Require Import Graph.
From S2P Require Import GraphFacts.
From S2P Require Import Occupancy.
From S2P Require Import Select.

(** ** The specification *)

Record claim_sound (g : Graph) (occ : Occupancy) (quarantine : gset N) (need : Need) (cl : Claim)
    : Prop := {
  cs_node : ∃ n, g_nodes g !! claim_node cl = Some n ∧ node_kind n = need_kind need
                 ∧ filters_reject need n = false;
  cs_free : in_quarantine g quarantine (claim_node cl) = false;
  cs_contract : ∃ b, claim_binding_for_quantity g (claim_node cl) (claim_quantity cl) = Ok b;
  cs_cover : can_cover occ g cl = Ok true;
}.

Definition group_sound (g : Graph) (occ : Occupancy) (quarantine : gset N) (need : Need)
    (group : list Claim) : Prop :=
  (∀ cl, cl ∈ group → claim_sound g occ quarantine need cl)
  ∧ if is_consumable_need need
    then ∃ node, group = [mkClaim node (consumable_quantity need)]
    else N.of_nat (length group) = need_count need
         ∧ ∀ cl, cl ∈ group → claim_quantity cl = qty Dim.Count 1.

Definition topology_sound (g : Graph) (request : Request) (picked : list (list Claim)) : Prop :=
  ∀ c lgroup rgroup l r, c ∈ req_topology request →
    picked !! tc_left c = Some lgroup → picked !! tc_right c = Some rgroup →
    l ∈ lgroup → r ∈ rgroup → satisfies g (claim_node l) (claim_node r) (tc_relation c) = true.

Lemma group_sound_unit g occ quarantine need group cl :
  group_sound g occ quarantine need group → cl ∈ group →
  claim_sound g occ quarantine need cl ∧ claim_quantity cl = need_unit need.
Proof.
  intros [Hs Hq] Hcl. split; [by apply Hs|]. unfold need_unit.
  destruct (is_consumable_need need).
  - destruct Hq as [node ->]. by apply list_elem_of_singleton in Hcl as ->.
  - by apply Hq.
Qed.

(** ** Topology checks *)

Lemma omap_head_None {A B} (f : A → option B) (l : list A) :
  head (omap f l) = None → ∀ x, x ∈ l → f x = None.
Proof.
  intros Hh x Hx. destruct (f x) as [y|] eqn:Hf; [|done].
  assert (y ∈ omap f l) as Hy by (apply list_elem_of_omap; eauto).
  destruct (omap f l); [by apply elem_of_nil in Hy|done].
Qed.

Lemma pair_failure_None g index relation lefts rights :
  pair_failure g index relation lefts rights = None →
  ∀ l r, l ∈ lefts → r ∈ rights → satisfies g (claim_node l) (claim_node r) relation = true.
Proof.
  intros Hn l r Hl Hr.
  apply omap_head_None with (x := (l, r)) in Hn; [by destruct (satisfies _ _ _ _)|].
  apply list_elem_of_bind. exists l. split; [|done].
  apply list_elem_of_bind. exists r. split; [by left|done].
Qed.

Lemma topology_failure_None g picked request :
  topology_failure g picked request = None → topology_sound g request picked.
Proof.
  intros Hn c lg rg l r [index Hc]%list_elem_of_lookup Hl Hr Hlin Hrin.
  assert ((index, c) ∈ imap (λ index c, (index, c)) (req_topology request)) as Hin.
  { apply elem_of_lookup_imap. eauto. }
  apply (omap_head_None _ _ Hn) in Hin. unfold constraint_failure in Hin. rewrite Hl, Hr in Hin.
  by eapply pair_failure_None.
Qed.

Lemma topology_holds_sound g picked request :
  topology_holds g picked request = true →
  NoDup (claim_node <$> mjoin picked) ∧ topology_sound g request picked.
Proof.
  unfold topology_holds, claims_are_unique. intros [Hu%bool_decide_eq_true Ht]%andb_prop.
  split; [done|]. destruct (topology_failure g picked request) eqn:Hf; [done|].
  by apply topology_failure_None.
Qed.

Lemma topology_traced_holds g picked request trace :
  (topology_holds_traced g picked request trace).2 = topology_holds g picked request.
Proof.
  unfold topology_holds_traced, topology_holds.
  destruct (claims_are_unique picked), (topology_failure g picked request); done.
Qed.

(** ** Candidates and ranking *)

Definition candidate_ok (g : Graph) (occ : Occupancy) (quarantine : gset N) (need : Need)
    (id : NodeId) : Prop :=
  claim_sound g occ quarantine need (mkClaim id (need_unit need)).

Lemma candidates_ok g occ need quarantine cands :
  graph_wf g → candidates g occ need quarantine = Ok cands →
  ∀ id, id ∈ cands → candidate_ok g occ quarantine need id.
Proof.
  intros Hwf Hrun. unfold candidates in Hrun. destruct (bool_decide _); [done|]. cbv zeta in Hrun.
  refine (try_fold_ind (λ out, ∀ id, id ∈ out → candidate_ok g occ quarantine need id)
    _ _ _ _ _ _ Hrun); [intros id Hid; by apply elem_of_nil in Hid|].
  intros out id out' Hid Hout Hstep.
  apply (nodes_of_class_spec g _ _ Hwf) in Hid as (n & Hn & Hk).
  unfold graph_node in Hstep. rewrite Hn in Hstep. simpl in Hstep.
  destruct (claim_binding_for_quantity g id (need_unit need)) as [b|] eqn:Hb; simpl in Hstep;
    [|by simplify_eq].
  rewrite (wf_keys _ Hwf _ _ Hn) in Hstep.
  destruct (in_quarantine _ _ _) eqn:Hq; [by simplify_eq|].
  destruct (filters_reject _ _) eqn:Hf; [by simplify_eq|].
  apply bind_Ok_inv in Hstep as ([] & Hcov & Hstep); simplify_eq; [|done].
  intros j [Hj| ->%list_elem_of_singleton]%elem_of_app; [by apply Hout|].
  split; simpl; eauto.
Qed.

Lemma rank_elem ctx chosen cands ranked :
  rank ctx chosen cands = Ok ranked → ∀ id, id ∈ ranked → id ∈ cands.
Proof.
  unfold rank. intros Hrun id Hid. apply bind_Ok_inv in Hrun as (scored & Hmap & Hrun). simplify_eq.
  apply list_elem_of_fmap in Hid as (p & -> & Hp%elem_of_sort_by).
  apply try_map_Forall2 in Hmap.
  apply list_elem_of_lookup in Hp as [i Hi].
  destruct (Forall2_lookup_r _ _ _ _ _ Hmap Hi) as (x & Hx & Heq).
  apply bind_Ok_inv in Heq as (s & _ & Heq). simplify_eq. by eapply list_elem_of_lookup_2.
Qed.

(** ** The greedy selector *)

Section greedy.
Context (g : Graph) (occ : Occupancy) (quarantine : gset N) (need : Need).

Lemma take_first_sound ctx wanted ranked trace trace' claims notes :
  sc_graph ctx = g → sc_occupancy ctx = occ →
  take_first ctx wanted ranked trace = (trace', Ok (Some (claims, notes))) →
  ∃ node, node ∈ ranked ∧ claims = [mkClaim node wanted]
          ∧ can_cover occ g (mkClaim node wanted) = Ok true.
Proof.
  intros Hg Ho. revert trace. induction ranked as [|node ranked IH]; intros trace; [done|].
  cbn [take_first]. rewrite Hg, Ho.
  assert (∀ t, take_first ctx wanted ranked t = (trace', Ok (Some (claims, notes))) →
    ∃ node0, node0 ∈ node :: ranked ∧ claims = [mkClaim node0 wanted]
      ∧ can_cover occ g (mkClaim node0 wanted) = Ok true) as Hnext.
  { intros t (x & Hx & Hrest)%IH. exists x. split; [by right|done]. }
  destruct (can_cover occ g (mkClaim node wanted)) as [[]|e] eqn:Hcov; [|apply Hnext|done].
  destruct (topology_holds_traced _ _ _ _) as [t []]; [|apply Hnext].
  destruct (score_node ctx [] node); [|done]. intros [= _ <- _].
  exists node. split_and!; [by left|done|done].
Qed.

(** Unit claims placed one by one: on nodes of the list, at most [count]. *)
Lemma place_units_sound ctx count nodes chosen notes trace trace' claims notes' :
  place_units ctx count nodes chosen notes trace = (trace', Ok (claims, notes')) →
  (∀ cl, cl ∈ claims → cl ∈ chosen ∨ ∃ node, node ∈ nodes ∧ cl = mkClaim node (qty Dim.Count 1)).
Proof.
  revert chosen notes trace. induction nodes as [|node nodes IH]; intros chosen notes trace.
  { intros [= _ <- _]. auto. }
  cbn [place_units]. destruct (_ <=? _); [intros [= _ <- _]; auto|].
  assert (∀ c0 n0 t, (∀ cl, cl ∈ c0 → cl ∈ chosen ∨ cl = mkClaim node (qty Dim.Count 1)) →
    place_units ctx count nodes c0 n0 t = (trace', Ok (claims, notes')) →
    ∀ cl, cl ∈ claims → cl ∈ chosen ∨ ∃ x, x ∈ node :: nodes ∧ cl = mkClaim x (qty Dim.Count 1))
    as Hnext.
  { intros c0 n0 t Hc0 Hrun cl Hcl. destruct (IH _ _ _ Hrun cl Hcl) as [Hin|(x & Hx & ->)].
    - destruct (Hc0 cl Hin) as [?| ->]; [by left|right]. exists node. split; [by left|done].
    - right. exists x. split; [by right|done]. }
  destruct (topology_holds_traced _ _ _ _) as [t []].
  - destruct (score_node ctx chosen node); [|done]. apply Hnext.
    intros cl [?| ->%list_elem_of_singleton]%elem_of_app; auto.
  - apply Hnext. auto.
Qed.

Lemma units_sound (nodes : list NodeId) (claims : list Claim) :
  is_consumable_need need = false →
  (∀ id, id ∈ nodes → candidate_ok g occ quarantine need id) →
  (∀ cl, cl ∈ claims → ∃ node, node ∈ nodes ∧ cl = mkClaim node (qty Dim.Count 1)) →
  N.of_nat (length claims) = need_count need → group_sound g occ quarantine need claims.
Proof.
  intros Hc Hnodes Hcl Hlen. unfold group_sound. rewrite Hc. split_and!; [|done|].
  - intros cl (node & Hn & ->)%Hcl. specialize (Hnodes node Hn).
    unfold candidate_ok, need_unit in Hnodes. by rewrite Hc in Hnodes.
  - by intros cl (node & _ & ->)%Hcl.
Qed.

Lemma select_spread_sound already ctx cands trace trace' claims notes :
  is_consumable_need need = false →
  (∀ id, id ∈ cands → candidate_ok g occ quarantine need id) →
  select_spread already need ctx cands (need_count need) trace = (trace', Ok (claims, notes)) →
  group_sound g occ quarantine need claims ∧ ∀ cl, cl ∈ claims → claim_node cl ∈ cands.
Proof.
  intros Hc Hcands Hrun. unfold select_spread in Hrun.
  destruct (rank ctx [] cands) as [ranked|] eqn:Hrank; [|done].
  destruct (place_units _ _ _ _ _ _) as [t [[chosen ns]|]] eqn:Hp; [|done]. cbn in Hrun.
  destruct (N.eqb_spec (N.of_nat (length chosen)) (need_count need)) as [Hlen|]; [|done].
  simpl in Hrun. simplify_eq. pose proof (place_units_sound _ _ _ _ _ _ _ _ _ Hp) as Hin.
  assert (∀ cl, cl ∈ claims → ∃ node, node ∈ cands ∧ cl = mkClaim node (qty Dim.Count 1)) as Hin'.
  { intros cl Hcl. destruct (Hin cl Hcl) as [?%elem_of_nil|(x & Hx & ->)]; [done|].
    exists x. split; [by eapply rank_elem|done]. }
  split; [by eapply units_sound|]. by intros cl (x & Hx & ->)%Hin'.
Qed.

(** Every node of a machine's group has that machine. *)
Lemma group_machines_spec ranked machines by_machine :
  group_machines g ranked = (machines, by_machine) →
  ∀ m node, node ∈ default [] (by_machine !! m) → node ∈ ranked ∧ machine_of g node = Some m.
Proof.
  unfold group_machines. intros Hrun.
  assert (∀ l acc, let acc' := foldl (λ (acc : list NodeId * gmap N (list NodeId)) node,
      let '(machines, by_machine) := acc in
      match machine_of g node with
      | None => acc
      | Some machine =>
          ((if decide (is_Some (by_machine !! machine)) then machines else machines ++ [machine]),
           push_index by_machine machine node)
      end) acc l in
    ∀ m node, node ∈ default [] (acc'.2 !! m) →
      node ∈ default [] (acc.2 !! m) ∨ node ∈ l ∧ machine_of g node = Some m) as Hfold.
  { induction l as [|x l IH]; intros acc; cbv zeta; cbn [foldl]; [by left|].
    intros m node [Hin|[Hin Hm]]%IH; [|right; split; [by right|done]].
    destruct acc as [ms bm]. destruct (machine_of g x) as [mx|] eqn:Hx; [|by left].
    cbn [snd] in *. unfold push_index in Hin. rewrite lookup_insert in Hin.
    case_decide; [|by left]. subst. simpl in Hin.
    apply elem_of_app in Hin as [?| ->%list_elem_of_singleton]; [by left|right].
    split; [by left|done]. }
  intros m node Hin. specialize (Hfold ranked ([], ∅)). cbv zeta in Hfold. rewrite Hrun in Hfold.
  destruct (Hfold m node Hin) as [Hno|?]; [|done]. cbn in Hno. rewrite lookup_empty in Hno.
  by apply elem_of_nil in Hno.
Qed.

Lemma first_machine_sound ctx count by_machine machines trace trace' claims notes :
  first_machine ctx count by_machine machines trace = (trace', Ok (Some (claims, notes))) →
  N.of_nat (length claims) = count
  ∧ ∃ m, ∀ cl, cl ∈ claims →
      ∃ node, node ∈ default [] (by_machine !! m) ∧ cl = mkClaim node (qty Dim.Count 1).
Proof.
  revert trace. induction machines as [|m machines IH]; intros trace; [done|].
  cbn [first_machine]. destruct (place_units _ _ _ _ _ _) as [t [[chosen ns]|]] eqn:Hp; [|done].
  destruct (N.eqb_spec (N.of_nat (length chosen)) count) as [Hlen|]; [|apply IH].
  intros [= _ <- _]. split; [done|]. exists m. intros cl Hcl.
  destruct (place_units_sound _ _ _ _ _ _ _ _ _ Hp cl Hcl) as [?%elem_of_nil|?]; done.
Qed.

Lemma consumable_group node :
  is_consumable_need need = true → candidate_ok g occ quarantine need node →
  group_sound g occ quarantine need [mkClaim node (consumable_quantity need)].
Proof.
  intros Hc Hok. unfold candidate_ok, need_unit in Hok. rewrite Hc in Hok.
  unfold group_sound. rewrite Hc. split; [|eauto]. by intros cl ->%list_elem_of_singleton.
Qed.

Lemma consumable_sound ctx ranked trace trace' claims notes :
  is_consumable_need need = true →
  (∀ id, id ∈ ranked → candidate_ok g occ quarantine need id) →
  sc_graph ctx = g → sc_occupancy ctx = occ →
  take_first ctx (consumable_quantity need) ranked trace = (trace', Ok (Some (claims, notes))) →
  group_sound g occ quarantine need claims ∧ ∀ cl, cl ∈ claims → claim_node cl ∈ ranked.
Proof.
  intros Hc Hcands Hg Ho Ht.
  destruct (take_first_sound _ _ _ _ _ _ _ Hg Ho Ht) as (node & Hin & -> & _).
  split; [by apply consumable_group, Hcands|by intros cl ->%list_elem_of_singleton].
Qed.

Lemma one_machine_sound ctx ranked machines by_machine trace trace' claims notes :
  is_consumable_need need = false →
  (∀ id, id ∈ ranked → candidate_ok g occ quarantine need id) →
  group_machines g ranked = (machines, by_machine) →
  first_machine ctx (need_count need) by_machine machines trace
  = (trace', Ok (Some (claims, notes))) →
  group_sound g occ quarantine need claims ∧ (∀ cl, cl ∈ claims → claim_node cl ∈ ranked)
  ∧ ∃ m, ∀ cl, cl ∈ claims → machine_of g (claim_node cl) = Some m.
Proof.
  intros Hc Hcands Hgm Hf.
  destruct (first_machine_sound _ _ _ _ _ _ _ _ Hf) as (Hlen & m & Hm).
  assert (∀ cl, cl ∈ claims → ∃ node, (node ∈ ranked ∧ machine_of g node = Some m)
    ∧ cl = mkClaim node (qty Dim.Count 1)) as Hm'.
  { intros cl Hcl. destruct (Hm cl Hcl) as (node & Hin & ->).
    exists node. split; [by eapply group_machines_spec|done]. }
  split_and!.
  - apply (units_sound ranked); [done|done| |done]. intros cl (node & [? _] & ->)%Hm'. eauto.
  - by intros cl (node & [Hn _] & ->)%Hm'.
  - exists m. by intros cl (node & [_ ?] & ->)%Hm'.
Qed.
End greedy.

Definition in_allowed (allowed : option (gset N)) (claims : list Claim) : Prop :=
  ∀ set cl, allowed = Some set → cl ∈ claims → claim_node cl ∈ set.

Lemma select_need_in_sound ctx need already allowed trace trace' claims notes :
  graph_wf (cx_graph ctx) →
  select_need_in ctx need already allowed trace = (trace', Ok (claims, notes)) →
  group_sound (cx_graph ctx) (cx_occupancy ctx) (cx_quarantine ctx) need claims
  ∧ in_allowed allowed claims
  ∧ (req_machine_local (cx_request ctx) = true → is_consumable_need need = false →
     ∃ m, ∀ cl, cl ∈ claims → machine_of (cx_graph ctx) (claim_node cl) = Some m).
Proof.
  intros Hwf Hrun. unfold select_need_in in Hrun. cbv zeta in Hrun.
  destruct (candidates _ _ _ _) as [all|] eqn:Hall; [|done].
  set (cands := List.filter _ all) in Hrun.
  assert (∀ id, id ∈ cands →
    candidate_ok (cx_graph ctx) (cx_occupancy ctx) (cx_quarantine ctx) need id
    ∧ ∀ set, allowed = Some set → id ∈ set) as Hcands.
  { intros id Hid. unfold cands in Hid. rewrite list_elem_of_In, filter_In, <-list_elem_of_In in Hid.
    destruct Hid as [Hid Hset]. split; [by eapply candidates_ok|].
    intros set ->. by apply bool_decide_eq_true in Hset. }
  assert (∀ l : list Claim, (∀ cl, cl ∈ l → claim_node cl ∈ cands) → in_allowed allowed l) as Hallow.
  { intros l Hl set cl Hset Hcl. by apply (Hcands _ (Hl cl Hcl)). }
  assert (∀ id, id ∈ cands → candidate_ok (cx_graph ctx) (cx_occupancy ctx) (cx_quarantine ctx)
    need id) as Hok by (intros id Hid; by apply Hcands).
  clear Hcands Hall. clearbody cands. destruct (bool_decide (cands = [])); [done|].
  destruct (is_consumable_need need) eqn:Hc; [destruct (_ || _); [done|]|];
    [|destruct (negb (req_machine_local (cx_request ctx))) eqn:Hml].
  - destruct (rank _ _ _) as [ranked|] eqn:Hrank; [|done].
    destruct (take_first _ _ _ _) as [t [[[cs ns]|]|]] eqn:Ht; [|done|done].
    cbn in Hrun. simplify_eq. pose proof (rank_elem _ _ _ _ Hrank) as Hin.
    apply (consumable_sound (cx_graph ctx) (cx_occupancy ctx) (cx_quarantine ctx)) in Ht
      as [Hs Hcl]; [|done|auto|done|done]. split_and!; [done|auto|done].
  - apply (select_spread_sound (cx_graph ctx) (cx_occupancy ctx) (cx_quarantine ctx))
      in Hrun as [Hs Hin]; [|done|done].
    split_and!; [done|auto|intros Hl; by rewrite Hl in Hml].
  - destruct (rank _ _ _) as [ranked|] eqn:Hrank; [|done]. pose proof (rank_elem _ _ _ _ Hrank) as Hin.
    destruct (group_machines _ _) as [machines bm] eqn:Hgm.
    destruct (first_machine _ _ _ _ _) as [t [[[cs ns]|]|]] eqn:Hf; [|done|done].
    cbn in Hrun. simplify_eq.
    apply (one_machine_sound _ (cx_occupancy ctx) (cx_quarantine ctx) _ _ _ _ _ _ _ _ _ Hc)
      with (1 := λ id Hid, Hok id (Hin id Hid)) (2 := Hgm) in Hf as (Hs & Hcl & Hm).
    split_and!; [done|auto|done].
Qed.

Lemma select_needs_sound ctx allowed needs picked notes trace trace' picked' notes' :
  graph_wf (cx_graph ctx) →
  select_needs ctx allowed needs picked notes trace = (trace', Ok (picked', notes')) →
  ∃ new, picked' = picked ++ new
    ∧ Forall2 (λ need group,
        group_sound (cx_graph ctx) (cx_occupancy ctx) (cx_quarantine ctx) need group
        ∧ in_allowed allowed group
        ∧ (req_machine_local (cx_request ctx) = true → is_consumable_need need = false →
           ∃ m, ∀ cl, cl ∈ group → machine_of (cx_graph ctx) (claim_node cl) = Some m)) needs new.
Proof.
  intros Hwf. revert picked notes trace.
  induction needs as [|need needs IH]; intros picked notes trace; cbn [select_needs].
  { intros [= _ <- _]. exists []. by rewrite app_nil_r. }
  destruct (select_need_in _ _ _ _ _) as [t [[claims ns]|]] eqn:Hn; [|done].
  intros (new & -> & Hnew)%IH. exists (claims :: new).
  split; [by rewrite <-(assoc_L (++))|]. constructor; [|done]. by eapply select_need_in_sound.
Qed.

(** ** The bounded search of one machine

    The search writes group after group into one vector and undoes what it
    wrote when it backtracks: groups before [index] are never touched, and on
    success the groups from [index] on meet their needs. *)

Section bounded.
Context (g : Graph) (occ : Occupancy) (request : Request) (quarantine allowed : gset N).
Context (Hwf : graph_wf g).

Definition picked_sound (need : Need) (group : list Claim) : Prop :=
  group_sound g occ quarantine need group ∧ ∀ cl, cl ∈ group → claim_node cl ∈ allowed.

Record search_post (index : nat) (needs : list Need) (s : Search)
    (out : Search * result Error bool) : Prop := {
  sp_length : length (se_picked out.1) = length (se_picked s);
  sp_frame : ∀ j, (j < index)%nat → se_picked out.1 !! j = se_picked s !! j;
  sp_found : out.2 = Ok true →
    Forall2 picked_sound needs (drop index (se_picked out.1))
    ∧ topology_holds g (se_picked out.1) request = true;
}.

(** What [next] promises to the loops over the nodes of need [index]. *)
Definition next_ok (index : nat) (needs : list Need) (next : Search → Search * result Error bool)
    : Prop :=
  ∀ s, length (se_picked s) = (index + length needs)%nat → search_post index needs s (next s).

Lemma search_stop index needs s s' r :
  se_picked s' = se_picked s → r ≠ Ok true → search_post index needs s (s', r).
Proof. intros Heq Hr. split; cbn; [by rewrite Heq|by rewrite Heq|done]. Qed.

(** Writing group [index] first keeps the frame. *)
Lemma search_after index needs s s0 out :
  length (se_picked s0) = length (se_picked s) →
  (∀ j, (j < index)%nat → se_picked s0 !! j = se_picked s !! j) →
  search_post index needs s0 out → search_post index needs s out.
Proof.
  intros Hlen Hframe [Hl Hf Hfound]. split; [congruence| |done].
  intros j Hj. rewrite Hf by done. by apply Hframe.
Qed.

Lemma check_topology_picked s s' holds :
  check_topology g request s = (s', holds) →
  se_picked s' = se_picked s ∧ holds = topology_holds g (se_picked s) request.
Proof.
  unfold check_topology. rewrite <-(topology_traced_holds _ _ _ (se_trace s)).
  destruct (topology_holds_traced _ _ _ _). by intros [= <- <-].
Qed.

Lemma written_after index group needs s s1 valid out :
  check_topology g request (with_picked index group s) = (s1, valid) →
  search_post index needs s1 out → search_post index needs s out.
Proof.
  intros [Hp _]%check_topology_picked. apply search_after; rewrite Hp; cbn.
  - apply length_insert.
  - intros j Hj. apply list_lookup_insert_ne. lia.
Qed.

(** The next need found a solution for the groups after this one. *)
Lemma next_found index need needs group s s' r :
  se_picked s !! index = Some group → picked_sound need group →
  search_post (S index) needs s (s', r) → search_post index (need :: needs) s (s', r).
Proof.
  intros Hi Hgroup [Hlen Hframe Hfound]. cbn in *. split; cbn.
  - done.
  - intros j Hj. apply Hframe. lia.
  - intros [Hrest Htop]%Hfound. split; [|done].
    rewrite (drop_S _ group) by (rewrite Hframe by lia; done). by constructor.
Qed.

(** Backtracking: an attempt that failed is undone and the loop goes on. *)
Lemma attempt_or index needs chosen s s1 s2 r k :
  search_post index needs s1 (s2, r) →
  (∀ s0, length (se_picked s0) = length (se_picked s1) →
     search_post index needs s0 (k s0)) →
  (∀ j, (j < index)%nat → se_picked s1 !! j = se_picked s !! j) →
  length (se_picked s1) = length (se_picked s) →
  search_post index needs s
    (match r with Ok false => k (with_picked index chosen s2) | _ => (s2, r) end).
Proof.
  intros Htry Hk Hframe Hlen. destruct r as [[]|e];
    try by apply (search_after index needs s s1).
  destruct Htry as [Htl Htf _]. cbn in *.
  apply (search_after _ _ _ (with_picked index chosen s2)); cbn.
  - rewrite length_insert. congruence.
  - intros j Hj. rewrite list_lookup_insert_ne, Htf by lia. by apply Hframe.
  - apply Hk. cbn. by rewrite length_insert.
Qed.

Lemma search_consumable_post index need needs next ranked s :
  is_consumable_need need = true →
  next_ok (S index) needs next → length (se_picked s) = (index + S (length needs))%nat →
  (∀ id, id ∈ ranked → candidate_ok g occ quarantine need id ∧ id ∈ allowed) →
  search_post index (need :: needs) s
    (search_consumable g occ request index (consumable_quantity need) next ranked s).
Proof.
  intros Hc Hnext. revert s. induction ranked as [|node ranked IH]; intros s Hlen Hr;
    cbn [search_consumable]; [by apply search_stop|].
  destruct (consume (se_budget s)) as [b|]; [|by apply search_stop].
  apply (search_after _ _ _ (with_budget b s)); [done|done|].
  destruct (Hr node) as [Hok Hin]; [by left|].
  assert (∀ id, id ∈ ranked → candidate_ok g occ quarantine need id ∧ id ∈ allowed) as Hr'
    by (intros id Hid; apply Hr; by right).
  destruct (can_cover _ _ _) as [[]|]; [|by apply IH|by apply search_stop].
  destruct (check_topology _ _ _) as [s1 valid] eqn:Hct.
  pose proof (check_topology_picked _ _ _ Hct) as [Hp1 _]. cbn in Hp1.
  destruct (if valid then next s1 else (s1, Ok false)) as [s2 r] eqn:Htry.
  apply (attempt_or _ _ _ _ s1).
  - destruct valid; [|by simplify_eq; apply search_stop]. rewrite <-Htry.
    destruct (next s1) as [s3 r3] eqn:Hn. eapply next_found with (group := [mkClaim node _]).
    + rewrite Hp1. apply list_lookup_insert_eq. cbn. lia.
    + split; [by apply consumable_group|by intros cl ->%list_elem_of_singleton].
    + rewrite <-Hn. apply Hnext. rewrite Hp1, length_insert. cbn. lia.
  - intros s0 Hs0. apply IH; [|done]. rewrite Hs0, Hp1, length_insert. done.
  - intros j Hj. rewrite Hp1. apply list_lookup_insert_ne. lia.
  - rewrite Hp1. apply length_insert.
Qed.

Lemma chosen_sound need (chosen : list Claim) :
  is_consumable_need need = false →
  (∀ cl, cl ∈ chosen → ∃ id, (candidate_ok g occ quarantine need id ∧ id ∈ allowed)
     ∧ cl = mkClaim id (qty Dim.Count 1)) →
  N.of_nat (length chosen) = need_count need → picked_sound need chosen.
Proof.
  intros Hc Hch Hn. split; [|by intros cl (id & [_ ?] & ->)%Hch].
  unfold group_sound. rewrite Hc. split_and!; [|done|by intros cl (id & _ & ->)%Hch].
  intros cl (id & [Hok _] & ->)%Hch. unfold candidate_ok, need_unit in Hok. by rewrite Hc in Hok.
Qed.

Lemma search_group_post index need needs next ranked chosen s :
  is_consumable_need need = false →
  next_ok (S index) needs next → length (se_picked s) = (index + S (length needs))%nat →
  (∀ id, id ∈ ranked → candidate_ok g occ quarantine need id ∧ id ∈ allowed) →
  (∀ cl, cl ∈ chosen → ∃ id, (candidate_ok g occ quarantine need id ∧ id ∈ allowed)
     ∧ cl = mkClaim id (qty Dim.Count 1)) →
  (N.of_nat (length chosen) = need_count need → se_picked s !! index = Some chosen) →
  search_post index (need :: needs) s
    (search_group g occ request index (need_count need) next ranked chosen s).
Proof.
  intros Hc Hnext. revert chosen s.
  induction ranked as [|node ranked IH]; intros chosen s Hlen Hr Hch Hset; cbn [search_group].
  all: destruct (N.eqb_spec (N.of_nat (length chosen)) (need_count need)) as [Hn|Hn].
  1,3: destruct (next s) as [s3 r3] eqn:Hns; apply (next_found _ _ _ chosen); [auto| |];
    [by apply chosen_sound|rewrite <-Hns; apply Hnext; lia].
  { by apply search_stop. }
  destruct (consume (se_budget s)) as [b|]; [|by apply search_stop].
  apply (search_after _ _ _ (with_budget b s)); [done|done|].
  assert (∀ id, id ∈ ranked → candidate_ok g occ quarantine need id ∧ id ∈ allowed) as Hr'
    by (intros id Hid; apply Hr; by right).
  destruct (can_cover _ _ _) as [[]|]; [|apply IH; done|by apply search_stop].
  destruct (check_topology _ _ _) as [s1 valid] eqn:Hct.
  pose proof (check_topology_picked _ _ _ Hct) as [Hp1 _]. cbn in Hp1.
  assert (length (se_picked s1) = length (se_picked s)) as Hl1 by (rewrite Hp1; apply length_insert).
  set (group := chosen ++ [mkClaim node (qty Dim.Count 1)]) in *.
  destruct (if valid then _ else _) as [s2 r] eqn:Htry.
  apply (attempt_or _ _ _ _ s1 _ _ (search_group g occ request index (need_count need) next ranked chosen)).
  - destruct valid; [|by simplify_eq; apply search_stop]. rewrite <-Htry.
    apply IH; [lia|done| |].
    + intros cl [?| ->%list_elem_of_singleton]%elem_of_app; [by apply Hch|].
      exists node. split; [apply Hr; by left|done].
    + intros _. rewrite Hp1. apply list_lookup_insert_eq. lia.
  - intros s0 Hs0. apply IH; [lia|done|done|done].
  - intros j Hj. rewrite Hp1. apply list_lookup_insert_ne. lia.
  - done.
Qed.

Lemma search_needs_post needs index s :
  length (se_picked s) = (index + length needs)%nat →
  search_post index needs s (search_needs g occ request quarantine allowed index needs s).
Proof.
  revert index s. induction needs as [|need needs IH]; intros index s Hlen; cbn [search_needs].
  { destruct (check_topology _ _ _) as [s1 valid] eqn:Hct.
    apply check_topology_picked in Hct as [Hp Hv]. split; cbn; [by rewrite Hp|by rewrite Hp|].
    intros [= ->]. rewrite Hp. split; [|done]. rewrite drop_ge by (simpl in Hlen; lia). constructor. }
  destruct (candidates _ _ _ _) as [all|] eqn:Hall; [|by apply search_stop].
  cbv zeta. set (cands := List.filter _ all).
  destruct (bool_decide _); [by apply search_stop|].
  destruct (rank _ _ _) as [ranked|] eqn:Hrank; [|by apply search_stop].
  assert (∀ id, id ∈ ranked → candidate_ok g occ quarantine need id ∧ id ∈ allowed) as Hr.
  { intros id Hid. pose proof (rank_elem _ _ _ _ Hrank id Hid) as Hin. unfold cands in Hin.
    rewrite list_elem_of_In, filter_In, <-list_elem_of_In in Hin. destruct Hin as [Hin Hs].
    split; [by eapply candidates_ok|]. by apply bool_decide_eq_true in Hs. }
  assert (next_ok (S index) needs (search_needs g occ request quarantine allowed (S index) needs))
    as Hnext by (intros s0 Hs0; apply IH; lia).
  destruct (is_consumable_need need) eqn:Hc.
  - by apply search_consumable_post.
  - apply search_group_post; [done|done|done|done|by intros cl ?%elem_of_nil|].
    unfold need_count. simpl. lia.
Qed.
End bounded.

(** ** [select] *)

(** Claims confined to one machine: the machine node or nodes below it. *)
Definition on_machine (g : Graph) (claims : list Claim) : Prop :=
  ∃ m n, g_nodes g !! m = Some n ∧ node_kind n = Class.Machine
    ∧ ∀ cl, cl ∈ claims → claim_node cl = m ∨ claim_node cl ∈ descendants g m.

Record selected (g : Graph) (occ : Occupancy) (request : Request) (quarantine : gset N)
    (allocation : Allocation) (picked : list (list Claim)) : Prop := {
  sl_claims : alloc_claims allocation = mjoin picked;
  sl_revision : alloc_graph_revision allocation = g_revision g;
  sl_groups : Forall2 (group_sound g occ quarantine) (req_needs request) picked;
  sl_unique : NoDup (claim_node <$> alloc_claims allocation);
  sl_topology : topology_sound g request picked;
  sl_local : req_machine_local request = true → (1 < length (req_needs request))%nat →
    on_machine g (alloc_claims allocation);
  sl_together : req_machine_local request = true → ∀ need,
    req_needs request = [need] → is_consumable_need need = false →
    ∃ m, ∀ cl, cl ∈ alloc_claims allocation → machine_of g (claim_node cl) = Some m;
}.

Section select.
Context (g : Graph) (occ : Occupancy) (request : Request) (quarantine : gset N).
Context (Hwf : graph_wf g).

Lemma picked_on_machine machine (picked : list (list Claim)) n :
  let allowed : gset N := {[machine]} ∪ list_to_set (descendants g machine) in
  g_nodes g !! machine = Some n → node_kind n = Class.Machine →
  Forall2 (picked_sound g occ quarantine allowed) (req_needs request) picked →
  Forall2 (group_sound g occ quarantine) (req_needs request) picked ∧ on_machine g (mjoin picked).
Proof.
  intros allowed Hm Hk Hp. split; [by eapply Forall2_impl; [exact Hp|intros ?? []]|].
  exists machine, n. split_and!; [done|done|].
  intros cl (group & Hcl & Hg)%list_elem_of_join.
  apply list_elem_of_lookup in Hg as [i Hi].
  destruct (Forall2_lookup_r _ _ _ _ _ Hp Hi) as (need & _ & _ & Hin).
  specialize (Hin cl Hcl). set_solver.
Qed.

Lemma machine_selected machine n picked mode notes reasons :
  let allowed : gset N := {[machine]} ∪ list_to_set (descendants g machine) in
  g_nodes g !! machine = Some n → node_kind n = Class.Machine →
  (1 < length (req_needs request))%nat →
  Forall2 (picked_sound g occ quarantine allowed) (req_needs request) picked →
  topology_holds g picked request = true →
  selected g occ request quarantine
    (machine_allocation g request mode machine (mjoin picked) notes reasons) picked.
Proof.
  intros allowed Hm Hk Hlen Hp [Hu Ht]%topology_holds_sound.
  destruct (picked_on_machine machine picked n Hm Hk Hp) as [Hg Hon].
  split; cbn; try done. intros _ need Hneed. rewrite Hneed in Hlen. cbn in Hlen. lia.
Qed.

Lemma try_machine_sound mode machine n trace trace' allocation :
  g_nodes g !! machine = Some n → node_kind n = Class.Machine →
  (1 < length (req_needs request))%nat →
  try_machine g occ request mode quarantine machine trace = (trace', Ok (Some allocation)) →
  ∃ picked, selected g occ request quarantine allocation picked.
Proof.
  intros Hm Hk Hlen Hrun. unfold try_machine in Hrun. cbv zeta in Hrun.
  destruct (in_quarantine _ _ _); [done|].
  set (allowed := _ ∪ _) in Hrun. set (ctx := mkSelectCtx _ _ _ _ _) in Hrun.
  destruct (select_needs ctx _ _ _ _ _) as [t r] eqn:Hsel.
  destruct (match r with Ok (picked, notes) => _ | Err _ => None end)
    as [[picked notes]|] eqn:Hgreedy.
  - destruct r as [[picked' notes']|]; [|done].
    destruct (topology_holds g picked' request) eqn:Htop; [|done]. injection Hgreedy as -> ->.
    destruct (placement_reasons _ _ _ _ _ _) as [reasons|]; [|done]. cbn in Hrun. simplify_eq.
    exists picked. eapply (machine_selected machine n); [done..| |done].
    apply (select_needs_sound ctx) in Hsel as (new & -> & Hnew); [|done].
    eapply Forall2_impl; [exact Hnew|]. intros need group (Hs & Ha & _). split; [done|].
    intros cl Hcl. by eapply Ha.
  - destruct (bool_decide _); [done|].
    pose proof (search_needs_post g occ request quarantine allowed Hwf (req_needs request) 0
      (mkSearch t FALLBACK_SEARCH_BUDGET (replicate (length (req_needs request)) []))) as Hpost.
    destruct (search_needs _ _ _ _ _ _ _ _) as [s found].
    destruct found as [[]|]; [|done|done]. cbn in Hrun.
    destruct (selection_notes _ _ _ _ _) as [ns|]; [|done].
    destruct (placement_reasons _ _ _ _ _ _) as [reasons|]; [|done]. cbn in Hrun. simplify_eq.
    destruct Hpost as [_ _ Hfound]; [cbn; by rewrite length_replicate|].
    destruct (Hfound eq_refl) as [Hp Htop]. cbn in Hp. rewrite drop_0 in Hp.
    exists (se_picked s). by eapply (machine_selected machine n).
Qed.

Lemma try_machines_sound mode machines trace allocation :
  (∀ m, m ∈ machines → ∃ n, g_nodes g !! m = Some n ∧ node_kind n = Class.Machine) →
  (1 < length (req_needs request))%nat →
  try_machines g occ request mode quarantine machines trace = Ok allocation →
  ∃ picked, selected g occ request quarantine allocation picked.
Proof.
  intros Hms Hlen. revert trace. induction machines as [|m machines IH]; intros trace; [done|].
  cbn [try_machines]. destruct (try_machine _ _ _ _ _ _ _) as [t r] eqn:Htry.
  destruct r as [[found|]|]; cbn; [| |done].
  - intros [= <-]. destruct (Hms m) as (n & Hn & Hk); [by left|]. by eapply try_machine_sound.
  - apply IH. intros x Hx. apply Hms. by right.
Qed.
End select.

Lemma select_is_sound (g : Graph) (occ : Occupancy) (request : Request) (quarantine : gset N)
    (allocation : Allocation) :
  graph_wf g → select g occ request quarantine = Ok allocation →
  ∃ picked, selected g occ request quarantine allocation picked.
Proof.
  intros Hwf Hrun. unfold select in Hrun. destruct (malformed request); [done|]. cbv zeta in Hrun.
  destruct (req_machine_local request && _) eqn:Hml.
  - apply andb_prop in Hml as [_ Hlen%Nat.ltb_lt].
    eapply try_machines_sound; [done| |done|exact Hrun].
    intros m Hm. by apply (nodes_of_class_spec g _ _ Hwf) in Hm.
  - set (ctx := mkSelectCtx _ _ _ _ _) in Hrun.
    destruct (select_needs ctx _ _ _ _ _) as [t [[picked notes]|]] eqn:Hsel; [|done].
    cbn in Hrun. destruct (topology_holds g picked request) eqn:Htop; [|done]. cbn in Hrun.
    destruct (placement_reasons _ _ _ _ _ _) as [reasons|]; [|done]. cbn in Hrun. simplify_eq.
    apply topology_holds_sound in Htop as [Hu Ht].
    apply (select_needs_sound ctx) in Hsel as (new & Heq & Hnew); [|done]. cbn in Heq. subst new.
    exists picked. split; cbn; try done.
    + eapply Forall2_impl; [exact Hnew|]. by intros need group (Hs & _).
    + intros Hl Hlen. rewrite Hl in Hml. apply Nat.ltb_lt in Hlen. by rewrite Hlen in Hml.
    + intros Hl need Hneed Hc. rewrite Hneed in Hnew.
      destruct (Forall2_cons_inv_l _ _ _ _ Hnew) as (group & rest & (_ & _ & Hm) & Hrest & ->).
      apply Forall2_nil_inv_l in Hrest as ->. cbn. rewrite app_nil_r. by apply Hm.
Qed.

(** ** What placement promises to its clients

    Admission, preemption and the lease authority only rely on this law of
    the placement function they are given. *)

Class Placement (place : Graph → Occupancy → Request → gset N → result Error Allocation) : Prop :=
  placement_meets (g : Graph) (occ : Occupancy) (request : Request) (quarantine : gset N)
    (allocation : Allocation) :
    graph_wf g → place g occ request quarantine = Ok allocation →
    ∃ picked, selected g occ request quarantine allocation picked.

#[export] Instance select_placement : Placement select.
Proof. exact select_is_sound. Qed.

(** C11. Placement is sound on every path (greedy, whole-machine greedy and
    bounded backtracking search): an allocation that [select] returns gives
    every need of the request its own group of claims, of the need's class,
    matching its attribute filters, outside every blocked subtree, with an
    installed contract and enough free capacity (one claim with the wanted
    quantity for a consumable need, the asked count of single units
    otherwise); no node is claimed twice; every topology constraint holds
    between every pair of claims it relates; a machine-local request with
    several needs is confined to one machine's subtree, and the units of a
    single machine-local need share one machine. *)
Theorem select_sound (g : Graph) (occ : Occupancy) (request : Request) (quarantine : gset N)
    (allocation : Allocation) :
  graph_wf g → select g occ request quarantine = Ok allocation →
  ∃ picked, selected g occ request quarantine allocation picked.
Proof. apply select_is_sound. Qed.
