(* ===== verification/SearchFacts.v ===== *)
(** * Placement: completeness of the bounded search

    The greedy selector may miss a placement; the backtracking search of one
    machine may only miss it by running out of budget.  Backtracking undoes
    what it wrote, pruning on partial groups is safe because the topology
    check is monotone in the claims, and considering nodes in ranked order is
    enough because the check does not depend on the order within a group. *)

From S2P Require Import Prelude.
From S2P Require Import Identifier.
From S2P Require Import Types.
From S2P Require Import Graph.
From S2P Require Import GraphFacts.
From S2P Require Import Occupancy.
From S2P Require Import Select.
From S2P Require Import SelectFacts.

(** ** The topology check is monotone *)

Lemma head_omap_None {A B} (f : A → option B) (l : list A) :
  (∀ x, x ∈ l → f x = None) → head (omap f l) = None.
Proof.
  induction l as [|x l IH]; intros Hf; [done|]. cbn.
  rewrite (Hf x) by (by left). apply IH. intros y Hy. apply Hf. by right.
Qed.

Lemma topology_sound_None g picked request :
  topology_sound g request picked → topology_failure g picked request = None.
Proof.
  intros Hs. apply head_omap_None. intros [index c] Hc.
  apply elem_of_lookup_imap in Hc as (i & c' & [= -> ->] & Hc).
  unfold constraint_failure.
  destruct (picked !! tc_left c') as [lg|] eqn:Hl; [|done].
  destruct (picked !! tc_right c') as [rg|] eqn:Hr; [|done].
  apply head_omap_None. intros [l r] Hlr.
  apply list_elem_of_bind in Hlr as (l' & Hlr & Hl').
  apply list_elem_of_bind in Hlr as (r' & [= -> ->]%list_elem_of_singleton & Hr').
  rewrite (Hs c' lg rg l' r'); try done. by eapply list_elem_of_lookup_2.
Qed.

Lemma join_submseteq {A} (p q : list (list A)) :
  Forall2 (λ a b, a ⊆+ b) p q → mjoin p ⊆+ mjoin q.
Proof.
  induction 1 as [|a b p q Hab _ IH]; [done|].
  change (a ++ mjoin p ⊆+ b ++ mjoin q). by apply submseteq_app.
Qed.

Lemma submseteq_NoDup {A} (p q : list A) : p ⊆+ q → NoDup q → NoDup p.
Proof.
  intros [k Hk]%submseteq_Permutation Hq. rewrite Hk in Hq. by apply NoDup_app in Hq as [? _].
Qed.

(** Fewer claims per group satisfy the check when more do. *)
Lemma topology_holds_mono g request (p q : list (list Claim)) :
  Forall2 (λ a b, a ⊆+ b) p q → topology_holds g q request = true →
  topology_holds g p request = true.
Proof.
  intros Hpq [Hu Ht]%topology_holds_sound. unfold topology_holds, claims_are_unique.
  apply andb_true_intro. split.
  - apply bool_decide_eq_true. eapply submseteq_NoDup; [|exact Hu].
    by apply fmap_submseteq, join_submseteq.
  - rewrite topology_sound_None; [done|]. intros c lg rg l r Hc Hl Hr Hlin Hrin.
    destruct (Forall2_lookup_l _ _ _ _ _ Hpq Hl) as (lg' & Hl' & Hsl).
    destruct (Forall2_lookup_l _ _ _ _ _ Hpq Hr) as (rg' & Hr' & Hsr).
    apply (Ht c lg' rg' l r); [done|done|done|..];
      by eapply elem_of_submseteq.
Qed.

(** ** Candidates and ranking are complete *)

(** A loop that keeps some elements keeps the ones it must. *)
Lemma try_fold_keeps {E A} (f : list A → A → result E (list A)) (l out res : list A) x :
  (∀ out y out', f out y = Ok out' → out' = out ∨ out' = out ++ [y]) →
  (∀ out out', f out x = Ok out' → out' = out ++ [x]) →
  try_fold f out l = Ok res → x ∈ out ∨ x ∈ l → x ∈ res.
Proof.
  intros Hstep Hx. revert out. induction l as [|y l IH]; intros out Hrun Hin; cbn in Hrun.
  { simplify_eq. destruct Hin as [?|?%elem_of_nil]; done. }
  apply bind_Ok_inv in Hrun as (out' & Hs & Hrun). apply (IH out' Hrun).
  destruct Hin as [Hin|[->|Hin]%elem_of_cons]; [left|left|by right].
  - destruct (Hstep _ _ _ Hs) as [->| ->]; [done|]. apply elem_of_app. by left.
  - rewrite (Hx _ _ Hs). apply elem_of_app. right. by left.
Qed.

Lemma candidates_complete g occ need quarantine cands id :
  graph_wf g → candidates g occ need quarantine = Ok cands →
  candidate_ok g occ quarantine need id → id ∈ cands.
Proof.
  intros Hwf Hrun Hok. destruct Hok as [(n & Hn & Hk & Hf) Hq [b Hb] Hc]. cbn in *.
  assert (id ∈ nodes_of_class g (need_kind need)) as Hin by (apply nodes_of_class_spec; eauto).
  unfold candidates in Hrun. destruct (bool_decide _); [done|]. cbv zeta in Hrun.
  eapply try_fold_keeps; [| |exact Hrun|by right].
  - intros out y out' Hs. apply bind_Ok_inv in Hs as (m & _ & Hs).
    clear -Hs. destruct (negb _); [simplify_eq; by left|]. destruct (in_quarantine _ _ _); [simplify_eq; by left|].
    destruct (filters_reject _ _); [simplify_eq; by left|].
    apply bind_Ok_inv in Hs as ([] & _ & Hs); simplify_eq; [by right|by left].
  - intros out out' Hs. unfold graph_node in Hs. rewrite Hn in Hs. cbn [ok_or mbind result_bind] in Hs.
    rewrite Hb, (wf_keys _ Hwf _ _ Hn), Hq, Hf, Hc in Hs. cbn in Hs. by simplify_eq.
Qed.

Lemma rank_perm ctx chosen cands ranked : rank ctx chosen cands = Ok ranked → ranked ≡ₚ cands.
Proof.
  unfold rank. intros Hrun. apply bind_Ok_inv in Hrun as (scored & Hmap & Hrun). simplify_eq.
  rewrite sort_by_perm. apply try_map_Forall2 in Hmap.
  induction Hmap as [|x y l k Hxy _ IH]; [done|]. rewrite fmap_cons.
  apply bind_Ok_inv in Hxy as (s & _ & Hxy). simplify_eq. cbn. by rewrite IH.
Qed.

(** ** The search *)

Section complete.
Context (g : Graph) (occ : Occupancy) (request : Request) (quarantine allowed : gset N).
Context (Hwf : graph_wf g).

Abbreviation sound := (picked_sound g occ quarantine allowed) (only parsing).

(** A failed search undid its writes, did not gain budget, and if it still
    has budget then there was nothing to find. *)
Record search_failed (s s' : Search) (hopeless : Prop) : Prop := {
  sf_picked : se_picked s' = se_picked s;
  sf_budget : se_budget s' ≤ se_budget s;
  sf_hopeless : 0 < se_budget s' → hopeless;
}.

(** No choice for the needs extends the groups chosen before them. *)
Definition no_extension (before : list (list Claim)) (needs : list Need) : Prop :=
  ∀ rest, Forall2 sound needs rest → topology_holds g (before ++ rest) request = false.

(** The groups of the needs not reached yet. *)
Definition unset {A} (needs : list A) : list (list Claim) := replicate (length needs) [].

Definition next_complete (before : list (list Claim)) (needs : list Need)
    (next : Search → Search * result Error bool) : Prop :=
  ∀ s s', se_picked s = before ++ unset needs → next s = (s', Ok false) →
    search_failed s s' (no_extension before needs).

Lemma search_failed_weaken s s0 s' (P Q : Prop) :
  se_picked s0 = se_picked s → se_budget s0 ≤ se_budget s → (P → Q) →
  search_failed s0 s' P → search_failed s s' Q.
Proof. intros Hp Hb HPQ [Hp' Hb' Hh]. split; [congruence|lia|auto]. Qed.

Lemma with_picked_at before (group group' : list Claim) rest s :
  se_picked s = before ++ group :: rest →
  se_picked (with_picked (length before) group' s) = before ++ group' :: rest.
Proof. intros Hs. cbn. by rewrite Hs, <-(Nat.add_0_r (length before)), insert_app_r. Qed.

Lemma unset_submseteq {A} (needs : list A) (rest : list (list Claim)) :
  length rest = length needs → Forall2 (λ a b, a ⊆+ b) (unset needs) rest.
Proof.
  unfold unset. intros <-. induction rest; constructor; [apply submseteq_nil_l|done].
Qed.

(** Pruning is safe: a partial choice that violates the topology has no
    completion. *)
Lemma pruned (before : list (list Claim)) (group more : list Claim) needs rest :
  topology_holds g (before ++ group :: unset needs) request = false →
  Forall2 sound needs rest →
  topology_holds g (before ++ (group ++ more) :: rest) request = false.
Proof.
  intros Hno Hrest. apply not_true_iff_false. intros Hyes.
  rewrite (topology_holds_mono g request _ _) with (2 := Hyes) in Hno; [done|].
  apply Forall2_app; [apply Forall_Forall2_diag, Forall_true; done|].
  constructor; [apply submseteq_inserts_r; done|].
  apply unset_submseteq. by apply Forall2_length in Hrest.
Qed.
Definition unit_claim (node : NodeId) : Claim := mkClaim node (qty Dim.Count 1).

(** The completions of a partly chosen group by nodes of [ranked], in order. *)
Definition no_completion (before : list (list Claim)) (chosen : list Claim) (count : u64)
    (ranked : list NodeId) (needs : list Need) : Prop :=
  ∀ more rest, more `sublist_of` (unit_claim <$> ranked) →
    N.of_nat (length (chosen ++ more)) = count → Forall2 sound needs rest →
    topology_holds g (before ++ (chosen ++ more) :: rest) request = false.

Lemma no_completion_cons before chosen count node ranked needs :
  no_completion before (chosen ++ [unit_claim node]) count ranked needs →
  no_completion before chosen count ranked needs →
  no_completion before chosen count (node :: ranked) needs.
Proof.
  intros Htake Hskip more rest Hm Hlen Hrest. rewrite fmap_cons in Hm.
  apply sublist_cons_r in Hm as [Hm|(more' & -> & Hm)]; [by apply Hskip|].
  specialize (Htake more' rest Hm). rewrite <-!(assoc_L (++)) in Htake. by apply Htake.
Qed.

(** One node of the loop: [try] is what happens with the node taken, [k] the
    rest of the loop. *)
Lemma attempt_failed before (chosen group : list Claim) rest s s1 s2 s' r
    (k : Search → Search * result Error bool) (P Q : Prop) :
  se_picked s = before ++ chosen :: rest →
  se_picked s1 = before ++ group :: rest → se_budget s1 ≤ se_budget s →
  (r = Ok false → search_failed s1 s2 P) →
  (∀ s0, se_picked s0 = before ++ chosen :: rest → k s0 = (s', Ok false) →
     search_failed s0 s' Q) →
  (match r with Ok false => k (with_picked (length before) chosen s2) | _ => (s2, r) end)
  = (s', Ok false) →
  search_failed s s' (P ∧ Q).
Proof.
  intros Hs Hs1 Hb Htry Hk Hrun. destruct r as [[]|e]; try discriminate.
  destruct (Htry eq_refl) as [Hp2 Hb2 HP].
  assert (se_picked (with_picked (length before) chosen s2) = before ++ chosen :: rest) as Hw.
  { apply (with_picked_at _ group). congruence. }
  destruct (Hk _ Hw Hrun) as [Hp' Hb' HQ]. cbn in Hb'.
  split; [congruence|lia|]. intros Hpos. split; [apply HP; lia|by apply HQ].
Qed.

(** Writing a group and checking it. *)
Lemma tried before (chosen group : list Claim) rest s b s1 valid :
  se_picked s = before ++ chosen :: rest → consume (se_budget s) = Some b →
  check_topology g request (with_picked (length before) group (with_budget b s)) = (s1, valid) →
  se_picked s1 = before ++ group :: rest ∧ se_budget s1 ≤ se_budget s
  ∧ valid = topology_holds g (before ++ group :: rest) request.
Proof.
  intros Hs Hc Hct. pose proof (check_topology_picked _ _ _ _ _ Hct) as [Hp Hv].
  pose proof (with_picked_at before chosen group rest (with_budget b s) Hs) as Hw.
  rewrite Hw in Hp, Hv. split_and!; [done| |done].
  unfold check_topology in Hct. destruct (topology_holds_traced _ _ _ _). injection Hct as <- _.
  unfold consume in Hc. destruct (_ =? _); [done|]. injection Hc as <-. cbn. lia.
Qed.

Lemma out_of_budget s P : consume (se_budget s) = None → search_failed s s P.
Proof.
  unfold consume. destruct (N.eqb_spec (se_budget s) 0); [|done]. split; [done|done|lia].
Qed.

Lemma search_group_complete before need needs next ranked chosen s s' :
  (∀ group, next_complete (before ++ [group]) needs next) →
  (∀ id, id ∈ ranked → can_cover occ g (unit_claim id) = Ok true) →
  se_picked s = before ++ chosen :: unset needs →
  search_group g occ request (length before) (need_count need) next ranked chosen s
  = (s', Ok false) →
  search_failed s s' (no_completion before chosen (need_count need) ranked needs).
Proof.
  intros Hnext. revert chosen s s'.
  induction ranked as [|node ranked IH]; intros chosen s s' Hcov Hs Hrun;
    cbn [search_group] in Hrun;
    destruct (N.eqb_spec (N.of_nat (length chosen)) (need_count need)) as [Hn|Hn].
  1,3: apply Hnext with (group := chosen) in Hrun; [|by rewrite <-(assoc_L (++))];
    apply (search_failed_weaken s s) with (4 := Hrun); [done|done|];
    intros Hno more rest Hm Hlen Hrest; rewrite length_app in Hlen;
    (destruct more; [|cbn in Hlen; lia]); rewrite app_nil_r, cons_middle, (assoc_L (++));
    by apply Hno.
  - injection Hrun as <-. split; [done|done|]. intros _ more rest Hm Hlen _.
    apply sublist_nil_r in Hm as ->. by rewrite app_nil_r in Hlen.
  - destruct (consume (se_budget s)) as [b|] eqn:Hcons.
    2: { injection Hrun as <-. by apply out_of_budget. }
    change (mkClaim node (qty Dim.Count 1)) with (unit_claim node) in Hrun.
    rewrite (Hcov node) in Hrun by (by left). cbv zeta in Hrun.
    set (group := chosen ++ [unit_claim node]) in *.
    destruct (check_topology g request (with_picked (length before) group (with_budget b s)))
      as [s1 valid] eqn:Hct.
    destruct (tried _ _ _ _ _ _ _ _ Hs Hcons Hct) as (Hs1 & Hb1 & Hv).
    destruct (if valid then _ else _) as [s2 r] eqn:Htry.
    assert (∀ id, id ∈ ranked → can_cover occ g (unit_claim id) = Ok true) as Hcov'
      by (intros id Hid; apply Hcov; by right).
    eapply search_failed_weaken; [done|done| |
      eapply (attempt_failed before chosen group (unset needs) s s1 s2 s' r _
        (no_completion before group (need_count need) ranked needs)
        (no_completion before chosen (need_count need) ranked needs) Hs Hs1 Hb1 _ _ Hrun)].
    { intros [??]. by apply no_completion_cons. }
    Unshelve.
    + intros ->. destruct valid.
      * by apply IH in Htry.
      * injection Htry as <-. split; [done|done|]. intros _ more rest _ _ Hrest.
        by eapply pruned.
    + intros s0 Hs0 Hk. by apply IH in Hk.
Qed.

Definition no_single (before : list (list Claim)) (wanted : Quantity) (ranked : list NodeId)
    (needs : list Need) : Prop :=
  ∀ node rest, node ∈ ranked → Forall2 sound needs rest →
    topology_holds g (before ++ [mkClaim node wanted] :: rest) request = false.

Lemma search_consumable_complete before wanted needs next ranked s s' :
  (∀ group, next_complete (before ++ [group]) needs next) →
  (∀ id, id ∈ ranked → can_cover occ g (mkClaim id wanted) = Ok true) →
  se_picked s = before ++ [] :: unset needs →
  search_consumable g occ request (length before) wanted next ranked s = (s', Ok false) →
  search_failed s s' (no_single before wanted ranked needs).
Proof.
  intros Hnext. revert s s'.
  induction ranked as [|node ranked IH]; intros s s' Hcov Hs Hrun; cbn [search_consumable] in Hrun.
  { injection Hrun as <-. split; [done|done|]. by intros _ node rest ?%elem_of_nil. }
  destruct (consume (se_budget s)) as [b|] eqn:Hcons;
    [|injection Hrun as <-; by apply out_of_budget].
  rewrite (Hcov node) in Hrun by (by left). cbv zeta in Hrun.
  destruct (check_topology g request _) as [s1 valid] eqn:Hct.
  destruct (tried _ _ _ _ _ _ _ _ Hs Hcons Hct) as (Hs1 & Hb1 & Hv).
  destruct (if valid then _ else _) as [s2 r] eqn:Htry.
  eapply search_failed_weaken; [done|done| |
    eapply (attempt_failed before [] [mkClaim node wanted] (unset needs) s s1 s2 s' r _
      (no_extension (before ++ [[mkClaim node wanted]]) needs)
      (no_single before wanted ranked needs) Hs Hs1 Hb1 _ _ Hrun)].
  { intros [Hthis Hothers] id rest [->|Hid]%elem_of_cons Hrest; [|by apply Hothers].
    rewrite cons_middle, (assoc_L (++)). by apply Hthis. }
  Unshelve.
  - intros ->. destruct valid.
    + apply (Hnext [mkClaim node wanted]) in Htry; [done|]. by rewrite <-(assoc_L (++)).
    + injection Htry as <-. split; [done|done|]. intros _ rest Hrest.
      rewrite <-(assoc_L (++)). change ([[mkClaim node wanted]] ++ rest)
        with (([mkClaim node wanted] ++ []) :: rest). by eapply pruned.
  - intros s0 Hs0 Hk. apply IH in Hk; [done|intros id Hid; apply Hcov; by right|done].
Qed.

(** A group that meets its need can be reordered along the ranked nodes. *)
Lemma group_along need group ranked :
  is_consumable_need need = false → sound need group → NoDup (claim_node <$> group) →
  (∀ cl, cl ∈ group → claim_node cl ∈ ranked) →
  ∃ group', group ≡ₚ group' ∧ group' `sublist_of` (unit_claim <$> ranked).
Proof.
  intros Hc [[_ Hq] _] Hnd Hin. rewrite Hc in Hq. destruct Hq as [_ Hunit].
  apply submseteq_sublist_r, NoDup_submseteq; [by eapply NoDup_fmap_1|].
  intros cl Hcl. apply list_elem_of_fmap. exists (claim_node cl). split; [|by apply Hin].
  unfold unit_claim. rewrite <-(Hunit cl Hcl). by destruct cl.
Qed.

Lemma sound_candidate need group all cl :
  candidates g occ need quarantine = Ok all → sound need group → cl ∈ group →
  claim_node cl ∈ List.filter (λ node, bool_decide (node ∈ allowed)) all.
Proof.
  intros Hall [Hg Ha] Hcl. destruct (group_sound_unit _ _ _ _ _ _ Hg Hcl) as [Hs Hq].
  rewrite list_elem_of_In, filter_In, <-list_elem_of_In. split.
  - eapply candidates_complete; [exact Hwf|exact Hall|]. unfold candidate_ok. rewrite <-Hq.
    by destruct cl.
  - by apply bool_decide_eq_true, Ha.
Qed.

Lemma sound_nonempty need group : sound need group → ∃ cl, cl ∈ group.
Proof.
  intros [[_ Hq] _]. destruct (is_consumable_need need).
  - destruct Hq as [node ->]. eexists. by left.
  - destruct Hq as [Hlen _]. destruct group as [|cl group]; [|exists cl; by left].
    unfold need_count in Hlen. cbn in Hlen. lia.
Qed.

Lemma extension_group before group rest :
  topology_holds g (before ++ group :: rest) request = true → NoDup (claim_node <$> group).
Proof.
  intros [Hu _]%topology_holds_sound. rewrite join_app in Hu.
  change (mjoin (group :: rest)) with (group ++ mjoin rest) in Hu. rewrite !fmap_app in Hu.
  apply NoDup_app in Hu as (_ & _ & Hu). by apply NoDup_app in Hu as [? _].
Qed.

(** The loops consider enough: what they exclude covers every extension. *)
Lemma units_no_extension before need needs ranked :
  is_consumable_need need = false →
  (∀ group cl, sound need group → cl ∈ group → claim_node cl ∈ ranked) →
  no_completion before [] (need_count need) ranked needs → no_extension before (need :: needs).
Proof.
  intros Hc Hin Hno rest' Hrest'.
  apply Forall2_cons_inv_l in Hrest' as (group & rest & Hg & Hrest & ->).
  apply not_true_iff_false. intros Hyes.
  destruct (group_along need group ranked Hc Hg (extension_group _ _ _ Hyes) (λ cl, Hin group cl Hg))
    as (group' & Hperm & Hsub).
  assert (N.of_nat (length group') = need_count need) as Hlen.
  { destruct Hg as [[_ Hq] _]. rewrite Hc in Hq. destruct Hq as [Hq _]. by rewrite <-Hperm. }
  assert (topology_holds g (before ++ group' :: rest) request = true) as Hyes'.
  { eapply topology_holds_mono; [|exact Hyes]. apply Forall2_app.
    - by apply Forall_Forall2_diag, Forall_true.
    - constructor; [by apply Permutation_submseteq|]. by apply Forall_Forall2_diag, Forall_true. }
  specialize (Hno group' rest Hsub Hlen Hrest). cbn in Hno. congruence.
Qed.

Lemma single_no_extension before need needs ranked :
  is_consumable_need need = true →
  (∀ group cl, sound need group → cl ∈ group → claim_node cl ∈ ranked) →
  no_single before (consumable_quantity need) ranked needs → no_extension before (need :: needs).
Proof.
  intros Hc Hin Hno rest' Hrest'.
  apply Forall2_cons_inv_l in Hrest' as (group & rest & Hg & Hrest & ->).
  pose proof Hg as [[_ Hq] _]. rewrite Hc in Hq. destruct Hq as [node ->].
  apply Hno; [|done]. apply (Hin _ (mkClaim node (consumable_quantity need)) Hg). by left.
Qed.

(** After the last need only the check is left. *)
Lemma last_check_complete before s s' :
  se_picked s = before ++ unset (@nil Need) →
  (let '(s, holds) := check_topology g request s in (s, Ok holds)) = (s', Ok (E := Error) false) →
  search_failed s s' (no_extension before []).
Proof.
  intros Hs Hrun. destruct (check_topology g request s) as [s1 holds] eqn:Hct.
  pose proof (check_topology_picked _ _ _ _ _ Hct) as [Hp Hv]. injection Hrun as <- ->.
  split; [done| |].
  - unfold check_topology in Hct. destruct (topology_holds_traced _ _ _ _). by simplify_eq.
  - intros _ rest ->%Forall2_nil_inv_l. by rewrite Hv, Hs.
Qed.

Lemma search_needs_complete needs before s s' :
  se_picked s = before ++ unset needs →
  search_needs g occ request quarantine allowed (length before) needs s = (s', Ok false) →
  search_failed s s' (no_extension before needs).
Proof.
  revert before s s'. induction needs as [|need needs IH]; intros before s s' Hs Hrun;
    cbn [search_needs] in Hrun.
  { by apply last_check_complete. }
  destruct (candidates g occ need quarantine) as [all|] eqn:Hall; [|done]. cbv zeta in Hrun.
  set (cands := List.filter _ all) in Hrun.
  assert (∀ group cl, sound need group → cl ∈ group → claim_node cl ∈ cands) as Hin
    by (intros; by eapply sound_candidate).
  destruct (bool_decide (cands = [])) eqn:Hempty.
  { injection Hrun as <-. apply bool_decide_eq_true in Hempty. split; [done|done|].
    intros _ rest Hrest. apply Forall2_cons_inv_l in Hrest as (group & _ & Hg & _ & _).
    destruct (sound_nonempty _ _ Hg) as [cl Hcl]. specialize (Hin _ _ Hg Hcl).
    rewrite Hempty in Hin. by apply elem_of_nil in Hin. }
  destruct (rank _ _ _) as [ranked|] eqn:Hrank; [|done]. pose proof (rank_perm _ _ _ _ Hrank) as Hperm.
  assert (∀ group cl, sound need group → cl ∈ group → claim_node cl ∈ ranked) as Hin'
    by (intros; rewrite Hperm; eauto).
  assert (∀ id, id ∈ ranked → can_cover occ g (mkClaim id (need_unit need)) = Ok true) as Hcov.
  { intros id Hid. rewrite Hperm in Hid. unfold cands in Hid.
    rewrite list_elem_of_In, filter_In, <-list_elem_of_In in Hid. destruct Hid as [Hid _].
    apply (cs_cover _ _ _ _ _ (candidates_ok _ _ _ _ _ Hwf Hall id Hid)). }
  assert (∀ group, next_complete (before ++ [group]) needs
    (search_needs g occ request quarantine allowed (S (length before)) needs)) as Hnext.
  { intros group s0 s0' Hs0 Hr. apply (IH (before ++ [group])); [done|].
    by rewrite length_app, Nat.add_1_r. }
  unfold need_unit in Hcov. destruct (is_consumable_need need) eqn:Hc.
  - pose proof (search_consumable_complete before _ needs _ ranked s s' Hnext Hcov Hs Hrun) as Hf.
    eapply search_failed_weaken; [done|done| |exact Hf]. by apply single_no_extension.
  - pose proof (search_group_complete before need needs _ ranked [] s s' Hnext Hcov Hs Hrun) as Hf.
    eapply search_failed_weaken; [done|done| |exact Hf]. by apply units_no_extension.
Qed.
End complete.

(** C39. The bounded search of a machine is complete within its budget: when it
    gives up with budget left, there is no choice of groups at all, within the
    machine's nodes, that meets every need of the request (matching, unblocked
    nodes with contracts and free capacity, in the asked number) and the
    topology constraints without claiming a node twice. *)
Theorem search_complete (g : Graph) (occ : Occupancy) (request : Request)
    (quarantine allowed : gset N) (trace : TopologyTrace) (s : Search) :
  graph_wf g →
  search_needs g occ request quarantine allowed 0 (req_needs request)
    (mkSearch trace FALLBACK_SEARCH_BUDGET (replicate (length (req_needs request)) []))
  = (s, Ok false) →
  0 < se_budget s →
  ∀ picked, Forall2 (picked_sound g occ quarantine allowed) (req_needs request) picked →
    topology_holds g picked request = false.
Proof.
  intros Hwf Hrun Hb.
  exact (sf_hopeless _ _ _ (search_needs_complete g occ request quarantine allowed Hwf
    (req_needs request) [] (mkSearch trace FALLBACK_SEARCH_BUDGET _) s eq_refl Hrun) Hb).
Qed.
