(* ===== verification/Admit.v ===== *)
(** * Admission (crates/kernel/src/admit.rs): definitions

    Which queued request starts next: hard per-owner ceilings, priority and
    optional weighted dominant-share ordering, plain first-fit admission and
    EASY-style backfill against the shadow of blocked heads.  The source
    sorts indices into the queue and only ever reads [queue[index]]; the
    model sorts the entries themselves, with the same stable sort.  [u128]
    shares are [N] ([share_fits] in Ceilings shows they stay in range). *)

From S2P Require Import Prelude.
From S2P Require Import Identifier.
From S2P Require Import Types.
From S2P Require Import Graph.
From S2P Require Import Occupancy.
From S2P Require Import Select.

Record Admission := mkAdmission {
  adm_request : Request;
  adm_owner : OwnerId;
  adm_allocation : Allocation;
}.

Inductive AdmissionOutcome :=
| NotEvaluated
| OverQuota
| PlacementRefused (explanation : string)
| Blocked (shadow : option u64)
| BackfillUnsafe (protected_heads : nat)
| Selected (backfilled : bool).

Record AdmissionCandidateTrace := mkCandidateTrace {
  ct_rank : nat;
  ct_request : RequestId;
  ct_owner : OwnerId;
  ct_priority : N;
  ct_submitted_at : u64;
  ct_owner_weight : option N;
  ct_weighted_dominant_share : option N;
  ct_outcome : AdmissionOutcome;
}.

Abbreviation AdmissionTrace := (list AdmissionCandidateTrace) (only parsing).

Definition with_outcome (outcome : AdmissionOutcome) (c : AdmissionCandidateTrace)
    : AdmissionCandidateTrace :=
  mkCandidateTrace (ct_rank c) (ct_request c) (ct_owner c) (ct_priority c)
    (ct_submitted_at c) (ct_owner_weight c) (ct_weighted_dominant_share c) outcome.

(** [trace.candidates[rank].outcome = outcome]; the traces have one entry per
    rank. *)
Definition set_outcome (rank : nat) (outcome : AdmissionOutcome) (trace : AdmissionTrace)
    : AdmissionTrace := alter (with_outcome outcome) rank trace.

Abbreviation ClassUsage := (gmap string (gmap string N)) (only parsing).

Record AdmissionPolicy := mkPolicy {
  pol_owner_ceiling : ClassUsage;
  pol_fair_share : bool;
  pol_owner_weights : gmap N N;
}.

(** [AdmissionPolicy { owner_ceiling, ..default() }] *)
Definition ceiling_policy (owner_ceiling : ClassUsage) : AdmissionPolicy :=
  mkPolicy owner_ceiling false ∅.

Abbreviation RequestExclusions := (gmap N (gset N)) (only parsing).

(** ** Usage and capacity *)

(** [quantity_add_assign(usage.entry(kind).or_default(), quantity)] *)
Definition usage_add (usage : ClassUsage) (kind : ResourceClass) (quantity : Quantity)
    : ClassUsage :=
  <[kind := quantity_add_assign (default ∅ (usage !! kind)) quantity]> usage.

Definition kind_of (graph : Graph) (node : NodeId) : ResourceClass :=
  match graph_node graph node with Some n => node_kind n | None => Class.Machine end.

Definition charge_lease (graph : Graph) (usage : ClassUsage) (claims : list Claim) : ClassUsage :=
  foldl (λ usage '(node, quantity), usage_add usage (kind_of graph node) quantity)
    usage (bt_iter (claims_by_node claims)).

Definition owner_usage (graph : Graph) (leases : gmap N Lease) (open_bindings : gset N)
    : gmap N ClassUsage :=
  foldl (λ (usage : gmap N ClassUsage) lease,
    match lease_parent lease with
    | Some _ => usage
    | None =>
        if negb (lease_occupies lease (bool_decide (lease_id lease ∈ open_bindings)))
        then usage
        else
          <[lease_owner lease :=
              charge_lease graph (default ∅ (usage !! lease_owner lease))
                (alloc_claims (lease_allocation lease))]> usage
    end) ∅ (bt_values leases).

Definition claimable_capacity (graph : Graph) : ClassUsage :=
  foldl (λ (capacity : ClassUsage) node,
    foldl (λ (capacity : ClassUsage) '(dimension, amount),
      if (amount =? 0)
         || bool_decide (claim_binding graph (node_id node) dimension = None)
      then capacity
      else
        let entry := default ∅ (capacity !! node_kind node) in
        <[node_kind node :=
            <[dimension := sat_add (quantity_get entry dimension) amount]> entry]> capacity)
      capacity (bt_iter (node_capacity node)))
    ∅ (graph_nodes graph).

Definition SCALE : N := 1000000000000000000.

Definition dimension_share (available used weight : N) : N :=
  used * SCALE / (available * weight).

Definition weighted_dominant_share (usage capacity : ClassUsage) (weight : N) : N :=
  let weight := N.max weight 1 in
  foldl (λ dominant '(kind, quantities),
    match capacity !! kind with
    | None => dominant
    | Some total =>
        foldl (λ dominant '(dimension, used),
          let available := quantity_get total dimension in
          if available =? 0 then dominant
          else N.max dominant (dimension_share available used weight))
          dominant (bt_iter quantities)
    end) 0 (bt_iter usage).

Definition owner_weight (policy : AdmissionPolicy) (owner : OwnerId) : N :=
  default 1 (pol_owner_weights policy !! owner).

(** ** Queue order *)

(** [Ordering::then] *)
Definition cmp_then (first second : comparison) : comparison :=
  match first with Eq => second | _ => first end.

Definition cmp_leb (c : comparison) : bool := match c with Gt => false | _ => true end.

Definition queue_cmp (x y : Queued) : comparison :=
  cmp_then (req_priority (q_request y) ?= req_priority (q_request x))
    (cmp_then (q_submitted_at x ?= q_submitted_at y)
       (req_id (q_request x) ?= req_id (q_request y))).

Definition order_queue (queue : list Queued) : list Queued :=
  sort_by (λ x y, cmp_leb (queue_cmp x y)) queue.

Definition share_of (usage : gmap N ClassUsage) (capacity : ClassUsage)
    (policy : AdmissionPolicy) (owner : OwnerId) : N :=
  weighted_dominant_share (default ∅ (usage !! owner)) capacity (owner_weight policy owner).

Definition fair_cmp (score : OwnerId → N) (x y : Queued) : comparison :=
  cmp_then (req_priority (q_request y) ?= req_priority (q_request x))
    (cmp_then (score (q_owner x) ?= score (q_owner y))
       (cmp_then (q_submitted_at x ?= q_submitted_at y)
          (req_id (q_request x) ?= req_id (q_request y)))).

Definition order_queue_with_policy (queue : list Queued) (usage : gmap N ClassUsage)
    (capacity : ClassUsage) (policy : AdmissionPolicy) : list Queued :=
  if negb (pol_fair_share policy) then order_queue queue
  else sort_by (λ x y, cmp_leb (fair_cmp (share_of usage capacity policy) x y)) queue.

Definition candidate_trace (usage : gmap N ClassUsage) (capacity : ClassUsage)
    (policy : AdmissionPolicy) (rank : nat) (queued : Queued) : AdmissionCandidateTrace :=
  let weight :=
    if pol_fair_share policy then Some (N.max (owner_weight policy (q_owner queued)) 1) else None in
  let share :=
    (λ w, weighted_dominant_share (default ∅ (usage !! q_owner queued)) capacity w) <$> weight in
  mkCandidateTrace rank (req_id (q_request queued)) (q_owner queued)
    (req_priority (q_request queued)) (q_submitted_at queued) weight share NotEvaluated.

Definition build_admission_trace (order : list Queued) (usage : gmap N ClassUsage)
    (capacity : ClassUsage) (policy : AdmissionPolicy) : AdmissionTrace :=
  imap (candidate_trace usage capacity policy) order.

(** ** Ceilings *)

Definition need_charge (need : Need) : Quantity :=
  if bool_decide (need_kind need = Class.Memory)
  then qty Dim.Bytes (quantity_get (need_quantity need) Dim.Bytes)
  else if existsb (λ dimension, negb (bool_decide (dimension = Dim.Count)))
            (bt_keys (need_quantity need))
  then need_quantity need
  else qty Dim.Count (N.max (quantity_get (need_quantity need) Dim.Count) 1).

Definition project_usage (usage : ClassUsage) (needs : list Need) : ClassUsage :=
  foldl (λ projected need, usage_add projected (need_kind need) (need_charge need)) usage needs.

Definition within_budget (usage : ClassUsage) (request : Request) (owner_ceiling : ClassUsage)
    : bool :=
  if bool_decide (owner_ceiling = ∅) then true
  else
    let projected := project_usage usage (req_needs request) in
    forallb (λ '(kind, ceiling), quantity_le (default ∅ (projected !! kind)) ceiling)
      (bt_iter owner_ceiling).

(** ** Plain admission *)

Section plain.
Context (graph : Graph) (occ : Occupancy) (quarantine : gset N) (policy : AdmissionPolicy).

(** The loop of [admit_with_policy_explained]. *)
Fixpoint admit_loop (usage : gmap N ClassUsage) (rank : nat) (order : list Queued)
    (trace : AdmissionTrace) : option Admission * AdmissionTrace :=
  match order with
  | [] => (None, trace)
  | queued :: order =>
      if negb (within_budget (default ∅ (usage !! q_owner queued)) (q_request queued)
                 (pol_owner_ceiling policy))
      then admit_loop usage (S rank) order (set_outcome rank OverQuota trace)
      else
        match select graph occ (q_request queued) quarantine with
        | Ok allocation =>
            (Some (mkAdmission (q_request queued) (q_owner queued) allocation),
             set_outcome rank (Selected false) trace)
        | Err error =>
            admit_loop usage (S rank) order
              (set_outcome rank (PlacementRefused (error_to_string error)) trace)
        end
  end.

Definition admit_with_policy_explained (queue : list Queued) (leases : gmap N Lease)
    (open_bindings : gset N) : option Admission * AdmissionTrace :=
  let usage := owner_usage graph leases open_bindings in
  let capacity := claimable_capacity graph in
  let order := order_queue_with_policy queue usage capacity policy in
  admit_loop usage 0 order (build_admission_trace order usage capacity policy).

Definition admit_with_policy (queue : list Queued) (leases : gmap N Lease)
    (open_bindings : gset N) : option Admission :=
  (admit_with_policy_explained queue leases open_bindings).1.
End plain.

Definition admit_with_ceiling (graph : Graph) (occ : Occupancy) (quarantine : gset N)
    (owner_ceiling : ClassUsage) (queue : list Queued) (leases : gmap N Lease)
    (open_bindings : gset N) : option Admission :=
  admit_with_policy graph occ quarantine (ceiling_policy owner_ceiling) queue leases open_bindings.

(** [admit]: no ceilings, so the lease table does not matter. *)
Definition plain_admit (graph : Graph) (occ : Occupancy) (queue : list Queued) (quarantine : gset N)
    : option Admission :=
  admit_with_ceiling graph occ quarantine ∅ queue ∅ ∅.

Definition refuse_reason (graph : Graph) (occ : Occupancy) (request : Request)
    (quarantine : gset N) : option Error :=
  match select graph occ request quarantine with Ok _ => None | Err e => Some e end.

(** ** Backfill *)

Record BlockedHead := mkHead { bh_shadow : option u64; bh_claims : gset N }.

Record BackfillCtx := mkBackfillCtx {
  bf_now : u64;
  bf_leases : gmap N Lease;
  bf_open_bindings : gset N;
}.

Definition occupying (lease : Lease) (open_bindings : gset N) : bool :=
  lease_occupies lease (bool_decide (lease_id lease ∈ open_bindings)).

(** [claims_by_node(&allocation.claims).into_keys().collect()] *)
Definition allocation_nodes (allocation : Allocation) : gset N :=
  dom (claims_by_node (alloc_claims allocation)).

(** The leases gone by [shadow]: live ones that expire by then. *)
Definition freed_by (leases : gmap N Lease) (shadow : u64) : gset N :=
  list_to_set (lease_id <$>
    List.filter (λ lease, is_live_state (lease_state lease) && (lease_expires_at lease <=? shadow))
      (bt_values leases)).

Definition expiry_times (leases : gmap N Lease) (open_bindings : gset N) (now : u64) : gset N :=
  list_to_set (lease_expires_at <$>
    List.filter (λ lease, occupying lease open_bindings && (now <? lease_expires_at lease))
      (bt_values leases)).

Section shadow.
Context (graph : Graph) (quarantine : gset N) (leases : gmap N Lease) (open_bindings : gset N)
  (request : Request).

(** [select] on the occupancy projected without the leases of [except]. *)
Definition select_without (except : gset N) : result Error Allocation :=
  select graph (occupancy_from_leases (bt_values leases) open_bindings except) request quarantine.

Fixpoint first_shadow (times : list u64) : option BlockedHead :=
  match times with
  | [] => None
  | shadow :: times =>
      match select_without (freed_by leases shadow) with
      | Ok allocation => Some (mkHead (Some shadow) (allocation_nodes allocation))
      | Err _ => first_shadow times
      end
  end.

Definition shadow_head (now : u64) : option BlockedHead :=
  match first_shadow (bs_iter (expiry_times leases open_bindings now)) with
  | Some head => Some head
  | None =>
      let all : gset N :=
        list_to_set (lease_id <$>
          List.filter (λ lease, occupying lease open_bindings) (bt_values leases)) in
      match select_without all with
      | Ok allocation => Some (mkHead None (allocation_nodes allocation))
      | Err _ => None
      end
  end.
End shadow.

Definition head_safe (finishes : u64) (claims : gset N) (head : BlockedHead) : bool :=
  match bh_shadow head with
  | Some shadow => (finishes <=? shadow) || bool_decide (claims ## bh_claims head)
  | None => bool_decide (claims ## bh_claims head)
  end.

Section backfill.
Context (graph : Graph) (occ : Occupancy) (quarantine : gset N) (exclusions : RequestExclusions)
  (policy : AdmissionPolicy) (ctx : BackfillCtx).

Definition hard_exclusions (queued : Queued) : gset N :=
  default ∅ (exclusions !! req_id (q_request queued)).

(** A request that does not select: the head it becomes, if any. *)
Definition blocked_head (queued : Queued) : option BlockedHead :=
  match select graph occ (q_request queued) (hard_exclusions queued) with
  | Ok allocation => Some (mkHead None (allocation_nodes allocation))
  | Err _ =>
      shadow_head graph (quarantine ∪ hard_exclusions queued) (bf_leases ctx)
        (bf_open_bindings ctx) (q_request queued) (bf_now ctx)
  end.

Fixpoint backfill_loop (usage : gmap N ClassUsage) (rank : nat) (order : list Queued)
    (blocked : list BlockedHead) (trace : AdmissionTrace) : option Admission * AdmissionTrace :=
  match order with
  | [] => (None, trace)
  | queued :: order =>
      if negb (within_budget (default ∅ (usage !! q_owner queued)) (q_request queued)
                 (pol_owner_ceiling policy))
      then backfill_loop usage (S rank) order blocked (set_outcome rank OverQuota trace)
      else
        match select graph occ (q_request queued) (quarantine ∪ hard_exclusions queued) with
        | Ok allocation =>
            let claims : gset N := list_to_set (claim_node <$> alloc_claims allocation) in
            let finishes := sat_add (bf_now ctx) (req_lifetime (q_request queued)) in
            if forallb (head_safe finishes claims) blocked
            then (Some (mkAdmission (q_request queued) (q_owner queued) allocation),
                  set_outcome rank (Selected (negb (bool_decide (blocked = [])))) trace)
            else backfill_loop usage (S rank) order blocked
                   (set_outcome rank (BackfillUnsafe (length blocked)) trace)
        | Err error =>
            match blocked_head queued with
            | Some head =>
                backfill_loop usage (S rank) order (blocked ++ [head])
                  (set_outcome rank (Blocked (bh_shadow head)) trace)
            | None =>
                backfill_loop usage (S rank) order blocked
                  (set_outcome rank (PlacementRefused (error_to_string error)) trace)
            end
        end
  end.

Definition admit_backfill_with_policy_explained (queue : list Queued)
    : option Admission * AdmissionTrace :=
  let usage := owner_usage graph (bf_leases ctx) (bf_open_bindings ctx) in
  let capacity := claimable_capacity graph in
  let order := order_queue_with_policy queue usage capacity policy in
  backfill_loop usage 0 order [] (build_admission_trace order usage capacity policy).

Definition admit_backfill_with_policy (queue : list Queued) : option Admission :=
  (admit_backfill_with_policy_explained queue).1.
End backfill.

Definition admit_backfill_with_exclusions (graph : Graph) (occ : Occupancy)
    (quarantine : gset N) (exclusions : RequestExclusions) (owner_ceiling : ClassUsage)
    (queue : list Queued) (ctx : BackfillCtx) : option Admission :=
  admit_backfill_with_policy graph occ quarantine exclusions (ceiling_policy owner_ceiling) ctx
    queue.

Definition admit_backfill (graph : Graph) (occ : Occupancy) (quarantine : gset N)
    (owner_ceiling : ClassUsage) (queue : list Queued) (ctx : BackfillCtx) : option Admission :=
  admit_backfill_with_exclusions graph occ quarantine ∅ owner_ceiling queue ctx.
