(* ===== verification/AdmitFacts.v ===== *)
(** * Admission: order, first fit and backfill

    The queue order is a deterministic sorted permutation; plain admission
    takes the first request of that order that is within its owner's ceiling
    and places; backfill protects the blocked heads in front of the request
    it starts, whose shadows are the earliest times they place at. *)

From S2P Require Import Prelude.
From S2P Require Import Identifier.
From S2P Require Import Types.
From S2P Require Import Graph.
From S2P Require Import GraphFacts.
From S2P Require Import Occupancy.
From S2P Require Import Select.
From S2P Require Import SelectFacts.
From S2P Require Import Admit.

(** ** Lexicographic orders *)

(** A comparison by keys that are natural numbers. *)
Fixpoint lex_cmp (xs ys : list N) : comparison :=
  match xs, ys with
  | x :: xs, y :: ys => cmp_then (x ?= y) (lex_cmp xs ys)
  | _, _ => Eq
  end.

Fixpoint lex_le (xs ys : list N) : Prop :=
  match xs, ys with
  | x :: xs, y :: ys => x < y ∨ x = y ∧ lex_le xs ys
  | _, _ => True
  end.

Lemma lex_cmp_le xs ys : cmp_leb (lex_cmp xs ys) = true ↔ lex_le xs ys.
Proof.
  revert ys. induction xs as [|x xs IH]; intros [|y ys]; cbn [lex_cmp lex_le]; try done.
  rewrite <-IH. unfold cmp_then.
  destruct (N.compare_spec x y); cbn [cmp_leb]; split; (done || lia || naive_solver lia).
Qed.

Lemma lex_le_total xs ys : lex_le xs ys ∨ lex_le ys xs.
Proof.
  revert ys. induction xs as [|x xs IH]; intros [|y ys]; cbn; [by left..|].
  destruct (IH ys), (N.lt_trichotomy x y) as [|[->|]]; auto.
Qed.

Lemma lex_le_trans xs ys zs :
  length xs = length ys → lex_le xs ys → lex_le ys zs → lex_le xs zs.
Proof.
  revert ys zs. induction xs as [|x xs IH]; intros [|y ys] [|z zs]; cbn; try done.
  intros [= Hl] [Hxy|[-> Hxy]] [Hyz|[-> Hyz]]; [left; lia|by left|by left|right; eauto].
Qed.

(** ** Queue order *)

Section order.
Context (score : OwnerId → N).

(** Priorities are [u32]; a higher one goes first. *)
Definition fair_before (x y : Queued) : Prop :=
  req_priority (q_request y) < req_priority (q_request x)
  ∨ req_priority (q_request y) = req_priority (q_request x)
    ∧ lex_le [score (q_owner x); q_submitted_at x; req_id (q_request x)]
             [score (q_owner y); q_submitted_at y; req_id (q_request y)].

Lemma fair_cmp_spec x y : cmp_leb (fair_cmp score x y) = true ↔ fair_before x y.
Proof.
  unfold fair_cmp, fair_before. rewrite <-lex_cmp_le. cbn [lex_cmp].
  assert (∀ c, cmp_then c Eq = c) as Hthen by (by intros []).
  rewrite Hthen. unfold cmp_then at 1.
  destruct (N.compare_spec (req_priority (q_request y)) (req_priority (q_request x)));
    cbn [cmp_leb]; split; (done || lia || naive_solver lia).
Qed.

Lemma fair_before_total x y : fair_before x y ∨ fair_before y x.
Proof.
  unfold fair_before.
  destruct (N.lt_trichotomy (req_priority (q_request y)) (req_priority (q_request x)))
    as [?|[Heq|?]]; [by left; left| |by right; left].
  destruct (lex_le_total [score (q_owner x); q_submitted_at x; req_id (q_request x)]
    [score (q_owner y); q_submitted_at y; req_id (q_request y)]); auto.
Qed.

Lemma fair_before_trans x y z : fair_before x y → fair_before y z → fair_before x z.
Proof.
  intros [Hxy|[Hp Hxy]] [Hyz|[Hp' Hyz]]; [left; lia|left; lia|left; lia|].
  right. split; [congruence|]. eapply lex_le_trans; [|exact Hxy|exact Hyz]. done.
Qed.

Lemma fair_sorted queue :
  StronglySorted fair_before (sort_by (λ x y, cmp_leb (fair_cmp score x y)) queue).
Proof.
  assert (∀ l, StronglySorted (λ x y, cmp_leb (fair_cmp score x y) = true) l →
    StronglySorted fair_before l) as Hweak.
  { induction 1 as [|x l _ IH Hx]; constructor; [done|].
    eapply Forall_impl; [exact Hx|]. intros y. by rewrite fair_cmp_spec. }
  apply Hweak, sort_by_sorted; intros *; rewrite !fair_cmp_spec;
    [apply fair_before_total|apply fair_before_trans].
Qed.
End order.

(** The score the policy orders by: none without fair share. *)
Definition policy_score (usage : gmap N ClassUsage) (capacity : ClassUsage)
    (policy : AdmissionPolicy) (owner : OwnerId) : N :=
  if pol_fair_share policy then share_of usage capacity policy owner else 0.

Lemma order_as_fair queue usage capacity policy :
  order_queue_with_policy queue usage capacity policy
  = sort_by (λ x y, cmp_leb (fair_cmp (policy_score usage capacity policy) x y)) queue.
Proof.
  unfold order_queue_with_policy, policy_score.
  by destruct (pol_fair_share policy).
Qed.

Lemma order_spec queue usage capacity policy :
  order_queue_with_policy queue usage capacity policy ≡ₚ queue
  ∧ StronglySorted (fair_before (policy_score usage capacity policy))
      (order_queue_with_policy queue usage capacity policy).
Proof. rewrite order_as_fair. split; [apply sort_by_perm|apply fair_sorted]. Qed.

(** ** Plain admission *)

Lemma set_outcome_at (evaluated rest : AdmissionTrace) c outcome :
  set_outcome (length evaluated) outcome (evaluated ++ c :: rest)
  = (evaluated ++ [with_outcome outcome c]) ++ rest.
Proof.
  unfold set_outcome. induction evaluated as [|e evaluated IH]; [done|].
  rewrite <-!app_comm_cons. cbn [length]. cbn. by f_equal.
Qed.

Section first_fit.
Context (graph : Graph) (occ : Occupancy) (quarantine : gset N) (policy : AdmissionPolicy)
  (usage : gmap N ClassUsage).

Definition affordable (queued : Queued) : bool :=
  within_budget (default ∅ (usage !! q_owner queued)) (q_request queued)
    (pol_owner_ceiling policy).

(** The verdict on a request that is not admitted. *)
Definition verdict (queued : Queued) : option AdmissionOutcome :=
  if negb (affordable queued) then Some OverQuota
  else
    match select graph occ (q_request queued) quarantine with
    | Ok _ => None
    | Err error => Some (PlacementRefused (error_to_string error))
    end.

Definition admits (queued : Queued) (a : Admission) : Prop :=
  affordable queued = true ∧ adm_request a = q_request queued ∧ adm_owner a = q_owner queued
  ∧ select graph occ (q_request queued) quarantine = Ok (adm_allocation a).

(** First fit over [order]: everything before the admitted request got a
    verdict against it, nothing after it was evaluated; [entries] is the trace
    of these requests and [evaluated] what came before. *)
Definition first_fit (order : list Queued) (evaluated entries : AdmissionTrace)
    (out : option Admission * AdmissionTrace) : Prop :=
  match out with
  | (Some a, trace) => ∃ before queued after outcomes,
      order = before ++ queued :: after ∧ verdict <$> before = Some <$> outcomes
      ∧ admits queued a
      ∧ trace = evaluated
          ++ zip_with with_outcome (outcomes ++ [Selected false]) entries
          ++ drop (S (length before)) entries
  | (None, trace) => ∃ outcomes,
      verdict <$> order = Some <$> outcomes
      ∧ trace = evaluated ++ zip_with with_outcome outcomes entries
  end.

Lemma first_fit_skip queued outcome order evaluated c entries out :
  verdict queued = Some outcome →
  first_fit order (evaluated ++ [with_outcome outcome c]) entries out →
  first_fit (queued :: order) evaluated (c :: entries) out.
Proof.
  intros Hv. destruct out as [[a|] trace]; cbn [first_fit].
  - intros (before & q & after & outcomes & -> & Hb & Ha & ->).
    exists (queued :: before), q, after, (outcome :: outcomes).
    split_and!; [done|by rewrite !fmap_cons, Hv, Hb|done|by rewrite <-!(assoc_L (++))].
  - intros (outcomes & Hb & ->). exists (outcome :: outcomes).
    split; [by rewrite !fmap_cons, Hv, Hb|by rewrite <-!(assoc_L (++))].
Qed.

Lemma admit_loop_first_fit order evaluated entries :
  length entries = length order →
  first_fit order evaluated entries
    (admit_loop graph occ quarantine policy usage (length evaluated) order (evaluated ++ entries)).
Proof.
  revert evaluated entries.
  induction order as [|queued order IH]; intros evaluated [|c entries] Hl; try done.
  { cbn. by exists []. }
  injection Hl as Hl.
  assert (∀ outcome, verdict queued = Some outcome → first_fit (queued :: order) evaluated
    (c :: entries) (admit_loop graph occ quarantine policy usage (S (length evaluated)) order
      (set_outcome (length evaluated) outcome (evaluated ++ c :: entries)))) as Hskip.
  { intros outcome Hv. apply (first_fit_skip _ outcome); [done|]. rewrite set_outcome_at.
    specialize (IH (evaluated ++ [with_outcome outcome c]) entries Hl).
    by rewrite length_app, Nat.add_1_r in IH. }
  cbn [admit_loop]. fold (affordable queued). unfold verdict in Hskip.
  destruct (affordable queued) eqn:Haff; [|by apply Hskip].
  destruct (select graph occ (q_request queued) quarantine) as [allocation|error] eqn:Hsel;
    [|by apply Hskip].
  exists [], queued, order, []. split_and!; [done|done|done|].
  rewrite set_outcome_at. cbn. by rewrite <-(assoc_L (++)).
Qed.
End first_fit.

(** Plain admission is exactly first fit over a deterministic order: the
    queue is served as a permutation sorted by priority (highest first), then
    by the owner's weighted dominant share when fair share is on, then by
    submit time and request id; the admitted request is the first one within
    its owner's ceiling that places, with the allocation [select] computes
    for it; the trace records for every request before it why it was passed
    over and leaves those after it unevaluated; nothing is admitted only if
    every request is over quota or refused. *)
Theorem admit_first_fit (graph : Graph) (occ : Occupancy) (quarantine : gset N)
    (policy : AdmissionPolicy) (queue : list Queued) (leases : gmap N Lease)
    (open_bindings : gset N) :
  let usage := owner_usage graph leases open_bindings in
  let capacity := claimable_capacity graph in
  let order := order_queue_with_policy queue usage capacity policy in
  order ≡ₚ queue
  ∧ StronglySorted (fair_before (policy_score usage capacity policy)) order
  ∧ first_fit graph occ quarantine policy usage order []
      (build_admission_trace order usage capacity policy)
      (admit_with_policy_explained graph occ quarantine policy queue leases open_bindings).
Proof.
  intros usage capacity order. split_and!; [apply order_spec..|].
  apply (admit_loop_first_fit graph occ quarantine policy usage order []).
  unfold build_admission_trace. apply length_imap.
Qed.

(** ** Backfill *)

Section backfill.
Context (graph : Graph) (occ : Occupancy) (quarantine : gset N) (exclusions : RequestExclusions)
  (policy : AdmissionPolicy) (ctx : BackfillCtx) (usage : gmap N ClassUsage).

Definition attempt (queued : Queued) : result Error Allocation :=
  select graph occ (q_request queued) (quarantine ∪ hard_exclusions exclusions queued).

(** The head that a request in front becomes when it cannot start. *)
Definition blocks (queued : Queued) : option BlockedHead :=
  if affordable policy usage queued && negb (is_ok (attempt queued))
  then blocked_head graph occ quarantine exclusions ctx queued else None.

Definition heads (blocked : list BlockedHead) (before : list Queued) : list BlockedHead :=
  blocked ++ omap blocks before.

Definition backfill_safe (blocked : list BlockedHead) (queued : Queued) (a : Allocation) : bool :=
  forallb (head_safe (sat_add (bf_now ctx) (req_lifetime (q_request queued)))
             (list_to_set (claim_node <$> alloc_claims a))) blocked.

Definition passed_over (blocked : list BlockedHead) (queued : Queued) : Prop :=
  affordable policy usage queued = false ∨ is_ok (attempt queued) = false
  ∨ ∃ a, attempt queued = Ok a ∧ backfill_safe blocked queued a = false.

Definition all_passed_over (blocked : list BlockedHead) (order : list Queued) : Prop :=
  ∀ i q, order !! i = Some q → passed_over (heads blocked (take i order)) q.

Definition backfilled (blocked : list BlockedHead) (order : list Queued) (out : option Admission)
    : Prop :=
  match out with
  | Some a => ∃ before queued after,
      order = before ++ queued :: after ∧ all_passed_over blocked before
      ∧ affordable policy usage queued = true
      ∧ adm_request a = q_request queued ∧ adm_owner a = q_owner queued
      ∧ attempt queued = Ok (adm_allocation a)
      ∧ backfill_safe (heads blocked before) queued (adm_allocation a) = true
  | None => all_passed_over blocked order
  end.

Lemma heads_cons blocked queued before :
  heads blocked (queued :: before) = heads (blocked ++ option_list (blocks queued)) before.
Proof. unfold heads. cbn. destruct (blocks queued); cbn; by rewrite <-(assoc_L (++)). Qed.

Lemma passed_cons blocked queued order :
  passed_over blocked queued →
  all_passed_over (blocked ++ option_list (blocks queued)) order →
  all_passed_over blocked (queued :: order).
Proof.
  intros Hq Hrest [|i] q Hi; cbn in Hi |- *.
  - injection Hi as <-. unfold heads. cbn. by rewrite app_nil_r.
  - rewrite heads_cons. by apply Hrest.
Qed.

Lemma backfilled_skip blocked queued order out :
  passed_over blocked queued →
  backfilled (blocked ++ option_list (blocks queued)) order out →
  backfilled blocked (queued :: order) out.
Proof.
  intros Hq. destruct out as [a|]; cbn; [|by apply passed_cons].
  intros (before & q & after & -> & Hb & Haff & Hreq & Hown & Hsel & Hsafe).
  exists (queued :: before), q, after. rewrite heads_cons. split_and!; try done.
  by apply passed_cons.
Qed.

Lemma backfill_loop_spec order blocked rank trace :
  backfilled blocked order
    (backfill_loop graph occ quarantine exclusions policy ctx usage rank order blocked trace).1.
Proof.
  revert blocked rank trace.
  induction order as [|queued order IH]; intros blocked rank trace; [by intros i q ?|].
  assert (blocks queued = None → passed_over blocked queued → ∀ rank trace,
    backfilled blocked (queued :: order) (backfill_loop graph occ quarantine exclusions policy
      ctx usage rank order blocked trace).1) as Hsame.
  { intros Hn Hp r t. apply backfilled_skip; [done|]. rewrite Hn. cbn. rewrite app_nil_r. apply IH. }
  cbn [backfill_loop]. fold (affordable policy usage queued). fold (attempt queued).
  destruct (affordable policy usage queued) eqn:Haff; cbn [negb].
  2: { apply Hsame; [unfold blocks; by rewrite Haff|by left]. }
  destruct (attempt queued) as [a|error] eqn:Hatt.
  - fold (backfill_safe blocked queued a). destruct (backfill_safe blocked queued a) eqn:Hsafe.
    + exists [], queued, order. unfold heads. cbn. rewrite app_nil_r. split_and!; done.
    + apply Hsame; [unfold blocks; by rewrite Haff, Hatt|]. right; right. eauto.
  - assert (passed_over blocked queued) as Hp by (right; left; by rewrite Hatt).
    assert (blocks queued = blocked_head graph occ quarantine exclusions ctx queued) as Hbl
      by (unfold blocks; by rewrite Haff, Hatt).
    destruct (blocked_head _ _ _ _ _ _) as [head|]; [|by apply Hsame].
    apply backfilled_skip; [done|]. rewrite Hbl. apply IH.
Qed.
End backfill.

(** EASY backfill is exact: in the policy order, the admitted request is
    the first one within its ceiling that places outside blocked and excluded
    nodes and is compatible with every blocked head in front of it (it ends
    by that head's shadow time, or shares no node with the head's shadow
    placement); every request in front was over quota, did not place, or
    would have run into a head blocked in front of it. *)
Theorem backfill_exact (graph : Graph) (occ : Occupancy) (quarantine : gset N)
    (exclusions : RequestExclusions) (policy : AdmissionPolicy) (queue : list Queued)
    (ctx : BackfillCtx) :
  let usage := owner_usage graph (bf_leases ctx) (bf_open_bindings ctx) in
  let capacity := claimable_capacity graph in
  let order := order_queue_with_policy queue usage capacity policy in
  order ≡ₚ queue
  ∧ StronglySorted (fair_before (policy_score usage capacity policy)) order
  ∧ backfilled graph occ quarantine exclusions policy ctx usage [] order
      (admit_backfill_with_policy graph occ quarantine exclusions policy ctx queue).
Proof.
  intros usage capacity order. split_and!; [apply order_spec..|]. apply backfill_loop_spec.
Qed.

(** ** Shadows *)

Section shadow.
Context (graph : Graph) (quarantine : gset N) (leases : gmap N Lease) (open_bindings : gset N)
  (request : Request).

(** The earliest expiry time at which the request places. *)
Lemma first_shadow_spec times head :
  first_shadow graph quarantine leases open_bindings request times = Some head →
  ∃ before t after a, times = before ++ t :: after
    ∧ head = mkHead (Some t) (allocation_nodes a)
    ∧ select_without graph quarantine leases open_bindings request (freed_by leases t) = Ok a
    ∧ ∀ u, u ∈ before → is_ok (select_without graph quarantine leases open_bindings request
                                 (freed_by leases u)) = false.
Proof.
  induction times as [|t times IH]; [done|]. cbn [first_shadow].
  destruct (select_without _ _ _ _ _ _) as [a|e] eqn:Hsel.
  - intros [= <-]. exists [], t, times, a. split_and!; [done|done|exact Hsel|].
    by intros u ?%elem_of_nil.
  - intros (before & u & after & a & -> & Hh & Hs & Hb)%IH.
    exists (t :: before), u, after, a. split_and!; [done|exact Hh|exact Hs|].
    intros v [->|Hv]%elem_of_cons; [rewrite Hsel; reflexivity|exact (Hb v Hv)].
Qed.

Lemma shadow_head_timed now head t :
  shadow_head graph quarantine leases open_bindings request now = Some head →
  bh_shadow head = Some t →
  ∃ a, bh_claims head = allocation_nodes a
    ∧ select_without graph quarantine leases open_bindings request (freed_by leases t) = Ok a.
Proof.
  unfold shadow_head. destruct (first_shadow _ _ _ _ _ _) as [h|] eqn:Hf.
  - intros [= ->] Ht. apply first_shadow_spec in Hf as (_ & u & _ & a & _ & -> & Hs & _).
    cbn in Ht. injection Ht as ->. exists a. split; [done|exact Hs].
  - cbv zeta. case (select_without graph quarantine leases open_bindings request);
      [intros a|discriminate]. intros [= <-]. discriminate.
Qed.
End shadow.

Lemma allocation_nodes_spec a n :
  n ∈ allocation_nodes a ↔ ∃ cl, cl ∈ alloc_claims a ∧ claim_node cl = n.
Proof.
  unfold allocation_nodes, claims_by_node.
  assert (∀ claims m, n ∈ dom (foldl (λ (out : gmap N Quantity) claim,
      <[claim_node claim := quantity_max (default ∅ (out !! claim_node claim))
          (claim_quantity claim)]> out) m claims)
    ↔ n ∈ dom m ∨ ∃ cl, cl ∈ claims ∧ claim_node cl = n) as Hfold.
  { induction claims as [|cl claims IH]; intros m; cbn [foldl].
    - split; [by left|]. intros [?|(cl & ?%elem_of_nil & _)]; done.
    - rewrite IH, dom_insert, elem_of_union, elem_of_singleton. setoid_rewrite elem_of_cons.
      naive_solver. }
  rewrite Hfold, dom_empty. set_solver.
Qed.

Lemma elem_of_freed leases t k :
  keyed leases →
  k ∈ freed_by leases t ↔
  ∃ l, leases !! k = Some l ∧ is_live_state (lease_state l) = true ∧ lease_expires_at l ≤ t.
Proof.
  intros Hk. unfold freed_by. rewrite elem_of_list_to_set, list_elem_of_fmap.
  setoid_rewrite list_elem_of_In. setoid_rewrite filter_In. setoid_rewrite <-list_elem_of_In.
  setoid_rewrite elem_of_bt_values. setoid_rewrite andb_true_iff. setoid_rewrite N.leb_le. split.
  - intros (l & -> & (j & Hj) & Hl). rewrite (Hk _ _ Hj). eauto.
  - intros (l & Hl & Hs). exists l. rewrite (Hk _ _ Hl). eauto.
Qed.

(** A new lease that is not charged on a node leaves its occupancy alone. *)
Lemma total_used_insert leases ob ex ex' id l n d :
  keyed leases → leases !! id = None → lease_id l = id →
  (∀ k x, leases !! k = Some x → lease_parent x ≠ Some id) →
  (∀ k, k ≠ id → k ∈ ex' ↔ k ∈ ex) → charge_of (<[id:=l]> leases) ob ex' n d l = 0 →
  total_used (<[id:=l]> leases) ob ex' n d = total_used leases ob ex n d.
Proof.
  intros Hk Hid Hlid Hpar Hex Hzero. unfold total_used. rewrite sum_map_insert, Hzero by done.
  rewrite N.add_0_l. apply sum_map_ext. intros k x Hx.
  assert (k ≠ id) as Hne by congruence.
  assert (∀ j y, leases !! j = Some y → occupying_in ob ex' y = occupying_in ob ex y) as Hocc.
  { intros j y Hy. unfold occupying_in. rewrite (Hk _ _ Hy).
    assert (j ≠ id) as Hj by congruence. by rewrite (bool_decide_ext _ _ (Hex j Hj)). }
  unfold charge_of, charged_in. rewrite (Hocc k x Hx).
  destruct (lease_parent x) as [p|] eqn:Hp; [|done].
  rewrite lookup_insert_ne by (intros ->; by apply (Hpar k x)).
  destruct (leases !! p) as [lp|] eqn:Hlp; [|done]. by rewrite (Hocc p lp Hlp).
Qed.
