(* ===== verification/Ceilings.v ===== *)
(** * Owner ceilings

    Usage is accumulated in [u64] with wrapping addition, so every sum of the
    source is exact modulo [2^64]; congruence modulo [2^64] is the setoid the
    folds are computed in.  What a request is charged is what [select]
    grants, so an owner stays within its ceilings as long as its sums fit. *)

From S2P Require Import Prelude.
From S2P Require Import Identifier.
From S2P Require Import Types.
From S2P Require Import Graph.
From S2P Require Import GraphFacts.
From S2P Require Import Occupancy.
From S2P Require Import Select.
From S2P Require Import SelectFacts.
From S2P Require Import Admit.
From S2P Require Import AdmitFacts.

(** ** Congruence modulo [2^64] *)

Definition cong64 (a b : N) : Prop := a mod u64_modulus = b mod u64_modulus.

#[export] Instance cong64_equivalence : Equivalence cong64.
Proof. split; unfold cong64; [done|by intros ?? ->|by intros ??? -> ->]. Qed.

#[export] Instance add_cong64 : Proper (cong64 ==> cong64 ==> cong64) N.add.
Proof.
  intros a a' Ha b b' Hb. unfold cong64 in *.
  by rewrite N.Div0.add_mod, Ha, Hb, <-N.Div0.add_mod.
Qed.

Lemma cong64_small a b : cong64 a b → b < u64_modulus → b ≤ a.
Proof.
  unfold cong64. intros Hab Hb. rewrite (N.mod_small b) in Hab by done.
  rewrite <-Hab. apply N.Div0.mod_le.
Qed.

(** ** Sums over lists *)

Definition total {A} (w : A → N) (l : list A) : N := foldr (λ x acc, w x + acc) 0 l.

Lemma total_perm {A} (w : A → N) (l l' : list A) : l ≡ₚ l' → total w l = total w l'.
Proof. induction 1; simpl; lia. Qed.

Lemma total_app {A} (w : A → N) (l l' : list A) : total w (l ++ l') = total w l + total w l'.
Proof. induction l; simpl; lia. Qed.

Lemma total_fmap {A B} (w : B → N) (f : A → B) (l : list A) :
  total w (f <$> l) = total (λ x, w (f x)) l.
Proof. induction l as [|x l IH]; [done|]. rewrite fmap_cons. simpl. by rewrite IH. Qed.

Lemma total_const {A} (w : A → N) (l : list A) (k : N) :
  (∀ x, x ∈ l → w x = k) → total w l = N.of_nat (length l) * k.
Proof.
  induction l as [|x l IH]; intros Hw; [done|]. cbn [total foldr length].
  change (foldr _ 0 l) with (total w l).
  rewrite IH, (Hw x) by (by left || (intros; apply Hw; by right)). lia.
Qed.

(** A fold that adds a weight per element, read through a measure. *)
Lemma fold_cong {A B} (f : B → N) (step : B → A → B) (w : A → N) (l : list A) (b : B) :
  (∀ b x, cong64 (f (step b x)) (f b + w x)) →
  cong64 (f (foldl step b l)) (f b + total w l).
Proof.
  intros Hstep. revert b. induction l as [|x l IH]; intros b; cbn [foldl total foldr].
  { by rewrite N.add_0_r. }
  rewrite IH, Hstep. change (foldr _ 0 l) with (total w l). by rewrite N.add_assoc.
Qed.

(** ** Usage *)

Definition usage_amount (usage : ClassUsage) (kind : ResourceClass) (d : CapacityDimension) : N :=
  quantity_get (default ∅ (usage !! kind)) d.

Definition of_kind (kind kind' : ResourceClass) (amount : N) : N :=
  if bool_decide (kind = kind') then amount else 0.

Lemma usage_add_cong usage kind q kind' d :
  cong64 (usage_amount (usage_add usage kind q) kind' d)
    (usage_amount usage kind' d + of_kind kind kind' (quantity_get q d)).
Proof.
  unfold usage_amount, usage_add, of_kind. rewrite lookup_insert.
  destruct (decide (kind = kind')) as [<-|Hne].
  - rewrite bool_decide_true by done. simpl. apply quantity_get_add_mod.
  - rewrite bool_decide_false by done. by rewrite N.add_0_r.
Qed.

(** What claims amount to in a class, each node once. *)
Definition class_amount (g : Graph) (claims : list Claim) (kind : ResourceClass)
    (d : CapacityDimension) : N :=
  total (λ p : N * Quantity, of_kind (kind_of g p.1) kind (quantity_get p.2 d))
    (bt_iter (claims_by_node claims)).

Lemma charge_lease_cong g usage claims kind d :
  cong64 (usage_amount (charge_lease g usage claims) kind d)
    (usage_amount usage kind d + class_amount g claims kind d).
Proof.
  unfold charge_lease, class_amount. apply (fold_cong (λ u, usage_amount u kind d)).
  intros u [n q]. apply usage_add_cong.
Qed.

(** A lease that counts against an owner: an occupying root. *)
Definition counts (open_bindings : gset N) (owner : OwnerId) (l : Lease) : bool :=
  bool_decide (lease_parent l = None) && occupying l open_bindings && (lease_owner l =? owner).

(** The exact usage of an owner in a class and dimension. *)
Definition owner_total (g : Graph) (leases : gmap N Lease) (open_bindings : gset N)
    (owner : OwnerId) (kind : ResourceClass) (d : CapacityDimension) : N :=
  total (λ l, if counts open_bindings owner l then class_amount g (lease_claims l) kind d else 0)
    (bt_values leases).

Lemma owner_usage_cong g leases ob owner kind d :
  cong64 (usage_amount (default ∅ (owner_usage g leases ob !! owner)) kind d)
    (owner_total g leases ob owner kind d).
Proof.
  unfold owner_usage, owner_total.
  rewrite (fold_cong (λ u : gmap N ClassUsage, usage_amount (default ∅ (u !! owner)) kind d)
    _ (λ l, if counts ob owner l then class_amount g (lease_claims l) kind d else 0)).
  - rewrite lookup_empty. cbn [default from_option].
    unfold usage_amount at 1. rewrite lookup_empty. done.
  - intros u l. unfold counts, occupying.
    destruct (lease_parent l); [by rewrite N.add_0_r|].
    destruct (lease_occupies _ _); cbn [negb]; [|by rewrite N.add_0_r].
    rewrite bool_decide_true by done. cbn [andb]. rewrite lookup_insert.
    destruct (N.eqb_spec (lease_owner l) owner) as [<-|Hne].
    + rewrite decide_True by done. cbn [default from_option]. apply charge_lease_cong.
    + rewrite decide_False by done. by rewrite N.add_0_r.
Qed.

(** ** Charges *)

Definition charge_total (needs : list Need) (kind : ResourceClass) (d : CapacityDimension) : N :=
  total (λ need, of_kind (need_kind need) kind (quantity_get (need_charge need) d)) needs.

Lemma project_usage_cong usage needs kind d :
  cong64 (usage_amount (project_usage usage needs) kind d)
    (usage_amount usage kind d + charge_total needs kind d).
Proof.
  unfold project_usage, charge_total. apply (fold_cong (λ u, usage_amount u kind d)).
  intros u need. apply usage_add_cong.
Qed.

(** The check bounds the exact sum whenever that sum fits. *)
Lemma within_budget_sound usage request ceilings kind ceiling d exact :
  within_budget usage request ceilings = true → ceilings !! kind = Some ceiling →
  cong64 (usage_amount usage kind d) exact →
  exact + charge_total (req_needs request) kind d < u64_modulus →
  exact + charge_total (req_needs request) kind d ≤ quantity_get ceiling d.
Proof.
  intros Hb Hc Hex Hfit. unfold within_budget in Hb.
  rewrite bool_decide_false in Hb by (intros ->; by rewrite lookup_empty in Hc).
  rewrite forallb_elem in Hb. apply elem_of_bt_iter in Hc. apply Hb in Hc.
  rewrite quantity_le_spec in Hc. etrans; [|apply Hc].
  apply cong64_small; [|done]. rewrite <-Hex. apply project_usage_cong.
Qed.

(** ** What is granted is what was charged *)

Lemma quantity_max_empty (q : Quantity) : quantity_max ∅ q = q.
Proof.
  apply map_eq. intros d. unfold quantity_max.
  rewrite (bt_fold_lookup _ (λ o a, Some (N.max (default 0 o) a))), lookup_empty.
  - destruct (q !! d); simpl; [|done]. by rewrite N.max_0_l.
  - intros m k a j. rewrite lookup_insert. by case_decide.
Qed.

Lemma claims_by_node_perm (claims : list Claim) :
  NoDup (claim_node <$> claims) →
  bt_iter (claims_by_node claims) ≡ₚ (λ cl, (claim_node cl, claim_quantity cl)) <$> claims.
Proof.
  intros Hnd. rewrite bt_iter_perm. unfold claims_by_node.
  assert (∀ m : gmap N Quantity, (∀ n, n ∈ claim_node <$> claims → m !! n = None) →
    map_to_list (foldl (λ (out : gmap N Quantity) claim,
      <[claim_node claim := quantity_max (default ∅ (out !! claim_node claim))
          (claim_quantity claim)]> out) m claims)
    ≡ₚ ((λ cl, (claim_node cl, claim_quantity cl)) <$> claims) ++ map_to_list m) as Hfold.
  { induction claims as [|cl claims IH]; intros m Hm; [done|]. cbn [foldl].
    rewrite fmap_cons, NoDup_cons in Hnd. destruct Hnd as [Hni Hnd].
    rewrite (Hm (claim_node cl)) by (by left). cbn [default from_option].
    rewrite quantity_max_empty, IH; [|done|].
    - rewrite map_to_list_insert by (apply Hm; by left). rewrite fmap_cons.
      by rewrite <-Permutation_middle.
    - intros n Hn. rewrite lookup_insert_ne by (intros <-; done). apply Hm. by right. }
  rewrite Hfold; [|done]. by rewrite map_to_list_empty, app_nil_r.
Qed.

Definition claim_in_class (g : Graph) (kind : ResourceClass) (d : CapacityDimension) (cl : Claim)
    : N := of_kind (kind_of g (claim_node cl)) kind (quantity_get (claim_quantity cl) d).

Lemma class_amount_claims g claims kind d :
  NoDup (claim_node <$> claims) →
  class_amount g claims kind d = total (claim_in_class g kind d) claims.
Proof.
  intros Hnd. unfold class_amount. rewrite (total_perm _ _ _ (claims_by_node_perm claims Hnd)).
  by rewrite total_fmap.
Qed.

(** One group of claims amounts to the charge of its need. *)
Lemma group_charge g occ quarantine need group kind d :
  group_sound g occ quarantine need group →
  total (claim_in_class g kind d) group
  = of_kind (need_kind need) kind (quantity_get (need_charge need) d).
Proof.
  intros [Hs Hq].
  assert (∀ cl, cl ∈ group → kind_of g (claim_node cl) = need_kind need) as Hkind.
  { intros cl Hcl. destruct (cs_node _ _ _ _ _ (Hs cl Hcl)) as (n & Hn & Hk & _).
    unfold kind_of, graph_node. by rewrite Hn. }
  unfold need_charge, is_consumable_need in *. unfold claim_in_class.
  unfold consumable_quantity in Hq. case_bool_decide as Hmem; cbn [orb] in Hq.
  - destruct Hq as [node ->]. cbn. rewrite N.add_0_r.
    by rewrite (Hkind (mkClaim node _)) by (by left).
  - destruct (existsb _ _).
    + destruct Hq as [node ->]. cbn. rewrite N.add_0_r.
      by rewrite (Hkind (mkClaim node _)) by (by left).
    + destruct Hq as [Hlen Hunit].
      rewrite (total_const _ _ (of_kind (need_kind need) kind (quantity_get (qty Dim.Count 1) d)))
        by (intros cl Hcl; by rewrite Hkind, Hunit).
      rewrite Hlen. unfold need_count, of_kind, quantity_get, qty. case_bool_decide; [|lia].
      destruct (decide (d = Dim.Count)) as [->|Hne].
      * rewrite !lookup_singleton_eq. cbn. lia.
      * rewrite !lookup_singleton_ne by done. cbn. lia.
Qed.

Lemma groups_charge g occ quarantine needs (picked : list (list Claim)) kind d :
  Forall2 (group_sound g occ quarantine) needs picked →
  total (claim_in_class g kind d) (mjoin picked) = charge_total needs kind d.
Proof.
  induction 1 as [|need group needs groups Hg _ IH]; [done|].
  change (mjoin (group :: groups)) with (group ++ mjoin groups).
  rewrite total_app, IH, (group_charge _ _ _ _ _ _ _ Hg). done.
Qed.

Lemma granted_charge g occ request quarantine a picked kind d :
  selected g occ request quarantine a picked →
  class_amount g (alloc_claims a) kind d = charge_total (req_needs request) kind d.
Proof.
  intros Hsel. rewrite class_amount_claims by apply (sl_unique _ _ _ _ _ _ Hsel).
  rewrite (sl_claims _ _ _ _ _ _ Hsel). apply (groups_charge g occ quarantine), Hsel.
Qed.

(** ** Shares *)

(** The [u128] arithmetic of the dominant share does not overflow for [u64]
    amounts and [u32] weights. *)
Lemma share_fits used available weight :
  used < 2 ^ 64 → available < 2 ^ 64 → weight < 2 ^ 32 →
  used * SCALE < 2 ^ 128 ∧ available * N.max weight 1 < 2 ^ 128.
Proof. unfold SCALE. intros. split; nia. Qed.

Lemma quantity_get_add_qty q d a d' :
  quantity_get (quantity_add_assign q (qty d a)) d'
  = if decide (d = d') then wrap_add (quantity_get q d) a else quantity_get q d'.
Proof.
  unfold quantity_get at 1. rewrite quantity_add_lookup. unfold qty.
  rewrite lookup_singleton. by case_decide; subst.
Qed.

(** Ceilings are only exact while sums fit: the projected usage wraps at
    [2^64], so a request whose two memory needs add up to exactly [2^64]
    bytes is within every memory ceiling of a fresh owner, zero included. *)
Theorem ceiling_wraps (amount ceiling : N) (request : Request) :
  0 < amount → amount < u64_modulus →
  req_needs request = [mkNeed Class.Memory (qty Dim.Bytes amount) [];
                       mkNeed Class.Memory (qty Dim.Bytes (u64_modulus - amount)) []] →
  within_budget ∅ request {[ Class.Memory := qty Dim.Bytes ceiling ]} = true.
Proof.
  intros Hpos Hlt Hneeds. unfold within_budget. rewrite bool_decide_false by done.
  apply forallb_elem. intros [kind c] [<- <-]%elem_of_bt_iter%lookup_singleton_Some.
  rewrite Hneeds. unfold project_usage, usage_add, need_charge. cbn [foldl need_kind need_quantity].
  rewrite !bool_decide_true, !lookup_insert_eq, lookup_empty by done. cbn [default from_option id].
  rewrite !quantity_get_qty, !decide_True by done. apply quantity_le_spec. intros d. rewrite quantity_get_add_qty.
  case_decide as Hd; [|by rewrite quantity_get_add_qty, decide_False by done; apply N.le_0_l].
  subst d. rewrite quantity_get_add_qty, decide_True by done.
  assert (wrap_add (wrap_add (quantity_get ∅ Dim.Bytes) amount) (u64_modulus - amount) = 0) as ->;
    [|apply N.le_0_l].
  change (quantity_get ∅ Dim.Bytes) with 0. rewrite (wrap_add_exact 0) by lia.
  unfold wrap_add. replace (0 + amount + (u64_modulus - amount)) with u64_modulus by lia. done.
Qed.
