(* ===== verification/Scheduler.v ===== *)
(** * The scheduler of a cluster (lib.rs, preempt.rs)

    Placement and admission against the cluster's own graph, occupancy, lease
    table and blocked nodes, and advisory preemption planning.  None of these
    changes the cluster: what they return has to enter through commands.  The second half proves that
    the authority accepts what they propose. *)

From S2P Require Import Prelude Identifier Types Graph Occupancy Command Cluster Select Admit.

(** ** [impl Cluster] in lib.rs *)

Definition allocate (c : Cluster) (request : Request) : result Error Allocation :=
  select (c_graph c) (occupancy c) request (placement_blocked c).

Definition cluster_admit (c : Cluster) (queue : list Queued) : option Admission :=
  plain_admit (c_graph c) (occupancy c) queue (placement_blocked c).

Definition cluster_admit_with_ceiling (c : Cluster) (queue : list Queued)
    (owner_ceiling : ClassUsage) : option Admission :=
  admit_with_ceiling (c_graph c) (occupancy c) (placement_blocked c) owner_ceiling queue
    (c_leases c) (open_binding_leases c).

Definition cluster_admit_with_policy (c : Cluster) (queue : list Queued)
    (policy : AdmissionPolicy) : option Admission :=
  admit_with_policy (c_graph c) (occupancy c) (placement_blocked c) policy queue
    (c_leases c) (open_binding_leases c).

Definition backfill_ctx (c : Cluster) : BackfillCtx :=
  mkBackfillCtx (c_now c) (c_leases c) (open_binding_leases c).

Definition cluster_admit_backfill_with_exclusions (c : Cluster) (queue : list Queued)
    (owner_ceiling : ClassUsage) (exclusions : RequestExclusions) : option Admission :=
  admit_backfill_with_exclusions (c_graph c) (occupancy c) (placement_blocked c) exclusions
    owner_ceiling queue (backfill_ctx c).

Definition cluster_admit_backfill (c : Cluster) (queue : list Queued)
    (owner_ceiling : ClassUsage) : option Admission :=
  cluster_admit_backfill_with_exclusions c queue owner_ceiling ∅.

Definition cluster_admit_backfill_with_policy (c : Cluster) (queue : list Queued)
    (policy : AdmissionPolicy) (exclusions : RequestExclusions) : option Admission :=
  admit_backfill_with_policy (c_graph c) (occupancy c) (placement_blocked c) exclusions policy
    (backfill_ctx c) queue.

(** ** Preemption planning (preempt.rs) *)

Inductive PreemptionOutcome := AlreadyFeasible | Planned | NotFeasible.

#[export] Instance PreemptionOutcome_eq_dec : EqDecision PreemptionOutcome.
Proof. solve_decision. Defined.

Record PreemptionStep := mkPreemptionStep {
  ps_rank : nat;
  ps_lease : LeaseId;
  ps_owner : OwnerId;
  ps_priority : N;
  ps_feasible_after_eviction : bool;
}.

Record PreemptionPlan := mkPlan {
  pp_request : RequestId;
  pp_request_priority : N;
  pp_outcome : PreemptionOutcome;
  pp_victims : list LeaseId;
  pp_steps : list PreemptionStep;
}.

(** Lowest priority first, then the newest lease.  The source sorts ids and
    reads [cluster.leases[id]]; the model sorts the leases those ids name. *)
Definition victim_leb (x y : Lease) : bool :=
  cmp_leb (cmp_then (lease_priority x ?= lease_priority y) (lease_id y ?= lease_id x)).

Definition preemption_candidates (c : Cluster) (request : Request) : list Lease :=
  sort_by victim_leb
    (List.filter (λ lease,
       bool_decide (lease_parent lease = None)
       && (lease_priority lease <? req_priority request)
       && occupies c (lease_id lease)) (bt_values (c_leases c))).

(** The victims and everything below them. *)
Definition victim_closure (c : Cluster) (victims : list LeaseId) : gset N :=
  list_to_set victims ∪ list_to_set (mjoin (descendants_postorder c <$> victims)).

Definition feasible_without (c : Cluster) (request : Request) (victims : list LeaseId) : bool :=
  is_ok (select (c_graph c) (occupancy_except c (victim_closure c victims)) request
           (placement_blocked c)).

Fixpoint preempt_loop (c : Cluster) (request : Request) (rank : nat) (candidates : list Lease)
    (victims : list LeaseId) (steps : list PreemptionStep) : PreemptionPlan :=
  match candidates with
  | [] => mkPlan (req_id request) (req_priority request) NotFeasible [] steps
  | lease :: candidates =>
      let victims := victims ++ [lease_id lease] in
      let feasible := feasible_without c request victims in
      let steps := steps ++ [mkPreemptionStep rank (lease_id lease) (lease_owner lease)
                               (lease_priority lease) feasible] in
      if feasible then mkPlan (req_id request) (req_priority request) Planned victims steps
      else preempt_loop c request (S rank) candidates victims steps
  end.

Definition preemption_plan (c : Cluster) (request : Request) : PreemptionPlan :=
  if is_ok (select (c_graph c) (occupancy c) request (placement_blocked c))
  then mkPlan (req_id request) (req_priority request) AlreadyFeasible [] []
  else preempt_loop c request 0 (preemption_candidates c request) [] [].

Definition preempt_victims (c : Cluster) (request : Request) : option (list LeaseId) :=
  let plan := preemption_plan c request in
  match pp_outcome plan with
  | AlreadyFeasible | Planned => Some (pp_victims plan)
  | NotFeasible => None
  end.

(** * The scheduler and the lease authority

    What placement promises to the command path: an allocation computed
    against the cluster is accepted by [ReserveLease] as long as nothing
    changed in between.  Preemption plans are minimal prefixes of the ordered
    candidates. *)

From S2P Require Import GraphFacts Ledger LeaseTree Handlers ClusterInv Steps Safety Authority Leases.
From S2P Require Import SelectFacts AdmitFacts Ceilings.

(** ** Claims of an allocation *)

Definition request_u64 (request : Request) : bool :=
  forallb (λ need, quantity_u64 (need_quantity need)) (req_needs request).

Lemma selected_claim g occ request quarantine allocation picked cl :
  selected g occ request quarantine allocation picked → cl ∈ alloc_claims allocation →
  ∃ need, need ∈ req_needs request ∧ claim_sound g occ quarantine need cl
          ∧ claim_quantity cl = need_unit need.
Proof.
  intros Hsel Hcl. rewrite (sl_claims _ _ _ _ _ _ Hsel) in Hcl.
  apply list_elem_of_join in Hcl as (group & Hcl & [i Hi]%list_elem_of_lookup).
  destruct (Forall2_lookup_r _ _ _ _ _ (sl_groups _ _ _ _ _ _ Hsel) Hi) as (need & Hneed & Hg).
  exists need. split; [by eapply list_elem_of_lookup_2|by eapply group_sound_unit].
Qed.

Lemma quantity_u64_qty d a : is_u64 a = true → quantity_u64 (qty d a) = true.
Proof.
  intros Ha. unfold quantity_u64. apply forallb_elem. intros [k v] Hk%elem_of_bt_iter.
  unfold qty in Hk. apply lookup_singleton_Some in Hk as [_ <-]. done.
Qed.

Lemma need_unit_u64 need : quantity_u64 (need_quantity need) = true →
  quantity_u64 (need_unit need) = true.
Proof.
  intros Hu. unfold need_unit, consumable_quantity.
  destruct (is_consumable_need need); [|by apply quantity_u64_qty].
  case_bool_decide; [|done]. apply quantity_u64_qty. unfold quantity_get.
  destruct (need_quantity need !! Dim.Bytes) as [a|] eqn:Ha; [|done].
  unfold quantity_u64 in Hu. rewrite forallb_elem in Hu.
  apply (Hu (Dim.Bytes, a)). by apply elem_of_bt_iter.
Qed.

Lemma selected_u64 g occ request quarantine allocation picked :
  selected g occ request quarantine allocation picked → request_u64 request = true →
  claims_u64 (alloc_claims allocation) = true.
Proof.
  intros Hsel Hu. unfold claims_u64, request_u64 in *. rewrite forallb_elem in Hu. apply forallb_elem.
  intros cl Hcl. destruct (selected_claim _ _ _ _ _ _ _ Hsel Hcl) as (need & Hn & _ & ->).
  by apply need_unit_u64, Hu.
Qed.

(** Claims with a contract resolve to themselves. *)
Lemma resolve_contract g cl b :
  claim_binding_for_quantity g (claim_node cl) (claim_quantity cl) = Ok b →
  resolve_claim g cl = Ok cl.
Proof.
  intros Hb. pose proof (claim_binding_for_quantity_Ok _ _ _ _ Hb) as ([n Hn] & _ & d & Hd).
  unfold resolve_claim, graph_node. rewrite Hn. cbn [ok_or mbind result_bind].
  rewrite bool_decide_false; [rewrite Hb; by destruct cl|].
  intros He. rewrite He in Hd. unfold quantity_get in Hd. rewrite lookup_empty in Hd. simpl in Hd. lia.
Qed.

Lemma resolve_new_claims_id g (claims : list Claim) :
  NoDup (claim_node <$> claims) → (∀ cl, cl ∈ claims → resolve_claim g cl = Ok cl) →
  resolve_new_claims g claims = Ok claims.
Proof.
  intros Hnd Hres. unfold resolve_new_claims. set (step := λ (acc : list Claim * gset N) claim, _).
  assert (∀ (done : list Claim) (seen : gset N), (∀ n, n ∈ claim_node <$> claims → n ∉ seen) →
    ∃ seen', try_fold step (done, seen) claims = Ok (done ++ claims, seen')) as Hfold.
  { induction claims as [|cl claims IH]; intros done seen Hseen; simpl.
    { rewrite app_nil_r. eauto. }
    rewrite decide_False by (apply Hseen; by left). rewrite Hres by (by left).
    cbn [mbind result_bind]. apply NoDup_cons in Hnd as [Hni Hnd].
    destruct (IH Hnd ltac:(intros; apply Hres; by right) (done ++ [cl])
      ({[claim_node cl]} ∪ seen)) as [seen' Hs].
    { intros n Hn. apply not_elem_of_union. split; [|apply Hseen; by right].
      intros ->%elem_of_singleton. done. }
    exists seen'. rewrite Hs. by rewrite <-(assoc_L (++)). }
  destruct (Hfold [] ∅) as [seen' Hs]; [set_solver|]. by rewrite Hs.
Qed.

(** ** Blocked nodes *)

Lemma placement_blocked_spec c x :
  cluster_inv c → is_Some (g_nodes (c_graph c) !! x) →
  state_blocked c x = bool_decide (x ∈ placement_blocked c).
Proof.
  intros Hinv [n Hn]. symmetry. pose proof (wf_keys _ (ci_graph _ Hinv)) as Hkeys.
  apply eq_true_iff_eq. rewrite bool_decide_eq_true. unfold placement_blocked.
  rewrite elem_of_list_to_set, list_elem_of_fmap. setoid_rewrite list_elem_of_In.
  setoid_rewrite filter_In. setoid_rewrite <-list_elem_of_In. unfold graph_nodes, node_state, state_blocked.
  setoid_rewrite elem_of_bt_values. split.
  - intros (m & -> & (k & Hm) & Hb). rewrite (Hkeys _ _ Hm) in *. unfold graph_node in Hb.
    rewrite Hm in Hb. simpl in Hb. by destruct (c_node_states c !! k).
  - intros Hb. exists n. rewrite (Hkeys _ _ Hn). split_and!; [done|eauto|].
    unfold graph_node. rewrite Hn. simpl. by destruct (c_node_states c !! x).
Qed.

Lemma unblocked_not_quarantined c x :
  cluster_inv c → is_Some (g_nodes (c_graph c) !! x) →
  in_quarantine (c_graph c) (placement_blocked c) x = node_quarantined c x.
Proof.
  intros Hinv Hx. unfold in_quarantine, node_quarantined.
  rewrite (placement_blocked_spec c x Hinv Hx). f_equal.
  assert (∀ y, y ∈ ancestors (c_graph c) x → is_Some (g_nodes (c_graph c) !! y)) as Hanc
    by (intros y; apply ancestors_nodes, (ci_graph _ Hinv)).
  induction (ancestors (c_graph c) x) as [|y l IH]; [done|]. simpl.
  rewrite (placement_blocked_spec c y Hinv) by (apply Hanc; by left).
  f_equal. apply IH. intros z Hz. apply Hanc. by right.
Qed.

(** ** Placement feeds reservation *)

Lemma selected_reservable c request allocation picked id owner expires_at priority :
  cluster_inv c → c_agreed c = true → request_u64 request = true → c_leases c !! id = None →
  selected (c_graph c) (occupancy c) request (placement_blocked c) allocation picked →
  reserve_lease id owner allocation expires_at priority c
  = (set_leases (<[id := mkLease id owner allocation None expires_at 0 priority LReserved None]>
                   (c_leases c)) c, Ok []).
Proof.
  intros Hinv Ha Hu Hid Hsel.
  assert (∀ cl, cl ∈ alloc_claims allocation → ∃ need,
    claim_sound (c_graph c) (occupancy c) (placement_blocked c) need cl) as Hcl.
  { intros cl Hcl. destruct (selected_claim _ _ _ _ _ _ _ Hsel Hcl) as (need & _ & ? & _). eauto. }
  apply (reserve_lease_iff c id owner allocation expires_at priority _ _ Hinv
    (selected_u64 _ _ _ _ _ _ Hsel Hu) Hid).
  split_and!; [done|exact (sl_revision _ _ _ _ _ _ Hsel)|done|].
  exists (alloc_claims allocation). split_and!.
  - apply resolve_new_claims_id; [exact (sl_unique _ _ _ _ _ _ Hsel)|].
    intros cl (need & Hs)%Hcl. destruct (cs_contract _ _ _ _ _ Hs) as [b Hb].
    by eapply resolve_contract.
  - intros cl (need & Hs)%Hcl. destruct (cs_node _ _ _ _ _ Hs) as (n & Hn & _).
    rewrite <-unblocked_not_quarantined by eauto. apply Hs.
  - intros n d.
    pose proof (li_cap _ _ (ci_ledger _ Hinv) n d) as Hcap.
    assert (claims_amount (alloc_claims allocation) n d
      ≤ node_cap (c_graph c) n d - lg_total (ledger_of c) n d); [|lia].
    apply claims_amount_le. intros cl (need & Hs)%Hcl <-.
    apply cs_cover, can_cover_iff in Hs as [_ Hle]. etrans; [apply Hle|].
    unfold occupancy, occupancy_except. rewrite occupancy_exact by (done || set_solver). done.
  - by destruct allocation.
Qed.

(** Whatever a placement returns at the current state can be reserved. *)
Lemma placement_reservable `{!Placement place} c request allocation id owner expires_at priority :
  cluster_inv c → c_agreed c = true → request_u64 request = true → c_leases c !! id = None →
  place (c_graph c) (occupancy c) request (placement_blocked c) = Ok allocation →
  reserve_lease id owner allocation expires_at priority c
  = (set_leases (<[id := mkLease id owner allocation None expires_at 0 priority LReserved None]>
                   (c_leases c)) c, Ok []).
Proof.
  intros Hinv Ha Hr Hid Hplace.
  apply placement_meets in Hplace as [picked Hsel]; [|apply (ci_graph _ Hinv)].
  by apply (selected_reservable c request allocation picked).
Qed.

(** C10. Placement and the authority agree: in every reachable agreed
    cluster, an allocation returned by [Cluster::allocate] is accepted by
    [ReserveLease] under any unused lease id as long as no command came in
    between: the claims are stored as computed, in a Reserved root lease, and
    nothing else changes. *)
Theorem allocation_reservable (ops : list Op) (request : Request) (allocation : Allocation)
    (id : LeaseId) (owner : OwnerId) (expires_at : u64) (priority : N) :
  let c := run_ops ops in
  forallb op_u64 ops = true → c_agreed c = true → request_u64 request = true →
  c_leases c !! id = None → allocate c request = Ok allocation →
  dispatch (ReserveLease id owner allocation expires_at priority) c
  = (set_leases (<[id := mkLease id owner allocation None expires_at 0 priority LReserved None]>
                   (c_leases c)) c, Ok []).
Proof.
  intros c Hu Ha Hr Hid Halloc. pose proof (run_ops_inv ops Hu) as Hinv.
  exact (placement_reservable (place := select) c request allocation id owner expires_at priority
    Hinv Ha Hr Hid Halloc).
Qed.

(** ** Preemption plans *)

Lemma victim_leb_total x y : victim_leb x y = true ∨ victim_leb y x = true.
Proof.
  unfold victim_leb, cmp_then, cmp_leb.
  destruct (N.compare_spec (lease_priority x) (lease_priority y)),
    (N.compare_spec (lease_priority y) (lease_priority x)),
    (N.compare_spec (lease_id x) (lease_id y)), (N.compare_spec (lease_id y) (lease_id x)); auto; lia.
Qed.

Lemma victim_leb_spec x y :
  victim_leb x y = true ↔
  lease_priority x < lease_priority y
  ∨ lease_priority x = lease_priority y ∧ lease_id y ≤ lease_id x.
Proof.
  unfold victim_leb, cmp_then, cmp_leb.
  destruct (N.compare_spec (lease_priority x) (lease_priority y));
    destruct (N.compare_spec (lease_id y) (lease_id x)); split; (done || lia).
Qed.

Lemma elem_of_candidates c request l :
  l ∈ preemption_candidates c request ↔
  (∃ k, c_leases c !! k = Some l) ∧ lease_parent l = None
  ∧ lease_priority l < req_priority request ∧ occupies c (lease_id l) = true.
Proof.
  unfold preemption_candidates.
  rewrite elem_of_sort_by, list_elem_of_In, filter_In, <-list_elem_of_In, elem_of_bt_values.
  rewrite !andb_true_iff, bool_decide_eq_true, N.ltb_lt. naive_solver.
Qed.

(** The loop stops at the first prefix that makes room. *)
Lemma preempt_loop_spec c request rank cands victims steps :
  let plan := preempt_loop c request rank cands victims steps in
  match pp_outcome plan with
  | AlreadyFeasible => False
  | Planned => ∃ k, (k < length cands)%nat
      ∧ pp_victims plan = victims ++ take (S k) (lease_id <$> cands)
      ∧ feasible_without c request (pp_victims plan) = true
      ∧ ∀ j, (j < k)%nat →
          feasible_without c request (victims ++ take (S j) (lease_id <$> cands)) = false
  | NotFeasible => pp_victims plan = []
      ∧ ∀ j, (j < length cands)%nat →
          feasible_without c request (victims ++ take (S j) (lease_id <$> cands)) = false
  end.
Proof.
  revert rank victims steps. induction cands as [|l cands IH]; intros rank victims steps; cbv zeta.
  { cbn. split; [done|]. intros j Hj. lia. }
  cbn [preempt_loop]. destruct (feasible_without _ _ (victims ++ [lease_id l])) eqn:Hf.
  { cbn. exists 0%nat. split_and!; [lia|by rewrite take_0|done|]. intros j Hj. lia. }
  specialize (IH (S rank) (victims ++ [lease_id l])
    (steps ++ [mkPreemptionStep rank (lease_id l) (lease_owner l) (lease_priority l) false])).
  cbv zeta in IH. destruct (pp_outcome _).
  - done.
  - destruct IH as (k & Hk & Hv & Hok & Hmin). exists (S k). cbn [length fmap list_fmap take].
    split_and!; [lia|by rewrite Hv, <-(assoc_L (++))|exact Hok|].
    intros [|j] Hj; [exact Hf|]. specialize (Hmin j ltac:(lia)). rewrite <-(assoc_L (++)) in Hmin. cbn [app] in Hmin. exact Hmin.
  - destruct IH as [Hv Hmin]. split; [done|]. cbn [length fmap list_fmap take].
    intros [|j] Hj; [exact Hf|]. specialize (Hmin j ltac:(lia)). rewrite <-(assoc_L (++)) in Hmin. cbn [app] in Hmin. exact Hmin.
Qed.

(** Lowest priority first, and the newest lease first among equals. *)
Definition evicted_before (x y : Lease) : Prop :=
  lease_priority x < lease_priority y
  ∨ lease_priority x = lease_priority y ∧ lease_id y ≤ lease_id x.

Lemma candidates_sorted c request :
  StronglySorted evicted_before (preemption_candidates c request).
Proof.
  assert (StronglySorted (λ x y, victim_leb x y = true) (preemption_candidates c request)) as Hs.
  { apply sort_by_sorted; [apply victim_leb_total|].
    intros x y z. rewrite !victim_leb_spec. lia. }
  induction Hs as [|l ls _ IH Hl]; constructor; [done|].
  eapply Forall_impl; [exact Hl|]. intros x. by rewrite victim_leb_spec.
Qed.

(** Preemption plans are exact: a plan names no victim exactly when the
    request already places or cannot be placed; otherwise the victims are the
    shortest non-empty prefix of the candidates (every occupying root lease
    of strictly lower priority, cheapest and newest first) whose eviction,
    descendants included, lets [select] succeed; when the outcome is
    [NotFeasible] no prefix does. *)
Theorem preemption_plan_minimal (c : Cluster) (request : Request) :
  let plan := preemption_plan c request in
  let cands := preemption_candidates c request in
  StronglySorted evicted_before cands
  ∧ (∀ l, l ∈ cands ↔ (∃ k, c_leases c !! k = Some l) ∧ lease_parent l = None
       ∧ lease_priority l < req_priority request ∧ occupies c (lease_id l) = true)
  ∧ match pp_outcome plan with
    | AlreadyFeasible => is_ok (allocate c request) = true ∧ pp_victims plan = []
    | Planned => is_ok (allocate c request) = false
        ∧ ∃ k, (k < length cands)%nat ∧ pp_victims plan = take (S k) (lease_id <$> cands)
          ∧ feasible_without c request (pp_victims plan) = true
          ∧ ∀ j, (j < k)%nat →
              feasible_without c request (take (S j) (lease_id <$> cands)) = false
    | NotFeasible => is_ok (allocate c request) = false ∧ pp_victims plan = []
        ∧ ∀ j, (j < length cands)%nat →
            feasible_without c request (take (S j) (lease_id <$> cands)) = false
    end.
Proof.
  intros plan cands. split_and!; [apply candidates_sorted|apply elem_of_candidates|].
  unfold plan, preemption_plan. fold (allocate c request).
  destruct (is_ok (allocate c request)); [by split|].
  pose proof (preempt_loop_spec c request 0 cands [] []) as Hspec. cbv zeta in Hspec. fold cands.
  destruct (pp_outcome _); [done| |]; by split.
Qed.

(** ** Realising a plan *)

Lemma bt_values_filter (f : Lease → bool) (m : gmap N Lease) :
  List.filter f (bt_values m) = bt_values (filter (λ kv, f kv.2 = true) m).
Proof.
  unfold bt_values. transitivity ((List.filter (λ p : N * Lease, f p.2) (bt_iter m)).*2).
  { induction (bt_iter m) as [|p l IH]; [done|]. cbn. rewrite IH. by destruct (f p.2). }
  f_equal. apply (sorted_perm_unique (λ p q : N * Lease, bleb p.1 q.1)).
  - intros [k v] [k' v'] Hv Hv' Hle Hge. simpl in *.
    assert (k = k') as -> by (by apply bleb_antisym).
    rewrite list_elem_of_In, filter_In, <-list_elem_of_In, elem_of_bt_iter in Hv.
    rewrite list_elem_of_In, filter_In, <-list_elem_of_In, elem_of_bt_iter in Hv'. naive_solver.
  - pose proof (bt_iter_sorted m) as Hs. induction Hs as [|p l Hl IH Hp]; [constructor|].
    cbn. destruct (f p.2); [|done]. constructor; [done|]. apply List.Forall_forall.
    rewrite List.Forall_forall in Hp. intros q [Hq _]%filter_In. by apply Hp.
  - apply bt_iter_sorted.
  - apply NoDup_Permutation.
    + apply NoDup_ListNoDup, List.NoDup_filter, NoDup_ListNoDup. rewrite bt_iter_perm.
      apply NoDup_map_to_list.
    + rewrite bt_iter_perm. apply NoDup_map_to_list.
    + intros [k v]. rewrite list_elem_of_In, filter_In, <-list_elem_of_In, !elem_of_bt_iter.
      by rewrite map_lookup_filter_Some.
Qed.

(** Occupancy only depends on the leases that occupy. *)
Lemma occupancy_from_leases_ext (m m' : gmap N Lease) ob ob' ex ex' :
  filter (λ kv, occupying_in ob ex kv.2 = true) m
  = filter (λ kv, occupying_in ob' ex' kv.2 = true) m' →
  occupancy_from_leases (bt_values m) ob ex = occupancy_from_leases (bt_values m') ob' ex'.
Proof.
  intros Heq. unfold occupancy_from_leases.
  change (λ lease, negb (bool_decide (lease_id lease ∈ ex)) && _) with (occupying_in ob ex).
  change (λ lease, negb (bool_decide (lease_id lease ∈ ex')) && _) with (occupying_in ob' ex').
  by rewrite !bt_values_filter, Heq.
Qed.

(** The cluster [c'] is [c] with the leases of [gone] ended and fenced. *)
Record evicted (c c' : Cluster) (gone : gset N) : Prop := {
  ev_graph : c_graph c' = c_graph c;
  ev_states : c_node_states c' = c_node_states c;
  ev_gone : ∀ id, id ∈ gone → occupies c' id = false;
  ev_rest : ∀ id, id ∉ gone →
    c_leases c' !! id = c_leases c !! id ∧ open_bindings c' id = open_bindings c id;
}.

Lemma evicted_occupancy c c' gone :
  keyed (c_leases c) → keyed (c_leases c') → evicted c c' gone →
  occupancy c' = occupancy_except c gone.
Proof.
  intros Hk Hk' Hev. unfold occupancy, occupancy_except.
  apply occupancy_from_leases_ext. apply map_eq. intros id.
  apply option_eq. intros l. rewrite !map_lookup_filter_Some. cbn [snd].
  unfold occupying_in. rewrite !(open_bindings_decide c), !(open_bindings_decide c').
  destruct (decide (id ∈ gone)) as [Hin|Hout].
  - split; intros [Hl Ho].
    + pose proof (ev_gone _ _ _ Hev id Hin) as Hno. unfold occupies in Hno.
      rewrite Hl in Hno. by rewrite Hno, andb_false_r in Ho.
    + rewrite (Hk _ _ Hl), bool_decide_true in Ho by done. done.
  - destruct (ev_rest _ _ _ Hev id Hout) as [Hsame Hopen]. rewrite Hsame.
    split; intros [Hl Ho]; (split; [done|]); rewrite (Hk _ _ Hl) in *.
    + rewrite bool_decide_false by done. by rewrite Hopen, bool_decide_false in Ho by set_solver.
    + rewrite bool_decide_false by set_solver. by rewrite Hopen; rewrite bool_decide_false in Ho.
Qed.

(** C14. A preemption plan delivers: once every planned victim and everything
    below it has stopped occupying (revoked and all bindings fenced) while
    the rest of the cluster is as it was, the request that was refused
    places. *)
Theorem planned_preemption_delivers (ops ops' : list Op) (request : Request) :
  let c := run_ops ops in
  let c' := run_ops ops' in
  let plan := preemption_plan c request in
  forallb op_u64 ops = true → forallb op_u64 ops' = true →
  pp_outcome plan = Planned → evicted c c' (victim_closure c (pp_victims plan)) →
  is_ok (allocate c request) = false ∧ is_ok (allocate c' request) = true.
Proof.
  intros c c' plan Hu Hu' Hplan Hev.
  pose proof (preempt_loop_spec c request 0 (preemption_candidates c request) [] []) as Hspec.
  cbv zeta in Hspec. unfold plan, preemption_plan in *. fold (allocate c request) in *.
  destruct (is_ok (allocate c request)); [done|]. split; [done|].
  rewrite Hplan in Hspec. destruct Hspec as (_ & _ & _ & Hok & _).
  unfold feasible_without in Hok. unfold allocate.
  pose proof (evicted_occupancy c c' _ (ci_keyed _ (run_ops_inv _ Hu))
    (ci_keyed _ (run_ops_inv _ Hu')) Hev) as Hocc.
  assert (placement_blocked c' = placement_blocked c) as Hb.
  { unfold placement_blocked, node_state. by rewrite (ev_graph _ _ _ Hev), (ev_states _ _ _ Hev). }
  rewrite (ev_graph _ _ _ Hev), Hb, Hocc. exact Hok.
Qed.

(** ** Backfill never delays a blocked head *)

Definition new_lease (id : LeaseId) (owner : OwnerId) (a : Allocation) (expires_at : u64)
    (priority : N) : Lease := mkLease id owner a None expires_at 0 priority LReserved None.

Lemma claims_amount_elsewhere claims n d :
  (∀ cl, cl ∈ claims → claim_node cl ≠ n) → claims_amount claims n d = 0.
Proof.
  intros Hn. apply N.le_0_r, claims_amount_le. intros cl Hcl Heq. by destruct (Hn cl Hcl).
Qed.

(** The projection at [t] with the new lease charges a node of the head as
    the projection without it did. *)
Lemma projected_same c id owner a expires_at priority t n d :
  cluster_inv c → c_leases c !! id = None →
  expires_at ≤ t ∨ n ∉ allocation_nodes a →
  let leases' := <[id := new_lease id owner a expires_at priority]> (c_leases c) in
  occ_amount (occupancy_from_leases (bt_values leases') (open_binding_leases c)
                (freed_by leases' t)) n d
  = occ_amount (occupancy_from_leases (bt_values (c_leases c)) (open_binding_leases c)
                  (freed_by (c_leases c) t)) n d.
Proof.
  intros Hinv Hid Hor leases'. pose proof (ci_keyed _ Hinv) as Hk.
  assert (keyed leases') as Hk'.
  { intros k l. unfold leases'. rewrite lookup_insert. case_decide; [|apply Hk].
    intros [= <-]. by subst. }
  rewrite !occupancy_amount by done. f_equal. apply total_used_insert; try done.
  - intros k x Hx Hp.
    apply (fresh_not_parent (node_cap (c_graph c)) (ledger_of c) id k (lease_core x));
      [apply (ci_ledger _ Hinv)|cbn; by rewrite lookup_fmap, Hid|cbn; by rewrite lookup_fmap, Hx|done].
  - intros k Hne. rewrite !elem_of_freed by done. unfold leases'. by rewrite lookup_insert_ne.
  - unfold charge_of. destruct (charged_in _ _ _ _) eqn:Hch; [|done].
    destruct Hor as [Ht|Hn].
    + unfold charged_in, occupying_in in Hch. rewrite bool_decide_true in Hch; [done|].
      apply elem_of_freed; [done|]. exists (new_lease id owner a expires_at priority).
      unfold leases'. by rewrite lookup_insert_eq.
    + apply claims_amount_elsewhere. intros cl Hcl Heq. apply Hn, allocation_nodes_spec. eauto.
Qed.

(** What a timed head needs stays free at its shadow time. *)
Lemma head_still_covered c quarantine request id owner a expires_at priority t alloc cl :
  cluster_inv c → c_leases c !! id = None →
  select_without (c_graph c) quarantine (c_leases c) (open_binding_leases c) request
    (freed_by (c_leases c) t) = Ok alloc →
  expires_at ≤ t ∨ allocation_nodes a ## allocation_nodes alloc →
  cl ∈ alloc_claims alloc →
  let leases' := <[id := new_lease id owner a expires_at priority]> (c_leases c) in
  can_cover (occupancy_from_leases (bt_values leases') (open_binding_leases c)
               (freed_by leases' t)) (c_graph c) cl = Ok true.
Proof.
  intros Hinv Hid Hsel Hor Hcl leases'.
  apply (placement_meets (place := select)) in Hsel as [picked Hs]; [|apply (ci_graph _ Hinv)].
  destruct (selected_claim _ _ _ _ _ _ _ Hs Hcl) as (need & _ & Hsound & _).
  apply cs_cover, can_cover_iff in Hsound as [Hnode Hle]. apply can_cover_iff. split; [done|].
  intros d. rewrite (projected_same c id owner a expires_at priority t); [apply Hle|done|done|].
  destruct Hor as [?|Hdis]; [by left|right]. intros Hin.
  apply (Hdis (claim_node cl)); [done|]. apply allocation_nodes_spec. eauto.
Qed.

(** The head a request became, with a finite shadow, comes from a placement
    projected at that time. *)
Lemma blocks_timed graph occ quarantine exclusions policy ctx usage q head t :
  blocks graph occ quarantine exclusions policy ctx usage q = Some head →
  bh_shadow head = Some t →
  ∃ alloc, bh_claims head = allocation_nodes alloc
    ∧ select_without graph (quarantine ∪ hard_exclusions exclusions q) (bf_leases ctx)
        (bf_open_bindings ctx) (q_request q) (freed_by (bf_leases ctx) t) = Ok alloc.
Proof.
  unfold blocks, blocked_head. destruct (_ && _); [|discriminate].
  destruct (select _ _ _ (hard_exclusions exclusions q)); [intros [= <-]; discriminate|].
  apply shadow_head_timed.
Qed.

(** C12. Backfill never delays a blocked head with a proven start: when
    [admit_backfill] admits a request, every request in front of it that was
    blocked with a finite shadow time still finds the whole capacity of its
    shadow placement at that time, also after the admitted request is
    reserved with its requested lifetime. *)
Theorem backfill_never_delays (ops : list Op) (queue : list Queued) (policy : AdmissionPolicy)
    (exclusions : RequestExclusions) (a : Admission) (id : LeaseId) (priority : N) :
  let c := run_ops ops in
  let usage := owner_usage (c_graph c) (c_leases c) (open_binding_leases c) in
  let order := order_queue_with_policy queue usage (claimable_capacity (c_graph c)) policy in
  let expires_at := sat_add (c_now c) (req_lifetime (adm_request a)) in
  let leases' := <[id := new_lease id (adm_owner a) (adm_allocation a) expires_at priority]>
                   (c_leases c) in
  forallb op_u64 ops = true → c_leases c !! id = None →
  cluster_admit_backfill_with_policy c queue policy exclusions = Some a →
  ∃ before queued after, order = before ++ queued :: after ∧ adm_request a = q_request queued
    ∧ ∀ q head t, q ∈ before →
        blocks (c_graph c) (occupancy c) (placement_blocked c) exclusions policy
          (backfill_ctx c) usage q = Some head →
        bh_shadow head = Some t →
        ∃ alloc, select_without (c_graph c) (placement_blocked c ∪ hard_exclusions exclusions q)
            (c_leases c) (open_binding_leases c) (q_request q) (freed_by (c_leases c) t) = Ok alloc
          ∧ ∀ cl, cl ∈ alloc_claims alloc →
              can_cover (occupancy_from_leases (bt_values leases') (open_binding_leases c)
                           (freed_by leases' t)) (c_graph c) cl = Ok true.
Proof.
  intros c usage order expires_at leases' Hu Hid Hadm.
  pose proof (run_ops_inv ops Hu) as Hinv.
  pose proof (backfill_loop_spec (c_graph c) (occupancy c) (placement_blocked c) exclusions policy
    (backfill_ctx c) usage order [] 0 (build_admission_trace order usage
      (claimable_capacity (c_graph c)) policy)) as Hspec.
  change (backfill_loop _ _ _ _ _ _ _ _ _ _ _).1
    with (cluster_admit_backfill_with_policy c queue policy exclusions) in Hspec.
  rewrite Hadm in Hspec.
  destruct Hspec as (before & queued & after & Horder & _ & _ & Hreq & _ & _ & Hsafe).
  exists before, queued, after. split_and!; [done|done|].
  intros q head t Hq Hblk Ht. destruct (blocks_timed _ _ _ _ _ _ _ _ _ _ Hblk Ht) as (alloc & Hcl & Hsel).
  exists alloc. split; [exact Hsel|]. intros cl Hin.
  eapply (head_still_covered c); [exact Hinv|exact Hid|exact Hsel| |exact Hin].
  unfold backfill_safe, heads in Hsafe. rewrite forallb_elem in Hsafe.
  specialize (Hsafe head). cbn [app] in Hsafe. specialize (Hsafe ltac:(apply list_elem_of_omap; eauto)).
  unfold head_safe in Hsafe. rewrite Ht in Hsafe. unfold expires_at. rewrite Hreq, <-Hcl.
  apply orb_prop in Hsafe as [Hle%N.leb_le|Hdis%bool_decide_eq_true]; [by left|right].
  intros n Hn Hn'. apply (Hdis n); [|done]. apply allocation_nodes_spec in Hn as (x & Hx & <-).
  apply elem_of_list_to_set, list_elem_of_fmap. eauto.
Qed.

(** ** Ceilings *)

Lemma owner_total_insert g leases ob id owner a expires_at priority kind d :
  leases !! id = None →
  owner_total g (<[id := new_lease id owner a expires_at priority]> leases) ob owner kind d
  = class_amount g (alloc_claims a) kind d + owner_total g leases ob owner kind d.
Proof.
  intros Hid. unfold owner_total.
  rewrite (total_perm _ _ (new_lease id owner a expires_at priority :: bt_values leases)).
  - cbn [total foldr]. unfold counts at 1. cbn. rewrite N.eqb_refl. done.
  - unfold bt_values. rewrite !bt_iter_perm, map_to_list_insert by done. done.
Qed.

Lemma affordable_within_ceiling `{!Placement place} c policy queued a quarantine id expires_at priority kind ceiling d :
  let usage := owner_usage (c_graph c) (c_leases c) (open_binding_leases c) in
  let exact := owner_total (c_graph c) (c_leases c) (open_binding_leases c) (q_owner queued) kind d in
  cluster_inv c → c_leases c !! id = None → affordable policy usage queued = true →
  place (c_graph c) (occupancy c) (q_request queued) quarantine = Ok a →
  pol_owner_ceiling policy !! kind = Some ceiling →
  exact + charge_total (req_needs (q_request queued)) kind d < u64_modulus →
  owner_total (c_graph c) (<[id := new_lease id (q_owner queued) a expires_at priority]> (c_leases c))
    (open_binding_leases c) (q_owner queued) kind d ≤ quantity_get ceiling d.
Proof.
  intros usage exact Hinv Hid Haff Hsel Hceil Hfit.
  apply placement_meets in Hsel as [picked Hs]; [|apply (ci_graph _ Hinv)].
  rewrite owner_total_insert, (granted_charge _ _ _ _ _ _ _ _ Hs), N.add_comm by done.
  eapply within_budget_sound; [exact Haff|exact Hceil|apply owner_usage_cong|exact Hfit].
Qed.

(** The request behind an admission, plain or backfilled. *)
Lemma admission_affordable c queue policy exclusions a :
  let usage := owner_usage (c_graph c) (c_leases c) (open_binding_leases c) in
  cluster_admit_with_policy c queue policy = Some a
  ∨ cluster_admit_backfill_with_policy c queue policy exclusions = Some a →
  ∃ queued quarantine, affordable policy usage queued = true
    ∧ adm_request a = q_request queued ∧ adm_owner a = q_owner queued
    ∧ select (c_graph c) (occupancy c) (q_request queued) quarantine = Ok (adm_allocation a).
Proof.
  intros usage.
  set (order := order_queue_with_policy queue usage (claimable_capacity (c_graph c)) policy).
  set (entries := build_admission_trace order usage (claimable_capacity (c_graph c)) policy).
  intros [Hadm|Hadm].
  - pose proof (admit_loop_first_fit (c_graph c) (occupancy c) (placement_blocked c) policy usage
      order [] entries (length_imap _ _)) as Hspec.
    change (admit_loop _ _ _ _ _ _ _ _) with (admit_with_policy_explained (c_graph c) (occupancy c)
      (placement_blocked c) policy queue (c_leases c) (open_binding_leases c)) in Hspec.
    unfold cluster_admit_with_policy, admit_with_policy in Hadm.
    destruct (admit_with_policy_explained _ _ _ _ _ _ _) as [o trace]. cbn in Hadm. subst o.
    destruct Hspec as (before & queued & after & outcomes & _ & _ & (Haff & Hreq & Hown & Hsel) & _).
    exists queued, (placement_blocked c). split_and!; [done|done|done|exact Hsel].
  - pose proof (backfill_loop_spec (c_graph c) (occupancy c) (placement_blocked c) exclusions policy
      (backfill_ctx c) usage order [] 0 entries) as Hspec.
    change (backfill_loop _ _ _ _ _ _ _ _ _ _ _).1
      with (cluster_admit_backfill_with_policy c queue policy exclusions) in Hspec.
    rewrite Hadm in Hspec.
    destruct Hspec as (before & queued & after & _ & _ & Haff & Hreq & Hown & Hsel & _).
    exists queued, (placement_blocked c ∪ hard_exclusions exclusions queued).
    split_and!; [done|done|done|exact Hsel].
Qed.

(** C13. Admission keeps owners within their ceilings: in every reachable
    cluster, when plain or backfill admission admits a request, its owner's
    exact usage of every class with a ceiling (the claims of its occupying
    root leases), with the new lease reserved, is within that ceiling,
    provided the sum of the old usage and the request's charges fits in
    [u64]. *)
Theorem admitted_within_ceiling (ops : list Op) (queue : list Queued) (policy : AdmissionPolicy)
    (exclusions : RequestExclusions) (a : Admission) (id : LeaseId) (expires_at : u64)
    (priority : N) (kind : ResourceClass) (ceiling : Quantity) (d : CapacityDimension) :
  let c := run_ops ops in
  let used := owner_total (c_graph c) (c_leases c) (open_binding_leases c) (adm_owner a) kind d in
  forallb op_u64 ops = true → c_leases c !! id = None →
  (cluster_admit_with_policy c queue policy = Some a
   ∨ cluster_admit_backfill_with_policy c queue policy exclusions = Some a) →
  pol_owner_ceiling policy !! kind = Some ceiling →
  used + charge_total (req_needs (adm_request a)) kind d < u64_modulus →
  owner_total (c_graph c)
    (<[id := new_lease id (adm_owner a) (adm_allocation a) expires_at priority]> (c_leases c))
    (open_binding_leases c) (adm_owner a) kind d ≤ quantity_get ceiling d.
Proof.
  intros c used Hu Hid Hadm Hceil Hfit. pose proof (run_ops_inv ops Hu) as Hinv.
  destruct (admission_affordable c queue policy exclusions a Hadm)
    as (queued & quarantine & Haff & Hreq & Hown & Hsel).
  unfold used in Hfit. rewrite Hreq, Hown in *.
  eapply (affordable_within_ceiling (place := select) c policy queued); [exact Hinv|exact Hid|exact Haff|exact Hsel|
    exact Hceil|exact Hfit].
Qed.
