(* ===== verification/Scenario.v ===== *)
(** * A concrete history

    One machine with a GPU of eight shareable units and an exclusive NIC:
    facts, an agent session, a root lease with its bindings, a child lease,
    a reservation, and teardown.  The theorems of the development are applied
    to it, which shows that their hypotheses are met by real runs. *)

From S2P Require Import Prelude.
From S2P Require Import Identifier.
From S2P Require Import Types.
From S2P Require Import Graph.
From S2P Require Import GraphFacts.
From S2P Require Import Occupancy.
From S2P Require Import Command.
From S2P Require Import Cluster.
From S2P Require Import Ledger.
From S2P Require Import LeaseTree.
From S2P Require Import Handlers.
From S2P Require Import ClusterInv.
From S2P Require Import Steps.
From S2P Require Import Safety.
From S2P Require Import Authority.
From S2P Require Import Bindings.
From S2P Require Import Leases.
From S2P Require Import Replay.

Definition count (n : N) : Quantity := qty Dim.Count n.

Definition machine : Node := mkNode 1 Class.Machine ∅ ∅.
Definition gpu : Node := mkNode 2 Class.Gpu ∅ (count 8).
Definition nic : Node := mkNode 3 Class.Nic ∅ (count 1).

Definition facts : Op :=
  OpApply (ApplyResourceFacts [machine; gpu; nic]
    [mkEdge 1 2 Contains ∅; mkEdge 1 3 Contains ∅]
    [mkUpdate 2 Dim.Count (Some (mkClaimBinding ENFORCE IndependentShare));
     mkUpdate 3 Dim.Count (Some (mkClaimBinding ENFORCE Exclusive))]).

Definition alloc (claims : list Claim) : Allocation :=
  mkAllocation claims 1 (mkExplanation "" []).

(** Facts and the machine's agent. *)
Definition boot : list Op := [OpNow 10; facts; OpApply (SetAgentSession 1 7)].

(** A root lease on five GPU units and the NIC, with prepared bindings. *)
Definition root_claims : list Claim := [mkClaim 2 (count 5); mkClaim 3 (count 1)].
Definition open_root : Command := OpenLease 100 1 (alloc root_claims) None 50 20 0.
Definition prepare : list Op :=
  [OpApply open_root; OpApply (OpenBinding 200 100 2 ENFORCE IndependentShare);
   OpApply (OpenBinding 201 100 3 ENFORCE Exclusive);
   OpApply (RecordBindingPrepared 200 7 1000 200); OpApply (RecordBindingPrepared 201 7 1001 1)].

Definition ready : list Op := boot ++ prepare.

(** Activation, a child on two of the units, and a reservation of the rest. *)
Definition open_child : Command :=
  OpenLease 101 1 (alloc [mkClaim 2 (count 2)]) (Some 100) 50 20 0.
Definition reserve_rest : Command := ReserveLease 102 2 (alloc [mkClaim 2 (count 3)]) 60 0.

Definition active : list Op :=
  ready ++ [OpApply (ActivateLease 100); OpApply open_child; OpApply reserve_rest].

(** Revocation; then the agent acknowledges. *)
Definition revoked : list Op := active ++ [OpApply (RevokeLease 100)].
Definition closed : list Op :=
  revoked ++ [OpApply (RecordBindingFenced 200 7 200); OpApply (RecordBindingReleased 201 7 1)].

Ltac evaluate := vm_compute; reflexivity.

Lemma at_boot : cluster_inv (run_ops boot).
Proof. apply run_ops_inv. evaluate. Qed.
Lemma at_ready : cluster_inv (run_ops ready).
Proof. apply run_ops_inv. evaluate. Qed.
Lemma at_active : cluster_inv (run_ops active).
Proof. apply run_ops_inv. evaluate. Qed.

(** The run goes through, and capacity is occupied until the last ack. *)
Example active_states :
  lease_state <$> (c_leases (run_ops active) !! 100) = Some LActive
  ∧ lease_state <$> (c_leases (run_ops active) !! 101) = Some LPreparing
  ∧ lease_state <$> (c_leases (run_ops active) !! 102) = Some LReserved
  ∧ occ_amount (occupancy (run_ops active)) 2 Dim.Count = 8
  ∧ occ_amount (occupancy (run_ops revoked)) 2 Dim.Count = 8
  ∧ occ_amount (occupancy (run_ops closed)) 2 Dim.Count = 3.
Proof. vm_compute. repeat split. Qed.

(** ** Applying the theorems *)

(** A command run at a state, split into its result. *)
Abbreviation after cmd ops := (dispatch cmd (run_ops ops)).1 (only parsing).

Lemma reachable_no_overcommit_witness :
  occ_amount (occupancy (run_ops active)) 2 Dim.Count
    = total_used (c_leases (run_ops active)) (open_binding_leases (run_ops active)) ∅ 2 Dim.Count
  ∧ occ_amount (occupancy (run_ops active)) 2 Dim.Count
    ≤ node_cap (c_graph (run_ops active)) 2 Dim.Count.
Proof. apply (reachable_no_overcommit active 2 Dim.Count). evaluate. Defined.

Lemma dispatch_refines_authority_witness :
  rtc astep (authority_of (run_ops active))
    (authority_of (after (RevokeLease 100) active))
  ∧ cluster_inv (after (RevokeLease 100) active).
Proof.
  apply (dispatch_refines_authority (run_ops active) (RevokeLease 100) _
    [EffFence 200 2 1 200 7 1; EffFence 201 3 1 1 7 1]); [apply at_active|evaluate..].
Defined.

Lemma dispatch_error_atomic_witness :
  after (ReserveLease 103 2 (alloc [mkClaim 2 (count 1)]) 60 0) active = run_ops active.
Proof.
  apply (dispatch_error_atomic (run_ops active)
    (ReserveLease 103 2 (alloc [mkClaim 2 (count 1)]) 60 0) _ (Overlap 2));
    [apply at_active|evaluate].
Defined.

Definition lease_at (ops : list Op) (k : N) : Lease :=
  default (mkLease 0 0 (alloc []) None 0 0 0 LFailed None) (c_leases (run_ops ops) !! k).
Definition binding_at (ops : list Op) (k : N) : Binding :=
  default (mkBinding 0 0 0 0 Exclusive 0 0 BFailed None) (c_bindings (run_ops ops) !! k).

Lemma reachable_children_contained_witness :
  lg_kids (ledger_of (run_ops active)) 100 2 Dim.Count
    ≤ claims_amount (lease_claims (lease_at active 100)) 2 Dim.Count
  ∧ (∀ k l, c_leases (run_ops active) !! k = Some l → lease_parent l = Some 100 →
       occupies (run_ops active) k = true →
       occupies (run_ops active) 100 = true ∨ lease_parent (lease_at active 100) = None).
Proof. apply (reachable_children_contained active 100 (lease_at active 100)); evaluate. Defined.

(** Two shares of the GPU held by different leases. *)
Definition two_shares : list Op :=
  boot ++ [OpApply (OpenLease 100 1 (alloc [mkClaim 2 (count 4)]) None 50 20 0);
           OpApply (OpenLease 101 1 (alloc [mkClaim 2 (count 4)]) None 50 20 0);
           OpApply (OpenBinding 200 100 2 ENFORCE IndependentShare);
           OpApply (OpenBinding 201 101 2 ENFORCE IndependentShare)].

Lemma reachable_exclusive_endpoint_witness :
  binding_scope (binding_at two_shares 200) = IndependentShare
  ∧ binding_scope (binding_at two_shares 201) = IndependentShare.
Proof.
  apply (reachable_exclusive_endpoint two_shares 200 201); try evaluate. discriminate.
Defined.

Lemma lease_history_witness :
  ∃ l', c_leases (run_ops (revoked ++ [OpApply (FailLease 100 "late")])) !! 100 = Some l'
    ∧ same_lease (lease_at revoked 100) l'
    ∧ (is_live_state (lease_state (lease_at revoked 100)) = false →
       is_live_state (lease_state l') = false)
    ∧ (ended (lease_state (lease_at revoked 100)) = true →
       lease_state l' = lease_state (lease_at revoked 100)).
Proof. apply (lease_history revoked [OpApply (FailLease 100 "late")]); evaluate. Defined.

Lemma binding_history_witness :
  ∃ b', c_bindings (run_ops (closed ++ [OpApply (RecordBindingFenced 201 7 1)])) !! 201 = Some b'
    ∧ same_binding (binding_at closed 201) b'
    ∧ (is_closed (binding_state (binding_at closed 201)) = true →
       is_closed (binding_state b') = true).
Proof. apply (binding_history closed [OpApply (RecordBindingFenced 201 7 1)]); evaluate. Defined.

Lemma control_history_witness :
  (∀ m s, c_sessions (run_ops boot) !! m = Some s →
     ∃ s', c_sessions (run_ops (boot ++ prepare)) !! m = Some s' ∧ s ≤ s')
  ∧ g_revision (c_graph (run_ops boot)) ≤ g_revision (c_graph (run_ops (boot ++ prepare)))
  ∧ (∀ n, node_state (run_ops boot) n = Some NRetired →
          node_state (run_ops (boot ++ prepare)) n = Some NRetired).
Proof. apply (control_history boot prepare). evaluate. Defined.

Lemma binding_closes_only_by_ack_witness :
  ∃ session m,
    machine_of (c_graph (run_ops revoked)) (binding_node (binding_at revoked 200)) = Some m
    ∧ c_sessions (run_ops revoked) !! m = Some session
    ∧ (RecordBindingFenced 200 7 200
         = RecordBindingReleased 200 session (binding_fence (binding_at revoked 200))
       ∨ RecordBindingFenced 200 7 200
         = RecordBindingFenced 200 session (binding_fence (binding_at revoked 200))).
Proof.
  apply (binding_closes_only_by_ack (run_ops revoked) (RecordBindingFenced 200 7 200)
    (after (RecordBindingFenced 200 7 200) revoked) [] 200 (binding_at revoked 200)
    (binding_with_state BFenced (binding_at revoked 200)));
    [apply run_ops_inv; evaluate|evaluate..].
Defined.

Lemma open_binding_occupies_witness :
  occupies (after (CompleteLease 100 0) active) 100 = true.
Proof.
  apply (open_binding_occupies (run_ops active) (CompleteLease 100 0)
    (after (CompleteLease 100 0) active)
    [EffFence 200 2 1 200 7 1; EffFence 201 3 1 1 7 1] 200 (binding_at active 200));
    [apply at_active|evaluate|evaluate|evaluate|evaluate|done].
Defined.

Definition leased : list Op := boot ++ [OpApply open_root].

Lemma leased_fences : fence_inv (run_ops leased).
Proof.
  assert (c_bindings (run_ops leased) = ∅) as He by evaluate.
  split; intros; rewrite He in *; simplify_map_eq.
Qed.

Lemma exclusive_fences_increase_witness :
  let cmd := OpenBinding 201 100 3 ENFORCE Exclusive in
  let c' := after cmd leased in
  fence_inv c'
  ∧ ∀ k b, c_bindings c' !! k = Some b → c_bindings (run_ops leased) !! k = None →
      binding_scope b = Exclusive →
      binding_fence b = watermark (run_ops leased) (binding_provider b) (binding_node b) + 1
      ∧ ∀ j b0, c_bindings (run_ops leased) !! j = Some b0 → binding_scope b0 = Exclusive →
          binding_provider b0 = binding_provider b → binding_node b0 = binding_node b →
          binding_fence b0 < binding_fence b.
Proof.
  cbv zeta. apply (exclusive_fences_increase (run_ops leased)
    (OpenBinding 201 100 3 ENFORCE Exclusive)
    (after (OpenBinding 201 100 3 ENFORCE Exclusive) leased) [EffPrepare 201 3 1 1 7 1]).
  - apply run_ops_inv. evaluate.
  - evaluate.
  - apply leased_fences.
  - intros id lease node provider [= <- <- <- <-]. evaluate.
  - evaluate.
Defined.

(** The watermark of the NIC pushed to the end of the range. *)
Definition exhausted : list Op := leased ++ [OpApply (AdvanceEndpointFence 3 ENFORCE u64_max)].

Lemma exclusive_fence_wraps_witness :
  (next_fence (run_ops exhausted) 201 3 ENFORCE Exclusive).1 = 0.
Proof. apply (exclusive_fence_wraps (run_ops exhausted) 201 3 ENFORCE). evaluate. Defined.

Lemma reserve_lease_exact_witness :
  reserve_lease 102 2 (alloc [mkClaim 2 (count 3)]) 60 0 (run_ops ready)
  = (set_leases (<[102 := mkLease 102 2 (alloc [mkClaim 2 (count 3)]) None 60 0 0 LReserved None]>
       (c_leases (run_ops ready))) (run_ops ready), Ok []).
Proof.
  apply (reserve_lease_exact (run_ops ready) 102 2 (alloc [mkClaim 2 (count 3)]) 60 0);
    [apply at_ready|evaluate|evaluate|].
  split_and!; [evaluate|evaluate|done|]. exists [mkClaim 2 (count 3)]. split_and!; [evaluate| | |done].
  - intros cl ->%list_elem_of_singleton. evaluate.
  - apply (check_cover_fits (run_ops ready) 102); [apply at_ready|evaluate..].
Defined.

Lemma activate_lease_checked_witness :
  let l := lease_at ready 100 in let c := run_ops ready in
  set_leases (<[100 := lease_with_state LActive l]> (c_leases c)) c
    = set_leases (<[100 := lease_with_state LActive l]> (c_leases c)) c ∧ @nil Effect = []
  ∧ alloc_graph_revision (lease_allocation l) = g_revision (c_graph c)
  ∧ (∀ cl, cl ∈ lease_claims l → node_quarantined c (claim_node cl) = false)
  ∧ (c_replaying c = false → c_now c < lease_expires_at l ∧ c_now c ≤ lease_prepare_deadline l)
  ∧ (∀ k b, c_bindings c !! k = Some b → binding_lease b = 100 → binding_prepared b = true)
  ∧ match lease_parent l with
    | Some p => ∃ lp, c_leases c !! p = Some lp ∧ lease_state lp = LActive
    | None => ∀ cl, cl ∈ lease_claims l → ∃ k b, c_bindings c !! k = Some b
                ∧ binding_lease b = 100 ∧ binding_node b = claim_node cl
                ∧ binding_prepared b = true
    end.
Proof.
  cbv zeta. apply (activate_lease_checked (run_ops ready) 100); [apply at_ready|evaluate..].
Defined.

Lemma terminated_tree_witness :
  let c := run_ops active in let c' := after (RevokeLease 100) active in
  (∀ k, k = 100 ∨ under (c_leases c) 100 k → ∃ l l', c_leases c !! k = Some l
     ∧ c_leases c' !! k = Some l' ∧ same_lease l l' ∧ is_live_state (lease_state l') = false)
  ∧ (∀ k, k ≠ 100 → ¬ under (c_leases c) 100 k → c_leases c' !! k = c_leases c !! k)
  ∧ c_bindings c' = c_bindings c
  ∧ (∀ e, e ∈ [EffFence 200 2 1 200 7 1; EffFence 201 3 1 1 7 1] ↔ ∃ j b, c_bindings c !! j = Some b
       ∧ (binding_lease b = 100 ∨ under (c_leases c) 100 (binding_lease b))
       ∧ is_closed (binding_state b) = false ∧ e = binding_effect c b EffFence).
Proof.
  cbv zeta. apply (terminated_tree (run_ops active) (RevokeLease 100) 100 (lease_at active 100));
    [apply at_active|evaluate..].
Defined.

Lemma descendants_postorder_exact_witness :
  NoDup (descendants_postorder (run_ops active) 100)
  ∧ (∀ k, k ∈ descendants_postorder (run_ops active) 100 ↔ under (c_leases (run_ops active)) 100 k)
  ∧ children_first (c_leases (run_ops active)) [] (descendants_postorder (run_ops active) 100).
Proof. apply (descendants_postorder_exact (run_ops active) 100), at_active. Defined.

(** Growing the GPU is accepted and leaves the machine of the claim alone. *)
Definition grow : Command :=
  ApplyResourceFacts [mkNode 2 Class.Gpu ∅ (count 16)] [] [].

Lemma occupied_machine_pinned_witness :
  machine_of (c_graph (after grow active)) 2 = machine_of (c_graph (run_ops active)) 2.
Proof.
  apply (occupied_machine_pinned (run_ops active) grow (after grow active) [] 100
    (lease_at active 100) (mkClaim 2 (count 5))); [apply at_active|evaluate|evaluate|evaluate|].
  vm_compute. left.
Defined.

Lemma replay_reproduces_witness :
  ∃ c, replay (c_log (run_ops closed)) = Ok c
    ∧ digest c = logged_digest (digest (run_ops closed)) ∧ c_log c = c_log (run_ops closed).
Proof. apply (replay_reproduces closed); evaluate. Defined.

Lemma occupancy_sums_roots_witness :
  occ_amount (occupancy_from_leases (bt_values (c_leases (run_ops active))) {[100]} ∅) 2 Dim.Count
  = total_used (c_leases (run_ops active)) {[100]} ∅ 2 Dim.Count mod u64_modulus.
Proof. apply occupancy_sums_roots, at_active. Defined.

Lemma descendants_spec_witness :
  NoDup (descendants (c_graph (run_ops boot)) 1)
  ∧ ∀ x, x ∈ descendants (c_graph (run_ops boot)) 1 ↔ 1 ∈ ancestors (c_graph (run_ops boot)) x.
Proof. apply descendants_spec, at_boot. Defined.

(** A provider that owns the GPU reports it again with more capacity. *)
Definition owned : Op :=
  OpApply (ApplyProviderFacts [mkBatch 9 [machine; gpu] [mkEdge 1 2 Contains ∅]] []).
Definition report : list ProviderFactBatch := [mkBatch 9 [mkNode 2 Class.Gpu ∅ (count 16)] []].
Definition reported : Graph :=
  match graph_apply_provider_facts (c_graph (run_ops [owned])) report [] with
  | Ok g => g | Err _ => graph_new end.

Lemma provider_facts_respect_ownership_witness :
  (g_nodes reported !! 2 = Some gpu
   ∨ ∃ b, b ∈ report ∧ node_fact_writer (c_graph (run_ops [owned])) 2 = Some (batch_writer b)
          ∧ 2 ∈ node_id <$> batch_nodes b)
  ∧ ∀ w, node_fact_writer (c_graph (run_ops [owned])) 2 = Some w →
         node_fact_writer reported 2 = Some w.
Proof.
  apply (provider_facts_respect_ownership (c_graph (run_ops [owned])) report [] reported 2 gpu);
    [apply run_ops_inv; evaluate|evaluate..].
Defined.

(** The child completes, then its parent is revoked. *)
Definition child_done : list Op := active ++ [OpApply (CompleteLease 101 0)].

Lemma completed_overwritten_witness :
  (∃ c' es, dispatch (RevokeLease 100) (run_ops child_done) = (c', Ok es)
     ∧ c_leases c' !! 101 = Some (lease_with_state LRevoked (lease_at child_done 101)))
  ∧ (∃ c' es, dispatch (FailLease 100 "node lost") (run_ops child_done) = (c', Ok es)
     ∧ c_leases c' !! 101 = Some (lease_with_state LFailed (lease_at child_done 101))).
Proof.
  apply (completed_overwritten (run_ops child_done) 100 101).
  - apply run_ops_inv. evaluate.
  - eexists. evaluate.
  - right. apply elem_of_descendants; [apply run_ops_inv; evaluate|].
    assert (descendants_postorder (run_ops child_done) 100 = [101]) as -> by evaluate. by left.
  - evaluate.
  - evaluate.
Defined.
