(* ===== verification/Workloads.v ===== *)
(** * A concrete schedule

    Two machines with two GPUs and a memory node each, partly leased out:
    placement, preemption, backfill and ceilings run on them, and the
    scheduling theorems are applied to the results. *)

From S2P Require Import Prelude Identifier Types Graph GraphFacts Occupancy Command Cluster ClusterInv.
From S2P Require Import Authority Select SelectFacts SearchFacts Admit AdmitFacts Ceilings Scheduler.

Ltac evaluate := vm_compute; reflexivity.

Definition units (n : N) : Quantity := qty Dim.Count n.
Definition bytes (n : N) : Quantity := qty Dim.Bytes n.

Definition fleet_nodes : list Node :=
  [mkNode 1 Class.Machine ∅ ∅; mkNode 11 Class.Gpu ∅ (units 1); mkNode 12 Class.Gpu ∅ (units 1);
   mkNode 13 Class.Memory ∅ (bytes 100);
   mkNode 2 Class.Machine ∅ ∅; mkNode 21 Class.Gpu ∅ (units 1); mkNode 22 Class.Gpu ∅ (units 1);
   mkNode 23 Class.Memory ∅ (bytes 100)].

Definition fleet : list Op :=
  [OpNow 10;
   OpApply (ApplyResourceFacts fleet_nodes
     ((λ '(m, n), mkEdge m n Contains ∅) <$> [(1, 11); (1, 12); (1, 13); (2, 21); (2, 22); (2, 23)])
     (((λ n, mkUpdate n Dim.Count (Some (mkClaimBinding ENFORCE Exclusive))) <$> [11; 12; 21; 22])
      ++ ((λ n, mkUpdate n Dim.Bytes (Some (mkClaimBinding ENFORCE IndependentShare)))
            <$> [13; 23])))].

Definition grant (claims : list Claim) : Allocation := mkAllocation claims 1 (mkExplanation "" []).

(** Both machines leased, at priorities 1 and 2, until 50 and 90. *)
Definition full : list Op :=
  fleet ++
  [OpApply (ReserveLease 300 7 (grant [mkClaim 11 (units 1); mkClaim 12 (units 1);
                                      mkClaim 13 (bytes 80)]) 50 1);
   OpApply (ReserveLease 301 8 (grant [mkClaim 21 (units 1); mkClaim 22 (units 1);
                                      mkClaim 23 (bytes 80)]) 90 2)].

(** Two GPUs and memory on one machine. *)
Definition training : Request :=
  mkRequest 1 Batch [mkNeed Class.Gpu (units 2) []; mkNeed Class.Memory (bytes 60) []]
    [mkConstraint 0 1 (SameAncestor Class.Machine)] [PrefPack] [] 20 5 true.

Definition placed : Allocation :=
  match allocate (run_ops fleet) training with Ok a => a | Err _ => grant [] end.

Example training_placed :
  alloc_claims placed
  = [mkClaim 11 (units 1); mkClaim 12 (units 1); mkClaim 13 (bytes 60)]
  ∧ is_ok (allocate (run_ops full) training) = false.
Proof. vm_compute. done. Qed.

Lemma select_sound_witness :
  ∃ picked, selected (c_graph (run_ops fleet)) (occupancy (run_ops fleet)) training
    (placement_blocked (run_ops fleet)) placed picked.
Proof.
  apply (select_sound (c_graph (run_ops fleet)) (occupancy (run_ops fleet)) training
    (placement_blocked (run_ops fleet)) placed).
  - apply (ci_graph _ (run_ops_inv fleet ltac:(evaluate))).
  - evaluate.
Defined.

Lemma allocation_reservable_witness :
  dispatch (ReserveLease 300 7 placed 50 5) (run_ops fleet)
  = (set_leases (<[300 := mkLease 300 7 placed None 50 0 5 LReserved None]>
                   (c_leases (run_ops fleet))) (run_ops fleet), Ok []).
Proof. apply (allocation_reservable fleet training placed 300 7 50 5); evaluate. Defined.

(** Two GPUs under one NUMA node, which no machine has. *)
Definition numa_pair : Request :=
  mkRequest 5 Batch [mkNeed Class.Gpu (units 1) []; mkNeed Class.Gpu (units 1) []]
    [mkConstraint 0 1 (SameAncestor Class.Numa)] [] [] 20 5 true.

Definition machine_one : gset N := {[1]} ∪ list_to_set (descendants (c_graph (run_ops fleet)) 1).

Definition gave_up : Search :=
  (search_needs (c_graph (run_ops fleet)) (occupancy (run_ops fleet)) numa_pair ∅ machine_one 0
     (req_needs numa_pair) (mkSearch ∅ FALLBACK_SEARCH_BUDGET [[]; []])).1.

Lemma search_complete_witness :
  0 < se_budget gave_up
  ∧ ∀ picked, Forall2 (picked_sound (c_graph (run_ops fleet)) (occupancy (run_ops fleet)) ∅
                         machine_one) (req_needs numa_pair) picked →
      topology_holds (c_graph (run_ops fleet)) picked numa_pair = false.
Proof.
  split; [evaluate|]. apply (search_complete _ _ numa_pair ∅ machine_one ∅ gave_up).
  - apply (ci_graph _ (run_ops_inv fleet ltac:(evaluate))).
  - evaluate.
  - evaluate.
Defined.

(** ** Preemption *)

Definition evict : list Op := full ++ [OpApply (RevokeLease 300)].

Lemma full_evicted : evicted (run_ops full) (run_ops evict)
  (victim_closure (run_ops full) (pp_victims (preemption_plan (run_ops full) training))).
Proof.
  assert (victim_closure (run_ops full) (pp_victims (preemption_plan (run_ops full) training))
    = {[300]}) as -> by evaluate.
  split.
  - evaluate.
  - evaluate.
  - intros id ->%elem_of_singleton. evaluate.
  - intros id Hid. apply not_elem_of_singleton in Hid. split.
    + assert (delete 300 (c_leases (run_ops evict)) = delete 300 (c_leases (run_ops full)))
        as Hdel by evaluate.
      by rewrite <-(lookup_delete_ne _ 300), Hdel, lookup_delete_ne.
    + unfold open_bindings.
      by assert (bt_values (c_bindings (run_ops evict)) = bt_values (c_bindings (run_ops full)))
        as -> by evaluate.
Qed.

Lemma planned_preemption_delivers_witness :
  is_ok (allocate (run_ops full) training) = false
  ∧ is_ok (allocate (run_ops evict) training) = true.
Proof.
  apply (planned_preemption_delivers full evict training);
    [evaluate|evaluate|evaluate|exact full_evicted].
Defined.

(** ** Backfill and ceilings *)

(** One machine is leased until 50. *)
Definition half : list Op :=
  fleet ++
  [OpApply (ReserveLease 300 7 (grant [mkClaim 11 (units 1); mkClaim 12 (units 1)]) 50 1)].

(** The head needs all four GPUs; a short job fits in front of it. *)
Definition wide : Queued :=
  mkQueued (mkRequest 2 Batch [mkNeed Class.Gpu (units 4) []] [] [] [] 20 9 false) 8 1.
Definition short : Queued :=
  mkQueued (mkRequest 3 Batch [mkNeed Class.Gpu (units 1) []] [] [] [] 20 1 false) 7 2.

Definition three_gpus : AdmissionPolicy :=
  mkPolicy {[ Class.Gpu := units 3 ]} false ∅.
Definition no_ceiling : AdmissionPolicy := mkPolicy ∅ false ∅.

Definition started : Admission :=
  default (mkAdmission training 0 (grant []))
    (cluster_admit_backfill_with_policy (run_ops half) [short; wide] no_ceiling ∅).

Definition half_usage : gmap N (gmap string Quantity) :=
  owner_usage (c_graph (run_ops half)) (c_leases (run_ops half))
    (open_binding_leases (run_ops half)).

Example wide_blocked :
  bh_shadow <$> blocks (c_graph (run_ops half)) (occupancy (run_ops half))
    (placement_blocked (run_ops half)) ∅ no_ceiling (backfill_ctx (run_ops half)) half_usage wide
  = Some (Some 50)
  ∧ alloc_claims (adm_allocation started) = [mkClaim 21 (units 1)].
Proof. vm_compute. done. Qed.

Lemma backfill_never_delays_witness :
  let c := run_ops half in
  let leases' := <[400 := new_lease 400 7 (adm_allocation started) 30 1]> (c_leases c) in
  ∃ before queued after, [wide; short] = before ++ queued :: after
    ∧ adm_request started = q_request queued
    ∧ ∀ q head t, q ∈ before →
        blocks (c_graph c) (occupancy c) (placement_blocked c) ∅ no_ceiling
          (backfill_ctx c) half_usage q = Some head →
        bh_shadow head = Some t →
        ∃ alloc, select_without (c_graph c) (placement_blocked c ∪ hard_exclusions ∅ q)
            (c_leases c) (open_binding_leases c) (q_request q) (freed_by (c_leases c) t) = Ok alloc
          ∧ ∀ cl, cl ∈ alloc_claims alloc →
              can_cover (occupancy_from_leases (bt_values leases') (open_binding_leases c)
                           (freed_by leases' t)) (c_graph c) cl = Ok true.
Proof.
  exact (backfill_never_delays half [short; wide] no_ceiling ∅ started 400 1
    ltac:(evaluate) ltac:(evaluate) ltac:(evaluate)).
Defined.

Definition gpu_grant : Admission :=
  default (mkAdmission training 0 (grant []))
    (cluster_admit_with_policy (run_ops half) [short; wide] three_gpus).

Lemma admitted_within_ceiling_witness :
  owner_total (c_graph (run_ops half))
    (<[400 := new_lease 400 7 (adm_allocation gpu_grant) 30 1]> (c_leases (run_ops half)))
    (open_binding_leases (run_ops half)) 7 Class.Gpu Dim.Count ≤ 3.
Proof.
  apply (admitted_within_ceiling half [short; wide] three_gpus ∅ gpu_grant 400 30 1 Class.Gpu
    (units 3) Dim.Count); [evaluate|evaluate|left; evaluate|evaluate|evaluate].
Defined.

Definition huge : Request :=
  mkRequest 4 Batch
    [mkNeed Class.Memory (bytes (2 ^ 63)) []; mkNeed Class.Memory (bytes (u64_modulus - 2 ^ 63)) []]
    [] [] [] 20 5 false.

Lemma ceiling_wraps_witness : within_budget ∅ huge {[ Class.Memory := qty Dim.Bytes 10 ]} = true.
Proof. apply (ceiling_wraps (2 ^ 63) 10 huge); [evaluate|evaluate|reflexivity]. Defined.
