(* ===== verification/World.v ===== *)
(** * The simulator's world (crates/sim/src/world.rs)

    The kernel, one provider endpoint per enforced node, and the effects under
    way between them.  Effects may be delivered, dropped or delivered again;
    agents and the controller may restart. *)

From S2P Require Import Prelude.
From S2P Require Import Identifier.
From S2P Require Import Types.
From S2P Require Import Graph.
From S2P Require Import Occupancy.
From S2P Require Import Endpoint.
From S2P Require Import Command.
From S2P Require Import Cluster.
From S2P Require Import Replay.
From S2P Require Import Select.
From S2P Require Import Admit.
From S2P Require Import Scheduler.

(** Tuples order lexicographically. *)
Definition pair_leb (x y : N * N) : bool := (x.1 <? y.1) || (x.1 =? y.1) && (x.2 <=? y.2).

Ltac pair_order :=
  repeat (intros [? ?]); unfold pair_leb; simpl;
  rewrite ?orb_true_iff, ?andb_true_iff, ?N.ltb_lt, ?N.eqb_eq, ?N.leb_le; try lia.

#[export] Program Instance BOrd_pair : BOrd (N * N) := {| bleb := pair_leb |}.
Next Obligation. pair_order. Qed.
Next Obligation. pair_order. Qed.
Next Obligation. pair_order; intros; f_equal; lia. Qed.

Inductive TraceEvent :=
| TrCommand (command : Command)
| TrSetNow (now : u64)
| TrSetAgreement (agreed : bool)
| TrAdvanceEpoch
| TrDeliver
| TrDrop
| TrRestartAgent (machine : NodeId) (session : u64).

Record WorldAgent := mkWorldAgent { wa_session : u64; wa_epoch : u64 }.

Record World := mkWorld {
  w_cluster : Cluster;
  w_agents : gmap N WorldAgent;
  w_endpoints : gmap (N * N) Endpoint;
  w_pending : list Effect;
  w_trace : list TraceEvent;
  w_next_session : u64;
  w_next_handle : u64;
  w_queue : list Queued;
  w_next_binding : u64;
}.

Definition world_new : World := mkWorld cluster_new ∅ ∅ [] [] 1 1 [] 1.

Definition set_w_cluster (v : Cluster) (w : World) : World :=
  mkWorld v (w_agents w) (w_endpoints w) (w_pending w) (w_trace w) (w_next_session w)
    (w_next_handle w) (w_queue w) (w_next_binding w).
Definition set_w_agents (v : gmap N WorldAgent) (w : World) : World :=
  mkWorld (w_cluster w) v (w_endpoints w) (w_pending w) (w_trace w) (w_next_session w)
    (w_next_handle w) (w_queue w) (w_next_binding w).
Definition set_w_endpoints (v : gmap (N * N) Endpoint) (w : World) : World :=
  mkWorld (w_cluster w) (w_agents w) v (w_pending w) (w_trace w) (w_next_session w)
    (w_next_handle w) (w_queue w) (w_next_binding w).
Definition set_w_pending (v : list Effect) (w : World) : World :=
  mkWorld (w_cluster w) (w_agents w) (w_endpoints w) v (w_trace w) (w_next_session w)
    (w_next_handle w) (w_queue w) (w_next_binding w).
Definition push_trace (e : TraceEvent) (w : World) : World :=
  mkWorld (w_cluster w) (w_agents w) (w_endpoints w) (w_pending w) (w_trace w ++ [e])
    (w_next_session w) (w_next_handle w) (w_queue w) (w_next_binding w).
Definition set_w_next_session (v : u64) (w : World) : World :=
  mkWorld (w_cluster w) (w_agents w) (w_endpoints w) (w_pending w) (w_trace w) v
    (w_next_handle w) (w_queue w) (w_next_binding w).
Definition set_w_next_handle (v : u64) (w : World) : World :=
  mkWorld (w_cluster w) (w_agents w) (w_endpoints w) (w_pending w) (w_trace w) (w_next_session w)
    v (w_queue w) (w_next_binding w).
Definition set_w_queue (v : list Queued) (w : World) : World :=
  mkWorld (w_cluster w) (w_agents w) (w_endpoints w) (w_pending w) (w_trace w) (w_next_session w)
    (w_next_handle w) v (w_next_binding w).
Definition set_w_next_binding (v : u64) (w : World) : World :=
  mkWorld (w_cluster w) (w_agents w) (w_endpoints w) (w_pending w) (w_trace w) (w_next_session w)
    (w_next_handle w) (w_queue w) v.

Definition push_pending (es : list Effect) (w : World) : World := set_w_pending (w_pending w ++ es) w.

(** ** Operations that may fail: the world survives the error *)

Definition WM (A : Type) : Type := World → World * result Error A.

#[export] Instance WM_ret : MRet WM := λ A a w, (w, Ok a).
#[export] Instance WM_bind : MBind WM := λ A B f m w,
  match m w with
  | (w', Ok a) => f a w'
  | (w', Err e) => (w', Err e)
  end.

Definition wget : WM World := λ w, (w, Ok w).
Definition wmodify (f : World → World) : WM unit := λ w, (f w, Ok ()).
Definition wlift {A} (r : result Error A) : WM A := λ w, (w, r).

Fixpoint wfor {A} (f : A → WM unit) (l : list A) : WM unit :=
  match l with
  | [] => mret ()
  | x :: l => _ ← f x; wfor f l
  end.

(** ** Commands *)

Definition world_commit (command : Command) : WM (list Effect) := λ w,
  match cluster_apply command (w_cluster w) with
  | (c, Ok effects) => (push_trace (TrCommand command) (set_w_cluster c w), Ok effects)
  | (c, Err e) => (set_w_cluster c w, Err e)
  end.

Definition world_apply (command : Command) : WM (list Effect) :=
  effects ← world_commit command;
  _ ← wmodify (push_pending effects);
  mret effects.

(** [self.apply(command)?; Ok(())] *)
Definition world_do (command : Command) : WM unit := _ ← world_apply command; mret ().

Definition world_apply_resource_facts (nodes : list Node) (edges : list Edge)
    (claim_bindings : list ClaimBindingUpdate) : WM unit :=
  world_do (ApplyResourceFacts nodes edges claim_bindings).

(** An exclusive contract for every positive dimension. *)
Definition enforce_all (nodes : list Node) : list ClaimBindingUpdate :=
  node ← nodes;
  omap (M := list) (λ '(dimension, amount),
    if 0 <? amount
    then Some (mkUpdate (node_id node) dimension (Some (mkClaimBinding ENFORCE Exclusive)))
    else None) (bt_iter (node_capacity node)).

Definition world_apply_graph (nodes : list Node) (edges : list Edge) : WM unit :=
  world_apply_resource_facts nodes edges (enforce_all nodes).

Definition world_set_now (now : u64) (w : World) : World :=
  push_trace (TrSetNow now) (set_w_cluster (set_now now (w_cluster w)) w).
Definition world_set_agreement (agreed : bool) (w : World) : World :=
  push_trace (TrSetAgreement agreed) (set_w_cluster (set_agreement agreed (w_cluster w)) w).
Definition world_advance_epoch (w : World) : World :=
  push_trace TrAdvanceEpoch (set_w_cluster (advance_epoch (w_cluster w)) w).

(** ** Agents *)

(** [enforced_under]: the contracts of a machine and what it contains. *)
Definition enforced_under (c : Cluster) (machine : NodeId) : list (N * N) :=
  let nodes : gset N := list_to_set (descendants (c_graph c) machine ++ [machine]) in
  bs_iter (list_to_set
    ('(node, dimensions) ← bt_iter (g_claim_bindings (c_graph c));
     if bool_decide (node ∈ nodes)
     then (λ binding, (cb_provider binding, node)) <$> bt_values dimensions
     else []) : gset (N * N)).

(** A new session of a machine's agent. *)
Definition begin_agent (machine : NodeId) (w : World) : World * u64 :=
  let session := w_next_session w in
  (set_w_agents (<[machine := mkWorldAgent session (c_epoch (w_cluster w))]> (w_agents w))
     (set_w_next_session (wrap_add session 1) w), session).

(** [entry(key).and_modify(handshake).or_insert_with(Endpoint::new)] *)
Definition greet_endpoint (session : u64) (endpoints : gmap (N * N) Endpoint) (key : N * N)
    : gmap (N * N) Endpoint :=
  <[key := match endpoints !! key with
           | Some endpoint => handshake endpoint session
           | None => endpoint_new key.1 key.2 session
           end]> endpoints.

Definition world_register_agent (machine : NodeId) : WM u64 := λ w,
  let '(w, session) := begin_agent machine w in
  let endpoints := foldl (greet_endpoint session) (w_endpoints w) (enforced_under (w_cluster w) machine) in
  (_ ← world_apply (SetAgentSession machine session); mret session) (set_w_endpoints endpoints w).

Definition world_restart_agent (machine : NodeId) : WM u64 := λ w,
  let '(w, session) := begin_agent machine w in
  let endpoints :=
    (λ endpoint,
       if bool_decide (machine_of (c_graph (w_cluster w)) (ep_node endpoint) = Some machine)
       then handshake endpoint session else endpoint) <$> w_endpoints w in
  (_ ← world_apply (SetAgentSession machine session); mret session)
    (push_trace (TrRestartAgent machine session) (set_w_endpoints endpoints w)).

(** ** The committed trace *)

Definition replay_event (c : Cluster) (event : TraceEvent) : result Error Cluster :=
  match event with
  | TrCommand command =>
      match cluster_apply command c with (c, Ok _) => Ok c | (_, Err e) => Err e end
  | TrSetNow now => Ok (set_now now c)
  | TrSetAgreement agreed => Ok (set_agreement agreed c)
  | TrAdvanceEpoch => Ok (advance_epoch c)
  | TrDeliver | TrDrop | TrRestartAgent _ _ => Ok c
  end.

Definition replay_trace (w : World) : result Error Cluster :=
  try_fold replay_event cluster_new (w_trace w).

Definition restart_controller : WM unit := λ w,
  match replay_trace w with
  | Ok c => (set_w_cluster c w, Ok ())
  | Err e => (w, Err e)
  end.

Definition world_digest (w : World) : Digest := digest (w_cluster w).

(** ** Delivery *)

(** The operation and the fields of an effect for an endpoint. *)
Definition effect_fields (e : Effect) : option (EndpointOp * BindingId * NodeId * ProviderId * u64 * u64 * u64) :=
  match e with
  | EffPrepare binding node provider fence session epoch =>
      Some (OpPrepare, binding, node, provider, fence, session, epoch)
  | EffActivate binding node provider fence session epoch =>
      Some (OpActivate, binding, node, provider, fence, session, epoch)
  | EffRelease binding node provider fence session epoch =>
      Some (OpRelease, binding, node, provider, fence, session, epoch)
  | EffFence binding node provider fence session epoch =>
      Some (OpFence, binding, node, provider, fence, session, epoch)
  | EffReconcile _ _ _ _ => None
  end.

Definition is_prepare (op : EndpointOp) : bool := match op with OpPrepare => true | _ => false end.

(** The acknowledgement of an accepted operation. *)
Definition ack_command (op : EndpointOp) (binding : BindingId) (session handle fence : u64) : Command :=
  match op with
  | OpPrepare => RecordBindingPrepared binding session handle fence
  | OpActivate => RecordBindingActive binding session fence
  | OpRelease => RecordBindingReleased binding session fence
  | OpFence => RecordBindingFenced binding session fence
  end.

(** [apply_effect]: the agent's epoch and session decide, then the endpoint. *)
Definition apply_effect (e : Effect) (w : World) : World * option Command :=
  match effect_fields e with
  | None => (w, None)
  | Some (op, binding, node, provider, fence, session, epoch) =>
      match machine_of (c_graph (w_cluster w)) node with
      | None => (w, None)
      | Some machine =>
          match w_agents w !! machine with
          | None => (w, None)
          | Some agent =>
              if (epoch <? wa_epoch agent) || negb (session =? wa_session agent) then (w, None)
              else
                let agent :=
                  if wa_epoch agent <? epoch then mkWorldAgent (wa_session agent) epoch else agent in
                let w := set_w_agents (<[machine := agent]> (w_agents w)) w in
                let endpoint :=
                  default (endpoint_new provider node (wa_session agent)) (w_endpoints w !! (provider, node)) in
                match endpoint_apply endpoint op binding fence session with
                | Ok endpoint =>
                    let w := set_w_endpoints (<[(provider, node) := endpoint]> (w_endpoints w)) w in
                    let handle := w_next_handle w in
                    let w := if is_prepare op
                             then set_w_next_handle (wrap_add handle 1) w else w in
                    (w, Some (ack_command op binding session handle fence))
                | Err _ =>
                    let w := set_w_endpoints (<[(provider, node) := endpoint]> (w_endpoints w)) w in
                    (w, if is_prepare op
                        then Some (RecordBindingFailed binding session "endpoint rejected prepare" fence)
                        else None)
                end
          end
      end
  end.

Definition lease_live (c : Cluster) (lease : LeaseId) : bool :=
  match c_leases c !! lease with Some l => is_live_state (lease_state l) | None => false end.

(** The endpoint still enforces exactly this generation. *)
Definition generation_proven (endpoint : option Endpoint) (binding : BindingId) (b : Binding) : bool :=
  match endpoint with
  | Some e => ep_open e && bool_decide (ep_binding e = Some binding) && (ep_accepted_fence e =? binding_fence b)
  | None => false
  end.

Definition resend (kind : N → N → N → N → N → N → Effect) (binding : BindingId) (b : Binding)
    (session epoch : u64) : Effect :=
  kind binding (binding_node b) (binding_provider b) (binding_fence b) session epoch.

(** One binding of a reconciliation; the accumulator is the leases failed so
    far. *)
Definition reconcile_binding (session epoch : u64) (failed : gset N) (binding : BindingId)
    : WM (gset N) :=
  w ← wget;
  match c_bindings (w_cluster w) !! binding with
  | None => mret failed
  | Some b =>
      let live := lease_live (w_cluster w) (binding_lease b) in
      if live && generation_proven (w_endpoints w !! (binding_provider b, binding_node b)) binding b
      then
        _ ← world_commit (RebindSession binding session);
        _ ← wmodify (push_pending
              ((if bool_decide (binding_state b = BPreparing)
                then [resend EffPrepare binding b session epoch] else [])
               ++ (if bool_decide (binding_state b = BActive)
                   then [resend EffActivate binding b session epoch] else [])));
        mret failed
      else if bool_decide (binding_state b ∈ [BPreparing; BActive])
      then
        if live && bool_decide (binding_lease b ∉ failed)
        then
          _ ← world_apply (FailLease (binding_lease b) "reconciliation could not prove the binding");
          mret ({[binding_lease b]} ∪ failed)
        else
          _ ← wmodify (push_pending [resend EffFence binding b session epoch]);
          mret failed
      else mret failed
  end.

Fixpoint reconcile_bindings (session epoch : u64) (failed : gset N) (bindings : list BindingId) : WM unit :=
  match bindings with
  | [] => mret ()
  | binding :: bindings =>
      failed ← reconcile_binding session epoch failed binding;
      reconcile_bindings session epoch failed bindings
  end.

(** An endpoint of the machine that enforces what the authority closed. *)
Definition stray_fence (w : World) (machine : NodeId) (session epoch : u64)
    (entry : (N * N) * Endpoint) : option Effect :=
  let '((_, node), endpoint) := entry in
  if negb (bool_decide (machine_of (c_graph (w_cluster w)) node = Some machine)) || negb (ep_open endpoint)
  then None
  else
    let expected := id ← ep_binding endpoint; c_bindings (w_cluster w) !! id in
    let unexpected := match expected with
                      | None => true
                      | Some b => negb (bool_decide (binding_state b ∈ [BPreparing; BActive]))
                      end in
    if unexpected then
      binding ← ep_binding endpoint;
      Some (EffFence binding node (ep_provider endpoint) (ep_accepted_fence endpoint) session epoch)
    else None.

Definition world_reconcile (machine : NodeId) (session epoch : u64) (bindings : list BindingId)
    : WM unit := λ w,
  match w_agents w !! machine with
  | None => (w, Ok ())
  | Some agent =>
      if epoch <? wa_epoch agent then (w, Ok ())
      else
        (_ ← reconcile_bindings session epoch ∅ bindings;
         w ← wget;
         wmodify (push_pending (omap (M := list) (stray_fence w machine session epoch) (bt_iter (w_endpoints w)))))
          (set_w_agents (<[machine := mkWorldAgent session epoch]> (w_agents w)) w)
  end.

(** [World::dispatch], also [World::inject] *)
Definition world_dispatch (e : Effect) : WM unit := λ w,
  match e with
  | EffReconcile machine session epoch bindings => world_reconcile machine session epoch bindings w
  | _ =>
      let '(w, command) := apply_effect e w in
      match command with
      | Some command => (effects ← world_commit command; wmodify (push_pending effects)) w
      | None => (w, Ok ())
      end
  end.

Definition drop_one (w : World) : World * bool :=
  match w_pending w with
  | [] => (w, false)
  | _ :: pending => (push_trace TrDrop (set_w_pending pending w), true)
  end.

Definition deliver_one : WM bool := λ w,
  match w_pending w with
  | [] => (w, Ok false)
  | e :: pending => (_ ← world_dispatch e; mret true) (push_trace TrDeliver (set_w_pending pending w))
  end.

(** [while self.deliver_one()? {}]; [None] when the fuel runs out. *)
Fixpoint deliver_all (fuel : nat) (w : World) : option (World * result Error unit) :=
  match fuel with
  | O => None
  | S fuel =>
      match deliver_one w with
      | (w, Ok true) => deliver_all fuel w
      | (w, Ok false) => Some (w, Ok ())
      | (w, Err e) => Some (w, Err e)
      end
  end.

(** ** Queue and leases *)

Definition world_enqueue (request : Request) (owner : OwnerId) (w : World) : World :=
  set_w_queue (w_queue w ++ [mkQueued request owner (c_now (w_cluster w))]) w.

Definition dequeue (request : RequestId) (w : World) : World :=
  set_w_queue (List.filter (λ q, negb (req_id (q_request q) =? request)) (w_queue w)) w.

(** [(start..).zip(claims)] *)
Fixpoint bind_claims (lease : LeaseId) (next : u64) (claims : list Claim) : WM (list BindingId) :=
  match claims with
  | [] => mret []
  | claim :: claims =>
      w ← wget;
      required ← wlift (claim_binding_for_quantity (c_graph (w_cluster w)) (claim_node claim)
                          (claim_quantity claim));
      _ ← world_apply (OpenBinding next lease (claim_node claim) (cb_provider required) (cb_scope required));
      bindings ← bind_claims lease (wrap_add next 1) claims;
      mret (next :: bindings)
  end.

Definition bind_enforced (lease : LeaseId) (start : u64) : WM (list BindingId) :=
  w ← wget;
  l ← wlift (ok_or (c_leases (w_cluster w) !! lease) (UnknownLease lease));
  bind_claims lease start (lease_claims l).

(** [self.bind_enforced(lease, self.next_binding)?] and the next range. *)
Definition bind_next (lease : LeaseId) : WM unit :=
  w ← wget;
  _ ← bind_enforced lease (w_next_binding w);
  wmodify (λ w, set_w_next_binding (sat_add (w_next_binding w) 32) w).

Definition open_admission (lease : LeaseId) (owner : OwnerId) (admission : Admission) : WM unit :=
  w ← wget;
  let now := c_now (w_cluster w) in
  world_do (OpenLease lease owner (adm_allocation admission) None
              (sat_add now (req_lifetime (adm_request admission))) (sat_add now 20)
              (req_priority (adm_request admission))).

(** [admit_next] and [admit_next_backfill] dequeue once the lease is open. *)
Definition admit_then_dequeue (admission : option Admission) (lease : LeaseId) (owner : OwnerId)
    : WM (option RequestId) :=
  match admission with
  | None => mret None
  | Some admission =>
      _ ← open_admission lease owner admission;
      _ ← wmodify (dequeue (req_id (adm_request admission)));
      _ ← bind_next lease;
      mret (Some (req_id (adm_request admission)))
  end.

Definition admit_next (lease : LeaseId) (owner : OwnerId) : WM (option RequestId) :=
  w ← wget;
  admit_then_dequeue (cluster_admit (w_cluster w) (w_queue w)) lease owner.

Definition admit_next_backfill (lease : LeaseId) (owner : OwnerId) : WM (option RequestId) :=
  w ← wget;
  admit_then_dequeue (cluster_admit_backfill (w_cluster w) (w_queue w) ∅) lease owner.

(** This one dequeues before the lease is open. *)
Definition admit_next_with_ceiling (lease : LeaseId) (owner : OwnerId) (owner_ceiling : ClassUsage)
    : WM (option RequestId) :=
  w ← wget;
  match cluster_admit_with_ceiling (w_cluster w) (w_queue w) owner_ceiling with
  | None => mret None
  | Some admission =>
      _ ← wmodify (dequeue (req_id (adm_request admission)));
      _ ← open_admission lease owner admission;
      _ ← bind_next lease;
      mret (Some (req_id (adm_request admission)))
  end.

Definition set_health (node : NodeId) (health : string) : WM unit := world_do (SetNodeHealth node health).

Definition world_reserve (request : Request) (lease : LeaseId) (owner : OwnerId) (expires_at : u64)
    : WM Allocation :=
  w ← wget;
  allocation ← wlift (allocate (w_cluster w) request);
  _ ← world_apply (ReserveLease lease owner allocation expires_at (req_priority request));
  mret allocation.

Definition world_promote (lease : LeaseId) : WM unit :=
  w ← wget;
  _ ← world_apply (PromoteLease lease (sat_add (c_now (w_cluster w)) 20));
  bind_next lease.

Definition world_place (request : Request) (lease : LeaseId) (owner : OwnerId) (parent : option LeaseId)
    (expires_at prepare_deadline : u64) : WM Allocation :=
  w ← wget;
  allocation ← wlift (allocate (w_cluster w) request);
  _ ← world_apply (OpenLease lease owner allocation parent expires_at prepare_deadline (req_priority request));
  mret allocation.

Definition world_activate_lease (lease : LeaseId) : WM unit :=
  _ ← world_apply (ActivateLease lease);
  w ← wget;
  wfor (λ binding, world_do (ActivateBinding binding)) (bindings_for (w_cluster w) lease).

Definition world_release_lease (lease : LeaseId) : WM unit := world_do (ReleaseLease lease).
Definition world_revoke_lease (lease : LeaseId) : WM unit := world_do (RevokeLease lease).

Definition preempt_for (request : Request) : WM (option (list LeaseId)) :=
  w ← wget;
  match preempt_victims (w_cluster w) request with
  | None => mret None
  | Some victims =>
      _ ← wfor world_revoke_lease victims;
      mret (Some victims)
  end.

(** The root leases that occupy a node of the machine. *)
Definition machine_victims (c : Cluster) (machine : NodeId) : list LeaseId :=
  lease_id <$> List.filter (λ l,
    bool_decide (lease_parent l = None)
    && existsb (λ claim, bool_decide (machine_of (c_graph c) (claim_node claim) = Some machine)) (lease_claims l)
    && occupies c (lease_id l)) (bt_values (c_leases c)).

Definition fail_machine (machine : NodeId) : WM (list LeaseId) :=
  w ← wget;
  node ← wlift (ok_or (graph_node (c_graph (w_cluster w)) machine) (UnknownNode machine));
  _ ← wlift (guard_err (bool_decide (node_kind node = Class.Machine))
               (Invalid "fail_machine requires a machine node"));
  _ ← world_apply (QuarantineNode machine);
  w ← wget;
  let victims := machine_victims (w_cluster w) machine in
  _ ← wfor world_revoke_lease victims;
  _ ← wmodify (λ w, set_w_agents (delete machine (w_agents w)) w);
  mret victims.

Definition unquarantine_machine (machine : NodeId) : WM unit := world_do (UnquarantineNode machine).

Definition due_leases (due : Cluster → Lease → bool) (c : Cluster) : list LeaseId :=
  lease_id <$> List.filter (due c) (bt_values (c_leases c)).

Definition lease_due (c : Cluster) (l : Lease) : bool :=
  is_live_state (lease_state l) && (lease_expires_at l <=? c_now c).
Definition prepare_late (c : Cluster) (l : Lease) : bool :=
  bool_decide (lease_state l = LPreparing) && (lease_prepare_deadline l <=? c_now c).

Definition world_expire_due : WM unit :=
  w ← wget;
  wfor (λ lease, world_do (ExpireLease lease)) (due_leases lease_due (w_cluster w)).

Definition fail_late_prepares : WM unit :=
  w ← wget;
  wfor (λ lease, world_do (FailLease lease "prepare_deadline")) (due_leases prepare_late (w_cluster w)).
