(* ===== verification/WorldFacts.v ===== *)
(** * What the world preserves

    Provider endpoints enforce only what the kernel still charges to a lease,
    whatever is dropped, repeated, reordered or restarted; the committed trace
    determines the authority; delivery terminates. *)

From S2P Require Import Prelude.
From S2P Require Import Identifier.
From S2P Require Import Types.
From S2P Require Import Graph.
From S2P Require Import Occupancy.
From S2P Require Import Endpoint.
From S2P Require Import Command.
From S2P Require Import Cluster.
From S2P Require Import Handlers.
From S2P Require Import ClusterInv.
From S2P Require Import Steps.
From S2P Require Import Safety.
From S2P Require Import Authority.
From S2P Require Import Bindings.
From S2P Require Import Replay.
From S2P Require Import Select.
From S2P Require Import Admit.
From S2P Require Import Scheduler.
From S2P Require Import World.

(** ** Effects of the kernel *)

(** The effect names a stored binding with its node, provider and fence. *)
Definition names_binding (c : Cluster) (binding : BindingId) (node : NodeId) (provider : ProviderId)
    (fence : u64) : Prop :=
  ∃ b, c_bindings c !! binding = Some b ∧ binding_node b = node ∧ binding_provider b = provider
    ∧ binding_fence b = fence.

Definition issued (c : Cluster) (e : Effect) : Prop :=
  match effect_fields e with
  | Some (_, binding, node, provider, fence, _, _) => names_binding c binding node provider fence
  | None => True
  end.

(** The constructors of the four effects on a binding. *)
Definition plain_kind (kind : N → N → N → N → N → N → Effect) : Prop :=
  ∀ b n p f s e, ∃ op, effect_fields (kind b n p f s e) = Some (op, b, n, p, f, s, e).

Lemma plain_kinds : plain_kind EffPrepare ∧ plain_kind EffActivate ∧ plain_kind EffRelease ∧ plain_kind EffFence.
Proof. split_and!; intros b n p f s e; by eexists. Qed.

Lemma issued_effect c c0 kind k b :
  plain_kind kind → c_bindings c !! k = Some b → binding_id b = k → issued c (binding_effect c0 b kind).
Proof.
  intros Hkind Hb Hid. unfold issued, binding_effect.
  edestruct Hkind as [op ->]. rewrite Hid. by exists b.
Qed.

(** An update of the binding keeps what the effect names. *)
Lemma issued_like c b c0 kind k b' :
  plain_kind kind → binding_id b = k → c_bindings c !! k = Some b' → same_binding b b' →
  issued c (binding_effect c0 b kind).
Proof.
  intros Hkind Hid Hb (_ & _ & Hn & Hp & _ & Hf). unfold issued, binding_effect.
  edestruct Hkind as [op ->]. rewrite Hid. by exists b'.
Qed.

Definition binding_keys (c : Cluster) : Prop := ∀ k b, c_bindings c !! k = Some b → binding_id b = k.

Lemma inv_binding_keys c : cluster_inv c → binding_keys c.
Proof. intros Hinv k b Hb. by apply (ci_binds _ Hinv k b). Qed.

Lemma alter_binding_keys c c' f k :
  binding_keys c → c_bindings c' = alter f k (c_bindings c) → (∀ b, binding_id (f b) = binding_id b) →
  binding_keys c'.
Proof.
  intros Hk Hc Hf j b. rewrite Hc, lookup_alter. destruct (decide (k = j)) as [->|]; [|apply Hk].
  intros (b0 & Hb & ->)%fmap_Some. rewrite Hf. by apply Hk.
Qed.

Lemma issued_open_bindings c c0 kind lease :
  plain_kind kind → binding_keys c0 → c_bindings c = c_bindings c0 →
  Forall (issued c) ((λ b, binding_effect c0 b kind) <$> lease_open_bindings c0 lease).
Proof.
  intros Hkind Hkeys Hc. apply Forall_fmap, Forall_forall. intros b Hb.
  unfold lease_open_bindings in Hb. rewrite list_elem_of_In, filter_In, <-list_elem_of_In in Hb.
  destruct Hb as [[k Hk]%elem_of_bt_values _].
  eapply (issued_effect c c0 kind k b); [done|by rewrite Hc|by apply Hkeys].
Qed.

Lemma issued_fences c c0 lease :
  binding_keys c0 → c_bindings c = c_bindings c0 → Forall (issued c) (fence_effects c0 lease).
Proof. intros Hkeys Hc. apply issued_open_bindings; [apply plain_kinds|done..]. Qed.

Lemma issued_fence_tree c c0 leases :
  binding_keys c0 → c_bindings c = c_bindings c0 → Forall (issued c) (leases ≫= fence_effects c0).
Proof.
  intros Hkeys Hc. apply Forall_forall. intros e (lease & He & _)%list_elem_of_bind.
  pose proof (issued_fences c c0 lease Hkeys Hc) as Hall. rewrite Forall_forall in Hall. by apply Hall.
Qed.

(** Every effect a command returns names a stored binding. *)
Lemma dispatch_issued c cmd c' es :
  cluster_inv c → dispatch cmd c = (c', Ok es) → Forall (issued c') es.
Proof.
  intros Hinv. pose proof (inv_binding_keys c Hinv) as Hk.
  destruct plain_kinds as (Hp & Ha & Hr & Hf). destruct cmd; cbn [dispatch].
  9: { rewrite fail_lease_run by done. intros Hrun. run Hrun. apply Forall_app.
       split; [by apply issued_fence_tree|]. case_match; [by constructor|by apply issued_fences]. }
  10: { rewrite complete_lease_run by done. intros Hrun. cbv zeta in Hrun. run Hrun;
        [by apply issued_fences|by apply issued_fence_tree]. }
  10: { rewrite revoke_lease_run by done. intros Hrun. run Hrun. by apply issued_fence_tree. }
  10: { rewrite expire_lease_run by done. intros Hrun. run Hrun;
        [by apply issued_fences|by apply issued_fence_tree]. }
  20: { intros (b & Hb & Hack & Hrun)%acknowledged_bind. run Hrun. apply issued_fences; [|done].
        eapply alter_binding_keys; [exact Hk|done|]. intros b0. cbn. by case_match. }
  16, 17, 18, 19: intros (b & Hb & Hack & Hrun)%acknowledged_bind; run Hrun; by constructor.
  all: intros Hrun; unfold apply_graph, apply_resource_facts, apply_provider_facts,
    install_resource_graph, adopt_fact_writers,
    reserve_lease, promote_lease, open_lease, activate_lease, release_lease, renew_lease,
    open_binding, activate_binding, fence_binding, release_binding, fail_binding, set_agent_session, set_node_health,
    rebind_session, advance_endpoint_fence, quarantine_node, unquarantine_node, set_node_state
    in Hrun; run Hrun; try by constructor.
  all: try (apply issued_open_bindings; done).
  all: repeat (constructor; [|try by constructor]).
  all: first
    [ by eapply issued_effect; [..|eapply Hk]; eauto
    | eapply issued_effect; [done|cbn; by rewrite lookup_insert, decide_True by done|done]
    | idtac ].
  - eapply (issued_like _ b c EffActivate); [done|by apply Hk| |].
    + cbn. by rewrite lookup_alter, decide_True, Heqo by done.
    + done.
  - cbn in Heqo0. rewrite lookup_alter, decide_True, Heqo in Heqo0 by done. injection Heqo0 as <-.
    eapply (issued_effect _ _ _ binding); [done| |by apply (Hk binding b)].
    cbn. by rewrite lookup_alter, decide_True, Heqo by done.
Qed.

(** ** Authority between acknowledgements *)

Definition closing (cmd : Command) : bool :=
  match cmd with RecordBindingReleased _ _ _ | RecordBindingFenced _ _ _ => true | _ => false end.

Definition closed_at (c : Cluster) (k : BindingId) (b : Binding) : Prop :=
  c_bindings c !! k = Some b ∧ is_closed (binding_state b) = true.

(** Bindings are kept, and none outside [except] is closed. *)
Record grows (except : BindingId → Prop) (c c' : Cluster) : Prop := {
  gr_kept : ∀ k b, c_bindings c !! k = Some b → ∃ b', c_bindings c' !! k = Some b' ∧ same_binding b b';
  gr_closed : ∀ k b', closed_at c' k b' → except k ∨ ∃ b, closed_at c k b ∧ same_binding b b';
  gr_back : ∀ k b', except k → c_bindings c' !! k = Some b' → ∃ b, c_bindings c !! k = Some b ∧ same_binding b b';
}.

Lemma grows_same except c c' : c_bindings c' = c_bindings c → grows except c c'.
Proof.
  intros Hc. split.
  - intros k b Hb. exists b. rewrite Hc. split; [done|apply same_binding_refl].
  - intros k b [Hb Hcl]. right. exists b. unfold closed_at. rewrite <-Hc. split; [done|apply same_binding_refl].
  - intros k b _ Hb. exists b. rewrite <-Hc. split; [done|apply same_binding_refl].
Qed.

Lemma issued_grows except c c' e : grows except c c' → issued c e → issued c' e.
Proof.
  intros [Hkept _]. unfold issued. destruct (effect_fields e) as [[[[[[[op k] n] p] f] s] ep]|]; [|done].
  intros (b & Hb & Hn & Hp & Hf). destruct (Hkept k b Hb) as (b' & Hb' & _ & _ & Hn' & Hp' & _ & Hf').
  exists b'. split_and!; congruence.
Qed.

Lemma dispatch_grows c cmd c' es :
  cluster_inv c → command_u64 cmd = true → dispatch cmd c = (c', Ok es) →
  grows (λ k, ∃ session fence, (cmd = RecordBindingReleased k session fence ∨ cmd = RecordBindingFenced k session fence)
                               ∧ acked c k session fence) c c'.
Proof.
  intros Hinv Hu Hrun. assert (forward c c') as Hfw by (apply ksteps_forward; [done|by eapply dispatch_ksteps]).
  pose proof (dispatch_bindings c cmd c' es Hinv Hrun) as Hafter. split.
  - intros k b Hb. destruct (fw_bindings _ _ Hfw k b Hb) as (b' & ? & ? & _). eauto.
  - intros k b' [Hb' Hcl]. destruct (c_bindings c !! k) as [b|] eqn:Hb.
    + destruct (fw_bindings _ _ Hfw k b Hb) as (b1 & Hb1 & Hsame & _). rewrite Hb' in Hb1. injection Hb1 as <-.
      destruct (is_closed (binding_state b)) eqn:Ho; [right; by exists b|]. left.
      destruct (closes_by_ack c cmd _ k b b' Hafter Hb Ho Hb' Hcl) as (session & Hack & Hor). eauto.
    + exfalso. destruct (bindings_after_dom c cmd _ Hafter) as [Hdom|(id & lease & node & provider & scope & ->)].
      * apply not_elem_of_dom in Hb. rewrite <-Hdom in Hb. apply Hb, elem_of_dom. eauto.
      * destruct Hafter as [Heq|(_ & session & Heq)]; rewrite Heq in Hb'; [congruence|].
        rewrite lookup_insert in Hb'. destruct (decide (id = k)); [|congruence]. by injection Hb' as <-.
  - intros k b' (session & fence & _ & b & m & Hb & _) Hb'.
    destruct (fw_bindings _ _ Hfw k b Hb) as (b1 & Hb1 & Hsame & _). exists b. split; [done|]. congruence.
Qed.

(** ** The invariant *)

(** An endpoint holds at most one binding, stored with its own fence. *)
Record endpoint_ok (c : Cluster) (key : N * N) (e : Endpoint) : Prop := {
  eo_wf : endpoint_wf e;
  eo_provider : ep_provider e = key.1;
  eo_holds : ∀ k, ep_binding e = Some k → names_binding c k key.2 key.1 (ep_accepted_fence e);
}.

(** The endpoint is past a fence: it enforces nothing of that generation. *)
Definition past (fence : u64) (e : Endpoint) : Prop :=
  fence < ep_accepted_fence e ∨ fence = ep_accepted_fence e ∧ ep_binding e = None.

Record world_inv (w : World) : Prop := {
  wi_cluster : cluster_inv (w_cluster w);
  wi_replay : replay_trace w = Ok (w_cluster w);
  wi_pending : Forall (issued (w_cluster w)) (w_pending w);
  wi_endpoints : ∀ key e, w_endpoints w !! key = Some e → endpoint_ok (w_cluster w) key e;
  wi_closed : ∀ k b, closed_at (w_cluster w) k b →
    ∃ e, w_endpoints w !! (binding_provider b, binding_node b) = Some e ∧ past (binding_fence b) e;
}.

(** Amounts in the committed commands fit their fields. *)
Definition trace_u64 (w : World) : Prop :=
  Forall (λ ev, match ev with TrCommand cmd => command_u64 cmd = true | _ => True end) (w_trace w).
Definition winv (w : World) : Prop := trace_u64 w → world_inv w.

Definition wkeeps {A} (m : WM A) : Prop := ∀ w, winv w → winv (m w).1.
Definition wkeeps_fn (f : World → World) : Prop := ∀ w, winv w → winv (f w).

Lemma wkeeps_bind {A B} (m : WM A) (f : A → WM B) : wkeeps m → (∀ a, wkeeps (f a)) → wkeeps (m ≫= f).
Proof.
  intros Hm Hf w Hw. specialize (Hm w Hw). unfold mbind, WM_bind.
  destruct (m w) as [w' [a|e]]; cbn [fst] in *; [by apply Hf|done].
Qed.
Lemma wkeeps_for {A} (f : A → WM unit) l : (∀ x, wkeeps (f x)) → wkeeps (wfor f l).
Proof. intros Hf. induction l as [|x l IH]; [by intros w|]. apply wkeeps_bind; [apply Hf|]. by intros _. Qed.
Lemma wkeeps_ret {A} (a : A) : wkeeps (mret a).
Proof. by intros w. Qed.
Lemma wkeeps_get : wkeeps wget.
Proof. by intros w. Qed.
Lemma wkeeps_lift {A} (r : result Error A) : wkeeps (wlift r).
Proof. by intros w. Qed.
Lemma wkeeps_modify f : wkeeps_fn f → wkeeps (wmodify f).
Proof. intros Hf w Hw. by apply Hf. Qed.

(** What the invariant reads. *)
Lemma winv_frame w w' :
  w_cluster w' = w_cluster w → w_endpoints w' = w_endpoints w → w_pending w' = w_pending w →
  w_trace w' = w_trace w → winv w → winv w'.
Proof.
  intros Hc He Hp Ht Hw Hu. unfold trace_u64 in Hu. rewrite Ht in Hu. destruct (Hw Hu) as [H1 H2 H3 H4 H5].
  unfold replay_trace in *. constructor; unfold replay_trace; rewrite ?Hc, ?He, ?Hp, ?Ht; done.
Qed.

(** ** Commands *)

Lemma replay_push ev w : replay_trace (push_trace ev w) = c ← replay_trace w; replay_event c ev.
Proof. unfold replay_trace. cbn. apply try_fold_snoc. Qed.

(** The endpoint of a stored binding is past its fence. *)
Definition fenced_off (w : World) (b : Binding) : Prop :=
  ∃ e, w_endpoints w !! (binding_provider b, binding_node b) = Some e ∧ past (binding_fence b) e.

(** The trace and the endpoints stay; the authority grows, and closes only
    what the endpoints are past. *)
Lemma advance_inv w w' except :
  world_inv w → cluster_inv (w_cluster w') → replay_trace w' = Ok (w_cluster w') →
  grows except (w_cluster w) (w_cluster w') →
  (∀ k b, except k → c_bindings (w_cluster w) !! k = Some b → fenced_off w b) →
  w_endpoints w' = w_endpoints w →
  Forall (issued (w_cluster w')) (w_pending w') → world_inv w'.
Proof.
  intros [H1 H2 H3 H4 H5] Hc Hr Hg Hex He Hp. constructor; try done; rewrite He.
  - intros key e Hk. destruct (H4 key e Hk) as [Hwf Hpr Hb]. split; [done..|].
    intros k Hkb. destruct (Hb k Hkb) as (b & Hbk & ? & ? & ?).
    destruct (gr_kept _ _ _ Hg k b Hbk) as (b' & ? & _ & _ & ? & ? & _ & ?). exists b'. split_and!; congruence.
  - intros k b' Hcl.
    assert (∃ b, fenced_off w b ∧ same_binding b b') as (b & Hoff & _ & _ & Hn & Hpr & _ & Hf).
    { destruct (gr_closed _ _ _ Hg k b' Hcl) as [Hexk|(b & Hb & Hsame)].
      - destruct (gr_back _ _ _ Hg k b' Hexk) as (b & Hb & Hsame); [apply Hcl|]. exists b. by eauto.
      - exists b. split; [by apply (H5 k b)|done]. }
    by rewrite Hn, Hpr, Hf.
Qed.

Lemma issued_all_grows except c c' es : grows except c c' → Forall (issued c) es → Forall (issued c') es.
Proof. intros Hg Hes. eapply Forall_impl; [exact Hes|]. intros e. by apply (issued_grows except). Qed.

Lemma trace_push ev w : trace_u64 (push_trace ev w) → trace_u64 w.
Proof. unfold trace_u64. cbn. by intros [? _]%Forall_app. Qed.

(** A committed command. *)
Lemma world_commit_run cmd w :
  world_inv w →
  match dispatch cmd (w_cluster w) with
  | (c, Ok es) => world_commit cmd w = (push_trace (TrCommand cmd) (set_w_cluster (set_log (c_log c ++ [cmd]) c) w), Ok es)
  | (_, Err e) => world_commit cmd w = (w, Err e)
  end.
Proof.
  intros Hw. unfold world_commit. rewrite apply_run.
  destruct (dispatch cmd (w_cluster w)) as [c [es|e]] eqn:Hrun; [done|].
  rewrite (dispatch_error_unchanged _ _ _ _ (wi_cluster _ Hw) Hrun). by destruct w.
Qed.

(** What a committed command means for cluster, trace and effects. *)
Lemma commit_facts cmd w c es :
  world_inv w → dispatch cmd (w_cluster w) = (c, Ok es) →
  let w' := push_trace (TrCommand cmd) (set_w_cluster (set_log (c_log c ++ [cmd]) c) w) in
  trace_u64 w' →
  command_u64 cmd = true ∧ cluster_inv (w_cluster w') ∧ replay_trace w' = Ok (w_cluster w')
  ∧ Forall (issued (w_cluster w')) es.
Proof.
  intros Hw Hrun w' Hu. assert (command_u64 cmd = true) as Hcmd.
  { unfold trace_u64 in Hu. cbn in Hu. apply Forall_app in Hu as [_ Hu]. by inversion Hu. }
  split; [done|]. pose proof (wi_cluster _ Hw) as Hinv. split_and!.
  - apply (inv_same c); [done..|]. by eapply dispatch_inv.
  - subst w'. rewrite replay_push.
    assert (replay_trace (set_w_cluster (set_log (c_log c ++ [cmd]) c) w) = replay_trace w) as -> by done.
    rewrite (wi_replay _ Hw). cbn [mbind result_bind replay_event]. by rewrite apply_run, Hrun.
  - pose proof (dispatch_issued _ _ _ _ Hinv Hrun) as Hes. eapply Forall_impl; [exact Hes|]. done.
Qed.

(** An acknowledgement that closes a binding comes after its endpoint. *)
Definition ack_safe (cmd : Command) (w : World) : Prop :=
  ∀ k session fence b, cmd = RecordBindingReleased k session fence ∨ cmd = RecordBindingFenced k session fence →
    c_bindings (w_cluster w) !! k = Some b → binding_fence b = fence → fenced_off w b.

Lemma not_closing_safe cmd w : closing cmd = false → ack_safe cmd w.
Proof. by intros ? k s f b [-> | ->]. Qed.

Lemma commit_trace cmd w : trace_u64 (world_commit cmd w).1 → trace_u64 w.
Proof.
  unfold world_commit. destruct (cluster_apply cmd (w_cluster w)) as [c [es|e]]; [|done].
  intros H. by apply trace_push in H.
Qed.

(** Committing, and queueing effects that it returns or that were issued. *)
Lemma commit_push cmd w w' es l :
  winv w → (trace_u64 w → ack_safe cmd w) → world_commit cmd w = (w', Ok es) →
  (world_inv w → Forall (λ e, e ∈ es ∨ issued (w_cluster w) e) l) → winv (push_pending l w').
Proof.
  intros Hw Hsafe Hrun Hl Hu. assert (trace_u64 w) as Hu0.
  { apply (commit_trace cmd). by rewrite Hrun. }
  specialize (Hw Hu0). specialize (Hl Hw). pose proof (world_commit_run cmd w Hw) as Hc.
  destruct (dispatch cmd (w_cluster w)) as [c [es'|e]] eqn:Hd; rewrite Hrun in Hc; [|done].
  injection Hc as -> ->. destruct (commit_facts cmd w c es' Hw Hd Hu) as (Hcmd & Hinv & Hr & Hes).
  pose proof (dispatch_grows _ _ _ _ (wi_cluster _ Hw) Hcmd Hd) as Hg0.
  assert (grows (λ k, ∃ session fence, (cmd = RecordBindingReleased k session fence
            ∨ cmd = RecordBindingFenced k session fence) ∧ acked (w_cluster w) k session fence)
            (w_cluster w) (set_log (c_log c ++ [cmd]) c)) as Hg by (destruct Hg0; by split).
  eapply (advance_inv w); [done|done|done|exact Hg| |done|].
  - intros k b (session & fence & Hor & b0 & m & Hb0 & Hf & _) Hb. rewrite Hb in Hb0. injection Hb0 as <-.
    by eapply Hsafe.
  - apply Forall_app. split; [eapply issued_all_grows; [exact Hg|apply Hw]|].
    rewrite Forall_forall in Hl, Hes |- *. intros e [He|He]%Hl; [by apply Hes|by apply (issued_grows _ _ _ _ Hg)].
Qed.

Lemma commit_keeps_safe cmd w : (trace_u64 w → ack_safe cmd w) → winv w → winv (world_commit cmd w).1.
Proof.
  intros Hsafe Hw. destruct (world_commit cmd w) as [w' [es|e]] eqn:Hrun; cbn [fst].
  - pose proof (commit_push cmd w w' es [] Hw Hsafe Hrun ltac:(constructor)) as Hp.
    apply (winv_frame (push_pending [] w')); try done. cbn. by rewrite app_nil_r.
  - intros Hu. assert (trace_u64 w) as Hu0 by (apply (commit_trace cmd); by rewrite Hrun).
    specialize (Hw Hu0). pose proof (world_commit_run cmd w Hw) as Hc.
    destruct (dispatch cmd (w_cluster w)) as [c [es'|e']]; rewrite Hrun in Hc; [done|]. by injection Hc as -> _.
Qed.

Lemma commit_keeps cmd : closing cmd = false → wkeeps (world_commit cmd).
Proof. intros Hno w. apply commit_keeps_safe. intros _. by apply not_closing_safe. Qed.

(** Committing and queueing what it returns. *)
Lemma commit_queue_keeps cmd w :
  (trace_u64 w → ack_safe cmd w) → winv w →
  winv ((effects ← world_commit cmd; wmodify (push_pending effects)) w).1.
Proof.
  intros Hsafe Hw. unfold mbind, WM_bind. pose proof (commit_keeps_safe cmd w Hsafe Hw) as Hk.
  destruct (world_commit cmd w) as [w' [es|e]] eqn:Hrun; [|done]. cbn.
  apply (commit_push cmd w w' es es Hw Hsafe Hrun). intros _. apply Forall_forall. by left.
Qed.

Lemma apply_keeps cmd : closing cmd = false → wkeeps (world_apply cmd).
Proof.
  intros Hno w Hw. pose proof (commit_queue_keeps cmd w (λ _, not_closing_safe cmd w Hno) Hw) as Hk.
  unfold world_apply. unfold mbind, WM_bind in *. by destruct (world_commit cmd w) as [w' [es|e]].
Qed.

Lemma do_keeps cmd : closing cmd = false → wkeeps (world_do cmd).
Proof. intros Hno. apply wkeeps_bind; [by apply apply_keeps|]. intros _. apply wkeeps_ret. Qed.

(** Clock, agreement and epoch. *)
Lemma control_keeps ev f :
  (∀ c, cluster_inv c → cluster_inv (f c)) → (∀ c, c_bindings (f c) = c_bindings c) →
  (∀ c, replay_event c ev = Ok (f c)) → match ev with TrCommand _ => False | _ => True end →
  wkeeps_fn (λ w, push_trace ev (set_w_cluster (f (w_cluster w)) w)).
Proof.
  intros Hinv Hb Hr Hev w Hw Hu. specialize (Hw (trace_push _ _ Hu)). apply (advance_inv w _ (λ _, False)); try done.
  - apply Hinv, Hw.
  - rewrite replay_push. assert (replay_trace (set_w_cluster (f (w_cluster w)) w) = replay_trace w) as -> by done.
    rewrite (wi_replay _ Hw). apply Hr.
  - apply grows_same. cbn. apply Hb.
  - cbn. eapply issued_all_grows; [apply (grows_same (λ _, False)), Hb|apply Hw].
Qed.

Lemma set_now_keeps now : wkeeps_fn (world_set_now now).
Proof. apply (control_keeps (TrSetNow now) (set_now now)); try done. intros c. by apply inv_same. Qed.
Lemma set_agreement_keeps b : wkeeps_fn (world_set_agreement b).
Proof. apply (control_keeps (TrSetAgreement b) (set_agreement b)); try done. intros c. by apply inv_same. Qed.
Lemma advance_epoch_keeps : wkeeps_fn world_advance_epoch.
Proof. apply (control_keeps TrAdvanceEpoch advance_epoch); try done. intros c. by apply inv_same. Qed.

(** Events that replay to nothing. *)
Lemma neutral_keeps ev : (∀ c, replay_event c ev = Ok c) → wkeeps_fn (push_trace ev).
Proof.
  intros Hr w Hw Hu. specialize (Hw (trace_push _ _ Hu)). destruct Hw as [H1 H2 H3 H4 H5].
  constructor; try done. rewrite replay_push, H2. apply Hr.
Qed.

(** ** Endpoints *)

(** Endpoints change, the authority does not. *)
Lemma endpoints_inv w endpoints :
  world_inv w →
  (∀ key e, endpoints !! key = Some e → endpoint_ok (w_cluster w) key e) →
  (∀ key e, w_endpoints w !! key = Some e → ∃ e', endpoints !! key = Some e' ∧ ∀ f, past f e → past f e') →
  world_inv (set_w_endpoints endpoints w).
Proof.
  intros [H1 H2 H3 H4 H5] Hok Hpast. constructor; try done.
  intros k b Hcl. destruct (H5 k b Hcl) as (e & He & Hp). destruct (Hpast _ _ He) as (e' & He' & Hmono). eauto.
Qed.

Lemma endpoint_new_ok c key session : endpoint_ok c key (endpoint_new key.1 key.2 session).
Proof. by split. Qed.

Lemma handshake_ok c key e session : endpoint_ok c key e → endpoint_ok c key (handshake e session).
Proof. intros [H1 H2 H3]. unfold handshake. destruct (_ <? _); [|done]. by split. Qed.

Lemma handshake_past f e session : past f e → past f (handshake e session).
Proof. unfold handshake. by destruct (_ <? _). Qed.

Lemma past_closed f e fence : ep_accepted_fence e ≤ fence → past f e → past f (ep_set e fence false None Idle).
Proof.
  intros Hge Hp. assert (f ≤ fence) as Hf by (destruct Hp as [|[-> _]]; lia). unfold past. cbn.
  destruct (N.eq_dec f fence); [by right|left; lia].
Qed.

(** An endpoint gains a binding only by a prepare that names it; it never
    returns to a generation it is past. *)
Lemma endpoint_apply_ok c key e op k fence session e' :
  endpoint_ok c key e → names_binding c k key.2 key.1 fence → endpoint_apply e op k fence session = Ok e' →
  endpoint_ok c key e' ∧ (∀ f, past f e → past f e')
  ∧ (op = OpRelease ∨ op = OpFence → past fence e').
Proof.
  intros [Hwf Hp Hb] Hk. unfold endpoint_apply. destruct (negb _); [done|].
  destruct op; unfold ep_prepare, ep_activate, ep_close.
  - destruct (N.ltb_spec fence (ep_accepted_fence e)) as [|Hge]; [done|].
    destruct (N.eqb_spec fence (ep_accepted_fence e)) as [|Hne]; [destruct (_ && _); [|done]|]; intros [= <-].
    + split_and!; [by split|done|by intros [|]].
    + split_and!; [split|intros f|by intros [|]]; cbn; [by split; eauto|done|by intros ? [= <-]|].
      unfold past. cbn. lia.
  - destruct (negb _ || _ || _); [done|]. unfold endpoint_wf in Hwf.
    destruct (ep_phase e) eqn:Hph; [done|..]; intros [= <-]; (split_and!; [split|done|by intros [|]]);
      unfold endpoint_wf; cbn; rewrite ?Hph; done.
  - destruct (N.ltb_spec fence (ep_accepted_fence e)) as [Hlt|Hge]; intros [= <-].
    + split_and!; [by split|done|]. intros _. by left.
    + split_and!; [by split|intros f; by apply past_closed|intros _; by right].
  - destruct (N.ltb_spec fence (ep_accepted_fence e)) as [Hlt|Hge]; intros [= <-].
    + split_and!; [by split|done|]. intros _. by left.
    + split_and!; [by split|intros f; by apply past_closed|intros _; by right].
Qed.

Lemma winv_endpoints w endpoints :
  winv w →
  (∀ key e, endpoints !! key = Some e →
     (∀ e0, w_endpoints w !! key = Some e0 → world_inv w → endpoint_ok (w_cluster w) key e0) →
     world_inv w → endpoint_ok (w_cluster w) key e) →
  (∀ key e, w_endpoints w !! key = Some e → ∃ e', endpoints !! key = Some e' ∧ ∀ f, past f e → past f e') →
  winv (set_w_endpoints endpoints w).
Proof.
  intros Hw Hok Hpast Hu. specialize (Hw Hu). apply endpoints_inv; [done| |done].
  intros key e He. apply Hok; [done| |done]. intros e0 He0 _. by apply Hw.
Qed.

(** Agents say hello: endpoints handshake or appear. *)
Lemma greet_keeps session keys : wkeeps_fn (λ w, set_w_endpoints (foldl (greet_endpoint session) (w_endpoints w) keys) w).
Proof.
  induction keys as [|key keys IH] using rev_ind; intros w Hw.
  { apply (winv_frame w); done. }
  rewrite foldl_app. cbn [foldl]. specialize (IH w Hw).
  set (w1 := set_w_endpoints (foldl (greet_endpoint session) (w_endpoints w) keys) w).
  apply (winv_frame (set_w_endpoints (greet_endpoint session (w_endpoints w1) key) w1)); try done.
  apply winv_endpoints; [done| |].
  - intros k e. unfold greet_endpoint. rewrite lookup_insert. destruct (decide (key = k)) as [->|]; [|eauto].
    destruct (w_endpoints w1 !! k) as [e0|] eqn:Hk; intros [= <-] Hold Hi; [|apply endpoint_new_ok].
    apply handshake_ok. by apply Hold.
  - intros k e He. unfold greet_endpoint. rewrite lookup_insert. destruct (decide (key = k)) as [->|]; [|eauto].
    rewrite He. eexists. split; [done|]. intros f. apply handshake_past.
Qed.

Lemma begin_agent_keeps machine w : winv w → winv (begin_agent machine w).1.
Proof. by apply winv_frame. Qed.

Lemma register_agent_keeps machine : wkeeps (world_register_agent machine).
Proof.
  intros w Hw. unfold world_register_agent. pose proof (begin_agent_keeps machine w Hw) as Hb.
  destruct (begin_agent machine w) as [w1 session]. cbn [fst] in Hb.
  apply wkeeps_bind; [by apply apply_keeps|intros _; apply wkeeps_ret|]. by apply greet_keeps.
Qed.

Lemma restart_agent_keeps machine : wkeeps (world_restart_agent machine).
Proof.
  intros w Hw. unfold world_restart_agent. pose proof (begin_agent_keeps machine w Hw) as Hb.
  destruct (begin_agent machine w) as [w1 session]. cbn [fst] in Hb.
  apply wkeeps_bind; [by apply apply_keeps|intros _; apply wkeeps_ret|]. apply neutral_keeps; [done|].
  apply winv_endpoints; [done| |].
  - intros key e (e0 & <- & He0)%lookup_fmap_Some Hold Hi. specialize (Hold e0 He0 Hi).
    case_bool_decide; [by apply handshake_ok|done].
  - intros key e He. rewrite lookup_fmap, He. eexists. split; [done|]. intros f Hf.
    case_bool_decide; [by apply handshake_past|done].
Qed.

Lemma restart_controller_keeps : wkeeps restart_controller.
Proof.
  intros w Hw. unfold restart_controller. destruct (replay_trace w) as [c|e] eqn:Hr; [|done].
  intros Hu. cbn [fst] in Hu |- *. specialize (Hw Hu). rewrite (wi_replay _ Hw) in Hr. injection Hr as <-. by destruct w.
Qed.

(** ** Delivery *)

Lemma apply_effect_frame e w :
  w_cluster (apply_effect e w).1 = w_cluster w ∧ w_trace (apply_effect e w).1 = w_trace w
  ∧ w_pending (apply_effect e w).1 = w_pending w.
Proof.
  unfold apply_effect. destruct (effect_fields e) as [[[[[[[op k] n] p] f] s] ep]|]; [|done].
  repeat (case_match; try done).
Qed.

(** The endpoint decides; a closing acknowledgement leaves it past the fence. *)
Lemma apply_effect_keeps e w w' cmd :
  issued (w_cluster w) e → world_inv w → apply_effect e w = (w', cmd) →
  world_inv w' ∧ ∀ command, cmd = Some command → ack_safe command w'.
Proof.
  intros Hiss Hw. unfold issued in Hiss. unfold apply_effect.
  destruct (effect_fields e) as [[[[[[[op k] n] p] f] s] ep]|]; [|by intros [= <- <-]].
  destruct (machine_of _ n) as [m|]; [|by intros [= <- <-]].
  destruct (w_agents w !! m) as [agent|]; [|by intros [= <- <-]].
  destruct (_ || _); [by intros [= <- <-]|]. set (agent' := if _ <? _ then _ else _). cbn zeta.
  set (w1 := set_w_agents _ w).
  assert (world_inv w1) as Hw1.
  { destruct Hw. by constructor. }
  set (e0 := default _ (w_endpoints w1 !! (p, n))).
  assert (endpoint_ok (w_cluster w1) (p, n) e0
    ∧ ∀ e1, w_endpoints w1 !! (p, n) = Some e1 → e1 = e0) as [Hok Hcur].
  { subst e0. destruct (w_endpoints w1 !! (p, n)) as [e1|] eqn:He1; cbn; [|split; [apply endpoint_new_ok|done]].
    split; [by apply (wi_endpoints _ Hw1)|]. by intros ? [= <-]. }
  assert (∀ e1, endpoint_ok (w_cluster w1) (p, n) e1 → (∀ f, past f e0 → past f e1) →
    world_inv (set_w_endpoints (<[(p, n) := e1]> (w_endpoints w1)) w1)) as Hins.
  { intros e1 Hok1 Hpast. apply endpoints_inv; [done| |].
    - intros key x. rewrite lookup_insert. destruct (decide ((p, n) = key)) as [<-|]; [by intros [= <-]|apply Hw1].
    - intros key x Hx. rewrite lookup_insert. destruct (decide ((p, n) = key)) as [<-|]; [|eauto].
      exists e1. split; [done|]. by rewrite (Hcur x Hx). }
  destruct (endpoint_apply e0 op k f s) as [e1|err] eqn:Happ.
  - destruct (endpoint_apply_ok _ _ _ _ _ _ _ _ Hok Hiss Happ) as (Hok1 & Hpast & Hclose).
    intros [= <- <-]. split.
    + specialize (Hins e1 Hok1 Hpast). destruct (is_prepare op); [|done]. destruct Hins. by constructor.
    + intros command [= <-] k' s' f' b Hor Hb Hf.
      assert (k' = k ∧ f' = f ∧ (op = OpRelease ∨ op = OpFence)) as (-> & -> & Hop).
      { destruct op; cbn in Hor; destruct Hor as [[=]|[=]]; subst; auto. }
      assert (c_bindings (w_cluster w) !! k = Some b) as Hb' by (destruct Hop as [-> | ->]; exact Hb).
      destruct Hiss as (b0 & Hb0 & Hn & Hp & _). rewrite Hb' in Hb0. injection Hb0 as <-.
      exists e1. rewrite Hn, Hp, Hf. split; [|by apply Hclose].
      destruct Hop as [-> | ->]; cbn; by rewrite lookup_insert, decide_True by done.
  - intros [= <- <-]. split; [by apply Hins|]. destruct (is_prepare op); [|done].
    intros command [= <-] k' s' f' b [[=]|[=]].
Qed.

Lemma push_issued l : (∀ w, world_inv w → Forall (issued (w_cluster w)) l) → wkeeps_fn (push_pending l).
Proof.
  intros Hl w Hw Hu. specialize (Hw Hu). specialize (Hl w Hw). destruct Hw. constructor; try done.
  by apply Forall_app.
Qed.

Lemma push_issued_at l w :
  (world_inv w → Forall (issued (w_cluster w)) l) → winv w → winv (push_pending l w).
Proof.
  intros Hl Hw Hu. specialize (Hw Hu). specialize (Hl Hw). destruct Hw. constructor; try done.
  by apply Forall_app.
Qed.

Lemma resend_issued c kind k b session epoch :
  plain_kind kind → c_bindings c !! k = Some b → issued c (resend kind k b session epoch).
Proof. intros Hkind Hb. unfold issued, resend. edestruct Hkind as [op ->]. by exists b. Qed.

Lemma reconcile_binding_keeps session epoch failed binding : wkeeps (reconcile_binding session epoch failed binding).
Proof.
  destruct plain_kinds as (Hp & Ha & _ & Hf). intros w Hw. unfold reconcile_binding, wget, mbind, WM_bind.
  destruct (c_bindings (w_cluster w) !! binding) as [b|] eqn:Hb; [|done].
  destruct (_ && _).
  - set (l := _ ++ _). assert (Forall (issued (w_cluster w)) l) as Hl.
    { apply Forall_app. split; case_bool_decide; repeat constructor; by apply resend_issued. }
    pose proof (commit_keeps (RebindSession binding session) eq_refl w Hw) as Hk.
    destruct (world_commit (RebindSession binding session) w) as [w' [es|e]] eqn:Hrun; [|done]. cbn.
    apply (commit_push (RebindSession binding session) w w' es l Hw); [intros _; by apply not_closing_safe|done|].
    intros _.     eapply Forall_impl; [exact Hl|]. by right.
  - case_bool_decide; [|done]. destruct (_ && _).
    + match goal with |- context [world_apply ?cmd w] => pose proof (apply_keeps cmd eq_refl w Hw) as Hk end.
      by destruct (world_apply _ w) as [w' [es|e]].
    + cbn. apply push_issued_at; [|done]. intros _. repeat constructor. by apply resend_issued.
Qed.

Lemma reconcile_bindings_keeps session epoch failed bindings :
  wkeeps (reconcile_bindings session epoch failed bindings).
Proof.
  revert failed. induction bindings as [|k bindings IH]; intros failed; [apply wkeeps_ret|].
  apply wkeeps_bind; [apply reconcile_binding_keeps|apply IH].
Qed.

Lemma stray_issued w machine session epoch entry e :
  world_inv w → w_endpoints w !! entry.1 = Some entry.2 → stray_fence w machine session epoch entry = Some e →
  issued (w_cluster w) e.
Proof.
  destruct entry as [[p n] ep]. cbn [fst snd]. intros Hw He. unfold stray_fence. destruct (_ || _); [done|].
  match goal with |- (if ?b then _ else _) = _ → _ => destruct b; [|done] end.
  destruct (ep_binding ep) as [k|] eqn:Hk; [|done]. intros [= <-].
  destruct (wi_endpoints _ Hw _ _ He) as [_ Hp Hb]. unfold issued. cbn in Hp |- *. rewrite Hp. by apply (Hb k Hk).
Qed.

Lemma reconcile_keeps machine session epoch bindings : wkeeps (world_reconcile machine session epoch bindings).
Proof.
  intros w Hw. unfold world_reconcile. destruct (w_agents w !! machine) as [agent|]; [|done].
  destruct (epoch <? wa_epoch agent); [done|].
  set (w1 := set_w_agents _ w). assert (winv w1) as Hw1 by (by apply (winv_frame w)).
  pose proof (reconcile_bindings_keeps session epoch ∅ bindings w1 Hw1) as Hk. unfold mbind, WM_bind.
  destruct (reconcile_bindings session epoch ∅ bindings w1) as [w2 [[]|e]]; [|done]. cbn in Hk |- *.
  apply push_issued_at; [|done]. intros Hi. apply Forall_forall. intros e (entry & Hin & Hs)%list_elem_of_omap.
  destruct entry as [key ep]. apply elem_of_bt_iter in Hin. exact (stray_issued w2 machine session epoch (key, ep) e Hi Hin Hs).
Qed.

(** Delivering an issued effect. *)
Lemma dispatch_keeps e w : (trace_u64 w → issued (w_cluster w) e) → winv w → winv (world_dispatch e w).1.
Proof.
  intros Hiss Hw.
  assert (winv (let '(w, command) := apply_effect e w in
                match command with
                | Some command => (effects ← world_commit command; wmodify (push_pending effects)) w
                | None => (w, Ok ())
                end).1) as Happ.
  { pose proof (apply_effect_frame e w) as (Hc & Ht & Hp).
    destruct (apply_effect e w) as [w' cmd] eqn:Hrun. cbn [fst] in *.
    assert (trace_u64 w' → trace_u64 w) as Hback by (unfold trace_u64; by rewrite Ht).
    assert (winv w') as Hw'.
    { intros Hu%Hback. by destruct (apply_effect_keeps e w w' cmd (Hiss Hu) (Hw Hu) Hrun). }
    destruct cmd as [command|]; [|done]. apply commit_queue_keeps; [|done]. intros Hu%Hback.
    destruct (apply_effect_keeps e w w' _ (Hiss Hu) (Hw Hu) Hrun) as [_ Hsafe]. by apply Hsafe. }
  destruct e; try exact Happ. apply reconcile_keeps. exact Hw.
Qed.

Lemma deliver_one_keeps : wkeeps deliver_one.
Proof.
  intros w Hw. unfold deliver_one. destruct (w_pending w) as [|e pending] eqn:Hp; [done|].
  set (w1 := push_trace TrDeliver (set_w_pending pending w)).
  assert (winv w1) as Hw1.
  { apply neutral_keeps; [done|]. intros Hu. destruct (Hw Hu) as [H1 H2 H3 H4 H5]. constructor; try done.
    rewrite Hp in H3. by inversion H3. }
  assert (winv (world_dispatch e w1).1) as Hd.
  { apply dispatch_keeps; [|done]. intros Hu%trace_push. pose proof (wi_pending _ (Hw Hu)) as H3.
    rewrite Hp in H3. by inversion H3. }
  unfold mbind, WM_bind. by destruct (world_dispatch e w1) as [w2 [[]|err]].
Qed.

Lemma drop_one_keeps w : winv w → winv (drop_one w).1.
Proof.
  intros Hw. unfold drop_one. destruct (w_pending w) as [|e pending] eqn:Hp; [done|].
  apply neutral_keeps; [done|]. intros Hu. destruct (Hw Hu) as [H1 H2 H3 H4 H5]. constructor; try done.
  rewrite Hp in H3. by inversion H3.
Qed.

(** ** Operations *)

Create HintDb world.
#[export] Hint Resolve wkeeps_ret wkeeps_get wkeeps_lift do_keeps apply_keeps register_agent_keeps
  restart_agent_keeps restart_controller_keeps deliver_one_keeps : world.
#[export] Hint Extern 5 (wkeeps (_ ≫= _)) => apply wkeeps_bind; [|intros ?] : world.
#[export] Hint Extern 5 (wkeeps (wfor _ _)) => apply wkeeps_for; intros ? : world.
#[export] Hint Extern 5 (closing _ = false) => reflexivity : world.

(** Fields the invariant does not read. *)
Ltac keeps_frame :=
  apply wkeeps_modify; let w := fresh "w" in let Hw := fresh "Hw" in intros w Hw; by apply (winv_frame w).
#[export] Hint Extern 6 (wkeeps (wmodify _)) => keeps_frame : world.

Lemma bind_claims_keeps lease next claims : wkeeps (bind_claims lease next claims).
Proof. revert next. induction claims as [|claim claims IH]; intros next; cbn [bind_claims]; auto 10 with world. Qed.
#[export] Hint Resolve bind_claims_keeps : world.

Lemma bind_next_keeps lease : wkeeps (bind_next lease).
Proof. unfold bind_next, bind_enforced. auto 10 with world. Qed.
#[export] Hint Resolve bind_next_keeps : world.

Lemma admit_then_dequeue_keeps admission lease owner : wkeeps (admit_then_dequeue admission lease owner).
Proof. destruct admission; cbn [admit_then_dequeue]; unfold open_admission; auto 10 with world. Qed.
#[export] Hint Resolve admit_then_dequeue_keeps : world.

Inductive WorldOp :=
| WApplyGraph (nodes : list Node) (edges : list Edge)
| WApplyResourceFacts (nodes : list Node) (edges : list Edge) (claim_bindings : list ClaimBindingUpdate)
| WRegisterAgent (machine : NodeId)
| WApply (command : Command)
| WSetNow (now : u64)
| WSetAgreement (agreed : bool)
| WAdvanceEpoch
| WDropOne
| WDeliverOne
| WInject (effect : Effect)
| WRestartAgent (machine : NodeId)
| WRestartController
| WEnqueue (request : Request) (owner : OwnerId)
| WAdmitNext (lease : LeaseId) (owner : OwnerId)
| WAdmitNextBackfill (lease : LeaseId) (owner : OwnerId)
| WAdmitNextWithCeiling (lease : LeaseId) (owner : OwnerId) (owner_ceiling : ClassUsage)
| WSetHealth (node : NodeId) (health : string)
| WReserve (request : Request) (lease : LeaseId) (owner : OwnerId) (expires_at : u64)
| WPromote (lease : LeaseId)
| WPlace (request : Request) (lease : LeaseId) (owner : OwnerId) (parent : option LeaseId)
    (expires_at prepare_deadline : u64)
| WBindEnforced (lease : LeaseId) (start : u64)
| WActivateLease (lease : LeaseId)
| WReleaseLease (lease : LeaseId)
| WRevokeLease (lease : LeaseId)
| WPreemptFor (request : Request)
| WFailMachine (machine : NodeId)
| WUnquarantineMachine (machine : NodeId)
| WExpireDue
| WFailLatePrepares.

(** A failed operation leaves the world it reached. *)
Definition world_op (w : World) (op : WorldOp) : World :=
  match op with
  | WApplyGraph nodes edges => (world_apply_graph nodes edges w).1
  | WApplyResourceFacts nodes edges updates => (world_apply_resource_facts nodes edges updates w).1
  | WRegisterAgent machine => (world_register_agent machine w).1
  | WApply command => (world_apply command w).1
  | WSetNow now => world_set_now now w
  | WSetAgreement agreed => world_set_agreement agreed w
  | WAdvanceEpoch => world_advance_epoch w
  | WDropOne => (drop_one w).1
  | WDeliverOne => (deliver_one w).1
  | WInject effect => (world_dispatch effect w).1
  | WRestartAgent machine => (world_restart_agent machine w).1
  | WRestartController => (restart_controller w).1
  | WEnqueue request owner => world_enqueue request owner w
  | WAdmitNext lease owner => (admit_next lease owner w).1
  | WAdmitNextBackfill lease owner => (admit_next_backfill lease owner w).1
  | WAdmitNextWithCeiling lease owner ceiling => (admit_next_with_ceiling lease owner ceiling w).1
  | WSetHealth node health => (set_health node health w).1
  | WReserve request lease owner expires_at => (world_reserve request lease owner expires_at w).1
  | WPromote lease => (world_promote lease w).1
  | WPlace request lease owner parent expires_at deadline =>
      (world_place request lease owner parent expires_at deadline w).1
  | WBindEnforced lease start => (bind_enforced lease start w).1
  | WActivateLease lease => (world_activate_lease lease w).1
  | WReleaseLease lease => (world_release_lease lease w).1
  | WRevokeLease lease => (world_revoke_lease lease w).1
  | WPreemptFor request => (preempt_for request w).1
  | WFailMachine machine => (fail_machine machine w).1
  | WUnquarantineMachine machine => (unquarantine_machine machine w).1
  | WExpireDue => (world_expire_due w).1
  | WFailLatePrepares => (fail_late_prepares w).1
  end.

(** Acknowledgements of closing come from endpoints, and a repeated or delayed
    effect names a binding as the kernel stored it (whatever its session and
    epoch). *)
Definition op_ok (w : World) (op : WorldOp) : Prop :=
  match op with
  | WApply command => closing command = false
  | WInject effect => issued (w_cluster w) effect
  | _ => True
  end.

Lemma world_op_keeps w op : op_ok w op → winv w → winv (world_op w op).
Proof.
  intros Hok. destruct op; cbn [world_op op_ok] in *.
  10: by apply dispatch_keeps.
  1, 2: by apply do_keeps.
  all: try (match goal with |- winv ?x → winv (?m ?x).1 => cut (wkeeps m); [by intros Hm ?; apply Hm|] end).
  - auto 20 with world.
  - auto 20 with world.
  - apply set_now_keeps.
  - apply set_agreement_keeps.
  - apply advance_epoch_keeps.
  - apply drop_one_keeps.
  - auto 20 with world.
  - auto 20 with world.
  - auto 20 with world.
  - by apply winv_frame.
  - unfold admit_next; auto 20 with world.
  - unfold admit_next_backfill; auto 20 with world.
  - unfold admit_next_with_ceiling, open_admission. apply wkeeps_bind; [apply wkeeps_get|intros ?].
    destruct (cluster_admit_with_ceiling _ _ _); auto 20 with world.
  - unfold set_health; auto 20 with world.
  - unfold world_reserve; auto 20 with world.
  - unfold world_promote; auto 20 with world.
  - unfold world_place; auto 20 with world.
  - unfold bind_enforced; auto 20 with world.
  - unfold world_activate_lease; auto 20 with world.
  - unfold world_release_lease; auto 20 with world.
  - unfold world_revoke_lease; auto 20 with world.
  - unfold preempt_for, world_revoke_lease. apply wkeeps_bind; [apply wkeeps_get|intros ?].
    destruct (preempt_victims _ _); auto 20 with world.
  - unfold fail_machine, world_revoke_lease. auto 20 with world.
  - unfold unquarantine_machine; auto 20 with world.
  - unfold world_expire_due; auto 20 with world.
  - unfold fail_late_prepares; auto 20 with world.
Qed.

(** ** Runs *)

Definition world_run (w : World) (ops : list WorldOp) : World := foldl world_op w ops.

(** Every operation is admissible and commits amounts that fit. *)
Fixpoint ops_ok (w : World) (ops : list WorldOp) : Prop :=
  match ops with
  | [] => True
  | op :: ops => op_ok w op ∧ trace_u64 (world_op w op) ∧ ops_ok (world_op w op) ops
  end.

Lemma world_new_inv : world_inv world_new.
Proof.
  constructor; [apply cluster_new_inv|done|constructor|..].
  - intros key e He. cbn in He. by rewrite lookup_empty in He.
  - intros k b [Hb _]. cbn in Hb. by rewrite lookup_empty in Hb.
Qed.

Lemma world_run_inv ops w : ops_ok w ops → world_inv w → world_inv (world_run w ops).
Proof.
  revert w. induction ops as [|op ops IH]; intros w Hok Hw; [done|]. destruct Hok as (Hop & Hu & Hok).
  apply (IH (world_op w op)); [done|]. exact (world_op_keeps w op Hop (λ _, Hw) Hu).
Qed.

(** C20. End to end: however effects between kernel and providers are dropped,
    repeated, delayed or reordered, and whatever agents and controllers
    restart, an endpoint enforces only a binding that the kernel stores for
    exactly that provider, node and fence and has not closed, so that its
    lease still occupies a claim on the node: nothing the kernel can hand out
    again is still being enforced. *)
Theorem enforcement_has_authority ops key e k :
  let w := world_run world_new ops in
  ops_ok world_new ops →
  w_endpoints w !! key = Some e → ep_binding e = Some k →
  ∃ b l cl, c_bindings (w_cluster w) !! k = Some b
    ∧ (binding_provider b, binding_node b) = key ∧ binding_fence b = ep_accepted_fence e
    ∧ is_closed (binding_state b) = false
    ∧ c_leases (w_cluster w) !! binding_lease b = Some l
    ∧ occupies (w_cluster w) (binding_lease b) = true
    ∧ cl ∈ lease_claims l ∧ claim_node cl = key.2.
Proof.
  intros w Hok He Hk. pose proof (world_run_inv ops world_new Hok world_new_inv : world_inv w) as Hw.
  destruct (eo_holds _ _ _ (wi_endpoints _ Hw _ _ He) k Hk) as (b & Hb & Hn & Hp & Hf).
  assert ((binding_provider b, binding_node b) = key) as Hkey by (destruct key; cbn in *; congruence).
  assert (is_closed (binding_state b) = false) as Ho.
  { destruct (is_closed (binding_state b)) eqn:Hcl; [|done]. exfalso.
    destruct (wi_closed _ Hw k b (conj Hb Hcl)) as (e' & He' & Hpast). rewrite Hkey, He in He'. injection He' as <-.
    destruct Hpast as [|[_ ?]]; [lia|congruence]. }
  pose proof (wi_cluster _ Hw) as Hinv. destruct (ci_binds _ Hinv _ _ Hb) as (_ & l & Hl & _ & cl & Hcl & Hnode).
  exists b, l, cl. split_and!; try done; [|congruence].
  rewrite (occupies_lookup _ _ l) by (done || apply (ci_keyed _ Hinv)).
  assert (open_bindings (w_cluster w) (binding_lease b) = true) as ->; [|by rewrite orb_true_r].
  apply open_bindings_true. eauto.
Qed.

(** ** Crashes of the controller *)

Definition not_restart (op : WorldOp) : bool := match op with WRestartController => false | _ => true end.

(** C21. Crashes of the controller are invisible: rebuilding the authority from
    the committed trace gives exactly the authority that was lost, so a run
    with crashes at any moments reaches the very world (authority, endpoints,
    effects under way) of the run without them. *)
Theorem controller_crashes_invisible ops :
  ops_ok world_new ops →
  replay_trace (world_run world_new ops) = Ok (w_cluster (world_run world_new ops))
  ∧ world_run world_new ops = world_run world_new (List.filter not_restart ops).
Proof.
  intros Hok. split; [apply (wi_replay _ (world_run_inv ops world_new Hok world_new_inv))|].
  revert Hok. generalize world_new_inv. generalize world_new.
  induction ops as [|op ops IH]; intros w Hw Hok; [done|]. destruct Hok as (Hop & Hu & Hok). cbn [world_run foldl].
  assert (world_inv (world_op w op)) as Hw' by exact (world_op_keeps w op Hop (λ _, Hw) Hu).
  specialize (IH (world_op w op) Hw' Hok). destruct op; try exact IH. cbn [List.filter not_restart].
  assert (world_op w WRestartController = w) as Hid.
  { cbn. unfold restart_controller. rewrite (wi_replay _ Hw). by destruct w. }
  rewrite Hid in IH |- *. exact IH.
Qed.

(** ** Delivery ends *)

(** A reconciliation queues anything but reconciliations, a prepare only
    fences, everything else nothing. *)
Definition rank (e : Effect) : nat :=
  match e with EffReconcile _ _ _ _ => 2 | EffPrepare _ _ _ _ _ _ => 1 | _ => 0 end.

Definition low (n : nat) (es : list Effect) : Prop := Forall (λ e, (rank e < n)%nat) es.

Lemma low_fences c lease : low 1 (fence_effects c lease).
Proof. apply Forall_fmap, Forall_forall. intros b _. cbn. lia. Qed.

Lemma low_le n m es : (n ≤ m)%nat → low n es → low m es.
Proof. intros Hle Hl. eapply Forall_impl; [exact Hl|]. cbn. lia. Qed.

Lemma fail_lease_low lease reason c c' es : fail_lease lease reason c = (c', Ok es) → low 1 es.
Proof.
  unfold fail_lease. rewrite bind_get, bind_run, end_descendants_run.
  assert (∀ l c, low 1 (l ≫= fence_effects c)) as Htree.
  { intros l c0. apply Forall_forall. intros e (k & He & _)%list_elem_of_bind.
    pose proof (low_fences c0 k) as Hf. unfold low in Hf. rewrite Forall_forall in Hf. by apply Hf. }
  intros Hrun. run Hrun; [apply Htree|]. apply Forall_app. split; [apply Htree|apply low_fences].
Qed.

Lemma ack_low cmd c c' es :
  dispatch cmd c = (c', Ok es) →
  match cmd with
  | RebindSession _ _ | RecordBindingPrepared _ _ _ _ | RecordBindingActive _ _ _
  | RecordBindingReleased _ _ _ | RecordBindingFenced _ _ _ => es = []
  | FailLease _ _ | RecordBindingFailed _ _ _ _ => low 1 es
  | _ => True
  end.
Proof.
  destruct cmd; cbn [dispatch]; try done.
  - apply fail_lease_low.
  - intros (b & _ & _ & Hrun)%acknowledged_bind. by run Hrun.
  - intros (b & _ & _ & Hrun)%acknowledged_bind. by run Hrun.
  - intros (b & _ & _ & Hrun)%acknowledged_bind. by run Hrun.
  - intros (b & _ & _ & Hrun)%acknowledged_bind. by run Hrun.
  - intros (b & _ & _ & Hrun)%acknowledged_bind. run Hrun. apply low_fences.
  - intros Hrun. unfold rebind_session in Hrun. by run Hrun.
Qed.

(** The world queues only effects below [n]. *)
Definition queues (n : nat) (w w' : World) : Prop := ∃ l, w_pending w' = w_pending w ++ l ∧ low n l.

Lemma queues_refl n w w' : w_pending w' = w_pending w → queues n w w'.
Proof. intros H. exists []. rewrite app_nil_r. split; [done|constructor]. Qed.
Lemma queues_trans n w1 w2 w3 : queues n w1 w2 → queues n w2 w3 → queues n w1 w3.
Proof.
  intros (l & H1 & Hl) (l' & H2 & Hl'). exists (l ++ l'). rewrite H2, H1, app_assoc. split; [done|]. by apply Forall_app.
Qed.
Lemma queues_le n m w w' : (n ≤ m)%nat → queues n w w' → queues m w w'.
Proof. intros Hle (l & H & Hl). exists l. split; [done|]. by apply (low_le n). Qed.
Lemma queues_push n w l : low n l → queues n w (push_pending l w).
Proof. intros Hl. by exists l. Qed.

Lemma commit_pending cmd w : w_pending (world_commit cmd w).1 = w_pending w.
Proof. unfold world_commit. by destruct (cluster_apply cmd (w_cluster w)) as [c [es|e]]. Qed.

Lemma commit_effects cmd w w' es :
  world_commit cmd w = (w', Ok es) → ∃ c, dispatch cmd (w_cluster w) = (c, Ok es).
Proof.
  unfold world_commit. rewrite apply_run. destruct (dispatch cmd (w_cluster w)) as [c [es'|e]]; [|done].
  intros [= _ <-]. eauto.
Qed.

Lemma reconcile_binding_queues session epoch failed k w :
  queues 2 w (reconcile_binding session epoch failed k w).1.
Proof.
  unfold reconcile_binding, wget, mbind, WM_bind. destruct (c_bindings (w_cluster w) !! k) as [b|]; [|by apply queues_refl].
  destruct (_ && _).
  - set (l := _ ++ _). assert (low 2 l) as Hl.
    { apply Forall_app. split; case_bool_decide; repeat constructor. }
    pose proof (commit_pending (RebindSession k session) w) as Hp.
    destruct (world_commit _ w) as [w' [es|e]]; cbn [fst] in Hp; [|by apply queues_refl].
    eapply queues_trans; [apply queues_refl; exact Hp|]. by apply queues_push.
  - case_bool_decide; [|by apply queues_refl]. destruct (_ && _); [|apply queues_push; repeat constructor].
    set (cmd := FailLease _ _). unfold world_apply, mbind, WM_bind. pose proof (commit_pending cmd w) as Hp.
    destruct (world_commit cmd w) as [w' [es|e]] eqn:Hrun; cbn [fst] in Hp; [|by apply queues_refl].
    apply commit_effects in Hrun as [c Hc]. apply ack_low in Hc. cbn in Hc.
    eapply queues_trans; [apply queues_refl; exact Hp|]. apply queues_push. by apply (low_le 1); [lia|].
Qed.

Lemma reconcile_bindings_queues session epoch failed ks w :
  queues 2 w (reconcile_bindings session epoch failed ks w).1.
Proof.
  revert failed w. induction ks as [|k ks IH]; intros failed w; [by apply queues_refl|].
  cbn [reconcile_bindings]. unfold mbind, WM_bind.
  pose proof (reconcile_binding_queues session epoch failed k w) as Hk.
  destruct (reconcile_binding session epoch failed k w) as [w' [failed'|e]]; [|done].
  eapply queues_trans; [exact Hk|apply IH].
Qed.

Lemma reconcile_queues machine session epoch ks w : queues 2 w (world_reconcile machine session epoch ks w).1.
Proof.
  unfold world_reconcile. destruct (w_agents w !! machine) as [agent|]; [|by apply queues_refl].
  destruct (_ <? _); [by apply queues_refl|]. set (w1 := set_w_agents _ w). unfold mbind, WM_bind.
  pose proof (reconcile_bindings_queues session epoch ∅ ks w1) as Hk.
  destruct (reconcile_bindings session epoch ∅ ks w1) as [w2 [[]|e]]; [|done].
  eapply (queues_trans _ w1); [done|]. apply queues_push. apply Forall_forall.
  intros e (entry & _ & Hs)%list_elem_of_omap. destruct entry as [[p n] ep]. unfold stray_fence in Hs.
  destruct (_ || _); [done|]. match type of Hs with (if ?b then _ else _) = _ => destruct b; [|done] end.
  destruct (ep_binding ep); [|done]. injection Hs as <-. cbn. lia.
Qed.

Lemma dispatch_queues e w : queues (rank e) w (world_dispatch e w).1.
Proof.
  assert (rank e ≠ 2%nat → queues (rank e) w
    (let '(w, command) := apply_effect e w in
     match command with
     | Some command => (effects ← world_commit command; wmodify (push_pending effects)) w
     | None => (w, Ok ())
     end).1) as Happ.
  { intros Hrank. pose proof (apply_effect_frame e w) as (_ & _ & Hp).
    destruct (apply_effect e w) as [w' [cmd|]] eqn:Hae; cbn [fst] in Hp; [|by apply queues_refl].
    apply (queues_trans _ w w'); [by apply queues_refl|]. unfold mbind, WM_bind.
    pose proof (commit_pending cmd w') as Hp'.
    destruct (world_commit cmd w') as [w2 [es|err]] eqn:Hrun; cbn [fst] in Hp'; [|by apply queues_refl].
    apply (queues_trans _ w' w2); [by apply queues_refl|]. apply queues_push.
    apply commit_effects in Hrun as [c Hc]. apply ack_low in Hc. clear -Hae Hc Hrank.
    unfold apply_effect in Hae. destruct e; cbn in Hae, Hrank |- *; try done;
      repeat (case_match; simplify_eq/=; try done); simplify_eq/=; try done; try by (rewrite Hc; constructor).
    all: by subst; constructor. }
  destruct e; try (apply Happ; done). apply reconcile_queues.
Qed.

(** How many effects under way have the rank. *)
Definition count_rank (n : nat) (es : list Effect) : nat := length (List.filter (λ e, Nat.eqb (rank e) n) es).

Lemma count_app n l l' : count_rank n (l ++ l') = (count_rank n l + count_rank n l')%nat.
Proof. unfold count_rank. by rewrite List.filter_app, length_app. Qed.

Lemma count_low n m es : low n es → (n ≤ m)%nat → count_rank m es = 0%nat.
Proof.
  intros Hl Hle. unfold count_rank. induction Hl as [|e es He _ IH]; [done|]. cbn.
  destruct (Nat.eqb_spec (rank e) m); [lia|done].
Qed.

(** A delivery takes one effect away and queues only lower ones. *)
Lemma deliver_one_counts w w' :
  deliver_one w = (w', Ok true) →
  ∃ r, (count_rank r (w_pending w') < count_rank r (w_pending w))%nat ∧ (r ≤ 2)%nat
    ∧ ∀ m, (r < m)%nat → count_rank m (w_pending w') = count_rank m (w_pending w).
Proof.
  unfold deliver_one. destruct (w_pending w) as [|e pending]; [done|]. set (w1 := push_trace _ _).
  pose proof (dispatch_queues e w1) as (l & Hl & Hlow). unfold mbind, WM_bind.
  destruct (world_dispatch e w1) as [w2 [[]|err]]; [|done]. intros [= <-]. cbn in Hl.
  exists (rank e). rewrite Hl. split_and!; [|by destruct e; cbn; lia|].
  - rewrite count_app, (count_low (rank e) (rank e) l) by done. unfold count_rank. cbn. rewrite Nat.eqb_refl. cbn. lia.
  - intros m Hm. rewrite count_app, (count_low (rank e) m l) by (done || lia). unfold count_rank. cbn.
    destruct (Nat.eqb_spec (rank e) m); [lia|]. lia.
Qed.

Definition ends (w : World) : Prop :=
  ∃ n out, (∀ fuel, (n ≤ fuel)%nat → deliver_all fuel w = Some out) ∧ (out.2 = Ok () → w_pending out.1 = []).

Lemma ends_step w : (∀ w', deliver_one w = (w', Ok true) → ends w') → ends w.
Proof.
  intros Hnext. destruct (deliver_one w) as [w' [[]|e]] eqn:Hd.
  - destruct (Hnext w' eq_refl) as (n & out & Hall & Hp). exists (S n), out. split; [|done].
    intros [|fuel] Hle; [lia|]. cbn. rewrite Hd. apply Hall. lia.
  - exists 1%nat, (w', Ok ()). split.
    + intros [|fuel] Hle; [lia|]. cbn. by rewrite Hd.
    + intros _. unfold deliver_one in Hd. destruct (w_pending w) as [|e pending] eqn:Hp; [by injection Hd as <-|].
      unfold mbind, WM_bind in Hd. by destruct (world_dispatch e _) as [w2 [[]|err]].
  - exists 1%nat, (w', Err e). split; [|done]. intros [|fuel] Hle; [lia|]. cbn. by rewrite Hd.
Qed.

Lemma deliver_ends w : ends w.
Proof.
  remember (count_rank 2 (w_pending w)) as a eqn:Ha. revert w Ha.
  induction (lt_wf a) as [a _ IHa]. intros w Ha.
  remember (count_rank 1 (w_pending w)) as b eqn:Hb. revert w Ha Hb.
  induction (lt_wf b) as [b _ IHb]. intros w Ha Hb.
  remember (count_rank 0 (w_pending w)) as c eqn:Hc. revert w Ha Hb Hc.
  induction (lt_wf c) as [c _ IHc]. intros w Ha Hb Hc.
  apply ends_step. intros w' (r & Hlt & Hr & Hsame)%deliver_one_counts.
  destruct r as [|[|[|r]]]; [| | |lia].
  - eapply (IHc (count_rank 0 (w_pending w'))); [lia|rewrite Hsame by lia; lia|rewrite Hsame by lia; lia|done].
  - eapply (IHb (count_rank 1 (w_pending w'))); [lia|rewrite Hsame by lia; lia|done].
  - eapply (IHa (count_rank 2 (w_pending w'))); [lia|done].
Qed.

(** C30. Delivery ends: from any world, delivering effect after effect, with
    all the effects this gives rise to (fences of leases that failed, renewed
    prepares and activations of a reconciliation), comes to an end, either
    with nothing under way or with a command the kernel refuses (an
    acknowledgement, or one of a reconciliation). *)
Theorem delivery_ends w :
  ∃ n out, (∀ fuel, (n ≤ fuel)%nat → deliver_all fuel w = Some out)
    ∧ (out.2 = Ok () → w_pending out.1 = []).
Proof. apply deliver_ends. Qed.
