(* ===== verification/Sim.v ===== *)
(** * The simulator's fixture and scale measurement
    (crates/sim/src/fixture.rs, measure.rs) *)

From S2P Require Import Prelude Identifier Types Graph Occupancy Endpoint Command Cluster Replay.
From S2P Require Import Select Admit AdmitFacts Scheduler World.

(** ** fixture.rs *)

Definition GIB : u64 := 2 ^ 30.

Record MachineIds := mkMachineIds {
  mi_machine : NodeId; mi_numa : NodeId; mi_cpus : list NodeId; mi_memory : NodeId;
  mi_gpu : NodeId; mi_nic : NodeId; mi_nvme : NodeId;
}.

Record TinyGraph := mkTiny { tg_nodes : list Node; tg_edges : list Edge; tg_machines : list MachineIds }.

Definition fixture_node (id : NodeId) (kind : ResourceClass) (capacity : Quantity) : Node :=
  mkNode id kind ∅ capacity.
Definition labeled (id : NodeId) (kind : ResourceClass) (capacity : Quantity) (key value : string) : Node :=
  mkNode id kind {[key := value]} capacity.
Definition contain (pairs : list (NodeId * NodeId)) : list Edge :=
  (λ '(from, to), mkEdge from to Contains ∅) <$> pairs.

(** One machine; [base] is the last id [IdGen] gave. *)
Definition tiny_machine (rack base : NodeId) (index : nat) : list Node * list Edge * MachineIds :=
  let machine := base + 1 in let socket := base + 2 in let numa := base + 3 in
  let memory := base + 4 in let pcie := base + 5 in let gpu := base + 6 in
  let nic := base + 7 in let nvme := base + 8 in let cpu0 := base + 9 in let cpu1 := base + 10 in
  ([labeled machine Class.Machine ∅ "name" ("m" +:+ pretty index);
    fixture_node socket Class.Socket ∅;
    fixture_node numa Class.Numa ∅;
    fixture_node cpu0 Class.Cpu (qty Dim.Count 1);
    fixture_node cpu1 Class.Cpu (qty Dim.Count 1);
    fixture_node memory Class.Memory (qty Dim.Bytes (8 * GIB));
    fixture_node pcie Class.PcieRoot ∅;
    labeled gpu Class.Gpu (qty Dim.Count 1) "model" (if Nat.even index then "h100" else "a100");
    fixture_node nic Class.Nic (qty Dim.Count 1);
    fixture_node nvme Class.Nvme (qty Dim.Count 1)],
   contain [(rack, machine); (machine, socket); (socket, numa); (numa, cpu0); (numa, cpu1); (numa, memory);
            (numa, pcie); (pcie, gpu); (pcie, nic); (pcie, nvme)],
   mkMachineIds machine numa [cpu0; cpu1] memory gpu nic nvme).

Definition add_machine (acc : TinyGraph * NodeId) (index : nat) : TinyGraph * NodeId :=
  let '(g, base) := acc in
  let '(nodes, edges, ids) := tiny_machine 1 base index in
  (mkTiny (tg_nodes g ++ nodes) (tg_edges g ++ edges) (tg_machines g ++ [ids]), base + 10).

Definition tiny_graph (machines : nat) : TinyGraph :=
  (foldl add_machine (mkTiny [fixture_node 1 Class.Rack ∅] [] [], 1) (seq 0 machines)).1.

(** An unknown machine index panics. *)
Definition with_dataset (machine_index : nat) (id : u64) (g : TinyGraph) : option (TinyGraph * NodeId) :=
  ids ← tg_machines g !! machine_index;
  Some (mkTiny (tg_nodes g ++ [fixture_node id Class.DataObject (qty Dim.Bytes (4 * GIB))])
          (tg_edges g ++ [mkEdge id (mi_numa ids) CachedOn ∅]) (tg_machines g), id).

(** ** measure.rs *)

#[export] Instance LeaseDigest_eq_dec : EqDecision LeaseDigest.
Proof. solve_decision. Defined.
#[export] Instance BindingDigest_eq_dec : EqDecision BindingDigest.
Proof. solve_decision. Defined.
#[export] Instance Digest_eq_dec : EqDecision Digest.
Proof. solve_decision. Defined.

Record ScaleParams := mkScale { sp_machines : nat; sp_requests : u64 }.

(** The deterministic fields. *)
Record ScaleReport := mkReport {
  sr_machines : nat; sr_nodes : nat; sr_requested : u64; sr_placed : u64; sr_queue_drained : bool;
  sr_replay_matches : bool; sr_epoch : u64; sr_graph_revision : u64; sr_leases : nat; sr_bindings : nat;
  sr_log_commands : nat;
}.

Definition gpu_request (id count : u64) : Request :=
  mkRequest id Batch [mkNeed Class.Gpu (qty Dim.Count count) []] [] [] [] 1000 1 true.

(** How a program stands: not finished with this fuel, panicked with a message,
    or returned. *)
Inductive Outcome (A : Type) := Unfinished | Panicked (message : string) | Returned (a : A).
Arguments Unfinished {A}.
Arguments Panicked {A} message.
Arguments Returned {A} a.

#[export] Instance Outcome_ret : MRet Outcome := λ A a, Returned a.
#[export] Instance Outcome_bind : MBind Outcome := λ A B f m,
  match m with Unfinished => Unfinished | Panicked message => Panicked message | Returned a => f a end.

(** [.expect(..)]: an error panics. *)
Definition expect {A} (message : string) (m : WM A) (w : World) : Outcome (World * A) :=
  match m w with (w, Ok a) => Returned (w, a) | (_, Err _) => Panicked message end.

Section measure.
(** The fuel of one delivery. *)
Context (fuel : nat).

Definition expect_delivered (message : string) (w : World) : Outcome World :=
  match deliver_all fuel w with
  | Some (w, Ok _) => Returned w
  | Some (_, Err _) => Panicked message
  | None => Unfinished
  end.

Fixpoint register_all (machines : list MachineIds) (w : World) : Outcome World :=
  match machines with
  | [] => Returned w
  | ids :: machines =>
      '(w, _) ← expect "register agent" (world_register_agent (mi_machine ids)) w;
      register_all machines w
  end.

(** A cluster with its agents connected. *)
Definition boot_cluster (graph : TinyGraph) : Outcome World :=
  '(w, _) ← expect "register graph" (world_apply_graph (tg_nodes graph) (tg_edges graph)) world_new;
  w ← register_all (tg_machines graph) w;
  w ← expect_delivered "hello" w;
  Returned (world_set_now 1 w).

Definition offer (requests : u64) (w : World) : World :=
  foldl (λ w id, world_enqueue (gpu_request id 1) id w) w (N.of_nat <$> seq 1 (N.to_nat requests)).

(** One turn of the loop: a placement, or expiry of everything due. *)
Definition admit_turn (lease : LeaseId) (placed : u64) (w : World) : Outcome (World * u64) :=
  '(w, admitted) ← expect "admission failed at scale" (admit_next lease 1) w;
  match admitted with
  | Some _ =>
      w ← expect_delivered "deliver" w;
      '(w, _) ← expect "activate" (world_activate_lease lease) w;
      w ← expect_delivered "activate deliver" w;
      Returned (w, placed + 1)
  | None =>
      '(w, _) ← expect "expire" world_expire_due (world_set_now (wrap_add (c_now (w_cluster w)) 2000) w);
      w ← expect_delivered "reap" w;
      Returned (w, placed)
  end.

(** [while !world.queue.is_empty()]: the loop gives up by itself. *)
Fixpoint drain (turns : nat) (requests lease_seq placed : u64) (w : World) : Outcome (World * u64) :=
  match turns with
  | O => Unfinished
  | S turns =>
      if bool_decide (w_queue w = []) then Returned (w, placed)
      else
        let lease_seq := lease_seq + 1 in
        if requests + 10000 <? lease_seq then Panicked "scale runaway: queue never drains"
        else '(w, placed) ← admit_turn lease_seq placed w; drain turns requests lease_seq placed w
  end.

Definition scale_report (params : ScaleParams) (nodes : nat) (placed : u64) (w : World) : ScaleReport :=
  let dg := world_digest w in
  mkReport (sp_machines params) nodes (sp_requests params) placed (bool_decide (w_queue w = []))
    (match replay_trace w with Ok c => bool_decide (digest c = dg) | Err _ => false end)
    (dg_epoch dg) (dg_graph_revision dg) (size (dg_leases dg)) (size (dg_bindings dg))
    (length (c_log (w_cluster w))).

(** The loop ends or panics within this many turns. *)
Definition drain_turns (requests : u64) : nat := N.to_nat requests + N.to_nat 10002.

Definition measure_scale (params : ScaleParams) : Outcome ScaleReport :=
  w ← boot_cluster (tiny_graph (sp_machines params));
  let nodes := length (graph_nodes (c_graph (w_cluster w))) in
  '(w, placed) ← drain (drain_turns (sp_requests params)) (sp_requests params) 0 0 (offer (sp_requests params) w);
  Returned (scale_report params nodes placed w).

(** ** main.rs *)

Definition demo_request : Request :=
  mkRequest 1 Service [mkNeed Class.Cpu (qty Dim.Count 1) []; mkNeed Class.Memory (qty Dim.Bytes GIB) []]
    [] [] [] 100 10 true.

(** What it prints: epoch, revision, leases, bindings, explanation. *)
Definition demo : Outcome (u64 * u64 * nat * nat * PlacementExplanation) :=
  let graph := tiny_graph 2 in
  '(w, _) ← expect "register graph" (world_apply_graph (tg_nodes graph) (tg_edges graph)) world_new;
  w ← register_all (tg_machines graph) w;
  w ← expect_delivered "hello" w;
  '(w, _) ← expect "place" (world_place demo_request 1 1 None 100 20) (world_set_now 1 w);
  '(w, _) ← expect "bind" (bind_enforced 1 1) w;
  w ← expect_delivered "prepare" w;
  '(w, _) ← expect "activate" (world_activate_lease 1) w;
  w ← expect_delivered "activate deliver" w;
  let dg := world_digest w in
  match c_leases (w_cluster w) !! 1 with
  | Some lease =>
      Returned (dg_epoch dg, dg_graph_revision dg, size (dg_leases dg), size (dg_bindings dg),
                alloc_explanation (lease_allocation lease))
  | None => Panicked "no entry found for key"
  end.
End measure.

(** The demonstration runs to its end. *)
Example demo_prints :
  demo 100 = Returned (1, 1, 1%nat, 2%nat,
    mkExplanation
      "Service Pack selected 2 claims on NodeId(2); NodeId(10) score=0; NodeId(5) score=-3840"
      [MachineSelected 2; CandidateScore 10 0 [] None; CandidateScore 5 (-3840) [] None]).
Proof. vm_compute. reflexivity. Qed.

(** * What the scale measurement reports

    A measurement ends; one that completes has placed every request it offered
    once, and the committed trace rebuilds the authority it ends with. *)

From S2P Require Import WorldFacts.

(** ** Successful operations keep the trace, and leave the queue alone *)

Definition traced (w : World) : Prop := replay_trace w = Ok (w_cluster w).

Definition quiet (w w' : World) : Prop := (traced w → traced w') ∧ w_queue w' = w_queue w.

#[export] Instance quiet_preorder : PreOrder quiet.
Proof.
  split; [by intros w|]. intros w1 w2 w3 [H1 Hq1] [H2 Hq2]. split; [auto|by rewrite Hq2].
Qed.

Definition quietly {A} (m : WM A) : Prop := ∀ w w' a, m w = (w', Ok a) → quiet w w'.

Lemma quiet_frame w w' :
  w_cluster w' = w_cluster w → w_trace w' = w_trace w → w_queue w' = w_queue w → quiet w w'.
Proof. intros Hc Ht Hq. split; [|done]. unfold traced, replay_trace. by rewrite Hc, Ht. Qed.

Lemma quietly_bind {A B} (m : WM A) (f : A → WM B) : quietly m → (∀ a, quietly (f a)) → quietly (m ≫= f).
Proof.
  intros Hm Hf w w' b. unfold mbind, WM_bind. destruct (m w) as [w1 [a|e]] eqn:Hrun; [|done].
  intros Hb. etrans; [by eapply Hm|by eapply Hf].
Qed.
Lemma quietly_ret {A} (a : A) : quietly (mret a).
Proof. by intros w w' b [= <- _]. Qed.
Lemma quietly_get : quietly wget.
Proof. by intros w w' b [= <- _]. Qed.
Lemma quietly_lift {A} (r : result Error A) : quietly (wlift r).
Proof. by intros w w' b [= <- _]. Qed.
Lemma quietly_modify f : (∀ w, quiet w (f w)) → quietly (wmodify f).
Proof. by intros Hf w w' b [= <- _]. Qed.
Lemma quietly_for {A} (f : A → WM unit) l : (∀ x, quietly (f x)) → quietly (wfor f l).
Proof. intros Hf. induction l; [apply quietly_ret|]. by apply quietly_bind. Qed.

Lemma quiet_push es w : quiet w (push_pending es w).
Proof. by apply quiet_frame. Qed.

(** An event after which replay does what the world does. *)
Lemma quiet_event ev c w :
  replay_event (w_cluster w) ev = Ok c → quiet w (push_trace ev (set_w_cluster c w)).
Proof.
  intros Hev. split; [|done]. unfold traced. intros Ht. rewrite replay_push.
  assert (replay_trace (set_w_cluster c w) = replay_trace w) as -> by done. by rewrite Ht.
Qed.

Lemma quietly_commit cmd : quietly (world_commit cmd).
Proof.
  intros w w' es. unfold world_commit. destruct (cluster_apply cmd (w_cluster w)) as [c [es'|e]] eqn:Hrun; [|done].
  intros [= <- _]. apply quiet_event. cbn. by rewrite Hrun.
Qed.

Create HintDb quiet.
#[export] Hint Resolve quietly_bind quietly_ret quietly_get quietly_lift quietly_for quietly_modify quiet_push
  quietly_commit : quiet.

Ltac quietly := intros; repeat (apply quietly_bind; [|intros ?]); auto with quiet.

Lemma quietly_apply cmd : quietly (world_apply cmd).
Proof. unfold world_apply. quietly. Qed.
Lemma quietly_do cmd : quietly (world_do cmd).
Proof. unfold world_do. quietly. Qed.
#[export] Hint Resolve quietly_apply quietly_do : quiet.

Lemma quietly_bind_claims lease claims next : quietly (bind_claims lease next claims).
Proof. revert next. induction claims as [|claim claims IH]; intros next; cbn [bind_claims]; quietly. Qed.
#[export] Hint Resolve quietly_bind_claims : quiet.

Lemma quietly_bind_next lease : quietly (bind_next lease).
Proof. unfold bind_next, bind_enforced. quietly. apply quietly_modify. intros w. by apply quiet_frame. Qed.
Lemma quietly_open_admission lease owner a : quietly (open_admission lease owner a).
Proof. unfold open_admission. quietly. Qed.
Lemma quietly_activate lease : quietly (world_activate_lease lease).
Proof. unfold world_activate_lease. quietly. Qed.
Lemma quietly_expire : quietly world_expire_due.
Proof. unfold world_expire_due. quietly. Qed.

Lemma quietly_register machine : quietly (world_register_agent machine).
Proof.
  intros w w' s. unfold world_register_agent, begin_agent. intros Hrun. etrans; [|eapply quietly_bind; [..|exact Hrun]].
  - by apply quiet_frame.
  - apply quietly_apply.
  - intros ?. apply quietly_ret.
Qed.
#[export] Hint Resolve quietly_bind_next quietly_open_admission quietly_activate quietly_expire
  quietly_register : quiet.

(** ** Delivery *)

Lemma quietly_reconcile_binding session epoch failed k : quietly (reconcile_binding session epoch failed k).
Proof.
  unfold reconcile_binding. apply quietly_bind; [apply quietly_get|intros w].
  repeat case_match; quietly.
Qed.

Lemma quietly_reconcile_bindings session epoch failed ks : quietly (reconcile_bindings session epoch failed ks).
Proof.
  revert failed. induction ks as [|k ks IH]; intros failed; cbn [reconcile_bindings]; [apply quietly_ret|].
  apply quietly_bind; [apply quietly_reconcile_binding|done].
Qed.

Lemma quietly_reconcile machine session epoch ks : quietly (world_reconcile machine session epoch ks).
Proof.
  intros w w' a. unfold world_reconcile. destruct (w_agents w !! machine) as [agent|]; [|by intros [= <- _]].
  destruct (_ <? _); [by intros [= <- _]|]. intros Hrun. etrans; [|eapply quietly_bind; [..|exact Hrun]].
  - by apply quiet_frame.
  - apply quietly_reconcile_bindings.
  - intros ?. apply quietly_bind; [apply quietly_get|auto with quiet].
Qed.

Lemma apply_effect_queue e w : w_queue (apply_effect e w).1 = w_queue w.
Proof. unfold apply_effect. repeat (case_match; simplify_eq/=; try done). Qed.

Lemma quietly_dispatch e : quietly (world_dispatch e).
Proof.
  intros w w' a Hrun. destruct (decide (effect_fields e = None)) as [Hnone|Hsome].
  { destruct e; try done. by eapply quietly_reconcile. }
  assert ((let '(w, command) := apply_effect e w in
           match command with
           | Some command => (effects ← world_commit command; wmodify (push_pending effects)) w
           | None => (w, Ok ())
           end) = (w', Ok a)) as Hgo by (by destruct e). clear Hrun.
  pose proof (apply_effect_frame e w) as (Hc & Ht & _). pose proof (apply_effect_queue e w) as Hq.
  destruct (apply_effect e w) as [w1 [cmd|]]; cbn [fst] in *; (etrans; [by apply (quiet_frame w w1)|]).
  - eapply (quietly_bind (world_commit cmd) (λ effects, wmodify (push_pending effects))); [auto with quiet..|exact Hgo].
  - by injection Hgo as <-.
Qed.

Lemma quietly_deliver_one : quietly deliver_one.
Proof.
  intros w w' a. unfold deliver_one. destruct (w_pending w) as [|e pending]; [by intros [= <- _]|].
  intros Hrun. etrans; [|eapply quietly_bind; [apply quietly_dispatch|intros ?; apply quietly_ret|exact Hrun]].
  etrans; [by apply (quiet_frame w (set_w_pending pending w))|]. split; [|done].
  unfold traced. intros Ht. by rewrite replay_push, Ht.
Qed.

Lemma quiet_deliver fuel w w' : deliver_all fuel w = Some (w', Ok ()) → quiet w w'.
Proof.
  revert w. induction fuel as [|fuel IH]; intros w; [done|]. cbn.
  destruct (deliver_one w) as [w1 [[]|e]] eqn:Hrun; [|intros [= <-]|done].
  - intros Hall. etrans; [by eapply quietly_deliver_one|by apply IH].
  - by eapply quietly_deliver_one.
Qed.

(** ** The queue *)

Definition queue_ids (w : World) : list N := (λ q, req_id (q_request q)) <$> w_queue w.

(** An admitted request is one of the queue's. *)
Lemma admitted_queued c queue a :
  cluster_admit c queue = Some a → ∃ q, q ∈ queue ∧ adm_request a = q_request q.
Proof.
  unfold cluster_admit, plain_admit, admit_with_ceiling, admit_with_policy, admit_with_policy_explained.
  set (usage := owner_usage _ _ _). set (capacity := claimable_capacity _).
  set (policy := ceiling_policy ∅). set (order := order_queue_with_policy queue usage capacity policy).
  pose proof (admit_loop_first_fit (c_graph c) (occupancy c) (placement_blocked c) policy usage order []
    (build_admission_trace order usage capacity policy)) as Hfit.
  unfold build_admission_trace at 1 in Hfit. rewrite length_imap in Hfit. specialize (Hfit eq_refl).
  cbn [length app] in Hfit. destruct (admit_loop _ _ _ _ _ _ _ _) as [[a'|] trace]; [|done].
  destruct Hfit as (before & q & after & outcomes & Ho & _ & (_ & Hr & _) & _). cbn. intros [= <-].
  exists q. split; [|done]. destruct (order_spec queue usage capacity policy) as [Hp _].
  rewrite <-Hp. fold order. rewrite Ho. set_solver.
Qed.

Lemma filter_other_ids (queue : list Queued) id :
  NoDup ((λ q, req_id (q_request q)) <$> queue) → id ∈ (λ q, req_id (q_request q)) <$> queue →
  NoDup ((λ q, req_id (q_request q)) <$> List.filter (λ q, negb (req_id (q_request q) =? id)) queue)
  ∧ length queue = S (length (List.filter (λ q, negb (req_id (q_request q) =? id)) queue)).
Proof.
  assert (∀ l : list Queued, id ∉ (λ q, req_id (q_request q)) <$> l →
    List.filter (λ q, negb (req_id (q_request q) =? id)) l = l) as Hall.
  { induction l as [|q l IH]; [done|]. rewrite fmap_cons, not_elem_of_cons. intros [Hne Hni]. cbn.
    destruct (N.eqb_spec (req_id (q_request q)) id); [congruence|]. cbn. by rewrite IH. }
  induction queue as [|q queue' IH]; [by intros _ ?%elem_of_nil|].
  rewrite fmap_cons, NoDup_cons, elem_of_cons. intros [Hni Hnd] Hin. cbn.
  destruct (N.eqb_spec (req_id (q_request q)) id) as [<-|Hne]; cbn; [by rewrite Hall|].
  destruct Hin as [->|Hin]; [done|]. destruct (IH Hnd Hin) as [Hnd' Hlen]. split; [|by rewrite Hlen].
  apply NoDup_cons. split; [|done]. intros (q' & Hid & Hq')%list_elem_of_fmap. apply Hni, list_elem_of_fmap.
  exists q'. split; [done|]. rewrite list_elem_of_In, filter_In, <-list_elem_of_In in Hq'. by destruct Hq'.
Qed.

(** The loop's bookkeeping: requests placed and requests waiting. *)
Record counted (requests placed : u64) (w : World) : Prop := {
  cn_trace : traced w;
  cn_nodup : NoDup (queue_ids w);
  cn_sum : placed + N.of_nat (length (w_queue w)) = requests;
}.

Lemma counted_quiet requests placed w w' : quiet w w' → counted requests placed w → counted requests placed w'.
Proof.
  intros [Ht Hq] [H1 H2 H3]. split; [by apply Ht|by unfold queue_ids in *; rewrite Hq|by rewrite Hq].
Qed.

Lemma bind_returned {A B} (m : Outcome A) (f : A → Outcome B) b :
  (m ≫= f) = Returned b → ∃ a, m = Returned a ∧ f a = Returned b.
Proof. destruct m as [| |a]; try done. by exists a. Qed.

Lemma expect_some {A} message (m : WM A) w w' a : expect message m w = Returned (w', a) → m w = (w', Ok a).
Proof. unfold expect. destruct (m w) as [w1 [a1|e]]; [|done]. by intros [= <- <-]. Qed.

Lemma counted_expect {A} message (m : WM A) requests placed w w' a :
  quietly m → expect message m w = Returned (w', a) → counted requests placed w → counted requests placed w'.
Proof. intros Hm Hrun%expect_some. apply counted_quiet. by eapply Hm. Qed.

Lemma counted_deliver fuel message requests placed w w' :
  expect_delivered fuel message w = Returned w' → counted requests placed w → counted requests placed w'.
Proof.
  unfold expect_delivered. destruct (deliver_all fuel w) as [[w1 [[]|e]]|] eqn:Hd; [|done..]. intros [= <-].
  apply counted_quiet. by eapply quiet_deliver.
Qed.

Lemma counted_admit requests placed lease owner w w' r :
  admit_next lease owner w = (w', Ok r) → counted requests placed w →
  counted requests (match r with Some _ => placed + 1 | None => placed end) w'.
Proof.
  change (admit_next lease owner w)
    with (admit_then_dequeue (cluster_admit (w_cluster w) (w_queue w)) lease owner w).
  destruct (cluster_admit (w_cluster w) (w_queue w)) as [a|] eqn:Ha; [|by intros [= <- <-]].
  apply admitted_queued in Ha as (q & Hin & Hreq). cbn [admit_then_dequeue]. unfold mbind at 1, WM_bind at 1.
  destruct (open_admission lease owner a w) as [w1 [[]|e]] eqn:Hopen; [|done].
  apply quietly_open_admission in Hopen. unfold mbind at 1, WM_bind at 1. cbn [wmodify].
  set (w2 := dequeue _ w1). unfold mbind at 1, WM_bind at 1.
  destruct (bind_next lease w2) as [w3 [[]|e]] eqn:Hbind; [|done]. apply quietly_bind_next in Hbind.
  intros [= <- <-] [Ht Hnd Hsum]%(counted_quiet _ _ _ _ Hopen). apply (counted_quiet _ _ _ _ Hbind).
  destruct (filter_other_ids (w_queue w1) (req_id (adm_request a)) Hnd) as [Hnd' Hlen].
  { apply list_elem_of_fmap. exists q. rewrite Hreq. split; [done|]. by rewrite (proj2 Hopen). }
  split; [exact Ht|exact Hnd'|]. cbn. lia.
Qed.

Lemma counted_turn fuel requests lease placed w w' placed' :
  admit_turn fuel lease placed w = Returned (w', placed') → counted requests placed w → counted requests placed' w'.
Proof.
  unfold admit_turn. intros Hrun Hw. apply bind_returned in Hrun as ((w1 & r) & Hadmit%expect_some & Hrun).
  pose proof (counted_admit _ _ _ _ _ _ _ Hadmit Hw) as Hw1. clear Hadmit Hw. destruct r as [id|].
  - apply bind_returned in Hrun as (w2 & Hd & Hrun). apply bind_returned in Hrun as ((w3 & u) & Ha & Hrun).
    apply bind_returned in Hrun as (w4 & Hd' & [= <- <-]).
    eapply counted_deliver; [exact Hd'|]. eapply (counted_expect _ _ _ _ w2); [apply quietly_activate|exact Ha|].
    by eapply counted_deliver.
  - apply bind_returned in Hrun as ((w2 & u) & He & Hrun). apply bind_returned in Hrun as (w3 & Hd & [= <- <-]).
    eapply counted_deliver; [exact Hd|]. eapply counted_expect; [apply quietly_expire|exact He|].
    eapply counted_quiet; [by apply quiet_event|done].
Qed.

Lemma drain_counted fuel turns requests lease_seq placed w w' placed' :
  drain fuel turns requests lease_seq placed w = Returned (w', placed') → counted requests placed w →
  counted requests placed' w' ∧ w_queue w' = [].
Proof.
  revert lease_seq placed w. induction turns as [|turns IH]; intros lease_seq placed w; [done|].
  cbn [drain]. case_bool_decide as Hq; [by intros [= <- <-]|]. destruct (_ <? _); [done|].
  intros Hrun Hw. apply bind_returned in Hrun as ((w1 & placed1) & Hturn & Hrun).
  eapply IH; [exact Hrun|]. by eapply counted_turn.
Qed.

(** ** Boot and offer *)

Lemma quiet_register_all machines w w' : register_all machines w = Returned w' → quiet w w'.
Proof.
  revert w. induction machines as [|ids machines IH]; intros w; [by intros [= <-]|]. cbn [register_all]. intros Hrun.
  apply bind_returned in Hrun as ((w1 & s) & Hreg%expect_some & Hrun). etrans; [by eapply quietly_register|by apply IH].
Qed.

Lemma boot_traced fuel graph w : boot_cluster fuel graph = Returned w → traced w ∧ w_queue w = [].
Proof.
  unfold boot_cluster. intros Hrun. apply bind_returned in Hrun as ((w1 & u) & Hg%expect_some & Hrun).
  apply bind_returned in Hrun as (w2 & Hr%quiet_register_all & Hrun). apply bind_returned in Hrun as (w3 & Hd & [= <-]).
  assert (quiet world_new w1) as Hn.
  { revert Hg. unfold world_apply_graph, world_apply_resource_facts. apply quietly_do. }
  assert (quiet w2 w3) as H3.
  { unfold expect_delivered in Hd. destruct (deliver_all fuel w2) as [[w4 [[]|e]]|] eqn:Hall; [|done..].
    injection Hd as <-. by eapply quiet_deliver. }
  assert (quiet world_new (world_set_now 1 w3)) as [Ht Hq].
  { do 3 (etrans; [eassumption|]). by apply quiet_event. }
  split; [by apply Ht|done].
Qed.

Lemma offer_spec requests w :
  w_queue w = [] →
  queue_ids (offer requests w) = N.of_nat <$> seq 1 (N.to_nat requests)
  ∧ w_cluster (offer requests w) = w_cluster w ∧ w_trace (offer requests w) = w_trace w.
Proof.
  unfold offer. intros Hq. set (ids := N.of_nat <$> _).
  assert (∀ ids w, queue_ids (foldl (λ w id, world_enqueue (gpu_request id 1) id w) w ids) = queue_ids w ++ ids
    ∧ w_cluster (foldl (λ w id, world_enqueue (gpu_request id 1) id w) w ids) = w_cluster w
    ∧ w_trace (foldl (λ w id, world_enqueue (gpu_request id 1) id w) w ids) = w_trace w) as Hfold.
  { clear. induction ids as [|id ids IH]; intros w; cbn [foldl]; [by rewrite app_nil_r|].
    destruct (IH (world_enqueue (gpu_request id 1) id w)) as (-> & -> & ->). split_and!; try done.
    unfold queue_ids, world_enqueue. cbn. rewrite fmap_app. by rewrite <-(assoc_L (++)). }
  destruct (Hfold ids w) as (-> & -> & ->). unfold queue_ids. by rewrite Hq.
Qed.

Lemma offer_counted requests w : traced w → w_queue w = [] → counted requests 0 (offer requests w).
Proof.
  intros Ht Hq. destruct (offer_spec requests w Hq) as (Hids & Hc & Htr). split.
  - unfold traced, replay_trace in *. by rewrite Hc, Htr.
  - rewrite Hids. apply NoDup_fmap; [apply _|apply NoDup_seq].
  - assert (length (w_queue (offer requests w)) = length (queue_ids (offer requests w))) as ->.
    { unfold queue_ids. by rewrite length_fmap. }
    rewrite Hids, length_fmap, length_seq. lia.
Qed.

(** ** The measurement ends *)

(** With enough fuel it stops, and more fuel changes nothing. *)
Definition settles {A} (f : nat → Outcome A) : Prop :=
  ∃ n out, out ≠ Unfinished ∧ ∀ fuel, (n ≤ fuel)%nat → f fuel = out.

Lemma settles_const {A} (out : Outcome A) : out ≠ Unfinished → settles (λ _, out).
Proof. intros Hout. by exists 0%nat, out. Qed.

Lemma settles_bind {A B} (f : nat → Outcome A) (g : nat → A → Outcome B) :
  settles f → (∀ a, settles (λ fuel, g fuel a)) → settles (λ fuel, f fuel ≫= g fuel).
Proof.
  intros (n & out & Hne & Hf) Hg. destruct out as [|message|a]; [done|..].
  - exists n, (Panicked message). split; [done|]. intros fuel Hfuel. by rewrite Hf.
  - destruct (Hg a) as (m & out & Hout & Hm). exists (n `max` m)%nat, out. split; [done|]. intros fuel Hfuel.
    rewrite Hf by lia. cbn. apply Hm. lia.
Qed.

Lemma settles_expect {A B} message (m : WM A) w (g : nat → World * A → Outcome B) :
  (∀ a, settles (λ fuel, g fuel a)) → settles (λ fuel, expect message m w ≫= g fuel).
Proof. intros Hg. apply settles_bind; [|done]. apply settles_const. unfold expect. by destruct (m w) as [? []]. Qed.

Lemma settles_deliver {B} message w (g : nat → World → Outcome B) :
  (∀ w, settles (λ fuel, g fuel w)) → settles (λ fuel, expect_delivered fuel message w ≫= g fuel).
Proof.
  intros Hg. apply settles_bind; [|done]. destruct (deliver_ends w) as (n & [w' out] & Hall & _).
  exists n, (match out with Ok _ => Returned w' | Err _ => Panicked message end). split; [by destruct out|].
  intros fuel Hfuel. unfold expect_delivered. rewrite Hall by done. by destruct out.
Qed.

Ltac settle :=
  repeat lazymatch goal with
  | |- settles (λ fuel, expect _ _ _ ≫= _) => apply settles_expect; intros [? ?]
  | |- settles (λ fuel, expect_delivered _ _ _ ≫= _) => apply settles_deliver; intros ?
  | |- settles (λ fuel, Returned _) => by apply settles_const
  | |- settles (λ fuel, match ?r with _ => _ end) => destruct r
  end.

Lemma admit_turn_settles lease placed w : settles (λ fuel, admit_turn fuel lease placed w).
Proof. unfold admit_turn. settle. Qed.

Lemma drain_settles turns requests lease_seq placed w :
  requests + 10002 ≤ N.of_nat turns + lease_seq → (0 < turns)%nat →
  settles (λ fuel, drain fuel turns requests lease_seq placed w).
Proof.
  revert lease_seq placed w. induction turns as [|turns IH]; intros lease_seq placed w Hturns Hpos; [lia|].
  cbn [drain]. case_bool_decide; [by apply settles_const|].
  destruct (N.ltb_spec (requests + 10000) (lease_seq + 1)) as [|Hle]; [by apply settles_const|].
  apply settles_bind; [apply admit_turn_settles|]. intros [w' placed']. apply IH; lia.
Qed.

Lemma register_all_settles {B} machines w (g : nat → World → Outcome B) :
  (∀ w, settles (λ fuel, g fuel w)) → settles (λ fuel, register_all machines w ≫= g fuel).
Proof.
  intros Hg. apply settles_bind; [|done]. apply settles_const. revert w.
  induction machines as [|ids machines IH]; intros w; [done|]. cbn [register_all]. unfold expect.
  destruct (world_register_agent _ w) as [w' []]; cbn; [apply IH|done].
Qed.

Lemma measure_settles params : settles (λ fuel, measure_scale fuel params).
Proof.
  unfold measure_scale. apply settles_bind.
  - unfold boot_cluster. apply settles_expect. intros [w u]. apply register_all_settles. intros w'.
    apply settles_deliver. intros w''. by apply settles_const.
  - intros w. cbv zeta. apply settles_bind; [apply drain_settles; unfold drain_turns; lia|].
    intros [w' placed]. by apply settles_const.
Qed.

(** ** Who is placed *)

(** The requests the loop admits, in order. *)
Fixpoint placements (fuel turns : nat) (requests lease_seq : u64) (w : World) : list RequestId :=
  match turns with
  | O => []
  | S turns =>
      if bool_decide (w_queue w = []) then []
      else
        let lease_seq := lease_seq + 1 in
        if requests + 10000 <? lease_seq then []
        else match admit_next lease_seq 1 w, admit_turn fuel lease_seq 0 w with
             | (_, Ok (Some id)), Returned (w, _) => id :: placements fuel turns requests lease_seq w
             | (_, Ok None), Returned (w, _) => placements fuel turns requests lease_seq w
             | _, _ => []
             end
  end.

Lemma filter_other_perm (queue : list Queued) id :
  NoDup ((λ q, req_id (q_request q)) <$> queue) → id ∈ (λ q, req_id (q_request q)) <$> queue →
  (λ q, req_id (q_request q)) <$> queue
  ≡ₚ id :: ((λ q, req_id (q_request q)) <$> List.filter (λ q, negb (req_id (q_request q) =? id)) queue).
Proof.
  intros Hnd Hin. destruct (filter_other_ids queue id Hnd Hin) as [Hnd' _]. apply NoDup_Permutation; [done| |].
  - apply NoDup_cons. split; [|done]. intros (q & Hid & Hq)%list_elem_of_fmap.
    rewrite list_elem_of_In, filter_In in Hq. destruct Hq as [_ Hq%negb_true_iff%N.eqb_neq]. done.
  - intros x. rewrite elem_of_cons, !list_elem_of_fmap. split.
    + intros (q & -> & Hq). destruct (N.eqb_spec (req_id (q_request q)) id) as [|Hne]; [by left|right].
      exists q. split; [done|]. rewrite list_elem_of_In, filter_In, <-list_elem_of_In. split; [done|].
      by apply negb_true_iff, N.eqb_neq.
    + intros [->|(q & -> & Hq)]; [by apply list_elem_of_fmap in Hin|]. exists q. split; [done|].
      rewrite list_elem_of_In, filter_In, <-list_elem_of_In in Hq. by destruct Hq.
Qed.

(** A turn takes the admitted request, and only it, out of the queue. *)
Lemma admit_next_queue lease owner w w' r :
  admit_next lease owner w = (w', Ok r) → NoDup (queue_ids w) →
  match r with Some id => queue_ids w ≡ₚ id :: queue_ids w' | None => queue_ids w' = queue_ids w end.
Proof.
  change (admit_next lease owner w)
    with (admit_then_dequeue (cluster_admit (w_cluster w) (w_queue w)) lease owner w).
  destruct (cluster_admit (w_cluster w) (w_queue w)) as [a|] eqn:Ha; [|by intros [= <- <-]].
  apply admitted_queued in Ha as (q & Hin & Hreq). cbn [admit_then_dequeue]. unfold mbind at 1, WM_bind at 1.
  destruct (open_admission lease owner a w) as [w1 [[]|e]] eqn:Hopen; [|done].
  apply quietly_open_admission in Hopen as [_ Hq1]. unfold mbind at 1, WM_bind at 1. cbn [wmodify].
  unfold mbind at 1, WM_bind at 1.
  destruct (bind_next lease _) as [w3 [[]|e]] eqn:Hbind; [|done]. apply quietly_bind_next in Hbind as [_ Hq3].
  intros [= <- <-] Hnd. unfold queue_ids in *. rewrite Hq3. cbn. rewrite Hq1. apply filter_other_perm; [done|].
  apply list_elem_of_fmap. exists q. by rewrite Hreq.
Qed.

Lemma delivered_queue fuel message w w' : expect_delivered fuel message w = Returned w' → w_queue w' = w_queue w.
Proof.
  unfold expect_delivered. destruct (deliver_all fuel w) as [[w1 [[]|e]]|] eqn:Hd; [|done..]. intros [= <-].
  by apply quiet_deliver in Hd as [_ ->].
Qed.

Lemma admit_turn_queue fuel lease placed w w1 r w' placed' :
  admit_next lease 1 w = (w1, Ok r) → admit_turn fuel lease placed w = Returned (w', placed') →
  w_queue w' = w_queue w1 ∧ placed' = match r with Some _ => placed + 1 | None => placed end.
Proof.
  intros Hnext. unfold admit_turn.
  assert (expect "admission failed at scale" (admit_next lease 1) w = Returned (w1, r)) as ->
    by (unfold expect; by rewrite Hnext).
  cbn [mbind Outcome_bind].
  destruct r as [id|]; intros Hrun.
  - apply bind_returned in Hrun as (w2 & Hd%delivered_queue & Hrun).
    apply bind_returned in Hrun as ((w3 & u) & [_ Ha]%expect_some%quietly_activate & Hrun).
    apply bind_returned in Hrun as (w4 & Hd'%delivered_queue & [= <- <-]). by rewrite Hd', Ha, Hd.
  - apply bind_returned in Hrun as ((w2 & u) & [_ He]%expect_some%quietly_expire & Hrun).
    apply bind_returned in Hrun as (w3 & Hd%delivered_queue & [= <- <-]). by rewrite Hd, He.
Qed.

(** The count of a turn does not steer it. *)
Lemma admit_turn_placed fuel lease placed w :
  admit_turn fuel lease placed w
  = '(w', n) ← admit_turn fuel lease 0 w; Returned (w', placed + n).
Proof.
  unfold admit_turn. destruct (expect _ _ w) as [| |[w1 [id|]]]; try done; cbn.
  - destruct (expect_delivered fuel "deliver" w1) as [| |w2]; try done. cbn.
    destruct (expect "activate" _ w2) as [| |[w3 u]]; try done. cbn. by destruct (expect_delivered _ _ w3).
  - destruct (expect "expire" _ _) as [| |[w2 u]]; try done. cbn.
    destruct (expect_delivered _ _ w2); try done. cbn. by rewrite N.add_0_r.
Qed.

Lemma drain_placements fuel turns requests lease_seq placed w w' placed' :
  drain fuel turns requests lease_seq placed w = Returned (w', placed') → NoDup (queue_ids w) →
  queue_ids w ≡ₚ placements fuel turns requests lease_seq w
  ∧ placed' = placed + N.of_nat (length (placements fuel turns requests lease_seq w)).
Proof.
  revert lease_seq placed w. induction turns as [|turns IH]; intros lease_seq placed w; [done|].
  cbn [drain placements]. case_bool_decide as Hq.
  { intros [= <- <-] _. unfold queue_ids. rewrite Hq. cbn. by rewrite N.add_0_r. }
  destruct (_ <? _); [done|]. intros Hrun Hnd. apply bind_returned in Hrun as ((w1 & placed1) & Hturn & Hrun).
  destruct (admit_next (lease_seq + 1) 1 w) as [w2 [r|e]] eqn:Hnext.
  2: { unfold admit_turn, expect in Hturn. by rewrite Hnext in Hturn. }
  pose proof (admit_next_queue _ _ _ _ _ Hnext Hnd) as Hids.
  destruct (admit_turn_queue _ _ _ _ _ _ _ _ Hnext Hturn) as [Hq1 Hp].
  rewrite admit_turn_placed in Hturn. apply bind_returned in Hturn as ((w1' & n) & -> & [= -> _]).
  unfold queue_ids in Hids. rewrite <-Hq1 in Hids. fold (queue_ids w) (queue_ids w1) in Hids. destruct r as [id|].
  - assert (NoDup (queue_ids w1)) as Hnd1 by (rewrite Hids in Hnd; by apply NoDup_cons in Hnd as [_ ?]).
    destruct (IH _ _ _ Hrun Hnd1) as [Hperm Hpl]. split; [by rewrite Hids, Hperm|]. subst placed1. cbn [length]. lia.
  - rewrite <-Hids in Hnd |- *. destruct (IH _ _ _ Hrun Hnd) as [Hperm Hpl]. by subst placed1.
Qed.

(** C38. A scale measurement ends, and its numbers mean what they say.  With
    enough fuel for its deliveries every measurement either returns a report
    or panics where the program says so (a refused step, or more than ten
    thousand turns without a placement to show for them), the same for all
    larger fuel.  In a report, the loop has admitted each of the requests 1 to
    n exactly once, and their number is the one reported as placed; and the
    committed trace replays to the digest of the cluster at the end. *)
Theorem measure_sound params :
  (∃ n out, out ≠ Unfinished ∧ ∀ fuel, (n ≤ fuel)%nat → measure_scale fuel params = out)
  ∧ ∀ fuel r, measure_scale fuel params = Returned r →
      ∃ w, boot_cluster fuel (tiny_graph (sp_machines params)) = Returned w
        ∧ placements fuel (drain_turns (sp_requests params)) (sp_requests params) 0 (offer (sp_requests params) w)
          ≡ₚ N.of_nat <$> seq 1 (N.to_nat (sp_requests params))
        ∧ sr_placed r = sp_requests params ∧ sr_queue_drained r = true ∧ sr_replay_matches r = true.
Proof.
  split; [apply measure_settles|]. intros fuel r.
  unfold measure_scale. intros Hrun. apply bind_returned in Hrun as (w & Hboot & Hrun). exists w. split; [done|].
  apply boot_traced in Hboot as [Ht Hq]. apply bind_returned in Hrun as ((w' & placed) & Hdrain & [= <-]).
  pose proof (offer_counted (sp_requests params) w Ht Hq) as Hw. pose proof Hw as [_ Hnd _].
  destruct (drain_placements _ _ _ _ _ _ _ _ Hdrain Hnd) as [Hperm _].
  destruct (offer_spec (sp_requests params) w Hq) as (Hids & _ & _). rewrite Hids in Hperm.
  destruct (drain_counted _ _ _ _ _ _ _ _ Hdrain Hw) as [[Ht' _ Hsum] Hq']. cbn.
  rewrite Ht', Hq' in *. cbn in Hsum. split_and!; [done|lia|done|by apply bool_decide_true].
Qed.

(** The smallest of the measurements [main] runs: ten machines, thirty one-GPU
    requests; two thirds have to wait for expiry. *)
Lemma measure_sound_witness :
  ∃ r, measure_scale 100 (mkScale 10 30) = Returned r
    ∧ sr_placed r = 30 ∧ sr_queue_drained r = true ∧ sr_replay_matches r = true.
Proof.
  assert (∃ r, measure_scale 100 (mkScale 10 30) = Returned r) as [r Hrun] by (eexists; vm_compute; reflexivity).
  exists r. split; [exact Hrun|].
  destruct (proj2 (measure_sound (mkScale 10 30)) 100%nat r Hrun) as (w & _ & _ & Hplaced).
  exact Hplaced.
Defined.
