(* ===== verification/WorldScenario.v ===== *)
(** * A run of the simulated world

    One machine; a lease prepared, activated, fenced and replaced while
    effects are lost and repeated and both sides restart: the world's theorems
    at a concrete run, and the admission that drops a request. *)

From S2P Require Import Prelude Identifier Types Graph Occupancy Endpoint Command Cluster Replay.
From S2P Require Import Select Admit Scheduler World WorldFacts Sim.

(** ** Deciding admissible runs *)

Definition issuedb (c : Cluster) (e : Effect) : bool :=
  match effect_fields e with
  | Some (_, binding, node, provider, fence, _, _) =>
      match c_bindings c !! binding with
      | Some b => (binding_node b =? node) && (binding_provider b =? provider) && (binding_fence b =? fence)
      | None => false
      end
  | None => true
  end.

Lemma issuedb_sound c e : issuedb c e = true → issued c e.
Proof.
  unfold issuedb, issued. destruct (effect_fields e) as [[[[[[[op k] n] p] f] s] ep]|]; [|done].
  destruct (c_bindings c !! k) as [b|] eqn:Hb; [|done]. rewrite !andb_true_iff, !N.eqb_eq.
  intros [[Hn Hp] Hf]. by exists b.
Qed.

Definition op_okb (w : World) (op : WorldOp) : bool :=
  match op with
  | WApply command => negb (closing command)
  | WInject effect => issuedb (w_cluster w) effect
  | _ => true
  end.
Definition trace_u64b (w : World) : bool :=
  forallb (λ ev, match ev with TrCommand cmd => command_u64 cmd | _ => true end) (w_trace w).
Fixpoint ops_okb (w : World) (ops : list WorldOp) : bool :=
  match ops with
  | [] => true
  | op :: ops => op_okb w op && trace_u64b (world_op w op) && ops_okb (world_op w op) ops
  end.

Lemma ops_okb_sound ops w : ops_okb w ops = true → ops_ok w ops.
Proof.
  revert w. induction ops as [|op ops IH]; intros w; [done|]. cbn [ops_okb ops_ok].
  rewrite !andb_true_iff. intros [[Hop Hu] Hops]. split_and!; [|..|by apply IH].
  - destruct op; try done; cbn in Hop |- *; [by apply negb_true_iff|by apply issuedb_sound].
  - apply List.Forall_forall. intros ev Hev. unfold trace_u64b in Hu. rewrite List.forallb_forall in Hu.
    specialize (Hu ev Hev). by destruct ev.
Qed.

(** ** The run *)

(** The machine, its GPU; the GPU's endpoint. *)
Definition one : TinyGraph := tiny_graph 1.
Definition gpu_key : N * N := (ENFORCE, 7).

(** Lease 1 binds the GPU; the prepare is lost, controller and agent restart,
    and reconciliation cannot prove the binding: the lease fails. *)
Definition first_life : list WorldOp :=
  [WApplyGraph (tg_nodes one) (tg_edges one); WRegisterAgent 2; WDeliverOne; WSetNow 1;
   WPlace (gpu_request 1 1) 1 9 None 1000 21; WBindEnforced 1 100; WDropOne; WRestartController;
   WRestartAgent 2; WDeliverOne].
(** Its fence is acknowledged and lease 2 takes the GPU.  A prepare of the
    first lease arrives late, the controller crashes again, and the fence of
    the first lease is repeated: the second stays enforced. *)
Definition second_life : list WorldOp :=
  [WDeliverOne; WDeliverOne; WEnqueue (gpu_request 2 1) 9; WAdmitNext 2 9; WDeliverOne;
   WInject (EffPrepare 100 7 ENFORCE 1 2 1); WActivateLease 2; WRestartController; WDeliverOne;
   WInject (EffFence 100 7 ENFORCE 1 2 1)].
Definition life : list WorldOp := first_life ++ second_life.

Lemma life_ok : ops_ok world_new life.
Proof. apply ops_okb_sound. vm_compute. reflexivity. Qed.

Definition gpu_endpoint : Endpoint := mkEndpoint ENFORCE 7 2 true (Some 1) Active 2.

Lemma life_endpoint : w_endpoints (world_run world_new life) !! gpu_key = Some gpu_endpoint.
Proof. vm_compute. reflexivity. Qed.

(** The GPU's endpoint enforces lease 2. *)
Lemma enforcement_has_authority_witness :
  ops_ok world_new life
  ∧ ∃ b l cl, c_bindings (w_cluster (world_run world_new life)) !! 1 = Some b
    ∧ (binding_provider b, binding_node b) = gpu_key ∧ binding_fence b = 2
    ∧ is_closed (binding_state b) = false
    ∧ c_leases (w_cluster (world_run world_new life)) !! binding_lease b = Some l
    ∧ occupies (w_cluster (world_run world_new life)) (binding_lease b) = true
    ∧ cl ∈ lease_claims l ∧ claim_node cl = 7.
Proof.
  split; [exact life_ok|].
  exact (enforcement_has_authority life gpu_key gpu_endpoint 1 life_ok life_endpoint eq_refl).
Defined.

(** Two crashes, invisible. *)
Lemma controller_crashes_invisible_witness :
  ops_ok world_new life
  ∧ replay_trace (world_run world_new life) = Ok (w_cluster (world_run world_new life))
  ∧ world_run world_new life = world_run world_new (List.filter not_restart life).
Proof. split; [exact life_ok|exact (controller_crashes_invisible life life_ok)]. Defined.

(** ** The order of dequeueing *)

(** Opening the lease does not look at the queue. *)
Lemma open_admission_queue lease owner a queue w :
  (open_admission lease owner a (set_w_queue queue w)).2 = (open_admission lease owner a w).2
  ∧ w_queue (open_admission lease owner a (set_w_queue queue w)).1 = queue
  ∧ w_queue (open_admission lease owner a w).1 = w_queue w.
Proof.
  unfold open_admission, world_do, world_apply, world_commit, mbind, WM_bind, wget. cbn [w_cluster set_w_queue].
  set (cmd := OpenLease _ _ _ _ _ _ _). by destruct (cluster_apply cmd (w_cluster w)) as [c [es|e]].
Qed.

(** [admit_next_with_ceiling] takes a request off the queue before the lease
    is open: when the kernel refuses the lease (its id is taken, the graph moved
    on), the error is returned and the request is gone, although a request is
    meant to leave the queue "only after its lease opens successfully, so a
    failed open never loses the request".  Plain admission keeps it. *)
Theorem ceiling_admission_loses_request lease owner ceiling w a e :
  cluster_admit_with_ceiling (w_cluster w) (w_queue w) ceiling = Some a →
  (open_admission lease owner a w).2 = Err e →
  (admit_next_with_ceiling lease owner ceiling w).2 = Err e
  ∧ (req_id (adm_request a) ∉ queue_ids (admit_next_with_ceiling lease owner ceiling w).1)
  ∧ (admit_then_dequeue (Some a) lease owner w).2 = Err e
  ∧ w_queue (admit_then_dequeue (Some a) lease owner w).1 = w_queue w.
Proof.
  intros Ha He. set (queue := List.filter (λ q, negb (req_id (q_request q) =? req_id (adm_request a))) (w_queue w)).
  destruct (open_admission_queue lease owner a queue w) as (Hres & Hqueue & Hkept).
  assert (admit_next_with_ceiling lease owner ceiling w
    = (open_admission lease owner a
         ≫= (λ _, bind_next lease ≫= (λ _, mret (Some (req_id (adm_request a))))))
        (set_w_queue queue w)) as ->.
  { unfold admit_next_with_ceiling, wget, mbind, WM_bind. by rewrite Ha. }
  unfold admit_then_dequeue. unfold mbind, WM_bind. rewrite He in Hres.
  destruct (open_admission lease owner a (set_w_queue queue w)) as [w1 [[]|e1]]; cbn [fst snd] in *; [done|].
  destruct (open_admission lease owner a w) as [w2 [[]|e2]]; cbn [fst snd] in *; [done|].
  split_and!; try congruence. unfold queue_ids. rewrite Hqueue.
  intros (q & Hid & Hq)%list_elem_of_fmap. subst queue.
  rewrite list_elem_of_In, filter_In in Hq. destruct Hq as [_ Hne]. by rewrite <-Hid, N.eqb_refl in Hne.
Qed.

(** Lease 1 is known: the queued request is lost. *)
Definition taken : World :=
  world_run world_new
    [WApplyGraph (tg_nodes one) (tg_edges one); WRegisterAgent 2; WDeliverOne;
     WPlace (mkRequest 1 Batch [mkNeed Class.Nic (qty Dim.Count 1) []] [] [] [] 1000 1 true) 1 9 None 1000 21;
     WEnqueue (gpu_request 2 1) 9].
Definition gpu_admission : Admission :=
  mkAdmission (gpu_request 2 1) 9
    (mkAllocation [mkClaim 7 (qty Dim.Count 1)] 1
       (mkExplanation "Batch Pack selected 1 claims; NodeId(7) score=10" [CandidateScore 7 10 [] None])).

Lemma taken_admits : cluster_admit_with_ceiling (w_cluster taken) (w_queue taken) ∅ = Some gpu_admission.
Proof. vm_compute. reflexivity. Qed.
Lemma taken_refused : (open_admission 1 9 gpu_admission taken).2 = Err (DuplicateLease 1).
Proof. vm_compute. reflexivity. Qed.

Lemma ceiling_admission_loses_request_witness :
  2 ∈ queue_ids taken
  ∧ (admit_next_with_ceiling 1 9 ∅ taken).2 = Err (DuplicateLease 1)
  ∧ 2 ∉ queue_ids (admit_next_with_ceiling 1 9 ∅ taken).1.
Proof.
  destruct (ceiling_admission_loses_request 1 9 ∅ taken gpu_admission _ taken_admits taken_refused)
    as (Herr & Hlost & _).
  split; [apply list_elem_of_In; vm_compute; by left|]. exact (conj Herr Hlost).
Defined.
