(* ===== verification/ServiceState.v ===== *)
(** The controller's state: the data of src/crates/node/src/service.rs,
    dispatch.rs and recovery.rs.

    The fields of [NodeService] that [ServiceState] mirrors are one component
    [ns_state] of that type.  A worker thread is the queue of jobs it has not
    answered; the inbox is the list of answers not yet absorbed.  Each call of
    the durable sink appends to [ns_journal] while a sink is attached. *)

From S2P Require Import Prelude Identifier Types Workload Endpoint Protocol Provider Graph Command.
From S2P Require Import Cluster.

(** ** dispatch.rs *)

Inductive EffectPhase := PhPrepare | PhActivate | PhRelease | PhFence.

#[export] Instance EffectPhase_eq_dec : EqDecision EffectPhase.
Proof. solve_decision. Defined.

Definition phase_code (p : EffectPhase) : N :=
  match p with PhPrepare => 0 | PhActivate => 1 | PhRelease => 2 | PhFence => 3 end.
Definition phase_of_code (n : N) : EffectPhase :=
  match n with 0 => PhPrepare | 1 => PhActivate | 2 => PhRelease | _ => PhFence end.

#[export] Instance EffectPhase_countable : Countable EffectPhase.
Proof. refine (inj_countable' phase_code phase_of_code _). by intros []. Defined.

(** The order of [(BindingId, EffectPhase)]. *)
Definition held_leb (a b : N * EffectPhase) : bool :=
  (a.1 <? b.1) || ((a.1 =? b.1) && (phase_code a.2 <=? phase_code b.2)).

Ltac held_order :=
  repeat match goal with |- ∀ _, _ => intros [? ?] end; unfold held_leb; simpl;
  rewrite ?orb_true_iff, ?andb_true_iff, ?N.ltb_lt, ?N.eqb_eq, ?N.leb_le.

#[export] Program Instance BOrd_held : BOrd (N * EffectPhase) := {| bleb := held_leb |}.
Next Obligation. held_order. lia. Qed.
Next Obligation. held_order. lia. Qed.
Next Obligation.
  intros [n p] [n' p']. held_order. intros H1 H2. assert (n' = n) as -> by lia.
  assert (phase_code p = phase_code p') by lia. destruct p, p'; done.
Qed.

Inductive Tag :=
| TBinding (binding : BindingId) (session fence : u64) (phase : EffectPhase)
| TExecutionStart (lease : LeaseId) (machine : NodeId) (session : u64)
| TExecutionStop (lease : LeaseId) (machine : NodeId) (session : u64)
| TStatus (lease : LeaseId) (machine : NodeId) (session : u64)
| TEnumerate (machine : NodeId) (session : u64)
| TStrayFence (machine : NodeId) (session : u64) (node : NodeId) (provider : ProviderId)
    (scope : BindingScope) (binding : BindingId) (fence : u64)
| TProbe (machine : NodeId).

#[export] Instance Tag_eq_dec : EqDecision Tag.
Proof. solve_decision. Defined.

Definition scope_code (s : BindingScope) : N := match s with Exclusive => 0 | IndependentShare => 1 end.
Definition scope_of_code (n : N) : BindingScope := match n with 0 => Exclusive | _ => IndependentShare end.

Definition tag_encode (t : Tag) : list N :=
  match t with
  | TBinding b s f p => [0; b; s; f; phase_code p]
  | TExecutionStart l m s => [1; l; m; s]
  | TExecutionStop l m s => [2; l; m; s]
  | TStatus l m s => [3; l; m; s]
  | TEnumerate m s => [4; m; s]
  | TStrayFence m s n p sc b f => [5; m; s; n; p; scope_code sc; b; f]
  | TProbe m => [6; m]
  end.
Definition tag_decode (l : list N) : option Tag :=
  match l with
  | [0; b; s; f; p] => Some (TBinding b s f (phase_of_code p))
  | [1; l; m; s] => Some (TExecutionStart l m s)
  | [2; l; m; s] => Some (TExecutionStop l m s)
  | [3; l; m; s] => Some (TStatus l m s)
  | [4; m; s] => Some (TEnumerate m s)
  | [5; m; s; n; p; sc; b; f] => Some (TStrayFence m s n p (scope_of_code sc) b f)
  | [6; m] => Some (TProbe m)
  | _ => None
  end.

#[export] Instance Tag_countable : Countable Tag.
Proof.
  refine (inj_countable tag_encode tag_decode _).
  intros [b s f []| | | | |m s n p [] b f|]; done.
Defined.

(** [AgentReply] *)
Abbreviation AgentReply := (result string AgentResponse) (only parsing).

(** [AgentHandle]: whether the worker still receives, and its unanswered
    jobs in order. *)
Record AgentHandle := mkHandle {
  ah_alive : bool;
  ah_jobs : list (Tag * AgentRequest);
}.

(** ** recovery.rs *)

Record MemberStatus := mkMemberStatus { ms_running : bool; ms_exit_code : option Z }.

Record MachineRecovery := mkRecovery {
  rec_session : u64;
  rec_members : gmap N (option MemberStatus);
  rec_endpoints : option (list EnumeratedEndpoint);
  rec_stray_fences : gset Tag;
}.

(** [MachineRecovery::new] *)
Definition recovery_new (session : u64) : MachineRecovery := mkRecovery session ∅ None ∅.

Definition endpoints_settled (r : MachineRecovery) : bool :=
  bool_decide (is_Some (rec_endpoints r)) && bool_decide (rec_stray_fences r = ∅).

(** [MachineRecovery::complete] *)
Definition recovery_complete (r : MachineRecovery) : bool :=
  bool_decide (rec_members r = ∅) && endpoints_settled r.

Definition set_members (v : gmap N (option MemberStatus)) (r : MachineRecovery) : MachineRecovery :=
  mkRecovery (rec_session r) v (rec_endpoints r) (rec_stray_fences r).
Definition set_rec_endpoints (v : option (list EnumeratedEndpoint)) (r : MachineRecovery) :
    MachineRecovery :=
  mkRecovery (rec_session r) (rec_members r) v (rec_stray_fences r).
Definition set_stray_fences (v : gset Tag) (r : MachineRecovery) : MachineRecovery :=
  mkRecovery (rec_session r) (rec_members r) (rec_endpoints r) v.

(** ** service.rs *)

Inductive RecoveryEvent :=
| PreparingLeaseFailed (lease : LeaseId) (machine : NodeId)
| TerminalBindingFenced (lease : LeaseId) (machine : NodeId) (binding : BindingId)
| MemberRecovered (lease : LeaseId) (machine : NodeId) (running : bool) (exit_code : option Z)
| MemberRevokedUnprovable (lease : LeaseId) (machine : NodeId)
| MemberRevokedRebindFailed (lease : LeaseId) (machine : NodeId)
| TerminalMemberResolved (lease : LeaseId) (machine : NodeId)
| StrayFenced (machine node : NodeId) (binding : BindingId).

Record ServiceState := mkState {
  ss_requests : gmap N (WorkloadSpec * OwnerId);
  ss_queue : list Queued;
  ss_queued_workloads : gmap N WorkloadSpec;
  ss_restart_handled : gset N;
  ss_restart_counts : gmap N N;
  ss_restart_last_at : gmap N N;
  ss_restart_root : gmap N N;
  ss_service_groups : gmap string ServiceGroup;
  ss_group_members : gmap string (gset N);
  ss_member_groups : gmap N string;
  ss_group_restarts : gmap string N;
  ss_group_last_restart : gmap string N;
  ss_member_pins : gmap N N;
  ss_next_lease : u64;
  ss_next_request_id : u64;
  ss_next_session : u64;
  ss_next_binding : u64;
}.

Record NodeService := mkService {
  ns_cluster : Cluster;
  ns_agents : gmap N AgentHandle;
  ns_execution_capabilities : gmap N ExecutionCapabilities;
  ns_inbox : list (Tag * AgentReply);
  ns_inflight : gset Tag;
  ns_member_status : gmap (N * N) MemberStatus;
  ns_provider_activations : gset (N * N * N);
  ns_execution_started : gset (N * N * N);
  ns_execution_stopped : gset (N * N * N);
  ns_held_effects : gset (N * EffectPhase);
  ns_unreachable : list NodeId;
  ns_pending : list Effect;
  ns_recovering : gmap N MachineRecovery;
  ns_recovery_events : list RecoveryEvent;
  ns_state : ServiceState;
  ns_durable : bool;
  ns_journal : list (option Command * ServiceState);
  ns_history : list Command;
}.

(** [NodeService::new] *)
Definition state_new : ServiceState :=
  mkState ∅ [] ∅ ∅ ∅ ∅ ∅ ∅ ∅ ∅ ∅ ∅ ∅ 1 1 1 1.
Definition service_new : NodeService :=
  mkService cluster_new ∅ ∅ [] ∅ ∅ ∅ ∅ ∅ ∅ [] [] ∅ [] state_new false [] [].

(** Field assignments. *)
Definition set_requests (v : gmap N (WorkloadSpec * OwnerId)) (s : ServiceState) : ServiceState :=
  mkState v (ss_queue s) (ss_queued_workloads s) (ss_restart_handled s) (ss_restart_counts s)
    (ss_restart_last_at s) (ss_restart_root s) (ss_service_groups s) (ss_group_members s)
    (ss_member_groups s) (ss_group_restarts s) (ss_group_last_restart s) (ss_member_pins s)
    (ss_next_lease s) (ss_next_request_id s) (ss_next_session s) (ss_next_binding s).
Definition set_queue (v : list Queued) (s : ServiceState) : ServiceState :=
  mkState (ss_requests s) v (ss_queued_workloads s) (ss_restart_handled s) (ss_restart_counts s)
    (ss_restart_last_at s) (ss_restart_root s) (ss_service_groups s) (ss_group_members s)
    (ss_member_groups s) (ss_group_restarts s) (ss_group_last_restart s) (ss_member_pins s)
    (ss_next_lease s) (ss_next_request_id s) (ss_next_session s) (ss_next_binding s).
Definition set_queued_workloads (v : gmap N WorkloadSpec) (s : ServiceState) : ServiceState :=
  mkState (ss_requests s) (ss_queue s) v (ss_restart_handled s) (ss_restart_counts s)
    (ss_restart_last_at s) (ss_restart_root s) (ss_service_groups s) (ss_group_members s)
    (ss_member_groups s) (ss_group_restarts s) (ss_group_last_restart s) (ss_member_pins s)
    (ss_next_lease s) (ss_next_request_id s) (ss_next_session s) (ss_next_binding s).
Definition set_restart_handled (v : gset N) (s : ServiceState) : ServiceState :=
  mkState (ss_requests s) (ss_queue s) (ss_queued_workloads s) v (ss_restart_counts s)
    (ss_restart_last_at s) (ss_restart_root s) (ss_service_groups s) (ss_group_members s)
    (ss_member_groups s) (ss_group_restarts s) (ss_group_last_restart s) (ss_member_pins s)
    (ss_next_lease s) (ss_next_request_id s) (ss_next_session s) (ss_next_binding s).
Definition set_restart_counts (v : gmap N N) (s : ServiceState) : ServiceState :=
  mkState (ss_requests s) (ss_queue s) (ss_queued_workloads s) (ss_restart_handled s) v
    (ss_restart_last_at s) (ss_restart_root s) (ss_service_groups s) (ss_group_members s)
    (ss_member_groups s) (ss_group_restarts s) (ss_group_last_restart s) (ss_member_pins s)
    (ss_next_lease s) (ss_next_request_id s) (ss_next_session s) (ss_next_binding s).
Definition set_restart_last_at (v : gmap N N) (s : ServiceState) : ServiceState :=
  mkState (ss_requests s) (ss_queue s) (ss_queued_workloads s) (ss_restart_handled s)
    (ss_restart_counts s) v (ss_restart_root s) (ss_service_groups s) (ss_group_members s)
    (ss_member_groups s) (ss_group_restarts s) (ss_group_last_restart s) (ss_member_pins s)
    (ss_next_lease s) (ss_next_request_id s) (ss_next_session s) (ss_next_binding s).
Definition set_restart_root (v : gmap N N) (s : ServiceState) : ServiceState :=
  mkState (ss_requests s) (ss_queue s) (ss_queued_workloads s) (ss_restart_handled s)
    (ss_restart_counts s) (ss_restart_last_at s) v (ss_service_groups s) (ss_group_members s)
    (ss_member_groups s) (ss_group_restarts s) (ss_group_last_restart s) (ss_member_pins s)
    (ss_next_lease s) (ss_next_request_id s) (ss_next_session s) (ss_next_binding s).
Definition set_service_groups (v : gmap string ServiceGroup) (s : ServiceState) : ServiceState :=
  mkState (ss_requests s) (ss_queue s) (ss_queued_workloads s) (ss_restart_handled s)
    (ss_restart_counts s) (ss_restart_last_at s) (ss_restart_root s) v (ss_group_members s)
    (ss_member_groups s) (ss_group_restarts s) (ss_group_last_restart s) (ss_member_pins s)
    (ss_next_lease s) (ss_next_request_id s) (ss_next_session s) (ss_next_binding s).
Definition set_group_members (v : gmap string (gset N)) (s : ServiceState) : ServiceState :=
  mkState (ss_requests s) (ss_queue s) (ss_queued_workloads s) (ss_restart_handled s)
    (ss_restart_counts s) (ss_restart_last_at s) (ss_restart_root s) (ss_service_groups s) v
    (ss_member_groups s) (ss_group_restarts s) (ss_group_last_restart s) (ss_member_pins s)
    (ss_next_lease s) (ss_next_request_id s) (ss_next_session s) (ss_next_binding s).
Definition set_member_groups (v : gmap N string) (s : ServiceState) : ServiceState :=
  mkState (ss_requests s) (ss_queue s) (ss_queued_workloads s) (ss_restart_handled s)
    (ss_restart_counts s) (ss_restart_last_at s) (ss_restart_root s) (ss_service_groups s)
    (ss_group_members s) v (ss_group_restarts s) (ss_group_last_restart s) (ss_member_pins s)
    (ss_next_lease s) (ss_next_request_id s) (ss_next_session s) (ss_next_binding s).
Definition set_group_restarts (v : gmap string N) (s : ServiceState) : ServiceState :=
  mkState (ss_requests s) (ss_queue s) (ss_queued_workloads s) (ss_restart_handled s)
    (ss_restart_counts s) (ss_restart_last_at s) (ss_restart_root s) (ss_service_groups s)
    (ss_group_members s) (ss_member_groups s) v (ss_group_last_restart s) (ss_member_pins s)
    (ss_next_lease s) (ss_next_request_id s) (ss_next_session s) (ss_next_binding s).
Definition set_group_last_restart (v : gmap string N) (s : ServiceState) : ServiceState :=
  mkState (ss_requests s) (ss_queue s) (ss_queued_workloads s) (ss_restart_handled s)
    (ss_restart_counts s) (ss_restart_last_at s) (ss_restart_root s) (ss_service_groups s)
    (ss_group_members s) (ss_member_groups s) (ss_group_restarts s) v (ss_member_pins s)
    (ss_next_lease s) (ss_next_request_id s) (ss_next_session s) (ss_next_binding s).
Definition set_member_pins (v : gmap N N) (s : ServiceState) : ServiceState :=
  mkState (ss_requests s) (ss_queue s) (ss_queued_workloads s) (ss_restart_handled s)
    (ss_restart_counts s) (ss_restart_last_at s) (ss_restart_root s) (ss_service_groups s)
    (ss_group_members s) (ss_member_groups s) (ss_group_restarts s) (ss_group_last_restart s) v
    (ss_next_lease s) (ss_next_request_id s) (ss_next_session s) (ss_next_binding s).
Definition set_next_lease (v : u64) (s : ServiceState) : ServiceState :=
  mkState (ss_requests s) (ss_queue s) (ss_queued_workloads s) (ss_restart_handled s)
    (ss_restart_counts s) (ss_restart_last_at s) (ss_restart_root s) (ss_service_groups s)
    (ss_group_members s) (ss_member_groups s) (ss_group_restarts s) (ss_group_last_restart s)
    (ss_member_pins s) v (ss_next_request_id s) (ss_next_session s) (ss_next_binding s).
Definition set_next_request_id (v : u64) (s : ServiceState) : ServiceState :=
  mkState (ss_requests s) (ss_queue s) (ss_queued_workloads s) (ss_restart_handled s)
    (ss_restart_counts s) (ss_restart_last_at s) (ss_restart_root s) (ss_service_groups s)
    (ss_group_members s) (ss_member_groups s) (ss_group_restarts s) (ss_group_last_restart s)
    (ss_member_pins s) (ss_next_lease s) v (ss_next_session s) (ss_next_binding s).
Definition set_next_session (v : u64) (s : ServiceState) : ServiceState :=
  mkState (ss_requests s) (ss_queue s) (ss_queued_workloads s) (ss_restart_handled s)
    (ss_restart_counts s) (ss_restart_last_at s) (ss_restart_root s) (ss_service_groups s)
    (ss_group_members s) (ss_member_groups s) (ss_group_restarts s) (ss_group_last_restart s)
    (ss_member_pins s) (ss_next_lease s) (ss_next_request_id s) v (ss_next_binding s).
Definition set_next_binding (v : u64) (s : ServiceState) : ServiceState :=
  mkState (ss_requests s) (ss_queue s) (ss_queued_workloads s) (ss_restart_handled s)
    (ss_restart_counts s) (ss_restart_last_at s) (ss_restart_root s) (ss_service_groups s)
    (ss_group_members s) (ss_member_groups s) (ss_group_restarts s) (ss_group_last_restart s)
    (ss_member_pins s) (ss_next_lease s) (ss_next_request_id s) (ss_next_session s) v.
Definition set_cluster (v : Cluster) (s : NodeService) : NodeService :=
  mkService v (ns_agents s) (ns_execution_capabilities s) (ns_inbox s) (ns_inflight s)
    (ns_member_status s) (ns_provider_activations s) (ns_execution_started s)
    (ns_execution_stopped s) (ns_held_effects s) (ns_unreachable s) (ns_pending s)
    (ns_recovering s) (ns_recovery_events s) (ns_state s) (ns_durable s) (ns_journal s)
    (ns_history s).
Definition set_agents (v : gmap N AgentHandle) (s : NodeService) : NodeService :=
  mkService (ns_cluster s) v (ns_execution_capabilities s) (ns_inbox s) (ns_inflight s)
    (ns_member_status s) (ns_provider_activations s) (ns_execution_started s)
    (ns_execution_stopped s) (ns_held_effects s) (ns_unreachable s) (ns_pending s)
    (ns_recovering s) (ns_recovery_events s) (ns_state s) (ns_durable s) (ns_journal s)
    (ns_history s).
Definition set_execution_capabilities (v : gmap N ExecutionCapabilities) (s : NodeService) : NodeService :=
  mkService (ns_cluster s) (ns_agents s) v (ns_inbox s) (ns_inflight s) (ns_member_status s)
    (ns_provider_activations s) (ns_execution_started s) (ns_execution_stopped s)
    (ns_held_effects s) (ns_unreachable s) (ns_pending s) (ns_recovering s)
    (ns_recovery_events s) (ns_state s) (ns_durable s) (ns_journal s) (ns_history s).
Definition set_inbox (v : list (Tag * AgentReply)) (s : NodeService) : NodeService :=
  mkService (ns_cluster s) (ns_agents s) (ns_execution_capabilities s) v (ns_inflight s)
    (ns_member_status s) (ns_provider_activations s) (ns_execution_started s)
    (ns_execution_stopped s) (ns_held_effects s) (ns_unreachable s) (ns_pending s)
    (ns_recovering s) (ns_recovery_events s) (ns_state s) (ns_durable s) (ns_journal s)
    (ns_history s).
Definition set_inflight (v : gset Tag) (s : NodeService) : NodeService :=
  mkService (ns_cluster s) (ns_agents s) (ns_execution_capabilities s) (ns_inbox s) v
    (ns_member_status s) (ns_provider_activations s) (ns_execution_started s)
    (ns_execution_stopped s) (ns_held_effects s) (ns_unreachable s) (ns_pending s)
    (ns_recovering s) (ns_recovery_events s) (ns_state s) (ns_durable s) (ns_journal s)
    (ns_history s).
Definition set_member_status (v : gmap (N * N) MemberStatus) (s : NodeService) : NodeService :=
  mkService (ns_cluster s) (ns_agents s) (ns_execution_capabilities s) (ns_inbox s)
    (ns_inflight s) v (ns_provider_activations s) (ns_execution_started s)
    (ns_execution_stopped s) (ns_held_effects s) (ns_unreachable s) (ns_pending s)
    (ns_recovering s) (ns_recovery_events s) (ns_state s) (ns_durable s) (ns_journal s)
    (ns_history s).
Definition set_provider_activations (v : gset (N * N * N)) (s : NodeService) : NodeService :=
  mkService (ns_cluster s) (ns_agents s) (ns_execution_capabilities s) (ns_inbox s)
    (ns_inflight s) (ns_member_status s) v (ns_execution_started s) (ns_execution_stopped s)
    (ns_held_effects s) (ns_unreachable s) (ns_pending s) (ns_recovering s)
    (ns_recovery_events s) (ns_state s) (ns_durable s) (ns_journal s) (ns_history s).
Definition set_execution_started (v : gset (N * N * N)) (s : NodeService) : NodeService :=
  mkService (ns_cluster s) (ns_agents s) (ns_execution_capabilities s) (ns_inbox s)
    (ns_inflight s) (ns_member_status s) (ns_provider_activations s) v (ns_execution_stopped s)
    (ns_held_effects s) (ns_unreachable s) (ns_pending s) (ns_recovering s)
    (ns_recovery_events s) (ns_state s) (ns_durable s) (ns_journal s) (ns_history s).
Definition set_execution_stopped (v : gset (N * N * N)) (s : NodeService) : NodeService :=
  mkService (ns_cluster s) (ns_agents s) (ns_execution_capabilities s) (ns_inbox s)
    (ns_inflight s) (ns_member_status s) (ns_provider_activations s) (ns_execution_started s) v
    (ns_held_effects s) (ns_unreachable s) (ns_pending s) (ns_recovering s)
    (ns_recovery_events s) (ns_state s) (ns_durable s) (ns_journal s) (ns_history s).
Definition set_held_effects (v : gset (N * EffectPhase)) (s : NodeService) : NodeService :=
  mkService (ns_cluster s) (ns_agents s) (ns_execution_capabilities s) (ns_inbox s)
    (ns_inflight s) (ns_member_status s) (ns_provider_activations s) (ns_execution_started s)
    (ns_execution_stopped s) v (ns_unreachable s) (ns_pending s) (ns_recovering s)
    (ns_recovery_events s) (ns_state s) (ns_durable s) (ns_journal s) (ns_history s).
Definition set_unreachable (v : list NodeId) (s : NodeService) : NodeService :=
  mkService (ns_cluster s) (ns_agents s) (ns_execution_capabilities s) (ns_inbox s)
    (ns_inflight s) (ns_member_status s) (ns_provider_activations s) (ns_execution_started s)
    (ns_execution_stopped s) (ns_held_effects s) v (ns_pending s) (ns_recovering s)
    (ns_recovery_events s) (ns_state s) (ns_durable s) (ns_journal s) (ns_history s).
Definition set_pending (v : list Effect) (s : NodeService) : NodeService :=
  mkService (ns_cluster s) (ns_agents s) (ns_execution_capabilities s) (ns_inbox s)
    (ns_inflight s) (ns_member_status s) (ns_provider_activations s) (ns_execution_started s)
    (ns_execution_stopped s) (ns_held_effects s) (ns_unreachable s) v (ns_recovering s)
    (ns_recovery_events s) (ns_state s) (ns_durable s) (ns_journal s) (ns_history s).
Definition set_recovering (v : gmap N MachineRecovery) (s : NodeService) : NodeService :=
  mkService (ns_cluster s) (ns_agents s) (ns_execution_capabilities s) (ns_inbox s)
    (ns_inflight s) (ns_member_status s) (ns_provider_activations s) (ns_execution_started s)
    (ns_execution_stopped s) (ns_held_effects s) (ns_unreachable s) (ns_pending s) v
    (ns_recovery_events s) (ns_state s) (ns_durable s) (ns_journal s) (ns_history s).
Definition set_recovery_events (v : list RecoveryEvent) (s : NodeService) : NodeService :=
  mkService (ns_cluster s) (ns_agents s) (ns_execution_capabilities s) (ns_inbox s)
    (ns_inflight s) (ns_member_status s) (ns_provider_activations s) (ns_execution_started s)
    (ns_execution_stopped s) (ns_held_effects s) (ns_unreachable s) (ns_pending s)
    (ns_recovering s) v (ns_state s) (ns_durable s) (ns_journal s) (ns_history s).
Definition set_state (v : ServiceState) (s : NodeService) : NodeService :=
  mkService (ns_cluster s) (ns_agents s) (ns_execution_capabilities s) (ns_inbox s)
    (ns_inflight s) (ns_member_status s) (ns_provider_activations s) (ns_execution_started s)
    (ns_execution_stopped s) (ns_held_effects s) (ns_unreachable s) (ns_pending s)
    (ns_recovering s) (ns_recovery_events s) v (ns_durable s) (ns_journal s) (ns_history s).
Definition set_durable (v : bool) (s : NodeService) : NodeService :=
  mkService (ns_cluster s) (ns_agents s) (ns_execution_capabilities s) (ns_inbox s)
    (ns_inflight s) (ns_member_status s) (ns_provider_activations s) (ns_execution_started s)
    (ns_execution_stopped s) (ns_held_effects s) (ns_unreachable s) (ns_pending s)
    (ns_recovering s) (ns_recovery_events s) (ns_state s) v (ns_journal s) (ns_history s).
Definition set_journal (v : list (option Command * ServiceState)) (s : NodeService) : NodeService :=
  mkService (ns_cluster s) (ns_agents s) (ns_execution_capabilities s) (ns_inbox s)
    (ns_inflight s) (ns_member_status s) (ns_provider_activations s) (ns_execution_started s)
    (ns_execution_stopped s) (ns_held_effects s) (ns_unreachable s) (ns_pending s)
    (ns_recovering s) (ns_recovery_events s) (ns_state s) (ns_durable s) v (ns_history s).
Definition set_history (v : list Command) (s : NodeService) : NodeService :=
  mkService (ns_cluster s) (ns_agents s) (ns_execution_capabilities s) (ns_inbox s)
    (ns_inflight s) (ns_member_status s) (ns_provider_activations s) (ns_execution_started s)
    (ns_execution_stopped s) (ns_held_effects s) (ns_unreachable s) (ns_pending s)
    (ns_recovering s) (ns_recovery_events s) (ns_state s) (ns_durable s) (ns_journal s) v.

Definition over_state (f : ServiceState → ServiceState) (s : NodeService) : NodeService :=
  set_state (f (ns_state s)) s.

(** ** Operations that may fail: the state survives the error *)

Definition SM (A : Type) : Type := NodeService → NodeService * result Error A.

#[export] Instance SM_ret : MRet SM := λ A a s, (s, Ok a).
#[export] Instance SM_bind : MBind SM := λ A B f m s,
  match m s with
  | (s', Ok a) => f a s'
  | (s', Err e) => (s', Err e)
  end.

Definition sget : SM NodeService := λ s, (s, Ok s).
Definition smodify (f : NodeService → NodeService) : SM unit := λ s, (f s, Ok ()).
Definition slift {A} (r : result Error A) : SM A := λ s, (s, r).

(** A loop of fallible steps. *)
Fixpoint sfor {A} (f : A → SM unit) (l : list A) : SM unit :=
  match l with
  | [] => mret ()
  | x :: l => _ ← f x; sfor f l
  end.
