(* ===== verification/Service.v ===== *)
(** The controller: src/crates/node/src/service.rs, commits, the queue, what a
    lease maps to on its machines, snapshots and replay. *)

From S2P Require Import Prelude Identifier Text Types Workload Endpoint Protocol Provider Graph.
From S2P Require Import Inventory Discover Occupancy Command Cluster Select Admit Scheduler.
From S2P Require Import ServiceState.
From Stdlib Require Import Ascii.

(** [serde_json] on the list of access paths of a device. *)
Class PathCodec := {
  paths_to_json : list string → string;
  paths_from_json : string → option (list string);
}.

(** ** Commits *)

(** [NodeService::state_snapshot] *)
Definition state_snapshot (s : NodeService) : ServiceState := ns_state s.

(** [NodeService::persist]: one call of the durable sink. *)
Definition persist (command : option Command) (s : NodeService) : NodeService :=
  if ns_durable s then set_journal (ns_journal s ++ [(command, state_snapshot s)]) s else s.

(** [NodeService::commit] *)
Definition commit (command : Command) : SM unit := λ s,
  match cluster_apply command (ns_cluster s) with
  | (c, Ok effects) =>
      let s := set_history (ns_history s ++ [command]) (set_cluster c s) in
      let s := persist (Some command) s in
      (set_pending (ns_pending s ++ effects) s, Ok ())
  | (c, Err e) => (set_cluster c s, Err e)
  end.

(** [try_commit_lenient] and [commit_lenient] *)
Definition try_commit_lenient (command : Command) (s : NodeService) : NodeService * bool :=
  let '(s, r) := commit command s in (s, is_ok r).
Definition commit_lenient (command : Command) (s : NodeService) : NodeService :=
  (try_commit_lenient command s).1.

(** ** The queue *)

(** [NodeService::enqueue] *)
Definition enqueue (workload : WorkloadSpec) (owner : OwnerId) (s : NodeService) : NodeService :=
  let request := w_resources workload in
  over_state (λ st,
    set_queue (ss_queue st ++ [mkQueued request owner (c_now (ns_cluster s))])
      (set_queued_workloads (<[req_id request := workload]> (ss_queued_workloads st))
         (set_next_request_id (N.max (ss_next_request_id st) (wrap_add (req_id request) 1)) st))) s.

(** [NodeService::submit] *)
Definition submit (workload : WorkloadSpec) (owner : OwnerId) (s : NodeService) : NodeService :=
  persist None (enqueue workload owner s).

(** *** Placement exclusions of the execution adapters *)

Definition no_runtime : RuntimeCapabilities := mkRuntime false false false false false false.

Definition exclude (request : RequestId) (ex : gmap N (gset N)) (machine : NodeId) :
    gmap N (gset N) :=
  <[request := {[machine]} ∪ default ∅ (ex !! request)]> ex.

Definition is_container (e : ExecutionSpec) : bool :=
  match ex_image e with Some image => negb (bool_decide (image = "")) | None => false end.

Definition runtime_mode (s : NodeService) (e : ExecutionSpec) (machine : NodeId) :
    RuntimeCapabilities :=
  match ns_execution_capabilities s !! machine with
  | Some caps => if is_container e then ec_container caps else ec_process caps
  | None => no_runtime
  end.

(** Whether the machine reports normalized leaves of a class. *)
Definition normalized_leaves (g : Graph) (machine : NodeId) (kind : ResourceClass) : bool :=
  existsb (λ id,
    match graph_node g id with
    | Some node => bool_decide (node_kind node = kind)
                   && bool_decide (is_Some (node_attrs node !! HOST_ID_ATTR))
    | None => false
    end) (descendants g machine).

Definition needs_class (r : Request) (kinds : list ResourceClass) : bool :=
  existsb (λ need, bool_decide (need_kind need ∈ kinds)) (req_needs r).

(** The guarantee a request needs and the machine's runtime does not have. *)
Definition incompatible (s : NodeService) (r : Request) (e : ExecutionSpec) (machine : NodeId) : bool :=
  let mode := runtime_mode s e machine in
  let g := c_graph (ns_cluster s) in
  let needs_cpu := needs_class r [Class.Cpu] in
  let needs_memory := needs_class r [Class.Memory] in
  negb (rc_available mode)
  || (needs_cpu && negb (rc_cpu_limit mode))
  || (needs_memory && negb (rc_memory_limit mode))
  || (needs_class r [Class.Gpu; Class.Nic; Class.Nvme] && negb (rc_device_isolation mode))
  || (needs_cpu && normalized_leaves g machine Class.Cpu && negb (rc_physical_cpu_placement mode))
  || (needs_memory && normalized_leaves g machine Class.Memory
      && negb (rc_numa_memory_placement mode)).

(** One turn of the loop over the queue. *)
Definition exclusions_of (s : NodeService) (machines : list NodeId) (ex : gmap N (gset N))
    (queued : Queued) : gmap N (gset N) :=
  let r := q_request queued in
  match ss_queued_workloads (ns_state s) !! req_id r with
  | None => ex
  | Some workload =>
      let ex :=
        match ss_member_pins (ns_state s) !! req_id r with
        | Some pinned =>
            foldl (exclude (req_id r)) ex (List.filter (λ m, negb (m =? pinned)) machines)
        | None => ex
        end in
      if has_program (w_execution workload)
      then foldl (exclude (req_id r)) ex
             (List.filter (incompatible s r (w_execution workload)) machines)
      else ex
  end.

(** [NodeService::execution_exclusions] *)
Definition execution_exclusions (s : NodeService) : gmap N (gset N) :=
  foldl (exclusions_of s (nodes_of_class (c_graph (ns_cluster s)) Class.Machine)) ∅
    (ss_queue (ns_state s)).

(** ** Leases on machines *)

(** [NodeService::lease_machines]: sorted and without repetitions. *)
Definition lease_machines (s : NodeService) (lease : LeaseId) : list NodeId :=
  match c_leases (ns_cluster s) !! lease with
  | None => []
  | Some l =>
      bs_iter (list_to_set (C := gset N)
        (omap (λ claim, machine_of (c_graph (ns_cluster s)) (claim_node claim)) (lease_claims l)))
  end.

Definition lease_machine (s : NodeService) (lease : LeaseId) : option NodeId :=
  head (lease_machines s lease).

(** [workload.execution.has_program()] of the lease's payload. *)
Definition lease_has_program (s : NodeService) (lease : LeaseId) : bool :=
  match ss_requests (ns_state s) !! lease with
  | Some (workload, _) => has_program (w_execution workload)
  | None => false
  end.

(** The states [terminal_lease] and the [matches!] of the teardown paths list. *)
Definition terminal_lease (st : LeaseState) : bool :=
  match st with LReleased | LExpired | LRevoked | LFailed | LCompleted => true | _ => false end.

Definition lease_is_terminal (s : NodeService) (lease : LeaseId) : bool :=
  match c_leases (ns_cluster s) !! lease with
  | Some l => terminal_lease (lease_state l)
  | None => false
  end.
Definition lease_is_active (s : NodeService) (lease : LeaseId) : bool :=
  match c_leases (ns_cluster s) !! lease with
  | Some l => bool_decide (lease_state l = LActive)
  | None => false
  end.

(** [NodeService::executing_leases] *)
Definition executing_leases (s : NodeService) : list LeaseId :=
  lease_id <$> List.filter (λ l,
    bool_decide (lease_state l = LActive) && lease_has_program s (lease_id l))
    (bt_values (c_leases (ns_cluster s))).

Definition binding_lease_of (s : NodeService) (binding : BindingId) : option LeaseId :=
  binding_lease <$> c_bindings (ns_cluster s) !! binding.

Definition session_of (s : NodeService) (machine : NodeId) : option u64 :=
  c_sessions (ns_cluster s) !! machine.

(** [NodeService::member_stop_proven] *)
Definition member_stop_proven (s : NodeService) (lease : LeaseId) (machine : NodeId) : bool :=
  match session_of s machine with
  | Some session => bool_decide ((lease, machine, session) ∈ ns_execution_stopped s)
  | None => false
  end.

Section codec.
Context `{!PathCodec}.

(** [lease_devices_for_machine] *)
Definition lease_devices_for_machine (s : NodeService) (lease : LeaseId) (machine : option NodeId) :
    list DeviceAccess :=
  let g := c_graph (ns_cluster s) in
  match c_leases (ns_cluster s) !! lease with
  | None => []
  | Some l =>
      omap (λ claim, node ← graph_node g (claim_node claim); from_attrs paths_from_json (node_attrs node))
        (List.filter (λ claim,
           match machine with
           | Some m => bool_decide (machine_of g (claim_node claim) = Some m)
           | None => true
           end
           && match graph_node g (claim_node claim) with
              | Some node => is_device_class (node_kind node)
              | None => false
              end) (lease_claims l))
  end.

Definition lease_devices (s : NodeService) (lease : LeaseId) : list DeviceAccess :=
  lease_devices_for_machine s lease None.
Definition lease_devices_on_machine (s : NodeService) (lease : LeaseId) (machine : NodeId) :
    list DeviceAccess := lease_devices_for_machine s lease (Some machine).
End codec.

(** *** Limits and placement of one machine's member *)

(** [str::rsplit_once] *)
Fixpoint rsplit_once (c : ascii) (s : string) : option (string * string) :=
  match s with
  | "" => None
  | String a rest =>
      match rsplit_once c rest with
      | Some (l, r) => Some (String a l, r)
      | None => if Ascii.eqb a c then Some ("", rest) else None
      end
  end.

(** [NodeService::host_leaf_number] *)
Definition host_leaf_number (s : NodeService) (node : NodeId) (leaf_kind : string) : option N :=
  n ← graph_node (c_graph (ns_cluster s)) node;
  host_id ← node_attrs n !! HOST_ID_ATTR;
  '(numa, leaf) ← rsplit_once "/" host_id;
  numa ← strip_prefix "numa/" numa;
  if bool_decide (leaf_kind = "cpu") then strip_prefix "cpu/" leaf ≫= parse_u32
  else if bool_decide (leaf_kind = "memory") && bool_decide (leaf = "memory") then parse_u32 numa
  else None.

(** [Vec::dedup]: drop consecutive repetitions. *)
Fixpoint dedup (l : list N) : list N :=
  match l with
  | x :: (y :: _) as l' => if x =? y then dedup l' else x :: dedup l'
  | _ => l
  end.

Record limit_sums := mkSums {
  sum_cpu : u64; sum_memory : u64; sum_cpus : list N; sum_mems : list N;
}.

(** One claim; the sums are unchecked [u64] additions. *)
Definition add_claim_limits (s : NodeService) (machine : NodeId) (acc : limit_sums) (claim : Claim) :
    limit_sums :=
  let g := c_graph (ns_cluster s) in
  let node := claim_node claim in
  let push (number : option N) l := match number with Some n => l ++ [n] | None => l end in
  if negb (bool_decide (machine_of g node = Some machine)) then acc
  else match graph_node g node with
  | Some n =>
      if bool_decide (node_kind n = Class.Cpu) then
        mkSums (wrap_add (sum_cpu acc) (quantity_get (claim_quantity claim) Dim.Count))
          (sum_memory acc) (push (host_leaf_number s node "cpu/") (sum_cpus acc)) (sum_mems acc)
      else if bool_decide (node_kind n = Class.Memory) then
        mkSums (sum_cpu acc)
          (wrap_add (sum_memory acc) (quantity_get (claim_quantity claim) Dim.Bytes))
          (sum_cpus acc) (push (host_leaf_number s node "memory") (sum_mems acc))
      else acc
  | None => acc
  end.

(** [NodeService::lease_limits_on_machine] *)
Definition lease_limits_on_machine (s : NodeService) (lease : LeaseId) (machine : NodeId) :
    result Error LeaseLimits :=
  l ← ok_or (c_leases (ns_cluster s) !! lease) (UnknownLease lease);
  let acc := foldl (add_claim_limits s machine) (mkSums 0 0 [] []) (lease_claims l) in
  let numbers l := mkCpuList (dedup (sort_by N.leb l)) in
  Ok (mkLimits (sum_cpu acc) (sum_memory acc)
        (mkPlacement (numbers (sum_cpus acc)) (numbers (sum_mems acc)))).

(** ** Snapshots and replay *)

(** [NodeService::restore_state]: observations of agent sessions are dropped. *)
Definition restore_state (state : ServiceState) (s : NodeService) : NodeService :=
  set_state state (set_held_effects ∅ (set_execution_stopped ∅ (set_execution_started ∅
    (set_provider_activations ∅ s)))).

(** [NodeService::restore] *)
Definition restore (cluster : Cluster) (state : ServiceState) (s : NodeService) : NodeService :=
  restore_state state
    (set_pending [] (set_cluster (cluster_migrate_legacy_observations cluster) s)).

(** The id high-water marks a replayed command raises. *)
Definition raise_ids (command : Command) (st : ServiceState) : ServiceState :=
  match command with
  | SetAgentSession _ session =>
      set_next_session (N.max (ss_next_session st) (wrap_add session 1)) st
  | OpenBinding binding _ _ _ _ =>
      set_next_binding (N.max (ss_next_binding st) (wrap_add binding 1)) st
  | ReserveLease lease _ _ _ _ | PromoteLease lease _ | OpenLease lease _ _ _ _ _ _ =>
      set_next_request_id (N.max (ss_next_request_id st) (wrap_add lease 1))
        (set_next_lease (N.max (ss_next_lease st) (wrap_add lease 1)) st)
  | _ => st
  end.

Fixpoint replay_commands (commands : list Command) : SM unit :=
  match commands with
  | [] => mret ()
  | command :: commands =>
      _ ← smodify (over_state (raise_ids command));
      _ ← commit command;
      replay_commands commands
  end.

(** [NodeService::replay] *)
Definition service_replay (commands : list Command) : SM unit := λ s,
  let replaying b s := set_cluster (set_replaying b (ns_cluster s)) s in
  let '(s, r) := replay_commands commands (replaying true s) in
  let s := replaying false s in
  match r with
  | Ok _ => (set_pending [] s, Ok ())
  | Err e => (s, Err e)
  end.

(** [NodeService::clear_history] *)
Definition clear_history (s : NodeService) : NodeService :=
  set_cluster (set_log [] (ns_cluster s)) (set_history [] s).

(** [NodeService::live_lease_count] *)
Definition live_lease_count (s : NodeService) : nat :=
  length (List.filter (λ l, occupies (ns_cluster s) (lease_id l)) (bt_values (c_leases (ns_cluster s)))).
