(* ===== verification/Routing.v ===== *)
(** Effects on their way to agents: src/crates/node/src/service.rs, dispatch,
    routing, the activation barrier and the stop-before-release hold. *)

From S2P Require Import Prelude Identifier Text Types Workload Endpoint Protocol Provider Graph.
From S2P Require Import Inventory Discover Occupancy Command Cluster ServiceState Service.

(** ** Dispatch *)

Definition enqueue_job (tag : Tag) (request : AgentRequest) (h : AgentHandle) : AgentHandle :=
  mkHandle (ah_alive h) (ah_jobs h ++ [(tag, request)]).

(** [NodeService::dispatch]: without a live worker the call is dropped. *)
Definition service_dispatch (machine : NodeId) (tag : Tag) (request : AgentRequest) (s : NodeService) :
    NodeService :=
  let s := set_inflight ({[tag]} ∪ ns_inflight s) s in
  match ns_agents s !! machine with
  | Some h =>
      if ah_alive h then set_agents (<[machine := enqueue_job tag request h]> (ns_agents s)) s
      else set_inflight (ns_inflight s ∖ {[tag]}) s
  | None => set_inflight (ns_inflight s ∖ {[tag]}) s
  end.

(** ** Status queries *)

(** [request_status_on_machine] *)
Definition request_status_on_machine (lease : LeaseId) (machine : NodeId) (s : NodeService) :
    NodeService :=
  match session_of s machine with
  | None => s
  | Some session =>
      let tag := TStatus lease machine session in
      if decide (tag ∈ ns_inflight s) then s else service_dispatch machine tag (Status lease) s
  end.

Definition request_status (lease : LeaseId) (s : NodeService) : NodeService :=
  foldl (λ s machine, request_status_on_machine lease machine s) s (lease_machines s lease).

(** ** Member executions *)

(** The kernel says active, and the agent acknowledged this generation. *)
Definition binding_acknowledged (s : NodeService) (binding : BindingId) : bool :=
  match c_bindings (ns_cluster s) !! binding with
  | Some b =>
      bool_decide (binding_state b = BActive)
      && bool_decide ((binding, binding_session b, binding_fence b) ∈ ns_provider_activations s)
  | None => false
  end.

(** [all_provider_active] *)
Definition all_provider_active (s : NodeService) (lease : LeaseId) : bool :=
  let bindings := bindings_for (ns_cluster s) lease in
  negb (bool_decide (bindings = [])) && forallb (binding_acknowledged s) bindings.

Section codec.
Context `{!PathCodec}.

(** One machine of the loop of [maybe_start_executions]. *)
Definition start_on_machine (lease : LeaseId) (execution : ExecutionSpec) (machine : NodeId) :
    SM unit := λ s,
  if decide (is_Some (ns_recovering s !! machine)) then (s, Ok ())
  else match session_of s machine with
  | None => (s, Ok ())
  | Some session =>
      let tag := TExecutionStart lease machine session in
      if decide ((lease, machine, session) ∈ ns_execution_started s) then (s, Ok ())
      else if decide (tag ∈ ns_inflight s) then (s, Ok ())
      else match lease_limits_on_machine s lease machine with
      | Err e => (s, Err e)
      | Ok limits =>
          (service_dispatch machine tag
             (StartExecution lease session (c_epoch (ns_cluster s)) (ex_command execution) limits
                (default "" (ex_image execution)) (ex_storage execution) (ex_ports execution)
                (ex_grace_secs execution) (lease_devices_on_machine s lease machine)) s, Ok ())
      end
  end.

(** [NodeService::maybe_start_executions] *)
Definition maybe_start_executions (lease : LeaseId) : SM unit := λ s,
  if negb (lease_is_active s lease) then (s, Ok ())
  else match ss_requests (ns_state s) !! lease with
  | None => (s, Ok ())
  | Some (workload, _) =>
      if negb (has_program (w_execution workload)) then (s, Ok ())
      else if negb (all_provider_active s lease) then (s, Ok ())
      else sfor (start_on_machine lease (w_execution workload)) (lease_machines s lease) s
  end.
End codec.

(** One machine of the loop of [maybe_stop_executions]. *)
Definition stop_on_machine (lease : LeaseId) (s : NodeService) (machine : NodeId) : NodeService :=
  match session_of s machine with
  | None => s
  | Some session =>
      let tag := TExecutionStop lease machine session in
      if decide ((lease, machine, session) ∈ ns_execution_stopped s) then s
      else if decide (tag ∈ ns_inflight s) then s
      else service_dispatch machine tag (StopExecution lease session (c_epoch (ns_cluster s))) s
  end.

(** [NodeService::maybe_stop_executions]; no branch of it fails. *)
Definition maybe_stop_executions (lease : LeaseId) (s : NodeService) : NodeService :=
  if lease_is_terminal s lease && lease_has_program s lease
  then foldl (stop_on_machine lease) s (lease_machines s lease)
  else s.

(** [NodeService::maybe_activate] *)
Definition maybe_activate (lease : LeaseId) (s : NodeService) : NodeService :=
  match c_leases (ns_cluster s) !! lease with
  | None => s
  | Some l =>
      if negb (bool_decide (lease_state l = LPreparing)) then s
      else
        let bindings := bindings_for (ns_cluster s) lease in
        let prepared binding :=
          match c_bindings (ns_cluster s) !! binding with
          | Some b => bool_decide (is_Some (binding_handle b))
          | None => false
          end in
        if negb (bool_decide (bindings = [])) && forallb prepared bindings
        then foldl (λ s binding, commit_lenient (ActivateBinding binding) s)
               (commit_lenient (ActivateLease lease) s) bindings
        else s
  end.

(** ** Recovery of a returning machine *)

Definition over_recovery (machine : NodeId) (f : MachineRecovery → MachineRecovery) (s : NodeService) :
    NodeService :=
  set_recovering (alter f machine (ns_recovering s)) s.

(** [members.entry(lease).or_insert(None)] *)
Definition expect_member (lease : LeaseId) (r : MachineRecovery) : MachineRecovery :=
  set_members (<[lease := default None (rec_members r !! lease)]> (rec_members r)) r.

(** The leases of a machine's bindings by their state. *)
Record recovery_sets := mkSets { rs_active : gset N; rs_preparing : gset N; rs_terminal : gset N }.

Definition classify_binding (machine : NodeId) (acc : NodeService * recovery_sets) (binding : BindingId) :
    NodeService * recovery_sets :=
  let '(s, sets) := acc in
  match c_bindings (ns_cluster s) !! binding with
  | None => acc
  | Some b =>
      let lease := binding_lease b in
      match c_leases (ns_cluster s) !! lease with
      | None => acc
      | Some l =>
          match lease_state l with
          | LActive => (s, mkSets ({[lease]} ∪ rs_active sets) (rs_preparing sets) (rs_terminal sets))
          | LPreparing => (s, mkSets (rs_active sets) ({[lease]} ∪ rs_preparing sets) (rs_terminal sets))
          | _ =>
              if decide (lease ∈ rs_terminal sets) then acc
              else (over_recovery machine (expect_member lease) s,
                    mkSets (rs_active sets) (rs_preparing sets) ({[lease]} ∪ rs_terminal sets))
          end
      end
  end.

(** [NodeService::route_recovery] *)
Definition route_recovery (machine : NodeId) (bindings : list BindingId) (s : NodeService) :
    NodeService * list Command :=
  let '(s, sets) := foldl (classify_binding machine) (s, mkSets ∅ ∅ ∅) bindings in
  let preparing := bs_iter (rs_preparing sets) in
  let s := set_recovery_events
             (ns_recovery_events s ++ ((λ lease, PreparingLeaseFailed lease machine) <$> preparing)) s in
  let s := foldl (λ s lease,
             request_status_on_machine lease machine
               (over_recovery machine (expect_member lease) s)) s (bs_iter (rs_active sets)) in
  let s := foldl (λ s lease, request_status_on_machine lease machine s) s (bs_iter (rs_terminal sets)) in
  (s, (λ lease, FailLease lease "restart left preparation unproven") <$> preparing).

(** ** Routing *)

Definition effect_phase (e : Effect) : option (BindingId * u64 * EffectPhase) :=
  match e with
  | EffPrepare b _ _ _ _ epoch => Some (b, epoch, PhPrepare)
  | EffActivate b _ _ _ _ epoch => Some (b, epoch, PhActivate)
  | EffRelease b _ _ _ _ epoch => Some (b, epoch, PhRelease)
  | EffFence b _ _ _ _ epoch => Some (b, epoch, PhFence)
  | EffReconcile _ _ _ _ => None
  end.

(** The commands that re-drive a machine's active bindings. *)
Definition redrive (s : NodeService) (session : u64) (binding : BindingId) : list Command :=
  match binding_lease_of s binding with
  | Some lease =>
      if lease_is_active s lease
      then [RebindSession binding session; ActivateBinding binding] else []
  | None => []
  end.

(** The request of an effect: the record's coordinates, the given generation. *)
Definition binding_request (phase : EffectPhase) (binding : BindingId) (b : Binding)
    (session fence epoch : u64) : AgentRequest :=
  let make := match phase with
              | PhPrepare => Prepare | PhActivate => Activate
              | PhRelease => Release | PhFence => Fence end in
  make binding (binding_lease b) (binding_node b) (binding_provider b) (binding_scope b)
    session fence epoch.

(** A release or fence waits while the member may still run. *)
Definition must_hold (s : NodeService) (lease : LeaseId) (machine : NodeId) : bool :=
  lease_is_terminal s lease && lease_has_program s lease
  && bool_decide (is_Some (session_of s machine))
  && negb (member_stop_proven s lease machine).

(** The part of [route] after the rebind, on the refreshed generation. *)
Definition route_binding (binding : BindingId) (b : Binding) (phase : EffectPhase)
    (epoch session fence : u64) : SM unit := λ s,
  match machine_of (c_graph (ns_cluster s)) (binding_node b) with
  | None => (s, Err (Refused ("binding " +:+ show_binding binding
                              +:+ " node has no machine ancestor")))
  | Some machine =>
      if must_hold s (binding_lease b) machine then
        let s := maybe_stop_executions (binding_lease b) s in
        (set_held_effects ({[(binding, phase)]} ∪ ns_held_effects s) s, Ok ())
      else
        (service_dispatch machine (TBinding binding session fence phase)
           (binding_request phase binding b session fence epoch) s, Ok ())
  end.

(** A binding of an earlier session is rebound first. *)
Definition rebind_if_stale (binding : BindingId) (b : Binding) : SM unit := λ s,
  match machine ← machine_of (c_graph (ns_cluster s)) (binding_node b); session_of s machine with
  | Some current =>
      if negb (current =? binding_session b) then commit (RebindSession binding current) s
      else (s, Ok ())
  | None => (s, Ok ())
  end.

(** [NodeService::route]: the commands to commit next. *)
Definition route (e : Effect) : SM (list Command) := λ s,
  match e with
  | EffReconcile machine session _ bindings =>
      if decide (is_Some (ns_recovering s !! machine)) then
        let '(s, commands) := route_recovery machine bindings s in (s, Ok commands)
      else (s, Ok (bindings ≫= redrive s session))
  | _ =>
      match effect_phase e with
      | None => (s, Ok [])
      | Some (binding, epoch, phase) =>
          match c_bindings (ns_cluster s) !! binding with
          | None => (s, Err (UnknownBinding binding))
          | Some b =>
              (_ ← rebind_if_stale binding b;
               s ← sget;
               refreshed ← slift (ok_or (c_bindings (ns_cluster s) !! binding) (UnknownBinding binding));
               _ ← route_binding binding b phase epoch (binding_session refreshed) (binding_fence refreshed);
               mret []) s
          end
      end
  end.

(** One turn of [pump]: the first pending effect and its commands. *)
Definition pump_one (e : Effect) : SM unit :=
  commands ← route e;
  sfor commit commands.

(** [NodeService::pump].  Commands of a reconcile add effects, so the loop is
    not structural: [pump_fuel] turns are enough. *)
Fixpoint pump_loop (fuel : nat) : SM unit := λ s,
  match fuel, ns_pending s with
  | _, [] => (s, Ok ())
  | O, _ => (s, Err (Refused "pump: out of fuel"))
  | S fuel, e :: rest => (_ ← pump_one e; pump_loop fuel) (set_pending rest s)
  end.

Definition effect_weight (bindings : nat) (e : Effect) : nat :=
  match e with EffReconcile _ _ _ bs => S (length bs * S bindings)%nat | _ => 1 end.

Definition pump_fuel (s : NodeService) : nat :=
  sum_list_with (effect_weight (size (c_bindings (ns_cluster s)))) (ns_pending s).

Definition pump : SM unit := λ s, pump_loop (pump_fuel s) s.

(** The effect a held entry is re-routed as. *)
Definition held_effect (s : NodeService) (binding : BindingId) (b : Binding) (phase : EffectPhase) :
    option Effect :=
  let epoch := c_epoch (ns_cluster s) in
  match phase with
  | PhRelease => Some (EffRelease binding (binding_node b) (binding_provider b)
                         (binding_fence b) (binding_session b) epoch)
  | PhFence => Some (EffFence binding (binding_node b) (binding_provider b)
                       (binding_fence b) (binding_session b) epoch)
  | PhPrepare | PhActivate => None (* unreachable!: a panic *)
  end.

(** One turn of [drive_held_effects]; the panic of [unreachable!] is an error. *)
Definition drive_held (entry : BindingId * EffectPhase) : SM unit := λ s,
  let '(binding, phase) := entry in
  match c_bindings (ns_cluster s) !! binding with
  | None => (s, Ok ())
  | Some b =>
      match machine_of (c_graph (ns_cluster s)) (binding_node b) with
      | None => (s, Ok ())
      | Some machine =>
          if member_stop_proven s (binding_lease b) machine then
            match held_effect s binding b phase with
            | Some e => pump_one e s
            | None => (s, Err (Refused "panic: prepare and activate are never held"))
            end
          else (set_held_effects ({[entry]} ∪ ns_held_effects s) s, Ok ())
      end
  end.

(** [NodeService::drive_held_effects] *)
Definition drive_held_effects : SM unit := λ s,
  sfor drive_held (bs_iter (ns_held_effects s)) (set_held_effects ∅ s).
