(* ===== verification/Absorb.v ===== *)
(** Answers of agents: src/crates/node/src/service.rs, completions, recovery of
    a returning machine and the absorption of the inbox. *)

From S2P Require Import Prelude Identifier Text Types Workload Endpoint Protocol Provider Graph.
From S2P Require Import Inventory Discover Occupancy Command Cluster ServiceState Service Routing.

(** ** Completion of a lease *)

Definition member_exit (s : NodeService) (lease : LeaseId) (machine : NodeId) : option Z :=
  ns_member_status s !! (lease, machine) ≫= ms_exit_code.

(** [NodeService::resolve_observed_completion]; the leases finished. *)
Definition resolve_observed_completion (lease : LeaseId) (finished : list LeaseId) (s : NodeService) :
    NodeService * list LeaseId :=
  if negb (lease_is_active s lease) then (s, finished)
  else
    let machines := lease_machines s lease in
    if bool_decide (machines = []) then (s, finished)
    else
      let failure machine := code ← member_exit s lease machine;
                             if (code =? 0)%Z then None else Some code in
      match find_map failure machines with
      | Some exit_code => (commit_lenient (CompleteLease lease exit_code) s, finished ++ [lease])
      | None =>
          if forallb (λ machine, bool_decide (member_exit s lease machine = Some 0%Z)) machines
          then (commit_lenient (CompleteLease lease 0) s, finished ++ [lease])
          else (s, finished)
      end.

(** ** Recovered members *)

(** [NodeService::rebind_lease_machine] *)
Definition rebind_lease_machine (lease : LeaseId) (machine : NodeId) : SM unit := λ s,
  match session_of s machine with
  | None => (s, Ok ())
  | Some session =>
      let stale binding :=
        match c_bindings (ns_cluster s) !! binding with
        | Some b => negb (binding_session b =? session)
                    && bool_decide (machine_of (c_graph (ns_cluster s)) (binding_node b) = Some machine)
        | None => false
        end in
      sfor (λ binding, commit (RebindSession binding session))
        (List.filter stale (bindings_for (ns_cluster s) lease)) s
  end.

(** The activation proofs moved to the current session. *)
Definition adopt_activations (lease : LeaseId) (machine : NodeId) (s : NodeService) : NodeService :=
  foldl (λ s binding,
    match c_bindings (ns_cluster s) !! binding with
    | Some b =>
        if bool_decide (binding_state b = BActive)
           && bool_decide (machine_of (c_graph (ns_cluster s)) (binding_node b) = Some machine)
        then set_provider_activations
               ({[(binding, binding_session b, binding_fence b)]} ∪ ns_provider_activations s) s
        else s
    | None => s
    end) s (bindings_for (ns_cluster s) lease).

Definition add_event (e : RecoveryEvent) (s : NodeService) : NodeService :=
  set_recovery_events (ns_recovery_events s ++ [e]) s.
Definition note_started (key : N * N * N) (s : NodeService) : NodeService :=
  set_execution_started ({[key]} ∪ ns_execution_started s) s.
Definition note_stopped (key : N * N * N) (s : NodeService) : NodeService :=
  set_execution_stopped ({[key]} ∪ ns_execution_stopped s) s.

(** The terminal branch of [resolve_recovered_member]; its errors are logged. *)
Definition resolve_terminal_member (lease : LeaseId) (machine : NodeId) (status : MemberStatus)
    (s : NodeService) : NodeService :=
  let s :=
    match session_of s machine with
    | Some session =>
        if negb (ms_running status) && bool_decide (is_Some (ms_exit_code status))
        then note_stopped (lease, machine, session) s else s
    | None => s
    end in
  let s := maybe_stop_executions lease s in
  let s := (drive_held_effects s).1 in
  add_event (TerminalMemberResolved lease machine) s.

(** Adoption of a proven member after its bindings were rebound. *)
Definition adopt_member (lease : LeaseId) (machine : NodeId) (status : MemberStatus)
    (finished : list LeaseId) (s : NodeService) : NodeService * list LeaseId :=
  let s := adopt_activations lease machine s in
  let s :=
    match session_of s machine with
    | Some session =>
        let s := note_started (lease, machine, session) s in
        if ms_running status then s else note_stopped (lease, machine, session) s
    | None => s
    end in
  let '(s, finished) := resolve_observed_completion lease finished s in
  (add_event (MemberRecovered lease machine (ms_running status) (ms_exit_code status)) s, finished).

(** [NodeService::resolve_recovered_member] *)
Definition resolve_recovered_member (lease : LeaseId) (machine : NodeId) (status : MemberStatus)
    (finished : list LeaseId) (s : NodeService) : NodeService * list LeaseId :=
  let s := set_member_status (<[(lease, machine) := status]> (ns_member_status s)) s in
  if lease_is_terminal s lease then (resolve_terminal_member lease machine status s, finished)
  else if ms_running status || bool_decide (is_Some (ms_exit_code status)) then
    match rebind_lease_machine lease machine s with
    | (s, Err _) =>
        (commit_lenient (RevokeLease lease) (add_event (MemberRevokedRebindFailed lease machine) s),
         finished ++ [lease])
    | (s, Ok _) => adopt_member lease machine status finished s
    end
  else
    (commit_lenient (RevokeLease lease) (add_event (MemberRevokedUnprovable lease machine) s),
     finished ++ [lease]).

(** [NodeService::finish_machine_recovery]; refused marks are logged. *)
Definition finish_machine_recovery (machine : NodeId) (s : NodeService) : NodeService :=
  let s := set_recovering (delete machine (ns_recovering s)) s in
  commit_lenient (SetNodeHealth machine "healthy") (commit_lenient (UnquarantineNode machine) s).

(** A member whose evidence suffices: an adoption needs every open binding of
    the lease on this machine proved, and no stray close outstanding. *)
Definition member_ready (s : NodeService) (machine : NodeId) (r : MachineRecovery)
    (entry : LeaseId * option MemberStatus) : option (LeaseId * MemberStatus) :=
  let '(lease, status) := entry in
  status ← status;
  let needs_adoption :=
    lease_is_active s lease && (ms_running status || bool_decide (is_Some (ms_exit_code status))) in
  let here b := negb (is_closed (binding_state b))
                && bool_decide (machine_of (c_graph (ns_cluster s)) (binding_node b) = Some machine) in
  let proven :=
    endpoints_settled r
    && forallb (proves (rec_endpoints r))
         (List.filter here
            (omap (λ id, c_bindings (ns_cluster s) !! id) (bindings_for (ns_cluster s) lease))) in
  if negb needs_adoption || proven then Some (lease, status) else None.

(** [NodeService::resolve_machine_recovery] *)
Definition resolve_machine_recovery (machine : NodeId) (finished : list LeaseId) (s : NodeService) :
    NodeService * list LeaseId :=
  match ns_recovering s !! machine with
  | None => (s, finished)
  | Some r =>
      let ready := omap (member_ready s machine r) (bt_iter (rec_members r)) in
      let '(s, finished) :=
        foldl (λ '(s, finished) '(lease, status),
          resolve_recovered_member lease machine status finished
            (over_recovery machine (λ r, set_members (delete lease (rec_members r)) r) s))
          (s, finished) ready in
      (match ns_recovering s !! machine with
       | Some r => if recovery_complete r then finish_machine_recovery machine s else s
       | None => s
       end, finished)
  end.

(** ** Enumerations *)

(** An endpoint elsewhere, open without a binding, or contradicting the record
    of its binding. *)
Definition inconsistent_endpoint (s : NodeService) (machine : NodeId) (en : EnumeratedEndpoint) : bool :=
  negb (bool_decide (machine_of (c_graph (ns_cluster s)) (en_node en) = Some machine))
  || (en_open en && bool_decide (en_binding en = None))
  || match en_binding en ≫= (λ id, c_bindings (ns_cluster s) !! id) with
     | Some b => negb (same_generation en b)
     | None => false
     end.

Inductive endpoint_action :=
| ALeave
| AFence (binding : BindingId)
| ARecordClosed (binding : BindingId) (fence : u64)
| AStray (binding : BindingId).

Definition lease_authoritative (s : NodeService) (lease : LeaseId) : bool :=
  match c_leases (ns_cluster s) !! lease with
  | Some l => bool_decide (lease_state l ∈ [LActive; LPreparing])
  | None => false
  end.

(** The decision for one reported endpoint. *)
Definition endpoint_decision (s : NodeService) (machine : NodeId) (en : EnumeratedEndpoint) :
    endpoint_action :=
  match en_binding en with
  | None => ALeave
  | Some binding =>
      match c_bindings (ns_cluster s) !! binding with
      | Some b =>
          if negb (is_closed (binding_state b)) then
            if lease_authoritative s (binding_lease b) then ALeave
            else
              let needs_stop := lease_has_program s (binding_lease b)
                                && negb (member_stop_proven s (binding_lease b) machine) in
              if en_open en || needs_stop then AFence binding
              else ARecordClosed binding (en_accepted_fence en)
          else if en_open en then AStray binding else ALeave
      | None => if en_open en then AStray binding else ALeave
      end
  end.

(** The close of one stray generation. *)
Definition close_stray (machine : NodeId) (session : u64) (s : NodeService)
    (entry : BindingId * EnumeratedEndpoint) : NodeService :=
  let '(binding, en) := entry in
  let s := add_event (StrayFenced machine (en_node en) binding) s in
  let s := commit_lenient (AdvanceEndpointFence (en_node en) (en_provider en) (en_accepted_fence en)) s in
  let tag := TStrayFence machine session (en_node en) (en_provider en) (en_scope en) binding
               (en_accepted_fence en) in
  let request := Fence binding 0 (en_node en) (en_provider en) (en_scope en) session
                   (en_accepted_fence en) (c_epoch (ns_cluster s)) in
  match ns_recovering s !! machine with
  | Some r =>
      if decide (tag ∈ rec_stray_fences r) then s
      else service_dispatch machine tag request
             (over_recovery machine (set_stray_fences ({[tag]} ∪ rec_stray_fences r)) s)
  | None => s
  end.

(** [NodeService::absorb_enumeration]: whether the report is usable. *)
Definition absorb_enumeration (machine : NodeId) (endpoints : list EnumeratedEndpoint) (s : NodeService) :
    NodeService * bool :=
  match session_of s machine with
  | None => (s, false)
  | Some session =>
      if existsb (inconsistent_endpoint s machine) endpoints then (s, false)
      else
        let decided := (λ en, (endpoint_decision s machine en, en)) <$> endpoints in
        let fences := omap (λ '(a, en), match a with AFence b => Some (b, en) | _ => None end) decided in
        let closed := omap (λ '(a, _), match a with ARecordClosed b f => Some (b, f) | _ => None end) decided in
        let strays := omap (λ '(a, en), match a with AStray b => Some (b, en) | _ => None end) decided in
        let s := foldl (λ s '(b, en), add_event (StrayFenced machine (en_node en) b) s) s fences in
        let s := foldl (λ s '(b, _), commit_lenient (FenceBinding b) s) s fences in
        let s := foldl (λ s '(b, f), commit_lenient (RecordBindingFenced b session f) s) s closed in
        (foldl (close_stray machine session) s strays, true)
  end.

(** ** The inbox *)

Section codec.
Context `{!PathCodec}.

(** Answers to binding requests. *)
Definition absorb_binding (binding : BindingId) (session fence : u64) (reply : AgentReply) : SM unit := λ s,
  match reply with
  | Ok (RPrepared _ handle) =>
      let lease := binding_lease_of s binding in
      let s := commit_lenient (RecordBindingPrepared binding session handle fence) s in
      (match lease with Some lease => maybe_activate lease s | None => s end, Ok ())
  | Ok (RActivated _) =>
      let lease := binding_lease_of s binding in
      let '(s, accepted) := try_commit_lenient (RecordBindingActive binding session fence) s in
      if accepted then
        let s := set_provider_activations
                   ({[(binding, session, fence)]} ∪ ns_provider_activations s) s in
        match lease with Some lease => maybe_start_executions lease s | None => (s, Ok ()) end
      else (s, Ok ())
  | Ok (RReleased _) => (commit_lenient (RecordBindingReleased binding session fence) s, Ok ())
  | Ok (RFenced _) => (commit_lenient (RecordBindingFenced binding session fence) s, Ok ())
  | Ok (RFailed _ reason) => (commit_lenient (RecordBindingFailed binding session reason fence) s, Ok ())
  | Ok _ | Err _ => (s, Ok ())
  end.

(** Answers to a start; [reason] stands for the formatted explanation. *)
Definition absorb_start (lease : LeaseId) (machine : NodeId) (session : u64) (reply : AgentReply)
    (s : NodeService) : NodeService :=
  if negb (bool_decide (session_of s machine = Some session) && lease_is_active s lease) then s
  else
    let where_ := "on machine " +:+ show_node machine in
    let failed reason := commit_lenient (FailLease lease reason) s in
    match reply with
    | Ok (ExecutionStarted got) =>
        if got =? lease then note_started (lease, machine, session) s
        else failed ("execution start " +:+ where_ +:+ " returned unexpected response")
    | Ok (ExecutionFailed got reason) =>
        if got =? lease then failed ("execution start failed " +:+ where_ +:+ ": " +:+ reason)
        else failed ("execution start " +:+ where_ +:+ " returned unexpected response")
    | Ok _ => failed ("execution start " +:+ where_ +:+ " returned unexpected response")
    | Err reason => failed ("execution start " +:+ where_ +:+ " became unprovable: " +:+ reason)
    end.

(** Answers to a stop. *)
Definition absorb_stop (lease : LeaseId) (machine : NodeId) (session : u64) (reply : AgentReply) :
    SM unit := λ s,
  if negb (bool_decide (session_of s machine = Some session)) then (s, Ok ())
  else match reply with
  | Ok (ExecutionStopped got) =>
      if got =? lease then drive_held_effects (note_stopped (lease, machine, session) s) else (s, Ok ())
  | _ => (s, Ok ())
  end.

(** Answers to a status query. *)
Definition absorb_status (lease : LeaseId) (machine : NodeId) (reply : AgentReply)
    (finished : list LeaseId) (s : NodeService) : NodeService * list LeaseId :=
  let status :=
    match reply with
    | Ok (Running got running exit_code) =>
        if got =? lease then Some (mkMemberStatus running exit_code) else None
    | _ => None
    end in
  match r ← ns_recovering s !! machine; rec_members r !! lease with
  | Some _ =>
      let status := default (mkMemberStatus false None) status in
      resolve_machine_recovery machine finished
        (over_recovery machine (λ r, set_members (<[lease := Some status]> (rec_members r)) r) s)
  | None =>
      match status with
      | Some status =>
          resolve_observed_completion lease finished
            (set_member_status (<[(lease, machine) := status]> (ns_member_status s)) s)
      | None => (s, finished)
      end
  end.

(** Answers of a session that was replaced are dropped. *)
Definition stale_answer (s : NodeService) (tag : Tag) : bool :=
  match tag with
  | TStatus _ machine session | TEnumerate machine session
  | TStrayFence machine session _ _ _ _ _ => negb (bool_decide (session_of s machine = Some session))
  | _ => false
  end.

(** One answer; the leases finished so far are threaded. *)
Definition absorb_one (finished : list LeaseId) (answer : Tag * AgentReply) : SM (list LeaseId) := λ s,
  let '(tag, reply) := answer in
  let s := set_inflight (ns_inflight s ∖ {[tag]}) s in
  if stale_answer s tag then (s, Ok finished)
  else match tag with
  | TBinding binding session fence _ =>
      let '(s, r) := absorb_binding binding session fence reply s in
      (s, match r with Ok _ => Ok finished | Err e => Err e end)
  | TExecutionStart lease machine session => (absorb_start lease machine session reply s, Ok finished)
  | TExecutionStop lease machine session =>
      let '(s, r) := absorb_stop lease machine session reply s in
      (s, match r with Ok _ => Ok finished | Err e => Err e end)
  | TStatus lease machine _ =>
      let '(s, finished) := absorb_status lease machine reply finished s in (s, Ok finished)
  | TProbe machine =>
      (if is_ok reply then s else set_unreachable (ns_unreachable s ++ [machine]) s, Ok finished)
  | TEnumerate machine _ =>
      match reply with
      | Ok (BindingsEnumerated endpoints) =>
          let '(s, usable) := absorb_enumeration machine endpoints s in
          let s := if usable then over_recovery machine (set_rec_endpoints (Some endpoints)) s else s in
          let '(s, finished) := resolve_machine_recovery machine finished s in (s, Ok finished)
      | _ => (s, Ok finished)
      end
  | TStrayFence machine _ _ _ _ binding _ =>
      match reply with
      | Ok (RFenced got) =>
          if got =? binding then
            let s := over_recovery machine
                       (λ r, set_stray_fences (rec_stray_fences r ∖ {[tag]}) r) s in
            let '(s, finished) := resolve_machine_recovery machine finished s in (s, Ok finished)
          else (s, Ok finished)
      | _ => (s, Ok finished)
      end
  end.

Fixpoint absorb_all (finished : list LeaseId) (answers : list (Tag * AgentReply)) : SM (list LeaseId) :=
  match answers with
  | [] => mret finished
  | answer :: answers => finished ← absorb_one finished answer; absorb_all finished answers
  end.

(** [NodeService::absorb]: the leases completed this pass. *)
Definition absorb : SM (list LeaseId) := λ s,
  (finished ← absorb_all [] (ns_inbox s);
   _ ← (if bool_decide (finished = []) then mret () else pump);
   mret finished) (set_inbox [] s).

(** One round of [drive], without the wait. *)
Definition drive_round : SM unit :=
  _ ← absorb;
  pump.

(** [NodeService::is_quiescent] *)
Definition is_quiescent (s : NodeService) : bool :=
  bool_decide (ns_pending s = []) && bool_decide (ns_inflight s = ∅).

(** [NodeService::collect_completions] *)
Definition collect_completions : SM (list LeaseId) :=
  finished ← absorb;
  s ← sget;
  _ ← smodify (λ s0, foldl (λ s lease, request_status lease s) s0 (executing_leases s));
  _ ← pump;
  mret finished.
End codec.

(** ** Workers *)

(** [Inbox::post]: a worker keeps answering the jobs it holds after its handle
    was replaced, so an answer may arrive at any time. *)
Definition inbox_post (tag : Tag) (reply : AgentReply) (s : NodeService) : NodeService :=
  set_inbox (ns_inbox s ++ [(tag, reply)]) s.

(** A worker answers its first job; the answer goes to the inbox. *)
Definition deliver (machine : NodeId) (reply : AgentReply) (s : NodeService) : NodeService :=
  match ns_agents s !! machine with
  | Some h =>
      match ah_jobs h with
      | (tag, _) :: jobs =>
          inbox_post tag reply
            (set_agents (<[machine := mkHandle (ah_alive h) jobs]> (ns_agents s)) s)
      | [] => s
      end
  | None => s
  end.
