(* ===== verification/Controller.v ===== *)
(** The controller's entry points: src/crates/node/src/service.rs, admission,
    restarts, service groups, expiry, health and revocation. *)

From S2P Require Import Prelude Identifier Text Types Workload Endpoint Protocol Provider Graph.
From S2P Require Import Inventory Discover Occupancy Command Cluster Select Admit Scheduler.
From S2P Require Import ServiceState Service Routing Absorb.

(** ** Applying commands *)

(** [NodeService::apply] *)
Definition service_apply (command : Command) : SM unit := _ ← commit command; pump.

(** [NodeService::revoke] *)
Definition revoke (lease : LeaseId) : SM unit := service_apply (RevokeLease lease).

Definition is_due (s : NodeService) (l : Lease) : bool :=
  bool_decide (lease_state l ∈ [LPreparing; LActive; LReserved])
  && (lease_expires_at l <=? c_now (ns_cluster s)).

(** [NodeService::expire_due] *)
Definition expire_due : SM (list LeaseId) :=
  s ← sget;
  let due := lease_id <$> List.filter (is_due s) (bt_values (c_leases (ns_cluster s))) in
  _ ← sfor (λ lease, commit (ExpireLease lease)) due;
  _ ← pump;
  mret due.

(** [NodeService::tick] at the given time. *)
Definition tick (now : u64) : SM (list LeaseId) :=
  _ ← smodify (λ s, set_cluster (set_now now (ns_cluster s)) s);
  expire_due.

(** A lease [mark_machine_unhealthy] fails: not [ended], with a claim there. *)
Definition fails_with_machine (s : NodeService) (machine : NodeId) (l : Lease) : bool :=
  negb (ended (lease_state l))
  && existsb (λ claim, bool_decide (machine_of (c_graph (ns_cluster s)) (claim_node claim) = Some machine))
       (lease_claims l).

(** [NodeService::mark_machine_unhealthy] *)
Definition mark_machine_unhealthy (machine : NodeId) : SM unit :=
  _ ← commit (SetNodeHealth machine "unhealthy");
  _ ← commit (QuarantineNode machine);
  s ← sget;
  _ ← sfor (λ lease, commit (FailLease lease "machine unhealthy"))
        (lease_id <$> List.filter (fails_with_machine s machine) (bt_values (c_leases (ns_cluster s))));
  pump.

(** [NodeService::probe_agents] *)
Definition probe_agents (s : NodeService) : NodeService :=
  foldl (λ s machine,
    if decide (TProbe machine ∈ ns_inflight s) then s
    else service_dispatch machine (TProbe machine) (Status 0) s) s (bt_keys (ns_agents s)).

(** [NodeService::take_unreachable] and [take_recovery_events] *)
Definition take_unreachable (s : NodeService) : NodeService * list NodeId :=
  (set_unreachable [] s, ns_unreachable s).
Definition take_recovery_events (s : NodeService) : NodeService * list RecoveryEvent :=
  (set_recovery_events [] s, ns_recovery_events s).

(** ** Admission *)

(** [NodeService::validate_allocation_bindings] *)
Definition validate_allocation_bindings (s : NodeService) (a : Allocation) : result Error unit :=
  let g := c_graph (ns_cluster s) in
  try_for (λ claim,
    node ← ok_or (graph_node g (claim_node claim)) (UnknownNode (claim_node claim));
    binding ← claim_binding_for_quantity g (claim_node claim) (claim_quantity claim);
    guard_err ((cb_provider binding =? ENFORCE)
               && bool_decide (node_kind node ∈ [Class.Cpu; Class.Memory; Class.Gpu; Class.Nic; Class.Nvme]))
      (Refused ("no registered resource provider can enforce claims on "
                +:+ show_node (claim_node claim) +:+ " (" +:+ node_kind node +:+ ")")))
    (alloc_claims a).

(** [NodeService::open_enforced_bindings] *)
Definition open_enforced_binding (lease : LeaseId) (claim : Claim) : SM unit :=
  s ← sget;
  spec ← slift (claim_binding_for_quantity (c_graph (ns_cluster s)) (claim_node claim)
                  (claim_quantity claim));
  let binding := ss_next_binding (ns_state s) in
  _ ← smodify (over_state (set_next_binding (wrap_add binding 1)));
  commit (OpenBinding binding lease (claim_node claim) (cb_provider spec) (cb_scope spec)).

Definition open_enforced_bindings (lease : LeaseId) : SM unit :=
  s ← sget;
  l ← slift (ok_or (c_leases (ns_cluster s) !! lease) (UnknownLease lease));
  sfor (open_enforced_binding lease) (lease_claims l).

(** [queue.iter().position(..)] and [queue.remove(index)]: the entries before,
    the entry, the entries after. *)
Fixpoint take_queued (id : RequestId) (queue : list Queued) :
    option (list Queued * Queued * list Queued) :=
  match queue with
  | [] => None
  | q :: queue =>
      if req_id (q_request q) =? id then Some ([], q, queue)
      else match take_queued id queue with
           | Some (before, entry, after) => Some (q :: before, entry, after)
           | None => None
           end
  end.

(** The state with the request moved from the queue to lease [lease]. *)
Definition admit_payload (admission : Admission) (lease : LeaseId) (queue : list Queued)
    (st : ServiceState) : ServiceState :=
  let request_id := req_id (adm_request admission) in
  let workload := default (resource_only (adm_request admission))
                    (ss_queued_workloads st !! request_id) in
  set_queue queue
    (set_requests (<[lease := (workload, adm_owner admission)]> (ss_requests st))
       (set_queued_workloads (delete request_id (ss_queued_workloads st))
          (set_next_lease (wrap_add lease 1) st))).

(** The rollback when the lease is refused; the lease id stays consumed. *)
Definition undo_admission (request_id : RequestId) (lease : LeaseId) (queue : list Queued)
    (st : ServiceState) : ServiceState :=
  let queued_workloads :=
    match ss_requests st !! lease with
    | Some (workload, _) => <[request_id := workload]> (ss_queued_workloads st)
    | None => ss_queued_workloads st
    end in
  set_queue queue
    (set_queued_workloads queued_workloads (set_requests (delete lease (ss_requests st)) st)).

(** [NodeService::admit_one_with_policy] *)
Definition admit_one_with_policy (policy : AdmissionPolicy) : SM (option RequestId) := λ s,
  let queue := ss_queue (ns_state s) in
  match cluster_admit_backfill_with_policy (ns_cluster s) queue policy (execution_exclusions s) with
  | None => (s, Ok None)
  | Some admission =>
      match validate_allocation_bindings s (adm_allocation admission) with
      | Err e => (s, Err e)
      | Ok _ =>
          let request := adm_request admission in
          let lease := ss_next_lease (ns_state s) in
          let now := c_now (ns_cluster s) in
          match take_queued (req_id request) queue with
          | None => (s, Err (Refused "panic: admission came from queue"))
          | Some (before, entry, after) =>
              let s := over_state (admit_payload admission lease (before ++ after)) s in
              match commit (OpenLease lease (adm_owner admission) (adm_allocation admission) None
                              (sat_add now (req_lifetime request)) (sat_add now 20)
                              (req_priority request)) s with
              | (s, Err e) =>
                  (over_state (undo_admission (req_id request) lease (before ++ entry :: after)) s, Err e)
              | (s, Ok _) =>
                  (_ ← open_enforced_bindings lease;
                   _ ← pump;
                   _ ← smodify (maybe_activate lease);
                   mret (Some (req_id request))) s
              end
          end
      end
  end.

(** [NodeService::admit_one] *)
Definition admit_one : SM (option RequestId) := admit_one_with_policy (ceiling_policy ∅).

(** ** Restarts *)

Definition MAX_RESTARTS : N := 5.
Definition BACKOFF_CAP_SECS : N := 60.

(** [(1u64 << count.min(6)).min(BACKOFF_CAP_SECS)] *)
Definition backoff_delay (count : N) : N := N.min (2 ^ N.min count 6) BACKOFF_CAP_SECS.

Definition restart_root_of (st : ServiceState) (request : RequestId) : RequestId :=
  default request (ss_restart_root st !! request).

Definition with_fresh_id (id : RequestId) (w : WorkloadSpec) : WorkloadSpec :=
  mkWorkload (with_request_id id (w_resources w)) (w_execution w) (w_keep_alive w).

(** One lease of the loop of [take_restarts]; counts are [u32]. *)
Definition restart_step (now : u64) (acc : ServiceState * list (WorkloadSpec * OwnerId))
    (entry : LeaseId * Lease) : ServiceState * list (WorkloadSpec * OwnerId) :=
  let '(st, out) := acc in
  let '(id, lease) := entry in
  if negb (bool_decide (lease_state lease ∈ [LFailed; LExpired]))
     || bool_decide (id ∈ ss_restart_handled st) then acc
  else match ss_requests st !! id with
  | None => acc
  | Some (workload, owner) =>
      if negb (w_keep_alive workload) then acc
      else
        let root := restart_root_of st (req_id (w_resources workload)) in
        let count := default 0 (ss_restart_counts st !! root) in
        let st := set_restart_counts (<[root := count]> (ss_restart_counts st)) st in
        let handled st := set_restart_handled ({[id]} ∪ ss_restart_handled st) st in
        if MAX_RESTARTS <=? count then (handled st, out)
        else if now <? sat_add (default 0 (ss_restart_last_at st !! root)) (backoff_delay count)
        then (st, out)
        else
          let fresh_id := ss_next_request_id st in
          let st := set_restart_counts (<[root := count + 1]> (ss_restart_counts st)) st in
          let st := handled (set_restart_last_at (<[root := now]> (ss_restart_last_at st)) st) in
          let st := set_restart_root (<[fresh_id := root]> (ss_restart_root st))
                      (set_next_request_id (wrap_add fresh_id 1) st) in
          (st, out ++ [(with_fresh_id fresh_id workload, owner)])
  end.

(** [NodeService::take_restarts] *)
Definition take_restarts (s : NodeService) : NodeService * list (WorkloadSpec * OwnerId) :=
  let '(st, out) := foldl (restart_step (c_now (ns_cluster s))) (ns_state s, [])
                      (bt_iter (c_leases (ns_cluster s))) in
  (set_state st s, out).

(** [NodeService::queue_restarts] *)
Definition queue_restarts (s : NodeService) : NodeService * list RequestId :=
  let '(s, restarts) := take_restarts s in
  let s := foldl (λ s '(workload, owner), enqueue workload owner s) s restarts in
  (persist None s, (λ '(workload, _), req_id (w_resources workload)) <$> restarts).

(** ** Service groups *)

(** [register_service_group] *)
Definition register_service_group (group : ServiceGroup) (s : NodeService) :
    NodeService * result string unit :=
  match cardinality_validate (group_cardinality group) with
  | Err e => (s, Err e)
  | Ok _ =>
      (persist None (over_state (λ st,
         set_service_groups (<[group_id group := group]> (ss_service_groups st)) st) s), Ok ())
  end.

(** [scale_service_group] *)
Definition scale_service_group (id : string) (target : N) (s : NodeService) :
    NodeService * result string N :=
  match ss_service_groups (ns_state s) !! id with
  | None => (s, Err ("unknown service group " +:+ id))
  | Some group =>
      match group_cardinality group with
      | Elastic min _ max =>
          if (target <? min) || (max <? target)
          then (s, Err ("target " +:+ pretty target +:+ " outside elastic bounds [" +:+ pretty min
                        +:+ ", " +:+ pretty max +:+ "]"))
          else
            let group := mkGroup (group_id group) (group_owner group) (Elastic min target max)
                           (group_template group) in
            (persist None (over_state (λ st,
               set_service_groups (<[id := group]> (ss_service_groups st)) st) s), Ok target)
      | _ => (s, Err ("service group " +:+ id +:+ " does not use bounded-elastic cardinality"))
      end
  end.

(** [remove_service_group] *)
Definition remove_service_group (group : string) (s : NodeService) : NodeService :=
  persist None (over_state (λ st,
    let members := default ∅ (ss_group_members st !! group) in
    set_service_groups (delete group (ss_service_groups st))
      (set_group_members (delete group (ss_group_members st))
         (set_member_groups (foldl (λ m id, delete id m) (ss_member_groups st) (bs_iter members))
            (set_member_pins (foldl (λ m id, delete id m) (ss_member_pins st) (bs_iter members)) st)))) s).

(** The non-terminal leases whose payload is the request. *)
Definition carries (s : NodeService) (request : RequestId) (l : Lease) : bool :=
  negb (terminal_lease (lease_state l))
  && match ss_requests (ns_state s) !! lease_id l with
     | Some (workload, _) => req_id (w_resources workload) =? request
     | None => false
     end.

(** [NodeService::lease_of_member] *)
Definition lease_of_member (s : NodeService) (request : RequestId) : option LeaseId :=
  lease_id <$> List.find (carries s request) (bt_values (c_leases (ns_cluster s))).

Definition is_queued (s : NodeService) (request : RequestId) : bool :=
  existsb (λ q, req_id (q_request q) =? request) (ss_queue (ns_state s)).

(** [NodeService::member_live] *)
Definition member_live (s : NodeService) (request : RequestId) : bool :=
  is_queued s request
  || (existsb (λ '(workload, _), req_id (w_resources workload) =? request)
        (bt_values (ss_requests (ns_state s)))
      && existsb (carries s request) (bt_values (c_leases (ns_cluster s)))).

(** [NodeService::group_member_leases] *)
Definition group_member_leases (s : NodeService) (group : string) : list LeaseId :=
  match ss_group_members (ns_state s) !! group with
  | None => []
  | Some members =>
      lease_id <$> List.filter (λ l,
        negb (terminal_lease (lease_state l))
        && match ss_requests (ns_state s) !! lease_id l with
           | Some (workload, _) => bool_decide (req_id (w_resources workload) ∈ members)
           | None => false
           end) (bt_values (c_leases (ns_cluster s)))
  end.

(** [NodeService::cancel_member] *)
Definition cancel_member (request : RequestId) (s : NodeService) : NodeService :=
  over_state (λ st,
    let group_members :=
      match ss_member_groups st !! request with
      | Some group => alter (λ members, members ∖ {[request]}) group (ss_group_members st)
      | None => ss_group_members st
      end in
    set_queue (List.filter (λ q, negb (req_id (q_request q) =? request)) (ss_queue st))
      (set_queued_workloads (delete request (ss_queued_workloads st))
         (set_member_pins (delete request (ss_member_pins st))
            (set_member_groups (delete request (ss_member_groups st))
               (set_group_members group_members st))))) s.

(** *** One group's reconciliation *)

Definition current_members (st : ServiceState) (group : string) : gset N :=
  default ∅ (ss_group_members st !! group).

(** Dead members leave the index. *)
Definition prune_members (group : string) (live : list RequestId) (st : ServiceState) : ServiceState :=
  match ss_group_members st !! group with
  | None => st
  | Some _ =>
      set_group_members (<[group := list_to_set live]> (ss_group_members st))
        (set_member_groups (foldl (λ m id, <[id := group]> m) (ss_member_groups st)
                              (bs_iter (list_to_set live : gset N))) st)
  end.

(** Their pins die with them. *)
Definition prune_pins (group : string) (live : list RequestId) (st : ServiceState) : ServiceState :=
  let dead := List.filter (λ id,
    bool_decide (ss_member_groups st !! id = Some group) && negb (bool_decide (id ∈ live)))
    (bt_keys (ss_member_pins st)) in
  set_member_pins (foldl (λ m id, delete id m) (ss_member_pins st) dead) st.

(** [group_restarts.entry(id).and_modify(+1).or_insert(1)], on a [u32] *)
Definition count_restart (group : string) (st : ServiceState) : ServiceState :=
  set_group_restarts
    (<[group := match ss_group_restarts st !! group with
                | Some n => (n + 1) mod 2 ^ 32
                | None => 1
                end]> (ss_group_restarts st)) st.

(** Submit one more member, pinned or not. *)
Definition submit_member (group : ServiceGroup) (pin : option NodeId) (replacement : bool)
    (acc : NodeService * list RequestId) : NodeService * list RequestId :=
  let '(s, submitted) := acc in
  let s := if replacement then over_state (count_restart (group_id group)) s else s in
  let member_id := ss_next_request_id (ns_state s) in
  let s := over_state (λ st,
    let st := set_next_request_id (wrap_add member_id 1) st in
    let st := match pin with
              | Some machine => set_member_pins (<[member_id := machine]> (ss_member_pins st)) st
              | None => st
              end in
    set_group_members
      (<[group_id group := {[member_id]} ∪ current_members st (group_id group)]> (ss_group_members st))
      (set_member_groups (<[member_id := group_id group]> (ss_member_groups st)) st)) s in
  (enqueue (group_member group member_id) (group_owner group) s, submitted ++ [member_id]).

Definition note_round (group : string) (now : u64) (s : NodeService) : NodeService :=
  over_state (λ st, set_group_last_restart (<[group := now]> (ss_group_last_restart st)) st) s.

(** [group_restarts.entry(id).or_insert(0)] *)
Definition touch_restarts (group : string) (s : NodeService) : NodeService :=
  over_state (λ st, set_group_restarts
    (<[group := default 0 (ss_group_restarts st !! group)]> (ss_group_restarts st)) st) s.

(** Whether the backoff since the last replacement round has elapsed. *)
Definition backoff_elapsed (st : ServiceState) (group : string) (count now : N) : bool :=
  sat_add (default 0 (ss_group_last_restart st !! group)) (backoff_delay count) <=? now.

(** [n as u32] of a cap. *)
Definition restart_cap (n : nat) : N := (MAX_RESTARTS * (N.of_nat (Nat.max n 1) mod 2 ^ 32)) mod 2 ^ 32.

(** The per-machine branch. *)
Definition reconcile_per_machine (group : ServiceGroup) (machines : list NodeId) (live : list RequestId)
    (died : nat) (acc : NodeService * list RequestId) : NodeService * list RequestId :=
  let '(s, submitted) := acc in
  let st := ns_state s in
  let pinned : gmap N N :=
    list_to_map (omap (λ id, (λ m, (m, id)) <$> ss_member_pins st !! id) live) in
  let missing := sort_by N.leb (List.filter (λ m, bool_decide (pinned !! m = None)) machines) in
  if bool_decide (missing = []) then acc
  else
    let s := touch_restarts (group_id group) s in
    let count := default 0 (ss_group_restarts (ns_state s) !! group_id group) in
    let now := c_now (ns_cluster s) in
    let replacement_round := (0 <? died)%nat in
    if negb (count <? restart_cap (length machines)) then (s, submitted)
    else if negb replacement_round || backoff_elapsed (ns_state s) (group_id group) count now then
      let '(s, submitted) :=
        foldl (λ acc m, submit_member group (Some m) replacement_round acc) (s, submitted) missing in
      (note_round (group_id group) now s, submitted)
    else (s, submitted).

(** Scale-down: the newest members first. *)
Definition stop_member (acc : NodeService * nat * list RequestId) (member : RequestId) :
    NodeService * nat * list RequestId :=
  let '(s, to_stop, stopped) := acc in
  match to_stop with
  | O => acc
  | S rest =>
      match lease_of_member s member with
      | Some lease =>
          match revoke lease s with
          | (s, Ok _) => (s, rest, stopped ++ [member])
          | (s, Err _) => (s, to_stop, stopped)
          end
      | None =>
          if is_queued s member then (cancel_member member s, rest, stopped ++ [member]) else acc
      end
  end.

Definition scale_down (group : string) (live : list RequestId) (excess : nat) (s : NodeService) :
    NodeService * list RequestId :=
  let '(s, _, stopped) :=
    foldl stop_member (s, excess, []) (reverse (sort_by N.leb live)) in
  (over_state (λ st, set_group_members
     (alter (λ members : gset N, foldl (λ m id, m ∖ {[id]}) members stopped) group
        (ss_group_members st)) st) s,
   List.filter (λ id, negb (bool_decide (id ∈ stopped))) live).

(** How many of the [replacement] deaths may be replaced now. *)
Definition allowed_replacements (st : ServiceState) (group : string) (desired replacement : nat)
    (now : u64) : nat :=
  let count := default 0 (ss_group_restarts st !! group) in
  if (replacement =? 0)%nat then 0
  else if restart_cap desired <=? count then 0
  else if backoff_elapsed st group count now then replacement else 0.

(** Growth and replacements of a counted group. *)
Definition submit_members (group : ServiceGroup) (replacements growth : nat)
    (acc : NodeService * list RequestId) : NodeService * list RequestId :=
  let acc := Nat.iter replacements (submit_member group None true) acc in
  Nat.iter growth (submit_member group None false) acc.

Definition reconcile_counted (group : ServiceGroup) (machines : list NodeId) (live : list RequestId)
    (died : nat) (acc : NodeService * list RequestId) : NodeService * list RequestId :=
  let '(s, submitted) := acc in
  let desired := N.to_nat (desired_count (group_cardinality group) (N.of_nat (length machines))) in
  let '(s, live) :=
    if (desired <? length live)%nat
    then scale_down (group_id group) live (length live - desired) s else (s, live) in
  let shortfall := (desired - length live)%nat in
  if (shortfall =? 0)%nat then (s, submitted)
  else
    let replacement := Nat.min shortfall died in
    let s := touch_restarts (group_id group) s in
    let now := c_now (ns_cluster s) in
    let allowed := allowed_replacements (ns_state s) (group_id group) desired replacement now in
    let '(s, submitted) := submit_members group allowed (shortfall - replacement) (s, submitted) in
    (if (0 <? allowed)%nat then note_round (group_id group) now s else s, submitted).

(** One turn of the loop of [reconcile_service_groups]. *)
Definition reconcile_group (machines : list NodeId) (acc : NodeService * list RequestId)
    (group : ServiceGroup) : NodeService * list RequestId :=
  let '(s, submitted) := acc in
  let members := current_members (ns_state s) (group_id group) in
  let live := List.filter (member_live s) (bs_iter members) in
  let died := (size members - length live)%nat in
  let s := over_state (prune_members (group_id group) live) s in
  let s := if (0 <? died)%nat then over_state (prune_pins (group_id group) live) s else s in
  match group_cardinality group with
  | PerMachine => reconcile_per_machine group machines live died (s, submitted)
  | _ => reconcile_counted group machines live died (s, submitted)
  end.

(** [NodeService::reconcile_service_groups] *)
Definition reconcile_service_groups (s : NodeService) : NodeService * list RequestId :=
  let machines := nodes_of_class (c_graph (ns_cluster s)) Class.Machine in
  let '(s, submitted) :=
    foldl (reconcile_group machines) (s, []) (bt_values (ss_service_groups (ns_state s))) in
  (persist None s, submitted).
