(* ===== verification/Registration.v ===== *)
(** Registration of agents: src/crates/node/src/service.rs, the first and the
    returning registration of a machine, and the reconciliation of its facts. *)

From S2P Require Import Prelude Identifier Text Types Workload Endpoint Protocol Provider Graph.
From S2P Require Import Inventory Discover Occupancy Command Cluster ServiceState Service Routing.

(** Error texts that quote identifiers are represented by their ingredients. *)
Definition refuse_inventory (what : string) : Error := Refused what.

(** The highest node id of the graph. *)
Definition max_node (g : Graph) : u64 := foldl N.max 0 (node_id <$> graph_nodes g).

(** The machine with a given agent id. *)
Definition named (c : Cluster) (instance : string) : option NodeId :=
  List.find (λ id,
    bool_decide ((node ← graph_node (c_graph c) id; node_attrs node !! "agent_id") = Some instance))
    (nodes_of_class (c_graph c) Class.Machine).

(** [NodeService::mark_inventory_mismatch] *)
Definition mark_inventory_mismatch (machine : NodeId) : SM unit := λ s,
  if bool_decide (node_state (ns_cluster s) machine ∈ [Some NJoining; Some NSchedulable])
  then commit (SetNodeState machine NUnavailable) s
  else (s, Ok ()).

(** ** Fact writers *)

(** What of one assignment is not yet owned; a foreign owner is refused. *)
Definition missing_of {K} (owner : K → option FactWriterId) (writer : FactWriterId) (l : list K) :
    result Error (list K) :=
  try_fold (λ acc k,
    match owner k with
    | None => Ok (acc ++ [k])
    | Some w => if w =? writer then Ok acc
                else Err (refuse_inventory "already belongs to another discovery writer")
    end) [] l.

Definition missing_assignment (g : Graph) (acc : list FactWriterAssignment) (a : FactWriterAssignment) :
    result Error (list FactWriterAssignment) :=
  nodes ← missing_of (node_fact_writer g) (assign_writer a) (assign_nodes a);
  edges ← missing_of (edge_fact_writer g) (assign_writer a) (assign_edges a);
  let m := mkAssignment (assign_writer a) nodes edges in
  Ok (if assignment_nonempty m then acc ++ [m] else acc).

(** [missing_fact_writer_assignments] *)
Definition missing_fact_writer_assignments (s : NodeService) (machine : NodeId)
    (devices : list DeviceSpec) : result Error (list FactWriterAssignment) :=
  let g := c_graph (ns_cluster s) in
  try_fold (missing_assignment g) [] (current_fact_writer_assignments g machine devices).

(** [preflight_fact_writers] *)
Definition preflight_fact_writers (s : NodeService) (machine : NodeId) (devices : list DeviceSpec) :
    result Error unit :=
  _ ← missing_fact_writer_assignments s machine devices; Ok ().

(** [reconcile_fact_writers] *)
Definition reconcile_fact_writers (machine : NodeId) (devices : list DeviceSpec) : SM unit :=
  s ← sget;
  assignments ← slift (missing_fact_writer_assignments s machine devices);
  if bool_decide (length assignments = 0%nat) then mret () else commit (AdoptFactWriters assignments).

(** ** Claim contracts *)

(** [missing_claim_contracts] *)
Definition missing_claim_contracts (s : NodeService) (nodes : list Node) :
    result Error (list ClaimBindingUpdate) :=
  try_fold (λ acc update,
    match claim_binding (c_graph (ns_cluster s)) (upd_node update) (upd_dimension update) with
    | None => Ok (acc ++ [update])
    | Some actual =>
        if bool_decide (upd_binding update = Some actual) then Ok acc
        else Err (refuse_inventory "resource dimension already belongs to another provider or scope")
    end) [] (claim_bindings nodes).

(** [current_claim_contract_nodes] *)
Definition current_claim_contract_nodes (s : NodeService) (machine : NodeId) (devices : list DeviceSpec) :
    list Node :=
  let g := c_graph (ns_cluster s) in
  let current : gset string := list_to_set (dev_id <$> devices) in
  List.filter (λ node,
    negb (is_device_class (node_kind node))
    || match node_attrs node !! "id" with
       | Some id => bool_decide (id ∈ current)
       | None => false
       end) (omap (graph_node g) (descendants g machine ++ [machine])).

(** [preflight_claim_contracts] *)
Definition preflight_claim_contracts (s : NodeService) (machine : NodeId) (devices : list DeviceSpec) :
    result Error unit :=
  _ ← missing_claim_contracts s (current_claim_contract_nodes s machine devices); Ok ().

(** [reconcile_claim_contracts] *)
Definition reconcile_claim_contracts (machine : NodeId) (devices : list DeviceSpec) : SM unit :=
  s ← sget;
  missing ← slift (missing_claim_contracts s (current_claim_contract_nodes s machine devices));
  if bool_decide (length missing = 0%nat) then mret () else commit (ApplyProviderFacts [] missing).

(** ** Devices of a returning machine *)

(** What the loop over the reported devices accumulates. *)
Record device_plan := mkDevicePlan {
  dp_existing : gmap string N;     (* known devices not reported so far *)
  dp_base : u64;
  dp_nodes : list Node;
  dp_edges : list Edge;
  dp_returning : gset N;
  dp_reported : gset N;
}.

(** Known devices of the machine by stable id; a later node wins. *)
Definition known_devices (g : Graph) (machine : NodeId) : gmap string N :=
  foldl (λ m child,
    match graph_node g child with
    | Some node =>
        if is_device_class (node_kind node) then
          match node_attrs node !! "id" with Some id => <[id := child]> m | None => m end
        else m
    | None => m
    end) ∅ (descendants g machine).

(** The checks on a device that is already known. *)
Definition check_known_device (c : Cluster) (spec : DeviceSpec) (requested : option NodeId) (id : NodeId) :
    result Error unit :=
  let g := c_graph c in
  node ← ok_or (graph_node g id) (UnknownNode id);
  _ ← match node_attrs node !! DEVICE_HOST_PARENT_ATTR, dev_host_parent spec with
      | Some previous, Some current =>
          guard_err (bool_decide (previous = current)) (refuse_inventory "device changed host containment")
      | Some _, None => Err (refuse_inventory "device withdrew authoritative host containment")
      | None, _ => Ok ()
      end;
  _ ← match requested with
      | Some parent => guard_err (bool_decide (graph_parent g id = Some parent))
                         (refuse_inventory "device changed physical containment")
      | None => Ok ()
      end;
  _ ← guard_err (bool_decide (node_kind node = dev_kind spec))
        (refuse_inventory "device changed resource class");
  guard_err (negb (bool_decide (node_state c id = Some NRetired)))
    (refuse_inventory "device is retired").

Section codec.
Context `{!PathCodec}.

Definition returning_attrs (spec : DeviceSpec) : Attrs :=
  let attrs := <["dev" := dev_path spec]> (<["id" := dev_id spec]> (dev_attrs spec)) in
  let attrs := match dev_host_parent spec with
               | Some parent => <[DEVICE_HOST_PARENT_ATTR := parent]> attrs
               | None => attrs
               end in
  if bool_decide (dev_access spec = []) then delete "access" attrs
  else <["access" := paths_to_json (dev_access spec)]> attrs.

(** One reported device. *)
Definition plan_device (c : Cluster) (machine : NodeId) (plan : device_plan) (spec : DeviceSpec) :
    result Error device_plan :=
  let g := c_graph c in
  requested ← match dev_host_parent spec with
              | None => Ok None
              | Some parent =>
                  p ← ok_or (host_parent_node g machine parent)
                        (refuse_inventory "unknown committed host parent");
                  Ok (Some p)
              end;
  '(id, plan) ←
    match dp_existing plan !! dev_id spec with
    | Some id =>
        _ ← check_known_device c spec requested id;
        let returning := bool_decide (node_state c id ∈ [Some NUnavailable; Some NJoining]) in
        Ok (id, mkDevicePlan (delete (dev_id spec) (dp_existing plan)) (dp_base plan) (dp_nodes plan)
                  (dp_edges plan)
                  (if returning then {[id]} ∪ dp_returning plan else dp_returning plan)
                  ({[id]} ∪ dp_reported plan))
    | None =>
        let fresh := wrap_add (dp_base plan) 1 in
        Ok (fresh, mkDevicePlan (dp_existing plan) fresh (dp_nodes plan)
                     (dp_edges plan ++ [contains_edge (default machine requested) fresh])
                     (dp_returning plan) (dp_reported plan))
    end;
  let attrs := returning_attrs spec in
  let unchanged :=
    match graph_node g id with
    | Some node => bool_decide (node_kind node = dev_kind spec) && bool_decide (node_attrs node = attrs)
    | None => false
    end in
  if unchanged then Ok plan
  else Ok (mkDevicePlan (dp_existing plan) (dp_base plan)
             (dp_nodes plan ++ [mkNode id (dev_kind spec) attrs (qty Dim.Count 1)])
             (dp_edges plan) (dp_returning plan) (dp_reported plan)).

(** The live leases with a claim on a vanished device. *)
Definition loses_resource (gone : gset N) (l : Lease) : bool :=
  bool_decide (lease_state l ∈ [LReserved; LPreparing; LActive])
  && existsb (λ claim, bool_decide (claim_node claim ∈ gone)) (lease_claims l).

(** A returning device becomes schedulable unless a binding is still open. *)
Definition readmit_device (node : NodeId) : SM unit :=
  s ← sget;
  _ ← (if bool_decide (node_state (ns_cluster s) node = Some NUnavailable)
       then commit (SetNodeState node NJoining) else mret ());
  s ← sget;
  let open := existsb (λ b, (binding_node b =? node) && negb (is_closed (binding_state b)))
                (bt_values (c_bindings (ns_cluster s))) in
  if negb open && bool_decide (node_state (ns_cluster s) node = Some NJoining)
  then commit (SetNodeState node NSchedulable) else mret ().

(** A vanished device stops being schedulable. *)
Definition retire_device (node : NodeId) : SM unit := λ s,
  if bool_decide (node_state (ns_cluster s) node ∈ [Some NSchedulable; Some NJoining])
  then commit (SetNodeState node NUnavailable) s else (s, Ok ()).

(** [NodeService::reconcile_device_subtree] *)
Definition reconcile_device_subtree (machine : NodeId) (devices : list DeviceSpec) : SM unit :=
  s ← sget;
  let c := ns_cluster s in
  let g := c_graph c in
  plan ← slift (try_fold (plan_device c machine)
                  (mkDevicePlan (known_devices g machine) (max_node g) [] [] ∅ ∅) devices);
  existing_updates ← slift (missing_claim_contracts s
                              (omap (graph_node g) (bs_iter (dp_reported plan))));
  let fresh := List.filter (λ node, negb (bool_decide (node_id node ∈ dp_reported plan))) (dp_nodes plan) in
  let updates := existing_updates ++ claim_bindings fresh in
  _ ← (if bool_decide (length (dp_nodes plan) = 0%nat) && bool_decide (length (dp_edges plan) = 0%nat)
          && bool_decide (length updates = 0%nat)
       then mret ()
       else commit (ApplyProviderFacts [mkBatch DEVICE_FACT_WRITER (dp_nodes plan) (dp_edges plan)]
                      updates));
  let gone : gset N := list_to_set (bt_values (dp_existing plan)) in
  _ ← sfor retire_device (bs_iter gone);
  s ← sget;
  _ ← sfor (λ lease, commit (FailLease lease "provider resource disappeared"))
        (lease_id <$> List.filter (loses_resource gone) (bt_values (c_leases (ns_cluster s))));
  sfor readmit_device (bs_iter (dp_returning plan)).

(** ** Registration *)

(** A failed step leaves the machine out of placement. *)
Definition or_mismatch (machine : NodeId) (m : SM unit) : SM unit := λ s,
  match m s with
  | (s, Ok _) => (s, Ok ())
  | (s, Err e) => (_ ← mark_inventory_mismatch machine; slift (Err e)) s
  end.

(** The checks and reconciliations of a returning machine, in order. *)
Definition reconcile_returning (machine : NodeId) (d : MachineDescription) : SM unit :=
  s ← sget;
  _ ← match verify_registered_host (c_graph (ns_cluster s)) machine d with
      | Ok _ => mret ()
      | Err _ => or_mismatch machine
                   (slift (Err (refuse_inventory "returning agent host inventory changed")))
      end;
  _ ← or_mismatch machine (slift (preflight_fact_writers s machine (md_devices d)));
  _ ← or_mismatch machine
        (slift (preflight_claim_contracts s machine (md_devices d)));
  _ ← or_mismatch machine (reconcile_fact_writers machine (md_devices d));
  _ ← or_mismatch machine (reconcile_device_subtree machine (md_devices d));
  or_mismatch machine (reconcile_claim_contracts machine (md_devices d)).

(** A machine seen for the first time. *)
Definition register_new (d : MachineDescription) : SM NodeId :=
  s ← sget;
  '(_, nodes, edges) ← slift (ok_or (build_graph paths_to_json d (max_node (c_graph (ns_cluster s))))
                                (Refused "panic: missing host id"));
  _ ← commit (ApplyProviderFacts (provider_fact_batches nodes edges) (claim_bindings nodes));
  s ← sget;
  slift (ok_or (named (ns_cluster s) (md_instance_id d))
           (Refused "applied graph fragment but machine node is missing")).

(** [NodeService::request_enumeration] *)
Definition request_enumeration (machine : NodeId) (s : NodeService) : NodeService :=
  match ns_recovering s !! machine with
  | None => s
  | Some r =>
      let tag := TEnumerate machine (rec_session r) in
      if decide (tag ∈ ns_inflight s) then s else service_dispatch machine tag EnumerateBindings s
  end.

(** The new session of a registered machine. *)
Definition begin_session (machine : NodeId) (new_machine : bool) (caps : ExecutionCapabilities) : SM unit :=
  _ ← smodify (λ s,
        set_agents (<[machine := mkHandle true []]> (ns_agents s))
          (set_execution_capabilities (<[machine := caps]> (ns_execution_capabilities s)) s));
  s ← sget;
  let recovering := negb new_machine && bool_decide (is_Some (session_of s machine)) in
  let session := ss_next_session (ns_state s) in
  _ ← smodify (over_state (set_next_session (wrap_add session 1)));
  _ ← (if recovering then
         smodify (λ s,
           set_member_status (filter (λ '(k, _), k.2 ≠ machine) (ns_member_status s))
             (set_recovering (<[machine := recovery_new session]> (ns_recovering s)) s))
       else if negb new_machine then
         _ ← smodify (commit_lenient (UnquarantineNode machine));
         commit (SetNodeHealth machine "healthy")
       else mret ());
  _ ← commit (SetAgentSession machine session);
  _ ← smodify (λ s, if recovering then request_enumeration machine s else s);
  pump.

(** [NodeService::register_agent_with_capabilities] *)
Definition register_agent_with_capabilities (d : MachineDescription) (caps : ExecutionCapabilities) :
    SM NodeId :=
  _ ← slift (match validate_machine_description d with
             | Ok _ => Ok ()
             | Err _ => Err (refuse_inventory "invalid machine description")
             end);
  s ← sget;
  match named (ns_cluster s) (md_instance_id d) with
  | Some machine =>
      _ ← reconcile_returning machine d;
      _ ← begin_session machine false caps;
      mret machine
  | None =>
      machine ← register_new d;
      _ ← begin_session machine true caps;
      mret machine
  end.
End codec.
