(* ===== verification/Server.v ===== *)
(** The control plane: src/crates/control/src/server.rs and api.rs.

    The plane holds one controller, the durable files it writes through the
    sink, and the compaction cursor.  Operations of the controller run first
    and their sink calls ([ns_journal]) are then written in order. *)

From S2P Require Import Prelude Identifier Text Types Workload Endpoint Protocol Provider Graph.
From S2P Require Import Inventory Discover Occupancy Command Cluster Select Admit Scheduler Journal.
From S2P Require Import ServiceState Service Routing Absorb Controller Registration.
From Stdlib Require Import Ascii.

(** ** api.rs *)

(** [u32] fields are naturals below [2^32], as their decoding guarantees. *)
Inductive ClientRequest :=
| CrSubmit (owner cpus memory_mib lifetime_secs : u64) (command : list string) (keep_alive : bool)
    (volumes ports : list string) (grace_secs : N) (image : option string) (gpus : u64)
| CrSubmitService (id : string) (owner : u64) (desired : N) (max min : option N) (per_machine : bool)
    (cpus memory_mib lifetime_secs : u64) (command volumes ports : list string) (grace_secs : N)
    (image : option string)
| CrScaleService (id : string) (target : N)
| CrStatus
| CrRevoke (lease : u64)
| CrLogs (lease : u64).

Record LeaseInfo := mkLeaseInfo {
  li_id : u64; li_owner : u64; li_state : string; li_expires_at : u64;
  li_exit_code : option Z; li_command : list string;
}.

Inductive ServerResponse :=
| SrSubmitted (request lease : u64)
| SrServiceRegistered (id : string) (desired : N)
| SrScaled (id : string) (target : N)
| SrStatus (queue_len : nat) (leases : list LeaseInfo)
| SrRevoked
| SrLogs (lease : u64) (output : string)
| SrError (reason : string).

(** ** Compiling a submission *)

Record WorkloadWire := mkWire {
  wire_cpus : u64; wire_memory_mib : u64; wire_lifetime_secs : u64;
  wire_command : list string; wire_volumes : list string; wire_ports : list string;
  wire_grace_secs : N; wire_image : option string; wire_gpus : u64;
}.

Definition VOLUME_ERROR : string := "invalid volume spec (expected host_path:mount_path)".
Definition PORT_ERROR : string := "invalid port spec (expected [host:]container)".

Definition parse_u16 : string → option N := parse_uint 65535.

Definition parse_volume (spec : string) : result string StorageMount :=
  '(host, mount) ← ok_or (split_once ":" spec) VOLUME_ERROR;
  if bool_decide (host = "") || bool_decide (mount = "") then Err VOLUME_ERROR
  else Ok (mkMount host mount).

Definition parse_port (spec : string) : result string PortPublish :=
  match split_once ":" spec with
  | Some (host, container) =>
      container_port ← ok_or (parse_u16 container) PORT_ERROR;
      host_port ← ok_or (parse_u16 host) PORT_ERROR;
      Ok (mkPort container_port (Some host_port))
  | None =>
      container_port ← ok_or (parse_u16 spec) PORT_ERROR;
      Ok (mkPort container_port None)
  end.

(** The needs of a submission. *)
Definition wire_needs (wire : WorkloadWire) : result string (list Need) :=
  let cpu := mkNeed Class.Cpu (qty Dim.Count (N.max (wire_cpus wire) 1)) [] in
  memory ← (if 0 <? wire_memory_mib wire then
              let bytes := wire_memory_mib wire * 2 ^ 20 in
              if u64_max <? bytes then Err "memory_mib overflows"
              else Ok [mkNeed Class.Memory (qty Dim.Bytes bytes) []]
            else Ok []);
  let gpu := if 0 <? wire_gpus wire
             then [mkNeed Class.Gpu (qty Dim.Count (wire_gpus wire)) []] else [] in
  Ok (cpu :: memory ++ gpu).

(** [ControlPlane::compile_workload] *)
Definition compile_workload (id : RequestId) (wire : WorkloadWire) : result string WorkloadSpec :=
  if bool_decide (wire_command wire = []) && bool_decide (wire_image wire = None)
  then Err "empty command"
  else
    needs ← wire_needs wire;
    storage ← try_map parse_volume (wire_volumes wire);
    ports ← try_map parse_port (wire_ports wire);
    if bool_decide (wire_image wire = None)
       && (negb (bool_decide (storage = [])) || negb (bool_decide (ports = [])))
    then Err "volumes and published ports need an OCI image (--image)"
    else Ok (mkWorkload
               (mkRequest id Batch needs [] [] [] (N.max (wire_lifetime_secs wire) 1) 1 true)
               (mkExecution (wire_command wire) (wire_image wire) storage ports (wire_grace_secs wire))
               false).

(** ** Requests *)

(** [NodeService::lease_command_of] *)
Definition lease_command_of (s : NodeService) (lease : LeaseId) : option (list string) :=
  (λ '(workload, _), ex_command (w_execution workload)) <$> ss_requests (ns_state s) !! lease.

(** [lease_of_request]: the newest lease. *)
Definition lease_of_request (s : NodeService) : u64 := foldl N.max 0 (bt_keys (c_leases (ns_cluster s))).

(** [ControlPlane::submit], without the fields that only pass through. *)
Definition plane_submit (owner : OwnerId) (keep_alive : bool) (wire : WorkloadWire) (s : NodeService) :
    NodeService * ServerResponse :=
  if bool_decide (wire_command wire = []) then (s, SrError "empty command")
  else
    let id := ss_next_request_id (ns_state s) in
    match compile_workload id wire with
    | Err reason => (s, SrError reason)
    | Ok w =>
        let s := submit (mkWorkload (w_resources w) (w_execution w) keep_alive) owner s in
        match admit_one s with
        | (s, Ok (Some _)) => (s, SrSubmitted id (lease_of_request s))
        | (s, Ok None) => (s, SrSubmitted id 0)
        | (s, Err err) => (s, SrError (error_to_string err))
        end
    end.

(** The admissions after a reconciliation, one per submitted member. *)
Definition admit_members (members : list RequestId) (s : NodeService) : NodeService :=
  foldl (λ s _, (admit_one s).1) s members.

Definition reconcile_and_admit (s : NodeService) : NodeService :=
  let '(s, members) := reconcile_service_groups s in admit_members members s.

Definition wire_cardinality (desired : N) (max min : option N) (per_machine : bool) : Cardinality :=
  if per_machine then PerMachine
  else match min, max with
       | Some min, Some max => Elastic min desired max
       | _, _ => Fixed desired
       end.

(** [ControlPlane::submit_service] *)
Definition submit_service (id : string) (owner : OwnerId) (desired : N) (max min : option N)
    (per_machine : bool) (wire : WorkloadWire) (s : NodeService) : NodeService * ServerResponse :=
  let cardinality := wire_cardinality desired max min per_machine in
  match cardinality_validate cardinality with
  | Err reason => (s, SrError reason)
  | Ok _ =>
      match compile_workload 0 wire with
      | Err reason => (s, SrError reason)
      | Ok template =>
          match register_service_group (mkGroup id owner cardinality template) s with
          | (s, Err reason) => (s, SrError reason)
          | (s, Ok _) =>
              (reconcile_and_admit s,
               SrServiceRegistered id (match cardinality with PerMachine => 0 | _ => desired end))
          end
      end
  end.

(** [ControlPlane::scale_service] *)
Definition scale_service (id : string) (target : N) (s : NodeService) : NodeService * ServerResponse :=
  match scale_service_group id target s with
  | (s, Ok applied) => (reconcile_and_admit s, SrScaled id applied)
  | (s, Err reason) => (s, SrError reason)
  end.

(** [ControlPlane::status]; the state is printed with its constructor's name. *)
Definition lease_state_name (st : LeaseState) : string :=
  match st with
  | LReserved => "Reserved" | LPreparing => "Preparing" | LActive => "Active"
  | LReleased => "Released" | LExpired => "Expired" | LRevoked => "Revoked"
  | LFailed => "Failed" | LCompleted => "Completed"
  end.

Definition lease_info (s : NodeService) (l : Lease) : LeaseInfo :=
  mkLeaseInfo (lease_id l) (lease_owner l) (lease_state_name (lease_state l)) (lease_expires_at l)
    (lease_exit_code l) (default [] (lease_command_of s (lease_id l))).

Definition plane_status (s : NodeService) : ServerResponse :=
  SrStatus (length (ss_queue (ns_state s))) (lease_info s <$> bt_values (c_leases (ns_cluster s))).

(** [ControlPlane::revoke] *)
Definition plane_revoke (lease : LeaseId) (s : NodeService) : NodeService * ServerResponse :=
  match revoke lease s with
  | (s, Ok _) => (s, SrRevoked)
  | (s, Err err) => (s, SrError (error_to_string err))
  end.

Section plane.
Context `{!PathCodec}.
(** What the agent answers to a log request ([None]: nothing in ten seconds),
    the local log file, and the derived [Debug] text of a response. *)
Context (agent_logs : NodeId → LeaseId → option AgentReply) (read_log : LeaseId → string).
Context (response_debug : AgentResponse → string).

(** [NodeService::request_logs]: the machine whose worker took the query. *)
Definition request_logs (s : NodeService) (lease : LeaseId) : option NodeId :=
  machine ← lease_machine s lease;
  handle ← ns_agents s !! machine;
  if ah_alive handle then Some machine else None.

(** [ControlPlane::logs_reply_to_response] *)
Definition logs_reply_to_response (lease : LeaseId) (reply : option AgentReply) : ServerResponse :=
  match reply with
  | Some (Ok (RLogs _ output)) => SrLogs lease output
  | Some (Ok other) => SrError ("expected Logs, got " +:+ response_debug other)
  | Some (Err reason) => SrError reason
  | None => SrError "timed out waiting for agent logs"
  end.

(** [NodeService::lease_logs] *)
Definition lease_logs (s : NodeService) (lease : LeaseId) : result Error string :=
  match request_logs s lease with
  | None => Ok (read_log lease)
  | Some machine =>
      match agent_logs machine lease with
      | Some (Ok (RLogs _ output)) => Ok output
      | Some (Ok other) => Err (Refused ("expected Logs, got " +:+ response_debug other))
      | Some (Err reason) => Err (Refused reason)
      | None => Err (Refused "timed out waiting for agent logs")
      end
  end.

(** The [Logs] arm of [ControlPlane::handle]. *)
Definition handle_logs (lease : LeaseId) (s : NodeService) : ServerResponse :=
  match request_logs s lease with
  | Some machine => logs_reply_to_response lease (agent_logs machine lease)
  | None =>
      match lease_logs s lease with
      | Ok output => SrLogs lease output
      | Err err => SrError (error_to_string err)
      end
  end.

(** [ControlPlane::handle] *)
Definition plane_handle (request : ClientRequest) (s : NodeService) : NodeService * ServerResponse :=
  match request with
  | CrSubmit owner cpus memory_mib lifetime_secs command keep_alive volumes ports grace_secs image gpus =>
      plane_submit owner keep_alive
        (mkWire cpus memory_mib lifetime_secs command volumes ports grace_secs image gpus) s
  | CrSubmitService id owner desired max min per_machine cpus memory_mib lifetime_secs command
      volumes ports grace_secs image =>
      submit_service id owner desired max min per_machine
        (mkWire cpus memory_mib lifetime_secs command volumes ports grace_secs image 0) s
  | CrScaleService id target => scale_service id target s
  | CrStatus => (s, plane_status s)
  | CrRevoke lease => plane_revoke lease s
  | CrLogs lease => (s, handle_logs lease s)
  end.

(** [ControlPlane::tick_and_handle] at the given time, on a drained inbox. *)
Definition tick_and_handle (now : u64) (request : ClientRequest) (s : NodeService) :
    NodeService * ServerResponse :=
  let s := (tick now s).1 in
  let s := (drive_round s).1 in
  plane_handle request s.

(** ** Maintenance *)

(** The [loop] that admits until nothing more places: [fuel] is enough when
    it exceeds the queue. *)
Fixpoint admit_all (fuel : nat) (s : NodeService) : NodeService :=
  match fuel with
  | O => s
  | S fuel =>
      match admit_one s with
      | (s, Ok (Some _)) => admit_all fuel s
      | (s, _) => s
      end
  end.

Definition admit_queue (s : NodeService) : NodeService :=
  admit_all (S (length (ss_queue (ns_state s)))) s.

(** [ControlPlane::maintain] at the given time, before the compaction. *)
Definition maintain (now : u64) (s : NodeService) : NodeService :=
  let s := (tick now s).1 in
  let s := (collect_completions s).1 in
  let s := admit_queue s in
  let '(s, unreachable) := take_unreachable s in
  let s := foldl (λ s machine, (mark_machine_unhealthy machine s).1) s unreachable in
  let s := probe_agents s in
  let '(s, restarts) := queue_restarts s in
  let s := admit_members restarts s in
  reconcile_and_admit s.

(** ** Durable files *)

Record SnapshotEnvelope := mkEnvelope {
  env_version : N; env_sequence : u64; env_cluster : Cluster; env_state : ServiceState;
}.

(** The snapshot file and the complete records of the journal. *)
Record Disk := mkDisk {
  dk_snapshot : option SnapshotEnvelope;
  dk_log : list (@LogRecord ServiceState);
}.

(** [serde_json::to_vec] on the controller state, and the empty vector. *)
Context {vec : Type} `{!EqDecision vec} (vec_new : vec) (state_to_vec : ServiceState → vec).

Record ControlPlane := mkPlane {
  cp_service : NodeService;
  cp_disk : Disk;
  cp_journal_sequence : u64;
  cp_last_state : vec;             (* the sink's *)
  cp_compact_every : u64;
  cp_compacted_sequence : u64;
}.

(** The closure of [make_sink]; an exhausted sequence panics. *)
Definition sink (call : option Command * ServiceState) (p : ControlPlane) : option ControlPlane :=
  let '(command, state) := call in
  let encoded := state_to_vec state in
  if bool_decide (command = None) && bool_decide (encoded = cp_last_state p) then Some p
  else if cp_journal_sequence p =? u64_max then None
  else
    let sequence := cp_journal_sequence p + 1 in
    Some (mkPlane (cp_service p)
            (mkDisk (dk_snapshot (cp_disk p))
               (dk_log (cp_disk p) ++ [Controller (mkJournal sequence command state)]))
            sequence encoded (cp_compact_every p) (cp_compacted_sequence p)).

Fixpoint sink_all (calls : list (option Command * ServiceState)) (p : ControlPlane) :
    option ControlPlane :=
  match calls with
  | [] => Some p
  | call :: calls => p ← sink call p; sink_all calls p
  end.

(** An operation of the controller with the sink attached. *)
Definition with_sink {A} (f : NodeService → NodeService * A) (p : ControlPlane) :
    option (ControlPlane * A) :=
  let '(s, a) := f (set_journal [] (cp_service p)) in
  p ← sink_all (ns_journal s) p;
  Some (mkPlane s (cp_disk p) (cp_journal_sequence p) (cp_last_state p) (cp_compact_every p)
          (cp_compacted_sequence p), a).

(** [ControlPlane::compact]: the snapshot is installed by a rename, then the
    journal is truncated. *)
Definition snapshot_of (p : ControlPlane) : SnapshotEnvelope :=
  mkEnvelope 2 (cp_journal_sequence p) (ns_cluster (cp_service p)) (state_snapshot (cp_service p)).
Definition install_snapshot (p : ControlPlane) : Disk :=
  mkDisk (Some (snapshot_of p)) (dk_log (cp_disk p)).
Definition compact (p : ControlPlane) : ControlPlane :=
  mkPlane (clear_history (cp_service p)) (mkDisk (Some (snapshot_of p)) [])
    (cp_journal_sequence p) (cp_last_state p) (cp_compact_every p) (cp_journal_sequence p).

(** [maintain] with its compaction; the difference of cursors is unchecked. *)
Definition plane_maintain (now : u64) (p : ControlPlane) : option ControlPlane :=
  '(p, _) ← with_sink (λ s, (maintain now s, ())) p;
  Some (if (0 <? cp_compact_every p)
           && (cp_compact_every p <=? cp_journal_sequence p - cp_compacted_sequence p)
        then compact p else p).

(** ** Boot *)

Definition is_admission (command : Command) : bool :=
  match command with OpenLease _ _ _ _ _ _ _ | ReserveLease _ _ _ _ _ => true | _ => false end.

Definition LINEAGE_ERROR : string :=
  "cannot recover legacy workload lineage: lease admission after " +:+
  "a version-1 snapshot requires operator reconciliation".

(** One record of the journal; the service, and the last sequence. *)
Definition boot_record (restored sequenced : bool) (compacted : u64) (acc : NodeService * u64)
    (r : @LogRecord ServiceState) : result string (NodeService * u64) :=
  let '(s, sequence) := acc in
  let replay_one command s :=
    match service_replay [command] s with
    | (s, Ok _) => Ok s
    | (_, Err e) => Err (error_to_string e)
    end in
  match r with
  | Legacy command =>
      if sequenced then Ok acc
      else if negb (sequence =? 0) then Err "legacy command after sequenced controller state"
      else if restored && is_admission command then Err LINEAGE_ERROR
      else s ← replay_one command s; Ok (s, sequence)
  | Controller record =>
      if jr_sequence record <=? compacted then Ok acc
      else if sequence =? u64_max then Err "journal sequence exhausted"
      else if negb (jr_sequence record =? sequence + 1) then Err "non-contiguous controller journal"
      else
        s ← match jr_command record with Some command => replay_one command s | None => Ok s end;
        Ok (restore_state (jr_state record) s, jr_sequence record)
  end.

(** The snapshot file: the service, the sequence, whether it has a cursor. *)
Definition boot_snapshot (snapshot : option SnapshotEnvelope) : result string (NodeService * u64 * bool) :=
  match snapshot with
  | None => Ok (service_new, 0, false)
  | Some envelope =>
      if negb (bool_decide (env_version envelope ∈ [1; 2])) then Err ("unsupported snapshot version " +:+ pretty (env_version envelope))
      else Ok (restore (env_cluster envelope) (env_state envelope) service_new, env_sequence envelope,
               env_version envelope =? 2)
  end.

(** Both files: the service, the last sequence, the cursor. *)
Definition boot_files (disk : Disk) : result string (NodeService * u64 * u64) :=
  '(s, compacted, sequenced) ← boot_snapshot (dk_snapshot disk);
  '(s, last) ← try_fold (boot_record (bool_decide (is_Some (dk_snapshot disk))) sequenced compacted)
                 (s, compacted) (dk_log disk);
  Ok (s, last, compacted).

(** [ControlPlane::boot] up to the registration of a built-in agent. *)
Definition boot (compact_every : u64) (disk : Disk) : result string ControlPlane :=
  '(s, last, compacted) ← boot_files disk;
  Ok (mkPlane (set_durable true s) disk last vec_new compact_every compacted).
End plane.
Arguments ControlPlane : clear implicits.
Arguments mkPlane {vec} _ _ _ _ _ _.
