(* ===== verification/Links.v ===== *)
(** * Links to agents

    The client side of the agent protocol (service.rs: [AgentClient], the
    greeting and the proof of capabilities in front of every registration),
    the in-process agent, the registration of a built-in agent at boot
    (server.rs), and the agent's serving loop (crates/cli/src/main.rs); the worker
    threads that call agents (dispatch.rs). *)

From S2P Require Import Prelude Identifier Text Types Workload Endpoint Protocol Provider Graph.
From S2P Require Import Inventory Discover Occupancy Command Cluster Execution Agent Select Admit.
From S2P Require Import Scheduler Journal ServiceState Service Routing Absorb Controller Registration.
From S2P Require Import Server.

(** ** Clients *)

Class AgentClient (C : Type) := call : C → AgentRequest → C * result string AgentResponse.

(** The agent runs in this process. *)
Definition LocalAgentClient {W : Type} `{!Host W} (try_describe : W → result string MachineDescription)
    : AgentClient (W * LeaseAgent) := λ c request,
  let '(w, a, response) := handle try_describe c.1 c.2 request in ((w, a), Ok response).

Section clients.
Context {C : Type} `{!AgentClient C} `{!PathCodec} (response_debug : AgentResponse → string).

Definition ask_hello (executor : C) : C * result Error MachineDescription :=
  let '(executor, reply) := call executor Hello in
  (executor,
   match reply with
   | Err reason => Err (Refused reason)
   | Ok (Welcome instance_id name cpus memory_bytes host_nodes devices) =>
       Ok (mkMachine instance_id name cpus memory_bytes host_nodes devices)
   | Ok other => Err (Refused ("expected Welcome, got " +:+ response_debug other))
   end).

Definition query_execution_capabilities (executor : C) : C * result Error ExecutionCapabilities :=
  let '(executor, reply) := call executor Capabilities in
  (executor,
   match reply with
   | Err reason => Err (Refused ("agent capability query failed: " +:+ reason))
   | Ok (RCapabilities capabilities) => Ok capabilities
   | Ok other => Err (Refused ("agent did not report execution capabilities: " +:+ response_debug other))
   end).

(** The client then belongs to the machine's worker. *)
Definition register_agent (d : MachineDescription) (executor : C) (s : NodeService)
    : C * (NodeService * result Error NodeId) :=
  let '(executor, capabilities) := query_execution_capabilities executor in
  (executor,
   match capabilities with
   | Err e => (s, Err e)
   | Ok capabilities => register_agent_with_capabilities d capabilities s
   end).

(** [RemoteAgentClient::connect] is the connection, its handshake and its
    greeting. *)
Definition register_remote (connect : string → option string → result string C) (addr : string)
    (link_token : option string) (s : NodeService) : option C * (NodeService * result Error NodeId) :=
  match connect addr link_token with
  | Err err => (None, (s, Err (Refused ("connect " +:+ addr +:+ ": " +:+ err))))
  | Ok executor =>
      let '(executor, description) := ask_hello executor in
      match description with
      | Err e => (Some executor, (s, Err e))
      | Ok description =>
          if bool_decide (md_instance_id description = "")
          then (Some executor, (s, Err (Refused "remote agent returned an empty stable instance id")))
          else let '(executor, out) := register_agent description executor s in (Some executor, out)
      end
  end.
End clients.

Section local.
Context {W : Type} `{!Host W} `{!PathCodec} (response_debug : AgentResponse → string).

(** [try_describe] is discovery; the container runtime is found when the agent
    is made. *)
Definition register_local (try_describe : W → result string MachineDescription) (containers : ContainerRuntime)
    (cgroup_root : option string) (w : W) (s : NodeService) : (W * LeaseAgent) * (NodeService * result Error NodeId) :=
  let a := agent_new cgroup_root containers in
  match try_describe w with
  | Err reason => ((w, a), (s, Err (Refused ("local device discovery incomplete: " +:+ reason))))
  | Ok description => register_agent (AgentClient0 := LocalAgentClient try_describe) response_debug description (w, a) s
  end.
End local.

(** ** Boot with a link *)

Inductive AgentLink :=
| LinkLocal (cgroup_root : option string)
| LinkRemote (addr : string) (token : option string)
| LinkNone.

Section boot.
Context {vec : Type} `{!EqDecision vec} (vec_new : vec) (state_to_vec : ServiceState → vec).
(** The two registrations, as the controller sees them. *)
Context (local : option string → NodeService → NodeService * result Error NodeId).
Context (remote : string → option string → NodeService → NodeService * result Error NodeId).

Definition register_link (link : AgentLink) (s : NodeService) : NodeService * result Error unit :=
  let registered (out : NodeService * result Error NodeId) :=
    (out.1, match out.2 with Ok _ => Ok () | Err e => Err e end) in
  match link with
  | LinkLocal cgroup_root => registered (local cgroup_root s)
  | LinkRemote addr token => registered (remote addr token s)
  | LinkNone => (s, Ok ())
  end.

(** [ControlPlane::boot]: registration runs with the sink attached; [None] is
    the sink's exit. *)
Definition boot_linked (link : AgentLink) (compact_every : u64) (disk : Disk)
    : option (result string (ControlPlane vec)) :=
  match boot vec_new compact_every disk with
  | Err e => Some (Err e)
  | Ok p =>
      '(p, registered) ← with_sink state_to_vec (register_link link) p;
      Some (match registered with Ok _ => Ok p | Err e => Err (error_to_string e) end)
  end.
End boot.

(** ** The serving side *)

Section serving.
Context {W : Type} `{!Host W} (try_describe : W → result string MachineDescription).

(** [while let Ok(request) = read_request(..)]: the requests of one connection
    with whether their answer could be written. *)
Fixpoint serve_requests (w : W) (a : LeaseAgent) (requests : list (AgentRequest * bool))
    : W * LeaseAgent * list AgentResponse :=
  match requests with
  | [] => (w, a, [])
  | (request, written) :: requests =>
      let '(w, a, response) := handle try_describe w a request in
      if written : bool then
        let '(w, a, responses) := serve_requests w a requests in (w, a, response :: responses)
      else (w, a, [])
  end.
End serving.

(** ** What registers *)

Section facts.
Context {C : Type} `{!AgentClient C} `{!PathCodec} (response_debug : AgentResponse → string).

(** Capability proof precedes every change of the controller: a registration
    either leaves the controller as it was, with the refusal, or the client
    has answered the query and the machine registers with exactly the
    capabilities it proved. *)
Theorem registration_after_proof d executor s executor' s' r :
  register_agent response_debug d executor s = (executor', (s', r)) →
  (s' = s ∧ ∃ reason, r = Err (Refused reason))
  ∨ ∃ capabilities, call executor Capabilities = (executor', Ok (RCapabilities capabilities))
      ∧ register_agent_with_capabilities d capabilities s = (s', r).
Proof.
  unfold register_agent, query_execution_capabilities. destruct (call executor Capabilities) as [c [reply|e]].
  - destruct reply; try (intros [= <- <- <-]; left; by eauto).
    intros [= <- Hrun]. right. by exists capabilities.
  - intros [= <- <- <-]. left. by eauto.
Qed.

(** A remote machine also names itself. *)
Theorem remote_registration_named connect addr token s executor s' r :
  register_remote response_debug connect addr token s = (executor, (s', r)) →
  (s' = s ∧ ∃ reason, r = Err (Refused reason))
  ∨ ∃ d capabilities, md_instance_id d ≠ "" ∧ register_agent_with_capabilities d capabilities s = (s', r).
Proof.
  unfold register_remote. destruct (connect addr token) as [c|e]; [|intros [= <- <- <-]; left; by eauto].
  unfold ask_hello. destruct (call c Hello) as [c1 [reply|e]]; [|intros [= <- <- <-]; left; by eauto].
  destruct reply; try (intros [= <- <- <-]; left; by eauto). case_bool_decide as Hid.
  { intros [= <- <- <-]. left. by eauto. }
  destruct (register_agent response_debug _ c1 s) as [c2 out] eqn:Hreg. intros [= <- ->].
  apply registration_after_proof in Hreg as [?|(caps & _ & Hrun)]; [by left|]. right. by eauto.
Qed.
End facts.

(** The in-process agent always proves its capabilities: its registration is
    that of its own description. *)
Theorem local_registration {W : Type} `{!Host W} `{!PathCodec} response_debug
    (try_describe : W → result string MachineDescription) containers cgroup_root w s d :
  try_describe w = Ok d →
  (register_local response_debug try_describe containers cgroup_root w s).2
  = register_agent_with_capabilities d
      (execution_capabilities w (ag_execution (agent_new cgroup_root containers))).2 s.
Proof.
  intros Hd. unfold register_local. rewrite Hd. unfold register_agent, query_execution_capabilities. cbn.
  unfold LocalAgentClient, call. cbn. by destruct (execution_capabilities _ _) as [w' caps].
Qed.

(** * The worker threads: src/crates/node/src/dispatch.rs.

    One thread per machine owns the machine's client and serves its queue of
    jobs; an answer goes to the shared inbox or to the one caller that waits
    for it.  [NodeService] keeps of a worker the jobs whose answers it will
    absorb; the last section says that this is what it sees. *)

(** A caller that waits is the channel it holds the receiver of. *)
Inductive Delivery :=
| Direct (channel : N)
| ToInbox (tag : Tag).

Record Job := mkJob { job_request : AgentRequest; job_delivery : Delivery }.

(** ** The inbox *)

Abbreviation Inbox := (list (Tag * AgentReply)).

(** [Inbox::post] and [Inbox::take]; the lock is never poisoned, no holder
    panics. *)
Definition post (tag : Tag) (reply : AgentReply) (inbox : Inbox) : Inbox := inbox ++ [(tag, reply)].
Definition take_inbox (inbox : Inbox) : Inbox * Inbox := (inbox, []).

(** ** A worker *)

Section worker.
Context {C : Type} `{!AgentClient C}.

(** What the worker shares: the inbox and the answers sent on channels. *)
Record Worker := mkWorker {
  wk_client : C;
  wk_jobs : list Job;
  wk_inbox : Inbox;
  wk_sent : gmap N AgentReply;
}.

(** [AgentHandle::send] while the thread lives. *)
Definition send (job : Job) (w : Worker) : Worker :=
  mkWorker (wk_client w) (wk_jobs w ++ [job]) (wk_inbox w) (wk_sent w).

(** [direct_job] *)
Definition direct_job (channel : N) (request : AgentRequest) : Job := mkJob request (Direct channel).

(** The loop of [spawn_worker], once. *)
Definition worker_turn (w : Worker) : option Worker :=
  match wk_jobs w with
  | [] => None
  | job :: jobs =>
      let '(client, reply) := call (wk_client w) (job_request job) in
      Some (match job_delivery job with
            | Direct channel => mkWorker client jobs (wk_inbox w) (<[channel := reply]> (wk_sent w))
            | ToInbox tag => mkWorker client jobs (post tag reply (wk_inbox w)) (wk_sent w)
            end)
  end.

Fixpoint worker_loop (turns : nat) (w : Worker) : Worker :=
  match turns with
  | O => w
  | S turns => match worker_turn w with Some w => worker_loop turns w | None => w end
  end.

(** ** What the controller sees *)

(** The jobs whose answers come to the inbox. *)
Definition inbox_jobs (jobs : list Job) : list (Tag * AgentRequest) :=
  omap (M := list) (λ job, match job_delivery job with
                           | ToInbox tag => Some (tag, job_request job)
                           | Direct _ => None
                           end) jobs.

(** A worker and its handle in the controller. *)
Definition tracks (w : Worker) (machine : NodeId) (s : NodeService) : Prop :=
  ∃ alive, ns_agents s !! machine = Some (mkHandle alive (inbox_jobs (wk_jobs w))) ∧ ns_inbox s = wk_inbox w.

(** A turn of the worker is a delivery of the controller's model, or nothing
    it can see: a caller's question in between changes neither the order nor
    the answers of the others. *)
Theorem worker_turn_delivers w w' machine s :
  tracks w machine s → worker_turn w = Some w' →
  (tracks w' machine s ∧ wk_inbox w' = wk_inbox w)
  ∨ ∃ reply, tracks w' machine (deliver machine reply s).
Proof.
  intros (alive & Hh & Hi) Hturn. unfold worker_turn in Hturn.
  destruct (wk_jobs w) as [|[request delivery] jobs] eqn:Hj; [done|]. cbn [job_request job_delivery] in Hturn.
  destruct (call (wk_client w) request) as [client reply]. injection Hturn as <-.
  destruct delivery as [channel|tag].
  - left. split; [|done]. exists alive. cbn. split; [|done]. by rewrite Hh, ?Hj.
  - right. exists reply, alive. unfold deliver. rewrite Hh, ?Hj. cbn. by rewrite lookup_insert, decide_True, Hi by done.
Qed.

(** A job sent for the inbox is the controller's next; a caller's question is
    not among its jobs. *)
Lemma send_jobs w tag channel request :
  inbox_jobs (wk_jobs (send (mkJob request (ToInbox tag)) w)) = inbox_jobs (wk_jobs w) ++ [(tag, request)]
  ∧ inbox_jobs (wk_jobs (send (direct_job channel request) w)) = inbox_jobs (wk_jobs w).
Proof. unfold inbox_jobs, send, direct_job. cbn [wk_jobs]. rewrite !omap_app. cbn. by rewrite app_nil_r. Qed.

(** Given its turns, a worker answers every job, once, in order. *)
Theorem worker_serves_all w turns :
  (length (wk_jobs w) ≤ turns)%nat →
  let w' := worker_loop turns w in
  wk_jobs w' = []
  ∧ ∃ replies, wk_inbox w' = wk_inbox w ++ zip (inbox_jobs (wk_jobs w)).*1 replies
      ∧ length replies = length (inbox_jobs (wk_jobs w))
      ∧ ∀ request channel, mkJob request (Direct channel) ∈ wk_jobs w → is_Some (wk_sent w' !! channel).
Proof.
  assert (∀ turns w channel, is_Some (wk_sent w !! channel) → is_Some (wk_sent (worker_loop turns w) !! channel)) as Hkeep.
  { intros n. induction n as [|n IH]; intros w0 channel Hc; [done|]. cbn. unfold worker_turn.
    destruct (wk_jobs w0) as [|[request [ch|tag]] jobs]; [done|..]; cbn [job_request job_delivery];
      destruct (call (wk_client w0) request) as [client reply]; apply IH; [|done].
    cbn. destruct (decide (channel = ch)) as [->|]; [rewrite lookup_insert, decide_True by done; by eexists|].
    by rewrite lookup_insert_ne by done. }
  revert w. induction turns as [|turns IH]; intros w Hlen.
  { destruct (wk_jobs w) eqn:Hj; [|cbn in Hlen; lia]. cbn. split; [done|]. exists []. rewrite app_nil_r.
    split_and!; [done..|]. by intros ? ? ?%elem_of_nil. }
  cbn [worker_loop]. unfold worker_turn. destruct (wk_jobs w) as [|[request delivery] jobs] eqn:Hj.
  { cbn. split; [done|]. exists []. rewrite app_nil_r. split_and!; [done..|]. by intros ? ? ?%elem_of_nil. }
  cbn [job_request job_delivery length] in *. destruct (call (wk_client w) request) as [client reply].
  destruct delivery as [channel|tag].
  - destruct (IH (mkWorker client jobs (wk_inbox w) (<[channel := reply]> (wk_sent w)))) as (Hd & replies & Hi & Hl & Hc);
      [cbn; lia|]. split; [done|]. exists replies. split_and!; [done..|].
    intros request' channel' [Heq|Hin]%elem_of_cons; [|by eapply Hc]. injection Heq as -> ->.
    apply Hkeep. cbn. rewrite lookup_insert, decide_True by done. by eexists.
  - destruct (IH (mkWorker client jobs (post tag reply (wk_inbox w)) (wk_sent w))) as (Hd & replies & Hi & Hl & Hc);
      [cbn; lia|]. split; [done|]. exists (reply :: replies). split_and!.
    + rewrite Hi. unfold post. cbn. by rewrite <-app_assoc.
    + cbn in *. by rewrite Hl.
    + intros request' channel' [Heq|Hin]%elem_of_cons; [done|by eapply Hc].
Qed.
End worker.
