(* ===== verification/Remote.v ===== *)
(** The remote agent: the client of service.rs ([RemoteAgentClient]), and the
    loop in which an agent serves its controller (crates/cli/src/main.rs),
    over one encrypted connection.

    A call is synchronous: the request crosses, the agent takes one turn of
    its loop, the response crosses.  [Remote] is both ends and the bytes in
    flight; serialization is a parameter. *)

From S2P Require Import Prelude Words Identifier Text Types Workload Endpoint Protocol ProtocolFacts.
From S2P Require Import Provider Graph Inventory Discover Occupancy Command Cluster Execution Agent.
From S2P Require Import Select Admit Scheduler Journal ServiceState Service Routing Absorb Controller.
From S2P Require Import Registration Server Links Transport Handshake.

Local Open Scope Z_scope.

Section remote.
Context {S R : Type} `{!NoiseSession S R}.
Context {W : Type} `{!Host W} (try_describe : W → result string MachineDescription).
Context (greeting_to_vec : Greeting → list Z) (greeting_from_slice : list Z → option Greeting).
Context (request_to_vec : AgentRequest → list Z) (request_from_slice : list Z → option AgentRequest).
Context (response_to_vec : AgentResponse → list Z) (response_from_slice : list Z → option AgentResponse).

Local Abbreviation SecureStream := (SecureStream (S := S) (R := R)).

(** [std::io::Error]'s text. *)
Definition io_text (e : IoError) : string :=
  match e with
  | InvalidData what | IoOther what => what
  | UnexpectedEof => "failed to fill whole buffer"
  end.

(** ** Frames over the secure stream *)

(** [write_frame] on the stream: the length and the payload are two writes, so
    two runs of Noise messages; the bytes for the connection. *)
Definition secure_write_frame {T} (to_vec : T → list Z) (message : T) (ss : SecureStream) :
    result IoError (SecureStream * list Z) :=
  let payload := to_vec message in
  if MAX_FRAME <? Z.of_nat (length payload) then Err (InvalidData "frame exceeds MAX_FRAME")
  else
    '(tx, len) ← secure_write (sec_tx ss) (to_le_bytes 4 (as_u32 (Z.of_nat (length payload))));
    '(tx, body) ← secure_write tx payload;
    Ok (mkSecure tx (sec_rx ss) (sec_pending ss), len ++ body).

(** [read_payload] on the stream, then the message. *)
Definition secure_read_frame {T} (from_slice : list Z → option T) (ss : SecureStream) (wire : list Z) :
    result IoError (T * SecureStream * list Z) :=
  let rx := mkReceiver (sec_rx ss) (sec_pending ss) wire in
  '(len, rx) ← secure_read_exact 4 rx 4;
  let length := from_le_bytes len in
  if MAX_FRAME <? length then Err (InvalidData "frame exceeds maximum size")
  else
    '(payload, rx) ← secure_read_exact (Z.to_nat length) rx (Z.to_nat length);
    message ← ok_or (from_slice payload) (IoOther "invalid message");
    Ok (message, mkSecure (sec_tx ss) (rx_noise rx) (rx_pending rx), rx_wire rx).

(** ** The two ends *)

Record Remote := mkRemote {
  rm_client : SecureStream;          (* [RemoteAgentClient] *)
  rm_server : option SecureStream;   (* the agent's end; [None] once it is dropped *)
  rm_up : list Z;
  rm_down : list Z;
  rm_host : W;
  rm_agent : LeaseAgent;
}.

(** [RemoteAgentClient::connect] past the handshake. *)
Definition connect_greeting : Greeting := GreetAgent "" "" 0 0 [] [].
Definition connect_greet (client : SecureStream) : result IoError (SecureStream * list Z) :=
  secure_write_frame greeting_to_vec connect_greeting client.

(** The agent's side: the greeting declares the role; a fresh agent. *)
Definition role_ok (greeting : result IoError (Greeting * SecureStream * list Z)) : option (SecureStream * list Z) :=
  match greeting with
  | Ok (GreetAgent _ _ _ _ _ _, ss, wire) => Some (ss, wire)
  | _ => None
  end.

Definition remote_up (client server : SecureStream) (w : W) (agent : LeaseAgent) : result IoError Remote :=
  '(client, up) ← connect_greet client;
  Ok (match role_ok (secure_read_frame greeting_from_slice server up) with
      | Some (server, up) => mkRemote client (Some server) up [] w agent
      | None => mkRemote client None up [] w agent
      end).

(** One turn of the agent's loop: an unreadable request or an unwritable
    response ends it. *)
Definition agent_turn (c : Remote) : Remote :=
  let dropped (w : W) (agent : LeaseAgent) := mkRemote (rm_client c) None (rm_up c) (rm_down c) w agent in
  match rm_server c with
  | None => c
  | Some server =>
      match secure_read_frame request_from_slice server (rm_up c) with
      | Err _ => dropped (rm_host c) (rm_agent c)
      | Ok (request, server, up) =>
          let '(w, agent, response) := handle try_describe (rm_host c) (rm_agent c) request in
          match secure_write_frame response_to_vec response server with
          | Err _ => dropped w agent
          | Ok (server, down) => mkRemote (rm_client c) (Some server) up (rm_down c ++ down) w agent
          end
      end
  end.

(** [RemoteAgentClient::call] *)
Definition remote_call (c : Remote) (request : AgentRequest) : Remote * result string AgentResponse :=
  match secure_write_frame request_to_vec request (rm_client c) with
  | Err e => (c, Err (io_text e))
  | Ok (client, up) =>
      let c := agent_turn (mkRemote client (rm_server c) (rm_up c ++ up) (rm_down c) (rm_host c) (rm_agent c)) in
      match secure_read_frame response_from_slice (rm_client c) (rm_down c) with
      | Err e => (c, Err (io_text e))
      | Ok (response, client, down) =>
          (mkRemote client (rm_server c) (rm_up c) down (rm_host c) (rm_agent c), Ok response)
      end
  end.

#[local] Instance RemoteAgentClient : AgentClient Remote := remote_call.

(** A client's calls in order. *)
Fixpoint calls {C : Type} `{!AgentClient C} (c : C) (requests : list AgentRequest) :
    C * list (result string AgentResponse) :=
  match requests with
  | [] => (c, [])
  | request :: requests =>
      let '(c, reply) := call c request in
      let '(c, replies) := calls c requests in (c, reply :: replies)
  end.

(** ** Delivery *)

(** Nothing is in flight from [a] to [b], and [b] decrypts what [a] sends next. *)
Definition idle (a b : SecureStream) : Prop := synced (sec_tx a) (sec_rx b) ∧ sec_pending b = [].

Lemma rx_holds_nil s' (rx : Receiver) :
  rx_holds s' rx [] → rx_pending rx = [] ∧ rx_wire rx = [] ∧ synced s' (rx_noise rx).
Proof.
  intros (s & cs & Hs & He & Hd). symmetry in Hd. apply app_eq_nil in Hd as [Hp Hc].
  inversion He as [|? c ? ? ? ? ? ? Hne]; subst; [done|]. by destruct c.
Qed.

(** What [serde_json] wrote reads back, and the frame is within the limit. *)
Definition carried {T} (to_vec : T → list Z) (from_slice : list Z → option T) (message : T) : Prop :=
  from_slice (to_vec message) = Some message ∧ Z.of_nat (length (to_vec message)) ≤ MAX_FRAME.

(** A frame that fits arrives, alone. *)
Lemma frame_delivered {T} (to_vec : T → list Z) from_slice message (a b : SecureStream) :
  carried to_vec from_slice message → idle a b →
  ∃ tx wire rx, secure_write_frame to_vec message a = Ok (mkSecure tx (sec_rx a) (sec_pending a), wire)
    ∧ secure_read_frame from_slice b wire = Ok (message, mkSecure (sec_tx b) rx [], [])
    ∧ synced tx rx.
Proof.
  intros [Hcodec Hfit] [Hs Hp].
  set (header := to_le_bytes 4 (as_u32 (Z.of_nat (length (to_vec message))))).
  assert (length header = 4%nat) as Hh by apply to_le_bytes_length.
  assert (from_le_bytes header = Z.of_nat (length (to_vec message))) as Hlen.
  { unfold header. rewrite from_to_le_bytes. unfold MAX_FRAME in Hfit. change (256 ^ Z.of_nat 4) with (2 ^ 32).
    unfold as_u32. rewrite as_unsigned_small by lia. apply Z.mod_small. lia. }
  destruct (secure_write_encoded (R := R) (sec_tx a) header) as (tx0 & len & cs0 & Hsw0 & He0 & Hc0).
  destruct (secure_write_encoded (R := R) tx0 (to_vec message)) as (tx & body & cs & Hsw & He & Hc).
  set (wire := len ++ body).
  assert (rx_holds tx (mkReceiver (sec_rx b) (sec_pending b) wire) (header ++ to_vec message)) as Hrx.
  { exists (sec_tx a), (cs0 ++ cs). cbn. rewrite Hp, concat_app, Hc0, Hc. split_and!; [done| |done].
    by eapply encoded_app. }
  destruct (secure_read_exact_holds 4 _ _ _ _ Hrx) as (rx1 & Hr1 & Hrx1); [lia|]. rewrite Hh in Hr1.
  rewrite <-(app_nil_r (to_vec message)) in Hrx1.
  destruct (secure_read_exact_holds (length (to_vec message)) _ _ _ _ Hrx1) as (rx2 & Hr2 & Hrx2); [lia|].
  apply rx_holds_nil in Hrx2 as (Hp2 & Hw2 & Hs2). exists tx, wire, (rx_noise rx2). split_and!; [| |done].
  - unfold secure_write_frame. destruct (Z.ltb_spec MAX_FRAME (Z.of_nat (length (to_vec message)))); [lia|].
    fold header. rewrite Hsw0. cbn [mbind result_bind]. by rewrite Hsw.
  - unfold secure_read_frame. rewrite Hr1. cbn [mbind result_bind]. rewrite Hlen.
    destruct (Z.ltb_spec MAX_FRAME (Z.of_nat (length (to_vec message)))); [lia|]. rewrite Nat2Z.id, Hr2.
    cbn [mbind result_bind]. rewrite Hcodec. cbn. by rewrite Hp2, Hw2.
Qed.

Definition request_fits : AgentRequest → Prop := carried request_to_vec request_from_slice.
Definition reply_fits (reply : result string AgentResponse) : Prop :=
  ∀ response, reply = Ok response → carried response_to_vec response_from_slice response.

(** A connection between calls, with this host and agent behind it. *)
Definition linked (c : Remote) (w : W) (agent : LeaseAgent) : Prop :=
  ∃ client server, c = mkRemote client (Some server) [] [] w agent ∧ idle client server ∧ idle server client.

#[local] Instance local_client : AgentClient (W * LeaseAgent) := LocalAgentClient try_describe.

Lemma remote_call_local c w agent request w' agent' response :
  linked c w agent → handle try_describe w agent request = (w', agent', response) →
  request_fits request → reply_fits (Ok response) →
  ∃ c', remote_call c request = (c', Ok response) ∧ linked c' w' agent'.
Proof.
  intros (client & server & -> & Hup & Hdown) Hh Hreq Hresp.
  destruct (frame_delivered request_to_vec request_from_slice request client server) as (tx & up & rx & Hw & Hr & Hs);
    [done..|].
  set (client1 := mkSecure tx (sec_rx client) (sec_pending client)) in *.
  set (server1 := mkSecure (sec_tx server) rx []) in *.
  destruct (frame_delivered response_to_vec response_from_slice response server1 client1)
    as (tx' & down & rx' & Hw' & Hr' & Hs'); [by apply Hresp|exact Hdown|].
  unfold remote_call. cbn [rm_client rm_server rm_up rm_down rm_host rm_agent app]. rewrite Hw.
  unfold agent_turn. cbn [rm_client rm_server rm_up rm_down rm_host rm_agent app]. rewrite Hr, Hh, Hw'.
  cbn [rm_client rm_server rm_up rm_down rm_host rm_agent app]. rewrite Hr'.
  eexists. split; [done|]. eexists _, _. split; [done|]. done.
Qed.

Lemma calls_local c w agent requests :
  linked c w agent → Forall request_fits requests → Forall reply_fits (calls (w, agent) requests).2 →
  (calls c requests).2 = (calls (w, agent) requests).2
  ∧ linked (calls c requests).1 (calls (w, agent) requests).1.1 (calls (w, agent) requests).1.2.
Proof.
  intros Hc Hreqs. revert c w agent Hc. induction Hreqs as [|request requests Hreq _ IH]; intros c w agent Hc; [done|].
  cbn [calls]. destruct (handle try_describe w agent request) as [[w' agent'] response] eqn:Hh.
  assert (call (w, agent) request = ((w', agent'), Ok response)) as Hlocal
    by (unfold call, local_client, LocalAgentClient; cbn; by rewrite Hh).
  rewrite Hlocal. intros Hfit.
  destruct (calls (w', agent') requests) as [l replies] eqn:Hrest. cbn [fst snd] in Hfit.
  apply Forall_cons in Hfit as [Hresp Hreplies].
  destruct (remote_call_local c w agent request w' agent' response) as (c' & Hcall & Hc'); [done..|].
  change (call c request) with (remote_call c request). rewrite Hcall.
  destruct (IH c' w' agent' Hc') as [Heq Hl]; rewrite Hrest in *; [done|].
  destruct (calls c' requests) as [c2 replies2]. cbn [fst snd] in *. by subst.
Qed.

(** *** From the first byte *)

Section dial.
Context {Rng Key H : Type} `{!NoiseOps Rng Key H S R} `{!NoiseHandshake Rng Key H S R}.
Context (sha256 : list Z → list Z) (sha256_length : ∀ bytes, length (sha256 bytes) = 32%nat).

(** C24. An agent behind the encrypted connection is the agent in the
    controller's process: with one token, on every schedule of the two
    threads, the handshake ends with a session on both sides, the greeting
    makes the agent serve, and then whatever the controller asks it gets, call
    by call, exactly what the same agent answers in process, and the host and
    the agent end in the same state, as long as messages read back as written and no frame exceeds the limit. *)
Theorem remote_agent_as_local rng rng' key key' token w agent requests :
  generate_keypair rng = Some key → generate_keypair rng' = Some key' →
  carried greeting_to_vec greeting_from_slice connect_greeting →
  Forall request_fits requests → Forall reply_fits (calls (w, agent) requests).2 →
  ∃ client server c,
    ends_in (mkDuplex (establish_initiator sha256 rng token) [] [] (establish_responder sha256 rng' token))
      (mkDuplex (Done (Ok client)) [] [] (Done (Ok server)))
    ∧ remote_up client server w agent = Ok c
    ∧ (calls c requests).2 = (calls (w, agent) requests).2
    ∧ (rm_host (calls c requests).1, rm_agent (calls c requests).1) = (calls (w, agent) requests).1.
Proof.
  intros Hkey Hkey' Hg Hreqs Hreplies.
  destruct (same_key_sessions sha256 sha256_length rng rng' key key' token token Hkey Hkey' eq_refl)
    as (tx & rx & tx' & rx' & Hd & Hs & Hs').
  set (client := mkSecure tx rx []) in *. set (server := mkSecure tx' rx' []) in *.
  destruct (frame_delivered greeting_to_vec greeting_from_slice connect_greeting client server)
    as (tx1 & up & rx1 & Hw & Hr & Hs1); [done..|].
  exists client, server, (mkRemote (mkSecure tx1 rx []) (Some (mkSecure tx' rx1 [])) [] [] w agent).
  split_and!; [exact Hd| |..].
  - unfold remote_up, connect_greet. rewrite Hw. cbn [mbind result_bind]. by rewrite Hr.
  - apply calls_local; [|done..]. by do 2 eexists.
  - edestruct (calls_local (mkRemote (mkSecure tx1 rx []) (Some (mkSecure tx' rx1 [])) [] [] w agent) w agent requests)
      as [_ (? & ? & -> & _)]; [by do 2 eexists|done..|]. cbn [rm_host rm_agent]. by destruct (calls _ _) as [[] ?].
Qed.
End dial.
End remote.
