(* ===== verification/AgentRole.v ===== *)
(** The agent's process: crates/cli/src/main.rs ([agent] past its arguments and
    [dial_in]).

    An agent listens for its controller or dials it, and serves one
    connection at a time with a fresh [LeaseAgent]; when the connection ends
    the agent is dropped.  How far a connection comes is its [Attempt]. *)

From S2P Require Import Prelude Words Identifier Text Types Workload Endpoint Protocol Provider.
From S2P Require Import Inventory Discover Execution Agent Probe Graph Occupancy Command Cluster.
From S2P Require Import Select Admit Scheduler Journal ServiceState Service Routing Absorb Controller.
From S2P Require Import Registration Server Links.

Section runtimes.
Context {W : Type} `{!Host W}.

(** [ProcessRuntime::is_running] *)
Definition process_is_running (w : W) (r : ProcessRuntime) (lease : LeaseId) : W * ProcessRuntime * bool :=
  let '(w, r, status) := process_status w r lease in (w, r, bool_decide (status = WorkRunning)).

(** [ContainerRuntime::is_running] *)
Definition container_is_running (w : W) (r : ContainerRuntime) (lease : LeaseId) : W * bool :=
  let '(w, status) := container_status w r lease in (w, bool_decide (status = WorkRunning)).

(** [ContainerRuntime::terminate]: without grace, and without a retry. *)
Definition container_terminate (w : W) (r : ContainerRuntime) (lease : LeaseId) :
    W * ContainerRuntime * result string bool :=
  match cr_containers r !! lease with
  | None => (w, r, Ok false)
  | Some name =>
      let r := set_containers (delete lease (cr_containers r)) r in
      let '(w, ran) := engine w (cr_engine r) ["rm"; "-f"; name] in
      (w, r, match ran with
             | Err err => Err (cr_engine r +:+ " rm: " +:+ err)
             | Ok out => Ok (out_success out)
             end)
  end.

(** [wait_until]: [turns] checks find the deadline still ahead. *)
Fixpoint wait_until (turns : nat) (check : W → W * bool) (w : W) : W * bool :=
  let '(w, ok) := check w in
  if ok then (w, true)
  else match turns with O => (w, false) | S turns => wait_until turns check w end.
End runtimes.

Section role.
Context {W : Type} `{!Host W} (try_describe : W → result string MachineDescription).
Context (rd : Readings) (pid : N) (cgroup_root : option string) (instance_id : string) (name : option string).

(** [build_runtime] on Linux. *)
Definition build_runtime : ProcessRuntime := processes_new cgroup_root.

(** [ExecutionSupervisor::new]; [salt] and [seq] name the container runtime. *)
Definition execution_new (salt seq : N) (process : ProcessRuntime) : ExecutionSupervisor :=
  mkSupervisor process (container_new rd (default "docker" (var rd "ARCHON_CONTAINER_ENGINE")) pid salt seq) ∅.

(** [LeaseAgent::new(runtime).with_identity(..)] *)
Definition fresh_agent (salt seq : N) : LeaseAgent :=
  with_identity (mkAgent provider_new (execution_new salt seq build_runtime) "" None) instance_id name.

(** The end of the scope: of the agent's parts only the process runtime has a
    destructor. *)
Definition drop_agent (w : W) (a : LeaseAgent) : W := (process_drop w (sv_process (ag_execution a))).1.

(** One connection, served until a request cannot be read or a response
    cannot be written. *)
Definition serve_connection (w : W) (salt seq : N) (requests : list (AgentRequest * bool)) :
    W * list AgentResponse :=
  let '(w, a, responses) := serve_requests try_describe w (fresh_agent salt seq) requests in
  (drop_agent w a, responses).

(** ** Dialling *)

Inductive Attempt :=
| Unreachable
| HandshakeFailed
| Established (written : bool) (salt seq : N) (requests : list (AgentRequest * bool)).

Definition greeting_of_machine (d : MachineDescription) : Greeting :=
  GreetAgent instance_id (default (md_name d) name) (md_cpus d) (md_memory_bytes d) (md_host_nodes d) (md_devices d).

(** One turn of the loop of [dial_in]: the greeting sent, the responses, and
    whether it sleeps before the next. *)
Definition dial_attempt (w : W) (attempt : Attempt) : W * option Greeting * list AgentResponse * bool :=
  match attempt with
  | Unreachable | HandshakeFailed => (w, None, [], true)
  | Established written salt seq requests =>
      match try_describe w with
      | Err _ => (w, None, [], true)
      | Ok d =>
          if written : bool then
            let '(w, responses) := serve_connection w salt seq requests in
            (w, Some (greeting_of_machine d), responses, false)
          else (w, None, [], true)
      end
  end.

Fixpoint dial_in (w : W) (attempts : list Attempt) : W * list (option Greeting * list AgentResponse) :=
  match attempts with
  | [] => (w, [])
  | attempt :: attempts =>
      let '(w, greeting, responses, _) := dial_attempt w attempt in
      let '(w, rest) := dial_in w attempts in (w, (greeting, responses) :: rest)
  end.

(** ** Listening *)

(** One connection of the listening agent: [greeting] is the first frame,
    where the handshake succeeded and it could be read. *)
Definition listen_connection (w : W) (greeting : option Greeting) (salt seq : N)
    (requests : list (AgentRequest * bool)) : W * list AgentResponse :=
  match greeting with
  | Some (GreetAgent _ _ _ _ _ _) => serve_connection w salt seq requests
  | _ => (w, [])
  end.

(** ** Facts *)

Lemma serve_requests_app w a l k :
  Forall (λ x, x.2 = true) l →
  serve_requests try_describe w a (l ++ k)
  = (let '(w, a, responses) := serve_requests try_describe w a l in
     let '(w, a, rest) := serve_requests try_describe w a k in (w, a, responses ++ rest)).
Proof.
  intros Hl. revert w a. induction Hl as [|[request written] l Hw _ IH]; intros w a.
  { cbn. by destruct (serve_requests try_describe w a k) as [[??]?]. }
  cbn in Hw. subst written. cbn [app serve_requests]. destruct (handle try_describe w a request) as [[w1 a1] response].
  rewrite IH. destruct (serve_requests try_describe w1 a1 l) as [[w2 a2] responses].
  by destruct (serve_requests try_describe w2 a2 k) as [[??]?].
Qed.

(** Nothing is served to a peer that did not declare itself a controller. *)
Lemma listen_requires_role w greeting salt seq requests :
  (∀ i n c m h d, greeting ≠ Some (GreetAgent i n c m h d)) →
  listen_connection w greeting salt seq requests = (w, []).
Proof. intros Hg. unfold listen_connection. repeat case_match; try done. by edestruct Hg. Qed.

(** A controller that comes back meets an agent that knows nothing: no
    endpoint is held, no workload runs, whatever the last connection did. *)
Theorem reconnected_agent_empty w salt seq lease :
  handle try_describe w (fresh_agent salt seq) EnumerateBindings
  = (w, fresh_agent salt seq, BindingsEnumerated [])
  ∧ (handle try_describe w (fresh_agent salt seq) (Status lease)).2 = Running lease false None.
Proof. split; reflexivity. Qed.

(** The connection's end stops every process workload that can be stopped; a
    container is not stopped by it, and the agent of the next connection
    confirms the stop of its lease without a command to the engine or any
    other act on the host. *)
Theorem reconnect_forgets_containers w a lease container salt seq session epoch :
  cr_containers (sv_containers (ag_execution a)) !! lease = Some container →
  drop_agent w a = (process_drop w (sv_process (ag_execution a))).1
  ∧ ∃ b, handle try_describe (drop_agent w a) (fresh_agent salt seq) (StopExecution lease session epoch)
         = (drop_agent w a, b, ExecutionStopped lease).
Proof.
  intros _. split; [done|]. generalize (drop_agent w a). intros w'. cbn [handle].
  unfold authorize_execution, check_control_generation. cbn [fresh_agent with_identity ag_provider provider_new rp_epoch rp_session].
  rewrite (proj2 (N.ltb_ge epoch 0)), (proj2 (N.ltb_ge session 0)) by lia.
  destruct (0 <? session); by eexists.
Qed.
End role.
