(* ===== verification/ServiceSpec.v ===== *)
(** What the controller promises about its dealings with agents.

    [step] is the abstract controller: it commits kernel commands, sends
    requests, each only under its guard ([send_ok]), takes up answers that were
    posted ([Ghost] keeps which), and records that a member stopped or a binding
    is active only with an accepted answer that says so.  Everything else it
    does is invisible ([same_authority]).  ServiceRefines shows that every
    operation of the concrete controller is a sequence of these steps. *)

From S2P Require Import Prelude Identifier Text Types Workload Endpoint Protocol Provider Graph.
From S2P Require Import Inventory Discover Occupancy Command Cluster ServiceState Service Routing.
From S2P Require Import Absorb.

(** ** Evidence *)

(** What the controller has been told, for the statements: every answer that
    was posted, and those it took up, in the session then in force. *)
Record Ghost := mkGhost {
  g_posted : list (Tag * AgentReply);
  g_accepted : list (Tag * AgentResponse);
}.

Definition accept_answer (tag : Tag) (response : AgentResponse) (g : Ghost) : Ghost :=
  mkGhost (g_posted g) (g_accepted g ++ [(tag, response)]).
Definition post_answers (answers : list (Tag * AgentReply)) (g : Ghost) : Ghost :=
  mkGhost (g_posted g ++ answers) (g_accepted g).

Definition known (g g' : Ghost) : Prop := g_posted g ⊆ g_posted g' ∧ g_accepted g ⊆ g_accepted g'.

#[export] Instance known_preorder : PreOrder known.
Proof. split; [by intros g|]. intros g1 g2 g3 [? ?] [? ?]. split; by etrans. Qed.

Lemma known_accept tag response g : known g (accept_answer tag response g).
Proof. split; [done|]. intros x ?. apply elem_of_app. by left. Qed.

(** The agent said that the member stopped, or a recovery's status query
    found it exited. *)
Definition stop_evidence (g : Ghost) (lease : LeaseId) (machine : NodeId) (session : u64) : Prop :=
  (TExecutionStop lease machine session, ExecutionStopped lease) ∈ g_accepted g
  ∨ ∃ asked code, (TStatus lease machine asked, Running lease false (Some code)) ∈ g_accepted g.

(** The answer to a recovery's status query; none is a member that is neither
    running nor known to have exited. *)
Definition status_evidence (g : Ghost) (lease : LeaseId) (machine : NodeId) (status : MemberStatus) : Prop :=
  status = mkMemberStatus false None
  ∨ ∃ asked, (TStatus lease machine asked, Running lease (ms_running status) (ms_exit_code status)) ∈ g_accepted g.

(** The agent acknowledged this generation; or, when its machine returned, it
    reported the lease's member running or exited and, the lease being active,
    enumerated the endpoint with this binding active at this fence. *)
Definition activation_evidence (s : NodeService) (g : Ghost) (binding : BindingId) (b : Binding) : Prop :=
  (∃ phase got, (TBinding binding (binding_session b) (binding_fence b) phase, RActivated got) ∈ g_accepted g)
  ∨ ∃ machine lease status, machine_of (c_graph (ns_cluster s)) (binding_node b) = Some machine
      ∧ binding ∈ bindings_for (ns_cluster s) lease
      ∧ status_evidence g lease machine status
      ∧ ms_running status || bool_decide (is_Some (ms_exit_code status)) = true
      ∧ (lease_is_active s lease = true →
         ∃ asked endpoints, (TEnumerate machine asked, BindingsEnumerated endpoints) ∈ g_accepted g
           ∧ proves (Some endpoints) b = true).

(** ** Guards *)

Create HintDb refine discriminated.

Section codec.
Context {codec : PathCodec}.

(** When a request may be sent to a machine's agent, and what it says. *)
Definition send_ok (s : NodeService) (g : Ghost) (machine : NodeId) (tag : Tag) (request : AgentRequest) : Prop :=
  match tag with
  | TBinding binding session fence phase =>
      (* the recorded generation, and no release while the member may run *)
      ∃ b epoch, c_bindings (ns_cluster s) !! binding = Some b
        ∧ binding_session b = session ∧ binding_fence b = fence
        ∧ machine_of (c_graph (ns_cluster s)) (binding_node b) = Some machine
        ∧ (lease_is_terminal s (binding_lease b) = true → lease_has_program s (binding_lease b) = true →
           is_Some (session_of s machine) → member_stop_proven s (binding_lease b) machine = true)
        ∧ request = binding_request phase binding b session fence epoch
  | TExecutionStart lease m session =>
      (* to the session in force, of an active lease all whose bindings are
         acknowledged in the generation the kernel records, once per session;
         the submitted program with the lease's limits and devices there *)
      m = machine ∧ session_of s machine = Some session
      ∧ lease_is_active s lease = true ∧ all_provider_active s lease = true
      ∧ ns_recovering s !! machine = None
      ∧ ((lease, machine, session) ∉ ns_execution_started s) ∧ (tag ∉ ns_inflight s)
      ∧ ∃ workload owner limits, ss_requests (ns_state s) !! lease = Some (workload, owner)
          ∧ has_program (w_execution workload) = true
          ∧ lease_limits_on_machine s lease machine = Ok limits
          ∧ let e := w_execution workload in
            request = StartExecution lease session (c_epoch (ns_cluster s)) (ex_command e) limits
                        (default "" (ex_image e)) (ex_storage e) (ex_ports e) (ex_grace_secs e)
                        (lease_devices_on_machine s lease machine)
  | TExecutionStop lease m session =>
      m = machine ∧ session_of s machine = Some session
      ∧ lease_is_terminal s lease = true ∧ lease_has_program s lease = true
      ∧ ((lease, machine, session) ∉ ns_execution_stopped s) ∧ (tag ∉ ns_inflight s)
      ∧ request = StopExecution lease session (c_epoch (ns_cluster s))
  | TStatus lease m session =>
      m = machine ∧ session_of s machine = Some session ∧ (tag ∉ ns_inflight s)
      ∧ request = Status lease
  | TEnumerate m session =>
      m = machine ∧ (∃ r, ns_recovering s !! machine = Some r ∧ rec_session r = session)
      ∧ request = EnumerateBindings
  | TStrayFence m session node provider scope binding fence =>
      (* of a recovering machine, in the session in force, an endpoint that its
         enumeration reported open *)
      m = machine ∧ is_Some (ns_recovering s !! machine) ∧ session_of s machine = Some session
      ∧ (∃ asked endpoints en, (TEnumerate machine asked, BindingsEnumerated endpoints) ∈ g_accepted g
           ∧ en ∈ endpoints ∧ en_open en = true ∧ en_binding en = Some binding ∧ en_node en = node
           ∧ en_provider en = provider ∧ en_scope en = scope ∧ en_accepted_fence en = fence)
      ∧ request = Fence binding 0 node provider scope session fence (c_epoch (ns_cluster s))
  | TProbe m => m = machine ∧ request = Status 0
  end.

(** ** Steps *)

(** The evidence in a recovery's record. *)
Definition holds_status (m : gmap N MachineRecovery) (machine : NodeId) (lease : LeaseId) (status : MemberStatus) : Prop :=
  ∃ r, m !! machine = Some r ∧ rec_members r !! lease = Some (Some status).
Definition holds_endpoints (m : gmap N MachineRecovery) (machine : NodeId) (endpoints : list EnumeratedEndpoint) : Prop :=
  ∃ r, m !! machine = Some r ∧ rec_endpoints r = Some endpoints.

(** Recoveries only lose evidence. *)
Definition evidence_lost (m m' : gmap N MachineRecovery) : Prop :=
  (∀ machine lease status, holds_status m' machine lease status → holds_status m machine lease status)
  ∧ ∀ machine endpoints, holds_endpoints m' machine endpoints → holds_endpoints m machine endpoints.

(** The kernel state, its records, the links and the proofs are unchanged, no
    started member is forgotten; outstanding calls and the evidence of
    recoveries only disappear. *)
Record same_authority (s s' : NodeService) : Prop := {
  sa_cluster : ns_cluster s' = ns_cluster s;
  sa_agents : ns_agents s' = ns_agents s;
  sa_inflight : ns_inflight s' ⊆ ns_inflight s;
  sa_inbox : ns_inbox s' = ns_inbox s ∨ ns_inbox s' = [];
  sa_recovering : evidence_lost (ns_recovering s) (ns_recovering s');
  sa_activations : ns_provider_activations s' = ns_provider_activations s;
  sa_started : ns_execution_started s ⊆ ns_execution_started s';
  sa_stopped : ns_execution_stopped s' = ns_execution_stopped s;
  sa_durable : ns_durable s' = ns_durable s;
  sa_journal : ns_journal s' = ns_journal s;
  sa_history : ns_history s' = ns_history s;
}.

(** The answer a worker's first job gets. *)
Definition work_answer (s : NodeService) (machine : NodeId) (reply : AgentReply) : list (Tag * AgentReply) :=
  match ns_agents s !! machine with
  | Some h => match ah_jobs h with (tag, _) :: _ => [(tag, reply)] | [] => [] end
  | None => []
  end.

Inductive step : NodeService * Ghost → NodeService * Ghost → Prop :=
| step_frame s s' g : same_authority s s' → step (s, g) (s', g)
| step_commit s g command : step (s, g) ((commit command s).1, g)
| step_persist s g : step (s, g) (persist None s, g)
| step_clock s g now : step (s, g) (set_cluster (set_now now (ns_cluster s)) s, g)
| step_send s g machine tag request :
    send_ok s g machine tag request → step (s, g) (service_dispatch machine tag request s, g)
| step_accept s g tag response :
    (* an answer that was posted, not of a replaced session *)
    (tag, Ok response) ∈ g_posted g → stale_answer s tag = false → step (s, g) (s, accept_answer tag response g)
| step_activation s g binding b :
    (* the kernel holds this very generation active, and an answer proves it *)
    c_bindings (ns_cluster s) !! binding = Some b → binding_state b = BActive → activation_evidence s g binding b →
    step (s, g) (set_provider_activations
                   ({[(binding, binding_session b, binding_fence b)]} ∪ ns_provider_activations s) s, g)
| step_stopped s g lease machine session :
    (* only for the session in force, and an answer proves it *)
    session_of s machine = Some session → stop_evidence g lease machine session →
    step (s, g) (set_execution_stopped ({[(lease, machine, session)]} ∪ ns_execution_stopped s) s, g)
| step_status s g lease machine status :
    (* a recovery is told what became of a member *)
    status_evidence g lease machine status →
    step (s, g) (over_recovery machine (λ r, set_members (<[lease := Some status]> (rec_members r)) r) s, g)
| step_enumerated s g machine asked endpoints :
    (TEnumerate machine asked, BindingsEnumerated endpoints) ∈ g_accepted g →
    step (s, g) (over_recovery machine (set_rec_endpoints (Some endpoints)) s, g)
| step_answer s g tag reply :
    (* the environment: any answer, at any time *)
    step (s, g) (inbox_post tag reply s, post_answers [(tag, reply)] g)
| step_work s g machine reply :
    step (s, g) (deliver machine reply s, post_answers (work_answer s machine reply) g)
| step_link s g machine caps :
    (* a fresh worker *)
    step (s, g) (set_agents (<[machine := mkHandle true []]> (ns_agents s))
                   (set_execution_capabilities (<[machine := caps]> (ns_execution_capabilities s)) s), g).

(** ** Grounded states *)

(** What is in the inbox was posted, what recoveries hold was accepted, and
    what was accepted was posted. *)
Record grounded (s : NodeService) (g : Ghost) : Prop := {
  gr_inbox : ns_inbox s ⊆ g_posted g;
  gr_status : ∀ machine lease status, holds_status (ns_recovering s) machine lease status →
    status_evidence g lease machine status;
  gr_endpoints : ∀ machine endpoints, holds_endpoints (ns_recovering s) machine endpoints →
    ∃ asked, (TEnumerate machine asked, BindingsEnumerated endpoints) ∈ g_accepted g;
  gr_accepted : ∀ tag response, (tag, response) ∈ g_accepted g → (tag, Ok response) ∈ g_posted g;
}.

Lemma status_evidence_known g g' lease machine status :
  known g g' → status_evidence g lease machine status → status_evidence g' lease machine status.
Proof. intros [_ Hk] [->|[asked Hin]]; [by left|]. right. exists asked. by apply Hk. Qed.

(** Steps other than posts keep a state grounded. *)
Lemma grounded_same s s' g :
  ns_inbox s' = ns_inbox s ∨ ns_inbox s' = [] → evidence_lost (ns_recovering s) (ns_recovering s') →
  grounded s g → grounded s' g.
Proof.
  intros Hin [Hst Hen] [H1 H2 H3 H4]. split; [|naive_solver..]. destruct Hin as [->| ->]; [done|].
  by intros x ?%elem_of_nil.
Qed.

Lemma evidence_lost_refl m : evidence_lost m m.
Proof. by split. Qed.

(** From any knowledge that includes [g], the controller gets from [s] to [s']
    without an answer being posted. *)
Definition ksteps (g : Ghost) (s s' : NodeService) : Prop :=
  ∀ g1, known g g1 → grounded s g1 →
  ∃ g2, rtc step (s, g1) (s', g2) ∧ known g1 g2 ∧ g_posted g2 = g_posted g1 ∧ grounded s' g2.

Definition no_ghost : Ghost := mkGhost [] [].
Definition steps : NodeService → NodeService → Prop := ksteps no_ghost.

Lemma known_nothing g : known no_ghost g.
Proof. split; by intros x ?%elem_of_nil. Qed.

(** ** Composition *)

Definition refines {A} (m : SM A) : Prop := ∀ s, steps s (m s).1.
Definition refines_fn (f : NodeService → NodeService) : Prop := ∀ s, steps s (f s).

Lemma ksteps_refl g s : ksteps g s s.
Proof. intros g1 _ Hg. exists g1. split_and!; try done; reflexivity. Qed.

Lemma ksteps_trans g s1 s2 s3 : ksteps g s1 s2 → ksteps g s2 s3 → ksteps g s1 s3.
Proof.
  intros H1 H2 g1 Hk Hg. destruct (H1 g1 Hk Hg) as (g2 & Hs & Hk2 & Hp & Hg2).
  destruct (H2 g2) as (g3 & Hs' & Hk3 & Hp' & Hg3); [by etrans|done|].
  exists g3. split_and!; [by etrans|by etrans|by rewrite Hp'|done].
Qed.

Lemma ksteps_weaken g g' s s' : ksteps g s s' → known g g' → ksteps g' s s'.
Proof. intros Hs Hk g1 Hk1. apply Hs. by etrans. Qed.

Lemma steps_known g s s' : steps s s' → ksteps g s s'.
Proof. intros Hs. eapply ksteps_weaken; [exact Hs|apply known_nothing]. Qed.

(** What is known may be used: the evidence of the state itself. *)
Lemma ksteps_grounded g s s' : (∀ g1, known g g1 → grounded s g1 → ksteps g1 s s') → ksteps g s s'.
Proof. intros Hs g1 Hk Hg. by apply (Hs g1 Hk Hg). Qed.

(** Taking up an answer. *)
Lemma ksteps_accept g tag response s s' :
  (tag, Ok response) ∈ g_posted g → stale_answer s tag = false →
  ksteps (accept_answer tag response g) s s' → ksteps g s s'.
Proof.
  intros Hin Hstale Hrest g1 Hk Hg. pose proof Hk as [Hp Ha].
  assert (known g1 (accept_answer tag response g1)) as Hk1 by apply known_accept.
  destruct (Hrest (accept_answer tag response g1)) as (g2 & Hs & Hk2 & Hpost & Hg2).
  - split; [done|]. cbn. intros x. rewrite !elem_of_app. intros [?|?]; [left; by apply Ha|by right].
  - destruct Hg as [H1 H2 H3 H4]. split; cbn.
    + done.
    + intros m l st Hst. eapply status_evidence_known; [exact Hk1|by apply H2].
    + intros m es Hes. destruct (H3 m es Hes) as [asked ?]. exists asked. by apply Hk1.
    + intros t r [?|[= -> ->]%list_elem_of_singleton]%elem_of_app; [by apply H4|by apply Hp].
  - exists g2. split_and!; [|by etrans|done|done]. eapply rtc_l; [|exact Hs]. apply step_accept; [by apply Hp|done].
Qed.

(** One step that posts nothing and brings no evidence. *)
Lemma ksteps_step g s s' :
  (∀ g1, known g g1 → step (s, g1) (s', g1)) → ns_inbox s' = ns_inbox s ∨ ns_inbox s' = [] →
  evidence_lost (ns_recovering s) (ns_recovering s') → ksteps g s s'.
Proof.
  intros Hstep Hin Hev g1 Hk Hg. exists g1. split_and!; [by apply rtc_once, Hstep|done|done|].
  by eapply grounded_same.
Qed.

Lemma steps_refl s : steps s s.
Proof. apply ksteps_refl. Qed.
Lemma steps_trans s1 s2 s3 : steps s1 s2 → steps s2 s3 → steps s1 s3.
Proof. apply ksteps_trans. Qed.
Lemma steps_frame s s' : same_authority s s' → steps s s'.
Proof. intros Hs. apply ksteps_step; [intros; by apply step_frame|apply Hs|apply Hs]. Qed.

End codec.

#[export] Hint Resolve steps_refl : refine.

(** Updates of fields that carry no authority. *)
Ltac frame_step :=
  apply steps_frame; constructor; try reflexivity; simpl;
  first [by left|by right|apply evidence_lost_refl|set_solver].

Section compose.
Context {codec : PathCodec}.

Lemma commit_evidence command s :
  ns_inbox (commit command s).1 = ns_inbox s ∧ ns_recovering (commit command s).1 = ns_recovering s.
Proof.
  unfold commit, persist. destruct (cluster_apply command (ns_cluster s)) as [c [es|e]]; [|done].
  cbn [ns_durable set_history set_cluster fst]. by destruct (ns_durable s).
Qed.

Lemma refines_commit command : refines (commit command).
Proof.
  intros s. destruct (commit_evidence command s) as [Hi Hr].
  apply ksteps_step; [intros; apply step_commit|by left|rewrite Hr; apply evidence_lost_refl].
Qed.

Lemma refines_ret {A} (a : A) : refines (mret a).
Proof. intros s. apply steps_refl. Qed.

Lemma refines_get : refines sget.
Proof. intros s. apply steps_refl. Qed.

Lemma refines_lift {A} (r : result Error A) : refines (slift r).
Proof. intros s. apply steps_refl. Qed.

Lemma refines_modify f : refines_fn f → refines (smodify f).
Proof. intros Hf s. apply Hf. Qed.

Lemma refines_bind {A B} (m : SM A) (f : A → SM B) :
  refines m → (∀ a, refines (f a)) → refines (m ≫= f).
Proof.
  intros Hm Hf s. specialize (Hm s). unfold mbind, SM_bind.
  destruct (m s) as [s' [a|e]]; simpl in *; [|done].
  eapply steps_trans; [done|apply Hf].
Qed.

Lemma refines_for {A} (f : A → SM unit) l : (∀ x, refines (f x)) → refines (sfor f l).
Proof.
  intros Hf. induction l as [|x l IH]; simpl; [apply refines_ret|].
  apply refines_bind; [apply Hf|]. by intros [].
Qed.

Lemma refines_if {A} (b : bool) (m m' : SM A) : refines m → refines m' → refines (if b then m else m').
Proof. by destruct b. Qed.

Lemma refines_foldl {A} (f : NodeService → A → NodeService) l :
  (∀ x, refines_fn (λ s, f s x)) → refines_fn (λ s, foldl f s l).
Proof.
  intros Hf. induction l as [|x l IH]; intros s; simpl; [apply steps_refl|].
  eapply steps_trans; [apply (Hf x)|apply IH].
Qed.

Lemma refines_commit_lenient command : refines_fn (commit_lenient command).
Proof.
  intros s. unfold commit_lenient, try_commit_lenient.
  pose proof (refines_commit command s). by destruct (commit command s).
Qed.

Lemma refines_persist : refines_fn (persist None).
Proof.
  intros s. apply ksteps_step; [intros; apply step_persist|left|]; unfold persist; destruct (ns_durable s);
    done || apply evidence_lost_refl.
Qed.

Lemma refines_over_state f : refines_fn (over_state f).
Proof. intros s. frame_step. Qed.
Lemma refines_set_pending v : refines_fn (set_pending v).
Proof. intros s. frame_step. Qed.
Lemma refines_enqueue workload owner : refines_fn (enqueue workload owner).
Proof. intros s. apply refines_over_state. Qed.

(** Changes of a recovery that bring no evidence. *)
Definition keeps_evidence (f : MachineRecovery → MachineRecovery) : Prop :=
  ∀ r, (∀ lease status, rec_members (f r) !! lease = Some (Some status) → rec_members r !! lease = Some (Some status))
     ∧ rec_endpoints (f r) = rec_endpoints r.

Lemma refines_over_recovery machine f : keeps_evidence f → refines_fn (over_recovery machine f).
Proof.
  intros Hf s. apply steps_frame. constructor; try reflexivity; [by left|]. cbn. split.
  - intros m lease status (r & Hr & Hst). rewrite lookup_alter_Some in Hr.
    destruct Hr as [(-> & r0 & Hr & ->)|[_ Hr]]; [|by exists r]. exists r0. split; [done|]. by apply Hf.
  - intros m endpoints (r & Hr & Hen). rewrite lookup_alter_Some in Hr.
    destruct Hr as [(-> & r0 & Hr & ->)|[_ Hr]]; [|by exists r]. exists r0. split; [done|].
    by rewrite <-(proj2 (Hf r0)).
Qed.

Lemma keeps_expect lease : keeps_evidence (expect_member lease).
Proof.
  intros r. split; [|done]. intros l status. unfold expect_member. cbn. rewrite lookup_insert_Some.
  intros [[-> Hst]|[_ Hst]]; [|done]. destruct (rec_members r !! l) as [[]|]; cbn in Hst; congruence.
Qed.
Lemma keeps_delete lease : keeps_evidence (λ r, set_members (delete lease (rec_members r)) r).
Proof. intros r. split; [|done]. intros l status. cbn. rewrite lookup_delete_Some. by intros [_ ?]. Qed.
Lemma keeps_stray f : keeps_evidence (λ r, set_stray_fences (f r) r).
Proof. done. Qed.

(** ** What sending leaves alone *)

Lemma dispatch_cluster machine tag request s :
  ns_cluster (service_dispatch machine tag request s) = ns_cluster s.
Proof.
  unfold service_dispatch. simpl.
  destruct (ns_agents s !! machine) as [h|]; [|done]. by destruct (ah_alive h).
Qed.
Lemma dispatch_state machine tag request s :
  ns_state (service_dispatch machine tag request s) = ns_state s.
Proof.
  unfold service_dispatch. simpl.
  destruct (ns_agents s !! machine) as [h|]; [|done]. by destruct (ah_alive h).
Qed.
Lemma dispatch_activations machine tag request s :
  ns_provider_activations (service_dispatch machine tag request s) = ns_provider_activations s.
Proof.
  unfold service_dispatch. simpl.
  destruct (ns_agents s !! machine) as [h|]; [|done]. by destruct (ah_alive h).
Qed.
Lemma dispatch_pending machine tag request s :
  ns_pending (service_dispatch machine tag request s) = ns_pending s.
Proof.
  unfold service_dispatch. simpl.
  destruct (ns_agents s !! machine) as [h|]; [|done]. by destruct (ah_alive h).
Qed.
Lemma dispatch_held machine tag request s :
  ns_held_effects (service_dispatch machine tag request s) = ns_held_effects s.
Proof.
  unfold service_dispatch. simpl.
  destruct (ns_agents s !! machine) as [h|]; [|done]. by destruct (ah_alive h).
Qed.
Lemma dispatch_evidence machine tag request s :
  ns_inbox (service_dispatch machine tag request s) = ns_inbox s
  ∧ ns_recovering (service_dispatch machine tag request s) = ns_recovering s.
Proof.
  unfold service_dispatch. simpl.
  destruct (ns_agents s !! machine) as [h|]; [|done]. by destruct (ah_alive h).
Qed.

Lemma ksteps_send g s machine tag request :
  (∀ g1, known g g1 → send_ok s g1 machine tag request) → ksteps g s (service_dispatch machine tag request s).
Proof.
  intros Hok. destruct (dispatch_evidence machine tag request s) as [Hi Hr].
  apply ksteps_step; [intros; by apply step_send, Hok|by left|rewrite Hr; apply evidence_lost_refl].
Qed.

(** ** With answers arriving *)

(** As [steps], with whatever answers arrive in between. *)
Definition reaches (s s' : NodeService) : Prop :=
  ∀ g, grounded s g → ∃ g', rtc step (s, g) (s', g') ∧ grounded s' g'.

Lemma reaches_steps s s' : steps s s' → reaches s s'.
Proof. intros Hst g Hg. destruct (Hst g (known_nothing g) Hg) as (g' & Hs & _ & _ & Hg'). eauto. Qed.
Lemma reaches_refl s : reaches s s.
Proof. apply reaches_steps, steps_refl. Qed.
Lemma reaches_trans s1 s2 s3 : reaches s1 s2 → reaches s2 s3 → reaches s1 s3.
Proof.
  intros H1 H2 g Hg. destruct (H1 g Hg) as (g1 & Hs1 & Hg1). destruct (H2 g1 Hg1) as (g2 & Hs2 & Hg2).
  exists g2. split; [by etrans|done].
Qed.

Lemma grounded_post s g answers :
  grounded s g → grounded (set_inbox (ns_inbox s ++ answers) s) (post_answers answers g).
Proof.
  intros [H1 H2 H3 H4]. split; cbn; [|done|done|].
  - intros x. rewrite !elem_of_app. intros [?|?]; [left; by apply H1|by right].
  - intros tag response ?. apply elem_of_app. left. by apply H4.
Qed.

Lemma deliver_posts machine reply s :
  ns_inbox (deliver machine reply s) = ns_inbox s ++ work_answer s machine reply
  ∧ ns_recovering (deliver machine reply s) = ns_recovering s.
Proof.
  unfold deliver, work_answer. destruct (ns_agents s !! machine) as [h|]; [|by rewrite app_nil_r].
  destruct (ah_jobs h) as [|[tag request] jobs]; [by rewrite app_nil_r|done].
Qed.

Lemma grounded_deliver machine reply s g :
  grounded s g → grounded (deliver machine reply s) (post_answers (work_answer s machine reply) g).
Proof.
  intros Hg%(grounded_post _ _ (work_answer s machine reply)). destruct (deliver_posts machine reply s) as [Hi Hr].
  eapply (grounded_same (set_inbox (ns_inbox s ++ work_answer s machine reply) s)); [left; exact Hi| |exact Hg].
  rewrite Hr. apply evidence_lost_refl.
Qed.

Lemma reaches_work machine reply s : reaches s (deliver machine reply s).
Proof. intros g Hg. eexists. split; [apply rtc_once, step_work|by apply grounded_deliver]. Qed.
Lemma reaches_answer tag reply s : reaches s (inbox_post tag reply s).
Proof. intros g Hg. eexists. split; [apply rtc_once, step_answer|by apply grounded_post]. Qed.

(** Every state is grounded in some knowledge. *)
Definition recovery_evidence (machine : NodeId) (r : MachineRecovery) : list (Tag * AgentResponse) :=
  omap (λ '(lease, status), status ← status;
          Some (TStatus lease machine 0, Running lease (ms_running status) (ms_exit_code status)))
    (map_to_list (rec_members r))
  ++ match rec_endpoints r with
     | Some endpoints => [(TEnumerate machine 0, BindingsEnumerated endpoints)]
     | None => []
     end.

Lemma grounded_exists s : ∃ g, grounded s g.
Proof.
  set (accepted := map_to_list (ns_recovering s) ≫= λ '(machine, r), recovery_evidence machine r).
  assert (∀ machine r x, ns_recovering s !! machine = Some r → x ∈ recovery_evidence machine r → x ∈ accepted) as Hin.
  { intros machine r x Hr Hx. apply list_elem_of_bind. exists (machine, r). split; [done|]. by apply elem_of_map_to_list. }
  exists (mkGhost (ns_inbox s ++ ((λ '(tag, response), (tag, Ok response)) <$> accepted)) accepted). split; cbn.
  - intros x ?. apply elem_of_app. by left.
  - intros machine lease status (r & Hr & Hst). right. exists 0. eapply Hin; [exact Hr|]. apply elem_of_app. left.
    apply list_elem_of_omap. exists (lease, Some status). split; [by apply elem_of_map_to_list|done].
  - intros machine endpoints (r & Hr & Hen). exists 0. eapply Hin; [exact Hr|]. apply elem_of_app. right.
    rewrite Hen. by apply list_elem_of_singleton.
  - intros tag response Hx. apply elem_of_app. right. apply list_elem_of_fmap. by exists (tag, response).
Qed.

(** A property of the service that every step keeps. *)
Lemma reaches_invariant (P : NodeService → Prop) s s' :
  (∀ a a', step a a' → P a.1 → P a'.1) → reaches s s' → P s → P s'.
Proof.
  intros Hstep Hreach Hs. destruct (grounded_exists s) as [g Hg]. destruct (Hreach g Hg) as (g' & Hrun & _).
  change (P (s', g').1). change (P (s, g).1) in Hs. revert Hs. induction Hrun; eauto.
Qed.
End compose.

#[export] Hint Resolve refines_commit refines_ret refines_get refines_lift refines_modify
  refines_bind refines_for refines_if refines_foldl refines_commit_lenient refines_persist
  refines_over_state refines_set_pending refines_enqueue refines_over_recovery keeps_expect keeps_delete keeps_stray
  : refine.
