(* ===== verification/ServiceRefines.v ===== *)
(** The controller's operations are sequences of the steps of ServiceSpec. *)

From S2P Require Import Prelude Identifier Text Types Workload Endpoint Protocol Provider Graph.
From S2P Require Import Inventory Discover Occupancy Command Cluster Handlers Steps Authority Bindings.
From S2P Require Import Select Admit Scheduler ServiceState Service Routing Absorb Controller.
From S2P Require Import Registration ServiceSpec.

Section operations.
Context {codec : PathCodec}.

(** ** Sending *)

Lemma steps_send s machine tag request :
  (∀ g, send_ok s g machine tag request) → steps s (service_dispatch machine tag request s).
Proof. intros Hok. apply ksteps_send. intros. apply Hok. Qed.

(** What the guards read is not changed by sending. *)
Record same_view (s s' : NodeService) : Prop := {
  sv_cluster : ns_cluster s' = ns_cluster s;
  sv_state : ns_state s' = ns_state s;
  sv_activations : ns_provider_activations s' = ns_provider_activations s;
}.

Lemma same_view_refl s : same_view s s.
Proof. done. Qed.
Lemma same_view_trans s1 s2 s3 : same_view s1 s2 → same_view s2 s3 → same_view s1 s3.
Proof. intros [] []. constructor; congruence. Qed.
Lemma dispatch_view machine tag request s : same_view s (service_dispatch machine tag request s).
Proof. constructor; [apply dispatch_cluster|apply dispatch_state|apply dispatch_activations]. Qed.

Lemma view_active s s' lease : same_view s s' → lease_is_active s' lease = lease_is_active s lease.
Proof. intros [H _ _]. unfold lease_is_active. by rewrite H. Qed.
Lemma view_terminal s s' lease : same_view s s' → lease_is_terminal s' lease = lease_is_terminal s lease.
Proof. intros [H _ _]. unfold lease_is_terminal. by rewrite H. Qed.
Lemma view_program s s' lease : same_view s s' → lease_has_program s' lease = lease_has_program s lease.
Proof. intros [_ H _]. unfold lease_has_program. by rewrite H. Qed.
Lemma view_provider_active s s' lease :
  same_view s s' → all_provider_active s' lease = all_provider_active s lease.
Proof.
  intros [Hc _ Ha]. unfold all_provider_active, binding_acknowledged. by rewrite Hc, Ha.
Qed.

Lemma status_refines lease machine : refines_fn (request_status_on_machine lease machine).
Proof.
  intros s. unfold request_status_on_machine.
  destruct (session_of s machine) as [session|] eqn:Hs; [|apply steps_refl].
  destruct (decide _) as [|Hin]; [apply steps_refl|]. by apply steps_send.
Qed.

Lemma request_status_refines lease : refines_fn (request_status lease).
Proof.
  intros s. unfold request_status. generalize (lease_machines s lease). intros l.
  apply (refines_foldl (λ s machine, request_status_on_machine lease machine s) l).
  intros machine. apply status_refines.
Qed.

(** *** Starts and stops *)

Section start.
Context (lease : LeaseId) (execution : ExecutionSpec).

(** The lease runs this program. *)
Definition lease_runs (s : NodeService) : Prop :=
  ∃ w o, ss_requests (ns_state s) !! lease = Some (w, o) ∧ w_execution w = execution ∧ has_program execution = true.

Lemma start_view machine s : same_view s (start_on_machine lease execution machine s).1.
Proof.
  unfold start_on_machine. repeat case_match; try apply same_view_refl. apply dispatch_view.
Qed.

Lemma start_steps machine s :
  lease_is_active s lease = true → lease_runs s → all_provider_active s lease = true →
  steps s (start_on_machine lease execution machine s).1.
Proof.
  intros Ha (w & o & Hr & <- & Hp) Hall. unfold start_on_machine. case_match; [apply steps_refl|].
  destruct (session_of s machine) as [session|] eqn:Hs; [|apply steps_refl].
  do 2 (case_match; [apply steps_refl|]). destruct (lease_limits_on_machine s lease machine) as [limits|e] eqn:Hl;
    [|apply steps_refl].
  apply steps_send. intros g. split_and!; try done; [by apply eq_None_not_Some|]. by exists w, o, limits.
Qed.

Lemma start_all_steps machines s :
  lease_is_active s lease = true → lease_runs s → all_provider_active s lease = true →
  steps s (sfor (start_on_machine lease execution) machines s).1.
Proof.
  revert s. induction machines as [|m machines IH]; intros s Ha Hp Hall; [apply steps_refl|].
  cbn [sfor]. unfold mbind, SM_bind.
  pose proof (start_steps m s Ha Hp Hall) as Hsteps. pose proof (start_view m s) as Hview.
  destruct (start_on_machine lease execution m s) as [s' [[]|e]]; [|done]. simpl in *.
  eapply steps_trans; [done|]. apply IH.
  - by rewrite (view_active s s').
  - unfold lease_runs. by rewrite (sv_state _ _ Hview).
  - by rewrite (view_provider_active s s').
Qed.
End start.

Lemma maybe_start_refines lease : refines (maybe_start_executions lease).
Proof.
  intros s. unfold maybe_start_executions.
  destruct (lease_is_active s lease) eqn:Ha; [|apply steps_refl]. simpl.
  destruct (ss_requests (ns_state s) !! lease) as [[w o]|] eqn:Hr; [|apply steps_refl].
  destruct (has_program (w_execution w)) eqn:Hp; [|apply steps_refl]. simpl.
  destruct (all_provider_active s lease) eqn:Hall; [|apply steps_refl]. simpl.
  apply start_all_steps; [done| |done]. by exists w, o.
Qed.

Lemma stop_view lease s machine : same_view s (stop_on_machine lease s machine).
Proof. unfold stop_on_machine. repeat case_match; try apply same_view_refl. apply dispatch_view. Qed.

Lemma stop_steps lease machines s :
  lease_is_terminal s lease = true → lease_has_program s lease = true →
  steps s (foldl (stop_on_machine lease) s machines).
Proof.
  revert s. induction machines as [|m machines IH]; intros s Ht Hp; [apply steps_refl|]. simpl.
  pose proof (stop_view lease s m) as Hview.
  eapply steps_trans; [|apply IH; [by rewrite (view_terminal s)|by rewrite (view_program s)]].
  unfold stop_on_machine. destruct (session_of s m) as [session|] eqn:Hs; [|apply steps_refl].
  repeat case_match; try apply steps_refl. by apply steps_send.
Qed.

Lemma maybe_stop_refines lease : refines_fn (maybe_stop_executions lease).
Proof.
  intros s. unfold maybe_stop_executions.
  destruct (lease_is_terminal s lease) eqn:Ht, (lease_has_program s lease) eqn:Hp; simpl;
    try apply steps_refl. by apply stop_steps.
Qed.

Hint Resolve status_refines request_status_refines maybe_start_refines maybe_stop_refines
  : refine.

Lemma refines_fn_comp f g : refines_fn f → refines_fn g → refines_fn (λ s, f (g s)).
Proof. intros Hf Hg s. eapply steps_trans; [apply Hg|apply Hf]. Qed.

Lemma maybe_activate_refines lease : refines_fn (maybe_activate lease).
Proof.
  intros s. unfold maybe_activate. destruct (c_leases (ns_cluster s) !! lease); [|apply steps_refl].
  repeat case_match; try apply steps_refl.
  eapply steps_trans; [apply refines_commit_lenient|].
  apply (refines_foldl (λ s binding, commit_lenient (ActivateBinding binding) s)).
  intros binding. apply refines_commit_lenient.
Qed.
Hint Resolve maybe_activate_refines : refine.

(** ** What a commit leaves alone *)

Record same_session_view (s s' : NodeService) : Prop := {
  sw_recovering : ns_recovering s' = ns_recovering s;
  sw_stopped : ns_execution_stopped s' = ns_execution_stopped s;
  sw_inflight : ns_inflight s' = ns_inflight s;
  sw_state : ns_state s' = ns_state s;
  sw_agents : ns_agents s' = ns_agents s;
  sw_held : ns_held_effects s' = ns_held_effects s;
}.

Lemma commit_view command s : same_session_view s (commit command s).1.
Proof.
  unfold commit, persist. destruct (cluster_apply command (ns_cluster s)) as [c [es|e]]; [|done].
  simpl. by destruct (ns_durable s).
Qed.
Lemma commit_lenient_view command s : same_session_view s (commit_lenient command s).
Proof.
  unfold commit_lenient, try_commit_lenient. pose proof (commit_view command s).
  by destruct (commit command s).
Qed.

Lemma commit_Ok command s s' :
  commit command s = (s', Ok ()) →
  ∃ c es, dispatch command (ns_cluster s) = (c, Ok es)
    ∧ ns_cluster s' = set_log (c_log c ++ [command]) c
    ∧ ns_pending s' = ns_pending s ++ es.
Proof.
  unfold commit, persist, cluster_apply. rewrite bind_run.
  destruct (dispatch command (ns_cluster s)) as [c [es|e]]; [|done].
  intros [= <-]. exists c, es. split_and!; [done|simpl; by destruct (ns_durable s)..].
Qed.

Lemma rebind_commit binding session s s' :
  commit (RebindSession binding session) s = (s', Ok ()) →
  ∃ b, c_bindings (ns_cluster s) !! binding = Some b
    ∧ c_bindings (ns_cluster s') = alter (binding_with_session session) binding (c_bindings (ns_cluster s))
    ∧ c_graph (ns_cluster s') = c_graph (ns_cluster s)
    ∧ c_leases (ns_cluster s') = c_leases (ns_cluster s)
    ∧ c_sessions (ns_cluster s') = c_sessions (ns_cluster s)
    ∧ ns_pending s' = ns_pending s.
Proof.
  intros (c & es & Hrun & Hc & Hp)%commit_Ok. cbn [dispatch] in Hrun. unfold rebind_session in Hrun.
  run Hrun. rewrite Hc, Hp, app_nil_r. eauto 10.
Qed.

Lemma record_active_commit binding session fence s s' :
  commit (RecordBindingActive binding session fence) s = (s', Ok ()) →
  ∃ b, c_bindings (ns_cluster s') !! binding = Some b ∧ binding_state b = BActive
    ∧ binding_session b = session ∧ binding_fence b = fence.
Proof.
  intros (c & es & Hrun & Hc & Hp)%commit_Ok. cbn [dispatch] in Hrun. unfold record_active in Hrun.
  apply acknowledged_bind in Hrun as (b & Hb & (? & m & Hb' & Hf & _) & Hrun).
  rewrite Hb in Hb'. injection Hb' as <-.
  destruct (bool_decide_reflect (binding_state b = BActive)) as [Hact|]; [|done]. run Hrun.
  exists (binding_with_session session b). rewrite Hc. simpl.
  by rewrite lookup_alter, decide_True, Hb by done.
Qed.

(** ** Routing *)

Lemma classify_refines machine bindings s sets :
  steps s (foldl (classify_binding machine) (s, sets) bindings).1.
Proof.
  revert s sets. induction bindings as [|b bindings IH]; intros s sets; [apply steps_refl|].
  simpl. destruct (c_bindings (ns_cluster s) !! b) as [bd|]; [|apply IH].
  destruct (c_leases (ns_cluster s) !! binding_lease bd) as [l|]; [|apply IH].
  destruct (lease_state l); try apply IH; (case_match; [apply IH|]);
    (eapply steps_trans; [apply refines_over_recovery, keeps_expect|apply IH]).
Qed.

Lemma route_recovery_refines machine bindings s : steps s (route_recovery machine bindings s).1.
Proof.
  unfold route_recovery. pose proof (classify_refines machine bindings s (mkSets ∅ ∅ ∅)) as Hc.
  destruct (foldl _ _ _) as [s1 sets]. simpl in *. eapply steps_trans; [exact Hc|].
  eapply steps_trans; [|apply (refines_foldl (λ s lease, request_status_on_machine lease machine s));
                        intros; apply status_refines].
  eapply steps_trans; [|apply (refines_foldl (λ s lease, request_status_on_machine lease machine
                                 (over_recovery machine (expect_member lease) s)))].
  - frame_step.
  - intros lease. apply refines_fn_comp; [apply status_refines|apply refines_over_recovery, keeps_expect].
Qed.

Lemma must_hold_false s lease machine :
  must_hold s lease machine = false → lease_is_terminal s lease = true → lease_has_program s lease = true →
  is_Some (session_of s machine) → member_stop_proven s lease machine = true.
Proof.
  unfold must_hold. intros Hh Ht Hp Hs. rewrite Ht, Hp, bool_decide_true in Hh by done.
  by apply negb_false_iff in Hh.
Qed.

Lemma route_binding_steps binding b refreshed phase epoch s :
  c_bindings (ns_cluster s) !! binding = Some refreshed → same_binding b refreshed →
  steps s (route_binding binding b phase epoch (binding_session refreshed) (binding_fence refreshed) s).1.
Proof.
  intros Hb Hsame. unfold route_binding.
  destruct (machine_of _ _) as [machine|] eqn:Hm; [|apply steps_refl].
  destruct (must_hold s (binding_lease b) machine) eqn:Hh.
  - eapply steps_trans; [apply maybe_stop_refines|frame_step].
  - apply steps_send. intros g. exists refreshed, epoch.
    destruct Hsame as (_ & Hl & Hn & Hp & Hs & Hf).
    split_and!; [done..| | |].
    + by rewrite Hn.
    + rewrite Hl. by apply must_hold_false.
    + unfold binding_request. destruct phase; congruence.
Qed.

Lemma rebind_if_stale_spec binding b s :
  c_bindings (ns_cluster s) !! binding = Some b →
  steps s (rebind_if_stale binding b s).1
  ∧ ∀ s', rebind_if_stale binding b s = (s', Ok ()) →
      ∃ refreshed, c_bindings (ns_cluster s') !! binding = Some refreshed ∧ same_binding b refreshed.
Proof.
  intros Hb. unfold rebind_if_stale. destruct (_ ≫= _) as [current|].
  2: { split; [apply steps_refl|]. intros s' [= <-]. eauto using same_binding_refl. }
  case_match.
  2: { split; [apply steps_refl|]. intros s' [= <-]. eauto using same_binding_refl. }
  split; [apply refines_commit|]. intros s' (b' & Hb' & Hbs & _)%rebind_commit.
  exists (binding_with_session current b). by rewrite Hbs, lookup_alter, decide_True, Hb by done.
Qed.

Lemma refines_route e : refines (route e).
Proof.
  intros s. destruct (effect_phase e) as [[[binding epoch] phase]|] eqn:He.
  2: { destruct e; try done. simpl. case_match; [|apply steps_refl].
       pose proof (route_recovery_refines machine bindings s). by destruct (route_recovery _ _ _). }
  unfold route. rewrite He. destruct e; simplify_eq/=.
  all: destruct (c_bindings (ns_cluster s) !! binding) as [b|] eqn:Hb; [|apply steps_refl].
  all: destruct (rebind_if_stale_spec binding b s Hb) as [Hm Hok].
  all: unfold mbind, SM_bind; destruct (rebind_if_stale binding b s) as [s' [[]|err]]; [|done].
  all: destruct (Hok s' eq_refl) as (refreshed & Hr & Hsame); simpl in *; rewrite Hr; simpl.
  all: eapply steps_trans; [exact Hm|].
  all: match goal with |- context [route_binding _ _ ?ph ?ep _ _ _] =>
         pose proof (route_binding_steps binding b refreshed ph ep s' Hr Hsame) end.
  all: by destruct (route_binding _ _ _ _ _ _ _) as [? []].
Qed.
Hint Resolve refines_route : refine.

Lemma refines_pump_one e : refines (pump_one e).
Proof. unfold pump_one. eauto with refine. Qed.

Lemma refines_pump_loop fuel : refines (pump_loop fuel).
Proof.
  induction fuel as [|fuel IH]; intros s; simpl; destruct (ns_pending s) as [|e rest];
    try apply steps_refl.
  eapply steps_trans; [apply (refines_set_pending rest)|].
  apply refines_bind; [apply refines_pump_one|]. by intros [].
Qed.

Lemma refines_pump : refines pump.
Proof. intros s. apply refines_pump_loop. Qed.

Lemma refines_drive_held entry : refines (drive_held entry).
Proof.
  intros s. destruct entry as [binding phase]. simpl.
  repeat case_match; try apply steps_refl; [apply refines_pump_one|frame_step].
Qed.

Lemma refines_drive_held_effects : refines drive_held_effects.
Proof.
  intros s. unfold drive_held_effects.
  eapply steps_trans; [|apply refines_for; apply refines_drive_held]. frame_step.
Qed.
Hint Resolve refines_pump_one refines_pump refines_drive_held_effects : refine.

(** ** Answers *)

(** A transformation that returns a value beside the state. *)
Definition refines_pair {A} (f : NodeService → NodeService * A) : Prop := ∀ s, steps s (f s).1.

Lemma refines_pair_foldl {A B} (f : NodeService * B → A → NodeService * B) l acc :
  (∀ x b, refines_pair (λ s, f (s, b) x)) → steps acc.1 (foldl f acc l).1.
Proof.
  intros Hf. revert acc. induction l as [|x l IH]; intros [s b]; simpl; [apply steps_refl|].
  eapply steps_trans; [apply (Hf x b)|apply IH].
Qed.

Lemma add_event_refines e : refines_fn (add_event e).
Proof. intros s. frame_step. Qed.
Lemma note_started_refines key : refines_fn (note_started key).
Proof. intros s. frame_step. Qed.

(** *** Evidence *)

Lemma stop_evidence_known g g' lease machine session :
  known g g' → stop_evidence g lease machine session → stop_evidence g' lease machine session.
Proof. intros [_ Hk] [?|(asked & code & ?)]; [left|right; exists asked, code]; by apply Hk. Qed.

Lemma activation_evidence_known s g g' binding b :
  known g g' → activation_evidence s g binding b → activation_evidence s g' binding b.
Proof.
  intros Hk [(phase & got & Hin)|(machine & lease & status & Hm & Hb & Hst & Hal & Hen)].
  - left. exists phase, got. by apply Hk.
  - right. exists machine, lease, status. split_and!; try done; [by eapply status_evidence_known|]. intros Ha.
    destruct (Hen Ha) as (asked & endpoints & Hin & Hp). exists asked, endpoints. split; [by apply Hk|done].
Qed.

Lemma note_stopped_ksteps g lease machine session s :
  session_of s machine = Some session → stop_evidence g lease machine session →
  ksteps g s (note_stopped (lease, machine, session) s).
Proof.
  intros Hs He. apply ksteps_step; [|by left|apply evidence_lost_refl].
  intros g1 Hk. apply step_stopped; [done|by eapply stop_evidence_known].
Qed.

Lemma note_activation_ksteps g binding b s :
  c_bindings (ns_cluster s) !! binding = Some b → binding_state b = BActive → activation_evidence s g binding b →
  ksteps g s (set_provider_activations
                ({[(binding, binding_session b, binding_fence b)]} ∪ ns_provider_activations s) s).
Proof.
  intros Hb Hst He. apply ksteps_step; [|by left|apply evidence_lost_refl].
  intros g1 Hk. apply step_activation; [done..|by eapply activation_evidence_known].
Qed.

(** A step that puts evidence into a recovery. *)
Lemma ksteps_evidence g machine f s :
  (∀ g1, known g g1 → step (s, g1) (over_recovery machine f s, g1)) →
  (∀ g1 r lease status, known g g1 → rec_members (f r) !! lease = Some (Some status) →
     rec_members r !! lease = Some (Some status) ∨ status_evidence g1 lease machine status) →
  (∀ g1 r endpoints, known g g1 → rec_endpoints (f r) = Some endpoints →
     rec_endpoints r = Some endpoints ∨ ∃ asked, (TEnumerate machine asked, BindingsEnumerated endpoints) ∈ g_accepted g1) →
  ksteps g s (over_recovery machine f s).
Proof.
  intros Hstep Hst Hen g1 Hk [H1 H2 H3 H4]. exists g1. split_and!; [by apply rtc_once, Hstep|done|done|].
  split; [done| | |done]; cbn.
  - intros m lease status (r & Hr & Hm). rewrite lookup_alter_Some in Hr.
    destruct Hr as [(-> & r0 & Hr & ->)|[_ Hr]]; [|apply H2; by exists r].
    destruct (Hst g1 r0 lease status Hk Hm) as [?|?]; [|done]. apply H2. by exists r0.
  - intros m endpoints (r & Hr & Hm). rewrite lookup_alter_Some in Hr.
    destruct Hr as [(-> & r0 & Hr & ->)|[_ Hr]]; [|apply H3; by exists r].
    destruct (Hen g1 r0 endpoints Hk Hm) as [?|?]; [|done]. apply H3. by exists r0.
Qed.

Lemma status_ksteps g lease machine status s :
  status_evidence g lease machine status →
  ksteps g s (over_recovery machine (λ r, set_members (<[lease := Some status]> (rec_members r)) r) s).
Proof.
  intros He. apply ksteps_evidence.
  - intros g1 Hk. apply step_status. by eapply status_evidence_known.
  - intros g1 r l st Hk. cbn. rewrite lookup_insert_Some. intros [[<- [= <-]]|[_ ?]]; [right|by left].
    by eapply status_evidence_known.
  - intros g1 r endpoints Hk. cbn. by left.
Qed.

Lemma enumerated_ksteps g machine asked endpoints s :
  (TEnumerate machine asked, BindingsEnumerated endpoints) ∈ g_accepted g →
  ksteps g s (over_recovery machine (set_rec_endpoints (Some endpoints)) s).
Proof.
  intros He. apply ksteps_evidence.
  - intros g1 Hk. eapply step_enumerated. by apply Hk.
  - intros g1 r l st Hk. cbn. by left.
  - intros g1 r es Hk. cbn. intros [= <-]. right. exists asked. by apply Hk.
Qed.

(** *** What recovering a member does to the kernel *)

Section moves.
Context (R : Cluster → Cluster → Prop) `{!PreOrder R}.
Definition moves {A} (m : M A) : Prop := ∀ c, R c (m c).1.

Lemma moves_bind {A B} (m : M A) (f : A → M B) : moves m → (∀ a, moves (f a)) → moves (m ≫= f).
Proof.
  intros Hm Hf c. rewrite bind_run. specialize (Hm c). destruct (m c) as [c' [a|e]]; [|done].
  etrans; [exact Hm|apply Hf].
Qed.
Lemma moves_pure {A} (m : M A) : (∀ c, (m c).1 = c) → moves m.
Proof. intros Hm c. by rewrite Hm. Qed.
Lemma moves_for {A} (f : A → M (list Effect)) l : (∀ x, moves (f x)) → moves (for_effects f l).
Proof.
  intros Hf. induction l as [|x l IH]; cbn [for_effects]; [by apply moves_pure|].
  apply moves_bind; [done|intros es]. apply moves_bind; [done|intros es']. by apply moves_pure.
Qed.
End moves.

(** The machines stay, no lease becomes active, and bindings keep all but
    their session. *)
Record calm (c c' : Cluster) : Prop := {
  cm_graph : c_graph c' = c_graph c;
  cm_active : ∀ k l', c_leases c' !! k = Some l' → lease_state l' = LActive →
    ∃ l, c_leases c !! k = Some l ∧ lease_state l = LActive;
  cm_bindings : ∀ k b', c_bindings c' !! k = Some b' →
    ∃ b, c_bindings c !! k = Some b ∧ same_binding b b' ∧ binding_state b' = binding_state b;
}.

#[local] Instance calm_preorder : PreOrder calm.
Proof.
  split.
  - intros c. split; [done|by eauto|]. intros k b Hb. exists b. by split_and!; [|apply same_binding_refl|].
  - intros c1 c2 c3 [G1 L1 B1] [G2 L2 B2]. split; [congruence| |].
    + intros k l3 Hl3 Ha3. destruct (L2 _ _ Hl3 Ha3) as (l2 & Hl2 & Ha2). by eapply L1.
    + intros k b3 (b2 & Hb2 & Hs2 & Hst2)%B2. destruct (B1 _ _ Hb2) as (b1 & Hb1 & Hs1 & Hst1).
      exists b1. split_and!; [done|by eapply same_binding_trans|congruence].
Qed.

Lemma calm_eq c c' :
  c_graph c' = c_graph c → c_leases c' = c_leases c → c_bindings c' = c_bindings c → calm c c'.
Proof.
  intros Hg Hl Hb. split; [done|rewrite Hl; eauto|]. intros k b. rewrite Hb. intros Hk. exists b.
  by split_and!; [|apply same_binding_refl|].
Qed.

Lemma moves_update_lease id f :
  (∀ l, lease_state (f l) = LActive → lease_state l = LActive) → moves calm (update_lease id f).
Proof.
  intros Hf c. split; [done| |]; cbn.
  - intros k l' Hl Ha. rewrite lookup_alter_Some in Hl.
    destruct Hl as [(-> & l & Hl & ->)|[_ Hl]]; [|by eauto]. exists l. auto.
  - intros k b Hb. exists b. by split_and!; [|apply same_binding_refl|].
Qed.

Ltac moving :=
  repeat first
    [ apply moves_bind; [apply _| |intros ?]
    | apply moves_for; [apply _|intros ?]
    | apply moves_pure; [apply _|done]
    | apply moves_update_lease; intros ?; unfold mark_unless; cbn; repeat case_match; done
    | case_match ].

Lemma revoke_calm id : moves calm (revoke_lease id).
Proof. unfold revoke_lease, get_lease. moving. Qed.

Lemma complete_calm id exit_code : moves calm (complete_lease id exit_code).
Proof. unfold complete_lease, get_lease, end_descendants. moving. Qed.

Lemma rebind_calm id session : moves calm (rebind_session id session).
Proof.
  unfold rebind_session, get_binding. moving.
  intros c. split; [done|by eauto|]. cbn. intros k b' Hb. rewrite lookup_alter_Some in Hb.
  destruct Hb as [(-> & b & Hb & ->)|[_ Hb]]; [by exists b|]. exists b'. by split_and!; [|apply same_binding_refl|].
Qed.

Definition calm_commands (command : Command) : bool :=
  match command with RebindSession _ _ | RevokeLease _ | CompleteLease _ _ => true | _ => false end.

Lemma commit_calm command s :
  calm_commands command = true → calm (ns_cluster s) (ns_cluster (commit command s).1).
Proof.
  intros Hcmd. assert (calm (ns_cluster s) (dispatch command (ns_cluster s)).1) as Hd.
  { destruct command; try done; cbn [dispatch]; apply revoke_calm || apply complete_calm || apply rebind_calm. }
  unfold commit, cluster_apply, persist. rewrite bind_run.
  destruct (dispatch command (ns_cluster s)) as [c [es|e]]; cbn in *; [|done].
  etrans; [exact Hd|]. destruct (ns_durable s); by apply calm_eq.
Qed.

Lemma commit_lenient_calm command s :
  calm_commands command = true → calm (ns_cluster s) (ns_cluster (commit_lenient command s)).
Proof.
  intros Hcmd%(commit_calm _ s). unfold commit_lenient, try_commit_lenient. by destruct (commit command s).
Qed.

Definition calmly (f : NodeService → NodeService) : Prop := ∀ s, calm (ns_cluster s) (ns_cluster (f s)).

Lemma calmly_foldl {A} (f : NodeService → A → NodeService) l :
  (∀ x, calmly (λ s, f s x)) → calmly (λ s, foldl f s l).
Proof.
  intros Hf. induction l as [|x l IH]; intros s; cbn; [reflexivity|]. etrans; [apply (Hf x)|apply IH].
Qed.
Lemma calmly_for {A} (f : A → SM unit) l : (∀ x, calmly (λ s, (f x s).1)) → calmly (λ s, (sfor f l s).1).
Proof.
  intros Hf. induction l as [|x l IH]; intros s; cbn; [reflexivity|]. unfold mbind, SM_bind.
  specialize (Hf x s). cbn in Hf. destruct (f x s) as [s' [[]|e]]; [|done]. etrans; [exact Hf|apply IH].
Qed.
Lemma calmly_dispatch machine tag request : calmly (service_dispatch machine tag request).
Proof. intros s. by rewrite dispatch_cluster. Qed.

Lemma maybe_stop_calm lease : calmly (maybe_stop_executions lease).
Proof.
  intros s. unfold maybe_stop_executions. case_match; [|reflexivity].
  generalize (lease_machines s lease). intros l. apply (calmly_foldl (stop_on_machine lease)).
  intros m s'. unfold stop_on_machine. repeat case_match; try reflexivity. apply calmly_dispatch.
Qed.

Lemma rebind_if_stale_calm binding b : calmly (λ s, (rebind_if_stale binding b s).1).
Proof. intros s. unfold rebind_if_stale. repeat case_match; try reflexivity. by apply commit_calm. Qed.

Lemma route_binding_calm binding b phase epoch session fence :
  calmly (λ s, (route_binding binding b phase epoch session fence s).1).
Proof.
  intros s. unfold route_binding. repeat case_match; try reflexivity; [|apply calmly_dispatch].
  cbn. apply maybe_stop_calm.
Qed.

Lemma pump_one_calm e p : effect_phase e = Some p → calmly (λ s, (pump_one e s).1).
Proof.
  intros He s. destruct p as [[binding epoch] phase]. unfold pump_one, mbind at 1, SM_bind at 1, route. rewrite He.
  destruct e; [..|done];
    (destruct (c_bindings (ns_cluster s) !! binding) as [b|]; [|reflexivity]);
    unfold mbind, SM_bind, sget, slift;
    pose proof (rebind_if_stale_calm binding b s) as H1; cbn beta in H1;
    (destruct (rebind_if_stale binding b s) as [s1 [[]|err]]; cbn [fst] in *; [|done]);
    (destruct (c_bindings (ns_cluster s1) !! binding) as [refreshed|]; cbn [ok_or]; [|done]);
    pose proof (route_binding_calm binding b phase epoch (binding_session refreshed) (binding_fence refreshed) s1) as H2;
    cbn beta in H2; destruct (route_binding _ _ _ _ _ _ s1) as [s2 [[]|err]]; cbn in *; by etrans.
Qed.

Lemma drive_held_calm entry : calmly (λ s, (drive_held entry s).1).
Proof.
  intros s. destruct entry as [binding phase]. cbn [drive_held].
  repeat (case_match; try reflexivity). destruct phase; simplify_eq/=; by eapply pump_one_calm.
Qed.

Lemma drive_held_effects_calm : calmly (λ s, (drive_held_effects s).1).
Proof.
  intros s. unfold drive_held_effects. generalize (bs_iter (ns_held_effects s)). intros l.
  apply (calmly_for drive_held l drive_held_calm (set_held_effects ∅ s)).
Qed.

Lemma rebind_lease_calm lease machine : calmly (λ s, (rebind_lease_machine lease machine s).1).
Proof.
  intros s. unfold rebind_lease_machine. case_match; [|reflexivity].
  match goal with |- context [List.filter ?f ?l] => generalize (List.filter f l) end. intros l.
  apply (calmly_for (λ binding, commit (RebindSession binding _))). intros binding s'. by apply commit_calm.
Qed.

Lemma observed_calm lease finished : calmly (λ s, (resolve_observed_completion lease finished s).1).
Proof.
  intros s. unfold resolve_observed_completion. repeat case_match; cbn; try reflexivity; by apply commit_lenient_calm.
Qed.

Lemma adopt_activations_cluster lease machine s : ns_cluster (adopt_activations lease machine s) = ns_cluster s.
Proof.
  unfold adopt_activations. generalize (bindings_for (ns_cluster s) lease). intros l. revert s.
  induction l as [|binding l IH]; intros s; [done|]. cbn. rewrite IH. repeat case_match; done.
Qed.

Lemma adopt_member_calm lease machine status finished :
  calmly (λ s, (adopt_member lease machine status finished s).1).
Proof.
  intros s. unfold adopt_member.
  match goal with |- context [resolve_observed_completion _ _ ?x] => set (s1 := x) end.
  assert (ns_cluster s1 = ns_cluster s) as Hs1.
  { subst s1. pose proof (adopt_activations_cluster lease machine s) as Ha. repeat case_match; done. }
  pose proof (observed_calm lease finished s1) as Ho. rewrite Hs1 in Ho.
  by destruct (resolve_observed_completion _ _ _) as [s2 f].
Qed.

Lemma recovered_member_calm lease machine status finished :
  calmly (λ s, (resolve_recovered_member lease machine status finished s).1).
Proof.
  intros s. unfold resolve_recovered_member. set (s0 := set_member_status _ s).
  change (ns_cluster s) with (ns_cluster s0). clearbody s0. case_match; [|case_match].
  - unfold resolve_terminal_member. cbn [fst]. match goal with |- context [maybe_stop_executions lease ?x] => set (s1 := x) end.
    assert (ns_cluster s1 = ns_cluster s0) as <- by (subst s1; repeat case_match; done).
    etrans; [apply (maybe_stop_calm lease)|]. apply drive_held_effects_calm.
  - pose proof (rebind_lease_calm lease machine s0) as Hr. cbn beta in Hr.
    destruct (rebind_lease_machine lease machine s0) as [s1 [[]|e]]; cbn [fst] in *.
    + etrans; [exact Hr|apply adopt_member_calm].
    + etrans; [exact Hr|]. change (ns_cluster s1) with (ns_cluster (add_event (MemberRevokedRebindFailed lease machine) s1)).
      by apply commit_lenient_calm.
  - cbn [fst]. change (ns_cluster s0) with (ns_cluster (add_event (MemberRevokedUnprovable lease machine) s0)).
    by apply commit_lenient_calm.
Qed.

(** *** Recovered members *)

(** What adopting a member needs: an answer about it, and for an active lease
    an enumeration that proves every open binding it has on the machine. *)
Definition adoptable (g : Ghost) (c : Cluster) (machine : NodeId) (entry : LeaseId * MemberStatus) : Prop :=
  let '(lease, status) := entry in
  status_evidence g lease machine status
  ∧ (ms_running status || bool_decide (is_Some (ms_exit_code status)) = true →
     (∃ l, c_leases c !! lease = Some l ∧ lease_state l = LActive) →
     ∀ binding b, binding ∈ bindings_for c lease → c_bindings c !! binding = Some b →
       is_closed (binding_state b) = false → machine_of (c_graph c) (binding_node b) = Some machine →
       ∃ asked endpoints, (TEnumerate machine asked, BindingsEnumerated endpoints) ∈ g_accepted g
         ∧ proves (Some endpoints) b = true).

Lemma elem_of_bindings_for c lease id :
  id ∈ bindings_for c lease ↔ ∃ k b, c_bindings c !! k = Some b ∧ binding_lease b = lease ∧ binding_id b = id.
Proof.
  unfold bindings_for, bt_values. rewrite list_elem_of_fmap. split.
  - intros (b & -> & Hb). rewrite list_elem_of_In, filter_In, <-list_elem_of_In, list_elem_of_fmap in Hb.
    destruct Hb as [([k b'] & -> & Hk%elem_of_bt_iter) ?%N.eqb_eq]. eauto.
  - intros (k & b & Hb & <- & <-). exists b. split; [done|].
    rewrite list_elem_of_In, filter_In, <-list_elem_of_In, list_elem_of_fmap. split; [|apply N.eqb_refl].
    exists (k, b). split; [done|]. by apply elem_of_bt_iter.
Qed.

Lemma calm_bindings_for c c' lease id : calm c c' → id ∈ bindings_for c' lease → id ∈ bindings_for c lease.
Proof.
  intros Hc (k & b' & Hb & Hl & Hid)%elem_of_bindings_for. apply elem_of_bindings_for.
  destruct (cm_bindings _ _ Hc _ _ Hb) as (b & Hk & (Hi & Hl' & _) & _). exists k, b. split_and!; congruence.
Qed.

(** A proof for a record is one for a record that differs in its session. *)
Lemma proves_same endpoints b b' :
  same_binding b b' → binding_state b' = binding_state b → proves endpoints b = proves endpoints b'.
Proof.
  intros (Hi & _ & Hn & Hp & Hsc & Hf) Hst. unfold proves. destruct endpoints as [endpoints|]; [|done].
  assert (∀ en, candidate b en = candidate b' en) as Hcand
    by (intros en; unfold candidate; by rewrite Hi, Hn, Hp, Hsc).
  assert (List.filter (candidate b) endpoints = List.filter (candidate b') endpoints) as ->
    by (induction endpoints as [|en endpoints IH]; [done|]; cbn; by rewrite Hcand, IH).
  destruct (List.filter (candidate b') endpoints) as [|en [|]]; try done.
  unfold same_generation. by rewrite Hst, Hi, Hn, Hp, Hsc, Hf.
Qed.

Lemma adoptable_calm g c c' machine entry : calm c c' → adoptable g c machine entry → adoptable g c' machine entry.
Proof.
  intros Hc. destruct entry as [lease status]. intros [Hst Had]. split; [done|].
  intros Halive (l' & Hl' & Ha') binding b' Hin Hb' Hopen Hm.
  destruct (cm_active _ _ Hc _ _ Hl' Ha') as (l & Hl & Ha).
  destruct (cm_bindings _ _ Hc _ _ Hb') as (b & Hb & Hsame & Hstate). pose proof Hsame as (_ & _ & Hn & _).
  destruct (Had Halive) with (binding := binding) (b := b) as (asked & endpoints & Hacc & Hp); eauto using calm_bindings_for.
  - by rewrite <-Hstate.
  - by rewrite <-(cm_graph _ _ Hc), <-Hn.
  - exists asked, endpoints. split; [done|]. by rewrite <-(proves_same _ b b').
Qed.

Lemma adoptable_known g g' c machine entry : known g g' → adoptable g c machine entry → adoptable g' c machine entry.
Proof.
  intros Hk. destruct entry as [lease status]. intros [Hst Had]. split; [by eapply status_evidence_known|].
  intros Halive Ha binding b Hin Hb Hopen Hm. destruct (Had Halive Ha binding b Hin Hb Hopen Hm) as (asked & es & ? & ?).
  exists asked, es. split; [by apply Hk|done].
Qed.

Lemma observed_refines lease finished : refines_pair (resolve_observed_completion lease finished).
Proof.
  intros s. unfold resolve_observed_completion.
  repeat case_match; simpl; try apply steps_refl; apply refines_commit_lenient.
Qed.

Lemma refines_rebind_lease lease machine : refines (rebind_lease_machine lease machine).
Proof.
  intros s. unfold rebind_lease_machine. case_match; [|apply steps_refl].
  apply refines_for. intros. apply refines_commit.
Qed.

Lemma adopt_activations_ksteps g lease machine status s :
  adoptable g (ns_cluster s) machine (lease, status) →
  ms_running status || bool_decide (is_Some (ms_exit_code status)) = true →
  ksteps g s (adopt_activations lease machine s).
Proof.
  intros [Hst Had] Halive. unfold adopt_activations.
  assert (∀ l s1, (∀ id, id ∈ l → id ∈ bindings_for (ns_cluster s) lease) → ns_cluster s1 = ns_cluster s →
    ksteps g s1 (foldl (λ s binding,
      match c_bindings (ns_cluster s) !! binding with
      | Some b =>
          if bool_decide (binding_state b = BActive)
             && bool_decide (machine_of (c_graph (ns_cluster s)) (binding_node b) = Some machine)
          then set_provider_activations
                 ({[(binding, binding_session b, binding_fence b)]} ∪ ns_provider_activations s) s
          else s
      | None => s
      end) s1 l)) as Hfold; [|by apply Hfold].
  induction l as [|binding l IH]; intros s1 Hl Hc; [apply ksteps_refl|]. cbn [foldl].
  destruct (c_bindings (ns_cluster s1) !! binding) as [b|] eqn:Hb; [|apply IH; [set_solver|done]].
  destruct (bool_decide_reflect (binding_state b = BActive)) as [Hact|]; [|apply IH; [set_solver|done]].
  destruct (bool_decide_reflect (machine_of (c_graph (ns_cluster s1)) (binding_node b) = Some machine)) as [Hm|];
    [|apply IH; [set_solver|done]].
  cbn [andb]. eapply ksteps_trans; [|apply IH; [set_solver|done]].
  apply note_activation_ksteps; [done..|]. right. exists machine, lease, status.
  split_and!; [done|rewrite Hc; apply Hl; set_solver|done|done|]. unfold lease_is_active. intros Ha. rewrite Hc in Ha, Hb, Hm.
  destruct (c_leases (ns_cluster s) !! lease) as [ls|] eqn:Hls; [|done]. apply bool_decide_eq_true in Ha.
  apply (Had Halive) with (binding := binding); [by eauto|apply Hl; set_solver|done|by rewrite Hact|done].
Qed.

(** A status that says the member exited is evidence that it stopped. *)
Lemma exited_evidence g lease machine session status :
  status_evidence g lease machine status → ms_running status = false → is_Some (ms_exit_code status) →
  stop_evidence g lease machine session.
Proof.
  intros [->|[asked Hin]] Hr [code Hc]; [done|]. right. exists asked, code. by rewrite <-Hr, <-Hc.
Qed.

Lemma terminal_member_ksteps g lease machine status s :
  status_evidence g lease machine status → ksteps g s (resolve_terminal_member lease machine status s).
Proof.
  intros He. unfold resolve_terminal_member.
  eapply ksteps_trans; [|apply steps_known, add_event_refines].
  eapply ksteps_trans; [|apply steps_known, refines_drive_held_effects].
  eapply ksteps_trans; [|apply steps_known, maybe_stop_refines].
  destruct (session_of s machine) as [session|] eqn:Hs; [|apply ksteps_refl].
  destruct (ms_running status) eqn:Hrun; [apply ksteps_refl|]. cbn [negb andb].
  destruct (bool_decide_reflect (is_Some (ms_exit_code status))); [|apply ksteps_refl].
  apply note_stopped_ksteps; [done|by eapply exited_evidence].
Qed.

Lemma adopt_member_ksteps g lease machine status finished s :
  adoptable g (ns_cluster s) machine (lease, status) →
  ms_running status || bool_decide (is_Some (ms_exit_code status)) = true →
  ksteps g s (adopt_member lease machine status finished s).1.
Proof.
  intros Had Halive. unfold adopt_member.
  match goal with |- context [resolve_observed_completion _ _ ?x] => set (s1 := x) end.
  assert (ksteps g s s1) as H1.
  { subst s1. eapply ksteps_trans; [by apply (adopt_activations_ksteps g lease machine status)|].
    destruct (session_of _ machine) as [session|] eqn:Hs; [|apply ksteps_refl].
    eapply ksteps_trans; [apply steps_known, (note_started_refines (lease, machine, session))|].
    destruct (ms_running status) eqn:Hrun; [apply ksteps_refl|]. apply note_stopped_ksteps; [done|].
    eapply exited_evidence; [apply Had|done|]. by apply bool_decide_eq_true in Halive. }
  pose proof (observed_refines lease finished s1) as Ho. destruct (resolve_observed_completion _ _ _) as [s2 f].
  cbn [fst] in *. eapply ksteps_trans; [exact H1|]. apply steps_known. eapply steps_trans; [done|apply add_event_refines].
Qed.

Lemma member_status_refines v : refines_fn (set_member_status v).
Proof. intros s. frame_step. Qed.

Lemma recovered_member_ksteps g lease machine status finished s :
  adoptable g (ns_cluster s) machine (lease, status) →
  ksteps g s (resolve_recovered_member lease machine status finished s).1.
Proof.
  intros Had. unfold resolve_recovered_member.
  set (s0 := set_member_status _ s). assert (steps s s0) as H0 by apply member_status_refines.
  change (ns_cluster s) with (ns_cluster s0) in Had.
  eapply ksteps_trans; [apply steps_known, H0|]. clearbody s0.
  case_match; [apply terminal_member_ksteps, Had|].
  destruct (ms_running status || bool_decide (is_Some (ms_exit_code status))) eqn:Halive.
  - pose proof (refines_rebind_lease lease machine s0) as Hr. pose proof (rebind_lease_calm lease machine s0) as Hcalm.
    cbn beta in Hcalm.
    destruct (rebind_lease_machine lease machine s0) as [s1 [a|e]]; cbn [fst] in *;
      (eapply ksteps_trans; [apply steps_known, Hr|]).
    + apply adopt_member_ksteps; [by eapply adoptable_calm|done].
    + apply steps_known. eapply steps_trans; [apply add_event_refines|apply refines_commit_lenient].
  - cbn [fst]. apply steps_known. eapply steps_trans; [apply add_event_refines|apply refines_commit_lenient].
Qed.

Lemma finish_recovery_refines machine : refines_fn (finish_machine_recovery machine).
Proof.
  intros s. unfold finish_machine_recovery.
  eapply steps_trans; [|apply refines_commit_lenient].
  eapply steps_trans; [|apply refines_commit_lenient].
  apply steps_frame. constructor; try reflexivity; [by left|]. cbn. split.
  - intros m lease status (r & Hr & Hst). apply lookup_delete_Some in Hr as [_ Hr]. by exists r.
  - intros m endpoints (r & Hr & Hen). apply lookup_delete_Some in Hr as [_ Hr]. by exists r.
Qed.

(** The members a recovery resolves have the evidence they need. *)
Lemma ready_adoptable g s machine r entry :
  grounded s g → ns_recovering s !! machine = Some r →
  entry ∈ omap (member_ready s machine r) (bt_iter (rec_members r)) →
  adoptable g (ns_cluster s) machine entry.
Proof.
  intros Hg Hr ([lease status] & Hin%elem_of_bt_iter & Hready)%list_elem_of_omap.
  destruct status as [status|]; [|done]. unfold member_ready in Hready. cbn [mbind option_bind] in Hready.
  destruct (negb _ || _) eqn:Hok; [|done]. injection Hready as <-. split.
  { apply (gr_status _ _ Hg). by exists r. }
  intros Halive (l & Hl & Ha) binding b Hb Hk Hopen Hm. rewrite Halive in Hok.
  assert (lease_is_active s lease = true) as Hact.
  { unfold lease_is_active. rewrite Hl. by apply bool_decide_eq_true. }
  rewrite Hact in Hok. cbn [andb negb orb] in Hok. apply andb_prop in Hok as [Hset Hall].
  apply andb_prop in Hset as [[endpoints Hen]%bool_decide_eq_true _].
  destruct (gr_endpoints _ _ Hg machine endpoints) as [asked Hacc]; [by exists r|]. exists asked, endpoints.
  split; [done|]. rewrite forallb_forall in Hall. rewrite <-Hen. apply Hall. rewrite filter_In, <-list_elem_of_In. split.
  - apply list_elem_of_omap. by exists binding.
  - rewrite Hopen, bool_decide_eq_true_2 by done. done.
Qed.

Lemma machine_recovery_refines machine finished :
  refines_pair (resolve_machine_recovery machine finished).
Proof.
  intros s. apply ksteps_grounded. intros g _ Hg. unfold resolve_machine_recovery.
  destruct (ns_recovering s !! machine) as [r|] eqn:Hr; [|apply ksteps_refl].
  assert (Forall (adoptable g (ns_cluster s) machine) (omap (member_ready s machine r) (bt_iter (rec_members r)))) as Hready.
  { apply Forall_forall. intros entry Hin. by eapply ready_adoptable. }
  assert (∀ entries acc, Forall (adoptable g (ns_cluster acc.1) machine) entries →
    ksteps g acc.1 (foldl (λ '(s, finished) '(lease, status),
      resolve_recovered_member lease machine status finished
        (over_recovery machine (λ r, set_members (delete lease (rec_members r)) r) s)) acc entries).1) as Hfold.
  { clear. induction entries as [|[lease status] entries IH]; intros [s fin] Hall; [apply ksteps_refl|].
    apply Forall_cons in Hall as [Had Hall]. cbn [foldl].
    set (s1 := over_recovery machine _ s). assert (steps s s1) as H1 by apply refines_over_recovery, keeps_delete.
    change (ns_cluster (s, fin).1) with (ns_cluster s1) in Had, Hall.
    pose proof (recovered_member_ksteps g lease machine status fin s1 Had) as H2.
    pose proof (recovered_member_calm lease machine status fin s1) as Hc. cbn beta in Hc.
    eapply ksteps_trans; [apply steps_known, H1|]. eapply ksteps_trans; [exact H2|]. apply IH.
    eapply Forall_impl; [exact Hall|]. intros entry. by apply adoptable_calm. }
  specialize (Hfold _ (s, finished) Hready).
  destruct (foldl _ (s, finished) _) as [s1 f1]. cbn [fst] in *. eapply ksteps_trans; [exact Hfold|]. apply steps_known.
  repeat case_match; try apply steps_refl. apply finish_recovery_refines.
Qed.

(** *** Enumerations *)

Lemma recovering_over machine f s :
  is_Some (ns_recovering s !! machine) → is_Some (ns_recovering (over_recovery machine f s) !! machine).
Proof. intros [r Hr]. simpl. rewrite lookup_alter, decide_True, Hr by done. by eexists. Qed.

(** The commands an enumeration gives rise to leave the sessions alone. *)
Definition same_sessions (c c' : Cluster) : Prop := c_sessions c' = c_sessions c.
#[local] Instance same_sessions_preorder : PreOrder same_sessions.
Proof. split; [done|]. unfold same_sessions. intros ? ? ? -> ->. done. Qed.

Definition enumeration_command (command : Command) : bool :=
  match command with FenceBinding _ | RecordBindingFenced _ _ _ | AdvanceEndpointFence _ _ _ => true | _ => false end.

Lemma advance_sessions node provider fence : moves same_sessions (advance_endpoint_fence node provider fence).
Proof.
  intros c. unfold advance_endpoint_fence, guard. rewrite bind_run. cbn [get]. rewrite bind_run.
  destruct (graph_node (c_graph c) node); [|done]. cbn [lift ok_or]. rewrite bind_run. by destruct (fence =? 0).
Qed.

Lemma commit_sessions command s :
  enumeration_command command = true →
  c_sessions (ns_cluster (commit_lenient command s)) = c_sessions (ns_cluster s).
Proof.
  intros Hcmd. assert (same_sessions (ns_cluster s) (dispatch command (ns_cluster s)).1) as Hd.
  { destruct command; try done; cbn [dispatch];
      unfold fence_binding, record_fenced, acknowledged, get_binding, guard;
      match goal with |- same_sessions ?c (?m ?c).1 => generalize c; change (moves same_sessions m) end;
      repeat first [apply advance_sessions | apply moves_bind; [apply _| |intros ?] | apply moves_pure; [apply _|done] | case_match | by intros ?]. }
  unfold commit_lenient, try_commit_lenient, commit, cluster_apply, persist. rewrite bind_run.
  destruct (dispatch command (ns_cluster s)) as [c [es|e]]; cbn in *; [|done]. by destruct (ns_durable s).
Qed.

Lemma close_stray_ksteps g asked endpoints machine session binding en s :
  (TEnumerate machine asked, BindingsEnumerated endpoints) ∈ g_accepted g →
  en ∈ endpoints → en_open en = true → en_binding en = Some binding → session_of s machine = Some session →
  ksteps g s (close_stray machine session s (binding, en))
  ∧ session_of (close_stray machine session s (binding, en)) machine = Some session.
Proof.
  intros Hacc Hen Hopen Hbind Hsess. unfold close_stray.
  set (s1 := commit_lenient _ _). assert (steps s s1) as H1.
  { subst s1. eapply steps_trans; [apply add_event_refines|apply refines_commit_lenient]. }
  assert (session_of s1 machine = Some session) as Hs1.
  { subst s1. unfold session_of. by rewrite commit_sessions. }
  clearbody s1. destruct (ns_recovering s1 !! machine) as [r|] eqn:Hr; [|by split; [apply steps_known|]].
  case_match; [by split; [apply steps_known|]|]. split.
  - eapply ksteps_trans; [apply steps_known, H1|].
    set (s2 := over_recovery machine _ s1). assert (steps s1 s2) as H2 by (by apply refines_over_recovery).
    eapply ksteps_trans; [apply steps_known, H2|].
    apply ksteps_send. intros g1 Hk. split_and!; [done|apply recovering_over; by rewrite Hr|done| |done].
    exists asked, endpoints, en. split_and!; try done. by apply Hk.
  - unfold session_of in *. by rewrite dispatch_cluster.
Qed.

Lemma absorb_enumeration_ksteps g asked machine endpoints s :
  (TEnumerate machine asked, BindingsEnumerated endpoints) ∈ g_accepted g →
  ksteps g s (absorb_enumeration machine endpoints s).1.
Proof.
  intros Hacc. unfold absorb_enumeration. destruct (session_of s machine) as [session|] eqn:Hs; [|apply ksteps_refl].
  case_match; [apply ksteps_refl|]. cbv zeta. cbn [fst].
  set (decided := (λ en, (endpoint_decision s machine en, en)) <$> endpoints).
  set (s1 := foldl _ s _). set (s2 := foldl _ s1 _). set (s3 := foldl _ s2 _).
  assert (steps s s3 ∧ session_of s3 machine = Some session) as [H3 Hs3].
  { split.
    - assert (∀ A (f : NodeService → A → NodeService) l s, (∀ s x, steps s (f s x)) → steps s (foldl f s l)) as Hfold
        by (intros A f l s' Hf; apply (refines_foldl f); intros x s''; apply Hf).
      apply (steps_trans _ s2); [apply (steps_trans _ s1)|]; apply Hfold; intros s' [? ?];
        apply refines_commit_lenient || apply add_event_refines.
    - assert (∀ A (f : NodeService → A → NodeService) l s, (∀ s x, session_of (f s x) machine = session_of s machine) →
        session_of (foldl f s l) machine = session_of s machine) as Hfold.
      { clear. intros A f l s Hf. revert s. induction l as [|x l IH]; intros s; [done|]. cbn. by rewrite IH, Hf. }
      subst s3 s2 s1. rewrite !Hfold; [done|..]; intros s' [? ?]; unfold session_of; rewrite ?commit_sessions; done. }
  eapply ksteps_trans; [apply steps_known, H3|]. clearbody s3.
  assert (∀ entry, entry ∈ omap (λ '(a, en), match a with AStray b => Some (b, en) | _ => None end) decided →
    entry.2 ∈ endpoints ∧ en_open entry.2 = true ∧ en_binding entry.2 = Some entry.1) as Hstray.
  { intros [b en] ([a en'] & Hin & Heq)%list_elem_of_omap. destruct a; simplify_eq/=.
    apply list_elem_of_fmap in Hin as (en0 & [= Hd ->] & Hin). split; [done|]. unfold endpoint_decision in Hd.
    repeat case_match; simplify_eq; done. }
  revert s3 H3 Hs3 Hstray. generalize (omap (λ '(a, en), match a with AStray b => Some (b, en) | _ => None end) decided).
  clear -Hacc. intros strays s3 _. revert s3. induction strays as [|[b en] strays IH]; intros s3 Hs3 Hstray; [apply ksteps_refl|].
  cbn [foldl]. destruct (Hstray (b, en)) as (Hin & Hopen & Hbind); [by left|]. cbn [fst snd] in *.
  destruct (close_stray_ksteps g asked endpoints machine session b en s3) as [Hk Hs']; try done.
  eapply ksteps_trans; [exact Hk|]. apply IH; [done|]. intros entry He. apply Hstray. by right.
Qed.

(** *** Answers, one by one *)

Lemma refines_commit_activated g binding session fence phase got s :
  (TBinding binding session fence phase, RActivated got) ∈ g_accepted g →
  ksteps g s (absorb_binding binding session fence (Ok (RActivated got)) s).1.
Proof.
  intros Hacc. cbn [absorb_binding]. unfold try_commit_lenient.
  pose proof (refines_commit (RecordBindingActive binding session fence) s) as Hc.
  destruct (commit (RecordBindingActive binding session fence) s) as [s1 [[]|e]] eqn:Hrun; [|by apply steps_known].
  cbn [fst] in *. eapply ksteps_trans; [apply steps_known, Hc|].
  apply record_active_commit in Hrun as (b & Hb & Hst & <- & <-).
  eapply ksteps_trans; [apply (note_activation_ksteps g binding b s1); try done; left; eauto|].
  apply steps_known. cbn [is_ok]. destruct (binding_lease_of s binding); [apply maybe_start_refines|apply steps_refl].
Qed.

Lemma absorb_binding_ksteps g binding session fence phase reply s :
  (∀ response, reply = Ok response → (TBinding binding session fence phase, response) ∈ g_accepted g) →
  ksteps g s (absorb_binding binding session fence reply s).1.
Proof.
  intros Hacc. destruct reply as [response|e]; [|apply ksteps_refl]. specialize (Hacc response eq_refl).
  destruct response; try (by eapply refines_commit_activated); apply steps_known; unfold absorb_binding;
    try apply steps_refl; try apply refines_commit_lenient.
  cbn [fst]. destruct (binding_lease_of s binding).
  - eapply steps_trans; [apply refines_commit_lenient|apply maybe_activate_refines].
  - apply refines_commit_lenient.
Qed.

Lemma absorb_start_refines lease machine session reply :
  refines_fn (absorb_start lease machine session reply).
Proof.
  intros s. unfold absorb_start. repeat case_match; try apply steps_refl;
    try apply refines_commit_lenient; apply note_started_refines.
Qed.

Lemma absorb_stop_ksteps g lease machine session reply s :
  (∀ response, reply = Ok response → (TExecutionStop lease machine session, response) ∈ g_accepted g) →
  ksteps g s (absorb_stop lease machine session reply s).1.
Proof.
  intros Hacc. unfold absorb_stop. destruct (bool_decide_reflect (session_of s machine = Some session));
    [|apply ksteps_refl]. cbn [negb].
  destruct reply as [response|err]; [|apply ksteps_refl]. specialize (Hacc response eq_refl).
  destruct response; try apply ksteps_refl. destruct (N.eqb_spec lease0 lease) as [->|]; [|apply ksteps_refl].
  eapply ksteps_trans; [apply note_stopped_ksteps; [done|by left]|apply steps_known, refines_drive_held_effects].
Qed.

Lemma absorb_status_ksteps g lease machine session reply finished s :
  (∀ response, reply = Ok response → (TStatus lease machine session, response) ∈ g_accepted g) →
  ksteps g s (absorb_status lease machine reply finished s).1.
Proof.
  intros Hacc. unfold absorb_status. set (status := match reply with Ok _ => _ | Err _ => _ end).
  assert (∀ st, status = Some st → status_evidence g lease machine st) as Hst.
  { subst status. destruct reply as [response|e]; [|done]. specialize (Hacc response eq_refl).
    destruct response; try done. destruct (N.eqb_spec lease0 lease) as [->|]; [|done].
    intros st [= <-]. right. by exists session. }
  clearbody status. case_match.
  - eapply ksteps_trans; [|apply steps_known, machine_recovery_refines]. apply status_ksteps.
    destruct status; [by apply Hst|by left].
  - apply steps_known. case_match; [|apply steps_refl].
    eapply steps_trans; [apply member_status_refines|apply observed_refines].
Qed.

Lemma absorb_enumerate_ksteps g machine session (reply : AgentReply) finished s :
  (∀ response, reply = Ok response → (TEnumerate machine session, response) ∈ g_accepted g) →
  ksteps g s (match reply with
              | Ok (BindingsEnumerated endpoints) =>
                  let '(s, usable) := absorb_enumeration machine endpoints s in
                  let s := if usable then over_recovery machine (set_rec_endpoints (Some endpoints)) s else s in
                  let '(s, finished) := resolve_machine_recovery machine finished s in (s, Ok finished)
              | _ => (s, Ok finished)
              end : NodeService * result Error (list LeaseId)).1.
Proof.
  intros Hacc. destruct reply as [response|e]; [|apply ksteps_refl]. specialize (Hacc response eq_refl).
  destruct response; try apply ksteps_refl.
  pose proof (absorb_enumeration_ksteps g session machine endpoints s Hacc) as He.
  destruct (absorb_enumeration machine endpoints s) as [s1 usable]. cbn [fst] in He.
  set (s2 := if usable then _ else s1).
  assert (ksteps g s1 s2) as Hu by (subst s2; destruct usable; [by eapply enumerated_ksteps|apply ksteps_refl]).
  pose proof (machine_recovery_refines machine finished s2) as Hr.
  eapply ksteps_trans; [exact He|]. eapply ksteps_trans; [exact Hu|]. apply steps_known.
  clearbody s2. cbv zeta. by destruct (resolve_machine_recovery machine finished s2).
Qed.

(** An answer that is not of a replaced session is taken up, and then used. *)
Lemma absorb_answer_ksteps g tag reply finished s :
  (∀ response, reply = Ok response → (tag, response) ∈ g_accepted g) → stale_answer s tag = false →
  ksteps g s (absorb_one finished (tag, reply) s).1.
Proof.
  intros Hacc Hfresh. unfold absorb_one.
  set (s0 := set_inflight _ s). assert (steps s s0) as H0.
  { subst s0. apply steps_frame. constructor; try done; [simpl; set_solver|by left]. }
  eapply ksteps_trans; [apply steps_known, H0|].
  assert (stale_answer s0 tag = false) as -> by (by rewrite <-Hfresh; destruct tag).
  clearbody s0. destruct tag.
  - pose proof (absorb_binding_ksteps g binding session fence phase reply s0 Hacc).
    by destruct (absorb_binding _ _ _ _ _).
  - apply steps_known, absorb_start_refines.
  - pose proof (absorb_stop_ksteps g lease machine session reply s0 Hacc).
    by destruct (absorb_stop _ _ _ _ _).
  - pose proof (absorb_status_ksteps g lease machine session reply finished s0 Hacc).
    by destruct (absorb_status _ _ _ _ _).
  - by apply absorb_enumerate_ksteps with (session := session).
  - apply steps_known. destruct reply as [[]|]; try apply steps_refl. case_match; [|apply steps_refl].
    cbv zeta. match goal with |- context [resolve_machine_recovery _ _ ?x] => set (s2 := x) end.
    assert (steps s0 s2) as Hu by (by apply refines_over_recovery).
    pose proof (machine_recovery_refines machine finished s2).
    destruct (resolve_machine_recovery machine finished s2). by eapply steps_trans.
  - apply steps_known. simpl. case_match; [apply steps_refl|frame_step].
Qed.

Lemma absorb_one_ksteps g finished answer s :
  answer ∈ g_posted g → ksteps g s (absorb_one finished answer s).1.
Proof.
  destruct answer as [tag reply]. intros Hin. destruct (stale_answer s tag) eqn:Hstale.
  - apply steps_known. unfold absorb_one. set (s0 := set_inflight _ s).
    assert (stale_answer s0 tag = true) as -> by (by rewrite <-Hstale; destruct tag). cbn [fst].
    apply steps_frame. constructor; try done; [simpl; set_solver|by left].
  - destruct reply as [response|e].
    + eapply ksteps_accept; [exact Hin|done|]. apply absorb_answer_ksteps; [|done]. intros r [= <-].
      cbn. apply elem_of_app. right. by apply list_elem_of_singleton.
    + by apply absorb_answer_ksteps.
Qed.

Lemma absorb_all_ksteps g finished answers s :
  answers ⊆ g_posted g → ksteps g s (absorb_all finished answers s).1.
Proof.
  revert finished s. induction answers as [|a answers IH]; intros finished s Hin; [apply ksteps_refl|].
  cbn [absorb_all]. unfold mbind, SM_bind.
  pose proof (absorb_one_ksteps g finished a s (Hin a ltac:(by left))) as Hone.
  destruct (absorb_one finished a s) as [s1 [f|e]]; [|done]. cbn [fst] in Hone.
  eapply ksteps_trans; [exact Hone|]. apply IH. intros x Hx. apply Hin. by right.
Qed.

Lemma refines_absorb : refines absorb.
Proof.
  intros s. apply ksteps_grounded. intros g _ Hg. unfold absorb.
  set (s0 := set_inbox [] s). assert (steps s s0) as H0.
  { apply steps_frame. constructor; try done. by right. }
  eapply ksteps_trans; [apply steps_known, H0|].
  pose proof (absorb_all_ksteps g [] (ns_inbox s) s0 (gr_inbox _ _ Hg)) as Hall.
  unfold mbind at 1, SM_bind at 1. destruct (absorb_all [] (ns_inbox s) s0) as [s1 [finished|e]]; [|done].
  cbn [fst] in Hall. eapply ksteps_trans; [exact Hall|]. apply steps_known.
  change (steps s1 ((_ ← (if bool_decide (finished = []) then mret () else pump); mret finished) s1).1).
  revert s1 Hall. intros s1 _. revert s1. apply refines_bind; [apply refines_if; eauto with refine|intros; apply refines_ret].
Qed.
Hint Resolve refines_absorb : refine.

Lemma refines_drive_round : refines drive_round.
Proof. unfold drive_round. eauto with refine. Qed.

Lemma refines_collect_completions : refines collect_completions.
Proof.
  unfold collect_completions. apply refines_bind; [apply refines_absorb|]. intros finished.
  apply refines_bind; [apply refines_get|]. intros s. apply refines_bind.
  - apply refines_modify. apply (refines_foldl (λ s lease, request_status lease s)).
    intros lease. apply request_status_refines.
  - eauto with refine.
Qed.

(** ** Entry points *)

Lemma refines_service_apply command : refines (service_apply command).
Proof. unfold service_apply. eauto with refine. Qed.
Hint Resolve refines_service_apply : refine.

Lemma refines_expire_due : refines expire_due.
Proof.
  unfold expire_due. apply refines_bind; [apply refines_get|]. intros s.
  apply refines_bind; [apply refines_for; intros; apply refines_commit|]. eauto with refine.
Qed.

Lemma refines_tick now : refines (tick now).
Proof.
  unfold tick. apply refines_bind; [|intros []; apply refines_expire_due].
  apply refines_modify. intros s. apply ksteps_step; [intros; apply step_clock|by left|apply evidence_lost_refl].
Qed.

Lemma refines_mark_unhealthy machine : refines (mark_machine_unhealthy machine).
Proof.
  unfold mark_machine_unhealthy. do 2 (apply refines_bind; [apply refines_commit|intros []]).
  apply refines_bind; [apply refines_get|]. intros s.
  apply refines_bind; [apply refines_for; intros; apply refines_commit|]. eauto with refine.
Qed.

Lemma probe_refines : refines_fn probe_agents.
Proof.
  intros s. unfold probe_agents. generalize (bt_keys (ns_agents s)). intros l.
  apply (refines_foldl (λ s machine, if decide (TProbe machine ∈ ns_inflight s) then s
    else service_dispatch machine (TProbe machine) (Status 0) s)).
  intros machine s'. case_match; [apply steps_refl|]. by apply steps_send.
Qed.

Lemma submit_refines workload owner : refines_fn (submit workload owner).
Proof. intros s. eapply steps_trans; [apply refines_enqueue|apply refines_persist]. Qed.

Lemma refines_open_bindings lease : refines (open_enforced_bindings lease).
Proof.
  unfold open_enforced_bindings. do 2 (apply refines_bind; [eauto with refine|intros ?]).
  apply refines_for. intros claim. unfold open_enforced_binding.
  do 3 (apply refines_bind; [eauto with refine|intros ?]). apply refines_commit.
Qed.

Lemma refines_admit policy : refines (admit_one_with_policy policy).
Proof.
  intros s. unfold admit_one_with_policy.
  destruct (cluster_admit_backfill_with_policy _ _ _ _) as [admission|]; [|apply steps_refl].
  destruct (validate_allocation_bindings _ _); [|apply steps_refl].
  destruct (take_queued _ _) as [[[before entry] after]|]; [|apply steps_refl].
  set (s1 := over_state _ s). assert (steps s s1) as H1 by apply refines_over_state.
  eapply steps_trans; [exact H1|]. clearbody s1.
  set (command := OpenLease _ _ _ _ _ _ _). pose proof (refines_commit command s1) as Hc.
  destruct (commit command s1) as [s2 [[]|e]]; simpl in Hc; (eapply steps_trans; [exact Hc|]).
  - apply refines_bind; [apply refines_open_bindings|]. intros []. eauto with refine.
  - apply refines_over_state.
Qed.

Lemma queue_restarts_refines : refines_pair queue_restarts.
Proof.
  intros s. unfold queue_restarts, take_restarts. destruct (foldl _ _ _) as [st out]. simpl.
  eapply steps_trans; [|apply refines_persist].
  eapply steps_trans; [|apply (refines_foldl (λ s '(workload, owner), enqueue workload owner s))].
  - apply (refines_over_state (λ _, st)).
  - intros [w o]. apply refines_enqueue.
Qed.

(** *** Service groups *)

Lemma register_group_refines group : refines_pair (register_service_group group).
Proof.
  intros s. unfold register_service_group. case_match; [|apply steps_refl]. cbn [fst].
  eapply steps_trans; [apply refines_over_state|apply refines_persist].
Qed.

Lemma scale_group_refines id target : refines_pair (scale_service_group id target).
Proof.
  intros s. unfold scale_service_group. repeat case_match; try apply steps_refl. cbn [fst].
  eapply steps_trans; [apply refines_over_state|apply refines_persist].
Qed.

Lemma remove_group_refines group : refines_fn (remove_service_group group).
Proof. intros s. eapply steps_trans; [apply refines_over_state|apply refines_persist]. Qed.

Lemma submit_member_refines group pin replacement submitted :
  refines_pair (λ s, submit_member group pin replacement (s, submitted)).
Proof.
  intros s. unfold submit_member. cbn [fst].
  eapply steps_trans; [|apply refines_enqueue].
  eapply steps_trans; [|apply refines_over_state].
  destruct replacement; [apply refines_over_state|apply steps_refl].
Qed.

Lemma per_machine_refines group machines live died submitted :
  refines_pair (λ s, reconcile_per_machine group machines live died (s, submitted)).
Proof.
  intros s. unfold reconcile_per_machine. case_match; [apply steps_refl|].
  case_match; [apply refines_over_state|]. case_match; [|apply refines_over_state].
  match goal with |- context [foldl ?f (?x, submitted) ?l] =>
    pose proof (refines_pair_foldl f l (x, submitted)) as Hf; destruct (foldl f (x, submitted) l) as [s1 f1]
  end.
  cbn [fst] in *. eapply steps_trans; [apply refines_over_state|].
  eapply steps_trans; [apply Hf|apply refines_over_state].
  intros m sub s2. apply (submit_member_refines group (Some m)).
Qed.

Lemma stop_member_refines acc member : steps acc.1.1 (stop_member acc member).1.1.
Proof.
  destruct acc as [[s to_stop] stopped]. unfold stop_member. destruct to_stop as [|rest]; [apply steps_refl|].
  destruct (lease_of_member s member) as [lease|].
  - pose proof (refines_service_apply (RevokeLease lease) s) as Hr. unfold revoke.
    destruct (service_apply (RevokeLease lease) s) as [s1 []]; apply Hr.
  - case_match; [apply refines_over_state|apply steps_refl].
Qed.

Lemma scale_down_refines group live excess : refines_pair (scale_down group live excess).
Proof.
  intros s. unfold scale_down.
  assert (∀ l acc, steps acc.1.1 (foldl stop_member acc l).1.1) as Hl.
  { induction l as [|m l IH]; intros acc; [apply steps_refl|]. simpl.
    eapply steps_trans; [apply stop_member_refines|apply IH]. }
  specialize (Hl (reverse (sort_by N.leb live)) (s, excess, [])).
  destruct (foldl stop_member _ _) as [[s1 n] stopped]. simpl in *.
  eapply steps_trans; [exact Hl|apply refines_over_state].
Qed.

Lemma touch_refines group : refines_fn (touch_restarts group).
Proof. intros s. apply refines_over_state. Qed.

Lemma iter_submit_refines group replacement n acc :
  steps acc.1 (Nat.iter n (submit_member group None replacement) acc).1.
Proof.
  induction n as [|n IH]; [apply steps_refl|]. simpl. eapply steps_trans; [exact IH|].
  destruct (Nat.iter n _ acc) as [s sub]. apply submit_member_refines.
Qed.

Lemma counted_refines group machines live died submitted :
  refines_pair (λ s, reconcile_counted group machines live died (s, submitted)).
Proof.
  intros s. unfold reconcile_counted.
  set (p := if (_ <? _)%nat then _ else _).
  assert (steps s p.1) as Hp.
  { subst p. case_match; [apply scale_down_refines|apply steps_refl]. }
  destruct p as [s1 live1]. simpl in Hp. eapply steps_trans; [exact Hp|].
  case_match; [apply steps_refl|]. unfold submit_members.
  match goal with |- context [Nat.iter ?n (submit_member group None false) ?acc] =>
    pose proof (iter_submit_refines group false n acc) as Hg;
    destruct (Nat.iter n (submit_member group None false) acc) as [s2 sub2] end.
  cbn [fst] in *. eapply steps_trans; [apply (touch_refines (group_id group))|].
  eapply steps_trans; [eapply steps_trans; [|exact Hg];
    apply (iter_submit_refines group true _ (touch_restarts (group_id group) s1, submitted))|].
  case_match; [apply refines_over_state|apply steps_refl].
Qed.

Lemma reconcile_group_refines machines group submitted :
  refines_pair (λ s, reconcile_group machines (s, submitted) group).
Proof.
  intros s. unfold reconcile_group. cbv zeta.
  match goal with |- steps s (match _ with PerMachine => reconcile_per_machine _ _ _ _ (?x, _) | _ => _ end).1 =>
    set (s1 := x) end.
  assert (steps s s1) as H1.
  { subst s1. case_match; [|apply refines_over_state].
    eapply steps_trans; apply refines_over_state. }
  eapply steps_trans; [exact H1|]. clearbody s1.
  case_match; try apply counted_refines. apply per_machine_refines.
Qed.

Lemma reconcile_groups_refines : refines_pair reconcile_service_groups.
Proof.
  intros s. unfold reconcile_service_groups.
  match goal with |- context [foldl ?f (?x, []) ?l] =>
    pose proof (refines_pair_foldl f l (x, [])) as Hf; destruct (foldl f (x, []) l) as [s1 f1]
  end.
  cbn [fst] in *. eapply steps_trans; [apply Hf|apply refines_persist].
  intros group sub s2. apply reconcile_group_refines.
Qed.

(** *** Registration *)

Lemma refines_mismatch machine : refines (mark_inventory_mismatch machine).
Proof. intros s. unfold mark_inventory_mismatch. case_match; [apply refines_commit|apply steps_refl]. Qed.

Lemma refines_or_mismatch machine m : refines m → refines (or_mismatch machine m).
Proof.
  intros Hm s. unfold or_mismatch. specialize (Hm s). destruct (m s) as [s1 [[]|e]]; [done|].
  simpl in Hm. eapply steps_trans; [exact Hm|].
  apply refines_bind; [apply refines_mismatch|intros; apply refines_lift].
Qed.

Lemma refines_readmit node : refines (readmit_device node).
Proof.
  unfold readmit_device. apply refines_bind; [apply refines_get|intros s].
  apply refines_bind; [apply refines_if; eauto with refine|intros ?].
  apply refines_bind; [apply refines_get|intros s'].
  apply refines_if; eauto with refine.
Qed.

Lemma refines_retire node : refines (retire_device node).
Proof. intros s. unfold retire_device. case_match; [apply refines_commit|apply steps_refl]. Qed.

Lemma refines_fact_writers machine devices : refines (reconcile_fact_writers machine devices).
Proof.
  unfold reconcile_fact_writers. do 2 (apply refines_bind; [eauto with refine|intros ?]).
  apply refines_if; eauto with refine.
Qed.

Lemma refines_claim_contracts machine devices : refines (reconcile_claim_contracts machine devices).
Proof.
  unfold reconcile_claim_contracts. do 2 (apply refines_bind; [eauto with refine|intros ?]).
  apply refines_if; eauto with refine.
Qed.

Lemma refines_device_subtree machine devices : refines (reconcile_device_subtree machine devices).
Proof.
  unfold reconcile_device_subtree. do 3 (apply refines_bind; [eauto with refine|intros ?]). cbv zeta.
  apply refines_bind; [apply refines_if; eauto with refine|intros ?].
  apply refines_bind; [apply refines_for; apply refines_retire|intros ?].
  apply refines_bind; [apply refines_get|intros ?].
  apply refines_bind; [apply refines_for; intros; apply refines_commit|intros ?].
  apply refines_for, refines_readmit.
Qed.

Lemma refines_reconcile_returning machine d : refines (reconcile_returning machine d).
Proof.
  unfold reconcile_returning. apply refines_bind; [apply refines_get|intros s].
  apply refines_bind; [case_match; [apply refines_ret|apply refines_or_mismatch, refines_lift]|intros ?].
  do 2 (apply refines_bind; [apply refines_or_mismatch, refines_lift|intros ?]).
  apply refines_bind; [apply refines_or_mismatch, refines_fact_writers|intros ?].
  apply refines_bind; [apply refines_or_mismatch, refines_device_subtree|intros ?].
  apply refines_or_mismatch, refines_claim_contracts.
Qed.

Lemma refines_register_new d : refines (register_new d).
Proof.
  unfold register_new. do 2 (apply refines_bind; [eauto with refine|intros ?]).
  case_match. case_match. do 2 (apply refines_bind; [eauto with refine|intros ?]). apply refines_lift.
Qed.

Lemma request_enumeration_refines machine : refines_fn (request_enumeration machine).
Proof.
  intros s. unfold request_enumeration. case_match; [|apply steps_refl].
  case_match; [apply steps_refl|]. apply steps_send. intros g. split_and!; eauto.
Qed.

(** A fresh recovery holds no evidence. *)
Lemma fresh_recovery machine session (m : gmap N MachineRecovery) :
  evidence_lost m (<[machine := recovery_new session]> m).
Proof.
  split.
  - intros m' lease status (r & Hr & Hst). rewrite lookup_insert_Some in Hr.
    destruct Hr as [[<- <-]|[_ Hr]]; [done|by exists r].
  - intros m' endpoints (r & Hr & Hen). rewrite lookup_insert_Some in Hr.
    destruct Hr as [[<- <-]|[_ Hr]]; [done|by exists r].
Qed.

Lemma refines_begin_session machine new_machine caps : refines (begin_session machine new_machine caps).
Proof.
  unfold begin_session. apply refines_bind; [|intros ?].
  { apply refines_modify. intros s.
    apply ksteps_step; [intros; apply step_link|by left|apply evidence_lost_refl]. }
  do 2 (apply refines_bind; [eauto with refine|intros ?]).
  apply refines_bind; [|intros ?].
  { apply refines_if; [apply refines_modify; intros s|apply refines_if; eauto with refine].
    apply steps_frame. constructor; try reflexivity; [by left|]. apply fresh_recovery. }
  apply refines_bind; [apply refines_commit|intros ?].
  apply refines_bind; [|intros ?; apply refines_pump].
  apply refines_modify. intros s. case_match; [apply request_enumeration_refines|apply steps_refl].
Qed.

Lemma refines_register_agent d caps : refines (register_agent_with_capabilities d caps).
Proof.
  unfold register_agent_with_capabilities. do 2 (apply refines_bind; [eauto with refine|intros ?]).
  case_match.
  - apply refines_bind; [apply refines_reconcile_returning|intros ?].
    apply refines_bind; [apply refines_begin_session|intros ?; apply refines_ret].
  - apply refines_bind; [apply refines_register_new|intros ?].
    apply refines_bind; [apply refines_begin_session|intros ?; apply refines_ret].
Qed.
End operations.

#[export] Hint Resolve status_refines request_status_refines maybe_start_refines maybe_stop_refines maybe_activate_refines refines_route refines_pump_one refines_pump refines_drive_held_effects refines_service_apply : refine.
