(* ===== verification/Waiting.v ===== *)
(** Waiting on agents with a deadline: [drive] and [is_running] of
    src/crates/node/src/service.rs.

    Time enters as what happens while the controller waits: a wait is the
    answers the workers post during it, and a loop is given its waits before
    the deadline, in order.  A loop that runs out of them has reached its
    deadline. *)

From S2P Require Import Prelude Identifier Types Workload Endpoint Protocol Provider Graph Command.
From S2P Require Import Cluster Steps ServiceState Service Routing Absorb ServiceSpec ServiceRefines.

Section waiting.
Context `{!PathCodec}.

(** Answers of workers, in order, during one wait on the inbox. *)
Definition Wait : Type := list (NodeId * AgentReply).

Definition wait_timeout (w : Wait) (s : NodeService) : NodeService :=
  foldl (λ s '(machine, reply), deliver machine reply s) s w.

(** [NodeService::drive] *)
Fixpoint drive (waits : list Wait) : SM unit := λ s,
  match drive_round s with
  | (s, Err e) => (s, Err e)
  | (s, Ok _) =>
      if is_quiescent s then (s, Ok ())
      else match waits with
           | [] => (s, Ok ())
           | w :: waits => drive waits (wait_timeout w s)
           end
  end.

Definition lease_state_is (s : NodeService) (lease : LeaseId) (st : LeaseState) : bool :=
  match c_leases (ns_cluster s) !! lease with
  | Some l => bool_decide (lease_state l = st)
  | None => false
  end.

(** The first loop of [is_running]: activation settles, or two seconds pass. *)
Fixpoint settle_preparing (lease : LeaseId) (rounds : list (list Wait)) (s : NodeService) : NodeService :=
  match rounds with
  | [] => s
  | waits :: rounds =>
      if lease_state_is s lease LPreparing then settle_preparing lease rounds (drive waits s).1 else s
  end.

Definition all_running (lease : LeaseId) (machines : list NodeId) (s : NodeService) : bool :=
  forallb (λ machine, match ns_member_status s !! (lease, machine) with
                      | Some status => ms_running status
                      | None => false
                      end) machines.

(** The second: its body runs at least once. *)
Fixpoint poll_running (lease : LeaseId) (waits : list Wait) (rounds : list (list Wait)) (s : NodeService) :
    NodeService * bool :=
  if negb (lease_state_is s lease LActive) then (s, false)
  else
    let machines := lease_machines s lease in
    if bool_decide (machines = []) then (s, false)
    else
      let s := (drive waits (request_status lease s)).1 in
      if all_running lease machines s then (s, true)
      else match rounds with
           | [] => (s, false)
           | waits :: rounds => poll_running lease waits rounds s
           end.

(** [NodeService::is_running] *)
Definition is_running (lease : LeaseId) (settling : list (list Wait)) (waits : list Wait)
    (polling : list (list Wait)) (s : NodeService) : NodeService * bool :=
  match c_leases (ns_cluster s) !! lease with
  | None => (s, false)
  | Some _ => poll_running lease waits polling (settle_preparing lease settling s)
  end.

(** ** Facts *)

Lemma wait_reaches w s : reaches s (wait_timeout w s).
Proof.
  unfold wait_timeout. revert s. induction w as [|[machine reply] w IH]; intros s; [apply reaches_refl|].
  eapply reaches_trans; [apply reaches_work|apply IH].
Qed.

(** Waiting is steps of the abstract controller, whatever arrives meanwhile. *)
Lemma drive_reaches waits s : reaches s (drive waits s).1.
Proof.
  revert s. induction waits as [|w waits IH]; intros s; cbn [drive];
    pose proof (reaches_steps _ _ (refines_drive_round s)) as Hr;
    destruct (drive_round s) as [s1 [[]|e]]; try done; destruct (is_quiescent s1); try done.
  eapply reaches_trans; [exact Hr|]. eapply reaches_trans; [apply (wait_reaches w)|apply IH].
Qed.

(** It ends quiescent, at the deadline, or with the error of a round. *)
Inductive driven : list Wait → NodeService → NodeService → result Error unit → Prop :=
| driven_error waits s s' e : drive_round s = (s', Err e) → driven waits s s' (Err e)
| driven_quiet waits s s' : drive_round s = (s', Ok ()) → is_quiescent s' = true → driven waits s s' (Ok ())
| driven_late s s' : drive_round s = (s', Ok ()) → driven [] s s' (Ok ())
| driven_wait w waits s s1 s' r :
    drive_round s = (s1, Ok ()) → is_quiescent s1 = false → driven waits (wait_timeout w s1) s' r →
    driven (w :: waits) s s' r.

Lemma drive_driven waits s : driven waits s (drive waits s).1 (drive waits s).2.
Proof.
  revert s. induction waits as [|w waits IH]; intros s; cbn [drive];
    destruct (drive_round s) as [s1 [[]|e]] eqn:Hr; try (by apply driven_error);
    destruct (is_quiescent s1) eqn:Hq; try (by apply driven_quiet); try (by apply driven_late).
  by eapply driven_wait.
Qed.

Lemma settle_reaches lease rounds s : reaches s (settle_preparing lease rounds s).
Proof.
  revert s. induction rounds as [|waits rounds IH]; intros s; [apply reaches_refl|]. cbn.
  destruct (lease_state_is s lease LPreparing); [|apply reaches_refl].
  eapply reaches_trans; [apply (drive_reaches waits)|apply IH].
Qed.

Lemma poll_reaches lease waits rounds s : reaches s (poll_running lease waits rounds s).1.
Proof.
  revert waits s. induction rounds as [|waits' rounds IH]; intros waits s; cbn [poll_running];
    (destruct (lease_state_is s lease LActive); cbn [negb]; [|apply reaches_refl]);
    (case_bool_decide; [apply reaches_refl|]);
    (assert (reaches s (drive waits (request_status lease s)).1) as Hs
       by (eapply reaches_trans; [apply reaches_steps, request_status_refines|apply drive_reaches]));
    (destruct (all_running _ _ _); [done|]); [done|].
  eapply reaches_trans; [exact Hs|apply IH].
Qed.

(** The question changes the controller only by its own steps, and a yes
    rests on the report of every machine of the lease, which was active when
    they were asked. *)
Theorem is_running_sound lease settling waits polling s :
  let '(s', running) := is_running lease settling waits polling s in
  reaches s s'
  ∧ (running = true → ∃ s1, reaches s s1 ∧ reaches s1 s' ∧ lease_state_is s1 lease LActive = true
       ∧ lease_machines s1 lease ≠ []
       ∧ ∀ machine, machine ∈ lease_machines s1 lease →
           ∃ status, ns_member_status s' !! (lease, machine) = Some status ∧ ms_running status = true).
Proof.
  unfold is_running. destruct (c_leases (ns_cluster s) !! lease); [|by split; [apply reaches_refl|]].
  set (s0 := settle_preparing lease settling s). assert (reaches s s0) as H0 by apply settle_reaches.
  clearbody s0. revert waits s0 H0. induction polling as [|waits' polling IH]; intros waits s0 H0; cbn [poll_running];
    (destruct (lease_state_is s0 lease LActive) eqn:Hact; cbn [negb]; [|done]);
    (case_bool_decide as Hm; [done|]);
    (assert (reaches s0 (drive waits (request_status lease s0)).1) as Hs
       by (eapply reaches_trans; [apply reaches_steps, request_status_refines|apply drive_reaches]));
    set (s1 := (drive waits (request_status lease s0)).1) in *; clearbody s1;
    destruct (all_running lease (lease_machines s0 lease) s1) eqn:Hall.
  2: { split; [by eapply reaches_trans|done]. }
  3: { apply IH. by eapply reaches_trans. }
  all: split; [by eapply reaches_trans|]; intros _; exists s0; split_and!; try done;
    intros machine Hin; unfold all_running in Hall; rewrite List.forallb_forall in Hall;
    specialize (Hall machine (proj1 (list_elem_of_In _ _) Hin));
    destruct (ns_member_status s1 !! (lease, machine)) as [status|]; [by exists status|done].
Qed.
End waiting.
