(* ===== verification/PumpFacts.v ===== *)
(** The routing loop terminates: [pump] drains every pending effect.

    Routing an effect may commit commands whose effects join the queue, so the
    loop is not structural.  A reconciliation weighs more than all it can emit. *)

From S2P Require Import Prelude Identifier Text Types Workload Endpoint Protocol Provider Graph.
From S2P Require Import Inventory Discover Occupancy Command Cluster LeaseTree Handlers ClusterInv.
From S2P Require Import Steps Safety Authority Bindings ServiceState Service Routing ServiceSpec.
From S2P Require Import ServiceRefines.

(** ** The loop as the code runs it *)

Inductive pump_runs : NodeService → NodeService * result Error unit → Prop :=
| pump_empty s : ns_pending s = [] → pump_runs s (s, Ok ())
| pump_error s e rest s' err :
    ns_pending s = e :: rest → pump_one e (set_pending rest s) = (s', Err err) →
    pump_runs s (s', Err err)
| pump_next s e rest s' out :
    ns_pending s = e :: rest → pump_one e (set_pending rest s) = (s', Ok ()) →
    pump_runs s' out → pump_runs s out.

(** ** Weights *)

Section weights.
Context (B : nat).

Definition command_weight (command : Command) : nat :=
  match command with ActivateBinding _ => 1 | FailLease _ _ => B | _ => 0 end.

(** The commands routing commits. *)
Definition routed (command : Command) : bool :=
  match command with RebindSession _ _ | ActivateBinding _ | FailLease _ _ => true | _ => false end.

Definition weight (s : NodeService) : nat := sum_list_with (effect_weight B) (ns_pending s).

Definition bounded (c : Cluster) : Prop := cluster_inv c ∧ size (c_bindings c) = B.

Lemma fence_effects_weight c lease :
  size (c_bindings c) = B → (sum_list_with (effect_weight B) (fence_effects c lease) ≤ B)%nat.
Proof.
  intros <-. unfold fence_effects, lease_open_bindings.
  assert (∀ l, sum_list_with (effect_weight (size (c_bindings c)))
            ((λ b, binding_effect c b EffFence) <$> l) = length l) as ->.
  { induction l as [|b l IH]; [done|]. cbn. by rewrite IH. }
  etrans; [apply filter_length_le|]. unfold bt_values. rewrite length_fmap.
  by rewrite (Permutation_length (bt_iter_perm _)), length_map_to_list.
Qed.

(** Bindings belong to roots. *)
Lemma child_no_effects c p k :
  cluster_inv c → k ∈ descendants_postorder c p → fence_effects c k = [].
Proof.
  intros Hinv Hk%elem_of_descendants; [|done]. unfold fence_effects, lease_open_bindings.
  destruct (List.filter _ _) as [|b l] eqn:Hl; [done|].
  assert (b ∈ b :: l) as Hb by constructor. rewrite <-Hl, list_elem_of_In, filter_In in Hb.
  destruct Hb as [Hb [Hlease _]%andb_prop]. rewrite <-list_elem_of_In, elem_of_bt_values in Hb.
  destruct Hb as (j & (Hid & lease & Hle & Hroot & _)%(ci_binds _ Hinv)).
  apply N.eqb_eq in Hlease. subst k. exfalso. unfold under in Hk.
  inversion Hk as [? ? Hp|? ? ? Hp _]; subst; apply lease_parents_Some in Hp as (l' & Hl' & Hp');
    congruence.
Qed.

Lemma bind_nil {A C} (f : A → list C) l : (∀ x, x ∈ l → f x = []) → l ≫= f = [].
Proof.
  intros Hf. induction l as [|x l IH]; [done|]. rewrite bind_cons, Hf by constructor.
  apply IH. intros y Hy. apply Hf. by constructor.
Qed.

Lemma routed_dispatch c command c' es :
  bounded c → routed command = true → dispatch command c = (c', Ok es) →
  bounded c' ∧ (sum_list_with (effect_weight B) es ≤ command_weight command)%nat.
Proof.
  intros [Hinv Hsz] Hr Hrun.
  assert (command_u64 command = true) as Hu by (by destruct command).
  pose proof (dispatch_inv _ _ _ _ Hinv Hu Hrun) as Hinv'.
  pose proof (dispatch_bindings _ _ _ _ Hinv Hrun) as Hbs.
  assert (size (c_bindings c') = B) as Hsz'.
  { rewrite <-size_dom, <-Hsz, <-(size_dom (c_bindings c)).
    destruct command; try done; simpl in Hbs;
      repeat match goal with
        | H : _ ∨ _ |- _ => destruct H as [->|[-> _]]
        | H : c_bindings c' = _ |- _ => rewrite H
        end; rewrite ?dom_alter_L; done. }
  split; [done|]. destruct command; try done; cbn [dispatch command_weight] in *.
  - rewrite fail_lease_run in Hrun by done. destruct (c_leases c !! lease) as [l|]; [|done].
    injection Hrun as _ <-.
    rewrite bind_nil by (intros k; by apply child_no_effects). rewrite app_nil_l.
    case_match; [simpl; lia|]. by apply fence_effects_weight.
  - unfold activate_binding in Hrun. by run Hrun.
  - unfold rebind_session in Hrun. by run Hrun.
Qed.

(** ** One turn *)

Definition pumping (s : NodeService) : Prop := bounded (ns_cluster s).

(** Same kernel state, same queue. *)
Definition quiet (s s' : NodeService) : Prop :=
  ns_cluster s' = ns_cluster s ∧ ns_pending s' = ns_pending s.

Lemma quiet_refl s : quiet s s.
Proof. done. Qed.
Lemma quiet_trans s1 s2 s3 : quiet s1 s2 → quiet s2 s3 → quiet s1 s3.
Proof. intros [] []. split; congruence. Qed.
Lemma dispatch_quiet machine tag request s : quiet s (service_dispatch machine tag request s).
Proof. split; [apply dispatch_cluster|apply dispatch_pending]. Qed.
Lemma quiet_foldl {A} (f : NodeService → A → NodeService) l s :
  (∀ s x, quiet s (f s x)) → quiet s (foldl f s l).
Proof.
  intros Hf. revert s. induction l as [|x l IH]; intros s; [done|]. simpl.
  eapply quiet_trans; [apply Hf|apply IH].
Qed.

Lemma status_quiet lease machine s : quiet s (request_status_on_machine lease machine s).
Proof.
  unfold request_status_on_machine. repeat case_match; try apply quiet_refl. apply dispatch_quiet.
Qed.

Lemma maybe_stop_quiet lease s : quiet s (maybe_stop_executions lease s).
Proof.
  unfold maybe_stop_executions. case_match; [|done]. apply quiet_foldl. intros s' machine.
  unfold stop_on_machine. repeat case_match; try apply quiet_refl. apply dispatch_quiet.
Qed.

Lemma quiet_pumping s s' : quiet s s' → pumping s → pumping s' ∧ weight s' = weight s.
Proof. intros [Hc Hp]. unfold pumping, weight. by rewrite Hc, Hp. Qed.

Lemma commit_pumping command s :
  pumping s → routed command = true →
  pumping (commit command s).1 ∧ (weight (commit command s).1 ≤ weight s + command_weight command)%nat.
Proof.
  intros Hs Hr. unfold pumping, weight, commit. rewrite apply_run.
  destruct (dispatch command (ns_cluster s)) as [c [es|e]] eqn:Hrun.
  - destruct (routed_dispatch _ _ _ _ Hs Hr Hrun) as [[Hinv Hsz] Hw].
    set (s1 := set_history _ _).
    assert (ns_cluster (persist (Some command) s1) = set_log (c_log c ++ [command]) c
            ∧ ns_pending (persist (Some command) s1) = ns_pending s) as [Hc1 Hp1].
    { unfold persist. by destruct (ns_durable s1). }
    cbn [fst ns_cluster ns_pending set_pending]. rewrite Hc1, Hp1.
    split; [split; [by apply (inv_same c)|done]|]. rewrite sum_list_with_app. lia.
  - cbn [fst ns_cluster set_cluster ns_pending].
    rewrite (dispatch_error_unchanged _ command c e) by (done || apply Hs).
    split; [exact Hs|lia].
Qed.

Lemma commits_pumping commands s :
  pumping s → forallb routed commands = true →
  pumping (sfor commit commands s).1
  ∧ (weight (sfor commit commands s).1 ≤ weight s + sum_list_with command_weight commands)%nat.
Proof.
  revert s. induction commands as [|command commands IH]; intros s Hs Hr; [split; [done|simpl; lia]|].
  cbn [forallb] in Hr. apply andb_prop in Hr as [Hr Hrs]. cbn [sfor sum_list_with]. unfold mbind, SM_bind.
  destruct (commit_pumping command s Hs Hr) as [Hs1 Hw1].
  destruct (commit command s) as [s1 [[]|e]]; cbn [fst] in *; [|split; [done|lia]].
  destruct (IH s1 Hs1 Hrs) as [Hs2 Hw2]. split; [done|lia].
Qed.

(** *** Recovery *)

Lemma classify_sets machine bindings s sets :
  let '(s', sets') := foldl (classify_binding machine) (s, sets) bindings in
  quiet s s' ∧ (size (rs_preparing sets') ≤ size (rs_preparing sets) + length bindings)%nat.
Proof.
  revert s sets. induction bindings as [|b bindings IH]; intros s sets; [simpl; split; [done|lia]|].
  cbn [foldl]. destruct (classify_binding machine (s, sets) b) as [s1 sets1] eqn:H1.
  assert (quiet s s1 ∧ (size (rs_preparing sets1) ≤ S (size (rs_preparing sets)))%nat) as [Hq Hsz].
  { unfold classify_binding in H1. repeat case_match; simplify_eq; simpl; try (split; [done|lia]).
    split; [done|]. rewrite size_union_alt, size_singleton. 
    pose proof (subseteq_size (rs_preparing sets ∖ {[binding_lease b0]}) (rs_preparing sets)).
    set_solver by lia. }
  specialize (IH s1 sets1). destruct (foldl _ _ _) as [s2 sets2]. destruct IH as [Hq2 Hsz2].
  split; [by eapply quiet_trans|]. cbn [length]. lia.
Qed.

Lemma length_bs_iter (x : gset N) : length (bs_iter x) = size x.
Proof. unfold bs_iter. by rewrite (Permutation_length (sort_by_perm _ _)). Qed.

Lemma route_recovery_emits machine bindings s :
  let '(s', commands) := route_recovery machine bindings s in
  quiet s s' ∧ forallb routed commands = true
  ∧ (sum_list_with command_weight commands ≤ length bindings * B)%nat.
Proof.
  unfold route_recovery. pose proof (classify_sets machine bindings s (mkSets ∅ ∅ ∅)) as Hc.
  destruct (foldl _ _ _) as [s1 sets]. destruct Hc as [Hq Hsz]. split_and!.
  - eapply quiet_trans; [exact Hq|].
    eapply quiet_trans; [|apply quiet_foldl; intros; apply status_quiet].
    eapply quiet_trans; [|apply quiet_foldl; intros; eapply quiet_trans; [|apply status_quiet]; done]. done.
  - apply forallb_forall. intros command. rewrite <-list_elem_of_In, list_elem_of_fmap. by intros (l & -> & _).
  - assert (∀ l, sum_list_with command_weight
              ((λ lease, FailLease lease "restart left preparation unproven") <$> l) = length l * B)%nat as ->.
    { induction l as [|x l IH]; [done|]. rewrite fmap_cons. cbn [sum_list_with]. rewrite IH. simpl. lia. }
    rewrite length_bs_iter. by apply Nat.mul_le_mono_r.
Qed.

(** ** Turns and the loop *)

Lemma redrive_emits s session bindings :
  forallb routed (bindings ≫= redrive s session) = true
  ∧ (sum_list_with command_weight (bindings ≫= redrive s session) ≤ length bindings)%nat.
Proof.
  induction bindings as [|b bindings [IH1 IH2]]; [split; [done|simpl; lia]|].
  rewrite bind_cons, forallb_app, sum_list_with_app, IH1. cbn [length].
  assert (forallb routed (redrive s session b) = true
          ∧ (sum_list_with command_weight (redrive s session b) ≤ 1)%nat) as [H1 H2].
  { unfold redrive. repeat case_match; simpl; split; (done || lia). }
  rewrite H1. split; [done|lia].
Qed.

Lemma rebind_pumping binding b s :
  pumping s → pumping (rebind_if_stale binding b s).1
  ∧ (weight (rebind_if_stale binding b s).1 ≤ weight s)%nat.
Proof.
  intros Hs. unfold rebind_if_stale. repeat case_match; try (split; [done|simpl; lia]).
  destruct (commit_pumping (RebindSession binding n) s Hs eq_refl) as [Hs1 Hw].
  split; [done|]. simpl in *. lia.
Qed.

Lemma route_binding_quiet binding b phase epoch session fence s :
  quiet s (route_binding binding b phase epoch session fence s).1.
Proof.
  unfold route_binding. repeat case_match; try apply quiet_refl; [|apply dispatch_quiet].
  eapply quiet_trans; [apply maybe_stop_quiet|done].
Qed.

Lemma route_phase_pumping e binding epoch phase s :
  effect_phase e = Some (binding, epoch, phase) → pumping s →
  pumping (route e s).1 ∧ (weight (route e s).1 ≤ weight s)%nat
  ∧ ∀ commands, (route e s).2 = Ok commands → commands = [].
Proof.
  intros He Hs. unfold route. rewrite He. destruct e; simplify_eq/=.
  all: destruct (c_bindings (ns_cluster s) !! binding) as [b|]; [|split_and!; [done|cbn [fst]; lia|done]].
  all: destruct (rebind_pumping binding b s Hs) as [Hs1 Hw1].
  all: unfold mbind, SM_bind; destruct (rebind_if_stale binding b s) as [s1 [[]|err]];
         cbn [fst snd] in *; [|split_and!; [done|cbn [fst]; lia|done]].
  all: cbn [sget slift]; destruct (c_bindings (ns_cluster s1) !! binding) as [r|];
         cbn [ok_or fst snd]; [|split_and!; [done|cbn [fst]; lia|done]].
  all: match goal with |- context [route_binding ?x ?y ?ph ?ep ?se ?fe ?st] =>
         pose proof (route_binding_quiet x y ph ep se fe st) as Hq;
         destruct (route_binding x y ph ep se fe st) as [s2 [[]|err]] end.
  all: destruct (quiet_pumping s1 s2 Hq Hs1) as [Hs2 Hw2]; cbn [fst snd mret SM_ret].
  all: split_and!; [done|lia|intros ?; by intros [= <-]].
Qed.

Lemma route_pumping e s :
  pumping s →
  pumping (route e s).1 ∧ (weight (route e s).1 ≤ weight s)%nat
  ∧ ∀ commands, (route e s).2 = Ok commands → forallb routed commands = true
      ∧ (sum_list_with command_weight commands < effect_weight B e)%nat.
Proof.
  intros Hs. destruct (effect_phase e) as [[[binding epoch] phase]|] eqn:He.
  - destruct (route_phase_pumping e binding epoch phase s He Hs) as (H1 & H2 & H3).
    split_and!; [done..|]. intros commands ->%H3. split; [done|]. destruct e; simpl; lia.
  - destruct e; try done. cbn [route effect_weight]. case_match.
    + pose proof (route_recovery_emits machine bindings s) as Hr.
      destruct (route_recovery machine bindings s) as [s1 commands]. destruct Hr as (Hq & Hr & Hw).
      destruct (quiet_pumping s s1 Hq Hs) as [Hs1 Hw1]. cbn [fst snd].
      split_and!; [done|lia|]. intros ? [= <-]. split; [done|lia].
    + destruct (redrive_emits s session bindings) as [Hr Hw]. cbn [fst snd].
      split_and!; [done|lia|]. intros ? [= <-]. split; [done|]. lia.
Qed.

Lemma pump_one_pumping e s :
  pumping s → pumping (pump_one e s).1 ∧ (weight (pump_one e s).1 < weight s + effect_weight B e)%nat.
Proof.
  intros Hs. destruct (route_pumping e s Hs) as (Hs1 & Hw1 & Hc). unfold pump_one, mbind, SM_bind.
  destruct (route e s) as [s1 [commands|err]]; cbn [fst snd] in *.
  - destruct (Hc commands eq_refl) as [Hr Hw].
    destruct (commits_pumping commands s1 Hs1 Hr) as [Hs2 Hw2]. split; [done|lia].
  - split; [done|]. destruct e; simpl; lia.
Qed.

Lemma pump_loop_runs fuel s :
  pumping s → (weight s ≤ fuel)%nat → pump_runs s (pump_loop fuel s).
Proof.
  revert s. induction fuel as [|fuel IH]; intros s Hs Hw; simpl;
    destruct (ns_pending s) as [|e rest] eqn:Hp; try by apply pump_empty.
  { unfold weight in Hw. rewrite Hp in Hw. destruct e; simpl in Hw; lia. }
  destruct (pump_one_pumping e (set_pending rest s) Hs) as [Hs1 Hw1].
  unfold mbind, SM_bind. destruct (pump_one e (set_pending rest s)) as [s1 [[]|err]] eqn:Hone.
  - eapply pump_next; [done..|]. apply IH; [done|]. cbn [fst] in Hw1.
    unfold weight in *. rewrite Hp in Hw. simpl in Hw, Hw1. lia.
  - by eapply pump_error.
Qed.
End weights.

Lemma pump_runs_drains s out : pump_runs s out → out.2 = Ok () → ns_pending out.1 = [].
Proof. by induction 1. Qed.

(** C29. Routing terminates in every consistent state: the loop of [pump], run
    until no effect is pending or a step fails, ends with the result the
    definition computes, and on success no effect is left, although the
    commands it commits (rebinds, activations, failed preparations of a
    returning machine) emit effects of their own. *)
Theorem pump_drains s :
  cluster_inv (ns_cluster s) →
  pump_runs s (pump s) ∧ (is_ok (pump s).2 = true → ns_pending (pump s).1 = []).
Proof.
  intros Hinv.
  assert (pump_runs s (pump s)) as Hrun by (by eapply (pump_loop_runs (size (c_bindings (ns_cluster s))))).
  split; [done|]. intros Hok. eapply pump_runs_drains; [done|]. by destruct (pump s) as [? [[]|]].
Qed.
