(* ===== verification/ServiceSafety.v ===== *)
(** Runs of the controller: every operation refines the abstract controller,
    and the kernel state of a run is rebuilt from its journal. *)

From S2P Require Import Prelude Identifier Text Types Workload Endpoint Protocol Provider Graph.
From S2P Require Import Inventory Discover Occupancy Command Cluster Handlers ClusterInv Steps Safety.
From S2P Require Import Authority Bindings Replay Select Admit Scheduler ServiceState Service Routing.
From S2P Require Import Absorb Controller Registration ServiceSpec ServiceRefines.

(** ** Operations and runs *)

Inductive CtlOp :=
| CApply (command : Command)
| CRevoke (lease : LeaseId)
| CTick (now : u64)
| CMarkUnhealthy (machine : NodeId)
| CProbe
| CTakeUnreachable
| CTakeRecoveryEvents
| CSubmit (workload : WorkloadSpec) (owner : OwnerId)
| CAdmit (policy : AdmissionPolicy)
| CQueueRestarts
| CRegisterGroup (group : ServiceGroup)
| CScaleGroup (id : string) (target : N)
| CRemoveGroup (id : string)
| CReconcileGroups
| CDrive
| CCollect
| CRegister (description : MachineDescription) (caps : ExecutionCapabilities)
| CWork (machine : NodeId) (reply : AgentReply)    (* a worker answers its first job *)
| CAnswer (tag : Tag) (reply : AgentReply).        (* any answer whatsoever *)

Section runs.
Context {codec : PathCodec}.

(** A failed operation leaves the state it reached. *)
Definition ctl_run (s : NodeService) (op : CtlOp) : NodeService :=
  match op with
  | CApply command => (service_apply command s).1
  | CRevoke lease => (revoke lease s).1
  | CTick now => (tick now s).1
  | CMarkUnhealthy machine => (mark_machine_unhealthy machine s).1
  | CProbe => probe_agents s
  | CTakeUnreachable => (take_unreachable s).1
  | CTakeRecoveryEvents => (take_recovery_events s).1
  | CSubmit workload owner => submit workload owner s
  | CAdmit policy => (admit_one_with_policy policy s).1
  | CQueueRestarts => (queue_restarts s).1
  | CRegisterGroup group => (register_service_group group s).1
  | CScaleGroup id target => (scale_service_group id target s).1
  | CRemoveGroup id => remove_service_group id s
  | CReconcileGroups => (reconcile_service_groups s).1
  | CDrive => (drive_round s).1
  | CCollect => (collect_completions s).1
  | CRegister d caps => (register_agent_with_capabilities d caps s).1
  | CWork machine reply => deliver machine reply s
  | CAnswer tag reply => inbox_post tag reply s
  end.

(** The answers an operation posts: only the agents' do. *)
Definition posts (s : NodeService) (op : CtlOp) : list (Tag * AgentReply) :=
  match op with
  | CWork machine reply => work_answer s machine reply
  | CAnswer tag reply => [(tag, reply)]
  | _ => []
  end.

Lemma ctl_run_own op s :
  match op with CWork _ _ | CAnswer _ _ => False | _ => True end → steps s (ctl_run s op).
Proof.
  destruct op; cbn [ctl_run]; intros Hown; try done.
  - apply refines_service_apply.
  - apply refines_service_apply.
  - apply refines_tick.
  - apply refines_mark_unhealthy.
  - apply probe_refines.
  - frame_step.
  - frame_step.
  - apply submit_refines.
  - apply refines_admit.
  - apply queue_restarts_refines.
  - apply register_group_refines.
  - apply scale_group_refines.
  - apply remove_group_refines.
  - apply reconcile_groups_refines.
  - apply refines_drive_round.
  - apply refines_collect_completions.
  - apply refines_register_agent.
Qed.

Lemma ctl_run_steps op s g :
  grounded s g → ∃ g', rtc step (s, g) (ctl_run s op, g') ∧ g_posted g' = g_posted g ++ posts s op
    ∧ grounded (ctl_run s op) g'.
Proof.
  intros Hg.
  assert (steps s (ctl_run s op) → posts s op = [] → ∃ g', rtc step (s, g) (ctl_run s op, g')
    ∧ g_posted g' = g_posted g ++ posts s op ∧ grounded (ctl_run s op) g') as Hown.
  { intros Hs ->. destruct (Hs g (known_nothing g) Hg) as (g' & Hrun & _ & Hp & Hg').
    exists g'. by rewrite app_nil_r. }
  destruct op; try (by apply Hown; [apply ctl_run_own|]); cbn [ctl_run posts].
  - eexists. split_and!; [apply rtc_once, step_work|done|by apply grounded_deliver].
  - eexists. split_and!; [apply rtc_once, step_answer|done|by apply grounded_post].
Qed.

Definition ctl_runs (s : NodeService) (ops : list CtlOp) : NodeService := foldl ctl_run s ops.

Fixpoint all_posts (s : NodeService) (ops : list CtlOp) : list (Tag * AgentReply) :=
  match ops with
  | [] => []
  | op :: ops => posts s op ++ all_posts (ctl_run s op) ops
  end.

Lemma ctl_runs_steps ops s g :
  grounded s g → ∃ g', rtc step (s, g) (ctl_runs s ops, g') ∧ g_posted g' = g_posted g ++ all_posts s ops
    ∧ grounded (ctl_runs s ops) g'.
Proof.
  revert s g. induction ops as [|op ops IH]; intros s g Hg; cbn.
  { exists g. by rewrite app_nil_r. }
  destruct (ctl_run_steps op s g Hg) as (g1 & Hrun1 & Hp1 & Hg1).
  destruct (IH _ g1 Hg1) as (g2 & Hrun2 & Hp2 & Hg2).
  exists g2. split_and!; [by etrans|by rewrite Hp2, Hp1, app_assoc|done].
Qed.

Lemma ctl_runs_reaches ops s : reaches s (ctl_runs s ops).
Proof. intros g (g' & Hrun & _ & Hg')%(ctl_runs_steps ops). eauto. Qed.




End runs.

(** ** The journal of a run *)

(** The kernel state is reached by the logged commands, and the journal of an
    attached sink holds exactly those. *)
Record service_inv (s : NodeService) : Prop := {
  si_reachable : ∃ ops, ns_cluster s = run_ops ops ∧ forallb op_u64 ops = true
                   ∧ forallb op_logged ops = true;
  si_history : c_log (ns_cluster s) = ns_history s;
  si_journal : ns_durable s = true → omap (M := list) fst (ns_journal s) = ns_history s;
}.

Definition fits (s : NodeService) : Prop := forallb command_u64 (ns_history s) = true.

Lemma service_inv_same s s' :
  ns_cluster s' = ns_cluster s → ns_durable s' = ns_durable s → ns_journal s' = ns_journal s →
  ns_history s' = ns_history s → service_inv s → service_inv s'.
Proof.
  intros Hc Hd Hj Hh [H1 H2 H3].
  constructor; [by rewrite Hc|by rewrite Hc, Hh|by rewrite Hd, Hj, Hh].
Qed.

Lemma service_inv_persist s : service_inv s → service_inv (persist None s).
Proof.
  intros [H1 H2 H3]. unfold persist. destruct (ns_durable s) eqn:Hd; [|constructor; congruence].
  constructor; [done..|]. intros _. simpl. rewrite omap_app, H3 by done. by rewrite app_nil_r.
Qed.

Lemma reachable_extend c op :
  (∃ ops, c = run_ops ops ∧ forallb op_u64 ops = true ∧ forallb op_logged ops = true) →
  op_u64 op = true → op_logged op = true →
  ∃ ops, run_op c op = run_ops ops ∧ forallb op_u64 ops = true ∧ forallb op_logged ops = true.
Proof.
  intros (ops & -> & Hu & Hl) Hu' Hl'. exists (ops ++ [op]).
  rewrite run_ops_snoc, !forallb_app, Hu, Hl. cbn [forallb]. by rewrite Hu', Hl'.
Qed.

Lemma reachable_inv s : service_inv s → cluster_inv (ns_cluster s).
Proof. intros [(ops & -> & Hu & _) _ _]. by apply run_ops_inv. Qed.

Lemma commit_accepted command s c es :
  dispatch command (ns_cluster s) = (c, Ok es) →
  let s' := (commit command s).1 in
  ns_cluster s' = set_log (c_log c ++ [command]) c ∧ ns_history s' = ns_history s ++ [command]
  ∧ ns_durable s' = ns_durable s
  ∧ (ns_durable s = true → ns_journal s' = ns_journal s ++ [(Some command, ns_state s)]).
Proof.
  intros Hrun. unfold commit. rewrite apply_run, Hrun. unfold persist.
  cbn [ns_durable set_history set_cluster fst]. by destruct (ns_durable s) eqn:Hd.
Qed.

Lemma commit_refused command s c e :
  cluster_inv (ns_cluster s) → dispatch command (ns_cluster s) = (c, Err e) →
  (commit command s).1 = s.
Proof.
  intros Hinv Hrun. unfold commit. rewrite apply_run, Hrun. cbn [fst].
  rewrite (dispatch_error_unchanged _ command c e) by done. by destruct s.
Qed.

Lemma service_inv_commit command s :
  service_inv s → fits (commit command s).1 → service_inv (commit command s).1.
Proof.
  intros Hinv. pose proof (reachable_inv s Hinv) as Hc. unfold fits.
  destruct (dispatch command (ns_cluster s)) as [c [es|e]] eqn:Hrun; [|by rewrite (commit_refused _ _ c e)].
  destruct (commit_accepted _ _ _ _ Hrun) as (Hcl & Hh & Hd & Hj). destruct Hinv as [H1 H2 H3].
  rewrite Hh, forallb_app. intros [_ Hu]%andb_prop. cbn in Hu. rewrite andb_true_r in Hu.
  constructor.
  - pose proof (reachable_extend _ (OpApply command) H1 Hu eq_refl) as H1'.
    cbn [run_op] in H1'. rewrite apply_run, Hrun in H1'. by rewrite Hcl.
  - rewrite Hcl, Hh. cbn [c_log set_log]. by rewrite (dispatch_log _ _ _ _ Hc Hu Hrun), H2.
  - rewrite Hd. intros Hdur. by rewrite Hj, Hh, omap_app, H3.
Qed.

Lemma dispatch_record machine tag request s :
  ns_durable (service_dispatch machine tag request s) = ns_durable s
  ∧ ns_journal (service_dispatch machine tag request s) = ns_journal s
  ∧ ns_history (service_dispatch machine tag request s) = ns_history s.
Proof.
  unfold service_dispatch. simpl. destruct (ns_agents s !! machine) as [h|]; [|done]. by destruct (ah_alive h).
Qed.

Section record.
Context {codec : PathCodec}.

Lemma step_history a a' : step a a' → ns_history a.1 `prefix_of` ns_history a'.1.
Proof.
  destruct 1 as [s s' g Hsame|s g command|s g|s g now|s g machine tag request ?| | | | | | |s g machine reply|];
    cbn [fst]; try done.
  - by rewrite (sa_history _ _ Hsame).
  - unfold commit. destruct (cluster_apply command (ns_cluster s)) as [c [es|e]]; [|done].
    unfold persist. cbn [ns_durable set_history set_cluster fst].
    exists [command]. by destruct (ns_durable s).
  - unfold persist. by destruct (ns_durable s).
  - by destruct (dispatch_record machine tag request s) as (_ & _ & ->).
  - unfold deliver. destruct (ns_agents s !! machine) as [h|]; [|done]. by destruct (ah_jobs h) as [|[]].
Qed.

Lemma step_inv a a' : service_inv a.1 → fits a'.1 → step a a' → service_inv a'.1.
Proof.
  intros Hinv Hfit Hstep.
  destruct Hstep as [s s' g []|s g command|s g|s g now|s g machine tag request ?| | | | | | |s g machine reply|];
    cbn [fst] in *; try (by apply (service_inv_same s)).
  - by apply service_inv_commit.
  - by apply service_inv_persist.
  - destruct Hinv as [H1 H2 H3]. constructor; [|done..].
    by apply (reachable_extend _ (OpNow now)).
  - destruct (dispatch_record machine tag request s) as (? & ? & ?).
    apply (service_inv_same s); try done. apply dispatch_cluster.
  - apply (service_inv_same s); try done; unfold deliver;
      destruct (ns_agents s !! machine) as [h|]; try done; by destruct (ah_jobs h) as [|[]].
Qed.

Lemma fits_prefix s s' : ns_history s `prefix_of` ns_history s' → fits s' → fits s.
Proof. unfold fits. intros [k ->]. rewrite forallb_app. by intros [? _]%andb_prop. Qed.

Lemma reaches_inv s s' : service_inv s → fits s' → reaches s s' → service_inv s'.
Proof.
  intros Hinv Hfit Hreach. destruct (grounded_exists s) as [g Hg]. destruct (Hreach g Hg) as (g' & Hsteps & _).
  change (fits (s', g').1) in Hfit. change (service_inv (s', g').1). revert Hsteps Hfit. generalize (s', g'). intros a Hsteps.
  revert a Hsteps. apply (rtc_ind_r (λ a, fits a.1 → service_inv a.1)); [done|].
  intros a1 a2 _ Hstep IH Hfit. apply (step_inv a1); [|done..]. apply IH. eapply fits_prefix; [|done]. by apply step_history.
Qed.

(** The kernel's invariant alone survives as well. *)
Lemma step_cluster_inv a a' :
  cluster_inv (ns_cluster a.1) → fits a'.1 → step a a' → cluster_inv (ns_cluster a'.1).
Proof.
  intros Hinv Hfit Hstep.
  destruct Hstep as [s s' g []|s g command|s g|s g now|s g machine tag request ?| | | | | | |s g machine reply|];
    cbn [fst] in *; try done.
  - congruence.
  - destruct (dispatch command (ns_cluster s)) as [c [es|e]] eqn:Hrun; [|by rewrite (commit_refused _ _ c e)].
    destruct (commit_accepted _ _ _ _ Hrun) as (Hc & Hh & _). unfold fits in Hfit.
    rewrite Hh, forallb_app in Hfit. apply andb_prop in Hfit as [_ Hu]. cbn in Hu. rewrite andb_true_r in Hu.
    rewrite Hc. apply (inv_same c); [done..|]. by eapply dispatch_inv.
  - unfold persist. by destruct (ns_durable s).
  - by apply (inv_same (ns_cluster s)).
  - by rewrite dispatch_cluster.
  - unfold deliver. destruct (ns_agents s !! machine) as [h|]; [|done]. by destruct (ah_jobs h) as [|[]].
Qed.

Lemma reaches_cluster_inv s s' :
  cluster_inv (ns_cluster s) → fits s' → reaches s s' → cluster_inv (ns_cluster s').
Proof.
  intros Hinv Hfit Hreach. destruct (grounded_exists s) as [g Hg]. destruct (Hreach g Hg) as (g' & Hsteps & _).
  change (fits (s', g').1) in Hfit. change (cluster_inv (ns_cluster (s', g').1)). revert Hsteps Hfit.
  generalize (s', g'). intros a Hsteps. revert a Hsteps.
  apply (rtc_ind_r (λ a, fits a.1 → cluster_inv (ns_cluster a.1))); [done|].
  intros a1 a2 _ Hstep IH Hfit. apply (step_cluster_inv a1); [|done..]. apply IH. eapply fits_prefix; [|done]. by apply step_history.
Qed.

Lemma service_new_grounded : grounded service_new no_ghost.
Proof. split; cbn; [done|..]; [intros ??? (r & Hr & _)|intros ?? (r & Hr & _)|intros ?? Hin]; by set_solver. Qed.

(** A fresh controller with a sink attached. *)
Definition durable_service : NodeService := set_durable true service_new.

Lemma durable_service_inv : service_inv durable_service.
Proof. constructor; [|done..]. by exists []. Qed.

Lemma durable_kept s s' : reaches s s' → ns_durable s' = ns_durable s.
Proof.
  intros Hreach. apply (reaches_invariant (λ x, ns_durable x = ns_durable s) s s'); [|done..].
  intros a a' Hstep <-. destruct Hstep as [s0 s1 g []|s0 g command|s0 g|s0 g now|s0 g machine tag request ?| | | | | |
    |s0 g machine reply|]; cbn [fst]; try done.
  - unfold commit. destruct (cluster_apply command (ns_cluster s0)) as [c [es|e]]; [|done].
    unfold persist. cbn [ns_durable set_history set_cluster fst]. by destruct (ns_durable s0) eqn:Hd.
  - unfold persist. by destruct (ns_durable s0) eqn:Hd.
  - apply dispatch_record.
  - unfold deliver. destruct (ns_agents s0 !! machine) as [h|]; [|done]. by destruct (ah_jobs h) as [|[]].
Qed.
End record.

(** Whatever the controller and its agents did since it started with a
    durable sink, the commands in its journal are exactly its history and the
    kernel's log, in order, and replaying them into a fresh cluster succeeds
    and rebuilds every graph fact, lease, binding, session, fence watermark
    and node state (the amounts in the commands fit their [u64] fields). *)
Theorem controller_recoverable {codec : PathCodec} ops :
  let s := ctl_runs durable_service ops in
  forallb command_u64 (ns_history s) = true →
  omap (M := list) fst (ns_journal s) = ns_history s
  ∧ c_log (ns_cluster s) = ns_history s
  ∧ ∃ c, replay (omap (M := list) fst (ns_journal s)) = Ok c
      ∧ digest c = logged_digest (digest (ns_cluster s)).
Proof.
  intros s Hfit. pose proof (ctl_runs_reaches ops durable_service : reaches durable_service s) as Hsteps.
  destruct (reaches_inv _ _ durable_service_inv Hfit Hsteps) as [(kops & Hk & Hu & Hl) Hh Hj].
  rewrite Hj by (by rewrite (durable_kept _ _ Hsteps)). split_and!; [done..|].
  rewrite <-Hh, Hk. exists (set_replaying false (recover (run_ops kops))). split; [|done].
  unfold replay. fold (replay_from (set_replaying true cluster_new) (c_log (run_ops kops))).
  by rewrite replay_run.
Qed.
