(* ===== verification/RestartFacts.v ===== *)
(** Restarts of failed workloads are capped and spaced; counted service groups
    are reconciled with their cardinality. *)

From S2P Require Import Prelude Identifier Text Types Workload Endpoint Protocol Provider Graph.
From S2P Require Import Occupancy Command Cluster Select Admit Scheduler ServiceState Service Routing.
From S2P Require Import Absorb Controller.

(** Request ids in use are below the next one, which does not wrap during the
    next [n] submissions. *)
Definition ids_fresh (st : ServiceState) (n : nat) : Prop :=
  (∀ lease w o, ss_requests st !! lease = Some (w, o) → req_id (w_resources w) < ss_next_request_id st)
  ∧ ss_next_request_id st + N.of_nat n ≤ u64_max.

Definition restart_count (st : ServiceState) (root : RequestId) : N :=
  default 0 (ss_restart_counts st !! root).
Definition restart_last (st : ServiceState) (root : RequestId) : N :=
  default 0 (ss_restart_last_at st !! root).

(** One restart: a fresh copy of the payload of a dead lease not yet handled. *)
Definition restart_of (s : NodeService) (root : RequestId) (e : WorkloadSpec * OwnerId) : Prop :=
  ∃ lease l w fresh,
    c_leases (ns_cluster s) !! lease = Some l ∧ lease_state l ∈ [LFailed; LExpired]
    ∧ (lease ∉ ss_restart_handled (ns_state s))
    ∧ ss_requests (ns_state s) !! lease = Some (w, e.2) ∧ w_keep_alive w = true
    ∧ root = restart_root_of (ns_state s) (req_id (w_resources w))
    ∧ ss_next_request_id (ns_state s) ≤ fresh ∧ e.1 = with_fresh_id fresh w.

(** What one pass does to the account of a workload. *)
Definition restarted (now : N) (st0 st : ServiceState) (root : RequestId) : Prop :=
  restart_count st root = restart_count st0 root + 1 ∧ restart_count st0 root < MAX_RESTARTS
  ∧ restart_last st0 root + backoff_delay (restart_count st0 root) ≤ now ∧ restart_last st root = now.
Definition untouched (st0 st : ServiceState) (root : RequestId) : Prop :=
  restart_count st root = restart_count st0 root ∧ restart_last st root = restart_last st0 root.

Lemma backoff_positive n : 1 ≤ backoff_delay n.
Proof.
  unfold backoff_delay, BACKOFF_CAP_SECS. apply N.min_glb; [|lia].
  change 1 with (2 ^ 0). apply N.pow_le_mono_r; lia.
Qed.

Section pass.
Context (s : NodeService) (now : N) (Hnow : now < u64_max).
Local Abbreviation st0 := (ns_state s).

Record pass_inv (st : ServiceState) (out : list (WorkloadSpec * OwnerId)) (roots : list N) : Prop := {
  pi_nodup : NoDup roots;
  pi_out : Forall2 (restart_of s) roots out;
  pi_account : ∀ root, if decide (root ∈ roots) then restarted now st0 st root else untouched st0 st root;
  pi_requests : ss_requests st = ss_requests st0;
  pi_handled : ss_restart_handled st0 ⊆ ss_restart_handled st;
  pi_next : ss_next_request_id st = ss_next_request_id st0 + N.of_nat (length out);
  pi_roots : ∀ id, id < ss_next_request_id st0 → ss_restart_root st !! id = ss_restart_root st0 !! id;
}.

Lemma pass_inv_init : pass_inv st0 [] [].
Proof.
  constructor; try done; try apply NoDup_nil_2; try (simpl; lia).
Qed.

(** Touching a count with its own value changes no account. *)
Lemma account_touch st out roots root handled :
  pass_inv st out roots → ss_restart_handled st ⊆ handled →
  pass_inv (set_restart_handled handled (set_restart_counts
    (<[root := restart_count st root]> (ss_restart_counts st)) st)) out roots.
Proof.
  intros [] Hh. constructor; simpl; try done; [|set_solver].
  intros root'. specialize (pi_account0 root').
  assert (∀ r, restart_count (set_restart_handled handled (set_restart_counts
    (<[root := restart_count st root]> (ss_restart_counts st)) st)) r = restart_count st r) as Hr.
  { intros r. unfold restart_count. simpl. rewrite lookup_insert. by destruct (decide (root = r)) as [->|]. }
  unfold restarted, untouched in *. by rewrite Hr.
Qed.

(** A restart of a workload not restarted in this pass. *)
Lemma account_restart st out roots root id l w o :
  pass_inv st out roots → c_leases (ns_cluster s) !! id = Some l →
  lease_state l ∈ [LFailed; LExpired] → (id ∉ ss_restart_handled st) →
  ss_requests st !! id = Some (w, o) → w_keep_alive w = true →
  root = restart_root_of st0 (req_id (w_resources w)) →
  restart_count st root < MAX_RESTARTS →
  sat_add (restart_last st root) (backoff_delay (restart_count st root)) ≤ now →
  let fresh := ss_next_request_id st in
  let st' := set_restart_root (<[fresh := root]> (ss_restart_root st))
    (set_next_request_id (fresh + 1) (set_restart_handled ({[id]} ∪ ss_restart_handled st)
      (set_restart_last_at (<[root := now]> (ss_restart_last_at st))
        (set_restart_counts (<[root := restart_count st root + 1]>
           (<[root := restart_count st root]> (ss_restart_counts st))) st)))) in
  pass_inv st' (out ++ [(with_fresh_id fresh w, o)]) (roots ++ [root]).
Proof.
  intros Hinv Hl Hdead Hh Hreq Hka Hroot Hcap Hdelay fresh st'.
  pose proof (pi_account _ _ _ Hinv root) as Hacc.
  pose proof (backoff_positive (restart_count st root)) as Hpos.
  assert (restart_last st root + backoff_delay (restart_count st root) ≤ now) as Hsat
    by (unfold sat_add in Hdelay; lia).
  assert (root ∉ roots) as Hnew.
  { intros Hin. rewrite decide_True in Hacc by done. destruct Hacc as (_ & _ & _ & Hlast). lia. }
  rewrite decide_False in Hacc by done. destruct Hacc as [Hc0 Hl0].
  destruct Hinv as [Hnd Hout Hall Hrq Hhd Hnx Hrt]. constructor; simpl.
  - apply NoDup_app. split_and!; [done| |apply NoDup_singleton].
    by intros x Hx ->%list_elem_of_singleton.
  - apply Forall2_app; [done|]. constructor; [|constructor]. rewrite Hrq in Hreq.
    exists id, l, w, fresh. split_and!; try done; [set_solver|]. unfold fresh. lia.
  - intros root'. destruct (decide (root' = root)) as [->|Hne].
    + rewrite decide_True by set_solver. unfold restarted, restart_count, restart_last. simpl.
      rewrite !lookup_insert, !decide_True by done. simpl.
      fold (restart_count st0 root) (restart_last st0 root).
      change (default 0 (ss_restart_counts st !! root)) with (restart_count st root).
      rewrite <-Hc0, <-Hl0. done.
    + specialize (Hall root'). unfold restarted, untouched, restart_count, restart_last in *. simpl.
      rewrite !lookup_insert_ne by done.
      destruct (decide (root' ∈ roots)); [rewrite decide_True by set_solver|rewrite decide_False by set_solver];
        done.
  - done.
  - set_solver.
  - rewrite length_app. unfold fresh. simpl. lia.
  - intros k Hk. rewrite lookup_insert_ne by (unfold fresh; lia). by apply Hrt.
Qed.

Lemma restart_step_inv n st out roots id l :
  ids_fresh st0 n → (length out < n)%nat →
  c_leases (ns_cluster s) !! id = Some l → pass_inv st out roots →
  ∃ roots', pass_inv (restart_step now (st, out) (id, l)).1 (restart_step now (st, out) (id, l)).2 roots'
    ∧ (length (restart_step now (st, out) (id, l)).2 ≤ S (length out))%nat.
Proof.
  intros [Hids Hwrap] Hlen Hl Hinv. unfold restart_step.
  destruct (bool_decide_reflect (lease_state l ∈ [LFailed; LExpired])) as [Hdead|]; [|simpl; eauto with lia].
  destruct (bool_decide_reflect (id ∈ ss_restart_handled st)) as [|Hh]; [simpl; eauto with lia|].
  cbn [negb orb]. destruct (ss_requests st !! id) as [[w o]|] eqn:Hreq; [|simpl; eauto with lia].
  destruct (w_keep_alive w) eqn:Hka; [|simpl; eauto with lia]. cbn [negb].
  set (root := restart_root_of st (req_id (w_resources w))).
  fold (restart_count st root) (restart_last st root).
  case_match eqn:Hcap.
  { exists roots. split; [|simpl; lia]. cbn [fst snd]. apply account_touch; [done|]. simpl. set_solver. }
  case_match eqn:Hdelay.
  { exists roots. split; [|simpl; lia]. cbn [fst snd].
    pose proof (account_touch st out roots root (ss_restart_handled st) Hinv) as Ht.
    by apply Ht. }
  exists (roots ++ [root]). cbn [fst snd]. split; [|rewrite length_app; simpl; lia].
  assert (root = restart_root_of st0 (req_id (w_resources w))) as Hroot.
  { subst root. unfold restart_root_of. rewrite (pi_roots _ _ _ Hinv); [done|].
    rewrite (pi_requests _ _ _ Hinv) in Hreq. by eapply Hids. }
  apply N.leb_gt in Hcap. apply N.ltb_ge in Hdelay.
  assert (wrap_add (ss_next_request_id st) 1 = ss_next_request_id st + 1) as Hw.
  { apply wrap_add_exact. rewrite (pi_next _ _ _ Hinv). unfold u64_max in Hwrap.
    assert (0 < u64_modulus) by done. lia. }
  simpl. rewrite Hw. by apply (account_restart st out roots root id l w o).
Qed.

Lemma restart_fold_inv n entries st out roots :
  ids_fresh st0 n → (length out + length entries ≤ n)%nat →
  Forall (λ '(id, l), c_leases (ns_cluster s) !! id = Some l) entries → pass_inv st out roots →
  ∃ roots', pass_inv (foldl (restart_step now) (st, out) entries).1
              (foldl (restart_step now) (st, out) entries).2 roots'.
Proof.
  intros Hids. revert st out roots. induction entries as [|[id l] entries IH]; intros st out roots Hn Hall Hinv;
    [by exists roots|].
  apply Forall_cons in Hall as [Hl Hall]. cbn [length] in Hn. cbn [foldl].
  destruct (restart_step_inv n st out roots id l) as (roots1 & Hinv1 & Hlen1); [done|lia|done..|].
  destruct (restart_step now (st, out) (id, l)) as [st1 out1]. cbn [fst snd] in *.
  eapply IH; [lia|done..].
Qed.
End pass.

(** C31. Restarts are capped and spaced: one pass restarts each original
    workload at most once, from a failed or expired lease not yet handled,
    only while fewer than five restarts were made and the exponential backoff
    since the last one has elapsed; a restart adds one to its count and sets
    its time, and every other account is unchanged (the clock is below the
    [u64] bound and request ids do not wrap). *)
Theorem restarts_capped s :
  c_now (ns_cluster s) < u64_max → ids_fresh (ns_state s) (size (c_leases (ns_cluster s))) →
  ∃ roots, NoDup roots ∧ Forall2 (restart_of s) roots (take_restarts s).2
    ∧ ∀ root, if decide (root ∈ roots)
              then restarted (c_now (ns_cluster s)) (ns_state s) (ns_state (take_restarts s).1) root
              else untouched (ns_state s) (ns_state (take_restarts s).1) root.
Proof.
  intros Hnow Hids. unfold take_restarts.
  destruct (restart_fold_inv s _ Hnow (size (c_leases (ns_cluster s))) (bt_iter (c_leases (ns_cluster s)))
              (ns_state s) [] []) as (roots & [Hnd Hout Hacc _ _ _ _]).
  - done.
  - cbn [length]. by rewrite Nat.add_0_l, (Permutation_length (bt_iter_perm _)), length_map_to_list.
  - apply Forall_forall. intros [id l]. apply elem_of_bt_iter.
  - by apply pass_inv_init.
  - exists roots. by destruct (foldl _ _ _) as [st out].
Qed.

(** * Reconciliation of counted service groups. *)

Definition group_desired (s : NodeService) (g : ServiceGroup) : nat :=
  N.to_nat (desired_count (group_cardinality g)
    (N.of_nat (length (nodes_of_class (c_graph (ns_cluster s)) Class.Machine)))).

(** The replacements the group has been charged. *)
Definition replacements (s : NodeService) (group : string) : N :=
  default 0 (ss_group_restarts (ns_state s) !! group).

Definition is_counted (g : ServiceGroup) : bool :=
  match group_cardinality g with PerMachine => false | _ => true end.

(** ** One member after another *)

(** What a submission leaves alone and adds. *)
Lemma iter_submit_members g n s submitted :
  let '(s', submitted') := Nat.iter n (submit_member g None false) (s, submitted) in
  length submitted' = (length submitted + n)%nat
  ∧ ns_cluster s' = ns_cluster s ∧ replacements s' (group_id g) = replacements s (group_id g).
Proof.
  induction n as [|n IH]; [simpl; split_and!; (done || lia)|].
  rewrite Nat.iter_succ.
  destruct (Nat.iter n (submit_member g None false) (s, submitted)) as [s1 sub1].
  destruct IH as (Hlen & Hc & Hr). unfold submit_member. cbv beta iota zeta.
  rewrite length_app. cbn [length]. split_and!; [lia|done|done].
Qed.

Section group.
Context (g : ServiceGroup) (machines : list NodeId) (Hcounted : is_counted g = true).

Lemma reconcile_group_counted acc :
  reconcile_group machines acc g =
    let '(s, submitted) := acc in
    let members := current_members (ns_state s) (group_id g) in
    let live := List.filter (member_live s) (bs_iter members) in
    let died := (size members - length live)%nat in
    let s := over_state (prune_members (group_id g) live) s in
    let s := if (0 <? died)%nat then over_state (prune_pins (group_id g) live) s else s in
    reconcile_counted g machines live died (s, submitted).
Proof.
  destruct acc as [s sub]. unfold reconcile_group. unfold is_counted in Hcounted.
  by destruct (group_cardinality g).
Qed.

(** The charge and the members after the pruning of a round without survivors. *)
Lemma pruned_round s died members :
  ss_group_members (ns_state s) !! group_id g = Some members →
  let s0 := over_state (prune_members (group_id g) []) s in
  let s1 := if (0 <? died)%nat then over_state (prune_pins (group_id g) []) s0 else s0 in
  ns_cluster s1 = ns_cluster s ∧ ss_group_members (ns_state s1) !! group_id g = Some ∅
  ∧ ss_service_groups (ns_state s1) = ss_service_groups (ns_state s)
  ∧ ss_group_restarts (ns_state s1) = ss_group_restarts (ns_state s).
Proof.
  intros Hm s0 s1.
  assert (ns_cluster s0 = ns_cluster s ∧ ss_group_members (ns_state s0) !! group_id g = Some ∅
    ∧ ss_service_groups (ns_state s0) = ss_service_groups (ns_state s)
    ∧ ss_group_restarts (ns_state s0) = ss_group_restarts (ns_state s)) as H0.
  { subst s0. unfold over_state, prune_members. simpl. rewrite Hm. simpl.
    by rewrite lookup_insert, decide_True by done. }
  clearbody s0. subst s1. by case_match.
Qed.

(** A round in which every replacement is refused. *)
Lemma refused_round s submitted died :
  let desired := N.to_nat (desired_count (group_cardinality g) (N.of_nat (length machines))) in
  (desired ≤ died)%nat → restart_cap desired ≤ replacements s (group_id g) →
  let out := reconcile_counted g machines [] died (s, submitted) in
  out.2 = submitted ∧ ns_cluster out.1 = ns_cluster s
  ∧ ss_group_members (ns_state out.1) = ss_group_members (ns_state s)
  ∧ ss_service_groups (ns_state out.1) = ss_service_groups (ns_state s)
  ∧ replacements out.1 (group_id g) = replacements s (group_id g).
Proof.
  intros desired Hdied Hcap. unfold reconcile_counted. fold desired. cbn [length].
  rewrite (proj2 (Nat.ltb_ge desired 0)) by lia. rewrite Nat.sub_0_r.
  destruct (Nat.eqb_spec desired 0) as [H0|H0]; [done|].
  rewrite Nat.min_l, Nat.sub_diag by done. cbv zeta.
  set (s1 := touch_restarts (group_id g) s).
  assert (replacements s1 (group_id g) = replacements s (group_id g)) as Hr.
  { unfold replacements, s1. simpl. by rewrite lookup_insert, decide_True by done. }
  assert (allowed_replacements (ns_state s1) (group_id g) desired desired (c_now (ns_cluster s1)) = 0%nat)
    as ->.
  { unfold allowed_replacements. rewrite (proj2 (Nat.eqb_neq desired 0)) by done.
    fold (replacements s1 (group_id g)). by rewrite Hr, (proj2 (N.leb_le _ _) Hcap). }
  simpl. split_and!; done.
Qed.

(** A round with no members to count: all of it is growth. *)
Lemma growth_round s submitted :
  let desired := N.to_nat (desired_count (group_cardinality g) (N.of_nat (length machines))) in
  let out := reconcile_counted g machines [] 0 (s, submitted) in
  length out.2 = (length submitted + desired)%nat
  ∧ replacements out.1 (group_id g) = replacements s (group_id g).
Proof.
  intros desired. unfold reconcile_counted. fold desired. cbn [length].
  rewrite (proj2 (Nat.ltb_ge desired 0)) by lia. rewrite Nat.sub_0_r.
  destruct (Nat.eqb_spec desired 0) as [H0|H0]; [cbn [fst snd]; split; [lia|done]|].
  rewrite Nat.min_0_r, Nat.sub_0_r. cbv zeta.
  set (s1 := touch_restarts (group_id g) s).
  assert (replacements s1 (group_id g) = replacements s (group_id g)) as Hr.
  { unfold replacements, s1. simpl. by rewrite lookup_insert, decide_True by done. }
  assert (allowed_replacements (ns_state s1) (group_id g) desired 0 (c_now (ns_cluster s1)) = 0%nat)
    as -> by done.
  assert (∀ acc, submit_members g 0 desired acc = Nat.iter desired (submit_member g None false) acc)
    as -> by done.
  pose proof (iter_submit_members g desired s1 submitted) as Hi.
  destruct (Nat.iter desired (submit_member g None false) (s1, submitted)) as [s2 sub2].
  destruct Hi as (Hlen & _ & Hr2). cbn. split; [exact Hlen|congruence].
Qed.
End group.

Lemma persist_view s :
  ns_cluster (persist None s) = ns_cluster s ∧ ns_state (persist None s) = ns_state s.
Proof. unfold persist. by destruct (ns_durable s). Qed.

Lemma bt_values_singleton (k : string) (g : ServiceGroup) : bt_values {[k := g]} = [g].
Proof. unfold bt_values, bt_iter. by rewrite map_to_list_singleton. Qed.

Lemma filter_none {A} (f : A → bool) l : (∀ x, x ∈ l → f x = false) → List.filter f l = [].
Proof.
  intros Hf. induction l as [|x l IH]; [done|]. cbn. rewrite Hf by constructor. apply IH.
  intros y Hy. apply Hf. by constructor.
Qed.

(** A round of the only group, when none of its members is live. *)
Lemma round_without_survivors s g members :
  ss_service_groups (ns_state s) = {[group_id g := g]} → is_counted g = true →
  ss_group_members (ns_state s) !! group_id g = Some members →
  (∀ id, id ∈ members → member_live s id = false) →
  ∃ s0, ns_cluster s0 = ns_cluster s ∧ ss_group_members (ns_state s0) !! group_id g = Some ∅
    ∧ ss_service_groups (ns_state s0) = ss_service_groups (ns_state s)
    ∧ ss_group_restarts (ns_state s0) = ss_group_restarts (ns_state s)
    ∧ let out := reconcile_counted g (nodes_of_class (c_graph (ns_cluster s)) Class.Machine) []
                   (size members) (s0, []) in
      reconcile_service_groups s = (persist None out.1, out.2).
Proof.
  intros Hgroups Hcounted Hm Hdead.
  destruct (pruned_round g s (size members) members Hm) as (H1 & H2 & H3 & H4).
  eexists. split_and!; [exact H1|exact H2|exact H3|exact H4|]. cbv zeta.
  unfold reconcile_service_groups. rewrite Hgroups, bt_values_singleton. cbn [foldl].
  rewrite reconcile_group_counted by done. cbv zeta.
  unfold current_members. rewrite Hm. cbn [default from_option id].
  rewrite filter_none by (intros id Hid%elem_of_bs_iter; by apply Hdead).
  cbn [length]. rewrite Nat.sub_0_r. by destruct (reconcile_counted _ _ _ _ _).
Qed.

(** A replacement that the cap refuses is made anyway one round later: when
    every member of a counted group has died and the replacement cap is
    exhausted, one round submits nothing, but the dead members have left the
    index, so the next round counts the same shortfall as growth, submits the
    full number of members with no backoff, and charges nothing to the cap. *)
Theorem replacement_cap_forgotten s g members :
  ss_service_groups (ns_state s) = {[group_id g := g]} → is_counted g = true →
  ss_group_members (ns_state s) !! group_id g = Some members →
  (∀ id, id ∈ members → member_live s id = false) →
  (group_desired s g ≤ size members)%nat →
  restart_cap (group_desired s g) ≤ replacements s (group_id g) →
  let '(s1, first) := reconcile_service_groups s in
  let '(s2, second) := reconcile_service_groups s1 in
  first = [] ∧ length second = group_desired s g
  ∧ replacements s2 (group_id g) = replacements s (group_id g).
Proof.
  intros Hgroups Hcounted Hm Hdead Hsize Hcap.
  set (machines := nodes_of_class (c_graph (ns_cluster s)) Class.Machine).
  destruct (round_without_survivors s g members) as (s0 & Hc0 & Hm0 & Hg0 & Hr0 & Hout1); [done..|].
  fold machines in Hout1. cbv zeta in Hout1.
  assert (replacements s0 (group_id g) = replacements s (group_id g)) as Hrep
    by (unfold replacements; by rewrite Hr0).
  destruct (refused_round g machines s0 [] (size members)) as (Hf & Hc1 & Hm1 & Hg1 & Hr1);
    [done|by rewrite Hrep|].
  destruct (reconcile_counted g machines [] (size members) (s0, [])) as [s1 first]. cbn [fst snd] in *.
  rewrite Hout1. destruct (persist_view s1) as [Hpc Hps].
  destruct (round_without_survivors (persist None s1) g ∅) as (s2 & Hc2 & _ & _ & Hr2 & Hout2).
  - by rewrite Hps, Hg1, Hg0.
  - done.
  - by rewrite Hps, Hm1.
  - by intros id ?%elem_of_empty.
  - rewrite Hpc, Hc1, Hc0, size_empty in Hout2. fold machines in Hout2. cbv zeta in Hout2.
    destruct (growth_round g machines s2 []) as [Hlen Hr3].
    destruct (reconcile_counted g machines [] 0 (s2, [])) as [s3 second]. cbn [fst snd] in *.
    rewrite Hout2. split_and!; [done|exact Hlen|].
    unfold replacements at 1. rewrite (proj2 (persist_view s3)). fold (replacements s3 (group_id g)).
    rewrite Hr3. unfold replacements at 1. rewrite Hr2, Hps. fold (replacements s1 (group_id g)). congruence.
Qed.
