(* ===== verification/AdmissionFacts.v ===== *)
(** Admission moves one request from the queue to its lease, or nothing. *)

From S2P Require Import Prelude Identifier Text Types Workload Endpoint Protocol Provider Graph.
From S2P Require Import Inventory Discover Occupancy Command Cluster Select Admit Scheduler.
From S2P Require Import ServiceState Service Routing Absorb Controller ServiceSpec ServiceRefines.

(** ** Operations that leave the durable intent alone *)

Definition keeps {A} (P : NodeService → Prop) (m : SM A) : Prop := ∀ s, P s → P (m s).1.
Definition keeps_fn (P : NodeService → Prop) (f : NodeService → NodeService) : Prop := ∀ s, P s → P (f s).

Section keeps.
Context (P : NodeService → Prop).

Lemma keeps_bind {A B} (m : SM A) (f : A → SM B) :
  keeps P m → (∀ a, keeps P (f a)) → keeps P (m ≫= f).
Proof.
  intros Hm Hf s Hs. specialize (Hm s Hs). unfold mbind, SM_bind.
  destruct (m s) as [s' [a|e]]; simpl in *; [by apply Hf|done].
Qed.
Lemma keeps_for {A} (f : A → SM unit) l : (∀ x, keeps P (f x)) → keeps P (sfor f l).
Proof. intros Hf. induction l as [|x l IH]; [by intros s|]. apply keeps_bind; [apply Hf|]. by intros []. Qed.
Lemma keeps_foldl {A} (f : NodeService → A → NodeService) l :
  (∀ x, keeps_fn P (λ s, f s x)) → keeps_fn P (λ s, foldl f s l).
Proof.
  intros Hf. induction l as [|x l IH]; intros s Hs; [done|]. apply (IH (f s x)). by apply Hf.
Qed.
End keeps.

(** The payloads: what is queued, what is admitted, the next lease id. *)
Definition intent (s : NodeService) : list Queued * gmap N WorkloadSpec * gmap N (WorkloadSpec * OwnerId) * N :=
  let st := ns_state s in (ss_queue st, ss_queued_workloads st, ss_requests st, ss_next_lease st).

Section intent.
Context (i : list Queued * gmap N WorkloadSpec * gmap N (WorkloadSpec * OwnerId) * N).
Local Abbreviation K := (λ s, intent s = i).

Lemma keeps_commit command : keeps K (commit command).
Proof. intros s <-. unfold intent. by rewrite (sw_state _ _ (commit_view command s)). Qed.
Lemma keeps_commit_lenient command : keeps_fn K (commit_lenient command).
Proof. intros s <-. unfold intent. by rewrite (sw_state _ _ (commit_lenient_view command s)). Qed.
Lemma keeps_dispatch machine tag request : keeps_fn K (service_dispatch machine tag request).
Proof. intros s <-. unfold intent. by rewrite dispatch_state. Qed.

Lemma keeps_status lease machine : keeps_fn K (request_status_on_machine lease machine).
Proof.
  intros s Hs. unfold request_status_on_machine. repeat case_match; try done. by apply keeps_dispatch.
Qed.

Lemma keeps_maybe_stop lease : keeps_fn K (maybe_stop_executions lease).
Proof.
  intros s. unfold maybe_stop_executions. case_match; [|done].
  generalize (lease_machines s lease). intros l. revert s H.
  intros s _. revert s. apply (keeps_foldl K (stop_on_machine lease)). intros machine s Hs.
  unfold stop_on_machine. repeat case_match; try done. by apply keeps_dispatch.
Qed.

Lemma keeps_maybe_activate lease : keeps_fn K (maybe_activate lease).
Proof.
  intros s Hs. unfold maybe_activate. destruct (c_leases (ns_cluster s) !! lease); [|done].
  repeat case_match; try done.
  apply (keeps_foldl K (λ s binding, commit_lenient (ActivateBinding binding) s)).
  - intros binding. apply keeps_commit_lenient.
  - by apply keeps_commit_lenient.
Qed.

Lemma keeps_classify machine bindings s sets :
  K s → K (foldl (classify_binding machine) (s, sets) bindings).1.
Proof.
  revert s sets. induction bindings as [|b bindings IH]; intros s sets Hs; [done|].
  cbn [foldl classify_binding]. repeat case_match; simplify_eq; by apply IH.
Qed.

Lemma keeps_route_recovery machine bindings s : K s → K (route_recovery machine bindings s).1.
Proof.
  intros Hs. unfold route_recovery. pose proof (keeps_classify machine bindings s (mkSets ∅ ∅ ∅) Hs) as Hc.
  destruct (foldl _ _ _) as [s1 sets]. cbn [fst] in *.
  apply (keeps_foldl K (λ s lease, request_status_on_machine lease machine s)).
  { intros lease. apply keeps_status. }
  apply (keeps_foldl K (λ s lease, request_status_on_machine lease machine
           (over_recovery machine (expect_member lease) s))); [|done].
  intros lease s2 Hs2. by apply keeps_status.
Qed.

Lemma keeps_route e : keeps K (route e).
Proof.
  intros s Hs. unfold route. destruct e; cbn [effect_phase].
  5: { case_match; [|done]. pose proof (keeps_route_recovery machine bindings s Hs).
       by destruct (route_recovery _ _ _). }
  all: destruct (c_bindings (ns_cluster s) !! binding) as [b|]; [|done].
  all: apply (keeps_bind K); [| |done].
  all: try (intros s' Hs'; unfold rebind_if_stale; repeat case_match; try done; by apply keeps_commit).
  all: intros _; apply (keeps_bind K); [by intros ?|intros s0].
  all: apply (keeps_bind K); [by intros ?|intros b0]; apply (keeps_bind K); [|by intros ? ?].
  all: intros s' Hs'; unfold route_binding; repeat case_match; try done; [|by apply keeps_dispatch].
  all: by apply (keeps_maybe_stop (binding_lease b)).
Qed.

Lemma keeps_pump : keeps K pump.
Proof.
  intros s Hs. unfold pump. generalize (pump_fuel s). intros fuel. revert s Hs.
  induction fuel as [|fuel IH]; intros s Hs; simpl; destruct (ns_pending s) as [|e rest]; try done.
  apply (keeps_bind K); [|by intros [] |done]. unfold pump_one.
  apply keeps_bind; [apply keeps_route|]. intros commands. apply keeps_for, keeps_commit.
Qed.

Lemma keeps_open_bindings lease : keeps K (open_enforced_bindings lease).
Proof.
  unfold open_enforced_bindings. apply keeps_bind; [by intros ?|intros s].
  apply keeps_bind; [by intros ?|intros l]. apply keeps_for. intros claim. unfold open_enforced_binding.
  do 2 (apply keeps_bind; [by intros ?|intros ?]). apply keeps_bind; [by intros ? ?|intros ?].
  apply keeps_commit.
Qed.
End intent.

Lemma take_queued_spec id queue before entry after :
  take_queued id queue = Some (before, entry, after) →
  queue = before ++ entry :: after ∧ req_id (q_request entry) = id.
Proof.
  revert before. induction queue as [|q queue IH]; intros before; [done|]. cbn [take_queued].
  destruct (N.eqb_spec (req_id (q_request q)) id) as [Hid|_]; [intros; by simplify_eq/=|].
  destruct (take_queued id queue) as [[[b e] a]|]; [|done]. intros [= <- -> ->].
  by destruct (IH b eq_refl) as [-> ?].
Qed.

(** A queued request and its payload moved to the lease. *)
Definition moved (s s' : NodeService) (id : RequestId) : Prop :=
  ∃ before entry after workload owner,
    ss_queue (ns_state s) = before ++ entry :: after ∧ req_id (q_request entry) = id
    ∧ ss_queued_workloads (ns_state s) !! id = Some workload
    ∧ intent s' = (before ++ after, delete id (ss_queued_workloads (ns_state s)),
                   <[ss_next_lease (ns_state s) := (workload, owner)]> (ss_requests (ns_state s)),
                   wrap_add (ss_next_lease (ns_state s)) 1).

(** Nothing moved; the refused lease may have used up its id. *)
Definition unmoved (s s' : NodeService) : Prop :=
  intent s' = intent s
  ∨ intent s' = (ss_queue (ns_state s), ss_queued_workloads (ns_state s), ss_requests (ns_state s),
                 wrap_add (ss_next_lease (ns_state s)) 1).

(** The bookkeeping of an admission, and its undoing. *)
Lemma admit_payload_intent s admission workload queue :
  let id := req_id (adm_request admission) in
  ss_queued_workloads (ns_state s) !! id = Some workload →
  intent (over_state (admit_payload admission (ss_next_lease (ns_state s)) queue) s)
  = (queue, delete id (ss_queued_workloads (ns_state s)),
     <[ss_next_lease (ns_state s) := (workload, adm_owner admission)]> (ss_requests (ns_state s)),
     wrap_add (ss_next_lease (ns_state s)) 1).
Proof. intros id Hw. unfold intent, over_state, admit_payload. simpl. fold id. by rewrite Hw. Qed.

Lemma undo_admission_intent s id lease workload owner queue qw rq n :
  intent s = (queue, delete id qw, <[lease := (workload, owner)]> rq, n) →
  qw !! id = Some workload → rq !! lease = None →
  ∀ queue', intent (over_state (undo_admission id lease queue') s) = (queue', qw, rq, n).
Proof.
  unfold intent. cbv zeta. intros [= Hq Hqw Hrq Hn] Hw Hfresh queue'.
  unfold over_state, undo_admission. simpl. rewrite Hqw, Hrq, Hn, lookup_insert, decide_True by done.
  by rewrite insert_delete_id, delete_insert_id.
Qed.

(** What follows the commit of an admission leaves the payloads alone. *)
Lemma admitted_tail lease (id : RequestId) s :
  let m : SM (option RequestId) :=
    _ ← open_enforced_bindings lease; _ ← pump; _ ← smodify (maybe_activate lease); mret (Some id) in
  intent (m s).1 = intent s ∧ ∀ r, (m s).2 = Ok r → r = Some id.
Proof.
  intros m. subst m. split.
  - apply (keeps_bind (λ s', intent s' = intent s)); [apply keeps_open_bindings|intros _|done].
    apply keeps_bind; [apply keeps_pump|intros _].
    apply keeps_bind; [intros s' Hs'; by apply keeps_maybe_activate|intros _]. by intros ?.
  - unfold mbind, SM_bind. intros r. repeat case_match; simpl; by intros [=].
Qed.

(** C32. Admission neither loses nor duplicates a request.  When the next lease
    id has no payload yet and every queued request has one, it either leaves the
    queue, the queued payloads and the admitted payloads exactly as they were
    (nothing fits, the allocation has no provider, or the kernel refuses the
    lease and every change is undone), or it moves exactly one queued request
    with its payload to the next lease id, also when opening its bindings or
    routing fails afterwards. *)
Theorem admission_conserves policy s :
  ss_requests (ns_state s) !! ss_next_lease (ns_state s) = None →
  Forall (λ q, is_Some (ss_queued_workloads (ns_state s) !! req_id (q_request q))) (ss_queue (ns_state s)) →
  let '(s', r) := admit_one_with_policy policy s in
  match r with
  | Ok (Some id) => moved s s' id
  | Ok None => s' = s
  | Err _ => unmoved s s' ∨ ∃ id, moved s s' id
  end.
Proof.
  intros Hfresh Hpay. unfold admit_one_with_policy.
  destruct (cluster_admit_backfill_with_policy _ _ _ _) as [admission|]; [|done].
  destruct (validate_allocation_bindings _ _); [|by left; left].
  destruct (take_queued _ _) as [[[before entry] after]|] eqn:Htake; [|by left; left].
  apply take_queued_spec in Htake as [Hq Hid]. set (request := adm_request admission) in *.
  assert (is_Some (ss_queued_workloads (ns_state s) !! req_id request)) as [w Hw].
  { rewrite Hq in Hpay. apply Forall_app in Hpay as [_ [He _]%Forall_cons]. by rewrite <-Hid. }
  pose proof (admit_payload_intent s admission w (before ++ after) Hw) as Hi.
  set (s1 := over_state _ s) in *. set (lease := ss_next_lease (ns_state s)) in *.
  set (command := OpenLease _ _ _ _ _ _ _).
  pose proof (keeps_commit _ command s1 Hi) as Hi2.
  destruct (commit command s1) as [s2 [[]|e]]; cbn [fst] in Hi2.
  - assert (∀ s', intent s' = intent s2 → moved s s' (req_id request)) as Hmoved.
    { intros s' Hs'. exists before, entry, after, w, (adm_owner admission). by rewrite Hs', Hi2. }
    pose proof (admitted_tail lease (req_id request) s2) as [Hm Hr]. set (m := _ ≫= _) in *.
    destruct (m s2) as [s3 [id|err]]; cbn [fst snd] in *.
    + rewrite (Hr id eq_refl). by apply Hmoved.
    + right. exists (req_id request). by apply Hmoved.
  - left. right. rewrite Hq. by eapply undo_admission_intent.
Qed.
