(* ===== verification/HeldFacts.v ===== *)
(** Releases held back for a running member are sent once its stop is proved; the
    CPU placement a member is started with. *)

From S2P Require Import Prelude Identifier Text Types Workload Endpoint Protocol Provider Graph.
From S2P Require Import Inventory Discover Occupancy Command Cluster Handlers Steps Authority Bindings.
From S2P Require Import ServiceState Service Routing Absorb ServiceSpec ServiceRefines.

(** ** What driving held effects leaves alone *)

Definition jobs_of (s : NodeService) (machine : NodeId) : list (Tag * AgentRequest) :=
  match ns_agents s !! machine with Some h => ah_jobs h | None => [] end.
Definition connected (s : NodeService) (machine : NodeId) : bool :=
  match ns_agents s !! machine with Some h => ah_alive h | None => false end.

Record drives (s s' : NodeService) : Prop := {
  dr_graph : c_graph (ns_cluster s') = c_graph (ns_cluster s);
  dr_leases : c_leases (ns_cluster s') = c_leases (ns_cluster s);
  dr_sessions : c_sessions (ns_cluster s') = c_sessions (ns_cluster s);
  dr_bindings : ∀ k, match c_bindings (ns_cluster s) !! k, c_bindings (ns_cluster s') !! k with
                     | Some b, Some b' => same_binding b b'
                     | None, None => True
                     | _, _ => False
                     end;
  dr_state : ns_state s' = ns_state s;
  dr_stopped : ns_execution_stopped s' = ns_execution_stopped s;
  dr_jobs : ∀ m, jobs_of s m `prefix_of` jobs_of s' m;
  dr_connected : ∀ m, connected s' m = connected s m;
  dr_held : ns_held_effects s ⊆ ns_held_effects s';
}.

Lemma drives_refl s : drives s s.
Proof.
  constructor; try done. intros k. destruct (c_bindings (ns_cluster s) !! k); [apply same_binding_refl|done].
Qed.

Lemma drives_trans s1 s2 s3 : drives s1 s2 → drives s2 s3 → drives s1 s3.
Proof.
  intros [Hg Hl Hs Hb Hst Hsp Hj Hc Hh] [Hg' Hl' Hs' Hb' Hst' Hsp' Hj' Hc' Hh'].
  constructor; try congruence.
  - intros k. specialize (Hb k). specialize (Hb' k).
    destruct (c_bindings (ns_cluster s1) !! k), (c_bindings (ns_cluster s2) !! k),
      (c_bindings (ns_cluster s3) !! k); try done. by eapply same_binding_trans.
  - intros m. etrans; [apply Hj|apply Hj'].
  - by etrans.
Qed.

Lemma drives_proven s s' lease machine :
  drives s s' → member_stop_proven s' lease machine = member_stop_proven s lease machine.
Proof.
  intros Hd. unfold member_stop_proven, session_of.
  by rewrite (dr_sessions _ _ Hd), (dr_stopped _ _ Hd).
Qed.

(** *** Sending *)

Lemma dispatch_jobs machine tag request s m :
  jobs_of (service_dispatch machine tag request s) m =
    jobs_of s m ++ (if decide (m = machine) then if connected s machine then [(tag, request)] else [] else []).
Proof.
  unfold service_dispatch, jobs_of, connected. cbn [ns_agents set_inflight].
  destruct (ns_agents s !! machine) as [h|] eqn:Hm.
  - destruct (ah_alive h) eqn:Ha; cbn [ns_agents set_agents set_inflight].
    + rewrite lookup_insert. destruct (decide (machine = m)) as [->|Hne].
      * rewrite decide_True, Hm by done. done.
      * rewrite decide_False by congruence. by rewrite app_nil_r.
    + case_decide; by rewrite app_nil_r.
  - cbn [ns_agents set_inflight]. case_decide; by rewrite app_nil_r.
Qed.

Lemma dispatch_connected machine tag request s m :
  connected (service_dispatch machine tag request s) m = connected s m.
Proof.
  unfold service_dispatch, connected. cbn [ns_agents set_inflight].
  destruct (ns_agents s !! machine) as [h|] eqn:Hm; [|done].
  destruct (ah_alive h) eqn:Ha; cbn [ns_agents set_agents set_inflight]; [|done].
  rewrite lookup_insert. destruct (decide (machine = m)) as [->|]; [|done]. by rewrite Hm.
Qed.

Lemma dispatch_stopped machine tag request s :
  ns_execution_stopped (service_dispatch machine tag request s) = ns_execution_stopped s.
Proof.
  unfold service_dispatch. simpl. destruct (ns_agents s !! machine) as [h|]; [|done]. by destruct (ah_alive h).
Qed.

Lemma dispatch_drives machine tag request s : drives s (service_dispatch machine tag request s).
Proof.
  constructor; rewrite ?dispatch_cluster, ?dispatch_state, ?dispatch_stopped, ?dispatch_held; try done.
  - intros k. destruct (c_bindings (ns_cluster s) !! k); [apply same_binding_refl|done].
  - intros m. rewrite dispatch_jobs. by eexists.
  - intros m. apply dispatch_connected.
Qed.

(** *** The rebind cannot fail for the session in force *)

Lemma rebind_accepted binding b machine session s :
  c_bindings (ns_cluster s) !! binding = Some b →
  machine_of (c_graph (ns_cluster s)) (binding_node b) = Some machine →
  session_of s machine = Some session →
  ∃ s', rebind_if_stale binding b s = (s', Ok ()) ∧ drives s s'
    ∧ ns_held_effects s' = ns_held_effects s
    ∧ ∃ b', c_bindings (ns_cluster s') !! binding = Some b' ∧ same_binding b b'
        ∧ binding_session b' = session.
Proof.
  intros Hb Hm Hs. unfold rebind_if_stale. rewrite Hm. cbn [mbind option_bind]. rewrite Hs.
  destruct (N.eqb_spec session (binding_session b)) as [->|Hne]; cbn [negb].
  { exists s. split_and!; [done|apply drives_refl|done|]. exists b. split_and!; (done || apply same_binding_refl). }
  set (c := ns_cluster s) in *.
  assert (dispatch (RebindSession binding session) c
          = (set_bindings (alter (binding_with_session session) binding (c_bindings c)) c, Ok [])) as Hrun.
  { cbn [dispatch]. unfold rebind_session. rewrite bind_get_binding, Hb, bind_get, bind_lift.
    unfold require_session. rewrite Hm. unfold session_of in Hs. fold c in Hs.
    cbn [ok_or mbind result_bind]. rewrite Hs. cbn [ok_or mbind result_bind]. by rewrite N.eqb_refl. }
  assert (∃ s', commit (RebindSession binding session) s = (s', Ok ())) as [s' Hs'].
  { unfold commit. fold c. rewrite apply_run, Hrun. eauto. }
  pose proof (commit_view (RebindSession binding session) s) as Hv. rewrite Hs' in Hv. cbn [fst] in Hv.
  pose proof Hs' as (b0 & _ & Hbs & Hg & Hl & Hse & _)%rebind_commit. fold c in Hbs, Hg, Hl, Hse.
  exists s'. split_and!; [done| |apply Hv|].
  - destruct Hv as [_ Hv1 _ Hv2 Hv3 Hv4]. constructor; try congruence; try done.
    + intros k. rewrite Hbs, lookup_alter. fold c.
      destruct (decide (binding = k)) as [<-|]; [by rewrite Hb|].
      destruct (c_bindings c !! k); [apply same_binding_refl|done].
    + intros m. unfold jobs_of. by rewrite Hv3.
    + intros m. unfold connected. by rewrite Hv3.
  - exists (binding_with_session session b). by rewrite Hbs, lookup_alter, decide_True, Hb by done.
Qed.

(** ** One entry *)

Definition releasing (phase : EffectPhase) : bool :=
  match phase with PhRelease | PhFence => true | _ => false end.

(** Where a held entry belongs: its record and machine. *)
Definition held_at (s : NodeService) (binding : BindingId) (b : Binding) (machine : NodeId) : Prop :=
  c_bindings (ns_cluster s) !! binding = Some b
  ∧ machine_of (c_graph (ns_cluster s)) (binding_node b) = Some machine.

(** The request is in the machine's queue, under the session in force. *)
Definition sent (s : NodeService) (binding : BindingId) (b : Binding) (machine : NodeId)
    (phase : EffectPhase) : Prop :=
  ∃ session epoch, session_of s machine = Some session
    ∧ (TBinding binding session (binding_fence b) phase,
       binding_request phase binding b session (binding_fence b) epoch) ∈ jobs_of s machine.

Lemma drives_held_at s s' binding b machine :
  drives s s' → held_at s binding b machine →
  ∃ b', held_at s' binding b' machine ∧ same_binding b b'.
Proof.
  intros Hd [Hb Hm]. pose proof (dr_bindings _ _ Hd binding) as Hbs. rewrite Hb in Hbs.
  destruct (c_bindings (ns_cluster s') !! binding) as [b'|] eqn:Hb'; [|done]. exists b'.
  split; [|done]. split; [done|]. destruct Hbs as (_ & _ & Hn & _). by rewrite Hn, (dr_graph _ _ Hd).
Qed.

Lemma request_same phase binding b b' session epoch :
  same_binding b b' →
  binding_request phase binding b' session (binding_fence b') epoch
  = binding_request phase binding b session (binding_fence b) epoch.
Proof. intros (_ & H2 & H3 & H4 & H5 & H6). unfold binding_request. destruct phase; congruence. Qed.

Lemma drives_sent s s' binding b b' machine phase :
  drives s s' → same_binding b b' → sent s binding b' machine phase → sent s' binding b machine phase.
Proof.
  intros Hd Hb (session & epoch & Hs & Hj). exists session, epoch. split.
  - unfold session_of. by rewrite (dr_sessions _ _ Hd).
  - rewrite <-(request_same phase binding b b') by done. destruct Hb as (_ & _ & _ & _ & _ & <-).
    destruct (dr_jobs _ _ Hd machine) as [k ->]. apply elem_of_app. by left.
Qed.

Lemma proven_session s lease machine :
  member_stop_proven s lease machine = true → is_Some (session_of s machine).
Proof. unfold member_stop_proven. by destruct (session_of s machine). Qed.

(** Routing the release of a stopped member sends it. *)
Lemma route_proven e binding b machine epoch phase s :
  effect_phase e = Some (binding, epoch, phase) → held_at s binding b machine →
  member_stop_proven s (binding_lease b) machine = true →
  ∃ s', pump_one e s = (s', Ok ()) ∧ drives s s' ∧ ns_held_effects s' = ns_held_effects s
    ∧ (connected s machine = true → sent s' binding b machine phase).
Proof.
  intros He [Hb Hm] Hp. destruct (proven_session _ _ _ Hp) as [session Hs].
  destruct (rebind_accepted binding b machine session s Hb Hm Hs)
    as (s1 & Hr & Hd & Hh & b' & Hb' & Hsame & Hsess).
  pose proof Hsame as (_ & Hl' & Hn' & _ & _ & Hf').
  assert (machine_of (c_graph (ns_cluster s1)) (binding_node b) = Some machine) as Hm1
    by (by rewrite (dr_graph _ _ Hd)).
  assert (must_hold s1 (binding_lease b) machine = false) as Hh1.
  { unfold must_hold. rewrite (drives_proven _ _ _ _ Hd), Hp. by rewrite andb_false_r. }
  set (s2 := service_dispatch machine (TBinding binding session (binding_fence b) phase)
               (binding_request phase binding b session (binding_fence b) epoch) s1).
  assert (pump_one e s = (s2, Ok ())) as Hrun.
  { unfold pump_one, mbind, SM_bind, route. rewrite He.
    destruct e; simplify_eq/=; rewrite Hb; unfold mbind, SM_bind; rewrite Hr; cbn;
      rewrite Hb'; cbn; unfold route_binding; rewrite Hm1, Hh1; cbn; by rewrite Hf'. }
  exists s2. split_and!; [done|by eapply drives_trans, dispatch_drives|by unfold s2; rewrite dispatch_held|].
  intros Hc. exists session, epoch. split.
  - unfold session_of, s2. by rewrite dispatch_cluster, (dr_sessions _ _ Hd).
  - unfold s2. rewrite dispatch_jobs, decide_True, (dr_connected _ _ Hd), Hc by done.
    apply elem_of_app. right. constructor.
Qed.

(** ** The pass *)

(** The record is known and the stop is not proved. *)
Definition unproven (s : NodeService) (entry : BindingId * EffectPhase) : Prop :=
  ∃ b machine, held_at s entry.1 b machine ∧ member_stop_proven s (binding_lease b) machine = false.

Lemma held_at_unique s binding b b' m m' : held_at s binding b m → held_at s binding b' m' → b' = b ∧ m' = m.
Proof. intros [Hb Hm] [Hb' Hm']. rewrite Hb in Hb'. simplify_eq. split; [done|]. congruence. Qed.

Lemma drives_unproven s s' entry : drives s s' → unproven s' entry → unproven s entry.
Proof.
  intros Hd (b' & machine & [Hb' Hm] & Hp). pose proof (dr_bindings _ _ Hd entry.1) as Hbs.
  rewrite Hb' in Hbs. destruct (c_bindings (ns_cluster s) !! entry.1) as [b|] eqn:Hb; [|done].
  destruct Hbs as (_ & Hl & Hn & _). exists b, machine. split.
  - split; [done|]. by rewrite <-Hn, <-(dr_graph _ _ Hd).
  - by rewrite <-(drives_proven _ _ _ _ Hd), <-Hl.
Qed.

Lemma drive_held_spec binding phase s :
  releasing phase = true →
  ∃ s', drive_held (binding, phase) s = (s', Ok ()) ∧ drives s s'
    ∧ (∀ x, x ∈ ns_held_effects s' → x ∈ ns_held_effects s ∨ x = (binding, phase) ∧ unproven s x)
    ∧ ∀ b machine, held_at s binding b machine →
        member_stop_proven s (binding_lease b) machine = true → connected s machine = true →
        sent s' binding b machine phase.
Proof.
  intros Hph. cbn [drive_held].
  destruct (c_bindings (ns_cluster s) !! binding) as [b|] eqn:Hb.
  2: { exists s. split_and!; [done|apply drives_refl|by left|]. intros ? ? [? _]. congruence. }
  destruct (machine_of _ (binding_node b)) as [machine|] eqn:Hm.
  2: { exists s. split_and!; [done|apply drives_refl|by left|]. intros ? ? [? ?]. congruence. }
  assert (held_at s binding b machine) as Hat by done.
  destruct (member_stop_proven s (binding_lease b) machine) eqn:Hp.
  - assert (∃ e, held_effect s binding b phase = Some e
            ∧ effect_phase e = Some (binding, c_epoch (ns_cluster s), phase)) as (e & -> & He)
      by (destruct phase; try done; eexists; split; done).
    destruct (route_proven e binding b machine _ phase s He Hat Hp) as (s' & Hrun & Hd & Hh & Hsent).
    exists s'. split_and!; [done..|by rewrite Hh; left|].
    intros b1 m1 H1 _ Hc. by destruct (held_at_unique _ _ _ _ _ _ Hat H1) as [-> ->]; apply Hsent.
  - eexists. split_and!; [done| | |].
    + destruct (drives_refl s) as [? ? ? Hbs]. constructor; try done. set_solver.
    + intros x. cbn. rewrite elem_of_union, elem_of_singleton. intros [->|]; [right|by left].
      split; [done|]. by exists b, machine.
    + intros b1 m1 H1 Hp1. destruct (held_at_unique _ _ _ _ _ _ Hat H1) as [-> ->]. congruence.
Qed.

Lemma drive_all_spec entries s :
  Forall (λ entry, releasing entry.2 = true) entries →
  ∃ s', sfor drive_held entries s = (s', Ok ()) ∧ drives s s'
    ∧ (∀ x, x ∈ ns_held_effects s' → x ∈ ns_held_effects s ∨ unproven s x)
    ∧ ∀ binding phase b machine, (binding, phase) ∈ entries → held_at s binding b machine →
        member_stop_proven s (binding_lease b) machine = true → connected s machine = true →
        sent s' binding b machine phase.
Proof.
  revert s. induction entries as [|[binding phase] entries IH]; intros s Hall.
  { exists s. split_and!; [done|apply drives_refl|by left|]. by intros ? ? ? ? ?%elem_of_nil. }
  apply Forall_cons in Hall as [Hph Hall].
  destruct (drive_held_spec binding phase s Hph) as (s1 & Hr1 & Hd1 & Hh1 & Hsent1).
  destruct (IH s1 Hall) as (s2 & Hr2 & Hd2 & Hh2 & Hsent2).
  exists s2. split_and!.
  - cbn [sfor]. unfold mbind, SM_bind. by rewrite Hr1.
  - by eapply drives_trans.
  - intros x [Hx|Hx]%Hh2; [|right; by eapply drives_unproven].
    apply Hh1 in Hx as [|[_ ?]]; [by left|by right].
  - intros binding' phase' b machine Hin Hat Hp Hc.
    destruct (drives_held_at _ _ _ _ _ Hd1 Hat) as (b1 & Hat1 & Hsame).
    apply elem_of_cons in Hin as [[= -> ->]|Hin].
    + eapply drives_sent; [exact Hd2|apply same_binding_refl|]. by apply Hsent1.
    + eapply drives_sent; [apply drives_refl|exact Hsame|]. apply Hsent2; [done..| |by rewrite (dr_connected _ _ Hd1)].
      rewrite (drives_proven _ _ _ _ Hd1). by destruct Hsame as (_ & -> & _).
Qed.

(** C28. A release is never held forever: when only releases and fences are held
    (the source's own [unreachable!]) and the agent acknowledges, in the
    session in force, that a member has stopped, the acknowledgement is
    absorbed without error, no release or fence of that member stays held, and
    each of them is in the queue of the machine's connected worker, for the
    recorded fence and the session in force. *)
Theorem stop_ack_releases lease machine session s :
  session_of s machine = Some session →
  (∀ entry, entry ∈ ns_held_effects s → releasing entry.2 = true) →
  ∃ s', absorb_stop lease machine session (Ok (ExecutionStopped lease)) s = (s', Ok ())
    ∧ ∀ binding phase b, (binding, phase) ∈ ns_held_effects s → held_at s binding b machine →
        binding_lease b = lease →
        ((binding, phase) ∉ ns_held_effects s') ∧ (connected s machine = true → sent s' binding b machine phase).
Proof.
  intros Hs Hheld. unfold absorb_stop. rewrite bool_decide_true by done. cbn [negb]. rewrite N.eqb_refl.
  set (s0 := note_stopped (lease, machine, session) s). unfold drive_held_effects.
  destruct (drive_all_spec (bs_iter (ns_held_effects s0)) (set_held_effects ∅ s0))
    as (s' & Hrun & Hd & Hh & Hsent).
  { apply Forall_forall. intros entry ?%elem_of_bs_iter. by apply Hheld. }
  exists s'. split; [done|]. intros binding phase b Hin Hat <-.
  assert (member_stop_proven (set_held_effects ∅ s0) (binding_lease b) machine = true) as Hp.
  { unfold member_stop_proven, session_of. cbn. unfold session_of in Hs. rewrite Hs.
    apply bool_decide_true. set_solver. }
  split.
  - intros [?%elem_of_empty|(b1 & m1 & Hat1 & Hp1)]%Hh; [done|].
    destruct (held_at_unique _ _ _ _ _ _ (Hat : held_at (set_held_effects ∅ s0) binding b machine) Hat1)
      as [-> ->]. congruence.
  - intros Hc. apply Hsent; [by apply elem_of_bs_iter|done..].
Qed.

(** * The CPU placement a lease's member is started with. *)

From Stdlib Require Import Ascii.

Fixpoint has_char (c : ascii) (s : string) : bool :=
  match s with "" => false | String a rest => Ascii.eqb a c || has_char c rest end.

Lemma rsplit_once_none c s : rsplit_once c s = None → has_char c s = false.
Proof.
  induction s as [|a s IH]; [done|]. cbn. destruct (rsplit_once c s) as [[l r]|]; [done|].
  destruct (Ascii.eqb a c); [done|]. by intros; apply IH.
Qed.

(** The part after the last separator holds no separator. *)
Lemma rsplit_once_leaf c s l r : rsplit_once c s = Some (l, r) → has_char c r = false.
Proof.
  revert l. induction s as [|a s IH]; intros l; [done|]. cbn.
  destruct (rsplit_once c s) as [[l' r']|] eqn:Hs; [intros [= <- <-]; by eapply IH|].
  destruct (Ascii.eqb a c); [|done]. intros [= <- <-]. by apply rsplit_once_none.
Qed.

Lemma strip_prefix_char c p s rest : has_char c p = true → strip_prefix p s = Some rest → has_char c s = true.
Proof.
  revert s. induction p as [|a p IH]; intros s; [done|]. destruct s as [|b s]; [done|]. cbn.
  destruct (Ascii.eqb_spec a b) as [<-|]; [|done]. destruct (Ascii.eqb a c); [done|]. cbn. apply IH.
Qed.

Lemma host_leaf_number_cpu s node : host_leaf_number s node "cpu" = None.
Proof.
  unfold host_leaf_number. destruct (graph_node _ node) as [n|]; [|done]. cbn [mbind option_bind].
  destruct (node_attrs n !! HOST_ID_ATTR) as [host|]; [|done]. cbn [mbind option_bind].
  destruct (rsplit_once "/" host) as [[numa leaf]|] eqn:Hr; [|done]. cbn [mbind option_bind].
  destruct (strip_prefix "numa/" numa); [|done]. cbn [mbind option_bind].
  rewrite bool_decide_true by done. destruct (strip_prefix "cpu/" leaf) as [rest|] eqn:Hs; [|done].
  apply (strip_prefix_char "/") in Hs; [|done]. apply rsplit_once_leaf in Hr. congruence.
Qed.

Lemma host_leaf_number_cpu_slash s node : host_leaf_number s node "cpu/" = None.
Proof.
  unfold host_leaf_number. destruct (graph_node _ node) as [n|]; [|done]. cbn [mbind option_bind].
  destruct (node_attrs n !! HOST_ID_ATTR) as [host|]; [|done]. cbn [mbind option_bind].
  destruct (rsplit_once "/" host) as [[numa leaf]|]; [|done]. cbn [mbind option_bind].
  by destruct (strip_prefix "numa/" numa).
Qed.

(** C40. No member is ever pinned to the CPUs of its lease: whatever CPU leaves
    a lease claims and whatever stable host ids they carry, the placement its
    member is started with lists no CPU, because the number of a CPU leaf is
    never found, neither for the kind the caller passes ("cpu/") nor for the
    kind the lookup matches on ("cpu"). *)
Theorem cpu_placement_never_pinned s lease machine limits :
  lease_limits_on_machine s lease machine = Ok limits →
  numbers (pl_cpus (lim_placement limits)) = []
  ∧ ∀ node, host_leaf_number s node "cpu/" = None ∧ host_leaf_number s node "cpu" = None.
Proof.
  intros Hlim. split; [|auto using host_leaf_number_cpu, host_leaf_number_cpu_slash].
  unfold lease_limits_on_machine in Hlim.
  destruct (c_leases (ns_cluster s) !! lease) as [l|]; [|done]. cbn [ok_or mbind result_bind] in Hlim.
  injection Hlim as <-. cbn [lim_placement pl_cpus numbers].
  assert (∀ claims acc, sum_cpus acc = [] →
            sum_cpus (foldl (add_claim_limits s machine) acc claims) = []) as Hfold.
  { induction claims as [|claim claims IH]; intros acc Hacc; [done|]. cbn [foldl]. apply IH.
    unfold add_claim_limits. rewrite host_leaf_number_cpu_slash. repeat case_match; done. }
  by rewrite Hfold.
Qed.
