(* ===== verification/ServerFacts.v ===== *)
(** The control plane's operations: every request and every maintenance round
    is a run of the abstract controller; the admission loop ends; what a
    submission compiles to. *)

From S2P Require Import Prelude Identifier Text Types Workload Endpoint Protocol Provider Graph.
From S2P Require Import Inventory Discover Occupancy Command Cluster Ledger Handlers ClusterInv Steps.
From S2P Require Import Safety Authority Bindings Replay Select Admit Scheduler Journal ServiceState.
From S2P Require Import Service Routing Absorb Controller Registration ServiceSpec ServiceRefines.
From S2P Require Import ServiceSafety AdmissionFacts Server.
From Stdlib Require Import Ascii.

(** ** Operations of the plane *)

(** What changes the controller: a client's request, a maintenance round, an
    agent dialling in, the driver thread, and answers of agents. *)
Inductive PlaneOp :=
| PRequest (now : u64) (request : ClientRequest)
| PMaintain (now : u64)
| PDialIn (description : MachineDescription) (caps : ExecutionCapabilities)
| PAdvance
| PWork (machine : NodeId) (reply : AgentReply)    (* a worker answers its first job *)
| PAnswer (tag : Tag) (reply : AgentReply).        (* any answer whatsoever *)

Section ops.
Context {codec : PathCodec}.
Context (agent_logs : NodeId → LeaseId → option AgentReply) (read_log : LeaseId → string).
Context (response_debug : AgentResponse → string).

Definition plane_run (s : NodeService) (op : PlaneOp) : NodeService :=
  match op with
  | PRequest now request => (tick_and_handle agent_logs read_log response_debug now request s).1
  | PMaintain now => maintain now s
  | PDialIn d caps => (register_agent_with_capabilities d caps s).1
  | PAdvance => (drive_round s).1
  | PWork machine reply => deliver machine reply s
  | PAnswer tag reply => inbox_post tag reply s
  end.

Lemma admit_members_refines members : refines_fn (admit_members members).
Proof. apply refines_foldl. intros _ s. apply refines_admit. Qed.

Lemma reconcile_and_admit_refines : refines_fn reconcile_and_admit.
Proof.
  intros s. unfold reconcile_and_admit. pose proof (reconcile_groups_refines s) as Hr.
  destruct (reconcile_service_groups s) as [s1 members]. eapply steps_trans; [exact Hr|].
  apply admit_members_refines.
Qed.

Lemma plane_submit_refines owner keep_alive wire : refines_pair (plane_submit owner keep_alive wire).
Proof.
  intros s. unfold plane_submit. case_bool_decide; [apply steps_refl|].
  destruct (compile_workload _ wire) as [w|]; [|apply steps_refl].
  set (s1 := submit _ owner s). eapply steps_trans; [apply submit_refines|]. fold s1.
  pose proof (refines_admit (ceiling_policy ∅) s1) as Ha. fold admit_one in Ha.
  by destruct (admit_one s1) as [s2 [[id|]|e]].
Qed.

Lemma submit_service_refines id owner desired max min per_machine wire :
  refines_pair (submit_service id owner desired max min per_machine wire).
Proof.
  intros s. unfold submit_service. destruct (cardinality_validate _); [|apply steps_refl].
  destruct (compile_workload 0 wire) as [template|]; [|apply steps_refl].
  match goal with |- context [register_service_group ?g s] => pose proof (register_group_refines g s) as Hg end.
  destruct (register_service_group _ s) as [s1 [[]|e]]; [|done].
  eapply steps_trans; [exact Hg|]. apply reconcile_and_admit_refines.
Qed.

Lemma scale_service_refines id target : refines_pair (scale_service id target).
Proof.
  intros s. unfold scale_service. pose proof (scale_group_refines id target s) as Hg.
  destruct (scale_service_group id target s) as [s1 [applied|e]]; [|done].
  eapply steps_trans; [exact Hg|]. apply reconcile_and_admit_refines.
Qed.

Lemma handle_refines request : refines_pair (plane_handle agent_logs read_log response_debug request).
Proof.
  intros s. destruct request; cbn [plane_handle].
  - apply plane_submit_refines.
  - apply submit_service_refines.
  - apply scale_service_refines.
  - apply steps_refl.
  - unfold plane_revoke. pose proof (refines_service_apply (RevokeLease lease) s) as Hr.
    fold (revoke lease) in Hr. by destruct (revoke lease s) as [s1 [[]|e]].
  - apply steps_refl.
Qed.

Lemma admit_all_refines fuel : refines_fn (admit_all fuel).
Proof.
  induction fuel as [|fuel IH]; intros s; [apply steps_refl|]. cbn [admit_all].
  pose proof (refines_admit (ceiling_policy ∅) s) as Ha. fold admit_one in Ha.
  destruct (admit_one s) as [s1 [[id|]|e]]; [|done..]. eapply steps_trans; [exact Ha|apply IH].
Qed.

Lemma maintain_refines now : refines_fn (maintain now).
Proof.
  intros s. unfold maintain.
  eapply steps_trans; [apply refines_tick|]. eapply steps_trans; [apply refines_collect_completions|].
  eapply steps_trans; [apply admit_all_refines|]. cbv zeta. fold (admit_queue (collect_completions (tick now s).1).1).
  set (s1 := admit_queue _). assert (steps s1 (take_unreachable s1).1) as Hu by frame_step.
  destruct (take_unreachable s1) as [s2 unreachable]. eapply steps_trans; [exact Hu|].
  set (s3 := foldl _ s2 unreachable). assert (steps s2 s3) as Hm.
  { apply (refines_foldl (λ s machine, (mark_machine_unhealthy machine s).1)). intros machine ?.
    apply refines_mark_unhealthy. }
  eapply steps_trans; [exact Hm|]. eapply steps_trans; [apply (probe_refines s3)|].
  pose proof (queue_restarts_refines (probe_agents s3)) as Hq.
  destruct (queue_restarts (probe_agents s3)) as [s4 restarts]. eapply steps_trans; [exact Hq|].
  eapply steps_trans; [apply (admit_members_refines restarts)|apply reconcile_and_admit_refines].
Qed.

Lemma plane_run_reaches op s : reaches s (plane_run s op).
Proof.
  destruct op; cbn [plane_run].
  - apply reaches_steps. unfold tick_and_handle. eapply steps_trans; [apply refines_tick|].
    eapply steps_trans; [apply refines_drive_round|apply handle_refines].
  - apply reaches_steps, maintain_refines.
  - apply reaches_steps, refines_register_agent.
  - apply reaches_steps, refines_drive_round.
  - apply reaches_work.
  - apply reaches_answer.
Qed.

Definition plane_trace (s : NodeService) (ops : list PlaneOp) : NodeService := foldl plane_run s ops.

Lemma plane_trace_reaches ops s : reaches s (plane_trace s ops).
Proof.
  revert s. induction ops as [|op ops IH]; intros s; [apply reaches_refl|]. simpl.
  eapply reaches_trans; [apply plane_run_reaches|apply IH].
Qed.

(** C16. In every state the control plane can be driven to, by any clients'
    requests, maintenance rounds, agents dialling in and whatever agents
    answer, every change came about by steps of the abstract controller, which
    knew nothing when it started, and
    the occupancy of every node in every dimension is the exact sum of the
    claims of its outermost occupying leases and within capacity. *)
Theorem plane_never_overcommits ops n d :
  let s := plane_trace service_new ops in
  forallb command_u64 (ns_history s) = true →
  (∃ g, rtc step (service_new, no_ghost) (s, g))
  ∧ occ_amount (occupancy (ns_cluster s)) n d
    = total_used (c_leases (ns_cluster s)) (open_binding_leases (ns_cluster s)) ∅ n d
  ∧ occ_amount (occupancy (ns_cluster s)) n d ≤ node_cap (c_graph (ns_cluster s)) n d.
Proof.
  intros s Hfit. pose proof (plane_trace_reaches ops service_new : reaches service_new s) as Hsteps.
  split; [destruct (Hsteps no_ghost service_new_grounded) as (g & ? & _); by exists g|].
  assert (service_inv service_new) as H0 by (constructor; [by exists []|done..]).
  pose proof (reachable_inv _ (reaches_inv _ _ H0 Hfit Hsteps)) as Hinv.
  assert (∀ j, j ∈ (∅ : gset N) → c_leases (ns_cluster s) !! j = None) as Hex
    by (intros j ?%elem_of_empty; done).
  unfold occupancy, occupancy_except. rewrite occupancy_exact by done.
  rewrite total_used_ledger by (done || apply Hinv). split; [done|]. apply (ci_ledger _ Hinv).
Qed.
End ops.

(** ** The admission loop *)

Abbreviation queue s := (ss_queue (ns_state s)).

(** An admission takes one entry off the queue; anything else but a failure
    after the lease was opened leaves it as it was. *)
Lemma admit_one_queue policy s s' r :
  admit_one_with_policy policy s = (s', r) →
  queue s' = queue s ∧ (∀ id, r ≠ Ok (Some id))
  ∨ ∃ before entry after, queue s = before ++ entry :: after ∧ queue s' = before ++ after.
Proof.
  unfold admit_one_with_policy. destruct (cluster_admit_backfill_with_policy _ _ _ _) as [admission|].
  2: { intros [= <- <-]. by left. }
  destruct (validate_allocation_bindings _ _); [|intros [= <- <-]; by left].
  destruct (take_queued _ _) as [[[before entry] after]|] eqn:Htake; [|intros [= <- <-]; by left].
  apply take_queued_spec in Htake as [Hq _]. set (s1 := over_state _ s). set (command := OpenLease _ _ _ _ _ _ _).
  assert (queue (commit command s1).1 = before ++ after) as Hc.
  { by rewrite (sw_state _ _ (commit_view command s1)). }
  destruct (commit command s1) as [s2 [[]|e]]; cbn [fst] in Hc.
  - set (lease := ss_next_lease (ns_state s)) in *.
    pose proof (admitted_tail lease (req_id (adm_request admission)) s2) as [Hm _]. set (m := _ ≫= _) in *.
    intros Hrun. rewrite Hrun in Hm. right. exists before, entry, after. split; [done|].
    unfold intent in Hm. cbn [fst] in Hm. congruence.
  - intros [= <- <-]. left. split; [by rewrite Hq|done].
Qed.

(** The [loop] of maintenance, run until an admission places nothing. *)
Inductive admit_loop : NodeService → nat → NodeService → Prop :=
| al_stop s s' r : admit_one s = (s', r) → (∀ id, r ≠ Ok (Some id)) → admit_loop s 0 s'
| al_more s s1 id n s' : admit_one s = (s1, Ok (Some id)) → admit_loop s1 n s' → admit_loop s (S n) s'.

Lemma admit_all_loop fuel s :
  (length (queue s) < fuel)%nat →
  ∃ n, (n ≤ length (queue s))%nat ∧ admit_loop s n (admit_all fuel s)
    ∧ queue (admit_all fuel s) `sublist_of` queue s.
Proof.
  revert s. induction fuel as [|fuel IH]; intros s Hf; [lia|]. cbn [admit_all].
  destruct (admit_one s) as [s1 r] eqn:Hrun. pose proof (admit_one_queue (ceiling_policy ∅) s s1 r Hrun) as Hq.
  assert (queue s1 `sublist_of` queue s) as Hsub.
  { destruct Hq as [[-> _]|(before & entry & after & -> & ->)]; [done|]. by apply sublist_app, sublist_cons. }
  destruct r as [[id|]|e]; [|exists 0%nat; split_and!; [lia|by econstructor|done]..].
  destruct Hq as [[_ Hno]|(before & entry & after & Hs & Hs1)]; [by destruct (Hno id)|].
  assert (length (queue s) = S (length (queue s1))) as Hlen.
  { rewrite Hs, Hs1, !length_app. simpl. lia. }
  destruct (IH s1) as (n & Hn & Hloop & Hsub1); [lia|]. exists (S n). split_and!; [lia|by econstructor|].
  by etrans.
Qed.

(** The admission loop of a maintenance round ends: it admits at most as
    many requests as are queued, stops only because the next admission places
    nothing or fails, and never adds to or reorders the queue. *)
Theorem admission_loop_ends s :
  ∃ n, (n ≤ length (ss_queue (ns_state s)))%nat ∧ admit_loop s n (admit_queue s)
    ∧ ss_queue (ns_state (admit_queue s)) `sublist_of` ss_queue (ns_state s).
Proof. apply admit_all_loop. lia. Qed.

(** ** Submissions *)

(** [host:mount], at the first colon. *)
Definition volume_spec (spec : string) (m : StorageMount) : Prop :=
  spec = host_path m +:+ ":" +:+ mount_path m ∧ all_chars (differs ":") (host_path m) = true
  ∧ host_path m ≠ "" ∧ mount_path m ≠ "".

(** [container] or [host:container], each a [u16]. *)
Definition port_spec (spec : string) (p : PortPublish) : Prop :=
  match host_port p with
  | Some port => ∃ host container, spec = host +:+ ":" +:+ container ∧ all_chars (differs ":") host = true
      ∧ parse_u16 host = Some port ∧ parse_u16 container = Some (container_port p)
  | None => all_chars (differs ":") spec = true ∧ parse_u16 spec = Some (container_port p)
  end.

Lemma parse_volume_spec spec m : parse_volume spec = Ok m ↔ volume_spec spec m.
Proof.
  unfold parse_volume, volume_spec. split.
  - pose proof (split_once_spec ":" spec) as Hs. destruct (split_once ":" spec) as [[host mount]|]; [|done].
    destruct Hs as [-> Hh]. cbn [mbind result_bind ok_or]. do 2 case_bool_decide; try done.
    intros [= <-]. done.
  - intros (-> & Hh & Hne & Hne'). change (":" +:+ mount_path m) with (String ":" (mount_path m)).
    rewrite split_once_app by done. cbn [mbind result_bind ok_or].
    rewrite !bool_decide_eq_false_2 by done. by destruct m.
Qed.

Lemma parse_port_spec spec p : parse_port spec = Ok p ↔ port_spec spec p.
Proof.
  unfold parse_port, port_spec. split.
  - pose proof (split_once_spec ":" spec) as Hs. destruct (split_once ":" spec) as [[host container]|].
    + destruct (parse_u16 container) as [cp|] eqn:Hc; [|done]. destruct (parse_u16 host) as [hp|] eqn:Hh; [|done].
      intros [= <-]. cbn. destruct Hs as [-> Hd]. by exists host, container.
    + destruct (parse_u16 spec) as [cp|] eqn:Hc; [|done]. intros [= <-]. done.
  - destruct p as [cp [hp|]]; cbn [host_port container_port].
    + intros (host & container & -> & Hd & Hh & Hc). change (":" +:+ container) with (String ":" container).
      rewrite split_once_app, Hc, Hh by done. done.
    + intros [Hd Hc]. rewrite split_once_none, Hc by done. done.
Qed.

(** The needs a submission asks for: at least one CPU, memory and GPUs when
    not zero. *)
Definition asked_needs (wire : WorkloadWire) : list Need :=
  mkNeed Class.Cpu (qty Dim.Count (N.max (wire_cpus wire) 1)) []
  :: (if wire_memory_mib wire =? 0 then []
      else [mkNeed Class.Memory (qty Dim.Bytes (wire_memory_mib wire * 1048576)) []])
  ++ (if wire_gpus wire =? 0 then [] else [mkNeed Class.Gpu (qty Dim.Count (wire_gpus wire)) []]).

Lemma wire_needs_spec wire needs :
  wire_needs wire = Ok needs ↔ wire_memory_mib wire * 1048576 ≤ u64_max ∧ needs = asked_needs wire.
Proof.
  unfold wire_needs, asked_needs. change (2 ^ 20) with 1048576.
  destruct (N.ltb_spec 0 (wire_memory_mib wire)) as [Hm|Hm];
    destruct (N.eqb_spec (wire_memory_mib wire) 0) as [H0|H0]; try lia;
    (destruct (N.ltb_spec 0 (wire_gpus wire)) as [Hg|Hg];
     destruct (N.eqb_spec (wire_gpus wire) 0) as [H1|H1]; try lia).
  all: try (destruct (N.ltb_spec u64_max (wire_memory_mib wire * 1048576))).
  all: cbn [mbind result_bind]; split; intros Hr; simplify_eq/=; try done; try (destruct Hr; simplify_eq/=; done).
  all: try (split; [|done]); try lia; try (destruct Hr; lia).
  all: rewrite ?H0; vm_compute; done.
Qed.

(** What a well-formed submission says: memory in bytes that fits in 64 bits,
    volumes and ports, and those only with an image. *)
Definition wire_asks (wire : WorkloadWire) (storage : list StorageMount) (ports : list PortPublish) : Prop :=
  wire_memory_mib wire * 1048576 ≤ u64_max
  ∧ Forall2 volume_spec (wire_volumes wire) storage ∧ Forall2 port_spec (wire_ports wire) ports
  ∧ (wire_image wire = None → storage = [] ∧ ports = []).

Definition asked_workload (id : RequestId) (wire : WorkloadWire) (storage : list StorageMount)
    (ports : list PortPublish) (keep_alive : bool) : WorkloadSpec :=
  mkWorkload (mkRequest id Batch (asked_needs wire) [] [] [] (N.max (wire_lifetime_secs wire) 1) 1 true)
    (mkExecution (wire_command wire) (wire_image wire) storage ports (wire_grace_secs wire)) keep_alive.

Definition cardinality_ok (c : Cardinality) : Prop :=
  match c with
  | Fixed count => 1 ≤ count
  | Elastic min target max => 1 ≤ min ∧ min ≤ target ∧ target ≤ max
  | PerMachine => True
  end.

Lemma compile_workload_spec id wire w :
  compile_workload id wire = Ok w ↔
  (wire_command wire ≠ [] ∨ wire_image wire ≠ None)
  ∧ ∃ storage ports, wire_asks wire storage ports ∧ w = asked_workload id wire storage ports false.
Proof.
  unfold compile_workload. split.
  - destruct (bool_decide (wire_command wire = []) && _) eqn:He; [done|].
    intros (needs & [Hmem ->]%wire_needs_spec & (storage & Hs & (ports & Hp & Hrest)%bind_Ok_inv)%bind_Ok_inv)%bind_Ok_inv.
    apply try_map_Forall2 in Hs, Hp. split.
    { apply andb_false_iff in He as [?%bool_decide_eq_false|?%bool_decide_eq_false]; auto. }
    exists storage, ports.
    destruct (bool_decide (wire_image wire = None) && _) eqn:Hi; [done|]. injection Hrest as <-.
    split; [|done]. split_and!; [done|..].
    + eapply Forall2_impl; [exact Hs|]. intros ? ?. apply parse_volume_spec.
    + eapply Forall2_impl; [exact Hp|]. intros ? ?. apply parse_port_spec.
    + intros Hnone. rewrite bool_decide_eq_true_2 in Hi by done. cbn in Hi.
      apply orb_false_iff in Hi as [?%negb_false_iff%bool_decide_eq_true ?%negb_false_iff%bool_decide_eq_true]. done.
  - intros (Hne & storage & ports & (Hmem & Hs & Hp & Hi) & ->).
    assert (bool_decide (wire_command wire = []) && bool_decide (wire_image wire = None) = false) as ->.
    { apply andb_false_iff. destruct Hne; [left|right]; by apply bool_decide_eq_false. }
    rewrite (proj2 (wire_needs_spec wire (asked_needs wire))) by done. cbn [mbind result_bind].
    rewrite (proj2 (try_map_Forall2 parse_volume _ storage)).
    2: { eapply Forall2_impl; [exact Hs|]. intros ? ?. apply parse_volume_spec. }
    cbn [mbind result_bind]. rewrite (proj2 (try_map_Forall2 parse_port _ ports)).
    2: { eapply Forall2_impl; [exact Hp|]. intros ? ?. apply parse_port_spec. }
    cbn [mbind result_bind]. destruct (bool_decide (wire_image wire = None)) eqn:Himg; [|done].
    apply bool_decide_eq_true in Himg. by destruct (Hi Himg) as [-> ->].
Qed.

(** What is not of that form is refused. *)
Lemma compile_workload_refused id wire :
  ¬ ((wire_command wire ≠ [] ∨ wire_image wire ≠ None) ∧ ∃ storage ports, wire_asks wire storage ports) →
  ∃ reason, compile_workload id wire = Err reason.
Proof.
  intros Hno. destruct (compile_workload id wire) as [w|reason] eqn:Hc; [|by eexists]. exfalso. apply Hno.
  apply compile_workload_spec in Hc as (Hp & storage & ports & Ha & _). eauto.
Qed.

(** C33. What becomes of a submission.  A single one is taken exactly when it
    has a command and is well formed (the memory in bytes fits in 64 bits, every
    volume is two non-empty paths around the first colon, every port is a [u16]
    or two of them around a colon, volumes and ports come only with an image):
    then exactly this workload is queued for the owner under the next request
    id (one CPU or the number given, the memory and the GPUs given, for at
    least a second, the given program, mounts and ports) and one admission
    follows, whose outcome is the answer.  A service group is taken exactly
    when its cardinality is valid, it has a command or an image and is well
    formed: then it is stored under its id with this template, reconciled and
    admitted.  Everything else changes nothing and is answered with an error. *)
Theorem submission_compiles owner keep_alive wire group desired max min per_machine s :
  let id := ss_next_request_id (ns_state s) in
  let cardinality := wire_cardinality desired max min per_machine in
  (∀ storage ports, wire_command wire ≠ [] → wire_asks wire storage ports →
     ∃ s' outcome, admit_one (submit (asked_workload id wire storage ports keep_alive) owner s) = (s', outcome)
       ∧ plane_submit owner keep_alive wire s
         = (s', match outcome with
                | Ok (Some _) => SrSubmitted id (lease_of_request s')
                | Ok None => SrSubmitted id 0
                | Err err => SrError (error_to_string err)
                end))
  ∧ (¬ (wire_command wire ≠ [] ∧ ∃ storage ports, wire_asks wire storage ports) →
     ∃ reason, plane_submit owner keep_alive wire s = (s, SrError reason))
  ∧ (∀ storage ports, cardinality_ok cardinality → wire_command wire ≠ [] ∨ wire_image wire ≠ None →
       wire_asks wire storage ports →
       let template := asked_workload 0 wire storage ports false in
       submit_service group owner desired max min per_machine wire s
       = (reconcile_and_admit (persist None (over_state (λ st, set_service_groups
            (<[group := mkGroup group owner cardinality template]> (ss_service_groups st)) st) s)),
          SrServiceRegistered group (if per_machine then 0 else desired)))
  ∧ (¬ (cardinality_ok cardinality ∧ (wire_command wire ≠ [] ∨ wire_image wire ≠ None)
        ∧ ∃ storage ports, wire_asks wire storage ports) →
     ∃ reason, submit_service group owner desired max min per_machine wire s = (s, SrError reason)).
Proof.
  intros id cardinality. split_and!.
  - intros storage ports Hcmd Hasks. unfold plane_submit. rewrite bool_decide_eq_false_2 by done. fold id.
    rewrite (proj2 (compile_workload_spec id wire (asked_workload id wire storage ports false))) by eauto 10.
    cbn [w_resources w_execution asked_workload]. fold (asked_workload id wire storage ports keep_alive).
    destruct (admit_one _) as [s' [[]|]]; eauto.
  - intros Hno. unfold plane_submit. destruct (bool_decide_reflect (wire_command wire = [])); [by eexists|].
    destruct (compile_workload_refused (ss_next_request_id (ns_state s)) wire) as [reason ->]; [|by eexists].
    intros [_ Ha]. by apply Hno.
  - intros storage ports Hcard Hprog Hasks. unfold submit_service. fold cardinality.
    rewrite (proj2 (cardinality_validate_spec cardinality)) by done.
    rewrite (proj2 (compile_workload_spec 0 wire (asked_workload 0 wire storage ports false))) by eauto 10.
    unfold register_service_group. cbn [group_cardinality group_id].
    rewrite (proj2 (cardinality_validate_spec cardinality)) by done.
    subst cardinality. unfold wire_cardinality. by destruct per_machine, min, max.
  - intros Hno. unfold submit_service. fold cardinality.
    destruct (cardinality_validate cardinality) as [[]|reason] eqn:Hv; [|by eexists].
    destruct (compile_workload_refused 0 wire) as [reason ->]; [|by eexists].
    intros [Hp Ha]. apply cardinality_validate_spec in Hv. by apply Hno.
Qed.
