(* ===== verification/BootFacts.v ===== *)
(** Recovery of the control plane from its files. *)

From S2P Require Import Prelude Identifier Text Types Workload Endpoint Protocol Provider Graph.
From S2P Require Import Inventory Discover Occupancy Command Cluster Handlers ClusterInv Steps Safety.
From S2P Require Import Authority Bindings Replay Select Admit Scheduler Journal ServiceState Service.
From S2P Require Import Routing Absorb Controller Registration ServiceSpec ServiceRefines.
From S2P Require Import ServiceSafety Server ServerFacts.

(** ** Kernel states up to control *)

Definition base_control : Control := mkControl 1 0 true true [].

(** Equal in everything the command log determines. *)
Definition same_kernel (c c' : Cluster) : Prop := with_control base_control c = with_control base_control c'.

Lemma same_kernel_control k c c' : same_kernel c c' → with_control k c = with_control k c'.
Proof.
  intros H. change (with_control k (with_control base_control c) = with_control k (with_control base_control c')).
  by rewrite H.
Qed.

Lemma same_kernel_with k c : same_kernel (with_control k c) c.
Proof. done. Qed.

Lemma same_kernel_digest c c' : same_kernel c c' → logged_digest (digest c) = logged_digest (digest c').
Proof.
  intros H. change (logged_digest (digest (with_control base_control c))
                    = logged_digest (digest (with_control base_control c'))). by rewrite H.
Qed.

(** The control of a state. *)
Definition control_of (c : Cluster) : Control :=
  mkControl (c_epoch c) (c_now c) (c_agreed c) (c_replaying c) (c_log c).

Lemma with_control_of c : with_control (control_of c) c = c.
Proof. by destruct c. Qed.

Lemma dispatch_agreed c cmd c' es :
  cluster_inv c → command_u64 cmd = true → dispatch cmd c = (c', Ok es) → c_agreed c' = c_agreed c.
Proof.
  intros Hinv Hu Hrun. pose proof (dispatch_ksteps c cmd Hinv Hu c' es Hrun) as Hsteps.
  clear -Hsteps. induction Hsteps as [|c c1 c' Hstep _ IH]; [done|]. rewrite IH. by destruct Hstep.
Qed.

(** A command accepted by the live kernel is accepted by a replaying one. *)
Lemma replay_accepted c live cmd live' es :
  same_kernel c live → c_agreed c = true → cluster_inv live → dispatch cmd live = (live', Ok es) →
  ∃ c' es', cluster_apply cmd (set_replaying true c) = (c', Ok es')
    ∧ same_kernel (set_replaying false c') live' ∧ c_agreed (set_replaying false c') = true.
Proof.
  intros Hsame Hag Hinv Hrun.
  set (k := mkControl (c_epoch c) (c_now c) true true (c_log c)).
  assert (set_replaying true c = with_control k live) as ->.
  { rewrite <-(same_kernel_control k c live Hsame). unfold k. rewrite <-Hag. by destruct c. }
  rewrite apply_run, (dispatch_control k live cmd live' es); [|split; [done|by left]|done..].
  eexists _, _. split; [done|]. done.
Qed.

Lemma service_replay_one sb command c' es :
  ns_durable sb = false → cluster_apply command (set_replaying true (ns_cluster sb)) = (c', Ok es) →
  ∃ s', service_replay [command] sb = (s', Ok ()) ∧ ns_cluster s' = set_replaying false c'
    ∧ ns_durable s' = false.
Proof.
  intros Hd Hrun. unfold service_replay, replay_commands, mbind, SM_bind, smodify, commit.
  cbn [ns_cluster over_state set_state set_cluster]. rewrite Hrun. unfold persist.
  cbn [ns_durable set_history set_cluster over_state set_state]. rewrite Hd. eauto.
Qed.

(** ** Files *)

Section files.
Context {vec : Type} `{!EqDecision vec} (vec_new : vec) (state_to_vec : ServiceState → vec).
(** States encode differently, and none to the empty vector. *)
Context (Hvec : Inj (=) (=) state_to_vec) (Hnonempty : ∀ st, state_to_vec st ≠ vec_new).
Local Abbreviation ControlPlane := (ControlPlane vec).
Local Abbreviation sink := (sink state_to_vec).
Local Abbreviation sink_all := (sink_all state_to_vec).

(** Booting from [d] gives the kernel of [c], the state [st] and the cursor. *)
Definition restores (d : Disk) (sequence : u64) (c : Cluster) (st : ServiceState) : Prop :=
  ∃ s compacted, boot_files d = Ok (s, sequence, compacted) ∧ compacted ≤ sequence
    ∧ same_kernel (ns_cluster s) c ∧ c_agreed (ns_cluster s) = true ∧ ns_state s = st
    ∧ ns_durable s = false.

Lemma boot_files_append snap log r s last compacted s' last' :
  boot_files (mkDisk snap log) = Ok (s, last, compacted) →
  (∀ restored sequenced, boot_record restored sequenced compacted (s, last) r = Ok (s', last')) →
  boot_files (mkDisk snap (log ++ [r])) = Ok (s', last', compacted).
Proof.
  intros Hboot Hr. unfold boot_files in *. cbn [dk_snapshot dk_log] in *.
  destruct (boot_snapshot snap) as [[[s0 comp0] sequenced]|e]; [|done]. cbn [mbind result_bind] in *.
  rewrite try_fold_snoc. destruct (try_fold _ _ log) as [[s1 last1]|e]; [|done]. cbn [mbind result_bind] in *.
  injection Hboot as -> -> ->. rewrite Hr. done.
Qed.

(** Replaying the command of a record. *)
Lemma replay_record s live command live' :
  same_kernel (ns_cluster s) live → c_agreed (ns_cluster s) = true → ns_durable s = false →
  cluster_inv live →
  match command with Some x => ∃ es, dispatch x live = (live', Ok es) | None => live' = live end →
  ∃ s2, match command with
        | Some x => match service_replay [x] s with
                    | (s, Ok _) => Ok s
                    | (_, Err e) => Err (error_to_string e)
                    end
        | None => Ok s
        end = Ok s2
    ∧ same_kernel (ns_cluster s2) live' ∧ c_agreed (ns_cluster s2) = true ∧ ns_durable s2 = false.
Proof.
  intros Hk Hag Hd Hinv Hcmd. destruct command as [x|]; [|subst; eauto]. destruct Hcmd as [es Hrun].
  destruct (replay_accepted _ _ _ _ _ Hk Hag Hinv Hrun) as (c' & es' & Hr & Hk' & Hag').
  destruct (service_replay_one s x c' es' Hd Hr) as (s2 & -> & Hc2 & Hd2). exists s2. by rewrite Hc2.
Qed.

(** One more record on the journal. *)
Lemma restores_append snap log sequence live st command live' st' :
  restores (mkDisk snap log) sequence live st → cluster_inv live → sequence < u64_max →
  match command with Some x => ∃ es, dispatch x live = (live', Ok es) | None => live' = live end →
  restores (mkDisk snap (log ++ [Controller (mkJournal (sequence + 1) command st')])) (sequence + 1) live' st'.
Proof.
  intros (s & compacted & Hboot & Hle & Hk & Hag & Hst & Hd) Hinv Hseq Hcmd.
  destruct (replay_record s live command live' Hk Hag Hd Hinv Hcmd) as (s2 & Hs2 & Hk2 & Hag2 & Hd2).
  exists (restore_state st' s2), compacted. split_and!; try done; [|lia].
  eapply boot_files_append; [exact Hboot|]. intros restored sequenced.
  unfold boot_record. cbn [jr_sequence jr_command jr_state].
  rewrite (proj2 (N.leb_gt _ _)), (proj2 (N.eqb_neq _ _)), N.eqb_refl by lia. cbn [negb].
  by rewrite Hs2.
Qed.

(** ** The sink *)

Definition log_bounded (log : list (@LogRecord ServiceState)) (sequence : u64) : Prop :=
  Forall (λ r, match r with Controller record => jr_sequence record ≤ sequence | Legacy _ => True end) log.

(** Replaying the commands [H] into a fresh cluster gives the kernel of [c]. *)
Definition replays (H : list Command) (c : Cluster) : Prop :=
  ∃ c0, replay_from (set_replaying true cluster_new) H = Ok c0 ∧ same_kernel c0 c
    ∧ c_agreed c0 = true ∧ c_replaying c0 = true.

(** The files hold the moment [sd], reached by the commands [H]. *)
Record disk_ok (p : ControlPlane) (H : list Command) (sd : NodeService) : Prop := {
  do_restores : restores (cp_disk p) (cp_journal_sequence p) (ns_cluster sd) (ns_state sd);
  do_history : replays H (ns_cluster sd);
  do_inv : cluster_inv (ns_cluster sd);
  do_last : cp_last_state p = vec_new ∨ cp_last_state p = state_to_vec (ns_state sd);
  do_bounded : log_bounded (dk_log (cp_disk p)) (cp_journal_sequence p);
  do_sequence : cp_journal_sequence p ≤ u64_max;
}.

Definition live_inv (s : NodeService) : Prop :=
  cluster_inv (ns_cluster s) ∧ c_agreed (ns_cluster s) = true ∧ ns_durable s = true.

Lemma restores_same d sequence c c' st :
  restores d sequence c st → same_kernel c c' → restores d sequence c' st.
Proof.
  intros (s & compacted & ? & ? & Hk & ? & ? & ?) Hsame. exists s, compacted. split_and!; try done.
  unfold same_kernel in *. congruence.
Qed.

Lemma replays_same H c c' : replays H c → same_kernel c c' → replays H c'.
Proof. intros (c0 & ? & Hk & ? & ?) Hs. exists c0. split_and!; try done. unfold same_kernel in *. congruence. Qed.

Lemma replays_step H live x live' es :
  replays H live → cluster_inv live → dispatch x live = (live', Ok es) → replays (H ++ [x]) live'.
Proof.
  intros (c0 & Hr & Hk & Hag & Hrep) Hinv Hrun.
  set (k := mkControl (c_epoch c0) (c_now c0) true true (c_log c0)).
  assert (c0 = with_control k live) as Hc0.
  { rewrite <-(same_kernel_control k c0 live Hk). destruct c0. simpl in *. by subst. }
  eexists. rewrite replay_from_app, Hr. cbn [mbind result_bind]. unfold replay_from. cbn [try_fold].
  rewrite Hc0, apply_run, (dispatch_control k live x live' es); [|split; [done|by left]|done..]. done.
Qed.

Definition commands_of (calls : list (option Command * ServiceState)) : list Command :=
  omap (M := list) fst calls.

(** The moment of a sink call replaces the one before it. *)
Lemma sink_ok p H sd s1 command p1 live :
  disk_ok p H sd → same_kernel (ns_cluster sd) live → cluster_inv live → cluster_inv (ns_cluster s1) →
  match command with
  | Some x => ∃ live' es, dispatch x live = (live', Ok es) ∧ same_kernel live' (ns_cluster s1)
  | None => same_kernel live (ns_cluster s1)
  end → sink (command, ns_state s1) p = Some p1 →
  disk_ok p1 (H ++ commands_of [(command, ns_state s1)]) s1.
Proof.
  intros [Hr Hh Hsi Hl Hb Hq] Hsame Hinv Hinv1 Hcmd.
  assert (replays (H ++ commands_of [(command, ns_state s1)]) (ns_cluster s1)) as Hh1.
  { apply (replays_same _ _ live) in Hh; [|done]. destruct command as [x|].
    - destruct Hcmd as (live' & es & Hrun & Hk). eapply replays_same; [|exact Hk]. by eapply replays_step.
    - cbn. rewrite app_nil_r. by eapply replays_same. }
  pose proof (restores_same _ _ _ _ _ Hr Hsame) as Hr'. unfold Server.sink.
  destruct (bool_decide (command = None) && _) eqn:Hskip.
  - apply andb_prop in Hskip as [Hnone Henc]. apply bool_decide_eq_true in Hnone as ->, Henc.
    intros [= <-]. assert (ns_state s1 = ns_state sd) as Hst.
    { destruct Hl as [Hl|Hl]; [|apply Hvec; congruence]. destruct (Hnonempty (ns_state s1)). congruence. }
    constructor; try done; [|by rewrite Hst]. rewrite Hst. by eapply restores_same.
  - destruct (N.eqb_spec (cp_journal_sequence p) u64_max) as [|Hne]; [done|]. intros [= <-].
    assert (cp_journal_sequence p < u64_max) as Hlt by lia.
    constructor; try done; [|by right| |cbn; lia].
    + cbn [cp_disk cp_journal_sequence]. destruct (cp_disk p) as [snap log].
      destruct command as [x|].
      * destruct Hcmd as (live' & es & Hrun & Hk). eapply restores_same; [|exact Hk].
        eapply restores_append; [exact Hr'|done..|]. eauto.
      * eapply restores_same; [|exact Hcmd]. by eapply restores_append.
    + cbn [cp_disk cp_journal_sequence dk_log]. apply Forall_app. split.
      * eapply Forall_impl; [exact Hb|]. intros [record|]; [lia|done].
      * repeat constructor. cbn. lia.
Qed.

(** ** Operations *)

(** The live controller [s], with the files at the moment [sd]. *)
Record ok_at (p : ControlPlane) (H : list Command) (s sd : NodeService) : Prop := {
  oa_live : live_inv s;
  oa_disk : disk_ok p H sd;
  oa_kernel : same_kernel (ns_cluster sd) (ns_cluster s);
}.

Lemma ok_at_same p H s s' sd :
  ns_cluster s' = ns_cluster s → ns_durable s' = ns_durable s → ok_at p H s sd → ok_at p H s' sd.
Proof. intros Hc Hd [(H1 & H2 & H3) ? ?]. constructor; [split_and!; congruence|done|congruence]. Qed.

(** What a step does to the journal: nothing, or one call with the state of
    that moment. *)
Definition calls_once (p : ControlPlane) (H : list Command) (s s' sd : NodeService) : Prop :=
  ns_journal s' = ns_journal s ∧ ok_at p H s' sd
  ∨ ∃ command, ns_journal s' = ns_journal s ++ [(command, ns_state s')]
      ∧ (from_option command_u64 true command = true →
         ∀ p', sink (command, ns_state s') p = Some p' →
         ok_at p' (H ++ commands_of [(command, ns_state s')]) s' s').

Lemma commit_calls p H s sd command : ok_at p H s sd → calls_once p H s (commit command s).1 sd.
Proof.
  intros Hok. pose proof Hok as [(Hinv & Hag & Hd) Hdisk Hk].
  destruct (dispatch command (ns_cluster s)) as [c [es|e]] eqn:Hrun.
  2: { left. by rewrite (commit_refused _ _ c e). }
  right. exists (Some command). destruct (commit_accepted _ _ _ _ Hrun) as (Hc & _ & Hd' & Hj).
  pose proof (sw_state _ _ (commit_view command s)) as Hst.
  set (s' := (commit command s).1) in *. split; [rewrite Hst; by apply Hj|]. intros Hu p' Hsink.
  assert (cluster_inv (ns_cluster s')) as Hinv'.
  { rewrite Hc. apply (inv_same c); [done..|]. by eapply dispatch_inv. }
  constructor; [|eapply sink_ok; [exact Hdisk|exact Hk|exact Hinv|exact Hinv'| |exact Hsink]|done].
  - split_and!; [done|rewrite Hc; cbn; by rewrite (dispatch_agreed _ _ _ _ Hinv Hu Hrun)|congruence].
  - exists c, es. split; [done|]. by rewrite Hc.
Qed.

Lemma persist_calls p H s sd : ok_at p H s sd → calls_once p H s (persist None s) sd.
Proof.
  intros [Hlive Hdisk Hk]. pose proof Hlive as (Hinv & Hag & Hd). unfold persist. rewrite Hd.
  right. exists None. split; [done|]. intros _ p' Hsink. constructor; [done| |done].
  by eapply sink_ok; [exact Hdisk|exact Hk|exact Hinv|exact Hinv| |exact Hsink].
Qed.

Context {codec : PathCodec}.

Lemma step_calls p H a a' sd : step a a' → ok_at p H a.1 sd → calls_once p H a.1 a'.1 sd.
Proof.
  intros Hstep Hok.
  destruct Hstep as [s s' g Hsame|s g command|s g|s g now|s g machine tag request ?| | | | | | |s g machine reply|];
    cbn [fst] in *; try (left; split; [done|]; by apply (ok_at_same p H s)).
  - left. split; [apply Hsame|]. by apply (ok_at_same p H s); [apply Hsame..|].
  - by apply commit_calls.
  - by apply persist_calls.
  - left. split; [done|]. destruct Hok as [(Hinv & Hag & Hd) Hdisk Hk].
    constructor; [|done|done]. split_and!; [|done..]. by apply (inv_same (ns_cluster s)).
  - left. destruct (dispatch_record machine tag request s) as (? & ? & ?). split; [done|].
    by apply (ok_at_same p H s); [apply dispatch_cluster|..].
  - left. assert (ns_journal (deliver machine reply s) = ns_journal s
      ∧ ns_cluster (deliver machine reply s) = ns_cluster s
      ∧ ns_durable (deliver machine reply s) = ns_durable s) as (Hj & Hc & Hd).
    { unfold deliver. destruct (ns_agents s !! machine) as [h|]; [|done]. by destruct (ah_jobs h) as [|[]]. }
    split; [done|]. by apply (ok_at_same p H s).
Qed.

Definition calls_u64 (calls : list (option Command * ServiceState)) : Prop :=
  Forall (λ call, from_option command_u64 true call.1 = true) calls.

Lemma step_journal a a' : step a a' → ns_journal a.1 `prefix_of` ns_journal a'.1.
Proof.
  destruct 1 as [s s' g Hsame|s g command|s g|s g now|s g machine tag request ?| | | | | | |s g machine reply|];
    cbn [fst]; try done.
  - by rewrite (sa_journal _ _ Hsame).
  - unfold commit. destruct (cluster_apply command (ns_cluster s)) as [c [es|e]]; [|done].
    unfold persist. cbn [ns_durable set_history set_cluster fst].
    destruct (ns_durable s); [by eexists|done].
  - unfold persist. destruct (ns_durable s); [by eexists|done].
  - by destruct (dispatch_record machine tag request s) as (_ & -> & _).
  - unfold deliver. destruct (ns_agents s !! machine) as [h|]; [|done]. by destruct (ah_jobs h) as [|[]].
Qed.

Lemma steps_journal a a' : rtc step a a' → ns_journal a.1 `prefix_of` ns_journal a'.1.
Proof. induction 1 as [|a a1 a' Hstep _ IH]; [done|]. etrans; [by apply step_journal|done]. Qed.

(** The state of the last call, or the one before. *)
Definition last_state (st : ServiceState) (calls : list (option Command * ServiceState)) : ServiceState :=
  from_option snd st (last calls).

Lemma last_state_cons st command st1 calls :
  last_state st ((command, st1) :: calls) = last_state st1 calls.
Proof.
  unfold last_state. destruct calls as [|call calls]; [done|]. rewrite !last_cons_cons.
  by destruct (last_is_Some (call :: calls)) as [_ [? ->]].
Qed.

Lemma steps_calls s s' :
  reaches s s' → ∀ p H sd calls, ok_at p H s sd → ns_journal s' = ns_journal s ++ calls → calls_u64 calls →
  ∀ k p', (k ≤ length calls)%nat → sink_all (take k calls) p = Some p' →
  ∃ sk, ns_state sk = last_state (ns_state sd) (take k calls)
    ∧ disk_ok p' (H ++ commands_of (take k calls)) sk
    ∧ (k = length calls → ok_at p' (H ++ commands_of calls) s' sk).
Proof.
  intros Hreach. destruct (grounded_exists s) as [g Hg]. destruct (Hreach g Hg) as (g' & Hsteps & _).
  change s with (s, g).1. change s' with (s', g').1. revert Hsteps. generalize (s, g) (s', g'). clear s s' g g' Hreach Hg.
  intros s s' Hsteps. induction Hsteps as [s|s s1 s' Hstep Hsteps IH]; intros p H sd calls Hok Hj Hu k p' Hk Hsink.
  - assert (calls = []) as ->.
    { apply (f_equal length) in Hj. rewrite length_app in Hj. destruct calls; simpl in *; [done|lia]. }
    simpl in Hk. assert (k = 0%nat) as -> by lia. injection Hsink as <-. exists sd. cbn. rewrite app_nil_r.
    split_and!; [done|apply Hok|done].
  - destruct (step_calls p H s s1 sd Hstep Hok) as [[Hj1 Hok1]|(command & Hj1 & Hcall)].
    + apply (IH p H sd calls Hok1); [congruence|done..].
    + pose proof (steps_journal _ _ Hsteps) as [rest Hrest].
      assert (calls = (command, ns_state s1.1) :: rest) as ->.
      { rewrite Hrest, Hj1, <-app_assoc in Hj. by apply app_inv_head in Hj. }
      destruct k as [|k].
      { injection Hsink as <-. exists sd. cbn. rewrite app_nil_r. split_and!; [done|apply Hok|done]. }
      apply Forall_cons in Hu as [Hu1 Hu]. cbn [take Server.sink_all] in Hsink |- *.
      destruct (Server.sink state_to_vec (command, ns_state s1.1) p) as [p1|] eqn:Hs1; [|done].
      cbn [mbind option_bind] in Hsink. cbn [length] in Hk |- *.
      destruct (IH p1 (H ++ commands_of [(command, ns_state s1.1)]) s1.1 rest) with (k := k) (p' := p')
        as (sk & Hst & Hd & Hlast); [by apply Hcall|done|done|lia|done|].
      assert (∀ l, commands_of ((command, ns_state s1.1) :: l) = commands_of [(command, ns_state s1.1)] ++ commands_of l)
        as Hcons by (intros l; unfold commands_of; cbn; by destruct command).
      exists sk. rewrite last_state_cons, (Hcons (take k rest)), (Hcons rest), !app_assoc. split_and!; [done..|].
      intros [= Heq]. by apply Hlast.
Qed.

(** ** Snapshots *)

(** The controller's state is the one last handed to the sink. *)
Definition settled (p : ControlPlane) : Prop := cp_last_state p = state_to_vec (ns_state (cp_service p)).
(** No node carries its health as an attribute, as old snapshots did. *)
Definition migrated (p : ControlPlane) : Prop :=
  cluster_migrate_legacy_observations (ns_cluster (cp_service p)) = ns_cluster (cp_service p).

(** A journal the snapshot covers is skipped. *)
Lemma boot_skips log sequence acc :
  log_bounded log sequence → try_fold (boot_record true true sequence) acc log = Ok acc.
Proof.
  induction 1 as [|r log Hr _ IH]; [done|].
  assert (boot_record true true sequence acc r = Ok acc) as Hskip.
  { destruct acc as [s last], r as [record|command]; [|done]. cbn. by rewrite (proj2 (N.leb_le _ _) Hr). }
  simpl. by rewrite Hskip.
Qed.

Lemma snapshot_ok p H sd log p' :
  ok_at p H (cp_service p) sd → settled p → migrated p → log_bounded log (cp_journal_sequence p) →
  cp_disk p' = mkDisk (Some (snapshot_of p)) log → cp_journal_sequence p' = cp_journal_sequence p →
  cp_last_state p' = cp_last_state p → disk_ok p' H (cp_service p).
Proof.
  intros [(Hinv & Hag & Hd) [Hr Hh Hsi Hl Hb Hq] Hk] Hset Hmig Hlog Hp1 Hp2 Hp3.
  constructor; rewrite ?Hp1, ?Hp2, ?Hp3; try done; [| |by right].
  - exists (restore (ns_cluster (cp_service p)) (ns_state (cp_service p)) service_new), (cp_journal_sequence p).
    unfold boot_files. cbn [dk_snapshot dk_log].
    change (boot_snapshot (Some (snapshot_of p)))
      with (Ok (E := string) (restore (ns_cluster (cp_service p)) (ns_state (cp_service p)) service_new,
              cp_journal_sequence p, true)).
    change (bool_decide (is_Some (Some (snapshot_of p)))) with true.
    cbn [mbind result_bind]. rewrite boot_skips by done.
    split_and!; try done; unfold restore; cbn; by rewrite Hmig.
  - by eapply replays_same.
Qed.

(** ** Runs of the plane *)

Context (compact_every : u64).
Context (agent_logs : NodeId → LeaseId → option AgentReply) (read_log : LeaseId → string).
Context (response_debug : AgentResponse → string).
Local Abbreviation plane_run := (plane_run agent_logs read_log response_debug).

(** The sink calls of an operation. *)
Definition op_calls (p : ControlPlane) (op : PlaneOp) : list (option Command * ServiceState) :=
  ns_journal (plane_run (set_journal [] (cp_service p)) op).

(** A plane, the commands of all its lives, and the state last made durable:
    a fresh boot, operations, compactions, and crashes (after any number of
    the sink calls of an operation, or between the snapshot and the truncation
    of a compaction) followed by a boot. *)
Inductive plane_runs : ControlPlane → list Command → ServiceState → Prop :=
| pr_fresh p : boot vec_new compact_every (mkDisk None []) = Ok p → plane_runs p [] (ns_state (cp_service p))
| pr_op p H st op p' :
    plane_runs p H st → calls_u64 (op_calls p op) →
    with_sink state_to_vec (λ s, (plane_run s op, ())) p = Some (p', ()) →
    plane_runs p' (H ++ commands_of (op_calls p op)) (last_state st (op_calls p op))
| pr_compact p H st :
    plane_runs p H st → settled p → migrated p → plane_runs (compact p) H (ns_state (cp_service p))
| pr_crash p H st op k p1 p' :
    plane_runs p H st → calls_u64 (op_calls p op) → (k ≤ length (op_calls p op))%nat →
    sink_all (take k (op_calls p op)) p = Some p1 → boot vec_new compact_every (cp_disk p1) = Ok p' →
    plane_runs p' (H ++ commands_of (take k (op_calls p op))) (last_state st (take k (op_calls p op)))
| pr_crash_compact p H st p' :
    plane_runs p H st → settled p → migrated p → boot vec_new compact_every (install_snapshot p) = Ok p' →
    plane_runs p' H (ns_state (cp_service p)).

Definition plane_ok (p : ControlPlane) (H : list Command) (st : ServiceState) : Prop :=
  ∃ sd, ok_at p H (cp_service p) sd ∧ ns_state sd = st.

(** Booting from files that hold a moment. *)
Lemma boot_ok p H sd :
  disk_ok p H sd →
  ∃ p', boot vec_new compact_every (cp_disk p) = Ok p' ∧ plane_ok p' H (ns_state sd)
    ∧ ns_state (cp_service p') = ns_state sd ∧ same_kernel (ns_cluster (cp_service p')) (ns_cluster sd).
Proof.
  intros [(s & compacted & Hboot & Hle & Hk & Hag & Hst & Hd) Hh Hinv Hl Hb Hq].
  unfold boot. rewrite Hboot. cbn [mbind result_bind]. eexists. split; [done|].
  assert (cluster_inv (ns_cluster s)) as Hinv'.
  { rewrite <-(with_control_of (ns_cluster s)), (same_kernel_control _ _ _ Hk). by apply control_inv. }
  split; [|done]. exists (set_durable true s). split; [|done]. constructor; [done| |done].
  constructor; cbn; try done; [|by eapply replays_same|by left].
  by exists s, compacted.
Qed.

Lemma op_ok p H st op k p1 :
  plane_ok p H st → calls_u64 (op_calls p op) → (k ≤ length (op_calls p op))%nat →
  sink_all (take k (op_calls p op)) p = Some p1 →
  ∃ sk, ns_state sk = last_state st (take k (op_calls p op))
    ∧ disk_ok p1 (H ++ commands_of (take k (op_calls p op))) sk
    ∧ (k = length (op_calls p op) →
       ok_at p1 (H ++ commands_of (op_calls p op)) (plane_run (set_journal [] (cp_service p)) op) sk).
Proof.
  intros (sd & Hok & <-) Hu Hk Hsink.
  eapply steps_calls; [apply (plane_run_reaches agent_logs read_log response_debug op (set_journal [] (cp_service p)))| |done|done|done|done].
  by apply (ok_at_same p H (cp_service p)).
Qed.

Lemma booted p H sd :
  disk_ok p H sd →
  ∃ p' c, boot vec_new compact_every (cp_disk p) = Ok p' ∧ ns_state (cp_service p') = ns_state sd
    ∧ replay H = Ok c
    ∧ logged_digest (digest (ns_cluster (cp_service p'))) = logged_digest (digest c).
Proof.
  intros Hd. destruct (boot_ok p H sd Hd) as (p' & Hb & _ & Hst & Hk).
  destruct (do_history _ _ _ Hd) as (c0 & Hr & Hk0 & _). exists p', (set_replaying false c0).
  split_and!; [done|done| |].
  - unfold replay. fold (replay_from (set_replaying true cluster_new) H). by rewrite Hr.
  - apply same_kernel_digest. unfold same_kernel in *. rewrite Hk, <-Hk0. done.
Qed.

Lemma plane_runs_ok p H st : plane_runs p H st → plane_ok p H st.
Proof.
  induction 1 as [p Hboot|p H st op p' _ IH Hu Hsink|p H st _ IH Hset Hmig|p H st op k p1 p' _ IH Hu Hk Hsink Hboot
                 |p H st p' _ IH Hset Hmig Hboot].
  - injection Hboot as <-. exists durable_service. split; [|done].
    assert (cluster_inv (ns_cluster durable_service)) as Hinv by apply cluster_new_inv.
    constructor; [done| |done]. constructor; try done; [|by eexists|by left|constructor].
    by exists service_new, 0.
  - unfold with_sink in Hsink. fold (op_calls p op) in Hsink.
    destruct (Server.sink_all state_to_vec (op_calls p op) p) as [p1|] eqn:Hs; [|done].
    injection Hsink as <-.
    destruct (op_ok p H st op (length (op_calls p op)) p1) as (sk & Hst & Hd & Hlast);
      [done..| |]; [by rewrite firstn_all|]. rewrite firstn_all in Hst.
    exists sk. split; [|done]. destruct (Hlast eq_refl) as [Hlive [] Hk]. done.
  - destruct IH as (sd & Hok & _). exists (cp_service p). split; [|done].
    pose proof Hok as [(Hinv & Hag & Hd) _ _].
    constructor; [|eapply snapshot_ok; [exact Hok|exact Hset|exact Hmig|apply Forall_nil_2|done..]|done].
    split_and!; [by apply (inv_same (ns_cluster (cp_service p)))|done..].
  - destruct (op_ok p H st op k p1) as (sk & Hst & Hd & _); [done..|].
    destruct (boot_ok p1 _ sk Hd) as (p2 & Hb & Hok & _). rewrite Hboot in Hb. injection Hb as <-.
    by rewrite <-Hst.
  - destruct IH as (sd & Hok & _).
    assert (disk_ok (mkPlane (cp_service p) (install_snapshot p) (cp_journal_sequence p) (cp_last_state p)
              (cp_compact_every p) (cp_compacted_sequence p)) H (cp_service p)) as Hd.
    { eapply snapshot_ok; [exact Hok|exact Hset|exact Hmig|apply Hok|done..]. }
    destruct (boot_ok _ _ _ Hd) as (p2 & Hb & Hok2 & _). cbn [cp_disk] in Hb. rewrite Hboot in Hb.
    by injection Hb as <-.
Qed.

(** C17. Whatever moment the control plane dies at, in any of its lives, it comes
    back: booting from the files it left (after any number of the journal
    records of an operation, or between the snapshot and the truncation of a
    compaction) succeeds, restores exactly the controller state last made
    durable, and the kernel state that replaying the commands of all its lives
    gives, in every field the commands determine.  Compactions, in its past and
    the one it dies in, are those of a state that is the one last handed to the
    sink, with no health attribute as old snapshots had; the amounts in the
    commands are 64-bit. *)
Theorem boot_recovers p H st :
  plane_runs p H st →
  (∀ op k p1, calls_u64 (op_calls p op) → (k ≤ length (op_calls p op))%nat →
     sink_all (take k (op_calls p op)) p = Some p1 →
     ∃ p' c, boot vec_new compact_every (cp_disk p1) = Ok p'
       ∧ ns_state (cp_service p') = last_state st (take k (op_calls p op))
       ∧ replay (H ++ commands_of (take k (op_calls p op))) = Ok c
       ∧ logged_digest (digest (ns_cluster (cp_service p'))) = logged_digest (digest c))
  ∧ (settled p → migrated p →
     ∃ p' c, boot vec_new compact_every (install_snapshot p) = Ok p'
       ∧ ns_state (cp_service p') = ns_state (cp_service p)
       ∧ replay H = Ok c
       ∧ logged_digest (digest (ns_cluster (cp_service p'))) = logged_digest (digest c)).
Proof.
  intros Hruns%plane_runs_ok. split.
  - intros op k p1 Hu Hk Hsink. destruct (op_ok p H st op k p1) as (sk & Hst & Hd & _); [done..|].
    rewrite <-Hst. by apply booted.
  - intros Hset Hmig. destruct Hruns as (sd & Hok & _).
    eapply (booted (mkPlane (cp_service p) (install_snapshot p) (cp_journal_sequence p) (cp_last_state p)
              (cp_compact_every p) (cp_compacted_sequence p)) H (cp_service p)).
    eapply snapshot_ok; [exact Hok|exact Hset|exact Hmig|apply Hok|done..].
Qed.
End files.
