(* ===== verification/Accept.v ===== *)
(** The threads of the control plane: src/crates/control/src/server.rs.

    [serve] gives every connection a thread that runs [accept], and runs a
    driver thread beside them; another thread runs maintenance.  They share the
    plane behind one mutex, which is a flag here: a thread that finds it set
    waits, and one that got in makes its calls on the plane one at a time,
    without looking at the flag again, while every other thread may run in
    between.  The agents' workers post answers at any moment, without the lock.
    What peers send, what agents answer and which thread runs next are the
    events. *)

From S2P Require Import Prelude Words Identifier Text Types Workload Endpoint Protocol Provider Graph.
From S2P Require Import Inventory Discover Occupancy Command Cluster Select Admit Scheduler Journal.
From S2P Require Import ServiceState Service Routing Absorb Controller Registration Server Links.
From S2P Require Import ServiceSpec ServiceRefines ServerFacts Transport Handshake.

Section accept.
Context {Rng Key H S R : Type} `{!NoiseSession S R} `{!NoiseOps Rng Key H S R} (sha256 : list Z → list Z).
Context `{!PathCodec}.
Context (agent_logs : NodeId → LeaseId → option AgentReply) (read_log : LeaseId → string).
Context (response_debug : AgentResponse → string).
Context {vec : Type} `{!EqDecision vec} (state_to_vec : ServiceState → vec).
(** [serde_json] on the messages of the API. *)
Context (greeting_from_slice : list Z → option Greeting) (request_from_slice : list Z → option ClientRequest).
Context (response_to_vec : ServerResponse → list Z).

Local Abbreviation SecureStream := (SecureStream (S := S) (R := R)).
Local Abbreviation Plane := (ControlPlane vec).

(** ** Sections: what runs under the lock *)

(** Which threads there are. *)
Inductive Owner := Peer (c : N) | Driver | Maintainer.

#[export] Instance Owner_eq_dec : EqDecision Owner.
Proof. solve_decision. Defined.

(** What a thread takes the lock for. *)
Inductive Task :=
| TaskRequest (now : u64) (request : ClientRequest)
| TaskDialIn (description : MachineDescription) (caps : ExecutionCapabilities)
| TaskAdvance
| TaskMaintain (now : u64).

(** The calls that are left of a section: methods of the controller, with the
    sink attached, the compaction, and the answer at the end. *)
Inductive Calls :=
| Return (response : option ServerResponse)
| Call {A : Type} (f : NodeService → NodeService * A) (k : A → Calls)
| Compact (k : Calls).

(** The [loop] that admits until nothing more places. *)
Fixpoint admit_calls (fuel : nat) (k : Calls) : Calls :=
  match fuel with
  | O => k
  | Datatypes.S fuel => Call admit_one (λ placed, match placed with Ok (Some _) => admit_calls fuel k | _ => k end)
  end.

(** The calls of a [for] loop. *)
Definition for_calls {A B} (f : A → NodeService → NodeService * B) (l : list A) (k : Calls) : Calls :=
  foldr (λ x k, Call (f x) (λ _, k)) k l.

(** [ControlPlane::maintain] *)
Definition maintain_calls (now : u64) : Calls :=
  Call (tick now) (λ _,
  Call collect_completions (λ _,
  Call (λ s, (s, Datatypes.S (length (ss_queue (ns_state s))))) (λ fuel,
  admit_calls fuel (
  Call take_unreachable (λ unreachable,
  for_calls mark_machine_unhealthy unreachable (
  Call (λ s, (probe_agents s, ())) (λ _,
  Call queue_restarts (λ restarts,
  for_calls (λ _, admit_one) restarts (
  Call reconcile_service_groups (λ members,
  for_calls (λ _, admit_one) members (
  Compact (Return None)))))))))))).

(** [ControlPlane::tick_and_handle] *)
Definition request_calls (now : u64) (request : ClientRequest) : Calls :=
  Call (tick now) (λ _,
  Call drive_round (λ _,
  Call (plane_handle agent_logs read_log response_debug request) (λ response,
  Return (Some response)))).

(** [ControlPlane::register_dial_in] *)
Definition dial_in_calls (d : MachineDescription) (caps : ExecutionCapabilities) : Calls :=
  Call (register_agent_with_capabilities d caps) (λ _, Return None).

(** [ControlPlane::advance]: a timeout of zero is one round. *)
Definition advance_calls : Calls := Call drive_round (λ _, Return None).

Definition section (task : Task) : Calls :=
  match task with
  | TaskRequest now request => request_calls now request
  | TaskDialIn d caps => dial_in_calls d caps
  | TaskAdvance => advance_calls
  | TaskMaintain now => maintain_calls now
  end.

(** One call; [None] is a panic.  The difference of cursors is unchecked. *)
Definition run_call (calls : Calls) (p : Plane) : option (Plane * Calls) :=
  match calls with
  | Return _ => Some (p, calls)
  | Call f k => '(p, a) ← with_sink state_to_vec f p; Some (p, k a)
  | Compact k =>
      Some (if (0 <? cp_compact_every p)
               && (cp_compact_every p <=? cp_journal_sequence p - cp_compacted_sequence p)
            then compact p else p, k)
  end.

(** ** A connection *)

Inductive Phase :=
| Accepted (rng : Rng)
| Handshaking (p : link SecureStream) (input : list Z)   (* bytes received and not yet read *)
| AwaitGreeting
| Proving (description : MachineDescription)             (* the capability query is out *)
| RegisterDialIn (description : MachineDescription) (capabilities : ExecutionCapabilities)
| AwaitRequest
| Handle (request : ClientRequest)
| LogsLookup (lease : LeaseId)
| LogsWait (lease : LeaseId)                             (* on the agent, without the lock *)
| LogsFallback (lease : LeaseId)
| Respond (request : ClientRequest) (response : ServerResponse)
| Within (task : Task) (calls : Calls)                   (* holds the lock *)
| Closed.

(** What the thread finds when it goes on. *)
Inductive Input :=
| Go (now : u64)                          (* nothing; the clock *)
| Bytes (bytes : list Z)                  (* more bytes on the connection *)
| Payload (payload : list Z)              (* a frame read from the secure stream *)
| Reply (reply : option AgentReply)       (* of an agent; [None] after ten seconds *)
| Broken.                                 (* the read or write failed *)

(** How it goes on: by itself, by looking at the plane under the lock, by
    taking the lock for a task, or with the next call of the section it is in. *)
Inductive Action :=
| Become (phase : Phase)
| Look (k : option string → NodeService → Phase)
| Lock (task : Task)
| Continue (task : Task) (calls : Calls).

Definition greeted (payload : list Z) : Phase :=
  match greeting_from_slice payload with
  | None => Closed
  | Some (GreetAgent instance_id name cpus memory_bytes host_nodes devices) =>
      Proving (mkMachine instance_id name cpus memory_bytes host_nodes devices)
  | Some GreetClient => AwaitRequest
  end.

Definition requested (payload : list Z) : Phase :=
  match request_from_slice payload with
  | None => Closed
  | Some (CrLogs lease) => LogsLookup lease
  | Some request => Handle request
  end.

(** [query_execution_capabilities] on the answer. *)
Definition proven (description : MachineDescription) (reply : option AgentReply) : Phase :=
  match reply with
  | Some (Ok (RCapabilities capabilities)) => RegisterDialIn description capabilities
  | _ => Closed
  end.

(** [logs_without_lock], under its first lock. *)
Definition logs_lookup (lease : LeaseId) (s : NodeService) : Phase :=
  match request_logs s lease with
  | Some _ => LogsWait lease
  | None => LogsFallback lease
  end.

(** Under its second lock. *)
Definition logs_fallback (lease : LeaseId) (s : NodeService) : Phase :=
  Respond (CrLogs lease) (plane_handle agent_logs read_log response_debug (CrLogs lease) s).2.

(** After a section. *)
Definition after (task : Task) (response : option ServerResponse) : Phase :=
  match task, response with
  | TaskRequest _ request, Some response => Respond request response
  | _, _ => Closed
  end.

(** [ControlPlane::accept], from one wait to the next. *)
Definition accept (phase : Phase) (i : Input) : option Action :=
  match phase, i with
  | Accepted rng, Go _ => Some (Look (λ token _, Handshaking (establish_responder sha256 rng token) []))
  | Handshaking p input, Bytes bytes => Some (Become (Handshaking p (input ++ bytes)))
  | Handshaking (Done (Ok _)) _, Go _ => Some (Become AwaitGreeting)
  | Handshaking (Done (Err _)) _, Go _ => Some (Become Closed)
  | Handshaking p input, Go _ =>
      '(p, input, _) ← advance false p input; Some (Become (Handshaking p input))
  | AwaitGreeting, Payload payload => Some (Become (greeted payload))
  | Proving description, Reply reply => Some (Become (proven description reply))
  | RegisterDialIn description capabilities, Go _ =>
      Some (Lock (TaskDialIn description capabilities))
  | AwaitRequest, Payload payload => Some (Become (requested payload))
  | Handle request, Go now => Some (Lock (TaskRequest now request))
  | Within task calls, Go _ => Some (Continue task calls)
  | LogsLookup lease, Go _ => Some (Look (λ _, logs_lookup lease))
  | LogsWait lease, Reply reply =>
      Some (Become (Respond (CrLogs lease) (logs_reply_to_response response_debug lease reply)))
  | LogsFallback lease, Go _ => Some (Look (λ _, logs_fallback lease))
  | Respond _ response, Go _ =>
      Some (Become (match write_frame response_to_vec response with
                    | Ok _ => AwaitRequest
                    | Err _ => Closed
                    end))
  | (Handshaking _ _ | AwaitGreeting | Proving _ | AwaitRequest | Respond _ _), Broken => Some (Become Closed)
  | _, _ => None
  end.

(** ** The server *)

(** The state of a thread and, for the statements, all its peer has sent
    before the handshake ended. *)
Record Conn := mkConn { cn_phase : Phase; cn_heard : list Z }.

Inductive Mutex := Free | Locked | Poisoned | Exited.

(** For the statements, what happened at the lock, in order: a thread took it
    for a task, or gave it back with the answer. *)
Record Entry := mkEntry { en_owner : Owner; en_task : Task; en_response : option (option ServerResponse) }.
Definition en_conn (e : Entry) : option N := match en_owner e with Peer c => Some c | _ => None end.

Record Server := mkServer {
  sv_plane : Plane;
  sv_token : option string;
  sv_mutex : Mutex;
  sv_conns : gmap N Conn;
  sv_driver : option (Task * Calls);       (* the section the driver is in *)
  sv_maintainer : option (Task * Calls);
  sv_trace : list Entry;
}.

Inductive Event :=
| Incoming (c : N) (rng : Rng)                     (* [listener.incoming()] *)
| Run (c : N) (i : Input)
| Drive                                            (* the driver thread goes on *)
| Maintain (now : u64)
| Work (machine : NodeId) (reply : AgentReply)     (* a worker answers its first job *)
| Answer (tag : Tag) (reply : AgentReply).

Definition set_phase (c : N) (conn : Conn) (phase : Phase) (heard : list Z) (sv : Server) : Server :=
  mkServer (sv_plane sv) (sv_token sv) (sv_mutex sv) (<[c := mkConn phase (cn_heard conn ++ heard)]> (sv_conns sv))
    (sv_driver sv) (sv_maintainer sv) (sv_trace sv).
Definition set_mutex (m : Mutex) (sv : Server) : Server :=
  mkServer (sv_plane sv) (sv_token sv) m (sv_conns sv) (sv_driver sv) (sv_maintainer sv) (sv_trace sv).
Definition set_plane (p : Plane) (sv : Server) : Server :=
  mkServer p (sv_token sv) (sv_mutex sv) (sv_conns sv) (sv_driver sv) (sv_maintainer sv) (sv_trace sv).
Definition set_driver (calls : option (Task * Calls)) (sv : Server) : Server :=
  mkServer (sv_plane sv) (sv_token sv) (sv_mutex sv) (sv_conns sv) calls (sv_maintainer sv) (sv_trace sv).
Definition set_maintainer (calls : option (Task * Calls)) (sv : Server) : Server :=
  mkServer (sv_plane sv) (sv_token sv) (sv_mutex sv) (sv_conns sv) (sv_driver sv) calls (sv_trace sv).
Definition note (e : Entry) (sv : Server) : Server :=
  mkServer (sv_plane sv) (sv_token sv) (sv_mutex sv) (sv_conns sv) (sv_driver sv) (sv_maintainer sv)
    (sv_trace sv ++ [e]).

(** The lock is taken, and dropped with the guard. *)
Definition take_lock (o : Owner) (task : Task) (sv : Server) : Server := note (mkEntry o task None) (set_mutex Locked sv).
Definition drop_lock (o : Owner) (task : Task) (response : option ServerResponse) (sv : Server) : Server :=
  note (mkEntry o task (Some response)) (set_mutex Free sv).

(** The next call of a section: what is left of it, the answer at its end, or
    nothing after a panic, which poisons the lock. *)
Definition continue (o : Owner) (task : Task) (calls : Calls) (sv : Server) :
    Server * (Calls + option (option ServerResponse)) :=
  match calls with
  | Return response => (drop_lock o task response sv, inr (Some response))
  | _ =>
      match run_call calls (sv_plane sv) with
      | Some (p, calls) => (set_plane p sv, inl calls)
      | None => (set_mutex Poisoned sv, inr None)
      end
  end.

Definition heard_of (i : Input) : list Z := match i with Bytes bytes => bytes | _ => [] end.

(** A thread's action; [lock_plane] waits while the lock is held, and ends the
    process when it is poisoned. *)
Definition act (c : N) (conn : Conn) (heard : list Z) (a : Action) (sv : Server) : Server :=
  match a with
  | Become phase => set_phase c conn phase heard sv
  | Look k =>
      match sv_mutex sv with
      | Free => set_phase c conn (k (sv_token sv) (cp_service (sv_plane sv))) heard sv
      | Locked => sv
      | _ => set_mutex Exited sv
      end
  | Lock task =>
      match sv_mutex sv with
      | Free => set_phase c conn (Within task (section task)) heard (take_lock (Peer c) task sv)
      | Locked => sv
      | _ => set_mutex Exited sv
      end
  | Continue task calls =>
      match continue (Peer c) task calls sv with
      | (sv, inl calls) => set_phase c conn (Within task calls) heard sv
      | (sv, inr (Some response)) => set_phase c conn (after task response) heard sv
      | (sv, inr None) => set_phase c conn Closed heard sv
      end
  end.

(** The server's own threads: they wait for the lock too; the driver skips a
    poisoned one, maintenance ends on it. *)
Definition own (o : Owner) (task : Task) (current : option (Task * Calls))
    (put : option (Task * Calls) → Server → Server) (sv : Server) : Server :=
  match current with
  | Some (task, calls) =>
      match continue o task calls sv with
      | (sv, inl calls) => put (Some (task, calls)) sv
      | (sv, inr _) => put None sv
      end
  | None =>
      match sv_mutex sv with
      | Free => put (Some (task, section task)) (take_lock o task sv)
      | _ => sv
      end
  end.

(** A worker posts, without the plane's lock. *)
Definition post (f : NodeService → NodeService) (p : Plane) : Plane :=
  mkPlane (f (cp_service p)) (cp_disk p) (cp_journal_sequence p) (cp_last_state p) (cp_compact_every p)
    (cp_compacted_sequence p).

Definition server_step (sv : Server) (e : Event) : Server :=
  match sv_mutex sv with
  | Exited => sv
  | _ =>
      match e with
      | Incoming c rng =>
          match sv_conns sv !! c with
          | Some _ => sv
          | None => set_phase c (mkConn Closed []) (Accepted rng) [] sv
          end
      | Run c i =>
          match sv_conns sv !! c with
          | None => sv
          | Some conn =>
              match accept (cn_phase conn) i with
              | None => sv
              | Some a => act c conn (heard_of i) a sv
              end
          end
      | Drive => own Driver TaskAdvance (sv_driver sv) set_driver sv
      | Maintain now => own Maintainer (TaskMaintain now) (sv_maintainer sv) set_maintainer sv
      | Work machine reply => set_plane (post (deliver machine reply) (sv_plane sv)) sv
      | Answer tag reply => set_plane (post (inbox_post tag reply) (sv_plane sv)) sv
      end
  end.

(** [ControlPlane::serve] on a booted plane. *)
Definition serve_start (token : option string) (p : Plane) : Server := mkServer p token Free ∅ None None [].
Definition plane_serve (token : option string) (p : Plane) (events : list Event) : Server :=
  foldl server_step (serve_start token p) events.
End accept.
