(* ===== verification/AcceptFacts.v ===== *)
(** The threads of the control plane: every interleaving is a sequential
    execution of their sections, and only peers that hold the token enter one. *)

From S2P Require Import Prelude Words Identifier Text Types Workload Endpoint Protocol Provider Graph.
From S2P Require Import Inventory Discover Occupancy Command Cluster Ledger Handlers ClusterInv Steps.
From S2P Require Import Safety Authority Bindings Replay Select Admit Scheduler Journal ServiceState.
From S2P Require Import Service Routing Absorb Controller Registration Server Links ServiceSpec.
From S2P Require Import ServiceRefines ServiceSafety ServerFacts BootFacts Transport Handshake Accept.

Section facts.
Context {Rng Key H S R : Type} `{!NoiseSession S R} `{!NoiseOps Rng Key H S R} `{!NoiseHandshake Rng Key H S R}.
Context (sha256 : list Z → list Z) (sha256_length : ∀ bytes, length (sha256 bytes) = 32%nat).
Context `{!PathCodec}.
Context (agent_logs : NodeId → LeaseId → option AgentReply) (read_log : LeaseId → string).
Context (response_debug : AgentResponse → string).
Context {vec : Type} `{!EqDecision vec} (vec_new : vec) (state_to_vec : ServiceState → vec).
Context (greeting_from_slice : list Z → option Greeting) (request_from_slice : list Z → option ClientRequest).
Context (response_to_vec : ServerResponse → list Z).

Local Abbreviation Plane := (ControlPlane vec).
Local Abbreviation section := (section agent_logs read_log response_debug).
Local Abbreviation accept := (accept (S := S) (R := R) sha256 agent_logs read_log response_debug greeting_from_slice
                                request_from_slice response_to_vec).
Local Abbreviation Server := (Server (Rng := Rng) (S := S) (R := R) (vec := vec)).
Local Abbreviation server_step := (server_step (Rng := Rng) (S := S) (R := R) sha256 agent_logs read_log
  response_debug state_to_vec greeting_from_slice request_from_slice response_to_vec).
Local Abbreviation serve := (plane_serve (Rng := Rng) (S := S) (R := R) sha256 agent_logs read_log
  response_debug state_to_vec greeting_from_slice request_from_slice response_to_vec).

(** ** The calls of a section *)

(** The calls of a section in a row, on the controller alone. *)
Fixpoint alone (calls : Calls) (s : NodeService) : NodeService * option ServerResponse :=
  match calls with
  | Return response => (s, response)
  | Call f k => let '(s, a) := f s in alone (k a) s
  | Compact k => alone k s
  end.

Lemma alone_for {A B} (f : A → NodeService → NodeService * B) l k s :
  alone (for_calls f l k) s = alone k (foldl (λ s x, (f x s).1) s l).
Proof.
  revert s. induction l as [|x l IH]; intros s; [done|]. cbn. specialize (IH (f x s).1). by destruct (f x s).
Qed.

Lemma alone_admit fuel k s : alone (admit_calls fuel k) s = alone k (admit_all fuel s).
Proof.
  revert s. induction fuel as [|fuel IH]; intros s; [done|]. cbn. by destruct (admit_one s) as [s' [[]|]].
Qed.

(** Nothing interfering, sections are the operations of the plane. *)
Lemma section_alone task s :
  alone (section task) s
  = match task with
    | TaskRequest now request =>
        let '(s, response) := tick_and_handle agent_logs read_log response_debug now request s in (s, Some response)
    | TaskDialIn d caps => ((register_agent_with_capabilities d caps s).1, None)
    | TaskAdvance => ((drive_round s).1, None)
    | TaskMaintain now => (maintain now s, None)
    end.
Proof.
  destruct task as [now request|d caps| |now]; cbn [Accept.section].
  - unfold request_calls, tick_and_handle. cbn. destruct (tick now s) as [s1 r1]. cbn.
    by destruct (drive_round s1) as [s2 r2].
  - unfold dial_in_calls. cbn. by destruct (register_agent_with_capabilities d caps s).
  - unfold advance_calls. cbn. by destruct (drive_round s).
  - unfold maintain_calls, maintain, reconcile_and_admit. cbn [alone]. destruct (tick now s) as [s1 r1]. cbn [fst].
    destruct (collect_completions s1) as [s2 r2]. cbn [fst]. rewrite alone_admit. fold (admit_queue s2). cbn [alone].
    destruct (take_unreachable (admit_queue s2)) as [s3 unreachable]. rewrite alone_for. cbn [alone].
    destruct (queue_restarts _) as [s4 restarts]. rewrite alone_for. cbn [alone]. unfold admit_members.
    destruct (reconcile_service_groups _) as [s5 members]. by rewrite alone_for.
Qed.

(** ** Sections in sequence *)

(** Which section runs. *)
Inductive Turn := Idle | Holding (o : Owner) (task : Task) (calls : Calls) | Crashed.

Definition worker_post (f : NodeService → NodeService) : Prop :=
  (∃ machine reply, f = deliver machine reply) ∨ ∃ tag reply, f = inbox_post tag reply.

(** A sequential execution of the plane: one section at a time, from its first
    call to its answer, the workers' posts falling anywhere; a panic is the
    end. *)
Inductive serial (p0 : Plane) : list Entry → Plane → Turn → Prop :=
| serial_start : serial p0 [] p0 Idle
| serial_take trace p o task :
    serial p0 trace p Idle → serial p0 (trace ++ [mkEntry o task None]) p (Holding o task (section task))
| serial_call trace p o task calls p' calls' :
    serial p0 trace p (Holding o task calls) → (∀ response, calls ≠ Return response) →
    run_call state_to_vec calls p = Some (p', calls') → serial p0 trace p' (Holding o task calls')
| serial_return trace p o task response :
    serial p0 trace p (Holding o task (Return response)) →
    serial p0 (trace ++ [mkEntry o task (Some response)]) p Idle
| serial_panic trace p o task calls :
    serial p0 trace p (Holding o task calls) → run_call state_to_vec calls p = None → serial p0 trace p Crashed
| serial_post trace p t f : worker_post f → serial p0 trace p t → serial p0 trace (post f p) t.

(** The section a thread is in. *)
Definition phase_section (phase : Phase (Rng := Rng) (S := S) (R := R)) : option (Task * Calls) :=
  match phase with Within task calls => Some (task, calls) | _ => None end.
Definition section_of (sv : Server) (o : Owner) : option (Task * Calls) :=
  match o with
  | Peer c => conn ← sv_conns sv !! c; phase_section (cn_phase conn)
  | Driver => sv_driver sv
  | Maintainer => sv_maintainer sv
  end.

Definition turn_section (t : Turn) (o : Owner) : option (Task * Calls) :=
  match t with Holding o' task calls => if decide (o = o') then Some (task, calls) else None | _ => None end.

(** The threads are where the sequential execution is: the one whose turn it
    is, and no other, is in a section. *)
Definition agrees (sv : Server) (t : Turn) : Prop :=
  (∀ o, section_of sv o = turn_section t o)
  ∧ match sv_mutex sv, t with
    | Free, Idle | Locked, Holding _ _ _ | Poisoned, Crashed | Exited, Crashed => True
    | _, _ => False
    end.

(** A response to a request other than for logs is the answer of its section. *)
Definition answered (trace : list Entry) (c : N) (conn : Conn (Rng := Rng) (S := S) (R := R)) : Prop :=
  ∀ request response, cn_phase conn = Respond request response → (∀ lease, request ≠ CrLogs lease) →
  ∃ now, mkEntry (Peer c) (TaskRequest now request) (Some (Some response)) ∈ trace.

Definition linear (p0 : Plane) (sv : Server) : Prop :=
  (∃ t, serial p0 (sv_trace sv) (sv_plane sv) t ∧ agrees sv t)
  ∧ map_Forall (answered (sv_trace sv)) (sv_conns sv).

Lemma answered_app trace more c conn : answered trace c conn → answered (trace ++ more) c conn.
Proof.
  intros Ha request response Hp Hne. destruct (Ha request response Hp Hne) as (now & Hin).
  exists now. apply elem_of_app. by left.
Qed.

Lemma answered_conns trace more (conns : gmap N Conn) c conn :
  map_Forall (answered trace) conns → answered (trace ++ more) c conn →
  map_Forall (answered (trace ++ more)) (<[c := conn]> conns).
Proof.
  intros Ha Hc. apply map_Forall_insert_2; [done|]. intros c' conn' ?. by apply answered_app, Ha.
Qed.

(** A thread answers by itself only requests for logs. *)
Definition quiet (phase : Phase (Rng := Rng) (S := S) (R := R)) : Prop :=
  ∀ request response, phase = Respond request response → ∃ lease, request = CrLogs lease.

Lemma quiet_answered trace c phase heard : quiet phase → answered trace c (mkConn phase heard).
Proof. intros Hq request response Hp Hne. destruct (Hq _ _ Hp) as [lease ->]. by destruct (Hne lease). Qed.

(** What a thread does by itself stays outside sections. *)
Definition outside (phase : Phase (Rng := Rng) (S := S) (R := R)) : Prop := quiet phase ∧ phase_section phase = None.

Definition action_sound (phase : Phase (Rng := Rng) (S := S) (R := R)) (a : Action) : Prop :=
  match a with
  | Become phase' => outside phase' ∧ phase_section phase = None
  | Look k => (∀ token s, outside (k token s)) ∧ phase_section phase = None
  | Lock _ => phase_section phase = None
  | Continue task calls => phase_section phase = Some (task, calls)
  end.

Lemma accept_sound phase i a : accept phase i = Some a → action_sound phase a.
Proof.
  destruct phase, i; cbn [Accept.accept mbind option_bind]; try discriminate;
    unfold greeted, proven, requested; intros Ha;
    repeat (case_match || simplify_eq || (progress cbn in * ));
    unfold logs_lookup, logs_fallback, outside, quiet; split_and?; try done;
    intros; repeat (case_match || simplify_eq); split_and?; intros; simplify_eq; eauto.
Qed.

Lemma section_set_phase c conn phase heard (sv : Server) o :
  section_of (set_phase c conn phase heard sv) o
  = if decide (o = Peer c) then phase_section phase else section_of sv o.
Proof.
  destruct o as [c'| |]; cbn; [|by case_decide..]. destruct (decide (c' = c)) as [->|Hne].
  - by rewrite lookup_insert, !decide_True.
  - rewrite lookup_insert_ne by done. case_decide; [congruence|done].
Qed.

(** A thread outside sections moves. *)
Lemma set_phase_agrees c conn phase heard sv t :
  agrees sv t → section_of sv (Peer c) = None → phase_section phase = None →
  agrees (set_phase c conn phase heard sv) t.
Proof.
  intros [Ho Hm] Hc Hp. split; [|done]. intros o. rewrite section_set_phase, <-Ho. case_decide; subst; congruence.
Qed.

Lemma set_phase_linear p0 c conn phase heard sv :
  linear p0 sv → section_of sv (Peer c) = None → outside phase → linear p0 (set_phase c conn phase heard sv).
Proof.
  intros [(t & Hs & Ha) Hans] Hc [Hq Hp]. split.
  - exists t. split; [done|]. by apply set_phase_agrees.
  - apply map_Forall_insert_2; [by apply quiet_answered|done].
Qed.

(** Whoever is in a section has the turn. *)
Lemma agrees_turn sv t o task calls :
  agrees sv t → section_of sv o = Some (task, calls) → t = Holding o task calls ∧ sv_mutex sv = Locked.
Proof.
  intros [Ho Hm] Hs. rewrite Ho in Hs. destruct t as [|o' task' calls'|]; try done. cbn in Hs. case_decide; simplify_eq.
  by destruct (sv_mutex sv).
Qed.

Lemma agrees_free sv t : agrees sv t → sv_mutex sv = Free → t = Idle.
Proof. intros [_ Hm] Hf. rewrite Hf in Hm. by destruct t. Qed.

(** The sequential execution of a thread's next call. *)
Lemma continue_serial p0 o task calls (sv : Server) sv' next :
  serial p0 (sv_trace sv) (sv_plane sv) (Holding o task calls) →
  continue state_to_vec o task calls sv = (sv', next) →
  sv_conns sv' = sv_conns sv ∧ sv_driver sv' = sv_driver sv ∧ sv_maintainer sv' = sv_maintainer sv
  ∧ match next with
    | inl calls' => serial p0 (sv_trace sv') (sv_plane sv') (Holding o task calls') ∧ sv_trace sv' = sv_trace sv
        ∧ sv_mutex sv' = sv_mutex sv
    | inr (Some response) => serial p0 (sv_trace sv') (sv_plane sv') Idle ∧ sv_mutex sv' = Free
        ∧ sv_trace sv' = sv_trace sv ++ [mkEntry o task (Some response)]
    | inr None => serial p0 (sv_trace sv') (sv_plane sv') Crashed ∧ sv_mutex sv' = Poisoned ∧ sv_trace sv' = sv_trace sv
    end.
Proof.
  intros Hs. unfold continue. destruct calls as [response|A f k|k].
  - intros [= <- <-]. split_and!; try done. cbn. by apply serial_return.
  - destruct (run_call state_to_vec (Call f k) (sv_plane sv)) as [[p calls']|] eqn:Hr; intros [= <- <-];
      split_and!; try done; (by eapply serial_call) || (by eapply serial_panic).
  - destruct (run_call state_to_vec (Compact k) (sv_plane sv)) as [[p calls']|] eqn:Hr; intros [= <- <-];
      split_and!; try done; (by eapply serial_call) || (by eapply serial_panic).
Qed.

(** A step of the thread whose turn it is, or that gets it. *)
Definition turn_of (o : Owner) (t : Turn) : Prop := match t with Holding o' _ _ => o' = o | _ => True end.

Lemma agrees_own (sv sv' : Server) t o t' :
  agrees sv t → turn_of o t → turn_of o t' →
  (∀ o', o' ≠ o → section_of sv' o' = section_of sv o') → section_of sv' o = turn_section t' o →
  match sv_mutex sv', t' with
  | Free, Idle | Locked, Holding _ _ _ | Poisoned, Crashed | Exited, Crashed => True
  | _, _ => False
  end → agrees sv' t'.
Proof.
  intros [Ho _] Ht Ht' Hothers Hown Hm. split; [|done]. intros o'. destruct (decide (o' = o)) as [->|Hne]; [done|].
  rewrite Hothers, Ho by done. destruct t, t'; cbn in *; subst; by rewrite ?decide_False by done.
Qed.

(** A connection's next call. *)
Lemma continue_linear p0 c conn i task calls sv :
  linear p0 sv → sv_conns sv !! c = Some conn → phase_section (cn_phase conn) = Some (task, calls) →
  linear p0 (act agent_logs read_log response_debug state_to_vec c conn (heard_of i) (Continue task calls) sv).
Proof.
  intros [(t & Hs & Hag) Hans] Hconn Hp. unfold act.
  assert (section_of sv (Peer c) = Some (task, calls)) as Hsec by (cbn; by rewrite Hconn).
  destruct (agrees_turn _ _ _ _ _ Hag Hsec) as [-> Hlock].
  destruct (continue state_to_vec (Peer c) task calls sv) as [sv' next] eqn:Hc.
  destruct (continue_serial p0 _ _ _ _ _ _ Hs Hc) as (Hconns & Hdr & Hmt & Hnext).
  assert (∀ o', o' ≠ Peer c → ∀ phase heard,
    section_of (set_phase c conn phase heard sv') o' = section_of sv o') as Hothers.
  { intros o' Hne phase heard. rewrite section_set_phase, decide_False by done.
    destruct o'; cbn; by rewrite ?Hconns, ?Hdr, ?Hmt. }
  destruct next as [calls'|[response|]].
  + destruct Hnext as (Hser & Htr & Hm). split.
    * exists (Holding (Peer c) task calls'). split; [done|].
      eapply agrees_own; [exact Hag|done..|by intros; apply Hothers|by rewrite section_set_phase; cbn [turn_section]; rewrite !decide_True by done|].
      cbn. by rewrite Hm, Hlock.
    * cbn. rewrite Hconns, Htr. apply map_Forall_insert_2; [by apply quiet_answered|done].
  + destruct Hnext as (Hser & Hm & Htr). split.
    * exists Idle. split; [done|].
      eapply agrees_own; [exact Hag|done..|by intros; apply Hothers| |by cbn; rewrite Hm].
      rewrite section_set_phase, decide_True by done. by destruct task, response.
    * cbn. rewrite Hconns, Htr. apply answered_conns; [done|].
      destruct task as [now request| | |], response as [response|]; try by apply quiet_answered.
      intros ? ? [= <- <-] _. exists now. apply elem_of_app. right. by apply list_elem_of_singleton.
  + destruct Hnext as (Hser & Hm & Htr). split.
    * exists Crashed. split; [done|].
      eapply agrees_own; [exact Hag|done..|by intros; apply Hothers| |by cbn; rewrite Hm].
      by rewrite section_set_phase, decide_True by done.
    * cbn. rewrite Hconns, Htr. apply map_Forall_insert_2; [by apply quiet_answered|done].
Qed.

Lemma act_linear p0 c conn i a sv :
  linear p0 sv → sv_conns sv !! c = Some conn → accept (cn_phase conn) i = Some a →
  linear p0 (act agent_logs read_log response_debug state_to_vec c conn (heard_of i) a sv).
Proof.
  intros Hl Hconn Ha%accept_sound. pose proof Hl as [(t & Hs & Hag) Hans].
  assert (section_of sv (Peer c) = phase_section (cn_phase conn)) as Hsec by (cbn; by rewrite Hconn).
  unfold act. destruct a as [phase|k|task|task calls]; cbn [action_sound] in Ha.
  - destruct Ha as [? Hn]. apply set_phase_linear; [done|congruence|done].
  - destruct Ha as [? Hn]. destruct (sv_mutex sv) eqn:Hm; [apply set_phase_linear; [done|congruence|done]|done|..];
      (split; [|done]); exists t; (split; [done|]); destruct Hag as [Ho Hmt]; rewrite Hm in Hmt; by destruct t.
  - destruct (sv_mutex sv) eqn:Hm; [|done|..].
    2,3: split; [|done]; exists t; (split; [done|]); destruct Hag as [Ho Hmt]; rewrite Hm in Hmt; by destruct t.
    pose proof (agrees_free _ _ Hag Hm) as ->. split.
    + exists (Holding (Peer c) task (section task)). split; [by apply serial_take|].
      apply (agrees_own sv _ Idle (Peer c)); try done; [|by rewrite section_set_phase; cbn [turn_section]; rewrite !decide_True by done].
      intros o' Hne. by rewrite section_set_phase, decide_False.
    + apply answered_conns; [done|]. by apply quiet_answered.
  - by apply continue_linear.
Qed.

(** Where a thread of the server's own keeps its section. *)
Record keeps (o : Owner) (put : option (Task * Calls) → Server → Server) : Prop := {
  kp_own : ∀ v sv, section_of (put v sv) o = v;
  kp_others : ∀ v sv o', o' ≠ o → section_of (put v sv) o' = section_of sv o';
  kp_same : ∀ v sv, sv_plane (put v sv) = sv_plane sv ∧ sv_mutex (put v sv) = sv_mutex sv
    ∧ sv_trace (put v sv) = sv_trace sv ∧ sv_conns (put v sv) = sv_conns sv ∧ sv_token (put v sv) = sv_token sv;
}.

Lemma keeps_driver : keeps Driver set_driver.
Proof. split; [done| |done]. by intros v sv []. Qed.
Lemma keeps_maintainer : keeps Maintainer set_maintainer.
Proof. split; [done| |done]. by intros v sv []. Qed.

Lemma own_linear p0 o task put sv :
  keeps o put → linear p0 sv →
  linear p0 (own agent_logs read_log response_debug state_to_vec o task (section_of sv o) put sv).
Proof.
  intros [Hown Hothers Hsame] Hl. pose proof Hl as [(t & Hs & Hag) Hans].
  assert (∀ v sv', linear p0 (put v sv') ↔ (∃ t, serial p0 (sv_trace sv') (sv_plane sv') t ∧ agrees (put v sv') t)
    ∧ map_Forall (answered (sv_trace sv')) (sv_conns sv')) as Hput.
  { intros v sv'. unfold linear. by destruct (Hsame v sv') as (-> & _ & -> & -> & _). }
  unfold own. destruct (section_of sv o) as [[task' calls]|] eqn:Hsec.
  - destruct (agrees_turn _ _ _ _ _ Hag Hsec) as [-> Hlock].
    destruct (continue state_to_vec o task' calls sv) as [sv' next] eqn:Hc.
    destruct (continue_serial p0 _ _ _ _ _ _ Hs Hc) as (Hconns & Hdr & Hmt & Hnext).
    assert (∀ o', section_of sv' o' = section_of sv o') as Hsv'
      by (intros []; cbn; by rewrite ?Hconns, ?Hdr, ?Hmt).
    assert (∀ v o', o' ≠ o → section_of (put v sv') o' = section_of sv o') as Hoth
      by (intros; by rewrite Hothers).
    assert (map_Forall (answered (sv_trace sv')) (sv_conns sv')) as Hans'.
    { rewrite Hconns. intros c conn Hconn. destruct next as [calls'|[response|]]; destruct Hnext as (_ & Ht1 & Ht2);
        rewrite ?Ht1, ?Ht2; try apply answered_app; by apply Hans. }
    destruct next as [calls'|[response|]]; destruct Hnext as (Hser & H1 & H2); apply Hput; (split; [|done]);
      eexists; (split; [exact Hser|]); (eapply agrees_own; [exact Hag|done..|by apply Hoth| |]);
      rewrite ?Hown, ?(proj1 (proj2 (Hsame _ _))); cbn; rewrite ?decide_True by done; try done; try by rewrite H1.
    by rewrite H2, Hlock.
  - destruct (sv_mutex sv) eqn:Hm; try done. pose proof (agrees_free _ _ Hag Hm) as ->. apply Hput. split.
    + exists (Holding o task (section task)). split; [by apply serial_take|].
      eapply agrees_own; [exact Hag|done..| | |]; rewrite ?Hown, ?(proj1 (proj2 (Hsame _ _))); cbn;
        rewrite ?decide_True by done; try done. intros o' Hne. rewrite Hothers by done. by destruct o'.
    + intros c conn Hconn. by apply answered_app, Hans.
Qed.

Lemma post_linear p0 f sv : worker_post f → linear p0 sv → linear p0 (set_plane (post f (sv_plane sv)) sv).
Proof.
  intros Hf [(t & Hs & Ha) Hans]. split; [|done]. exists t. split; [by apply serial_post|]. destruct Ha as [Ho Hm].
  split; [|done]. intros o. rewrite <-Ho. by destruct o.
Qed.

Lemma server_step_linear p0 sv e : linear p0 sv → linear p0 (server_step sv e).
Proof.
  intros Hl. unfold Accept.server_step. destruct (sv_mutex sv) eqn:Hm; [..|done]; destruct e as [c rng|c i| | | |];
    try (apply (own_linear p0 Driver TaskAdvance set_driver sv keeps_driver Hl));
    try (apply (own_linear p0 Maintainer (TaskMaintain now) set_maintainer sv keeps_maintainer Hl));
    try (apply post_linear; [|done]; unfold worker_post; by eauto);
    destruct (sv_conns sv !! c) as [conn|] eqn:Hconn; try done;
    try (by apply set_phase_linear; [|cbn; rewrite Hconn|]);
    (destruct (accept (cn_phase conn) i) eqn:Ha; [by apply act_linear|done]).
Qed.

Lemma serve_linear token p0 events : linear p0 (serve token p0 events).
Proof.
  unfold Accept.plane_serve. assert (linear p0 (serve_start (Rng := Rng) (S := S) (R := R) token p0)) as Hstart.
  { split; [|by apply map_Forall_empty]. exists Idle. split; [constructor|]. split; [|done]. by intros []. }
  revert Hstart. generalize (serve_start (Rng := Rng) (S := S) (R := R) token p0).
  induction events as [|e events IH]; intros sv Hsv; [done|]. cbn. by apply IH, server_step_linear.
Qed.

(** ** A poisoned lock *)

(** The plane's kernel and files, and the trace. *)
Definition authority (sv : Server) : Cluster * Disk * list Entry :=
  (ns_cluster (cp_service (sv_plane sv)), cp_disk (sv_plane sv), sv_trace sv).

Lemma post_authority f (sv : Server) : worker_post f → authority (set_plane (post f (sv_plane sv)) sv) = authority sv.
Proof.
  intros [(machine & reply & ->)|(tag & reply & ->)]; [|done]. unfold authority. cbn. f_equal. f_equal. unfold deliver.
  destruct (ns_agents (cp_service (sv_plane sv)) !! machine) as [h|]; [|done]. by destruct (ah_jobs h) as [|[]].
Qed.

Lemma poisoned_silent p0 sv e :
  linear p0 sv → sv_mutex sv = Poisoned ∨ sv_mutex sv = Exited →
  authority (server_step sv e) = authority sv
  ∧ (sv_mutex (server_step sv e) = Poisoned ∨ sv_mutex (server_step sv e) = Exited).
Proof.
  intros [(t & _ & Hag) _] Hm. assert (∀ o, section_of sv o = None) as Hnone.
  { intros o. destruct Hag as [Ho Hmt]. rewrite Ho. destruct Hm as [Hm|Hm]; rewrite Hm in Hmt; by destruct t. }
  unfold Accept.server_step. destruct Hm as [Hm|Hm]; rewrite Hm; [|by auto].
  destruct e as [c rng|c i| | | |].
  - destruct (sv_conns sv !! c); cbn; auto.
  - destruct (sv_conns sv !! c) as [conn|] eqn:Hconn; [|by auto].
    destruct (accept (cn_phase conn) i) as [a|] eqn:Ha; [|by auto]. apply accept_sound in Ha.
    specialize (Hnone (Peer c)). cbn in Hnone. rewrite Hconn in Hnone. cbn in Hnone.
    unfold act. destruct a as [phase|k|task|task calls]; rewrite ?Hm; cbn; auto. cbn in Ha. congruence.
  - specialize (Hnone Driver). cbn in Hnone. rewrite Hnone. cbn. rewrite Hm. auto.
  - specialize (Hnone Maintainer). cbn in Hnone. rewrite Hnone. cbn. rewrite Hm. auto.
  - split; [|by left]. apply post_authority. left. eauto.
  - split; [|by left]. apply post_authority. right. eauto.
Qed.

Lemma poisoned_stays p0 sv events :
  linear p0 sv → sv_mutex sv = Poisoned ∨ sv_mutex sv = Exited →
  authority (foldl server_step sv events) = authority sv.
Proof.
  revert sv. induction events as [|e events IH]; intros sv Hl Hm; [done|]. cbn.
  destruct (poisoned_silent p0 sv e Hl Hm) as [Ht Hm']. rewrite IH; [done|by apply server_step_linear|done].
Qed.

(** ** A held lock is given back *)

(** The holder's turn. *)
Definition holder_goes_on (o : Owner) : Event (Rng := Rng) :=
  match o with Peer c => Run c (Go 0) | Driver => Drive | Maintainer => Maintain 0 end.

Lemma holder_step p0 sv o task calls :
  linear p0 sv → section_of sv o = Some (task, calls) →
  let sv' := server_step sv (holder_goes_on o) in
  sv_mutex sv' ≠ Locked
  ∨ ∃ p calls', run_call state_to_vec calls (sv_plane sv) = Some (p, calls') ∧ (∀ response, calls ≠ Return response)
      ∧ section_of sv' o = Some (task, calls').
Proof.
  intros [(t & Hs & Hag) _] Hsec. destruct (agrees_turn _ _ _ _ _ Hag Hsec) as [-> Hlock].
  assert (∀ sv' next, continue state_to_vec o task calls sv = (sv', next) →
    match next with
    | inl calls' => ∃ p, run_call state_to_vec calls (sv_plane sv) = Some (p, calls') ∧ ∀ response, calls ≠ Return response
    | inr _ => sv_mutex sv' ≠ Locked
    end) as Hc.
  { unfold continue. intros sv' next. destruct calls as [response|A f k|k]; [by intros [= <- <-]|..];
      destruct (run_call _ _ _) as [[p calls']|]; intros [= <- <-]; by eauto. }
  unfold Accept.server_step. rewrite Hlock. destruct o as [c| |]; cbn [holder_goes_on].
  - cbn in Hsec. destruct (sv_conns sv !! c) as [conn|]; [|done]. cbn in Hsec.
    destruct (cn_phase conn) as [| | | | | | | | | | |task' calls'|]; try done. injection Hsec as -> ->.
    cbn [Accept.accept act]. specialize (Hc _ _ (surjective_pairing _)).
    destruct (continue state_to_vec (Peer c) task calls sv) as [sv' [calls'|[response|]]]; cbn [fst snd] in Hc; [|by left..].
    right. destruct Hc as (p & ? & ?). exists p, calls'. split_and!; [done..|]. by rewrite section_set_phase, decide_True.
  - cbn in Hsec. rewrite Hsec. cbn [own]. specialize (Hc _ _ (surjective_pairing _)).
    destruct (continue state_to_vec Driver task calls sv) as [sv' [calls'|r]]; cbn [fst snd] in Hc; [|by left].
    right. destruct Hc as (p & ? & ?). by exists p, calls'.
  - cbn in Hsec. rewrite Hsec. cbn [own]. specialize (Hc _ _ (surjective_pairing _)).
    destruct (continue state_to_vec Maintainer task calls sv) as [sv' [calls'|r]]; cbn [fst snd] in Hc; [|by left].
    right. destruct Hc as (p & ? & ?). by exists p, calls'.
Qed.

Lemma holder_leaves p0 sv o task calls :
  linear p0 sv → section_of sv o = Some (task, calls) →
  ∃ n, sv_mutex (foldl server_step sv (replicate n (holder_goes_on o))) ≠ Locked.
Proof.
  revert sv. induction calls as [response|A f k IH|k IH]; intros sv Hl Hsec;
    (destruct (holder_step p0 sv o task _ Hl Hsec) as [Hm|(p & calls' & Hr & Hne & Hsec')];
      [by exists 1%nat|]).
  - by destruct (Hne response).
  - cbn in Hr. destruct (with_sink state_to_vec f (sv_plane sv)) as [[p1 a]|]; [|done]. injection Hr as <- <-.
    destruct (IH a _ (server_step_linear _ _ _ Hl) Hsec') as [n Hn]. by exists (Datatypes.S n).
  - injection Hr as <- <-. destruct (IH _ (server_step_linear _ _ _ Hl) Hsec') as [n Hn]. by exists (Datatypes.S n).
Qed.

(** ** Who enters *)

Local Abbreviation holder_heard := (key_holder_heard (Rng := Rng) (Key := Key) (H := H) (S := S) (R := R) sha256).

(** What a thread's state says of the bytes its peer has sent. *)
Definition phase_proof (token : option string) (phase : Phase (Rng := Rng)) (heard : list Z) : Prop :=
  match phase with
  | Accepted _ => heard = []
  | Handshaking p input =>
      ∃ rng consumed, heard = consumed ++ input
        ∧ heard_so_far (establish_responder sha256 rng token) consumed p
  | Closed => True
  | _ => holder_heard token heard
  end.

Definition authenticated (token : option string) (sv : Server) : Prop :=
  sv_token sv = token
  ∧ map_Forall (λ _ conn, phase_proof token (cn_phase conn) (cn_heard conn)) (sv_conns sv)
  ∧ Forall (λ e, ∀ c, en_conn e = Some c →
       ∃ conn, sv_conns sv !! c = Some conn ∧ holder_heard token (cn_heard conn)) (sv_trace sv).

Lemma holder_heard_app token heard more : holder_heard token heard → holder_heard token (heard ++ more).
Proof.
  intros (i & payload & i' & m & before & after & Hi & Hw & ->).
  exists i, payload, i', m, before, (after ++ more). by rewrite <-!app_assoc.
Qed.

(** Past the handshake, states are reached only with the proof. *)
Definition past_handshake (phase : Phase (Rng := Rng) (S := S) (R := R)) : Prop :=
  match phase with Accepted _ | Handshaking _ _ => False | _ => True end.

Lemma past_proof token phase heard : past_handshake phase → holder_heard token heard → phase_proof token phase heard.
Proof. by destruct phase. Qed.

Definition action_past (a : Action) : Prop :=
  match a with
  | Become phase => past_handshake phase
  | Look k => ∀ token s, past_handshake (k token s)
  | Lock _ | Continue _ _ => True
  end.

Lemma accept_past phase i a :
  past_handshake phase → accept phase i = Some a → action_past a ∧ heard_of i = [] ∧ phase ≠ Closed.
Proof.
  destruct phase, i; cbn [Accept.accept past_handshake]; try done; intros _ [= <-]; cbn; split; try done; intros;
    unfold greeted, proven, requested, logs_lookup, logs_fallback, from_option; repeat case_match; done.
Qed.

Lemma handshake_proof token p input heard i a :
  phase_proof token (Handshaking p input) heard → accept (Handshaking p input) i = Some a →
  ∃ phase, a = Become phase ∧ phase_proof token phase (heard ++ heard_of i).
Proof.
  intros (rng & consumed & -> & Hh). destruct i as [now|bytes| | |]; try (by destruct p as [[]| |]).
  - assert (phase_proof token (Handshaking p input) ((consumed ++ input) ++ [])) as Hsame.
    { rewrite app_nil_r. by exists rng, consumed. }
    cbn [heard_of]. destruct p as [[s|e]|bytes k|n k]; cbn [Accept.accept].
    + intros [= <-]. exists AwaitGreeting. split; [done|]. cbn. rewrite app_nil_r.
      apply holder_heard_app. rewrite <-(app_nil_r consumed). eapply responder_accepts, (Hh []). done.
    + intros [= <-]. by exists Closed.
    + intros [= <-]. exists (Handshaking k input). split; [done|]. exists rng, consumed. by rewrite app_nil_r.
    + destruct (advance false (Get n k) input) as [[[p' input'] out]|] eqn:Hadv; [|done].
      intros Ha. injection Ha as <-.
      destruct (heard_advance _ _ _ _ _ _ _ Hh Hadv) as (rd & -> & Hh').
      exists (Handshaking p' input'). split; [done|]. exists rng, (consumed ++ rd). by rewrite app_nil_r, app_assoc.
  - intros Ha. assert (a = Become (Handshaking p (input ++ bytes))) as -> by (destruct p as [[]| |]; by injection Ha).
    eexists. split; [done|]. exists rng, consumed. by rewrite <-app_assoc.
  - destruct p as [[]| |]; intros [= <-]; by exists Closed.
Qed.

(** Replacing a connection by one that has heard more. *)
Lemma set_phase_authenticated token c conn phase heard sv :
  authenticated token sv → sv_conns sv !! c = Some conn ∨ sv_conns sv !! c = None →
  phase_proof token phase (cn_heard conn ++ heard) →
  authenticated token (set_phase c conn phase heard sv).
Proof.
  intros (Ht & Hc & Htr) Hlook Hp. split_and!; [done|by apply map_Forall_insert_2|]. cbn.
  eapply Forall_impl; [exact Htr|]. intros e He c' Hc'. destruct (He c' Hc') as (conn' & Hconn' & Hh).
  destruct (decide (c' = c)) as [->|Hne].
  - destruct Hlook as [Hl|Hl]; [|congruence]. assert (conn' = conn) as -> by congruence.
    exists (mkConn phase (cn_heard conn ++ heard)). rewrite lookup_insert, decide_True by done.
    split; [done|]. by apply holder_heard_app.
  - exists conn'. by rewrite lookup_insert_ne by done.
Qed.

(** Changes that leave the connections alone and note only known peers. *)
Lemma same_authenticated token (sv sv' : Server) :
  authenticated token sv → sv_token sv' = sv_token sv → sv_conns sv' = sv_conns sv →
  (∀ e, e ∈ sv_trace sv' → e ∈ sv_trace sv ∨ ∀ c, en_conn e = Some c →
     ∃ conn, sv_conns sv !! c = Some conn ∧ holder_heard token (cn_heard conn)) →
  authenticated token sv'.
Proof.
  intros (Ht & Hc & Htr) Ht' Hc' He. split_and!; [congruence|by rewrite Hc'|]. rewrite Hc'. apply Forall_forall.
  intros e [Hin|Hknown]%He; [|done]. by apply (proj1 (Forall_forall _ _) Htr).
Qed.

Lemma continue_authenticated token o task calls (sv sv' : Server) next :
  authenticated token sv →
  (∀ c, o = Peer c → ∃ conn, sv_conns sv !! c = Some conn ∧ holder_heard token (cn_heard conn)) →
  continue state_to_vec o task calls sv = (sv', next) → authenticated token sv' ∧ sv_conns sv' = sv_conns sv.
Proof.
  intros Hsv Hpeer. unfold continue. destruct calls as [response|A f k|k].
  - intros [= <- <-]. split; [|done]. apply (same_authenticated token sv); try done. cbn.
    intros e [?| ->%list_elem_of_singleton]%elem_of_app; [by left|right]. cbn. intros c Hc. apply Hpeer.
    unfold en_conn in Hc. cbn in Hc. destruct o; congruence.
  - destruct (run_call _ _ _) as [[p calls']|]; intros [= <- <-]; (split; [|done]);
      apply (same_authenticated token sv); try done; by left.
  - destruct (run_call _ _ _) as [[p calls']|]; intros [= <- <-]; (split; [|done]);
      apply (same_authenticated token sv); try done; by left.
Qed.

Lemma take_authenticated token o task (sv : Server) :
  authenticated token sv →
  (∀ c, o = Peer c → ∃ conn, sv_conns sv !! c = Some conn ∧ holder_heard token (cn_heard conn)) →
  authenticated token (take_lock o task sv).
Proof.
  intros Hsv Hpeer. apply (same_authenticated token sv); try done. cbn.
  intros e [?| ->%list_elem_of_singleton]%elem_of_app; [by left|right]. cbn. intros c Hc. apply Hpeer.
  unfold en_conn in Hc. cbn in Hc. destruct o; congruence.
Qed.

Lemma act_authenticated token c conn i a sv :
  authenticated token sv → sv_conns sv !! c = Some conn → accept (cn_phase conn) i = Some a →
  authenticated token (act agent_logs read_log response_debug state_to_vec c conn (heard_of i) a sv).
Proof.
  intros Hsv Hconn Ha. pose proof Hsv as (Ht & Hc & _). specialize (Hc c conn Hconn). cbn in Hc.
  destruct conn as [phase heard]. cbn [cn_phase cn_heard] in *.
  assert (∀ phase', phase_proof token phase' (heard ++ heard_of i) →
    authenticated token (set_phase c (mkConn phase heard) phase' (heard_of i) sv)) as Hset.
  { intros phase' Hp. apply set_phase_authenticated; auto. }
  assert (past_handshake phase ∨ (∃ rng, phase = Accepted rng) ∨ ∃ p input, phase = Handshaking p input)
    as [Hpast|[[rng ->]|(p & input & ->)]] by (destruct phase; cbn; eauto).
  - destruct (accept_past phase i a Hpast Ha) as (Hap & Hheard & Hopen).
    assert (holder_heard token heard) as Hh by (by destruct phase).
    assert (∀ c', Peer c = Peer c' → ∃ conn, sv_conns sv !! c' = Some conn ∧ holder_heard token (cn_heard conn)) as Hpeer
      by (intros c' [= <-]; eauto).
    rewrite Hheard in *. assert (∀ phase', past_handshake phase' → phase_proof token phase' (heard ++ [])) as Hpp.
    { intros phase' ?. rewrite app_nil_r. by apply past_proof. }
    unfold act. destruct a as [phase'|k|task|task calls]; auto.
    + destruct (sv_mutex sv); auto.
    + destruct (sv_mutex sv); [|done..]. apply set_phase_authenticated; [by apply take_authenticated|by left|by apply Hpp].
    + destruct (continue state_to_vec (Peer c) task calls sv) as [sv' next] eqn:Hnext.
      destruct (continue_authenticated token _ _ _ _ _ _ Hsv Hpeer Hnext) as [Hsv' Hconns].
      destruct next as [calls'|[response|]]; (apply set_phase_authenticated; [done|left; by rewrite Hconns|apply Hpp]); try done.
      by destruct task, response.
  - destruct i; cbn [Accept.accept] in Ha; try done. injection Ha as <-. cbn in Hc. subst heard.
    unfold act. destruct (sv_mutex sv); [|done..]. apply Hset. rewrite Ht. exists rng, []. split; [done|].
    apply heard_refl.
  - destruct (handshake_proof token p input heard i a Hc Ha) as (phase' & -> & Hp). by apply Hset.
Qed.

Lemma own_authenticated token o task current put sv :
  (∀ c, o ≠ Peer c) → keeps o put → authenticated token sv →
  authenticated token (own agent_logs read_log response_debug state_to_vec o task current put sv).
Proof.
  intros Ho [_ _ Hsame] Hsv. assert (∀ v sv', authenticated token sv' → authenticated token (put v sv')) as Hput.
  { intros v sv' (? & ? & ?). unfold authenticated. by destruct (Hsame v sv') as (_ & _ & -> & -> & ->). }
  assert (∀ c, o = Peer c → ∃ conn, sv_conns sv !! c = Some conn ∧ holder_heard token (cn_heard conn)) as Hpeer
    by (intros c ->; by destruct (Ho c)).
  unfold own. destruct current as [[task' calls]|].
  - destruct (continue state_to_vec o task' calls sv) as [sv' next] eqn:Hnext.
    destruct (continue_authenticated token _ _ _ _ _ _ Hsv Hpeer Hnext) as [Hsv' _]. destruct next; by apply Hput.
  - destruct (sv_mutex sv); [|done..]. by apply Hput, take_authenticated.
Qed.

Lemma server_step_authenticated token sv e : authenticated token sv → authenticated token (server_step sv e).
Proof.
  intros Hsv. unfold Accept.server_step. destruct (sv_mutex sv) eqn:Hm; [..|done]; destruct e as [c rng|c i| | | |];
    try (apply own_authenticated; [done|apply keeps_driver || apply keeps_maintainer|done]); try done;
    destruct (sv_conns sv !! c) as [conn|] eqn:Hconn; try done;
    try (apply set_phase_authenticated; [done|by right|done]);
    (destruct (accept (cn_phase conn) i) eqn:Ha; [by apply act_authenticated|done]).
Qed.

Lemma serve_authenticated token p0 events : authenticated token (serve token p0 events).
Proof.
  unfold Accept.plane_serve. assert (authenticated token (serve_start (Rng := Rng) (S := S) (R := R) token p0)) as Hstart.
  { split_and!; [done|by apply map_Forall_empty|constructor]. }
  revert Hstart. generalize (serve_start (Rng := Rng) (S := S) (R := R) token p0).
  induction events as [|e events IH]; intros sv Hsv; [done|]. cbn. by apply IH, server_step_authenticated.
Qed.

(** ** The plane across its sections *)

Context (compact_every : u64) (Hvec : Inj (=) (=) state_to_vec) (Hnonempty : ∀ st, state_to_vec st ≠ vec_new).
Local Abbreviation plane_runs := (plane_runs vec_new state_to_vec compact_every agent_logs read_log response_debug).

(** The calls of a section are steps of the controller. *)
Fixpoint calls_reach (calls : Calls) : Prop :=
  match calls with
  | Return _ => True
  | Call f k => (∀ s, reaches s (f s).1) ∧ ∀ a, calls_reach (k a)
  | Compact k => calls_reach k
  end.

Lemma for_reach {A B} (f : A → NodeService → NodeService * B) l k :
  (∀ x s, reaches s (f x s).1) → calls_reach k → calls_reach (for_calls f l k).
Proof. intros Hf Hk. induction l as [|x l IH]; [done|]. by split. Qed.

Lemma admit_reach fuel k : calls_reach k → calls_reach (admit_calls fuel k).
Proof.
  intros Hk. induction fuel as [|fuel IH]; [done|]. cbn. split; [intros; apply reaches_steps, refines_admit|].
  intros [[]|]; done.
Qed.

Lemma section_reach task : calls_reach (section task).
Proof.
  destruct task as [now request|d caps| |now].
  - repeat split; intros; apply reaches_steps; [apply refines_tick|apply refines_drive_round|apply handle_refines].
  - repeat split. intros. apply reaches_steps, refines_register_agent.
  - repeat split. intros. apply reaches_steps, refines_drive_round.
  - cbn. unfold maintain_calls. split; [intros; apply reaches_steps, refines_tick|intros _].
    split; [intros; apply reaches_steps, refines_collect_completions|intros _]. split; [intros; apply reaches_refl|intros fuel].
    apply admit_reach. split; [intros; apply reaches_steps; frame_step|intros unreachable].
    apply for_reach; [intros; apply reaches_steps, refines_mark_unhealthy|].
    split; [intros; apply reaches_steps, probe_refines|intros _].
    split; [intros; apply reaches_steps, queue_restarts_refines|intros restarts].
    apply for_reach; [intros; apply reaches_steps, refines_admit|].
    split; [intros; apply reaches_steps, reconcile_groups_refines|intros members].
    apply for_reach; [intros; apply reaches_steps, refines_admit|done].
Qed.

(** A call keeps the kernel's invariant. *)
Definition plane_inv (p : Plane) : Prop := cluster_inv (ns_cluster (cp_service p)).

Lemma call_inv calls p p' calls' :
  calls_reach calls → plane_inv p → fits (cp_service p') → run_call state_to_vec calls p = Some (p', calls') →
  plane_inv p' ∧ calls_reach calls'.
Proof.
  intros Hreach Hinv Hfit. destruct calls as [response|A f k|k]; cbn in *.
  - by intros [= <- <-].
  - destruct Hreach as [Hf Hk]. unfold with_sink. specialize (Hf (set_journal [] (cp_service p))).
    destruct (f _) as [s a]. destruct (sink_all state_to_vec _ _) as [p1|]; [|done]. intros [= <- <-]. split; [|done].
    by apply (reaches_cluster_inv (set_journal [] (cp_service p)) s).
  - intros [= <- <-]. split; [|done]. case_match; [|done]. by apply (inv_same (ns_cluster (cp_service p))).
Qed.

Definition serving (sv : Server) : Prop :=
  plane_inv (sv_plane sv) ∧ ∀ o task calls, section_of sv o = Some (task, calls) → calls_reach calls.

Lemma continue_serving o task calls (sv sv' : Server) next :
  serving sv → calls_reach calls → fits (cp_service (sv_plane sv')) →
  continue state_to_vec o task calls sv = (sv', next) →
  plane_inv (sv_plane sv') ∧ (∀ o', section_of sv' o' = section_of sv o')
  ∧ match next with inl calls' => calls_reach calls' | inr _ => True end.
Proof.
  intros [Hinv _] Hreach Hfit. unfold continue.
  assert (∀ p, sv_plane (set_plane p sv) = p ∧ ∀ o', section_of (set_plane p sv) o' = section_of sv o') as Hset
    by (intros p; split; [done|by intros []]).
  destruct calls as [response|A f k|k]; [intros [= <- <-]; split_and!; [done|by intros []|done]|..];
    (destruct (run_call _ _ _) as [[p calls']|] eqn:Hr; intros [= <- <-]; [|split_and!; [done|by intros []|done]]);
    destruct (call_inv _ _ _ _ Hreach Hinv Hfit Hr); split_and!; try done; apply Hset.
Qed.

Lemma serving_own (sv sv' : Server) o :
  serving sv → plane_inv (sv_plane sv') → (∀ o', o' ≠ o → section_of sv' o' = section_of sv o') →
  (∀ task calls, section_of sv' o = Some (task, calls) → calls_reach calls) → serving sv'.
Proof.
  intros [_ Hreach] Hinv Hothers Hown. split; [done|]. intros o' task calls Hsec.
  destruct (decide (o' = o)) as [->|Hne]; [by eapply Hown|]. rewrite Hothers in Hsec by done. by eapply Hreach.
Qed.

Lemma act_serving c conn i a sv :
  serving sv → sv_conns sv !! c = Some conn → accept (cn_phase conn) i = Some a →
  let sv' := act agent_logs read_log response_debug state_to_vec c conn (heard_of i) a sv in
  fits (cp_service (sv_plane sv')) → serving sv'.
Proof.
  intros Hsv Hconn Ha%accept_sound. pose proof Hsv as [Hinv Hreach].
  assert (∀ phase heard sv', plane_inv (sv_plane sv') → (∀ o', section_of sv' o' = section_of sv o') →
    (∀ task calls, phase_section phase = Some (task, calls) → calls_reach calls) →
    serving (set_phase c conn phase heard sv')) as Hset.
  { intros phase heard sv' Hinv' Hsec Hp. eapply (serving_own sv _ (Peer c)); [done..| |].
    - intros o' Hne. by rewrite section_set_phase, decide_False.
    - intros task calls. rewrite section_set_phase, decide_True by done. apply Hp. }
  assert (∀ m, serving (set_mutex m sv)) as Hmut.
  { intros m. eapply (serving_own sv _ Driver); [done..|by intros []|]. intros task calls. apply (Hreach Driver). }
  unfold act. destruct a as [phase|k|task|task calls]; cbn [action_sound] in Ha; intros Hfit.
  - destruct Ha as [[_ Hp] _]. apply Hset; [done..|]. intros ?? Hs. congruence.
  - destruct Ha as [Hk _]. destruct (sv_mutex sv); auto. apply Hset; [done..|]. intros ?? Hs.
    destruct (Hk (sv_token sv) (cp_service (sv_plane sv))) as [_ Hp]. congruence.
  - destruct (sv_mutex sv); auto. apply Hset; [done|by intros []|]. intros ?? [= <- <-]. apply section_reach.
  - assert (calls_reach calls) as Hc by (apply (Hreach (Peer c) task); cbn; by rewrite Hconn).
    destruct (continue state_to_vec (Peer c) task calls sv) as [sv' next] eqn:Hnext.
    assert (fits (cp_service (sv_plane sv'))) as Hfit' by (by destruct next as [|[]]).
    destruct (continue_serving _ _ _ _ _ _ Hsv Hc Hfit' Hnext) as (Hinv' & Hsec & Hcalls).
    destruct next as [calls'|[response|]]; (apply Hset; [done..|]); intros ?? Hs; try done.
    + by injection Hs as <- <-.
    + by destruct task, response.
Qed.

Lemma own_serving o task put sv :
  keeps o put → serving sv →
  let sv' := own agent_logs read_log response_debug state_to_vec o task (section_of sv o) put sv in
  fits (cp_service (sv_plane sv')) → serving sv'.
Proof.
  intros [Hown Hothers Hsame] Hsv sv' Hfit. subst sv'. pose proof Hsv as [Hinv Hreach].
  assert (∀ v sv', plane_inv (sv_plane sv') → (∀ o', section_of sv' o' = section_of sv o') →
    (∀ task calls, v = Some (task, calls) → calls_reach calls) → serving (put v sv')) as Hput.
  { intros v sv' Hinv' Hsec Hv. eapply (serving_own sv _ o); [done|by destruct (Hsame v sv') as (-> & _)| |].
    - intros o' Hne. by rewrite Hothers.
    - intros task' calls. rewrite Hown. apply Hv. }
  unfold own in *. destruct (section_of sv o) as [[task' calls]|] eqn:Hsec.
  - destruct (continue state_to_vec o task' calls sv) as [sv' next] eqn:Hnext.
    assert (fits (cp_service (sv_plane sv'))) as Hfit'.
    { destruct next; revert Hfit; by rewrite (proj1 (Hsame _ _)). }
    destruct (continue_serving _ _ _ _ _ _ Hsv (Hreach _ _ _ Hsec) Hfit' Hnext) as (Hinv' & Hsv' & Hcalls).
    destruct next as [calls'|r]; apply Hput; try done. by intros ?? [= <- <-].
  - destruct (sv_mutex sv); try done. apply Hput; [done|by intros []|]. intros ?? [= <- <-]. apply section_reach.
Qed.

Lemma post_serving f sv : worker_post f → serving sv → serving (set_plane (post f (sv_plane sv)) sv).
Proof.
  intros Hf Hsv. pose proof Hsv as [Hinv Hreach]. apply (serving_own sv _ Driver Hsv); [|by intros []|apply (Hreach Driver)].
  pose proof (post_authority f sv Hf) as Ha. injection Ha as Hc. unfold plane_inv in *. cbn. by rewrite Hc.
Qed.

Lemma incoming_serving c conn rng heard sv : serving sv → serving (set_phase c conn (Accepted rng) heard sv).
Proof.
  intros Hsv. apply (serving_own sv _ (Peer c) Hsv); [apply Hsv|..].
  - intros o' Hne. by rewrite section_set_phase, decide_False.
  - intros task calls. by rewrite section_set_phase, decide_True.
Qed.

Lemma server_step_serving sv e :
  serving sv → fits (cp_service (sv_plane (server_step sv e))) → serving (server_step sv e).
Proof.
  intros Hsv. unfold Accept.server_step. destruct (sv_mutex sv) eqn:Hm; [..|done]; destruct e as [c rng|c i| | | |];
    try (apply (own_serving Driver TaskAdvance set_driver sv keeps_driver Hsv));
    try (apply (own_serving Maintainer (TaskMaintain now) set_maintainer sv keeps_maintainer Hsv));
    try (intros _; apply post_serving; [|done]; unfold worker_post; by eauto);
    destruct (sv_conns sv !! c) as [conn|] eqn:Hconn; try done;
    try (destruct (accept (cn_phase conn) i) eqn:Ha; [by eapply act_serving|done]);
    intros _; by apply incoming_serving.
Qed.

Lemma serve_serving token p0 events :
  plane_inv p0 → (∀ k, fits (cp_service (sv_plane (serve token p0 (take k events))))) →
  serving (serve token p0 events).
Proof.
  intros Hinv. induction events as [|e events IH] using rev_ind; intros Hfit.
  { split; [done|]. by intros []. }
  assert (serve token p0 (events ++ [e]) = server_step (serve token p0 events) e) as Hsnoc
    by (unfold Accept.plane_serve; by rewrite foldl_app).
  rewrite Hsnoc. apply server_step_serving.
  - apply IH. intros k. destruct (decide (k ≤ length events)%nat) as [Hk|Hk].
    + specialize (Hfit k). by rewrite take_app_le in Hfit.
    + specialize (Hfit (length events)). rewrite take_app_le, firstn_all in Hfit by done. by rewrite take_ge by lia.
  - specialize (Hfit (length (events ++ [e]))). by rewrite firstn_all, Hsnoc in Hfit.
Qed.

Lemma inv_within_capacity p n d :
  plane_inv p →
  occ_amount (occupancy (ns_cluster (cp_service p))) n d ≤ node_cap (c_graph (ns_cluster (cp_service p))) n d.
Proof.
  intros Hinv.
  assert (∀ j, j ∈ (∅ : gset N) → c_leases (ns_cluster (cp_service p)) !! j = None) as Hex
    by (intros j ?%elem_of_empty; done).
  unfold occupancy, occupancy_except. rewrite occupancy_exact by done.
  apply (ci_ledger _ Hinv).
Qed.

(** C18. The plane's lock does its work, however the threads interleave
    (connections, the driver and maintenance, each call of a section on its own,
    and the agents' workers, which post without the lock), from any plane that
    booted and ran.  The plane, and the order in which the lock was taken and
    given back, are those of a sequential execution, in which sections run one
    at a time from their first call to their answer; at any moment the thread
    whose turn it is there, and no other, is in a section, and it holds the
    lock; every response a connection holds to a request other than for logs is
    the answer of its section there.  The holder alone, going on, gives the lock
    back or poisons it.  Provided only that the amounts in the commands
    committed along the way are 64-bit, every node stays within its capacity at
    every call, not only between sections.  Once a section panicked, the kernel
    state, the files and the order at the lock never change again. *)
Theorem serve_linearizes token p0 history st events :
  plane_runs p0 history st →
  let sv := serve token p0 events in
  (∃ t, serial p0 (sv_trace sv) (sv_plane sv) t ∧ agrees sv t)
  ∧ (∀ c conn request response, sv_conns sv !! c = Some conn → cn_phase conn = Respond request response →
       (∀ lease, request ≠ CrLogs lease) →
       ∃ now, mkEntry (Peer c) (TaskRequest now request) (Some (Some response)) ∈ sv_trace sv)
  ∧ (∀ o task calls, section_of sv o = Some (task, calls) →
       ∃ n, sv_mutex (serve token p0 (events ++ replicate n (holder_goes_on o))) ≠ Locked)
  ∧ ((∀ k, forallb command_u64 (ns_history (cp_service (sv_plane (serve token p0 (take k events))))) = true) →
     ∀ n d, occ_amount (occupancy (ns_cluster (cp_service (sv_plane sv)))) n d
            ≤ node_cap (c_graph (ns_cluster (cp_service (sv_plane sv)))) n d)
  ∧ (sv_mutex sv = Poisoned ∨ sv_mutex sv = Exited →
     ∀ more, authority (serve token p0 (events ++ more)) = authority sv).
Proof.
  intros Hrun sv. pose proof (serve_linear token p0 events) as Hl. fold sv in Hl. pose proof Hl as [Hc Ha]. split_and!.
  - done.
  - intros c conn request response Hconn. by apply (Ha c conn Hconn).
  - intros o task calls Hsec. unfold Accept.plane_serve. destruct (holder_leaves p0 sv o task calls Hl Hsec) as [n Hn].
    exists n. by rewrite foldl_app.
  - intros Hfits n d. apply inv_within_capacity, serve_serving; [|done].
    destruct (plane_runs_ok vec_new state_to_vec Hvec Hnonempty _ _ _ _ _ _ _ Hrun) as (sd & [(Hinv & _ & _) _ _] & _). done.
  - intros Hm more. unfold Accept.plane_serve. rewrite foldl_app. by eapply poisoned_stays.
Qed.

(** C19. Peers without the token cannot touch the plane: whatever bytes arrive
    on a connection and whatever the threads do, a connection enters a section
    (a client's request or the registration of an agent) only if its peer sent
    a third handshake message that was written with the key of the server's
    token. *)
Theorem strangers_shut_out token p0 events e c :
  let sv := serve token p0 events in
  e ∈ sv_trace sv → en_conn e = Some c →
  ∃ conn i payload i' m before after,
    sv_conns sv !! c = Some conn
    ∧ progress true (psk_for sha256 token) 2 i ∧ hs_write i payload = Some (i', m)
    ∧ cn_heard conn = before ++ m ++ after.
Proof.
  intros sv He Hc. destruct (serve_authenticated token p0 events) as (_ & _ & Htr).
  destruct (proj1 (List.Forall_forall _ _) Htr e) with (c := c) as (conn & Hconn & Hh);
    [by apply list_elem_of_In|done|].
  destruct Hh as (i & payload & i' & m & before & after & ?). by exists conn, i, payload, i', m, before, after.
Qed.
End facts.
