(* ===== verification/ServiceScenario.v ===== *)
(** * A run of the controller

    One machine with a NUMA node, a CPU and memory registers; a workload with
    a program is submitted, admitted, prepared, activated and started; it is
    revoked, its releases are held until the agent proves the stop.  The
    theorems about the controller are applied to this run. *)

From S2P Require Import Prelude Identifier Text Types Workload Endpoint Protocol Provider Graph.
From S2P Require Import Inventory Discover Occupancy Command Cluster Ledger Handlers ClusterInv Steps.
From S2P Require Import Safety Authority Bindings Replay Select Admit Scheduler Journal ServiceState.
From S2P Require Import Service Routing Absorb Controller Registration ServiceSpec ServiceRefines.
From S2P Require Import PumpFacts ServiceSafety RestartFacts AdmissionFacts HeldFacts.

Ltac evaluate := vm_compute; reflexivity.

(** The machine has no devices, so access paths are never encoded. *)
#[local] Instance no_paths : PathCodec := {|
  paths_to_json _ := "[]"; paths_from_json _ := Some [];
|}.

Definition host : MachineDescription :=
  mkMachine "agent-1" "node-1" 1 1024
    [mkHost "numa/0" Class.Numa None ∅ ∅;
     mkHost "numa/0/cpu/7" Class.Cpu (Some "numa/0") ∅ (qty Dim.Count 1);
     mkHost "numa/0/memory" Class.Memory (Some "numa/0") ∅ (qty Dim.Bytes 1024)] [].

Definition all_enforced : RuntimeCapabilities := mkRuntime true true true true true true.
Definition caps : ExecutionCapabilities := mkCapabilities all_enforced all_enforced.

Definition cpu_request (id : N) : Request :=
  mkRequest id Service [mkNeed Class.Cpu (qty Dim.Count 1) []; mkNeed Class.Memory (qty Dim.Bytes 512) []]
    [] [] [] 100 0 true.
Definition job (id : N) : WorkloadSpec :=
  mkWorkload (cpu_request id) (mkExecution ["/bin/job"] None [] [] 0) true.

Definition admitted_ops : list CtlOp := [CTick 10; CRegister host caps; CSubmit (job 1) 9; CAdmit (ceiling_policy ∅)].
Definition s_admitted : NodeService := ctl_runs durable_service admitted_ops.

(** Both bindings prepared and activated, the member started. *)
Definition work (reply : AgentResponse) : CtlOp := CWork 1 (Ok reply).
Definition running_ops : list CtlOp :=
  admitted_ops ++ [work (RPrepared 1 11); work (RPrepared 2 12); CDrive; work (RActivated 1);
                   work (RActivated 2); CDrive; work (ExecutionStarted 1); CDrive].
Definition s_running : NodeService := ctl_runs durable_service running_ops.

(** Revoked: the stop is sent, the fences wait. *)
Definition revoked_ops : list CtlOp := running_ops ++ [CRevoke 1].
Definition s_revoked : NodeService := ctl_runs durable_service revoked_ops.

(** The stop is proved, the fences are sent and acknowledged. *)
Definition closed_ops : list CtlOp :=
  revoked_ops ++ [work (ExecutionStopped 1); CDrive; work (RFenced 1); work (RFenced 2); CDrive].
Definition s_closed : NodeService := ctl_runs durable_service closed_ops.

Definition lease_states (s : NodeService) : list (N * LeaseState) :=
  prod_map id lease_state <$> bt_iter (c_leases (ns_cluster s)).
Definition queued_tags (s : NodeService) : list Tag := (jobs_of s 1).*1.

(** The run goes through: fences wait for the proof of the stop. *)
Example controller_run :
  (lease_states s_admitted, queued_tags s_admitted)
    = ([(1, LPreparing)], [TBinding 1 1 1 PhPrepare; TBinding 2 1 2 PhPrepare])
  ∧ (lease_states s_running, elements (ns_execution_started s_running)) = ([(1, LActive)], [(1, 1, 1)])
  ∧ (lease_states s_revoked, queued_tags s_revoked) = ([(1, LRevoked)], [TExecutionStop 1 1 1])
  ∧ bs_iter (ns_held_effects s_revoked) = [(1, PhFence); (2, PhFence)]
  ∧ binding_state <$> bt_values (c_bindings (ns_cluster s_closed)) = [BFenced; BFenced]
  ∧ is_quiescent s_closed = true.
Proof. vm_compute. repeat split. Qed.

(** ** Applying the theorems *)

Lemma controller_recoverable_witness :
  let s := ctl_runs durable_service closed_ops in
  omap (M := list) fst (ns_journal s) = ns_history s
  ∧ c_log (ns_cluster s) = ns_history s
  ∧ ∃ c, replay (omap (M := list) fst (ns_journal s)) = Ok c
      ∧ digest c = logged_digest (digest (ns_cluster s)).
Proof. apply (controller_recoverable closed_ops). evaluate. Defined.


(** Two fences are pending. *)
Definition s_pending : NodeService := (commit (RevokeLease 1) s_running).1.

Lemma s_pending_inv : cluster_inv (ns_cluster s_pending).
Proof.
  apply reachable_inv, (reaches_inv durable_service); [apply durable_service_inv|evaluate|].
  apply (reaches_trans durable_service s_running s_pending).
  - exact (ctl_runs_reaches running_ops durable_service).
  - exact (reaches_steps _ _ (refines_commit (RevokeLease 1) s_running)).
Qed.

Lemma pump_drains_witness :
  length (ns_pending s_pending) = 2%nat
  ∧ pump_runs s_pending (pump s_pending)
  ∧ (is_ok (pump s_pending).2 = true → ns_pending (pump s_pending).1 = []).
Proof. split; [evaluate|]. apply (pump_drains s_pending). apply s_pending_inv. Defined.

(** The member failed; its workload is kept alive. *)
Definition s_failed : NodeService := ctl_runs durable_service (running_ops ++ [CApply (FailLease 1 "crashed")]).

Lemma restarts_capped_witness :
  length (take_restarts s_failed).2 = 1%nat
  ∧ ∃ roots, NoDup roots ∧ Forall2 (restart_of s_failed) roots (take_restarts s_failed).2
    ∧ ∀ root, if decide (root ∈ roots)
              then restarted (c_now (ns_cluster s_failed)) (ns_state s_failed)
                     (ns_state (take_restarts s_failed).1) root
              else untouched (ns_state s_failed) (ns_state (take_restarts s_failed).1) root.
Proof.
  split; [evaluate|]. apply (restarts_capped s_failed); [evaluate|]. split; [|evaluate || (vm_compute; discriminate)].
  intros lease w o Hl.
  assert (map_Forall (λ _ p, req_id (w_resources p.1) < ss_next_request_id (ns_state s_failed))
            (ss_requests (ns_state s_failed))) as Hall by (apply (bool_decide_unpack _); vm_compute; exact I).
  exact (Hall lease (w, o) Hl).
Defined.

(** A group of one member, which died with the cap used up. *)
Definition web : ServiceGroup := mkGroup "web" 9 (Fixed 1) (job 0).
Definition s_group : NodeService :=
  over_state (λ st, set_service_groups {["web" := web]}
    (set_group_members {["web" := {[1]}]} (set_group_restarts {["web" := 5]} st))) s_failed.

Lemma replacement_cap_forgotten_witness :
  let '(s1, first) := reconcile_service_groups s_group in
  let '(s2, second) := reconcile_service_groups s1 in
  first = [] ∧ length second = group_desired s_group web
  ∧ replacements s2 "web" = replacements s_group "web".
Proof.
  apply (replacement_cap_forgotten s_group web {[1]}); try evaluate.
  - intros id ->%elem_of_singleton. evaluate.
  - apply N.leb_le. evaluate.
Defined.

Definition s_submitted : NodeService := ctl_runs durable_service [CTick 10; CRegister host caps; CSubmit (job 1) 9].

Lemma admission_conserves_witness :
  (admit_one_with_policy (ceiling_policy ∅) s_submitted).2 = Ok (Some 1)
  ∧ let '(s', r) := admit_one_with_policy (ceiling_policy ∅) s_submitted in
    match r with
    | Ok (Some id) => moved s_submitted s' id
    | Ok None => s' = s_submitted
    | Err _ => unmoved s_submitted s' ∨ ∃ id, moved s_submitted s' id
    end.
Proof.
  split; [evaluate|]. apply (admission_conserves (ceiling_policy ∅) s_submitted); [evaluate|].
  apply Forall_forall. intros q Hq. vm_compute in Hq. apply list_elem_of_singleton in Hq as ->.
  eexists. evaluate.
Defined.

Lemma stop_ack_releases_witness :
  ∃ s', absorb_stop 1 1 1 (Ok (ExecutionStopped 1)) s_revoked = (s', Ok ())
    ∧ ∀ binding phase b, (binding, phase) ∈ ns_held_effects s_revoked → held_at s_revoked binding b 1 →
        binding_lease b = 1 →
        ((binding, phase) ∉ ns_held_effects s') ∧ (connected s_revoked 1 = true → sent s' binding b 1 phase).
Proof.
  apply (stop_ack_releases 1 1 1 s_revoked); [evaluate|].
  intros entry Hin. apply elem_of_elements in Hin. vm_compute in Hin.
  repeat (apply elem_of_cons in Hin as [->|Hin]; [done|]). by apply elem_of_nil in Hin.
Defined.

Definition started_limits : LeaseLimits :=
  match lease_limits_on_machine s_running 1 1 with
  | Ok limits => limits
  | Err _ => mkLimits 0 0 (mkPlacement (mkCpuList [0]) (mkCpuList []))
  end.

(** The leaf of CPU 7 is claimed; memory is placed on its NUMA node. *)
Lemma cpu_placement_never_pinned_witness :
  (node ← graph_node (c_graph (ns_cluster s_running)) 3; node_attrs node !! HOST_ID_ATTR) = Some "numa/0/cpu/7"
  ∧ lim_cpu_count started_limits = 1 ∧ numbers (pl_mems (lim_placement started_limits)) = [0]
  ∧ numbers (pl_cpus (lim_placement started_limits)) = []
  ∧ ∀ node, host_leaf_number s_running node "cpu/" = None ∧ host_leaf_number s_running node "cpu" = None.
Proof.
  split; [evaluate|]. split; [evaluate|]. split; [evaluate|].
  apply (cpu_placement_never_pinned s_running 1 1 started_limits). evaluate.
Defined.

(** ** The journal on disk *)

(** A codec for records without a command and for quarantines. *)
Definition record_bytes (r : @JournalRecord unit) : list Z := [123; Z.of_N (jr_sequence r); 125]%Z.
Definition record_of (bytes : list Z) : option (@JournalRecord unit) :=
  match bytes with [123; n; 125]%Z => Some (mkJournal (Z.to_N n) None tt) | _ => None end.
Definition command_bytes (command : Command) : list Z :=
  match command with QuarantineNode node => [34; Z.of_N node; 34]%Z | _ => [0]%Z end.
Definition command_of (bytes : list Z) : option Command :=
  match bytes with [34; n; 34]%Z => Some (QuarantineNode (Z.to_N n)) | _ => None end.

Definition entry (n : N) : @LogRecord unit := Controller (mkJournal n None tt).

(** A life cut short in its third append, then one that ends in order. *)
Definition lives : list session :=
  [mkSession [Legacy (QuarantineNode 50); entry 51] (Some (entry 52, 2%nat)); mkSession [entry 53] None].

Lemma journal_crash_consistent_witness :
  ∃ file, try_fold (run_session record_bytes command_bytes record_of command_of) [] lives = Ok file
    ∧ read_records record_of command_of file
      = Ok ([Legacy (QuarantineNode 50); entry 51; entry 53],
            bytes_of record_bytes command_bytes [Legacy (QuarantineNode 50); entry 51; entry 53]).
Proof.
  apply (journal_crash_consistent record_bytes command_bytes record_of command_of lives).
  change (Forall (codec_ok record_bytes command_bytes record_of command_of)
            [Legacy (QuarantineNode 50); entry 51; entry 52; entry 53]).
  repeat apply Forall_cons_2; try apply Forall_nil_2.
  all: split_and!; try evaluate; intros Hin; repeat (apply elem_of_cons in Hin as [[=]|Hin]);
    by apply elem_of_nil in Hin.
Defined.
