(* ===== verification/ServerScenario.v ===== *)
(** * A life of the control plane

    The plane boots from empty files, runs a workload, compacts, dies inside
    an operation, boots again and runs on; the recovery theorem is applied to
    it.  States are encoded by themselves. *)

From S2P Require Import Prelude Identifier Text Types Workload Endpoint Protocol Provider Graph.
From S2P Require Import Inventory Discover Occupancy Command Cluster Handlers ClusterInv Steps Safety.
From S2P Require Import Authority Bindings Replay Select Admit Scheduler Journal ServiceState Service.
From S2P Require Import Routing Absorb Controller Registration ServiceSpec ServiceRefines.
From S2P Require Import ServiceSafety ServiceScenario Server ServerFacts BootFacts.

(** ** Encoding *)

#[local] Instance Filter_eq_dec : EqDecision Filter.
Proof. solve_decision. Defined.
#[local] Instance Need_eq_dec : EqDecision Need.
Proof. solve_decision. Defined.
#[local] Instance TopologyConstraint_eq_dec : EqDecision TopologyConstraint.
Proof. solve_decision. Defined.
#[local] Instance Preference_eq_dec : EqDecision Preference.
Proof. solve_decision. Defined.
#[local] Instance RequestClass_eq_dec : EqDecision RequestClass.
Proof. solve_decision. Defined.
#[local] Instance Request_eq_dec : EqDecision Request.
Proof. solve_decision. Defined.
#[local] Instance Queued_eq_dec : EqDecision Queued.
Proof. solve_decision. Defined.
#[local] Instance ExecutionSpec_eq_dec : EqDecision ExecutionSpec.
Proof. solve_decision. Defined.
#[local] Instance WorkloadSpec_eq_dec : EqDecision WorkloadSpec.
Proof. solve_decision. Defined.
#[local] Instance ServiceGroup_eq_dec : EqDecision ServiceGroup.
Proof. solve_decision. Defined.
#[local] Instance ServiceState_eq_dec : EqDecision ServiceState.
Proof. solve_decision. Defined.
#[local] Existing Instance no_paths.

Abbreviation encoded := (option ServiceState).
Definition to_vec (st : ServiceState) : encoded := Some st.

Lemma to_vec_nonempty st : to_vec st ≠ None.
Proof. done. Qed.

(** ** Lives *)

Definition Moment : Type := ControlPlane encoded * list Command * ServiceState.
Definition empty_plane : ControlPlane encoded := mkPlane (set_durable true service_new) (mkDisk None []) 0 None 8 0.
Definition first_boot : Moment := (empty_plane, [], ns_state service_new).

(** No agent answers a log request. *)
Abbreviation run := (plane_run (λ _ _, None) (λ _, "") (λ _, "")).
Abbreviation trace := (plane_trace (λ _ _, None) (λ _, "") (λ _, "")).
Abbreviation calls_by := (op_calls (λ _ _, None) (λ _, "") (λ _, "")).
Abbreviation plane := (plane_runs (None : encoded) to_vec 8 (λ _ _, None) (λ _, "") (λ _, "")).
Definition calls_ok (calls : list (option Command * ServiceState)) : bool :=
  forallb (λ call, from_option command_u64 true call.1) calls.

(** An operation; an operation cut after [k] sink calls and a boot. *)
Definition event : Type := PlaneOp * option nat.
Definition live_event (ev : event) (m : Moment) : option Moment :=
  let '(p, H, st) := m in
  let '(op, cut) := ev in
  let calls := calls_by p op in
  if negb (calls_ok calls) then None
  else match cut with
       | None =>
           '(p', _) ← with_sink to_vec (λ s, (run s op, ())) p;
           Some (p', H ++ commands_of calls, last_state st calls)
       | Some k =>
           if negb (Nat.leb k (length calls)) then None
           else
             p1 ← sink_all to_vec (take k calls) p;
             match boot (None : encoded) 8 (cp_disk p1) with
             | Ok p' => Some (p', H ++ commands_of (take k calls), last_state st (take k calls))
             | Err _ => None
             end
       end.

Fixpoint live_events (evs : list event) (m : Moment) : option Moment :=
  match evs with
  | [] => Some m
  | ev :: evs => m ← live_event ev m; live_events evs m
  end.

Definition moment_runs (m : Moment) : Prop := plane m.1.1 m.1.2 m.2.

Lemma live_event_runs ev m m' : moment_runs m → live_event ev m = Some m' → moment_runs m'.
Proof.
  destruct m as [[p H] st], ev as [op cut]. unfold moment_runs, live_event. cbn [fst snd]. intros Hm.
  destruct (calls_ok (calls_by p op)) eqn:Hu; [|done]. cbn [negb].
  assert (calls_u64 (calls_by p op)) as Hu' 
    by (apply List.Forall_forall, List.forallb_forall; exact Hu).
  destruct cut as [k|].
  - destruct (Nat.leb_spec k (length (calls_by p op))) as [Hk|]; [|done]. cbn [negb].
    destruct (sink_all to_vec (take k (calls_by p op)) p) as [p1|] eqn:Hs; [|done]. cbn [mbind option_bind].
    destruct (boot (None : encoded) 8 (cp_disk p1)) as [p'|] eqn:Hb; [|done]. intros [= <-]. cbn [fst snd].
    by eapply pr_crash.
  - destruct (with_sink to_vec _ p) as [[p' []]|] eqn:Hs; [|done]. intros [= <-]. cbn [fst snd].
    by eapply pr_op.
Qed.

Lemma live_events_runs evs m m' : moment_runs m → live_events evs m = Some m' → moment_runs m'.
Proof.
  revert m. induction evs as [|ev evs IH]; intros m Hm; simpl; [by intros [= <-]|].
  destruct (live_event ev m) as [m1|] eqn:Hev; [|done]. apply IH. by eapply live_event_runs.
Qed.

(** ** Requests *)

Definition ask (owner : OwnerId) (command : string) : ClientRequest :=
  CrSubmit owner 1 0 100 [command] false [] [] 0 None 0.
Definition answer (reply : AgentResponse) : PlaneOp := PWork 1 (Ok reply).

(** The machine registers and the first job runs. *)
Definition job_ops : list PlaneOp :=
  [PMaintain 10; PDialIn host caps; PRequest 10 (ask 9 "/bin/first"); answer (RPrepared 1 11); PAdvance;
   answer (RActivated 1); PAdvance; answer (ExecutionStarted 1); PAdvance].
(** A second one waits; the first is revoked, stopped and fenced. *)
Definition freed_ops : list PlaneOp :=
  job_ops ++ [PRequest 11 (ask 8 "/bin/second"); PRequest 12 (CrRevoke 1); answer (ExecutionStopped 1); PAdvance;
              answer (RFenced 1); PAdvance].

(** A workload runs; a compaction; a crash inside the revocation, after its
    first record; the revocation is asked again. *)
Definition before_compaction : Moment := default first_boot (live_events ((λ op, (op, None)) <$> job_ops) first_boot).
Definition compacted : Moment :=
  let '(p, H, st) := before_compaction in (compact p, H, ns_state (cp_service p)).
Definition crashed : Moment :=
  default first_boot (live_events [(PRequest 20 (CrRevoke 1), Some 1%nat); (PMaintain 20, None)] compacted).

Lemma first_boot_runs : moment_runs first_boot.
Proof. apply pr_fresh. reflexivity. Qed.

Lemma before_compaction_runs : moment_runs before_compaction.
Proof.
  apply (live_events_runs ((λ op, (op, None)) <$> job_ops) first_boot); [exact first_boot_runs|]. evaluate.
Qed.

Lemma before_compaction_settled : settled to_vec before_compaction.1.1.
Proof. unfold settled. evaluate. Qed.
Lemma before_compaction_migrated : migrated before_compaction.1.1.
Proof. unfold migrated. evaluate. Qed.

Lemma compacted_runs : moment_runs compacted.
Proof.
  pose proof before_compaction_runs as H. pose proof before_compaction_settled as Hs.
  pose proof before_compaction_migrated as Hm. unfold compacted, moment_runs in *.
  destruct before_compaction as [[p H0] st]. by eapply pr_compact.
Qed.

Lemma crashed_runs : moment_runs crashed.
Proof.
  apply (live_events_runs [(PRequest 20 (CrRevoke 1), Some 1%nat); (PMaintain 20, None)] compacted); [exact compacted_runs|]. evaluate.
Qed.

(** The plane that crashed dies again, in a submission whose record is
    written; another one dies between its snapshot and the truncation. *)
Definition resubmitted : list (option Command * ServiceState) := calls_by crashed.1.1 (PRequest 21 (ask 8 "/bin/second")).

Lemma boot_recovers_witness :
  (∃ p1 p' c, sink_all to_vec (take 1 resubmitted) crashed.1.1 = Some p1
     ∧ boot (None : encoded) 8 (cp_disk p1) = Ok p'
     ∧ ns_state (cp_service p') = last_state crashed.2 (take 1 resubmitted)
     ∧ replay (crashed.1.2 ++ commands_of (take 1 resubmitted)) = Ok c
     ∧ logged_digest (digest (ns_cluster (cp_service p'))) = logged_digest (digest c))
  ∧ ∃ p' c, boot (None : encoded) 8 (install_snapshot before_compaction.1.1) = Ok p'
     ∧ ns_state (cp_service p') = ns_state (cp_service before_compaction.1.1)
     ∧ replay before_compaction.1.2 = Ok c
     ∧ logged_digest (digest (ns_cluster (cp_service p'))) = logged_digest (digest c).
Proof.
  split.
  - destruct (sink_all to_vec (take 1 resubmitted) crashed.1.1) as [p1|] eqn:Hs.
    + exists p1. destruct (boot_recovers (None : encoded) to_vec _ to_vec_nonempty 8 _ _ _ _ _ _ crashed_runs) as [Hop _].
      destruct (Hop (PRequest 21 (ask 8 "/bin/second")) 1%nat p1) as (p' & c & Hr); [| |exact Hs|].
      * apply List.Forall_forall, List.forallb_forall. evaluate.
      * apply Nat.leb_le. evaluate.
      * exists p', c. split; [reflexivity|exact Hr].
    + exfalso. revert Hs. vm_compute. discriminate.
  - apply (boot_recovers (None : encoded) to_vec _ to_vec_nonempty 8 _ _ _ _ _ _ before_compaction_runs).
    + apply before_compaction_settled.
    + apply before_compaction_migrated.
Defined.

Lemma plane_never_overcommits_witness :
  let s := trace service_new freed_ops in
  (∃ g, rtc step (service_new, no_ghost) (s, g))
  ∧ occ_amount (occupancy (ns_cluster s)) 3 Dim.Count
    = total_used (c_leases (ns_cluster s)) (open_binding_leases (ns_cluster s)) ∅ 3 Dim.Count
  ∧ occ_amount (occupancy (ns_cluster s)) 3 Dim.Count ≤ node_cap (c_graph (ns_cluster s)) 3 Dim.Count.
Proof. apply (plane_never_overcommits (λ _ _, None) (λ _, "") (λ _, "") freed_ops 3 Dim.Count). evaluate. Defined.

(** A container with a volume and two ports, as one submission and as the
    template of a service. *)
Definition container_wire : WorkloadWire :=
  mkWire 2 512 0 ["/bin/serve"] ["/data:/mnt"] ["8080:80"; "443"] 5 (Some "image") 0.
Definition container_asked (id : RequestId) (keep_alive : bool) : WorkloadSpec :=
  asked_workload id container_wire [mkMount "/data" "/mnt"] [mkPort 80 (Some 8080); mkPort 443 None] keep_alive.

Lemma container_asks :
  wire_asks container_wire [mkMount "/data" "/mnt"] [mkPort 80 (Some 8080); mkPort 443 None].
Proof.
  split_and!; [vm_compute; discriminate|..|done].
  - constructor; [|constructor]. by split_and!.
  - constructor; [|constructor; [by split|constructor]]. exists "8080", "80". by split_and!.
Qed.

Lemma submission_compiles_witness :
  plane_submit 9 true container_wire service_new
  = (submit (container_asked 1 true) 9 service_new, SrSubmitted 1 0)
  ∧ submit_service "web" 9 2 None None false container_wire service_new
    = (reconcile_and_admit (persist None (over_state (λ st, set_service_groups
         (<["web" := mkGroup "web" 9 (Fixed 2) (container_asked 0 false)]> (ss_service_groups st)) st) service_new)),
       SrServiceRegistered "web" 2)
  ∧ ∃ reason, submit_service "web" 9 0 None None false container_wire service_new = (service_new, SrError reason).
Proof.
  split_and!.
  - destruct (proj1 (submission_compiles 9 true container_wire "web" 2 None None false service_new) _ _ ltac:(done) container_asks)
      as (s' & outcome & Hadmit & ->). vm_compute in Hadmit. injection Hadmit as <- <-. evaluate.
  - apply (submission_compiles 9 true container_wire "web" 2 None None false service_new);
      [vm_compute; discriminate|by left|exact container_asks].
  - apply (submission_compiles 9 true container_wire "web" 0 None None false service_new).
    intros [Hcard _]. exact (Hcard eq_refl).
Defined.

(** Request [waiting] is still queued and [lease] runs a request [other] of
    another owner. *)
Definition foreign (s : NodeService) (waiting other : RequestId) (lease : LeaseId) : bool :=
  match ss_requests (ns_state s) !! lease with
  | Some (w, owner) =>
      (owner =? 8) && (req_id (w_resources w) =? other)
      && bool_decide (ex_command (w_execution w) = ["/bin/second"])
      && existsb (λ q, req_id (q_request q) =? waiting) (ss_queue (ns_state s))
  | None => false
  end.

Lemma pair_result {A B} (x : A * B) (b : B) (P : A → Prop) : x.2 = b → P x.1 → ∃ a, x = (a, b) ∧ P a.
Proof. destruct x as [a b']. intros <- ?. by exists a. Qed.

(** The third submission, once the machine is free again. *)
Lemma third_reply :
  (plane_handle (λ _ _, None) (λ _, "") (λ _, "") (ask 7 "/bin/third") (trace service_new freed_ops)).2
  = SrSubmitted 3 2.
Proof. evaluate. Qed.
Lemma third_foreign :
  foreign (plane_handle (λ _ _, None) (λ _, "") (λ _, "") (ask 7 "/bin/third") (trace service_new freed_ops)).1
    3 2 2 = true.
Proof. evaluate. Qed.

(** The lease a submission reports need not be the submitted request's:
    when an earlier request waits in the queue and capacity has been freed
    since, the admission a submission runs places the earlier request, and
    the reply names the new request together with the lease of the other
    owner's program. *)
Theorem submit_reports_foreign_lease :
  ∃ ops s',
    plane_handle (λ _ _, None) (λ _, "") (λ _, "") (ask 7 "/bin/third") (trace service_new ops)
      = (s', SrSubmitted 3 2)
    ∧ foreign s' 3 2 2 = true.
Proof. exists freed_ops. exact (pair_result _ _ (λ s', foreign s' 3 2 2 = true) third_reply third_foreign). Qed.
