(* ===== verification/AcceptScenario.v ===== *)
(** The server with its threads: an agent dials in while a client connects and
    a stranger tries a wrong token; the theorems about the threads are
    applied to that run. *)

From S2P Require Import Prelude Words Identifier Text Types Workload Endpoint Protocol Provider Graph.
From S2P Require Import Inventory Discover Occupancy Command Cluster Replay Journal ServiceState.
From S2P Require Import Service Routing Absorb Controller Registration ServiceScenario Server.
From S2P Require Import ServerFacts BootFacts ServerScenario Transport Handshake AgentScenario.
From S2P Require Import Execution Agent Probe Links Remote AgentRole Accept AcceptFacts.

#[local] Existing Instance no_paths.
#[local] Existing Instance ServerScenario.ServiceState_eq_dec.
#[local] Existing Instance counter_session.
#[local] Existing Instance toy_ops.
#[local] Existing Instance toy_handshake.

Local Open Scope Z_scope.

(** ** Messages of one byte *)

Definition greeting_of (payload : list Z) : option Greeting :=
  match payload with
  | [1] => Some GreetClient
  | [2] => Some (GreetAgent (md_instance_id host) (md_name host) (md_cpus host) (md_memory_bytes host)
                   (md_host_nodes host) (md_devices host))
  | _ => None
  end.

Definition request_of (payload : list Z) : option ClientRequest :=
  match payload with
  | [1] => Some (ask 9%N "/bin/first")
  | [2] => Some CrStatus
  | [3] => Some (CrLogs 1)
  | _ => None
  end.

(** ** Threads *)

Definition toy_frame (m : list Z) : list Z := to_be_bytes 2 (Z.of_nat (length m)) ++ m.

(** A connection up to its greeting: the server's two writes come between
    the peer's two messages. *)
Definition dial (c : N) (token : string) : list (Event (Rng := Z)) :=
  [Incoming c 5; Run c (Go 10); Run c (Bytes (toy_frame [0])); Run c (Go 10); Run c (Go 10); Run c (Go 10);
   Run c (Go 10); Run c (Bytes (toy_frame (psk_for toy_sha256 (Some token)))); Run c (Go 10); Run c (Go 10);
   Run c (Go 10)].

Fixpoint interleave {A} (l k : list A) : list A :=
  match l, k with
  | x :: l, y :: k => x :: y :: interleave l k
  | [], k => k
  | l, [] => l
  end.

(** The agent is 1, the client 2, the stranger 3.  The agent waits for the
    driver, maintenance and the client for the agent, and the client for
    maintenance; a worker posts while the client's section runs. *)
Definition greet : list (Event (Rng := Z)) :=
  interleave (dial 3 "wrong") (interleave (dial 1 "right") (dial 2 "right"))
  ++ [Run 3 (Payload [1]); Run 1 (Payload [2]); Run 2 (Payload [1]); Run 1 (Reply (Some (Ok (RCapabilities caps))));
      Run 2 (Payload [1])].
Definition busy : list (Event (Rng := Z)) :=
  greet
  ++ [Drive; Run 1 (Go 10); Drive; Run 1 (Go 10); Drive]
  ++ [Run 1 (Go 10); Maintain 10; Run 1 (Go 10); Run 2 (Go 11); Run 1 (Go 10)]
  ++ interleave (replicate 11 (Maintain 10)) (replicate 4 (Run 2 (Go 11)))
  ++ replicate 4 (Run 2 (Go 11)) ++ [Work 1 (Ok (RPrepared 1 11)); Run 2 (Go 11)]
  ++ replicate 3 Drive.

Abbreviation serve_events := (plane_serve (Rng := Z) (Key := Z) (H := ToyHandshake) (S := Z) (R := Z) toy_sha256 (λ _ _, None)
     (λ _, "") (λ _, "") to_vec greeting_of request_of (λ _, []) (Some "right") empty_plane).
Abbreviation busy_server := (serve_events busy).

Definition busy_order : list (Owner * bool) := (λ e, (en_owner e, bool_decide (is_Some (en_response e)))) <$> sv_trace busy_server.

(** The order at the lock, and where the stranger is. *)
Example busy_in_order :
  busy_order = [(Driver, false); (Driver, true); (Peer 1, false); (Peer 1, true); (Maintainer, false);
                (Maintainer, true); (Peer 2, false); (Peer 2, true); (Driver, false); (Driver, true)]
  ∧ cn_phase <$> sv_conns busy_server !! 3%N = Some Closed.
Proof. split; evaluate. Qed.

Lemma client_entered : ∃ e, e ∈ sv_trace busy_server ∧ en_conn e = Some 2%N.
Proof.
  assert (en_conn <$> sv_trace busy_server !! 6%nat = Some (Some 2%N)) as H by evaluate.
  destruct (sv_trace busy_server !! 6%nat) as [e|] eqn:He; [|done]. exists e.
  split; [by eapply list_elem_of_lookup_2|]. by injection H.
Qed.

Lemma strangers_shut_out_witness :
  ∃ e, e ∈ sv_trace busy_server ∧ en_conn e = Some 2%N
    ∧ ∃ conn i payload i' m before after,
        sv_conns busy_server !! 2%N = Some conn
        ∧ progress (Rng := Z) (Key := Z) (H := ToyHandshake) (S := Z) (R := Z) true (psk_for toy_sha256 (Some "right")) 2 i
        ∧ hs_write (NoiseOps := toy_ops) i payload = Some (i', m)
        ∧ cn_heard conn = before ++ m ++ after.
Proof.
  destruct client_entered as (e & He & Hc). exists e. split; [exact He|]. split; [exact Hc|].
  exact (strangers_shut_out toy_sha256 (λ _ _, None) (λ _, "") (λ _, "") to_vec greeting_of request_of (λ _, [])
           (Some "right") empty_plane busy e 2%N He Hc).
Defined.

(** ** The run is sequential *)

Definition run_fits (events : list (Event (Rng := Z))) : bool :=
  forallb command_u64 (ns_history (cp_service (sv_plane (serve_events events)))).

Lemma busy_fits k : run_fits (take k busy) = true.
Proof.
  assert (forallb (λ k, run_fits (take k busy)) (seq 0 (S (length busy))) = true) as Hall by evaluate.
  rewrite List.forallb_forall in Hall. destruct (decide (k ≤ length busy)%nat) as [Hk|Hk].
  - apply Hall, in_seq. lia.
  - rewrite take_ge by lia. rewrite <-(firstn_all busy). apply Hall, in_seq. lia.
Qed.

(** The agent registers: it has the lock, the others wait. *)
Abbreviation registering := (greet ++ [Drive; Drive; Drive; Run 1 (Go 10); Maintain 10; Drive]).

Lemma serve_linearizes_witness :
  (∃ t, serial (λ _ _, None) (λ _, "") (λ _, "") to_vec empty_plane (sv_trace busy_server) (sv_plane busy_server) t
    ∧ agrees busy_server t)
  ∧ (occ_amount (occupancy (ns_cluster (cp_service (sv_plane busy_server)))) 3 Dim.Count
     ≤ node_cap (c_graph (ns_cluster (cp_service (sv_plane busy_server)))) 3 Dim.Count)%N
  ∧ sv_mutex (serve_events registering) = Locked
  ∧ ∃ n, sv_mutex (serve_events (registering ++ replicate n (Run 1 (Go 0)))) ≠ Locked.
Proof.
  split_and!.
  - exact (proj1 (serve_linearizes (S := Z) (R := Z) toy_sha256 (λ _ _, None) (λ _, "") (λ _, "") None to_vec greeting_of
      request_of (λ _, []) 8 _ to_vec_nonempty (Some "right") empty_plane [] (ns_state service_new) busy first_boot_runs)).
  - destruct (serve_linearizes (S := Z) (R := Z) toy_sha256 (λ _ _, None) (λ _, "") (λ _, "") None to_vec greeting_of
      request_of (λ _, []) 8 _ to_vec_nonempty (Some "right") empty_plane [] (ns_state service_new) busy first_boot_runs)
      as (_ & _ & _ & Hocc & _). exact (Hocc busy_fits 3%N Dim.Count).
  - evaluate.
  - destruct (serve_linearizes (S := Z) (R := Z) toy_sha256 (λ _ _, None) (λ _, "") (λ _, "") None to_vec greeting_of
      request_of (λ _, []) 8 _ to_vec_nonempty (Some "right") empty_plane [] (ns_state service_new) registering first_boot_runs)
      as (_ & _ & Hends & _).
    destruct (Hends (Peer 1) (TaskDialIn host caps) (dial_in_calls host caps)) as [n Hn]; [reflexivity|].
    exists n. exact Hn.
Defined.

(** ** A remote agent *)

#[local] Existing Instance counting_host.
#[local] Instance here : Links.AgentClient (nat * LeaseAgent) := LocalAgentClient describe_box.

Definition asked : list AgentRequest := [Hello; opening 2; Status 100].
Definition in_process : list (result string AgentResponse) := (calls (0%nat, agent0) asked).2.

Definition asked_vec (request : AgentRequest) : list Z :=
  match request with Hello => [0] | Prepare _ _ _ _ _ _ _ _ => [1] | _ => [2] end.
Definition asked_of (payload : list Z) : option AgentRequest :=
  match payload with [i] => asked !! Z.to_nat i | _ => None end.
Definition reply_vec (response : AgentResponse) : list Z :=
  match response with Welcome _ _ _ _ _ _ => [0] | RPrepared _ _ => [1] | _ => [2] end.
Definition reply_of (payload : list Z) : option AgentResponse :=
  match payload with
  | [i] => match in_process !! Z.to_nat i with Some (Ok response) => Some response | _ => None end
  | _ => None
  end.
Definition hail_of (payload : list Z) : option Greeting := Some connect_greeting.

Lemma asked_fits : Forall (request_fits asked_vec asked_of) asked.
Proof. repeat apply Forall_cons_2; [..|by apply Forall_nil_2]; (split; [reflexivity|by apply Z.leb_le]). Qed.

Lemma replies_fit : Forall (reply_fits reply_vec reply_of) in_process.
Proof.
  assert (∀ i response, in_process !! i = Some (Ok response) → (i < 3)%nat →
    carried reply_vec reply_of response) as Hcarried.
  { intros i response Hi Hlt. assert (reply_of (reply_vec response) = Some response) as Hc.
    - destruct i as [|[|[|i]]]; [| | |lia]; unfold reply_of; revert Hi; vm_compute; by intros [= <-].
    - split; [exact Hc|]. by destruct response; apply Z.leb_le. }
  apply Forall_lookup_2. intros i reply Hi response ->. apply (Hcarried i response Hi).
  apply lookup_lt_Some in Hi. by apply (Nat.lt_le_trans _ _ _ Hi), Nat.leb_le.
Qed.

Lemma remote_agent_as_local_witness :
  ∃ client server c,
    ends_in (mkDuplex (establish_initiator (H := ToyHandshake) toy_sha256 1 (Some "right")) [] []
               (establish_responder (H := ToyHandshake) toy_sha256 2 (Some "right")))
      (mkDuplex (Done (Ok client)) [] [] (Done (Ok server)))
    ∧ remote_up (λ _, []) hail_of client server 0%nat agent0 = Ok c
    ∧ (calls (AgentClient0 := RemoteAgentClient describe_box asked_vec asked_of reply_vec reply_of) c asked).2 = in_process
    ∧ (rm_host (calls (AgentClient0 := RemoteAgentClient describe_box asked_vec asked_of reply_vec reply_of) c asked).1,
       rm_agent (calls (AgentClient0 := RemoteAgentClient describe_box asked_vec asked_of reply_vec reply_of) c asked).1)
      = (calls (0%nat, agent0) asked).1.
Proof.
  apply (remote_agent_as_local describe_box (λ _, []) hail_of asked_vec asked_of reply_vec reply_of toy_sha256
           toy_sha256_length 1 2 1 2 (Some "right") 0%nat agent0 asked).
  - reflexivity.
  - reflexivity.
  - split; [reflexivity|by apply Z.leb_le].
  - exact asked_fits.
  - exact replies_fit.
Defined.

(** ** A container across connections *)

(** A host that records the commands its container engine was given. *)
#[local] Instance recording_host : Host (list (list string)) := {|
  child := unit; group := unit;
  try_wait w _ := (w, Ok None);
  wait w _ := (w, Ok ());
  kill w _ := (w, Ok ());
  open_log w _ := (w, Ok ());
  clone_log w _ := (w, Ok ());
  create_group w _ _ _ := (w, Ok ());
  group_kill w _ := (w, Ok ());
  group_destroy w _ := (w, Ok ());
  group_drain w _ _ := w;
  filter_devices w _ _ := (w, Ok ());
  spawn_in_group w _ _ := (w, Ok ());
  spawn w _ := (w, Ok ());
  engine w _ args := (w ++ [args], Ok (Execution.mkOutput true "" ""));
  read_log _ _ := "";
  create_probe w _ _ := (w, Ok ());
  probe_spawn w _ := (w, Ok ());
  probe_filter w _ := (w, Ok ());
  affinity w := (w, (mkCpuList [0%N], mkCpuList [0%N]));
|}.

Definition bare : Readings :=
  mkReadings (λ _, None) (λ _, true) (λ _, None) (λ _, None) None (λ _, false) (λ _, None) (λ _ _, RanNotFound)
    None "/tmp" None None.

Definition box (_ : list (list string)) : result string MachineDescription :=
  Ok (mkMachine "agent-1" "box" 1 4096 [] []).

Definition start_container (lease : LeaseId) : AgentRequest :=
  StartExecution lease 1 1 ["serve"] (mkLimits 0 0 no_placement) "nginx" [] [] 5 [].

(** The controller starts a container, loses the connection, comes back and
    asks for the stop: it is confirmed, and the engine was told only to run. *)
Definition two_connections : list (list string) * list (option Greeting * list AgentResponse) :=
  dial_in box bare 7 None "agent-1" None []
    [Established true 1 0 [(start_container 100, true)];
     Established true 2 1 [(Status 100, true); (StopExecution 100 2 1, true)]].

Example container_outlives_its_agent :
  snd <$> two_connections.2 = [[ExecutionStarted 100]; [Running 100 false None; ExecutionStopped 100]]
  ∧ (default "" ∘ head) <$> two_connections.1 = ["run"].
Proof. split; evaluate. Qed.
