(* ===== verification/Cli.v ===== *)
(** * The command line (crates/cli/src/main.rs)

    What the binary decides before any socket is opened: the role, its
    options, the client's request, the token, the agent's identity; and what
    it prints.  Errors are the process exit. *)

From S2P Require Import Prelude Identifier Text Types Discover Select Server Links.
From Stdlib Require Import Ascii.

(** ** Exits *)

(** Exit status and what was written to stderr. *)
Record Exit := mkExit { exit_status : N; exit_stderr : string }.

Definition cli_fail {A} (message : string) : result Exit A := Err (mkExit 1 ("archon: " +:+ message)).

Definition USAGE : string :=
"usage:
  archon serve --listen ADDR --log FILE [--remote ADDR | --no-local] [--cgroup-root PATH]
  archon agent --listen ADDR | --register ADDR [--cgroup-root PATH]
  archon -c ADDR submit [--owner N] [--cpus N] [--mem-mib N] [--lifetime SECS] -- CMD...
  archon -c ADDR service --id NAME [--replicas N | --min N --target N --max N | --per-machine] [--owner N] [--cpus N] [--mem-mib N] -- CMD...
  archon -c ADDR scale --id NAME --target N
  archon -c ADDR status | logs LEASE
  archon -c ADDR revoke LEASE".

Definition usage {A} : result Exit A := Err (mkExit 2 USAGE).
Definition complain {A} (message : string) : result Exit A := Err (mkExit 2 message).

(** ** Numbers *)

Definition INVALID_DIGIT : string := "invalid digit found in string".
Definition TOO_LARGE : string := "number too large to fit in target type".
Definition EMPTY_NUMBER : string := "cannot parse integer from empty string".

(** [str::parse] of an unsigned type, with its error. *)
Fixpoint parse_int_loop (max acc : N) (s : string) : result string N :=
  match s with
  | "" => Ok acc
  | String c s =>
      if is_ascii_digit c then
        let acc := acc * 10 + (Ascii.N_of_ascii c - 48) in
        if acc <=? max then parse_int_loop max acc s else Err TOO_LARGE
      else Err INVALID_DIGIT
  end.

Definition parse_int (max : N) (s : string) : result string N :=
  if bool_decide (s = "") then Err EMPTY_NUMBER
  else if bool_decide (strip_plus s = "") then Err INVALID_DIGIT
  else parse_int_loop max 0 (strip_plus s).

Definition parse_flag (max : N) (value flag : string) : result Exit N :=
  match parse_int max value with
  | Ok n => Ok n
  | Err err => cli_fail ("invalid value for " +:+ flag +:+ ": '" +:+ value +:+ "' (" +:+ err +:+ ")")
  end.

(** ** The client's flags *)

(** The locals of [submit_request], [service_request] and [scale_request]. *)
Record Flags := mkFlags {
  fl_id : option string;
  fl_owner : u64;
  fl_desired : N;
  fl_min : option N;
  fl_max : option N;
  fl_per_machine : bool;
  fl_keep_alive : bool;
  fl_cpus : u64;
  fl_mem_mib : u64;
  fl_lifetime : u64;
  fl_volumes : list string;
  fl_ports : list string;
  fl_grace_secs : N;
  fl_image : option string;
  fl_gpus : u64;
}.

Definition set_fl_id (v : option string) (f : Flags) : Flags :=
  mkFlags v (fl_owner f) (fl_desired f) (fl_min f) (fl_max f) (fl_per_machine f) (fl_keep_alive f) (fl_cpus f) (fl_mem_mib f) (fl_lifetime f) (fl_volumes f) (fl_ports f) (fl_grace_secs f) (fl_image f) (fl_gpus f).
Definition set_fl_owner (v : u64) (f : Flags) : Flags :=
  mkFlags (fl_id f) v (fl_desired f) (fl_min f) (fl_max f) (fl_per_machine f) (fl_keep_alive f) (fl_cpus f) (fl_mem_mib f) (fl_lifetime f) (fl_volumes f) (fl_ports f) (fl_grace_secs f) (fl_image f) (fl_gpus f).
Definition set_fl_desired (v : N) (f : Flags) : Flags :=
  mkFlags (fl_id f) (fl_owner f) v (fl_min f) (fl_max f) (fl_per_machine f) (fl_keep_alive f) (fl_cpus f) (fl_mem_mib f) (fl_lifetime f) (fl_volumes f) (fl_ports f) (fl_grace_secs f) (fl_image f) (fl_gpus f).
Definition set_fl_min (v : option N) (f : Flags) : Flags :=
  mkFlags (fl_id f) (fl_owner f) (fl_desired f) v (fl_max f) (fl_per_machine f) (fl_keep_alive f) (fl_cpus f) (fl_mem_mib f) (fl_lifetime f) (fl_volumes f) (fl_ports f) (fl_grace_secs f) (fl_image f) (fl_gpus f).
Definition set_fl_max (v : option N) (f : Flags) : Flags :=
  mkFlags (fl_id f) (fl_owner f) (fl_desired f) (fl_min f) v (fl_per_machine f) (fl_keep_alive f) (fl_cpus f) (fl_mem_mib f) (fl_lifetime f) (fl_volumes f) (fl_ports f) (fl_grace_secs f) (fl_image f) (fl_gpus f).
Definition set_fl_per_machine (v : bool) (f : Flags) : Flags :=
  mkFlags (fl_id f) (fl_owner f) (fl_desired f) (fl_min f) (fl_max f) v (fl_keep_alive f) (fl_cpus f) (fl_mem_mib f) (fl_lifetime f) (fl_volumes f) (fl_ports f) (fl_grace_secs f) (fl_image f) (fl_gpus f).
Definition set_fl_keep_alive (v : bool) (f : Flags) : Flags :=
  mkFlags (fl_id f) (fl_owner f) (fl_desired f) (fl_min f) (fl_max f) (fl_per_machine f) v (fl_cpus f) (fl_mem_mib f) (fl_lifetime f) (fl_volumes f) (fl_ports f) (fl_grace_secs f) (fl_image f) (fl_gpus f).
Definition set_fl_cpus (v : u64) (f : Flags) : Flags :=
  mkFlags (fl_id f) (fl_owner f) (fl_desired f) (fl_min f) (fl_max f) (fl_per_machine f) (fl_keep_alive f) v (fl_mem_mib f) (fl_lifetime f) (fl_volumes f) (fl_ports f) (fl_grace_secs f) (fl_image f) (fl_gpus f).
Definition set_fl_mem_mib (v : u64) (f : Flags) : Flags :=
  mkFlags (fl_id f) (fl_owner f) (fl_desired f) (fl_min f) (fl_max f) (fl_per_machine f) (fl_keep_alive f) (fl_cpus f) v (fl_lifetime f) (fl_volumes f) (fl_ports f) (fl_grace_secs f) (fl_image f) (fl_gpus f).
Definition set_fl_lifetime (v : u64) (f : Flags) : Flags :=
  mkFlags (fl_id f) (fl_owner f) (fl_desired f) (fl_min f) (fl_max f) (fl_per_machine f) (fl_keep_alive f) (fl_cpus f) (fl_mem_mib f) v (fl_volumes f) (fl_ports f) (fl_grace_secs f) (fl_image f) (fl_gpus f).
Definition set_fl_volumes (v : list string) (f : Flags) : Flags :=
  mkFlags (fl_id f) (fl_owner f) (fl_desired f) (fl_min f) (fl_max f) (fl_per_machine f) (fl_keep_alive f) (fl_cpus f) (fl_mem_mib f) (fl_lifetime f) v (fl_ports f) (fl_grace_secs f) (fl_image f) (fl_gpus f).
Definition set_fl_ports (v : list string) (f : Flags) : Flags :=
  mkFlags (fl_id f) (fl_owner f) (fl_desired f) (fl_min f) (fl_max f) (fl_per_machine f) (fl_keep_alive f) (fl_cpus f) (fl_mem_mib f) (fl_lifetime f) (fl_volumes f) v (fl_grace_secs f) (fl_image f) (fl_gpus f).
Definition set_fl_grace_secs (v : N) (f : Flags) : Flags :=
  mkFlags (fl_id f) (fl_owner f) (fl_desired f) (fl_min f) (fl_max f) (fl_per_machine f) (fl_keep_alive f) (fl_cpus f) (fl_mem_mib f) (fl_lifetime f) (fl_volumes f) (fl_ports f) v (fl_image f) (fl_gpus f).
Definition set_fl_image (v : option string) (f : Flags) : Flags :=
  mkFlags (fl_id f) (fl_owner f) (fl_desired f) (fl_min f) (fl_max f) (fl_per_machine f) (fl_keep_alive f) (fl_cpus f) (fl_mem_mib f) (fl_lifetime f) (fl_volumes f) (fl_ports f) (fl_grace_secs f) v (fl_gpus f).
Definition set_fl_gpus (v : u64) (f : Flags) : Flags :=
  mkFlags (fl_id f) (fl_owner f) (fl_desired f) (fl_min f) (fl_max f) (fl_per_machine f) (fl_keep_alive f) (fl_cpus f) (fl_mem_mib f) (fl_lifetime f) (fl_volumes f) (fl_ports f) (fl_grace_secs f) (fl_image f) v.

Definition is_flag (s : string) : bool := String.prefix "--" s && negb (bool_decide (s = "--")).

(** A flag that stands alone, or one that takes the next argument. *)
Inductive FlagStep := Alone (f : Flags) | Takes (f : result Exit Flags).

(** The loop over the flags in front; what is left of the arguments. *)
Fixpoint flag_loop (step : string → string → Flags → FlagStep) (f : Flags) (rest : list string)
    : result Exit (Flags * list string) :=
  match rest with
  | [] => Ok (f, [])
  | flag :: more =>
      if is_flag flag then
        match more with
        | [] => cli_fail ("flag " +:+ flag +:+ " needs a value")
        | value :: tail =>
            match step flag value f with
            | Alone f => flag_loop step f more
            | Takes f => f ← f; flag_loop step f tail
            end
        end
      else Ok (f, rest)
  end.

Definition takes (max : N) (set : N → Flags → Flags) (value flag : string) (f : Flags) : FlagStep :=
  Takes (n ← parse_flag max value flag; Ok (set n f)).

Abbreviation named flag name := (bool_decide (flag = name%string)).

(** The flags both submissions know. *)
Definition workload_flag (flag value : string) (f : Flags) : FlagStep :=
  if named flag "--owner" then takes u64_max set_fl_owner value flag f
  else if named flag "--cpus" then takes u64_max set_fl_cpus value flag f
  else if named flag "--mem-mib" then takes u64_max set_fl_mem_mib value flag f
  else if named flag "--lifetime" then takes u64_max set_fl_lifetime value flag f
  else if named flag "--grace-secs" then takes u32_max set_fl_grace_secs value flag f
  else if named flag "--image" then Takes (Ok (set_fl_image (Some value) f))
  else if named flag "--volume" then Takes (Ok (set_fl_volumes (fl_volumes f ++ [value]) f))
  else if named flag "--publish" then Takes (Ok (set_fl_ports (fl_ports f ++ [value]) f))
  else Takes (complain ("unknown flag " +:+ flag)).

Definition submit_flag (flag value : string) (f : Flags) : FlagStep :=
  if named flag "--keep-alive" then Alone (set_fl_keep_alive true f)
  else if named flag "--gpu" then takes u64_max set_fl_gpus value flag f
  else workload_flag flag value f.

Definition service_flag (flag value : string) (f : Flags) : FlagStep :=
  if named flag "--id" then Takes (Ok (set_fl_id (Some value) f))
  else if named flag "--replicas" || named flag "--target" then takes u32_max set_fl_desired value flag f
  else if named flag "--min" then takes u32_max (set_fl_min ∘ Some) value flag f
  else if named flag "--max" then takes u32_max (set_fl_max ∘ Some) value flag f
  else if named flag "--per-machine" then Alone (set_fl_per_machine true f)
  else workload_flag flag value f.

Definition scale_flag (flag value : string) (f : Flags) : FlagStep :=
  if named flag "--id" then Takes (Ok (set_fl_id (Some value) f))
  else if named flag "--target" then takes u32_max set_fl_desired value flag f
  else Takes (complain ("unknown flag " +:+ flag)).

Definition default_flags (lifetime : u64) : Flags :=
  mkFlags None 1 1 None None false false 1 0 lifetime [] [] 0 None 0.

(** The workload's command is what follows [--]. *)
Definition split_command (what : string) (rest : list string) : result Exit (list string) :=
  match rest with
  | sep :: command => if named sep "--" then Ok command else complain (what +:+ " needs `-- CMD...`")
  | [] => complain (what +:+ " needs `-- CMD...`")
  end.

Definition submit_request (args : list string) : result Exit ClientRequest :=
  '(f, rest) ← flag_loop submit_flag (default_flags 60) args;
  command ← split_command "submit" rest;
  Ok (CrSubmit (fl_owner f) (fl_cpus f) (fl_mem_mib f) (fl_lifetime f) command (fl_keep_alive f)
        (fl_volumes f) (fl_ports f) (fl_grace_secs f) (fl_image f) (fl_gpus f)).

Definition service_request (args : list string) : result Exit ClientRequest :=
  '(f, rest) ← flag_loop service_flag (default_flags 3600) args;
  id ← ok_or (fl_id f) (mkExit 2 "service needs --id NAME");
  command ← split_command "service" rest;
  Ok (CrSubmitService id (fl_owner f) (fl_desired f) (fl_max f) (fl_min f) (fl_per_machine f)
        (fl_cpus f) (fl_mem_mib f) (fl_lifetime f) command (fl_volumes f) (fl_ports f)
        (fl_grace_secs f) (fl_image f)).

(** Arguments after the flags are ignored. *)
Definition scale_request (args : list string) : result Exit ClientRequest :=
  '(f, _) ← flag_loop scale_flag (default_flags 0) args;
  id ← ok_or (fl_id f) (mkExit 2 "scale needs --id NAME");
  Ok (CrScaleService id (fl_desired f)).

Definition lease_argument (rest : list string) : result Exit u64 :=
  match rest with
  | value :: _ => parse_flag u64_max value "lease id"
  | [] => cli_fail "lease id required (archon -c ADDR revoke|logs LEASE)"
  end.

(** The request of [client]; [verb] is the first argument. *)
Definition client_request (verb : string) (rest : list string) : result Exit ClientRequest :=
  if named verb "submit" then submit_request rest
  else if named verb "service" then service_request rest
  else if named verb "scale" then scale_request rest
  else if named verb "status" then Ok CrStatus
  else if named verb "revoke" then lease ← lease_argument rest; Ok (CrRevoke lease)
  else if named verb "logs" then lease ← lease_argument rest; Ok (CrLogs lease)
  else usage.

(** ** The surroundings *)

(** The environment variables, files, and the random source the roles use. *)
Record Surroundings := mkSurroundings {
  env_token : option string;
  env_cgroup_root : option string;
  env_state_home : option string;
  env_home : option string;
  (** contents, or the error's text *)
  read_file : string → result string string;
  (** eight bytes of /dev/urandom as a number *)
  urandom : option u64;
  (** nanoseconds of the clock xor the process id *)
  clock_xor_pid : u64;
  create_dir_all : string → result string unit;
  write_file : string → string → result string unit;
}.

Section surroundings.
Context (sur : Surroundings).

(** [ARCHON_TOKEN], unless it is empty. *)
Definition environment_token : option string :=
  match env_token sur with
  | Some t => if named t "" then None else Some t
  | None => None
  end.

Definition load_token (token_file : option string) : result Exit (option string) :=
  match token_file with
  | Some path =>
      match read_file sur path with
      | Ok content => Ok (Some (trim content))
      | Err err => complain ("archon: cannot read token file " +:+ path +:+ ": " +:+ err)
      end
  | None => Ok environment_token
  end.

Definition state_directory : option string :=
  match env_state_home sur with
  | Some state => Some state
  | None => (λ home, join_path home ".local/state") <$> env_home sur
  end.

(** [{:016x}] *)
Definition hex_char (d : N) : Ascii.ascii :=
  Ascii.ascii_of_N (if d <? 10 then 48 + d else 87 + d).
Fixpoint hex_digits (width : nat) (n : N) (acc : string) : string :=
  match width with
  | O => acc
  | S width => hex_digits width (n / 16) (String (hex_char (n mod 16)) acc)
  end.
Definition hex16 (n : u64) : string := hex_digits 16 n "".

(** A fresh id, persisted at [path] (in directory [parent]). *)
Definition fresh_instance_id (path parent : string) : result Exit string :=
  let id := match urandom sur with Some n => hex16 n | None => hex16 (clock_xor_pid sur) end in
  match create_dir_all sur parent with
  | Err err => cli_fail ("cannot create state directory " +:+ parent +:+ ": " +:+ err)
  | Ok _ =>
      match write_file sur path id with
      | Err err => cli_fail ("cannot persist agent id to " +:+ path +:+ ": " +:+ err)
      | Ok _ => Ok id
      end
  end.

Definition load_instance_id (id : option string) : result Exit string :=
  match id with
  | Some id => Ok id
  | None =>
      match state_directory with
      | None => complain "archon: no state directory for the agent id; pass --id"
      | Some state =>
          let path := join_path state "archon/agent-id" in
          let existing := match read_file sur path with Ok text => trim text | Err _ => "" end in
          if negb (named existing "") then Ok existing
          else fresh_instance_id path (join_path state "archon")
      end
  end.

(** ** Roles *)

Record ServeOptions := mkServe {
  so_listen : option string; so_log : option string; so_remote : option string; so_no_local : bool;
  so_token_file : option string; so_probe_secs : u64; so_compact_every : u64; so_cgroup_root : option string;
}.

Definition serve_option (flag value : string) (o : ServeOptions) : result Exit ServeOptions :=
  let '(mkServe listen log remote no_local token_file probe compact cgroup) := o in
  if named flag "--listen" then Ok (mkServe (Some value) log remote no_local token_file probe compact cgroup)
  else if named flag "--log" then Ok (mkServe listen (Some value) remote no_local token_file probe compact cgroup)
  else if named flag "--remote" then Ok (mkServe listen log (Some value) no_local token_file probe compact cgroup)
  else if named flag "--token-file" then Ok (mkServe listen log remote no_local (Some value) probe compact cgroup)
  else if named flag "--probe-secs" then
    probe ← parse_flag u64_max value "--probe-secs";
    Ok (mkServe listen log remote no_local token_file probe compact cgroup)
  else if named flag "--compact-every" then
    compact ← parse_flag u64_max value "--compact-every";
    Ok (mkServe listen log remote no_local token_file probe compact cgroup)
  else if named flag "--cgroup-root" then
    Ok (mkServe listen log remote no_local token_file probe compact (Some value))
  else usage.

Definition set_no_local (o : ServeOptions) : ServeOptions :=
  mkServe (so_listen o) (so_log o) (so_remote o) true (so_token_file o) (so_probe_secs o)
    (so_compact_every o) (so_cgroup_root o).

Fixpoint serve_options (o : ServeOptions) (args : list string) : result Exit ServeOptions :=
  match args with
  | [] => Ok o
  | flag :: more =>
      if named flag "--no-local" then serve_options (set_no_local o) more
      else match more with
           | [] => usage
           | value :: tail => o ← serve_option flag value o; serve_options o tail
           end
  end.

(** What [serve] starts: the link to agents, the token of every link, and
    what it says about it. *)
Record ServePlan := mkServePlan {
  sv_listen : string; sv_log : string; sv_link : AgentLink; sv_token : option string;
  sv_probe_secs : u64; sv_compact_every : u64; sv_says : string;
}.

Definition AUTH_ENABLED : string := "archon: link auth enabled".
Definition AUTH_WARNING : string := "archon: warning: no auth token configured; links are open".

Definition agent_link (o : ServeOptions) (token : option string) : AgentLink :=
  match so_remote o with
  | Some addr => LinkRemote addr token
  | None => if so_no_local o then LinkNone else LinkLocal (so_cgroup_root o)
  end.

Definition serve (args : list string) : result Exit ServePlan :=
  o ← serve_options (mkServe None None None false None 5 10000 (env_cgroup_root sur)) args;
  match so_listen o, so_log o with
  | Some listen, Some log =>
      token ← load_token (so_token_file o);
      Ok (mkServePlan listen log (agent_link o token) token (so_probe_secs o) (so_compact_every o)
            (match token with Some _ => AUTH_ENABLED | None => AUTH_WARNING end))
  | _, _ => usage
  end.

Record AgentOptions := mkAgentOptions {
  ao_listen : option string; ao_register : option string; ao_name : option string;
  ao_id : option string; ao_token_file : option string; ao_cgroup_root : option string;
}.

Definition agent_option (flag value : string) (o : AgentOptions) : result Exit AgentOptions :=
  let '(mkAgentOptions listen register name id token_file cgroup) := o in
  if named flag "--listen" then Ok (mkAgentOptions (Some value) register name id token_file cgroup)
  else if named flag "--register" then Ok (mkAgentOptions listen (Some value) name id token_file cgroup)
  else if named flag "--name" then Ok (mkAgentOptions listen register (Some value) id token_file cgroup)
  else if named flag "--id" then Ok (mkAgentOptions listen register name (Some value) token_file cgroup)
  else if named flag "--token-file" then Ok (mkAgentOptions listen register name id (Some value) cgroup)
  else if named flag "--cgroup-root" then Ok (mkAgentOptions listen register name id token_file (Some value))
  else usage.

Fixpoint agent_options (o : AgentOptions) (args : list string) : result Exit AgentOptions :=
  match args with
  | [] => Ok o
  | flag :: more =>
      match more with
      | [] => usage
      | value :: tail => o ← agent_option flag value o; agent_options o tail
      end
  end.

(** An agent dials the control plane, or listens for it. *)
Inductive AgentPlan :=
| DialIn (addr instance_id : string) (name token cgroup_root : option string)
| Listen (addr instance_id : string) (name token cgroup_root : option string) (warns : bool).

Definition agent (args : list string) : result Exit AgentPlan :=
  o ← agent_options (mkAgentOptions None None None None None (env_cgroup_root sur)) args;
  match ao_register o, ao_listen o with
  | Some addr, _ =>
      token ← load_token (ao_token_file o);
      id ← load_instance_id (ao_id o);
      Ok (DialIn addr id (ao_name o) token (ao_cgroup_root o))
  | None, Some listen =>
      id ← load_instance_id (ao_id o);
      token ← load_token (ao_token_file o);
      Ok (Listen listen id (ao_name o) token (ao_cgroup_root o) (bool_decide (token = None)))
  | None, None => usage
  end.

(** ** main *)

(** [-c ADDR] is taken out of the arguments up to [--]. *)
Fixpoint extract_connect (connect : option string) (args : list string)
    : result Exit (list string * option string) :=
  match args with
  | [] => Ok ([], connect)
  | arg :: rest =>
      if named arg "--" then Ok (args, connect)
      else if named arg "-c" then
        match rest with
        | [] => cli_fail "-c requires an address"
        | addr :: rest => extract_connect (Some addr) rest
        end
      else '(rest, connect) ← extract_connect connect rest; Ok (arg :: rest, connect)
  end.

Inductive Invocation :=
| RunServe (plan : ServePlan)
| RunAgent (plan : AgentPlan)
| RunClient (addr : string) (token : option string) (request : ClientRequest).

(** The token of a client is only in its environment.  [reach] is the
    connection with its handshake and greeting: the text of its error. *)
Definition client (reach : string → option string → result string unit) (connect : option string)
    (verb : string) (rest : list string) : result Exit Invocation :=
  match connect with
  | None => usage
  | Some addr =>
      match reach addr environment_token with
      | Err err => cli_fail err
      | Ok _ => request ← client_request verb rest; Ok (RunClient addr environment_token request)
      end
  end.

Definition verbs : list string := ["submit"; "service"; "scale"; "status"; "revoke"; "logs"].

Definition main (reach : string → option string → result string unit) (args : list string)
    : result Exit Invocation :=
  '(args, connect) ← extract_connect None args;
  match args with
  | [] => usage
  | verb :: rest =>
      if named verb "serve" then plan ← serve rest; Ok (RunServe plan)
      else if named verb "agent" then plan ← agent rest; Ok (RunAgent plan)
      else if bool_decide (verb ∈ verbs) then client reach connect verb rest
      else usage
  end.
End surroundings.

(** ** Printing *)

(** Standard output, standard error, exit status. *)
Record Output := mkOutput { o_stdout : string; o_stderr : string; o_status : N }.

Definition line (s : string) : string := s +:+ String (Ascii.ascii_of_N 10) "".
Definition prints (s : string) : Output := mkOutput s "" 0.

Definition lease_line (l : LeaseInfo) : string :=
  line ("lease " +:+ pretty (li_id l) +:+ " owner=" +:+ pretty (li_owner l) +:+ " state=" +:+ li_state l
        +:+ (match li_exit_code l with Some code => " exit=" +:+ pretty code | None => "" end)
        +:+ " [" +:+ join " " (li_command l) +:+ "]").

Definition print_response (response : ServerResponse) : Output :=
  match response with
  | SrSubmitted request lease =>
      if lease =? 0 then prints (line ("queued request " +:+ pretty request +:+ " (nothing admitted yet)"))
      else prints (line ("request " +:+ pretty request +:+ " admitted as lease " +:+ pretty lease))
  | SrServiceRegistered id desired =>
      prints (line ("service " +:+ id +:+ " registered, desired " +:+ pretty desired
                    +:+ " members; reconciliation runs with maintenance"))
  | SrScaled id target =>
      prints (line ("service " +:+ id +:+ " scaled to target " +:+ pretty target
                    +:+ "; reconciliation applies it"))
  | SrStatus queue_len leases =>
      prints (line ("queue: " +:+ pretty queue_len)
              +:+ (match leases with [] => line "no leases" | _ => "" end)
              +:+ join "" (lease_line <$> leases))
  | SrRevoked => prints (line "revoked")
  | SrLogs _ output => prints output
  | SrError reason => mkOutput "" (line ("error: " +:+ reason)) 1
  end.
