(* ===== verification/CliFacts.v ===== *)
(** * What the command line sends

    Every wire request can be asked for, and the workload's command is passed
    on untouched; numbers are those typed; the agent keeps its identity;
    and an empty token file opens the links it is meant to secure. *)

From S2P Require Import Prelude Identifier Text Types Protocol Transport Discover Select Server Links Cli.
From Stdlib Require Import Ascii.

(** ** Numbers *)

Lemma parse_digits_ge acc s n : parse_digits acc s = Some n → acc ≤ n.
Proof.
  revert acc. induction s as [|c s IH]; intros acc; simpl; [intros [= <-]; lia|].
  destruct (is_ascii_digit c); [|done]. intros Hn%IH. lia.
Qed.

(** Stopping at the first overflow is testing the final value. *)
Lemma parse_int_loop_digits max acc s n :
  acc ≤ max → parse_int_loop max acc s = Ok n ↔ parse_digits acc s = Some n ∧ n ≤ max.
Proof.
  revert acc. induction s as [|c s IH]; intros acc Hacc; simpl.
  - split; [intros [= <-]; done|intros [[= <-] _]; done].
  - destruct (is_ascii_digit c); [|split; [done|intros [? _]; done]].
    destruct (N.leb_spec (acc * 10 + (N_of_ascii c - 48)) max) as [Hle|Hgt]; [by apply IH|].
    split; [done|]. intros [Hp%parse_digits_ge Hn]. lia.
Qed.

Lemma parse_int_uint max s n : parse_int max s = Ok n ↔ parse_uint max s = Some n.
Proof.
  unfold parse_int, parse_uint. cbv zeta. destruct (bool_decide_reflect (s = "")) as [->|Hs]; [done|].
  destruct (bool_decide_reflect (strip_plus s = "")) as [Hp|Hp]; [done|].
  rewrite parse_int_loop_digits by lia. destruct (parse_digits 0 (strip_plus s)) as [m|]; simpl;
    [|by split; [intros [? _]|]].
  destruct (N.leb_spec m max); naive_solver lia.
Qed.

Lemma parse_flag_ok max value flag n : parse_flag max value flag = Ok n ↔ parse_uint max value = Some n.
Proof.
  rewrite <-parse_int_uint. unfold parse_flag. destruct (parse_int max value) as [m|e]; [|split; intros [=]]. cbn. split; intros [= <-]; done.
Qed.

Lemma parse_flag_le max value flag n : parse_flag max value flag = Ok n → n ≤ max.
Proof.
  rewrite parse_flag_ok. unfold parse_uint. cbv zeta. case_bool_decide; [done|].
  destruct (parse_digits _ _) as [m|]; [|done]. simpl. by destruct (N.leb_spec m max); [intros [= <-]|].
Qed.

Lemma parse_flag_pretty max n flag : n ≤ max → parse_flag max (pretty n) flag = Ok n.
Proof. intros Hn. by apply parse_flag_ok, parse_uint_pretty. Qed.

(** ** Wire types *)

Definition fits64 (n : N) : bool := n <=? u64_max.
Definition fits32 (n : N) : bool := n <=? u32_max.

(** Every number is one of its type. *)
Definition request_typed (r : ClientRequest) : bool :=
  match r with
  | CrSubmit owner cpus mem lifetime _ _ _ _ grace _ gpus =>
      forallb fits64 [owner; cpus; mem; lifetime; gpus] && fits32 grace
  | CrSubmitService _ owner desired max min _ cpus mem lifetime _ _ _ grace _ =>
      forallb fits64 [owner; cpus; mem; lifetime]
      && (fits32 desired && fits32 grace && from_option fits32 true max && from_option fits32 true min)
  | CrScaleService _ target => fits32 target
  | CrStatus => true
  | CrRevoke lease | CrLogs lease => fits64 lease
  end.

(** ** Numbers as typed *)

(** The number a row of decimal digits denotes, by the weight of each digit. *)
Fixpoint decimal_value (digits : string) : N :=
  match digits with
  | "" => 0
  | String c digits => (N_of_ascii c - 48) * 10 ^ N.of_nat (String.length digits) + decimal_value digits
  end.

(** [text] is the number [n], written in decimal digits, with a plus or without. *)
Definition typed_as (text : string) (n : N) : Prop :=
  ∃ digits, (text = digits ∨ text = "+" +:+ digits) ∧ digits ≠ ""
    ∧ all_chars is_ascii_digit digits = true ∧ n = decimal_value digits.

Lemma parse_digits_value acc s n :
  parse_digits acc s = Some n ↔
  all_chars is_ascii_digit s = true ∧ n = acc * 10 ^ N.of_nat (String.length s) + decimal_value s.
Proof.
  revert acc. induction s as [|c s IH]; intros acc.
  { cbn. rewrite N.mul_1_r, N.add_0_r. split; [by intros [= <-]|by intros [_ ->]]. }
  cbn [parse_digits all_chars decimal_value String.length].
  destruct (is_ascii_digit c); cbn [andb]; [|split; [done|by intros [? _]]]. rewrite IH, Nat2N.inj_succ, N.pow_succ_r'.
  split; intros [? ->]; (split; [done|lia]).
Qed.

Lemma parse_uint_typed max text n : parse_uint max text = Some n → typed_as text n ∧ n ≤ max.
Proof.
  unfold parse_uint. cbv zeta. destruct (bool_decide_reflect (strip_plus text = "")) as [|Hne]; [done|].
  destruct (parse_digits 0 (strip_plus text)) as [m|] eqn:Hp; [|done]. cbn.
  destruct (N.leb_spec m max); [|done]. intros [= <-]. apply parse_digits_value in Hp as [Hd Hm].
  rewrite N.mul_0_l, N.add_0_l in Hm. split; [|done]. exists (strip_plus text). split_and!; try done.
  destruct text as [|c text]; [done|]. cbn [strip_plus]. destruct (Ascii.eqb_spec c "+") as [->|]; [by right|by left].
Qed.

(** The flags in front of the other arguments, with the text after each that
    takes one. *)
Fixpoint flag_values (alone : list string) (args : list string) : list (string * string) :=
  match args with
  | flag :: more =>
      if is_flag flag then
        match more with
        | [] => []
        | text :: tail => if decide (flag ∈ alone) then flag_values alone more
                          else (flag, text) :: flag_values alone tail
        end
      else []
  | [] => []
  end.

(** The text after the last of the flags [names]. *)
Fixpoint last_text (names : list string) (values : list (string * string)) : option string :=
  match values with
  | [] => None
  | (flag, text) :: values =>
      match last_text names values with
      | Some text => Some text
      | None => if decide (flag ∈ names) then Some text else None
      end
  end.

(** A field is the number typed last for it, or its default. *)
Definition reads (names : list string) (values : list (string * string)) (default field : option N) : Prop :=
  match last_text names values with
  | Some text => ∃ n, field = Some n ∧ typed_as text n
  | None => field = default
  end.

Definition number_flags : list (string * N) :=
  [("--owner", u64_max); ("--cpus", u64_max); ("--mem-mib", u64_max); ("--lifetime", u64_max); ("--gpu", u64_max);
   ("--grace-secs", u32_max); ("--replicas", u32_max); ("--target", u32_max); ("--min", u32_max); ("--max", u32_max)].

(** Every number on the line is one of its flag's type. *)
Definition numbers_fit (values : list (string * string)) : Prop :=
  ∀ flag text max, (flag, text) ∈ values → (flag, max) ∈ number_flags → ∃ n, typed_as text n ∧ n ≤ max.

(** What one turn of the loop does to a field. *)
Definition turn_reads (step : string → string → Flags → FlagStep) (alone names : list string)
    (get : Flags → option N) : Prop :=
  ∀ flag value f,
    match step flag value f with
    | Alone f' => flag ∈ alone ∧ get f' = get f
    | Takes r =>
        (flag ∉ alone) ∧ ∀ f', r = Ok f' →
        if decide (flag ∈ names) then ∃ n, get f' = Some n ∧ typed_as value n else get f' = get f
    end.

Definition turn_fits (step : string → string → Flags → FlagStep) (alone : list string) : Prop :=
  ∀ flag value f,
    match step flag value f with
    | Alone f' => flag ∈ alone
    | Takes r => (flag ∉ alone) ∧ ∀ f' max, r = Ok f' → (flag, max) ∈ number_flags → ∃ n, typed_as value n ∧ n ≤ max
    end.

Lemma loop_reads step alone names get n rest f f' rest' :
  turn_reads step alone names get → (length rest ≤ n)%nat → flag_loop step f rest = Ok (f', rest') →
  reads names (flag_values alone rest) (get f) (get f').
Proof.
  intros Hturn. revert rest f. induction n as [|n IH]; intros [|flag more] f Hlen; cbn [flag_loop flag_values length] in *.
  1, 3: by intros [= <- _].
  { lia. }
  destruct (is_flag flag); [|by intros [= <- _]]. destruct more as [|value tail]; [done|]. cbn [length] in Hlen.
  intros Hrun. specialize (Hturn flag value f). destruct (step flag value f) as [f1|[f1|e]]; [| |done].
  - destruct Hturn as [Hin Hget]. rewrite decide_True, <-Hget by done. eapply IH; [|exact Hrun]. cbn. lia.
  - destruct Hturn as [Hni Hget]. rewrite decide_False by done. specialize (Hget f1 eq_refl).
    cbn [mbind result_bind] in Hrun. assert (reads names (flag_values alone tail) (get f1) (get f')) as Hr
      by (eapply IH; [|exact Hrun]; lia).
    unfold reads in *. cbn [last_text]. destruct (last_text names (flag_values alone tail)) as [text|]; [done|].
    destruct (decide (flag ∈ names)); rewrite Hr; done.
Qed.

Lemma loop_fits step alone n rest f f' rest' :
  turn_fits step alone → (length rest ≤ n)%nat → flag_loop step f rest = Ok (f', rest') →
  numbers_fit (flag_values alone rest).
Proof.
  intros Hturn. revert rest f. induction n as [|n IH]; intros [|flag more] f Hlen; cbn [flag_loop flag_values length] in *.
  1, 3: by intros _ ? ? ? ?%elem_of_nil.
  { lia. }
  destruct (is_flag flag); [|by intros _ ? ? ? ?%elem_of_nil]. destruct more as [|value tail]; [done|]. cbn [length] in Hlen.
  intros Hrun. specialize (Hturn flag value f). destruct (step flag value f) as [f1|[f1|e]]; [| |done].
  - rewrite decide_True by done. eapply IH; [|exact Hrun]. cbn. lia.
  - destruct Hturn as [Hni Hfit]. rewrite decide_False by done. cbn [mbind result_bind] in Hrun.
    assert (numbers_fit (flag_values alone tail)) as Htail by (eapply IH; [|exact Hrun]; lia).
    intros flag' text max [[= -> ->]|Hin]%elem_of_cons; [by apply (Hfit f1)|by apply Htail].
Qed.

Lemma takes_typed max (set : N → Flags → Flags) value flag f f' :
  (n ← parse_flag max value flag; Ok (set n f)) = Ok f' → ∃ n, f' = set n f ∧ typed_as value n ∧ n ≤ max.
Proof.
  destruct (parse_flag max value flag) as [n|e] eqn:Hp; [|done]. intros [= <-].
  apply parse_flag_ok, parse_uint_typed in Hp. by exists n.
Qed.

(** One turn, flag by flag. *)
Ltac computes := apply (bool_decide_unpack _); exact I.
Ltac flag_cases :=
  intros flag value fl; unfold submit_flag, service_flag, scale_flag, workload_flag, takes;
  repeat (case_bool_decide; [subst; cbn [orb]|]); cbn [orb].
Ltac not_alone := first [computes | rewrite list_elem_of_singleton; done | apply not_elem_of_nil].

Ltac turn :=
  flag_cases;
  lazymatch goal with
  | |- _ ∈ _ ∧ _ => split; [computes|reflexivity]
  | |- _ =>
      split; [not_alone|]; intros fl';
      first [ intros (n & -> & Htyped & Hle)%takes_typed | intros [= <-] ];
      lazymatch goal with
      | |- context [decide ?P] =>
          destruct (decide P) as [Hin|Hni];
          first [ reflexivity | eexists; split; [reflexivity|eassumption]
                | exfalso; revert Hin; computes | exfalso; apply Hni; computes ]
      | |- _ => idtac
      end
  end.

Ltac fit :=
  flag_cases;
  lazymatch goal with
  | |- _ ∈ _ => computes
  | |- _ =>
      split; [not_alone|]; intros fl' max;
      first [ intros (n & -> & Htyped & Hle)%takes_typed | intros [= <-] ];
      unfold number_flags; intros Hin;
      repeat (apply elem_of_cons in Hin as [Hin|Hin]; [simplify_eq; by eexists|]); by apply elem_of_nil in Hin
  end.

Lemma submit_fits : turn_fits submit_flag ["--keep-alive"].
Proof. fit. Qed.
Lemma service_fits : turn_fits service_flag ["--per-machine"].
Proof. fit. Qed.
Lemma scale_fits : turn_fits scale_flag [].
Proof. fit. Qed.

(** How each field of a request relates to the arguments after the verb. *)
Definition request_reads (verb : string) (rest : list string) (r : ClientRequest) : Prop :=
  match r with
  | CrSubmit owner cpus mem lifetime _ _ _ _ grace _ gpus =>
      let values := flag_values ["--keep-alive"] rest in
      verb = "submit" ∧ numbers_fit values
      ∧ reads ["--owner"] values (Some 1) (Some owner) ∧ reads ["--cpus"] values (Some 1) (Some cpus)
      ∧ reads ["--mem-mib"] values (Some 0) (Some mem) ∧ reads ["--lifetime"] values (Some 60) (Some lifetime)
      ∧ reads ["--grace-secs"] values (Some 0) (Some grace) ∧ reads ["--gpu"] values (Some 0) (Some gpus)
  | CrSubmitService _ owner desired max min _ cpus mem lifetime _ _ _ grace _ =>
      let values := flag_values ["--per-machine"] rest in
      verb = "service" ∧ numbers_fit values
      ∧ reads ["--owner"] values (Some 1) (Some owner) ∧ reads ["--cpus"] values (Some 1) (Some cpus)
      ∧ reads ["--mem-mib"] values (Some 0) (Some mem) ∧ reads ["--lifetime"] values (Some 3600) (Some lifetime)
      ∧ reads ["--grace-secs"] values (Some 0) (Some grace)
      ∧ reads ["--replicas"; "--target"] values (Some 1) (Some desired)
      ∧ reads ["--min"] values None min ∧ reads ["--max"] values None max
  | CrScaleService _ target =>
      let values := flag_values [] rest in
      verb = "scale" ∧ numbers_fit values ∧ reads ["--target"] values (Some 1) (Some target)
  | CrStatus => verb = "status"
  | CrRevoke lease => verb = "revoke" ∧ ∃ text, head rest = Some text ∧ typed_as text lease ∧ lease ≤ u64_max
  | CrLogs lease => verb = "logs" ∧ ∃ text, head rest = Some text ∧ typed_as text lease ∧ lease ≤ u64_max
  end.

Lemma lease_argument_typed rest lease :
  lease_argument rest = Ok lease → ∃ text, head rest = Some text ∧ typed_as text lease ∧ lease ≤ u64_max.
Proof.
  destruct rest as [|value rest]; [done|]. intros [? ?]%parse_flag_ok%parse_uint_typed. by exists value.
Qed.

Lemma submit_reads rest r : submit_request rest = Ok r → request_reads "submit" rest r.
Proof.
  unfold submit_request. destruct (flag_loop _ _ _) as [[f rest']|] eqn:Hrun; [|done]. cbn.
  destruct (split_command _ _); [|done]. intros [= <-].
  assert (∀ names get, turn_reads submit_flag ["--keep-alive"] names get →
    reads names (flag_values ["--keep-alive"] rest) (get (default_flags 60)) (get f)) as Hread
    by (intros; by eapply loop_reads).
  cbn. split; [done|]. split; [by eapply loop_fits; [apply submit_fits|..]|].
  split_and!; [apply (Hread _ (Some ∘ fl_owner))|apply (Hread _ (Some ∘ fl_cpus))|apply (Hread _ (Some ∘ fl_mem_mib))
    |apply (Hread _ (Some ∘ fl_lifetime))|apply (Hread _ (Some ∘ fl_grace_secs))|apply (Hread _ (Some ∘ fl_gpus))]; turn.
Qed.

Lemma service_reads rest r : service_request rest = Ok r → request_reads "service" rest r.
Proof.
  unfold service_request. destruct (flag_loop _ _ _) as [[f rest']|] eqn:Hrun; [|done]. cbn.
  destruct (fl_id f); [|done]. cbn. destruct (split_command _ _); [|done]. intros [= <-].
  assert (∀ names get, turn_reads service_flag ["--per-machine"] names get →
    reads names (flag_values ["--per-machine"] rest) (get (default_flags 3600)) (get f)) as Hread
    by (intros; by eapply loop_reads).
  cbn. split; [done|]. split; [by eapply loop_fits; [apply service_fits|..]|].
  split_and!; [apply (Hread _ (Some ∘ fl_owner))|apply (Hread _ (Some ∘ fl_cpus))|apply (Hread _ (Some ∘ fl_mem_mib))
    |apply (Hread _ (Some ∘ fl_lifetime))|apply (Hread _ (Some ∘ fl_grace_secs))|apply (Hread _ (Some ∘ fl_desired))
    |apply (Hread _ fl_min)|apply (Hread _ fl_max)]; turn.
Qed.

Lemma scale_reads rest r : scale_request rest = Ok r → request_reads "scale" rest r.
Proof.
  unfold scale_request. destruct (flag_loop _ _ _) as [[f rest']|] eqn:Hrun; [|done]. cbn.
  destruct (fl_id f); [|done]. intros [= <-]. cbn. split; [done|].
  split; [by eapply loop_fits; [apply scale_fits|..]|].
  apply (loop_reads scale_flag [] _ (Some ∘ fl_desired) (length rest) rest (default_flags 0) f rest'); [turn|done..].
Qed.

Lemma client_request_reads verb rest r : client_request verb rest = Ok r → request_reads verb rest r.
Proof.
  unfold client_request. repeat case_bool_decide; subst; try done.
  - apply submit_reads.
  - apply service_reads.
  - apply scale_reads.
  - by intros [= <-].
  - destruct (lease_argument rest) as [lease|] eqn:Hl; [|done]. intros [= <-]. by split; [|apply lease_argument_typed].
  - destruct (lease_argument rest) as [lease|] eqn:Hl; [|done]. intros [= <-]. by split; [|apply lease_argument_typed].
Qed.

(** ** Printing a request as arguments *)

Definition option_arg (flag : string) (value : option string) : list string :=
  from_option (λ v, [flag; v]) [] value.
Definition repeat_arg (flag : string) (values : list string) : list string := v ← values; [flag; v].
Definition bare_arg (flag : string) (b : bool) : list string := if b then [flag] else [].

Definition workload_args (owner cpus mem lifetime grace : N) (image : option string)
    (volumes ports : list string) : list string :=
  ["--owner"; pretty owner; "--cpus"; pretty cpus; "--mem-mib"; pretty mem; "--lifetime"; pretty lifetime;
   "--grace-secs"; pretty grace]
  ++ option_arg "--image" image ++ repeat_arg "--volume" volumes ++ repeat_arg "--publish" ports.

Definition request_args (r : ClientRequest) : list string :=
  match r with
  | CrSubmit owner cpus mem lifetime command keep_alive volumes ports grace image gpus =>
      "submit" :: workload_args owner cpus mem lifetime grace image volumes ports
        ++ bare_arg "--keep-alive" keep_alive ++ ["--gpu"; pretty gpus] ++ "--" :: command
  | CrSubmitService id owner desired max min per_machine cpus mem lifetime command volumes ports grace image =>
      "service" :: workload_args owner cpus mem lifetime grace image volumes ports
        ++ option_arg "--min" (pretty <$> min) ++ option_arg "--max" (pretty <$> max)
        ++ bare_arg "--per-machine" per_machine ++ ["--id"; id; "--target"; pretty desired] ++ "--" :: command
  | CrScaleService id target => ["scale"; "--id"; id; "--target"; pretty target]
  | CrStatus => ["status"]
  | CrRevoke lease => ["revoke"; pretty lease]
  | CrLogs lease => ["logs"; pretty lease]
  end.

(** The texts in front of [--]: [-c] would be taken for the address. *)
Definition request_words (r : ClientRequest) : list string :=
  match r with
  | CrSubmit _ _ _ _ _ _ volumes ports _ image _ => volumes ++ ports ++ option_list image
  | CrSubmitService id _ _ _ _ _ _ _ _ _ volumes ports _ image => id :: volumes ++ ports ++ option_list image
  | CrScaleService id _ => [id]
  | _ => []
  end.

(** ** Parsing it back *)

Lemma loop_takes step f flag value rest f' :
  is_flag flag = true → step flag value f = Takes (Ok f') →
  flag_loop step f (flag :: value :: rest) = flag_loop step f' rest.
Proof. intros Hf Hs. cbn [flag_loop]. by rewrite Hf, Hs. Qed.

Lemma loop_alone step f flag value rest f' :
  is_flag flag = true → step flag value f = Alone f' →
  flag_loop step f (flag :: value :: rest) = flag_loop step f' (value :: rest).
Proof. intros Hf Hs. cbn [flag_loop]. by rewrite Hf, Hs. Qed.

Lemma takes_pretty max set n flag f : n ≤ max → takes max set (pretty n) flag f = Takes (Ok (set n f)).
Proof. intros Hn. unfold takes. by rewrite parse_flag_pretty. Qed.

(** One flag with its value, at the head of the arguments. *)
Ltac loop_flag := erewrite loop_takes; [|done|first [done|refine (takes_pretty _ _ _ _ _ _); assumption]].

Lemma loop_option step f flag set value rest :
  is_flag flag = true → (∀ v, value = Some v → step flag v f = Takes (Ok (set v f))) →
  flag_loop step f (option_arg flag value ++ rest)
  = flag_loop step (match value with Some v => set v f | None => f end) rest.
Proof. intros Hf Hs. destruct value as [v|]; [|done]. cbn [option_arg from_option app]. by apply loop_takes, Hs. Qed.

Lemma loop_repeat step flag set values f rest :
  is_flag flag = true → (∀ v f, step flag v f = Takes (Ok (set v f))) →
  flag_loop step f (repeat_arg flag values ++ rest) = flag_loop step (foldl (λ f v, set v f) f values) rest.
Proof.
  intros Hf Hs. revert f. induction values as [|v values IH]; intros f; [done|].
  cbn [repeat_arg mbind list_bind app foldl]. by rewrite (loop_takes _ _ _ _ _ (set v f)).
Qed.

Lemma foldl_volumes f values :
  foldl (λ f v, set_fl_volumes (fl_volumes f ++ [v]) f) f values = set_fl_volumes (fl_volumes f ++ values) f.
Proof.
  revert f. induction values as [|v values IH]; intros f; cbn [foldl].
  - rewrite app_nil_r. by destruct f.
  - rewrite IH. cbn. by rewrite <-(assoc_L (++)).
Qed.
Lemma foldl_ports f values :
  foldl (λ f v, set_fl_ports (fl_ports f ++ [v]) f) f values = set_fl_ports (fl_ports f ++ values) f.
Proof.
  revert f. induction values as [|v values IH]; intros f; cbn [foldl].
  - rewrite app_nil_r. by destruct f.
  - rewrite IH. cbn. by rewrite <-(assoc_L (++)).
Qed.

(** The flags of a step that knows the workload's. *)
Definition knows_workload (step : string → string → Flags → FlagStep) : Prop :=
  ∀ flag value f,
    flag ∈ ["--owner"; "--cpus"; "--mem-mib"; "--lifetime"; "--grace-secs"; "--image"; "--volume"; "--publish"] →
    step flag value f = workload_flag flag value f.

Definition with_workload (owner cpus mem lifetime grace : N) (image : option string)
    (volumes ports : list string) (f : Flags) : Flags :=
  mkFlags (fl_id f) owner (fl_desired f) (fl_min f) (fl_max f) (fl_per_machine f) (fl_keep_alive f) cpus mem
    lifetime (fl_volumes f ++ volumes) (fl_ports f ++ ports) grace
    (match image with Some i => Some i | None => fl_image f end) (fl_gpus f).

Lemma loop_workload step owner cpus mem lifetime grace image volumes ports f rest :
  knows_workload step → owner ≤ u64_max → cpus ≤ u64_max → mem ≤ u64_max → lifetime ≤ u64_max →
  grace ≤ u32_max →
  flag_loop step f (workload_args owner cpus mem lifetime grace image volumes ports ++ rest)
  = flag_loop step (with_workload owner cpus mem lifetime grace image volumes ports f) rest.
Proof.
  intros Hk Ho Hc Hm Hl Hg. unfold workload_args. rewrite <-!(assoc_L (++)). cbn [app].
  erewrite loop_takes; [|done|rewrite Hk by set_solver; exact (takes_pretty _ _ _ _ _ Ho)].
  erewrite loop_takes; [|done|rewrite Hk by set_solver; exact (takes_pretty _ _ _ _ _ Hc)].
  erewrite loop_takes; [|done|rewrite Hk by set_solver; exact (takes_pretty _ _ _ _ _ Hm)].
  erewrite loop_takes; [|done|rewrite Hk by set_solver; exact (takes_pretty _ _ _ _ _ Hl)].
  erewrite loop_takes; [|done|rewrite Hk by set_solver; exact (takes_pretty _ _ _ _ _ Hg)].
  rewrite (loop_option _ _ _ (λ v, set_fl_image (Some v))) by (done || intros; rewrite Hk by set_solver; done).
  rewrite (loop_repeat _ _ (λ v f, set_fl_volumes (fl_volumes f ++ [v]) f))
    by (done || intros; rewrite Hk by set_solver; done).
  rewrite (loop_repeat _ _ (λ v f, set_fl_ports (fl_ports f ++ [v]) f))
    by (done || intros; rewrite Hk by set_solver; done).
  rewrite foldl_volumes, foldl_ports. f_equal. by destruct image.
Qed.

Lemma submit_knows : knows_workload submit_flag.
Proof. intros flag value f Hin. unfold submit_flag. by repeat (rewrite bool_decide_false by set_solver). Qed.
Lemma service_knows : knows_workload service_flag.
Proof.
  intros flag value f Hin. unfold service_flag. by repeat (rewrite bool_decide_false by set_solver).
Qed.

(** Typed fields as hypotheses. *)
Ltac typed_fields H :=
  unfold request_typed, fits64, fits32 in H; cbn [forallb from_option] in H;
  rewrite ?andb_true_iff, ?N.leb_le in H; decompose [and] H; clear H.

Lemma submit_parses owner cpus mem lifetime command keep_alive volumes ports grace image gpus :
  let r := CrSubmit owner cpus mem lifetime command keep_alive volumes ports grace image gpus in
  request_typed r = true → submit_request (tail (request_args r)) = Ok r.
Proof.
  intros r Ht. subst r. typed_fields Ht. cbn [request_args tail]. unfold submit_request.
  rewrite loop_workload by (assumption || apply submit_knows).
  assert (∀ f rest, flag_loop submit_flag f (bare_arg "--keep-alive" keep_alive ++ "--gpu" :: rest)
    = flag_loop submit_flag (set_fl_keep_alive (keep_alive || fl_keep_alive f) f) ("--gpu" :: rest)) as Hka.
  { intros f rest. destruct keep_alive; [|by destruct f]. cbn [bare_arg app orb]. by apply loop_alone. }
  cbn [app]. rewrite Hka. erewrite loop_takes; [|done|refine (takes_pretty _ _ _ _ _ _); assumption].
  cbn. rewrite orb_false_r. by destruct image.
Qed.

Lemma service_parses id owner desired max min per_machine cpus mem lifetime command volumes ports grace image :
  let r := CrSubmitService id owner desired max min per_machine cpus mem lifetime command volumes ports grace
             image in
  request_typed r = true → service_request (tail (request_args r)) = Ok r.
Proof.
  intros r Ht. subst r. typed_fields Ht. cbn [request_args tail]. unfold service_request.
  rewrite loop_workload by (assumption || apply service_knows).
  assert (∀ f flag rest, flag_loop service_flag f (bare_arg "--per-machine" per_machine ++ flag :: rest)
    = flag_loop service_flag (set_fl_per_machine (per_machine || fl_per_machine f) f) (flag :: rest)) as Hpm.
  { intros f flag rest. destruct per_machine; [|by destruct f]. cbn [bare_arg app orb]. by apply loop_alone. }
  assert (∀ f rest, flag_loop service_flag f (option_arg "--min" (pretty <$> min) ++ rest)
    = flag_loop service_flag (match min with Some m => set_fl_min (Some m) f | None => f end) rest) as Hmin.
  { intros f rest. destruct min as [m|]; [|done]. cbn [option_arg fmap option_fmap option_map from_option app].
    apply loop_takes; [done|]. refine (takes_pretty _ (set_fl_min ∘ Some) _ _ _ _). by apply N.leb_le. }
  assert (∀ f rest, flag_loop service_flag f (option_arg "--max" (pretty <$> max) ++ rest)
    = flag_loop service_flag (match max with Some m => set_fl_max (Some m) f | None => f end) rest) as Hmax.
  { intros f rest. destruct max as [m|]; [|done]. cbn [option_arg fmap option_fmap option_map from_option app].
    apply loop_takes; [done|]. refine (takes_pretty _ (set_fl_max ∘ Some) _ _ _ _). by apply N.leb_le. }
  cbn [app]. rewrite Hmin, Hmax, Hpm. erewrite loop_takes; [|done..].
  erewrite loop_takes; [|done|refine (takes_pretty _ _ _ _ _ _); assumption].
  destruct image, min, max; cbn; by rewrite orb_false_r.
Qed.

Lemma scale_parses id target :
  target ≤ u32_max → scale_request ["--id"; id; "--target"; pretty target] = Ok (CrScaleService id target).
Proof.
  intros Ht. unfold scale_request. erewrite loop_takes; [|done..].
  erewrite loop_takes; [|done|exact (takes_pretty _ _ _ _ _ Ht)]. done.
Qed.

Definition verb_of (r : ClientRequest) : string := default "" (head (request_args r)).

Lemma request_parses r :
  request_typed r = true →
  request_args r = verb_of r :: tail (request_args r) ∧ verb_of r ∈ verbs
  ∧ client_request (verb_of r) (tail (request_args r)) = Ok r.
Proof.
  intros Ht. split; [by destruct r|]. split; [destruct r; cbn; unfold verbs; set_solver|]. destruct r.
  - by apply submit_parses.
  - by apply service_parses.
  - apply scale_parses. by apply N.leb_le.
  - done.
  - unfold client_request. cbn. rewrite parse_flag_pretty; [done|]. by apply N.leb_le.
  - unfold client_request. cbn. rewrite parse_flag_pretty; [done|]. by apply N.leb_le.
Qed.

(** ** The address *)

(** No [-c] in front of [--]. *)
Fixpoint clean (args : list string) : bool :=
  match args with
  | [] => true
  | arg :: rest => bool_decide (arg = "--") || negb (bool_decide (arg = "-c")) && clean rest
  end.

Lemma extract_clean connect args : clean args = true → extract_connect connect args = Ok (args, connect).
Proof.
  induction args as [|arg rest IH]; [done|]. cbn [clean extract_connect].
  case_bool_decide; [done|]. case_bool_decide; [done|]. cbn. intros Hc. by rewrite IH.
Qed.

Lemma clean_app pre rest : Forall (λ a, a ≠ "-c") pre → clean rest = true → clean (pre ++ rest) = true.
Proof.
  induction 1 as [|a pre Ha _ IH]; intros Hr; [done|]. cbn. rewrite (bool_decide_false (a = "-c")) by done.
  cbn. rewrite IH by done. by rewrite orb_true_r.
Qed.

Lemma pretty_not_c (n : N) : pretty n ≠ "-c".
Proof.
  intros Hp. pose proof (parse_uint_pretty n n ltac:(lia)) as Hn. rewrite Hp in Hn. by vm_compute in Hn.
Qed.

Lemma option_arg_clean flag value : flag ≠ "-c" → Forall (λ a, a ≠ "-c") (option_list value) →
  Forall (λ a, a ≠ "-c") (option_arg flag value).
Proof. intros Hf Hv. destruct value; [|constructor]. by constructor. Qed.
Lemma repeat_arg_clean flag values : flag ≠ "-c" → Forall (λ a, a ≠ "-c") values →
  Forall (λ a, a ≠ "-c") (repeat_arg flag values).
Proof. intros Hf. induction 1; [constructor|]. by apply Forall_cons_2, Forall_cons_2. Qed.
Lemma pretty_arg_clean flag (value : option N) : flag ≠ "-c" →
  Forall (λ a, a ≠ "-c") (option_arg flag (pretty <$> value)).
Proof. intros Hf. apply option_arg_clean; [done|]. destruct value; [apply Forall_singleton, pretty_not_c|constructor]. Qed.

Lemma workload_args_clean owner cpus mem lifetime grace image volumes ports :
  Forall (λ a, a ≠ "-c") (volumes ++ ports ++ option_list image) →
  Forall (λ a, a ≠ "-c") (workload_args owner cpus mem lifetime grace image volumes ports).
Proof.
  rewrite !Forall_app. intros (Hv & Hp & Hi). unfold workload_args. cbn [app].
  do 10 (apply Forall_cons_2; [done || apply pretty_not_c|]).
  rewrite !Forall_app. auto using option_arg_clean, repeat_arg_clean.
Qed.

Lemma request_args_clean r : Forall (λ a, a ≠ "-c") (request_words r) → clean (request_args r) = true.
Proof.
  destruct r; cbn [request_words request_args]; intros Hw.
  - change (clean (["submit"] ++ workload_args owner cpus memory_mib lifetime_secs grace_secs image volumes ports
      ++ bare_arg "--keep-alive" keep_alive ++ ["--gpu"; pretty gpus] ++ "--" :: command) = true).
    rewrite !(assoc_L (++)). apply clean_app; [|done]. rewrite !Forall_app.
    split_and!; [by apply Forall_singleton|by apply workload_args_clean|by destruct keep_alive; [apply Forall_singleton|constructor]|].
    repeat (apply Forall_cons_2; [done || apply pretty_not_c|]); constructor.
  - apply Forall_cons in Hw as [Hid Hw].
    change (clean (["service"] ++ workload_args owner cpus memory_mib lifetime_secs grace_secs image volumes ports
      ++ option_arg "--min" (pretty <$> min) ++ option_arg "--max" (pretty <$> max)
      ++ bare_arg "--per-machine" per_machine ++ ["--id"; id; "--target"; pretty desired] ++ "--" :: command) = true).
    rewrite !(assoc_L (++)). apply clean_app; [|done]. rewrite !Forall_app.
    split_and!; [by apply Forall_singleton|by apply workload_args_clean|by apply pretty_arg_clean|by apply pretty_arg_clean
      |by destruct per_machine; [apply Forall_singleton|constructor]|].
    repeat (apply Forall_cons_2; [done || apply pretty_not_c|]); constructor.
  - apply Forall_cons in Hw as [Hid _]. rewrite <-(app_nil_r [_; _; _; _; _]). apply clean_app; [|done].
    repeat (apply Forall_cons_2; [done || apply pretty_not_c|]); constructor.
  - done.
  - rewrite <-(app_nil_r [_; _]). apply clean_app; [|done]. repeat (apply Forall_cons_2; [done || apply pretty_not_c|]); constructor.
  - rewrite <-(app_nil_r [_; _]). apply clean_app; [|done]. repeat (apply Forall_cons_2; [done || apply pretty_not_c|]); constructor.
Qed.

Section main.
Context (sur : Surroundings) (reach : string → option string → result string unit).

(** C35. A request holds the numbers that were typed.  Whatever the client is
    given, when it sends a request, the arguments after the verb without [-c]
    say so: every owner, amount, lifetime, count, grace period and lease id is
    the decimal value of the text after the last flag for it, or its default
    when there is none; and every number on the line, also one given twice, is
    decimal and fits its field's 64 or 32 bits: any other text is an exit, never
    a wrapped, truncated or partly read value. *)
Theorem cli_numbers_as_typed args addr token r :
  main sur reach args = Ok (RunClient addr token r) →
  ∃ verb rest, extract_connect None args = Ok (verb :: rest, Some addr) ∧ request_reads verb rest r.
Proof.
  unfold main. destruct (extract_connect None args) as [[args' connect]|]; [|done]. cbn.
  destruct args' as [|verb rest]; [done|]. case_bool_decide; [by destruct (serve _ _)|].
  case_bool_decide; [by destruct (agent _ _)|]. case_bool_decide; [|done]. unfold client.
  destruct connect as [addr'|]; [|done]. destruct (reach _ _); [|done].
  destruct (client_request verb rest) as [r'|] eqn:Hr; [|done]. intros [= <- _ <-]. exists verb, rest.
  by split; [|apply client_request_reads].
Qed.

(** C34. Every request of the wire protocol can be asked for on the command line:
    written out as arguments after [-c ADDR], it is parsed back to exactly that
    request for that address; the workload's command after [--] is passed on
    word for word, even when it contains [-c], [--] or flags of its own.  Only
    a text option that is itself [-c] cannot be written. *)
Theorem cli_roundtrip addr r :
  request_typed r = true → Forall (λ a, a ≠ "-c") (request_words r) →
  reach addr (environment_token sur) = Ok () →
  main sur reach ("-c" :: addr :: request_args r) = Ok (RunClient addr (environment_token sur) r).
Proof.
  intros Ht Hw Hreach. unfold main.
  change (extract_connect None ("-c" :: addr :: request_args r)) with (extract_connect (Some addr) (request_args r)).
  rewrite extract_clean by by apply request_args_clean. cbn [mbind result_bind].
  destruct (request_parses r Ht) as (Hargs & Hv & Hr). rewrite Hargs.
  assert (verb_of r ≠ "serve" ∧ verb_of r ≠ "agent") as [? ?] by by destruct r.
  rewrite !bool_decide_false by done. rewrite bool_decide_true by done. unfold client.
  rewrite Hreach. by rewrite Hr.
Qed.
End main.

(** A submission whose command has a [-c] and a [--] of its own. *)
Definition closed_world : Surroundings :=
  mkSurroundings (Some "secret") None None (Some "/root") (λ _, Err "not found") (Some 0xDEADBEEF) 7
    (λ _, Ok ()) (λ _ _, Ok ()).
Definition shell_request : ClientRequest :=
  CrSubmit 4 2 512 90 ["sh"; "-c"; "run -- it"; "--"] true ["/data:/mnt"] ["80:8080"] 5 (Some "alpine") 1.

(** The memory is given twice, the second time with a plus. *)
Abbreviation typed_line := ["submit"; "-c"; "host:7000"; "--mem-mib"; "64"; "--mem-mib"; "+0128"; "--"; "true"] (only parsing).

Lemma cli_numbers_as_typed_witness :
  main closed_world (λ _ _, Ok ()) typed_line
    = Ok (RunClient "host:7000" (Some "secret") (CrSubmit 1 1 128 60 ["true"] false [] [] 0 None 0))
  ∧ ∃ verb rest, extract_connect None typed_line = Ok (verb :: rest, Some "host:7000")
      ∧ request_reads verb rest (CrSubmit 1 1 128 60 ["true"] false [] [] 0 None 0).
Proof.
  assert (main closed_world (λ _ _, Ok ()) typed_line
    = Ok (RunClient "host:7000" (Some "secret") (CrSubmit 1 1 128 60 ["true"] false [] [] 0 None 0))) as Hrun
    by (vm_compute; reflexivity).
  split; [exact Hrun|]. exact (cli_numbers_as_typed closed_world (λ _ _, Ok ()) _ _ _ _ Hrun).
Defined.

(** What does not fit is refused. *)
Example too_large_refused :
  client_request "revoke" ["18446744073709551616"]
  = Err (mkExit 1 "archon: invalid value for lease id: '18446744073709551616' (number too large to fit in target type)").
Proof. vm_compute. reflexivity. Qed.

Lemma cli_roundtrip_witness :
  request_typed shell_request = true
  ∧ main closed_world (λ _ _, Ok ()) ("-c" :: "host:7000" :: request_args shell_request)
    = Ok (RunClient "host:7000" (Some "secret") shell_request).
Proof.
  split; [vm_compute; reflexivity|].
  apply (cli_roundtrip closed_world (λ _ _, Ok ()) "host:7000" shell_request);
    [vm_compute; reflexivity|repeat (apply Forall_cons_2; [discriminate|]); constructor|reflexivity].
Defined.

(** ** The agent's identity *)

Lemma hex_char_graphic d : d < 16 → graphic (hex_char d) = true.
Proof. intros Hd. do 16 (destruct d as [|d] using N.peano_ind; [by vm_compute|clear IHd]). lia. Qed.

Lemma hex_digits_graphic width n acc :
  all_chars graphic acc = true → all_chars graphic (hex_digits width n acc) = true.
Proof.
  revert n acc. induction width as [|width IH]; intros n acc Hacc; [done|]. apply IH. cbn.
  by rewrite hex_char_graphic by by apply N.mod_lt.
Qed.

Lemma hex_digits_length width n acc : String.length (hex_digits width n acc) = (width + String.length acc)%nat.
Proof. revert n acc. induction width as [|width IH]; intros n acc; [done|]. cbn [hex_digits]. rewrite IH. cbn. lia. Qed.

Lemma hex16_stable n : trim (hex16 n) = hex16 n ∧ hex16 n ≠ "".
Proof.
  split; [apply trim_graphic; by apply hex_digits_graphic|]. intros Hn.
  pose proof (hex_digits_length 16 n "") as Hl. unfold hex16 in Hn. by rewrite Hn in Hl.
Qed.

(** An agent without an id in its state directory generates one, writes it
    there, and presents the same one on every later start that finds it. *)
Theorem instance_id_stable sur sur' state id :
  let path := join_path state "archon/agent-id" in
  state_directory sur = Some state → state_directory sur' = Some state →
  (∀ text, read_file sur path = Ok text → trim text = "") →
  load_instance_id sur None = Ok id →
  write_file sur path id = Ok ()
  ∧ (read_file sur' path = Ok id → load_instance_id sur' None = Ok id).
Proof.
  intros path Hs Hs' Hold. unfold load_instance_id. rewrite Hs, Hs'. fold path.
  assert (match read_file sur path with Ok text => trim text | Err _ => "" end = "") as ->.
  { destruct (read_file sur path) as [text|] eqn:Hr; [by apply Hold|done]. }
  cbn. unfold fresh_instance_id. destruct (create_dir_all sur _); [|done].
  assert (∃ n, match urandom sur with Some n => hex16 n | None => hex16 (clock_xor_pid sur) end = hex16 n) as [n ->]
    by (destruct (urandom sur); eauto).
  destruct (write_file sur path (hex16 n)) as [[]|] eqn:Hw; [|done]. intros [= <-]. split; [done|]. intros ->.
  destruct (hex16_stable n) as [-> Hne]. by rewrite bool_decide_false.
Qed.

(** ** Tokens *)

(** A token file that holds only white space does not secure anything: the
    server reports that link authentication is enabled, but the key of its
    links, whatever the hash, is the public one of a server without a token,
    which anybody can derive; started with an empty [ARCHON_TOKEN] instead, it
    warns that the links are open. *)
Theorem blank_token_file_opens sha256 sur args o plan path content :
  serve_options (mkServe None None None false None 5 10000 (env_cgroup_root sur)) args = Ok o →
  so_token_file o = Some path → read_file sur path = Ok content → trim content = "" →
  serve sur args = Ok plan →
  sv_says plan = AUTH_ENABLED ∧ psk_for sha256 (sv_token plan) = psk_for sha256 None.
Proof.
  intros Ho Hf Hr Ht. unfold serve. rewrite Ho. cbn [mbind result_bind].
  destruct (so_listen o); [|done]. destruct (so_log o); [|done].
  unfold load_token. rewrite Hf, Hr, Ht. cbn. by intros [= <-].
Qed.

Definition blank_file : Surroundings :=
  mkSurroundings None None None (Some "/root") (λ _, Ok " ") None 7 (λ _, Ok ()) (λ _ _, Ok ()).

Lemma blank_token_file_opens_witness :
  let args := ["--listen"; "0.0.0.0:7000"; "--log"; "log"; "--token-file"; "token"] in
  let plan := mkServePlan "0.0.0.0:7000" "log" (LinkLocal None) (Some "") 5 10000 AUTH_ENABLED in
  serve blank_file args = Ok plan
  ∧ sv_says plan = AUTH_ENABLED ∧ psk_for id (sv_token plan) = psk_for id None.
Proof.
  intros args plan. split; [vm_compute; reflexivity|].
  apply (blank_token_file_opens id blank_file args
           (mkServe (Some "0.0.0.0:7000") (Some "log") None false (Some "token") 5 10000 None) plan "token" " ");
    vm_compute; reflexivity.
Defined.
